(* ===== verification/_CoqProject ===== *)
-Q . S2P
Prelude.v
Spot.v
ProofGraph.v
Gtc.v
GtcReduce.v
ProofAut.v
Trace.v
Soundness.v
SoundnessSpec.v
Soundcheck.v
Minimize.v
MinimizeProofs.v
CheckerTheorems.v
Exn.v
ProofNode.v
CyclicProof.v
ProofInvariant.v
ProofQueries.v
ProofSound.v
ProofCopy.v
ProofCompose.v
Descent.v
ProofRule.v
RuleContract.v
Prover.v
CheckProof.v
AnyRoot.v
Parity.v
ProverTheorems.v
AbdRule.v
Abducer.v
VarManager.v
TagPairs.v
SeqTactics.v
SearchTheorems.v
Subst.v
Listset.v
Unification.v
OrdConstraints.v
OrdTheory.v
OrdUnify.v
Uf.v
SymHeap.v
LogicTheorems.v
CHeap.v
HeapLogic.v
AplasStack.v
SchorrWaite.v
Iter.v
Composite.v
BenchTheorems.v
Atomics.v
Queue.v
QueueSpec.v
QueueInv.v
QueueSystem.v
QueueClient.v
QueueTheorems.v
LcSet.v
LcSetSpec.v
LcSetInv.v
LcSetSystem.v
LcSetClient.v
LcSetSolo.v
LcSetTheorems.v
