(* ===== verification/Prelude.v ===== *)
(** * Cyclist: the soundness checker of cyclic proofs, the prover on top of it,
      the data of its logics, and its C benchmarks

    Cyclist is a prover for cyclic proofs, written in OCaml.  A cyclic proof is
    a finite graph of sequents, and it is sound only when every infinite path
    has a trace that progresses infinitely often.  That check is the part of the
    program written in C++ ([src/src/generic/*.c], [*.hpp]): the proof graph is
    turned into two omega-automata and the Spot library decides whether the
    language of the first is included in that of the second.  The generic prover
    ([src/src/generic/*.ml]) builds cyclic proofs of any logic by iterated
    depth-first search and calls the check for every back-link; the logics are
    built from constraints on tags, unifiers, equalities and symbolic heaps
    ([src/src/generic], [src/src/lib], [src/src/seplog]).  The other C code of the
    repository is a set of pointer programs ([src/benchmarks/slmc]) on which the
    tools are run.  This development models all four.

    ** The checker

    - [Soundness] models [soundness.c], the functions OCaml calls: the two
      globals [proof] and [bdd_map] are the record [Globals], and each exported
      function is one definition of the same name in the monad [M Globals].
      The asserts are part of the definitions; a failed one is [Err EAssert].
    - [ProofGraph] models [proof.hpp] and [proof.c]: class [Proof] is the record
      [ProofData], with the unordered maps and sets as [gmap] and [gset].  A
      vertex is a BDD, the conjunction of the propositions of its binary
      number.  [operator\[\]] of a map, which inserts, is [map_touch].
    - [ProofAut] models [proof_aut.hpp] and [proof_aut.c]: the states, their
      order and hash, the two iterators, and the automaton Spot sees, obtained
      by driving the iterators with the protocol of [Spot.drain].
    - [Trace] models [trace.hpp] and [trace.c] in the same way.  The states are
      interned: [get_state] returns an address in a store, and states compare
      through it.
    - [Soundcheck] and [Minimize] model the OCaml client,
      [src/src/generic/soundcheck.ml]: abstract proofs, [valid], the call
      sequence [check_session], the minimisation of proofs and [check_proof]
      with its cache.

    Spot and BuDDy are not part of the repository.  File [Spot] states what is
    used of them as classes: BDDs with their meaning, the dictionary of
    propositions, the iteration order of hash containers, and the two algorithms
    called ([SpotAlgos]: the copy of an automaton into a graph and [contains], by
    their effect on languages).  Each class has an instance in the same file that
    meets its laws; all but the automata algorithms, which decide inclusion by
    excluded middle, can be evaluated.  The logarithm that OCaml computes in floating point is
    the class [FloatLog] of [Soundcheck], and the structural equality of cache
    keys is [TreeEq] of [Minimize].

    [Gtc] defines the global trace condition on graphs, the property the checker
    has to decide, and [GtcReduce] shows that removing dead ends and fusing
    chains preserves it.  [SoundnessSpec] holds an abstract specification of the
    exported functions (finite sets of identifiers, edges and pairs) and the
    refinement proof of each function, of any sequence of calls, and of the
    verdict.  [MinimizeProofs] proves the minimisation and the cache correct.

    ** The prover

    - [Exn]: OCaml computations that raise exceptions and keep a state, with
      rules for total correctness ([returns]).
    - [ProofNode] models [proofnode.ml], with the signature [Sequent.S] as a
      class; [CyclicProof] models [proof.ml]: module [Prf] has every constructor
      and query, on maps from indices to a parent and a node.
    - [ProofInvariant]: the documented invariant of proofs ([Wf.t]), what each
      constructor changes ([Wf.closes]), its exceptions, and that every proof
      built by the constructors has the invariant.  [ProofQueries]: the tree of
      inferences, [is_closed_at] and [get_ancestry].
    - [ProofSound]: a calculus says which axioms, inferences and back-links are
      rule instances; a proof is [good] when it has the invariant, consists of
      rule instances, and meets the global trace condition.  [Descent]: the root
      of a closed good proof is valid, when the rules are locally sound, by
      infinite descent.  [ProofCopy] and [ProofCompose]: [add_subprf] builds a
      copy and keeps proofs good.
    - [ProofRule] models [proofrule.ml] and [Prover] models [prover.ml]; the
      contract between them is [RuleContract.rule_ok], which the rules of the
      calculus have and all combinators keep.  The soundness checker behind the
      rules is the class [GtcChecker]; [Parity] has its instance, the checker of
      [Minimize], and a small logic in which the theorems are instantiated.
    - [AbdRule] models [abdrule.ml] and [Abducer] models [abducer.ml], the
      breadth-first search for a proof together with definitions.  The calculus
      depends on the definitions ([Extensible]: what is an instance of a rule
      stays one when definitions are extended), and the contract between the two
      is [abdrule_ok].
    - [SeqTactics] models [seqtactics.ml], the combinators of inference rules on
      sequents; [TagPairs] models [tagpairs.ml], and [VarManager] the names and
      the fresh variables of [varManager.ml] with the classification of
      [tags.ml].  The table of names ([Hashcons]) is a class with an instance.
    - [CheckProof] models the command-line checker [checkproof.ml], from its
      parsed lines on; [AnyRoot] treats its checks from roots other than 0.

    ** The data of the logics

    - [Subst] models module [Subst] of [varManager.ml], the maps from variables
      to variables; [Listset] models [listset.ml] and [listmultiset.ml], sets and
      multisets as sorted lists over the interface [BasicType], with what they
      use of [misc.ml].
    - [Unification] models [unification.ml], which lifts a unifier of elements
      to containers, and the unifiers of [tags.ml].  A unifier passes the states
      it finds to a continuation until one has a result; [computes] says that
      the search gives the first result on a list of solutions, and the theorems
      describe that list ([solutions]).
    - [OrdConstraints] models [ord_constraints.ml]: strict and weak inequalities
      between tags.  [OrdTheory] says what they mean: a valuation gives every tag
      an ordinal (class [Ordinals], of which the natural numbers are an
      instance), [derives] is the inductive definition of what follows, and the
      closure, the test for consistency, subsumption, the generated constraints
      and the schemas are related to it.  [OrdUnify] proves the unifiers of
      constraint sets.
    - [Uf] models [term.ml], [tpair.ml] and [uf.ml]: equalities as a map from
      terms to representatives; [models] is its meaning, and [uf_ok] the
      invariant that a representative is greater, by which [find] ends.
    - [SymHeap] models [deqs.ml] and of [ptos.ml] and [heap.ml] what concerns
      equalities, disequalities and points-to atoms; [cells] is the meaning of
      separated points-to atoms.

    ** The benchmark programs

    [CHeap] is the memory of these programs: structs with fields that are unset
    until written, [malloc] that may return null, [free], [rand], [atoi],
    variable length arrays and loops.  [int] overflow, reads of unset fields and
    accesses outside an array are errors.  The allocator and the generator are
    classes with laws.  [HeapLogic] is a linear separation logic over it, an
    instance of the Iris logic interface: [wp E m P] says that [m] ends without
    error in [P], or calls [abort] while [E] holds; [emp] is the empty heap, so a
    contract that ends in [emp] excludes leaks.  [SchorrWaite], [AplasStack],
    [Iter] and [Composite] model [schorr_waite.c], [aplas-stack.c], [iter.c] and
    [composite4.c]; each has the program's functions, the predicates its
    annotations use, and the contracts.

    ** The threaded programs

    [queue.c] is a lock-free queue for many enqueuers and one dequeuer, [lcset.c]
    a sorted list with a lock in every node.  A function that runs concurrently
    is a state machine: a constructor of [enqueue_pc], [dequeue_pc] or [pc] is a
    point before an access to shared memory with the locals in scope, and a step
    makes that access and the local computation up to the next.  Schedules are
    lists of threads, and the theorems hold for all of them.  Memory is
    sequentially consistent; [queue_race_free] shows that the queue does not
    depend on that for its plain accesses.

    - [Atomics]: the operations of [atomics.h] and [locks.h], which are not in the
      repository, as a class with laws and an instance.
    - [Queue] models [queue.c]; [QueueSpec] is the atomic queue ([Fifo]);
      [QueueInv] says what each thread owns at each point and proves every step;
      [QueueSystem] composes the threads, bounds their steps and shows the
      absence of races; [QueueClient] models [queue_client.c] and
      [queue_client2.c].
    - [LcSet], [LcSetSpec] ([Spec]), [LcSetInv], [LcSetSystem] and [LcSetClient]
      do the same for [lcset.c] and [lcset_client.c].  [LcSetSolo] has the runs in
      which one thread of the client runs alone, with the steps its operations
      take, and what is left for the adder when [main] has freed the set.

    ** The theorems

    [CheckerTheorems], [ProverTheorems], [SearchTheorems], [LogicTheorems],
    [BenchTheorems], [QueueTheorems] and [LcSetTheorems] state the results; the
    numbered ones are the main ones.

    - C1 to C3: the verdict.  [check_proof] returns true exactly for the proofs
      that meet the global trace condition; so does a session of [check_session]
      or any sequence of calls of the exported functions.
    - C4 to C6: the automata.  The language of each automaton in terms of paths
      and traces, and inclusion as the global trace condition.
    - C7 and C8: the invariant of [Proof] and the creation of vertices.  C9:
      minimisation keeps the condition and ends.  C10: the cache ignores the
      root, a departure.
    - C11 and C12: the search returns, proves only valid sequents, and tries the
      depths one by one.  C13 and C14: back-links are kept exactly when they are
      sound, and rules and combinators keep the contract the search relies on.
    - C15 to C18: proof objects: the check, grafting, the invariant, the results
      and exceptions of the constructors.  C19: the checker from any root.  C20:
      the command-line checker loads exactly the proofs it is given.
    - C21 and C22: the abducer returns, trips no assertion and proves only valid
      sequents under the definitions it returns; its rules keep their contract.
      C23 and C24: tactics are sound, and when [repeat] ends.
    - C25 and C26: constraints on tags: satisfiability, entailment and the pairs
      of tags are decided, and schemas are tautologies.  C27: unification of
      constraints finds all substitutions, and only these.
    - C28 and C29: equalities: what they entail, union, substitution and
      subsumption; when the removal of a variable keeps what follows.  C30:
      symbolic heaps: consistency and the entailed (dis)equalities.
    - C31: Schorr-Waite marking; [BenchTheorems] has the contracts of the other
      functions and of the [main] functions from the empty heap too, for any
      allocator and generator.
    - C32 to C35: the queue: linearizability, freedom from races, progress of
      the enqueuers, and a bound on every call of the dequeuer.  C36: its client.
    - C37 and C38: the set: linearizability and freedom from deadlock.  C39: its
      client is safe until it disposes of the set.  C40: it does so under a running
      thread, for any number of elements, and that thread cannot end then.

    The theorems without a number treat what remains: letters of vertices, pairs,
    orders and hashes, the interned states and the transitions, refused calls, the
    two parts of minimisation, the queries on proofs, fresh variables and
    substitutions of fresh tags, [avoid] and [partition] of substitutions,
    [biunify], the generated constraints, the other benchmarks, and disposal of
    the queue and of the set without leaks.  Some are departures: an assertion of
    the checker that fails on a valid proof ([check_proof_asserts_on_valid]), input on which the
    command-line checker stops ([checkproof_stops]), [extract_subproof] on back-links that
    change tags ([extract_subproof_drops_tags]), the cut of the abducer ([bfs_cut_misses_proofs]),
    and the fresh tag that [generate] can take twice ([generate_clash]).

    ** Bounds and fuel

    Integers of C are [Z] with explicit checks ([int_add], [int_sub],
    [int_shr]: signed overflow is an error) or explicit wrap-around ([wrapu],
    [wrap32]).  Loops of the benchmark programs take fuel; every contract states
    how much is enough (three rounds per node for Schorr-Waite, the length of a
    list, the depth of a tree) and holds for all larger values, and running out
    is the error [EFuel], which no contract allows.  Threads take no fuel: a run
    is as long as its schedule, and the bounds on their steps are theorems.  The
    iterators are drained
    with as much fuel as they have elements ([left_of]); the minimisation loops
    take the size of the proof, each round removing a node.  The walks of
    [proof.ml] take the number of nodes of the proof, which bounds the depth of
    its tree since a premise is newer than its node ([extract_subproof] one more:
    every node is copied once); the search takes the depth bound, and the loop
    over depths the number of depths.  The search is bounded by 2^28 nodes, the
    size the checker's vertex numbers allow, through [growth].  The loop of the
    abducer and [repeat] take fuel that no formula bounds: that enough fuel
    exists, and that the result does not depend on it, is part of the theorems.
    The search for fresh variables takes as many levels as there are names to
    avoid and to find.  The closure of n tags adds at most 2n^2 constraints, one
    at least in every round but the last; [find] walks at most as many bindings as
    the map has, and [remove_schemas] removes a constraint in every round.

    ** Not modelled

    Of the logics ([seplog], [firstorder], [while], [procedure]): the unifiers of
    terms ([seplog/term.ml], [unify.ml], the partial unifiers of [uf.ml]),
    inductive predicates, separating conjunction and the subheaps of [heap.ml],
    formulas, sequents and rules; the theorems on the search hold for every
    [Calculus], so a logic is an instance to be supplied.  The
    parsers, the command lines, and the OCaml library, of which the operations
    used are modelled where they are used; hash-consing, which is a class; reading
    and printing in the OCaml code; failing allocation in the C++ code; weak
    memory in the threaded programs, whose locks and atomic operations are single
    steps; the statistics, [printf] and the garbage collector interface.  The
    ghost annotations of the benchmarks are not translated as code: the fractional
    permissions by which iterators share a list are replaced by predicates that
    name the addresses of the nodes.

    ** Continuations

    [extract_subproof] on proofs whose back-links keep the tags; the unifiers of
    terms, which wrap each other by [transform] of [unification.ml]; predicates and separating
    conjunction of symbolic heaps, on top of [cells]. *)

From stdpp Require Export prelude gmap sets list strings pretty sorting.

(** ** Outcomes of a run *)

(** Why a run of the C code stops before it returns. *)
Inductive err :=
| EAssert     (** an [assert] whose condition is false *)
| EAbort      (** an explicit call of [abort] *)
| EFault      (** an access through a null, dangling or foreign pointer *)
| EUB         (** arithmetic or an iterator use the language leaves undefined *)
| EInvalidArg (** OCaml's [Invalid_argument] *)
| EExn        (** any other OCaml exception but a failed assertion *)
| EFuel.      (** the bound given to an executable loop was too small *)

#[global] Instance err_eq_dec : EqDecision err.
Proof. solve_decision. Defined.

Inductive res (A : Type) :=
| Ok (a : A)
| Err (e : err).
Arguments Ok {A} a.
Arguments Err {A} e.

Definition is_ok {A} (r : res A) : bool :=
  match r with Ok _ => true | Err _ => false end.

(** ** The state and error monad of the imperative code *)

Definition M (S A : Type) : Type := S → res (A * S).

#[global] Instance M_ret {S} : MRet (M S) := λ A a s, Ok (a, s).
#[global] Instance M_bind {S} : MBind (M S) := λ A B k m s,
  match m s with
  | Ok (a, s') => k a s'
  | Err e => Err e
  end.

Definition fail {S A} (e : err) : M S A := λ _, Err e.
Definition get {S} : M S S := λ s, Ok (s, s).
Definition gets {S A} (f : S → A) : M S A := λ s, Ok (f s, s).
Definition put {S} (s : S) : M S unit := λ _, Ok (tt, s).
Definition modify {S} (f : S → S) : M S unit := λ s, Ok (tt, f s).

(** [assert(b)], enabled as in the build. *)
Definition assert {S} (b : bool) : M S unit :=
  if b then mret tt else fail EAssert.

(** A pure computation that may fail, run inside the monad. *)
Definition lift {S A} (r : res A) : M S A := λ s,
  match r with Ok a => Ok (a, s) | Err e => Err e end.

(** [for (x : l) f(x);] *)
Fixpoint for_each {S A} (l : list A) (f : A → M S unit) : M S unit :=
  match l with
  | [] => mret tt
  | x :: l => f x ;; for_each l f
  end.

Lemma bind_Ok {S A B} (m : M S A) (k : A → M S B) s a s' :
  m s = Ok (a, s') → (m ≫= k) s = k a s'.
Proof. intros H. unfold mbind, M_bind. by rewrite H. Qed.

Lemma bind_Err {S A B} (m : M S A) (k : A → M S B) s e :
  m s = Err e → (m ≫= k) s = Err e.
Proof. intros H. unfold mbind, M_bind. by rewrite H. Qed.

Lemma bind_inv {S A B} (m : M S A) (k : A → M S B) s b s'' :
  (m ≫= k) s = Ok (b, s'') → ∃ a s', m s = Ok (a, s') ∧ k a s' = Ok (b, s'').
Proof. unfold mbind, M_bind. destruct (m s) as [[a s']|]; naive_solver. Qed.

Lemma assert_Ok {S} (b : bool) (s : S) x s' :
  assert b s = Ok (x, s') ↔ b = true ∧ s' = s ∧ x = tt.
Proof.
  unfold assert, mret, M_ret, fail. destruct b, x.
  - split; [by intros [= ->]|by intros (_ & -> & _)].
  - by split; intros; destruct_and?.
Qed.

Lemma for_each_app {S A} (l k : list A) (f : A → M S unit) s :
  for_each (l ++ k) f s = (for_each l f ;; for_each k f) s.
Proof.
  revert s. induction l as [|x l IH]; intros s; simpl; [done|].
  unfold mbind, M_bind. destruct (f x s) as [[? s1]|]; [|done].
  rewrite IH. done.
Qed.

(** A loop whose body preserves [I] and never fails on [I] runs to the end. *)
Lemma for_each_inv {S A} (I : list A → S → Prop) (l : list A) (f : A → M S unit) :
  (∀ done x todo s, l = done ++ x :: todo → I done s →
     ∃ s', f x s = Ok (tt, s') ∧ I (done ++ [x]) s') →
  ∀ s, I [] s → ∃ s', for_each l f s = Ok (tt, s') ∧ I l s'.
Proof.
  intros Hf. cut (∀ todo done s, l = done ++ todo → I done s →
    ∃ s', for_each todo f s = Ok (tt, s') ∧ I l s').
  { intros H s HI. apply (H l []); done. }
  induction todo as [|x todo IH]; intros dn s Hl HI; simpl.
  - exists s. rewrite app_nil_r in Hl. by subst.
  - destruct (Hf dn x todo s Hl HI) as (s1 & Hx & HI1).
    destruct (IH (dn ++ [x]) s1) as (s2 & H2 & HI2); [by rewrite <-app_assoc|done|].
    exists s2. split; [|done]. by rewrite (bind_Ok _ _ _ _ _ Hx).
Qed.

(** The state after a successful loop satisfies every property the body keeps. *)
Lemma for_each_preserves {S A} (P : S → Prop) (l : list A) (f : A → M S unit) :
  (∀ x s u s', x ∈ l → P s → f x s = Ok (u, s') → P s') →
  ∀ s u s', P s → for_each l f s = Ok (u, s') → P s'.
Proof.
  induction l as [|x l IH]; simpl; intros Hf s u s' HP.
  - unfold mret, M_ret. naive_solver.
  - intros (u1 & s1 & H1 & H2)%bind_inv.
    eapply (IH (λ y s u s' Hy, Hf y s u s' (list_elem_of_further _ _ _ Hy)) s1); [|done].
    eapply (Hf x); [constructor|done|done].
Qed.

(** ** Machine integers *)

Declare Scope cyc_scope.
Delimit Scope cyc_scope with cyc.

Definition INT_MAX : Z := 2147483647.
Definition INT_MIN : Z := -2147483648.

(** Reduction to [unsigned] of [w] bits and to [int] (two's complement). *)
Definition wrapu (w : Z) (z : Z) : Z := z `mod` 2 ^ w.
Definition wrap32 (z : Z) : Z := (z + 2 ^ 31) `mod` 2 ^ 32 - 2 ^ 31.

Definition int_range (z : Z) : Prop := (INT_MIN ≤ z ≤ INT_MAX)%Z.

#[global] Instance int_range_dec z : Decision (int_range z).
Proof. unfold int_range. apply _. Defined.

(** [a + b] on [int]: overflow is undefined. *)
Definition int_add {S} (a b : Z) : M S Z :=
  if decide (int_range (a + b)) then mret (a + b)%Z else fail EUB.

(** [a - b] on [int]. *)
Definition int_sub {S} (a b : Z) : M S Z :=
  if decide (int_range (a - b)) then mret (a - b)%Z else fail EUB.

(** [a >> b] on [int], [b] a [size_t]: a count of the width or more is undefined. *)
Definition int_shr {S} (a : Z) (b : nat) : M S Z :=
  if decide (b < 32) then mret (Z.shiftr a (Z.of_nat b)) else fail EUB.

Lemma wrap32_id z : int_range z → wrap32 z = z.
Proof.
  unfold int_range, INT_MIN, INT_MAX, wrap32. intros.
  rewrite Z.mod_small; lia.
Qed.

Lemma wrap32_range z : int_range (wrap32 z).
Proof.
  unfold int_range, INT_MIN, INT_MAX, wrap32.
  pose proof (Z.mod_pos_bound (z + 2 ^ 31) (2 ^ 32)). lia.
Qed.

(** ** Maps with C++ [operator\[\]] *)

(** [m\[k\]] inserts the default value when [k] is absent and yields the value. *)
Definition map_touch `{Countable K} {V} (d : V) (k : K) (m : gmap K V) : gmap K V :=
  <[k := default d (m !! k)]> m.

Lemma map_touch_id `{Countable K} {V} (d : V) (k : K) (m : gmap K V) :
  k ∈ dom m → map_touch d k m = m.
Proof.
  intros [v Hv]%elem_of_dom. unfold map_touch. rewrite Hv. by apply insert_id.
Qed.

(** ** Sums over lists *)

Lemma sum_insert {A} (f : A → nat) (l : list A) i x y :
  l !! i = Some x → sum_list_with f (<[i := y]> l) + f x = sum_list_with f l + f y.
Proof.
  revert i. induction l as [|z l IH]; intros [|i] Hi; simplify_eq/=; [lia|].
  specialize (IH i Hi). lia.
Qed.

Lemma sum_le {A} (f g : A → nat) (l : list A) :
  (∀ x, x ∈ l → f x ≤ g x) → sum_list_with f l ≤ sum_list_with g l.
Proof.
  induction l as [|x l IH]; intros H; simpl; [done|].
  pose proof (H x ltac:(by left)). assert (∀ y, y ∈ l → f y ≤ g y) as Hl by (intros; apply H; by right).
  specialize (IH Hl). lia.
Qed.

Lemma sum_add {A} (f : A → nat) n (l : list A) :
  sum_list_with (λ x, f x + n) l = sum_list_with f l + n * length l.
Proof. induction l as [|x l IH]; simpl; [lia|rewrite IH; lia]. Qed.

(** ** Infinite sequences *)

(** A property of positions that holds infinitely often. *)
Definition inf_often (P : nat → Prop) : Prop := ∀ i, ∃ j, i ≤ j ∧ P j.

Lemma inf_often_shift (P : nat → Prop) k :
  inf_often (λ i, P (i + k)) ↔ inf_often P.
Proof.
  split; intros H i.
  - destruct (H i) as (j & ? & ?). exists (j + k). split; [lia|done].
  - destruct (H (i + k)) as (j & ? & ?). exists (j - k). split; [lia|].
    by replace (j - k + k) with j by lia.
Qed.

Lemma inf_often_impl (P Q : nat → Prop) :
  (∀ i, P i → Q i) → inf_often P → inf_often Q.
Proof. intros HPQ H i. destruct (H i) as (j & ? & ?). eauto. Qed.

#[global] Instance inf_often_proper :
  Proper (pointwise_relation nat iff ==> iff) inf_often.
Proof. intros P Q HPQ. split; apply inf_often_impl; intros i; apply HPQ. Qed.

(** ** Automation *)

Create HintDb cyc.
#[export] Hint Resolve wrap32_id wrap32_range : cyc.

(** Splits a hypothesis [(m ≫= k) s = Ok _] into its steps. *)
Ltac inv_bind :=
  repeat match goal with
  | H : mbind _ _ _ = Ok _ |- _ =>
      apply bind_inv in H; destruct H as (? & ? & ? & H)
  | H : assert _ _ = Ok _ |- _ =>
      apply assert_Ok in H; destruct H as (? & ? & ?)
  | H : mret _ _ = Ok _ |- _ => unfold mret, M_ret in H
  | H : get _ = Ok _ |- _ => unfold get in H
  | H : gets _ _ = Ok _ |- _ => unfold gets in H
  | H : put _ _ = Ok _ |- _ => unfold put in H
  | H : modify _ _ = Ok _ |- _ => unfold modify in H
  | _ => progress simplify_eq/=
  end.

(** Evaluates the steps of a monadic run in the goal. *)
Ltac run_step :=
  unfold assert, lift, get, gets, put, modify, fail, mbind, M_bind, mret, M_ret; simpl.
