(* ===== verification/Spot.v ===== *)
(** * Spot and BuDDy: the interface of the model-checking library

    The soundness checker is linked against Spot (omega-automata) and BuDDy
    (binary decision diagrams), which are not part of the repository.  This
    file states what the checker calls of them as classes of operations, the
    documented behaviour it relies on as classes of laws, and the abstract
    notions of Spot's manual those laws refer to: transition-based Büchi
    automata, words, runs and languages.  It ends with a reference instance,
    which shows the laws to be consistent and lets the model run. *)

From Stdlib Require Import ClassicalEpsilon.
From S2P Require Import Prelude.

(** ** Binary decision diagrams *)

(** A valuation of the Boolean variables: one letter of a word. *)
Definition valuation := nat → bool.

(** The operations of [bdd] the checker uses; [bdd_sat] is the Boolean function
    a diagram denotes and appears in specifications only. *)
Class Bdd := {
  bdd : Type;
  bdd_eq_dec :: EqDecision bdd;
  bdd_countable :: Countable bdd;
  bddtrue : bdd;
  bddfalse : bdd;
  bdd_not : bdd → bdd;
  bdd_and : bdd → bdd → bdd;
  bdd_ithvar : nat → bdd;
  bdd_id : bdd → Z;
  bdd_sat : valuation → bdd → bool;
}.

Class BddLaws (B : Bdd) : Prop := {
  sat_true ρ : bdd_sat ρ bddtrue = true;
  sat_false ρ : bdd_sat ρ bddfalse = false;
  sat_not ρ b : bdd_sat ρ (bdd_not b) = negb (bdd_sat ρ b);
  sat_and ρ b c : bdd_sat ρ (bdd_and b c) = bdd_sat ρ b && bdd_sat ρ c;
  sat_ithvar ρ i : bdd_sat ρ (bdd_ithvar i) = ρ i;
  (** [operator==] compares root nodes, which [id] returns. *)
  bdd_id_inj :: Inj (=) (=) bdd_id;
}.

(** ** Dictionaries from atomic propositions to variables *)

Class BddDict := {
  bdd_dict : Type;
  make_bdd_dict : bdd_dict;
  register_proposition : bdd_dict → string → nat * bdd_dict;
  (** the dictionary's documented map from propositions to variables *)
  dict_var : bdd_dict → string → option nat;
}.

Class BddDictLaws (D : BddDict) : Prop := {
  dict_var_make p : dict_var make_bdd_dict p = None;
  dict_var_same d p : dict_var (register_proposition d p).2 p
                      = Some (register_proposition d p).1;
  dict_var_other d p q : p ≠ q →
    dict_var (register_proposition d p).2 q = dict_var d q;
  dict_var_inj d p q i : dict_var d p = Some i → dict_var d q = Some i → p = q;
}.

(** ** Iteration over hash containers *)

(** [std::unordered_set] leaves the order of iteration unspecified. *)
Class HashOrder := {
  hash_iter : ∀ {A : Type} `{Countable A}, gset A → list A;
}.

Class HashOrderLaws (HO : HashOrder) : Prop := {
  hash_iter_perm : ∀ {A : Type} `{Countable A} (X : gset A),
    hash_iter X ≡ₚ elements X;
}.

Lemma elem_of_hash_iter {HO : HashOrder} {HL : HashOrderLaws HO} `{Countable A} (X : gset A) (x : A) :
  x ∈ hash_iter X ↔ x ∈ X.
Proof. rewrite hash_iter_perm. apply elem_of_elements. Qed.

Lemma NoDup_hash_iter {HO : HashOrder} {HL : HashOrderLaws HO} `{Countable A} (X : gset A) :
  NoDup (hash_iter X).
Proof. rewrite hash_iter_perm. apply NoDup_elements. Qed.

(** ** Automata, words and languages *)

Section automata.
Context {B : Bdd}.

(** A transition: its condition, whether it carries the acceptance mark of the
    Büchi condition, its destination. *)
Definition edge (St : Type) : Type := bdd * bool * St.

(** What [spot::twa] gives access to: the initial state and, per state, the
    transitions a successor iterator yields. *)
Record twa (St : Type) := Twa {
  twa_init : St;
  twa_succ : St → res (list (edge St));
}.
Arguments Twa {St} _ _.
Arguments twa_init {St} _.
Arguments twa_succ {St} _ _.

Definition word := nat → valuation.

(** The transition relation on successful successor calls. *)
Definition twa_step {St} (A : twa St) (s : St) (c : bdd) (m : bool) (s' : St) : Prop :=
  ∃ es, twa_succ A s = Ok es ∧ (c, m, s') ∈ es.

(** A run of [A] on [w]: states, conditions and marks. *)
Record is_run {St} (A : twa St) (w : word)
    (ρ : nat → St) (cs : nat → bdd) (ms : nat → bool) : Prop := {
  run_init : ρ 0 = twa_init A;
  run_step_ok i : twa_step A (ρ i) (cs i) (ms i) (ρ (S i));
  run_sat i : bdd_sat (w i) (cs i) = true;
}.

(** Transition-based Büchi acceptance. *)
Definition accepts {St} (A : twa St) (w : word) : Prop :=
  ∃ ρ cs ms, is_run A w ρ cs ms ∧ inf_often (λ i, ms i = true).

(** States a traversal from the initial state meets. *)
Inductive twa_reach {St} (A : twa St) : St → Prop :=
| reach_init : twa_reach A (twa_init A)
| reach_step s c m s' : twa_reach A s → twa_step A s c m s' → twa_reach A s'.

(** A finite automaton whose successor calls all succeed. *)
Definition explorable {St} (A : twa St) : Prop :=
  ∃ l : list St, twa_init A ∈ l ∧
    ∀ s, s ∈ l → ∃ es, twa_succ A s = Ok es ∧ ∀ c m s', (c, m, s') ∈ es → s' ∈ l.

Lemma explorable_reach {St} (A : twa St) s :
  explorable A → twa_reach A s → ∃ es, twa_succ A s = Ok es.
Proof.
  intros (l & Hinit & Hl) Hr. cut (s ∈ l).
  { intros Hs. destruct (Hl s Hs) as (es & ? & _). by exists es. }
  induction Hr as [|s c m s' _ IH (es & Hes & Hin)]; [done|].
  destruct (Hl _ IH) as (es' & Hes' & Hcl).
  assert (es' = es) as -> by congruence. by eapply Hcl.
Qed.

(** ** Successor iterators *)

(** [spot::twa_succ_iterator]; [S] is the mutable part of the automaton. *)
Record succ_iterator (S I St : Type) := SuccIterator {
  it_first : I → M S (bool * I);
  it_next : I → M S (bool * I);
  it_done : I → M S bool;
  it_dst : I → M S St;
  it_cond : I → M S bdd;
  it_acc : I → M S bool;
}.
Arguments it_first {S I St} _ _.
Arguments it_next {S I St} _ _.
Arguments it_done {S I St} _ _.
Arguments it_dst {S I St} _ _.
Arguments it_cond {S I St} _ _.
Arguments it_acc {S I St} _ _.

(** The documented protocol, [for (i->first(); !i->done(); i->next())], which
    collects the transitions.  The loop's fuel is the number of steps [left] the
    iterator has after [first]; every [next] takes one off. *)
Fixpoint drain_loop {S I St} (it : succ_iterator S I St) (fuel : nat) (i : I) :
    M S (list (edge St)) :=
  d ← it_done it i;
  if d : bool then mret [] else
  match fuel with
  | O => fail EFuel
  | Datatypes.S fuel =>
    c ← it_cond it i;
    m ← it_acc it i;
    s ← it_dst it i;
    bi ← it_next it i;
    es ← drain_loop it fuel (snd bi);
    mret ((c, m, s) :: es)
  end.

Definition drain {S I St} (it : succ_iterator S I St) (left : I → nat) (i : I) :
    M S (list (edge St)) :=
  bi ← it_first it i;
  drain_loop it (left (snd bi)) (snd bi).
End automata.

Arguments Twa {B St} _ _.
Arguments twa_init {B St} _.
Arguments twa_succ {B St} _ _.
Arguments SuccIterator {B S I St} _ _ _ _ _ _.
Arguments it_first {B S I St} _ _.
Arguments it_next {B S I St} _ _.
Arguments it_done {B S I St} _ _.
Arguments it_dst {B S I St} _ _.
Arguments it_cond {B S I St} _ _.
Arguments it_acc {B S I St} _ _.

(** ** Algorithms on automata *)

Class SpotAlgos (B : Bdd) := {
  twa_graph : Type;
  graph_lang : twa_graph → word → Prop;
  make_twa_graph : ∀ {St : Type}, twa St → res twa_graph;
  contains : twa_graph → twa_graph → bool;
}.

Class SpotAlgosLaws (B : Bdd) (G : SpotAlgos B) : Prop := {
  (** copying explores the reachable part and keeps the language *)
  make_twa_graph_ok {St : Type} (A : twa St) : explorable A →
    ∃ g, make_twa_graph A = Ok g ∧ ∀ w, graph_lang g w ↔ accepts A w;
  (** it runs every successor call of the reachable part *)
  make_twa_graph_err {St : Type} (A : twa St) s e :
    twa_reach A s → twa_succ A s = Err e →
    ∃ e', make_twa_graph A = Err e';
  (** [contains(left, right)]: the language of [right] is included in [left]'s *)
  contains_spec g h :
    contains g h = true ↔ ∀ w, graph_lang h w → graph_lang g w;
}.

(** ** A reference instance *)

(** Diagrams as formulas. *)
Inductive form :=
| FTrue
| FFalse
| FVar (i : nat)
| FNot (f : form)
| FAnd (f g : form).

#[global] Instance form_eq_dec : EqDecision form.
Proof. solve_decision. Defined.

Fixpoint form_to_tree (f : form) : gen_tree nat :=
  match f with
  | FTrue => GenNode 0 []
  | FFalse => GenNode 1 []
  | FVar i => GenLeaf i
  | FNot f => GenNode 2 [form_to_tree f]
  | FAnd f g => GenNode 3 [form_to_tree f; form_to_tree g]
  end.

Fixpoint tree_to_form (t : gen_tree nat) : form :=
  match t with
  | GenNode 0 [] => FTrue
  | GenLeaf i => FVar i
  | GenNode 2 [t] => FNot (tree_to_form t)
  | GenNode 3 [t; u] => FAnd (tree_to_form t) (tree_to_form u)
  | _ => FFalse
  end.

#[global] Instance form_countable : Countable form.
Proof.
  apply (inj_countable' form_to_tree tree_to_form).
  intros f. induction f; simpl; congruence.
Defined.

Fixpoint form_sat (ρ : valuation) (f : form) : bool :=
  match f with
  | FTrue => true
  | FFalse => false
  | FVar i => ρ i
  | FNot f => negb (form_sat ρ f)
  | FAnd f g => form_sat ρ f && form_sat ρ g
  end.

#[global] Instance form_bdd : Bdd := {|
  bdd := form; bddtrue := FTrue; bddfalse := FFalse; bdd_not := FNot;
  bdd_and := FAnd; bdd_ithvar := FVar; bdd_id f := Zpos (encode f);
  bdd_sat := form_sat |}.

#[global] Instance form_bdd_laws : BddLaws form_bdd.
Proof. split; try done. intros f g [= ?%(inj encode)]. done. Qed.

(** A dictionary is the list of its propositions in order of registration. *)
Definition reg_list (d : list string) (p : string) : nat * list string :=
  match list_find (p =.) d with
  | Some (i, _) => (i, d)
  | None => (length d, d ++ [p])
  end.

#[global] Instance list_dict : BddDict := {|
  bdd_dict := list string; make_bdd_dict := [];
  register_proposition := reg_list;
  dict_var d p := fst <$> list_find (p =.) d |}.

#[global] Instance list_dict_laws : BddDictLaws list_dict.
Proof.
  split; simpl.
  - done.
  - intros d p. unfold reg_list.
    destruct (list_find (p =.) d) as [[i q]|] eqn:E; simpl; [by rewrite E|].
    rewrite list_find_app_r by done. simpl. by rewrite decide_True by done.
  - intros d p q Hpq. unfold reg_list.
    destruct (list_find (p =.) d) as [[i r]|] eqn:E; [done|]. simpl.
    destruct (list_find (q =.) d) as [[i r]|] eqn:E'.
    + by erewrite list_find_app_l by done.
    + rewrite list_find_app_r by done. simpl. by rewrite decide_False by done.
  - intros d p q i Hp Hq.
    apply fmap_Some in Hp as ([i1 r1] & Hp & ->).
    apply fmap_Some in Hq as ([i2 r2] & Hq & [= Hi]). simpl in *. subst i2.
    apply list_find_Some in Hp as (Hp & -> & _).
    apply list_find_Some in Hq as (Hq & -> & _). by simplify_eq.
Qed.

#[global] Instance elements_order : HashOrder := {|
  hash_iter A _ _ X := elements X |}.

#[global] Instance elements_order_laws : HashOrderLaws elements_order.
Proof. by split. Qed.

(** Automata algorithms by excluded middle: a graph is its language. *)
#[global] Instance lang_algos (B : Bdd) : SpotAlgos B := {|
  twa_graph := word → Prop;
  graph_lang g := g;
  make_twa_graph St A :=
    if excluded_middle_informative (explorable A) then Ok (accepts A) else Err EAssert;
  contains g h :=
    if excluded_middle_informative (∀ w, h w → g w) then true else false |}.

#[global] Instance lang_algos_laws (B : Bdd) : SpotAlgosLaws B (lang_algos B).
Proof.
  split; simpl.
  - intros St A HA. destruct (excluded_middle_informative _); [|done]. by eexists.
  - intros St A s e Hr He. destruct (excluded_middle_informative _) as [HA|]; [|by eexists].
    destruct (explorable_reach A s HA Hr) as [es Hes]. congruence.
  - intros g h. by destruct (excluded_middle_informative _).
Qed.
