(* ===== verification/ProofGraph.v ===== *)
(** * The proof graph: class [Proof] of [src/generic/proof.hpp], [proof.c]

    The object the checker builds from a cyclic proof: vertices, numbered and
    encoded as the minterms of [max_vertices_log2] Boolean variables, their
    tags, successors, and the trace and progress pairs between tags of
    neighbouring vertices.  Every method is a definition in the monad of
    [Prelude], its [assert]s included; [proof_wf] is the representation
    invariant. *)

From S2P Require Import Prelude Spot.

Abbreviation Vertex := bdd (only parsing).
Abbreviation Tag := Z (only parsing).
Abbreviation NO_VERTEX := bddfalse.
Definition NO_TAG : Z := 0.

(** ** Hashing *)

Section hashing.
Context {B : Bdd}.
Local Open Scope Z_scope.

(** [std::hash<bdd>] of the header and [std::hash<int>]: values as [size_t]. *)
Definition hash_vertex (v : Vertex) : Z := wrapu 64 (bdd_id v).
Definition hash_tag (t : Tag) : Z := wrapu 64 t.

(** [HASH_VAL(s, T, v)] with [s] an [int] and [h] the [size_t] hash of [v]:
    the sum is computed as [size_t], the result truncated to [int]. *)
Definition HASH_VAL (s : Z) (h : Z) : Z :=
  wrap32 (Z.lxor (wrapu 64 s)
    (wrapu 64 (h + 0x9e3779b9 + wrapu 64 (wrap32 (Z.shiftl s 6)) + wrapu 64 (Z.shiftr s 2)))).

Definition Quad : Type := Vertex * Vertex * Tag * Tag.

Definition hash_quad (key : Quad) : Z :=
  let '(v1, v2, t1, t2) := key in
  let seed := 0 in
  let seed := HASH_VAL seed (hash_vertex v1) in
  let seed := HASH_VAL seed (hash_vertex v2) in
  let seed := HASH_VAL seed (hash_tag t1) in
  let seed := HASH_VAL seed (hash_tag t2) in
  wrapu 64 seed.
End hashing.

(** ** The object *)

Section proof_graph.
Context {B : Bdd} {D : BddDict}.

Record ProofData := mkProof {
  dict : bdd_dict;
  max_vertices_log2 : nat;
  max_tag : Z;
  last_vertex : Z;
  initial_vertex : Vertex;
  propositions : list bdd;
  vertices : gset Vertex;
  trans_map : gmap Vertex (gset Vertex);
  tag_map : gmap Vertex (gset Tag);
  vertex_names : gmap Vertex string;
  trace_pairs : gset Quad;
  progress_pairs : gset Quad;
}.

Definition upd_max_tag (f : Z → Z) (p : ProofData) : ProofData :=
  mkProof (dict p) (max_vertices_log2 p) (f (max_tag p)) (last_vertex p)
    (initial_vertex p) (propositions p) (vertices p) (trans_map p) (tag_map p)
    (vertex_names p) (trace_pairs p) (progress_pairs p).
Definition upd_last_vertex (f : Z → Z) (p : ProofData) : ProofData :=
  mkProof (dict p) (max_vertices_log2 p) (max_tag p) (f (last_vertex p))
    (initial_vertex p) (propositions p) (vertices p) (trans_map p) (tag_map p)
    (vertex_names p) (trace_pairs p) (progress_pairs p).
Definition upd_initial_vertex (f : Vertex → Vertex) (p : ProofData) : ProofData :=
  mkProof (dict p) (max_vertices_log2 p) (max_tag p) (last_vertex p)
    (f (initial_vertex p)) (propositions p) (vertices p) (trans_map p) (tag_map p)
    (vertex_names p) (trace_pairs p) (progress_pairs p).
Definition upd_vertices (f : gset Vertex → gset Vertex) (p : ProofData) : ProofData :=
  mkProof (dict p) (max_vertices_log2 p) (max_tag p) (last_vertex p)
    (initial_vertex p) (propositions p) (f (vertices p)) (trans_map p) (tag_map p)
    (vertex_names p) (trace_pairs p) (progress_pairs p).
Definition upd_trans_map (f : gmap Vertex (gset Vertex) → gmap Vertex (gset Vertex))
    (p : ProofData) : ProofData :=
  mkProof (dict p) (max_vertices_log2 p) (max_tag p) (last_vertex p)
    (initial_vertex p) (propositions p) (vertices p) (f (trans_map p)) (tag_map p)
    (vertex_names p) (trace_pairs p) (progress_pairs p).
Definition upd_tag_map (f : gmap Vertex (gset Tag) → gmap Vertex (gset Tag))
    (p : ProofData) : ProofData :=
  mkProof (dict p) (max_vertices_log2 p) (max_tag p) (last_vertex p)
    (initial_vertex p) (propositions p) (vertices p) (trans_map p) (f (tag_map p))
    (vertex_names p) (trace_pairs p) (progress_pairs p).
Definition upd_vertex_names (f : gmap Vertex string → gmap Vertex string)
    (p : ProofData) : ProofData :=
  mkProof (dict p) (max_vertices_log2 p) (max_tag p) (last_vertex p)
    (initial_vertex p) (propositions p) (vertices p) (trans_map p) (tag_map p)
    (f (vertex_names p)) (trace_pairs p) (progress_pairs p).
Definition upd_trace_pairs (f : gset Quad → gset Quad) (p : ProofData) : ProofData :=
  mkProof (dict p) (max_vertices_log2 p) (max_tag p) (last_vertex p)
    (initial_vertex p) (propositions p) (vertices p) (trans_map p) (tag_map p)
    (vertex_names p) (f (trace_pairs p)) (progress_pairs p).
Definition upd_progress_pairs (f : gset Quad → gset Quad) (p : ProofData) : ProofData :=
  mkProof (dict p) (max_vertices_log2 p) (max_tag p) (last_vertex p)
    (initial_vertex p) (propositions p) (vertices p) (trans_map p) (tag_map p)
    (vertex_names p) (trace_pairs p) (f (progress_pairs p)).

(** ** Construction *)

Definition GET_PROP (d : bdd_dict) (x : string) : bdd * bdd_dict :=
  let '(i, d') := register_proposition d x in (bdd_ithvar i, d').

Definition prop_name (i : nat) : string := "p_" +:+ pretty i.

(** One iteration of the constructor's loop. *)
Definition push_prop (s : bdd_dict * list bdd) (i : nat) : bdd_dict * list bdd :=
  let '(b, d') := GET_PROP s.1 (prop_name i) in (d', s.2 ++ [b]).

Definition new_Proof (maxv_l2 : nat) : ProofData :=
  let s := foldl push_prop (make_bdd_dict, []) (seq 0 maxv_l2) in
  mkProof s.1 maxv_l2 0 0 NO_VERTEX s.2 ∅ ∅ ∅ ∅ ∅ ∅.

(** ** Queries *)

Definition get_tags_of_vertex (p : ProofData) (v : Vertex) : res (gset Tag) :=
  match tag_map p !! v with Some ts => Ok ts | None => Err EAssert end.

Definition get_successors (p : ProofData) (v : Vertex) : res (gset Vertex) :=
  match trans_map p !! v with Some vs => Ok vs | None => Err EAssert end.

Definition get_vertex_name (p : ProofData) (v : Vertex) : res string :=
  match vertex_names p !! v with Some s => Ok s | None => Err EAssert end.

Definition trace_pair (p : ProofData) (v1 v2 : Vertex) (t1 t2 : Tag) : bool :=
  bool_decide ((v1, v2, t1, t2) ∈ trace_pairs p).

Definition progress_pair (p : ProofData) (v1 v2 : Vertex) (t1 t2 : Tag) : bool :=
  bool_decide ((v1, v2, t1, t2) ∈ progress_pairs p).

(** ** Updates *)

(** The loop of [create_vertex] that conjoins one literal per proposition. *)
Fixpoint vertex_bits (props : list bdd) (ks : list nat) (l : Z) (v : bdd) : res bdd :=
  match ks with
  | [] => Ok v
  | k :: ks =>
    match props !! k with
    | None => Err EUB
    | Some b =>
      vertex_bits props ks (Z.shiftr l 1)
        (bdd_and v (if decide (Z.rem l 2 = 0%Z) then bdd_not b else b))
    end
  end.

Definition create_vertex : M ProofData Vertex :=
  l0 ← gets last_vertex;
  l ← int_add l0 1;
  modify (upd_last_vertex (λ _, l)) ;;
  n ← gets max_vertices_log2;
  hi ← int_shr l n;
  assert (bool_decide (hi = 0%Z)) ;;
  props ← gets propositions;
  v ← lift (vertex_bits props (seq 0 n) l bddtrue);
  modify (upd_vertices (λ vs, {[v]} ∪ vs)) ;;
  modify (upd_tag_map (map_touch ∅ v)) ;;
  modify (upd_trans_map (map_touch ∅ v)) ;;
  modify (upd_vertex_names (<[v := pretty l]>)) ;;
  mret v.

Definition is_vertex (p : ProofData) (v : Vertex) : bool := bool_decide (v ∈ vertices p).

Definition tag_vertex (v : Vertex) (t : Tag) : M ProofData unit :=
  b ← gets (λ p, is_vertex p v);
  assert b ;;
  modify (upd_max_tag (λ m, Z.max m t)) ;;
  modify (upd_tag_map (λ m, <[v := {[t]} ∪ default ∅ (m !! v)]> m)).

Definition set_initial_vertex (v : Vertex) : M ProofData unit :=
  b ← gets (λ p, is_vertex p v);
  assert b ;;
  modify (upd_initial_vertex (λ _, v)).

Definition set_successor (v1 v2 : Vertex) : M ProofData unit :=
  b1 ← gets (λ p, is_vertex p v1);
  assert b1 ;;
  b2 ← gets (λ p, is_vertex p v2);
  assert b2 ;;
  modify (upd_trans_map (λ m, <[v1 := {[v2]} ∪ default ∅ (m !! v1)]> m)).

(** [assert( tag_map\[v\].find(t) != tag_map\[v\].end() )] *)
Definition assert_tag (v : Vertex) (t : Tag) : M ProofData unit :=
  modify (upd_tag_map (map_touch ∅ v)) ;;
  b ← gets (λ p, bool_decide (t ∈ default ∅ (tag_map p !! v)));
  assert b.

Definition set_trace_pair (v1 v2 : Vertex) (t1 t2 : Tag) : M ProofData unit :=
  b1 ← gets (λ p, is_vertex p v1);
  assert b1 ;;
  b2 ← gets (λ p, is_vertex p v2);
  assert b2 ;;
  assert_tag v1 t1 ;;
  assert_tag v2 t2 ;;
  modify (upd_trace_pairs (λ s, {[(v1, v2, t1, t2)]} ∪ s)).

Definition set_progress_pair (v1 v2 : Vertex) (t1 t2 : Tag) : M ProofData unit :=
  b1 ← gets (λ p, is_vertex p v1);
  assert b1 ;;
  b2 ← gets (λ p, is_vertex p v2);
  assert b2 ;;
  assert_tag v1 t1 ;;
  assert_tag v2 t2 ;;
  modify (upd_progress_pairs (λ s, {[(v1, v2, t1, t2)]} ∪ s)).

(** ** Views of the maps *)

(** [t] is a tag of [v]. *)
Definition has_tag (p : ProofData) (v : Vertex) (t : Tag) : Prop :=
  ∃ ts, tag_map p !! v = Some ts ∧ t ∈ ts.

(** [v2] is a successor of [v1]. *)
Definition has_succ (p : ProofData) (v1 v2 : Vertex) : Prop :=
  ∃ vs, trans_map p !! v1 = Some vs ∧ v2 ∈ vs.

Lemma has_tag_alt p v t : has_tag p v t ↔ t ∈ default ∅ (tag_map p !! v).
Proof.
  unfold has_tag. destruct (tag_map p !! v) as [ts|]; simpl; [|set_solver].
  split; [by intros (? & [= ->] & ?)|by exists ts].
Qed.

#[global] Instance has_tag_dec p v t : Decision (has_tag p v t) :=
  match decide (t ∈ default ∅ (tag_map p !! v)) with
  | left H => left (proj2 (has_tag_alt p v t) H)
  | right H => right (λ K, H (proj1 (has_tag_alt p v t) K))
  end.

Lemma has_tag_dom p v t : has_tag p v t → v ∈ dom (tag_map p).
Proof. intros (ts & ? & _). by eapply elem_of_dom_2. Qed.

Lemma map_touch_default `{Countable K} {V} (d : V) (k k' : K) (m : gmap K V) :
  default d (map_touch d k m !! k') = default d (m !! k').
Proof.
  unfold map_touch. rewrite lookup_insert. case_decide; subst; [|done].
  by destruct (m !! k').
Qed.

Lemma has_succ_alt p v v' : has_succ p v v' ↔ v' ∈ default ∅ (trans_map p !! v).
Proof.
  unfold has_succ. destruct (trans_map p !! v) as [vs|]; simpl; [|set_solver].
  split; [by intros (? & [= ->] & ?)|by exists vs].
Qed.

Lemma map_touch_dom `{Countable K} {V} (d : V) (k : K) (m : gmap K V) :
  dom (map_touch d k m) = {[k]} ∪ dom m.
Proof. unfold map_touch. apply dom_insert_L. Qed.

(** ** The encoding of vertices *)

(** The diagram of vertex number [z]. *)
Definition vertex_of (p : ProofData) (z : Z) : Vertex :=
  match vertex_bits (propositions p) (seq 0 (max_vertices_log2 p)) z bddtrue with
  | Ok v => v
  | Err _ => NO_VERTEX
  end.

Context {BL : BddLaws B}.

Lemma vertex_bits_spec (xs : list nat) n k l v :
  k + n ≤ length xs →
  ∃ v', vertex_bits (bdd_ithvar <$> xs) (seq k n) l v = Ok v' ∧
    ∀ ρ, bdd_sat ρ v' = true ↔
      bdd_sat ρ v = true ∧
      ∀ i x, i < n → xs !! (k + i) = Some x → ρ x = Z.testbit l (Z.of_nat i).
Proof.
  revert k l v. induction n as [|n IH]; intros k l v Hk; simpl.
  { exists v. split; [done|]. intros ρ. split; [|naive_solver]. split; [done|lia]. }
  destruct (lookup_lt_is_Some_2 xs k) as [x Hx]; [lia|].
  rewrite list_lookup_fmap, Hx; simpl.
  destruct (IH (S k) (Z.shiftr l 1)
    (bdd_and v (if decide (Z.rem l 2 = 0%Z) then bdd_not (bdd_ithvar x) else bdd_ithvar x)))
    as (v' & -> & Hv'); [lia|].
  exists v'. split; [done|]. intros ρ. rewrite Hv', sat_and, andb_true_iff.
  assert (bdd_sat ρ (if decide (Z.rem l 2 = 0%Z)
    then bdd_not (bdd_ithvar x) else bdd_ithvar x) = true ↔ ρ x = Z.testbit l 0) as ->.
  { rewrite Z.bit0_odd. pose proof (Z.rem_mod_nonneg l 2).
    case_decide as Hd.
    - assert (Z.odd l = false) as -> by (rewrite <-Z.negb_even; apply negb_false_iff,
        Z.even_spec; exists (l `quot` 2)%Z; pose proof (Z.quot_rem' l 2); lia).
      rewrite sat_not, sat_ithvar. by destruct (ρ x).
    - assert (Z.odd l = true) as ->.
      { destruct (Z.odd l) eqn:E; [done|]. destruct Hd.
        rewrite <-Z.negb_even in E. apply negb_false_iff, Z.even_spec in E as [m ->].
        rewrite Z.mul_comm. apply Z.rem_mul. lia. }
      rewrite sat_ithvar. done. }
  assert (∀ i, Z.testbit (Z.shiftr l 1) (Z.of_nat i) = Z.testbit l (Z.of_nat (S i))) as Hsh.
  { intros i. rewrite Z.shiftr_spec by lia. f_equal. lia. }
  split.
  - intros [[Hv H0] Hr]. split; [done|]. intros [|i] y Hi Hy.
    + rewrite Nat.add_0_r in Hy. by simplify_eq.
    + rewrite <-Hsh. apply (Hr i y); [lia|]. by rewrite <-Hy, <-plus_n_Sm.
  - intros [Hv Hr]. split; [split; [done|]|].
    + apply (Hr 0); [lia|]. by rewrite Nat.add_0_r.
    + intros i y Hi Hy. rewrite Hsh. apply Hr; [lia|].
      by rewrite <-Hy, <-plus_n_Sm.
Qed.

(** The propositions of the graph are distinct variables. *)
Definition props_ok (p : ProofData) (xs : list nat) : Prop :=
  propositions p = bdd_ithvar <$> xs ∧ NoDup xs ∧ length xs = max_vertices_log2 p.

Lemma vertex_of_sat p xs z ρ :
  props_ok p xs →
  bdd_sat ρ (vertex_of p z) = true ↔
  ∀ i x, xs !! i = Some x → ρ x = Z.testbit z (Z.of_nat i).
Proof.
  intros (Hp & _ & Hn). unfold vertex_of. rewrite Hp.
  destruct (vertex_bits_spec xs (max_vertices_log2 p) 0 z bddtrue) as (v & -> & Hv); [lia|].
  rewrite Hv, sat_true. split.
  - intros [_ H] i x Hx. apply H; [|done]. apply lookup_lt_Some in Hx. lia.
  - intros H. split; [done|]. intros i x _ Hx. by apply H.
Qed.

Lemma vertex_bits_of p xs z :
  props_ok p xs →
  vertex_bits (propositions p) (seq 0 (max_vertices_log2 p)) z bddtrue
    = Ok (vertex_of p z).
Proof.
  intros (Hp & _ & Hn). unfold vertex_of. rewrite Hp.
  by destruct (vertex_bits_spec xs (max_vertices_log2 p) 0 z bddtrue) as (v & -> & _); [lia|].
Qed.

(** A valuation that spells number [z]. *)
Definition spell (xs : list nat) (z : Z) : valuation := λ x,
  match list_find (x =.) xs with
  | Some (i, _) => Z.testbit z (Z.of_nat i)
  | None => false
  end.

Lemma spell_sat p xs z : props_ok p xs → bdd_sat (spell xs z) (vertex_of p z) = true.
Proof.
  intros Hp. rewrite vertex_of_sat by done. intros i x Hi. unfold spell.
  destruct Hp as (_ & Hnd & _).
  destruct (list_find (x =.) xs) as [[j y]|] eqn:E.
  - apply list_find_Some in E as (Hj & -> & _). by rewrite (NoDup_lookup xs i j y).
  - exfalso. rewrite list_find_None, Forall_forall in E.
    apply (E x); [|done]. by eapply list_elem_of_lookup_2.
Qed.

Lemma testbit_inj_pow2 n a b :
  (0 ≤ a < 2 ^ Z.of_nat n)%Z → (0 ≤ b < 2 ^ Z.of_nat n)%Z →
  (∀ i, i < n → Z.testbit a (Z.of_nat i) = Z.testbit b (Z.of_nat i)) → a = b.
Proof.
  intros Ha Hb H. apply Z.bits_inj'. intros m Hm.
  destruct (decide (m < Z.of_nat n)%Z).
  - specialize (H (Z.to_nat m)). rewrite Z2Nat.id in H by lia. apply H. lia.
  - rewrite <-(Z.mod_small a (2 ^ Z.of_nat n)), <-(Z.mod_small b (2 ^ Z.of_nat n)) by lia.
    by rewrite !Z.mod_pow2_bits_high by lia.
Qed.

(** No letter satisfies two vertices. *)
Lemma vertex_of_excl p xs a b ρ :
  props_ok p xs →
  (0 ≤ a < 2 ^ Z.of_nat (max_vertices_log2 p))%Z →
  (0 ≤ b < 2 ^ Z.of_nat (max_vertices_log2 p))%Z →
  bdd_sat ρ (vertex_of p a) = true → bdd_sat ρ (vertex_of p b) = true → a = b.
Proof.
  intros Hp Ha Hb HA HB. apply (testbit_inj_pow2 (max_vertices_log2 p)); [done..|].
  intros i Hi. destruct (lookup_lt_is_Some_2 xs i) as [x Hx].
  { destruct Hp as (_ & _ & ->). done. }
  rewrite (vertex_of_sat p xs) in HA, HB by done.
  by rewrite <-(HA i x), <-(HB i x).
Qed.

Lemma vertex_of_inj p xs a b :
  props_ok p xs →
  (0 ≤ a < 2 ^ Z.of_nat (max_vertices_log2 p))%Z →
  (0 ≤ b < 2 ^ Z.of_nat (max_vertices_log2 p))%Z →
  vertex_of p a = vertex_of p b → a = b.
Proof.
  intros Hp Ha Hb Hab. eapply (vertex_of_excl p xs a b (spell xs a)); [done..| |].
  - by apply spell_sat.
  - rewrite <-Hab. by apply spell_sat.
Qed.

(** ** The representation invariant *)

Definition quad_ok (p : ProofData) (q : Quad) : Prop :=
  let '(v1, v2, t1, t2) := q in has_tag p v1 t1 ∧ has_tag p v2 t2.

Record proof_wf (p : ProofData) : Prop := {
  wf_props : ∃ xs, props_ok p xs;
  wf_last : (0 ≤ last_vertex p ≤ INT_MAX)%Z
            ∧ (last_vertex p < 2 ^ Z.of_nat (max_vertices_log2 p))%Z;
  wf_vertices v : v ∈ vertices p ↔ ∃ z, (1 ≤ z ≤ last_vertex p)%Z ∧ v = vertex_of p z;
  wf_names z : (1 ≤ z ≤ last_vertex p)%Z →
    vertex_names p !! vertex_of p z = Some (pretty z);
  wf_tag_dom : dom (tag_map p) = vertices p;
  wf_trans_dom : dom (trans_map p) = vertices p;
  wf_succ v1 v2 : has_succ p v1 v2 → v2 ∈ vertices p;
  wf_max_tag : (0 ≤ max_tag p)%Z ∧ ∀ v t, has_tag p v t → (t ≤ max_tag p)%Z;
  wf_initial : initial_vertex p = NO_VERTEX ∨ initial_vertex p ∈ vertices p;
  wf_trace q : q ∈ trace_pairs p → quad_ok p q;
  wf_progress q : q ∈ progress_pairs p → quad_ok p q;
}.

Lemma prop_name_inj i j : prop_name i = prop_name j → i = j.
Proof. unfold prop_name. by intros H%(inj (String.append "p_"))%(inj pretty). Qed.

(** The constructor registers distinct variables. *)
Lemma push_props_spec {DL : BddDictLaws D} n :
  let s := foldl push_prop (make_bdd_dict, []) (seq 0 n) in
  ∃ xs, s.2 = bdd_ithvar <$> xs ∧ length xs = n ∧ NoDup xs ∧
    ∀ i x, xs !! i = Some x → dict_var s.1 (prop_name i) = Some x.
Proof.
  cbv zeta. induction n as [|n IH].
  { exists []. split_and!; [done|done|constructor|done]. }
  rewrite seq_S, foldl_snoc. simpl (0 + n).
  destruct IH as (xs & H2 & Hlen & Hnd & Hd).
  destruct (foldl push_prop (make_bdd_dict, []) (seq 0 n)) as [d bs]. simpl in *.
  unfold push_prop, GET_PROP; simpl.
  pose proof (dict_var_same d (prop_name n)) as Hs.
  pose proof (dict_var_other d (prop_name n)) as Ho.
  destruct (register_proposition d (prop_name n)) as [x d'] eqn:E. simpl in *.
  assert (∀ i y, xs !! i = Some y → dict_var d' (prop_name i) = Some y) as Hd'.
  { intros i y Hi. rewrite Ho; [by apply Hd|]. intros ?%prop_name_inj.
    apply lookup_lt_Some in Hi. lia. }
  exists (xs ++ [x]). split_and!.
  - by rewrite H2, fmap_app.
  - rewrite length_app; simpl. lia.
  - apply NoDup_app. split; [done|]. split; [|apply NoDup_singleton].
    intros y [i Hi]%list_elem_of_lookup ->%list_elem_of_singleton.
    assert (prop_name i = prop_name n) as ?%prop_name_inj.
    { eapply (dict_var_inj d'); [by apply Hd'|done]. }
    apply lookup_lt_Some in Hi. lia.
  - intros i y [Hi|[Hi Hy]]%lookup_app_Some; [by apply Hd'|].
    destruct (i - length xs) eqn:Ei; simplify_eq/=.
    by replace i with (length xs) by lia.
Qed.

Lemma new_Proof_wf {DL : BddDictLaws D} n : proof_wf (new_Proof n).
Proof.
  destruct (push_props_spec n) as (xs & H2 & Hlen & Hnd & _).
  unfold new_Proof. destruct (foldl _ _ _) as [d bs]. simpl in *.
  split; simpl; unfold has_tag, has_succ; simpl.
  - exists xs. split_and!; [done|done|done].
  - unfold INT_MAX. lia.
  - intros v. split; [set_solver|]. intros (z & ? & _). lia.
  - lia.
  - apply dom_empty_L.
  - apply dom_empty_L.
  - intros v1 v2 (? & ? & _). by rewrite lookup_empty in *.
  - split; [done|]. intros v t (? & ? & _). by rewrite lookup_empty in *.
  - by left.
  - set_solver.
  - set_solver.
Qed.

(** ** Runs of the updates *)

(** The state [create_vertex] leaves. *)
Definition with_vertex (l : Z) (v : Vertex) (p : ProofData) : ProofData :=
  upd_vertex_names (<[v := pretty l]>)
    (upd_trans_map (map_touch ∅ v)
      (upd_tag_map (map_touch ∅ v)
        (upd_vertices (λ vs, {[v]} ∪ vs)
          (upd_last_vertex (λ _, l) p)))).

Lemma shiftr_small l n :
  (0 ≤ l)%Z → Z.shiftr l (Z.of_nat n) = 0%Z ↔ (l < 2 ^ Z.of_nat n)%Z.
Proof.
  intros Hl. rewrite Z.shiftr_div_pow2 by lia. split; intros H.
  - apply Z.div_small_iff in H; [|lia]. lia.
  - apply Z.div_small. lia.
Qed.

Lemma create_vertex_run p :
  proof_wf p → max_vertices_log2 p < 32 →
  create_vertex p =
    if decide (last_vertex p < INT_MAX
               ∧ last_vertex p + 1 < 2 ^ Z.of_nat (max_vertices_log2 p))%Z
    then Ok (vertex_of p (last_vertex p + 1),
             with_vertex (last_vertex p + 1) (vertex_of p (last_vertex p + 1)) p)
    else Err (if decide (last_vertex p = INT_MAX) then EUB else EAssert).
Proof.
  intros [[xs Hxs] [Hl Hl2] _ _ _ _ _ _ _ _ _] H32.
  unfold create_vertex, int_add, int_shr. run_step.
  destruct (decide (last_vertex p = INT_MAX)) as [E|NE].
  { rewrite decide_False by (unfold int_range; lia).
    rewrite decide_False by lia. done. }
  rewrite decide_True by (unfold int_range, INT_MIN in *; lia).
  rewrite decide_True by done.
  case_bool_decide as Hs.
  - apply shiftr_small in Hs; [|lia].
    rewrite (decide_True (P := (_ ∧ _)%Z)) by lia.
    rewrite (vertex_bits_of p xs) by done. done.
  - rewrite shiftr_small in Hs by lia.
    rewrite decide_False by lia. done.
Qed.

Lemma tag_vertex_run v t p :
  tag_vertex v t p =
    if decide (v ∈ vertices p)
    then Ok (tt, upd_tag_map (λ m, <[v := {[t]} ∪ default ∅ (m !! v)]> m)
                   (upd_max_tag (λ m, Z.max m t) p))
    else Err EAssert.
Proof. unfold tag_vertex, is_vertex. run_step. by case_bool_decide; case_decide. Qed.

Lemma set_initial_vertex_run v p :
  set_initial_vertex v p =
    if decide (v ∈ vertices p) then Ok (tt, upd_initial_vertex (λ _, v) p)
    else Err EAssert.
Proof. unfold set_initial_vertex, is_vertex. run_step. by case_bool_decide; case_decide. Qed.

Lemma set_successor_run v1 v2 p :
  set_successor v1 v2 p =
    if decide (v1 ∈ vertices p ∧ v2 ∈ vertices p)
    then Ok (tt, upd_trans_map (λ m, <[v1 := {[v2]} ∪ default ∅ (m !! v1)]> m) p)
    else Err EAssert.
Proof.
  unfold set_successor, is_vertex. run_step.
  repeat case_bool_decide; case_decide; naive_solver.
Qed.

Lemma assert_tag_run v t p :
  v ∈ dom (tag_map p) →
  assert_tag v t p = if decide (has_tag p v t) then Ok (tt, p) else Err EAssert.
Proof.
  intros Hv. unfold assert_tag. run_step.
  assert (upd_tag_map (map_touch ∅ v) p = p) as ->.
  { destruct p; unfold upd_tag_map; simpl in *. by rewrite map_touch_id. }
  rewrite map_touch_id by done.
  pose proof (has_tag_alt p v t). case_bool_decide; case_decide; done || tauto.
Qed.

(** The checks shared by [set_trace_pair] and [set_progress_pair]. *)
Lemma pair_asserts_run v1 v2 t1 t2 (k : M ProofData unit) p :
  proof_wf p →
  (b1 ← gets (λ p, is_vertex p v1); assert b1 ;;
   b2 ← gets (λ p, is_vertex p v2); assert b2 ;;
   assert_tag v1 t1 ;; assert_tag v2 t2 ;; k) p =
    if decide (has_tag p v1 t1 ∧ has_tag p v2 t2) then k p else Err EAssert.
Proof.
  intros Hwf. pose proof (wf_tag_dom p Hwf) as Hdom.
  pose proof (has_tag_dom p v1 t1) as H1. pose proof (has_tag_dom p v2 t2) as H2.
  rewrite Hdom in H1, H2. unfold is_vertex. run_step.
  case_bool_decide as Hv1; [|rewrite decide_False; [done|naive_solver]].
  case_bool_decide as Hv2; [|rewrite decide_False; [done|naive_solver]].
  rewrite assert_tag_run by (by rewrite Hdom).
  case_decide as Ht1; [|rewrite decide_False; [done|naive_solver]].
  rewrite assert_tag_run by (by rewrite Hdom).
  case_decide as Ht2; [|rewrite decide_False; [done|naive_solver]].
  by rewrite decide_True.
Qed.

Lemma set_trace_pair_run v1 v2 t1 t2 p :
  proof_wf p →
  set_trace_pair v1 v2 t1 t2 p =
    if decide (has_tag p v1 t1 ∧ has_tag p v2 t2)
    then Ok (tt, upd_trace_pairs (λ s, {[(v1, v2, t1, t2)]} ∪ s) p)
    else Err EAssert.
Proof. intros. unfold set_trace_pair. by rewrite pair_asserts_run. Qed.

Lemma set_progress_pair_run v1 v2 t1 t2 p :
  proof_wf p →
  set_progress_pair v1 v2 t1 t2 p =
    if decide (has_tag p v1 t1 ∧ has_tag p v2 t2)
    then Ok (tt, upd_progress_pairs (λ s, {[(v1, v2, t1, t2)]} ∪ s) p)
    else Err EAssert.
Proof. intros. unfold set_progress_pair. by rewrite pair_asserts_run. Qed.

(** ** Preservation of the invariant *)

Lemma with_vertex_has_tag l v p v' t :
  has_tag (with_vertex l v p) v' t ↔ has_tag p v' t.
Proof. rewrite !has_tag_alt. simpl. by rewrite map_touch_default. Qed.

Lemma with_vertex_has_succ l v p v1 v2 :
  has_succ (with_vertex l v p) v1 v2 ↔ has_succ p v1 v2.
Proof. rewrite !has_succ_alt. simpl. by rewrite map_touch_default. Qed.

Lemma quad_ok_impl p p' q :
  (∀ v t, has_tag p v t → has_tag p' v t) → quad_ok p q → quad_ok p' q.
Proof. intros H. destruct q as [[[v1 v2] t1] t2]. unfold quad_ok. naive_solver. Qed.

Lemma with_vertex_wf p :
  proof_wf p → (last_vertex p < INT_MAX)%Z →
  (last_vertex p + 1 < 2 ^ Z.of_nat (max_vertices_log2 p))%Z →
  proof_wf (with_vertex (last_vertex p + 1) (vertex_of p (last_vertex p + 1)) p).
Proof.
  intros Hwf Hmax Hpow. destruct Hwf as [[xs Hxs] Hl Hvs Hn Htd Hsd Hs Hm Hi Ht Hp].
  set (l := (last_vertex p + 1)%Z) in *.
  assert (∀ z, vertex_of (with_vertex l (vertex_of p l) p) z = vertex_of p z) as Hof by done.
  split.
  - by exists xs.
  - simpl. lia.
  - intros v. simpl. setoid_rewrite Hof. rewrite elem_of_union, elem_of_singleton, Hvs. split.
    + intros [->|(z & ? & ->)]; [exists l|exists z]; split; done || lia.
    + intros (z & ? & ->). destruct (decide (z = l)) as [->|]; [by left|].
      right. exists z. split; [lia|done].
  - intros z Hz. simpl in *. rewrite Hof.
    destruct (decide (z = l)) as [->|Hzl]; [apply lookup_insert_eq|].
    rewrite lookup_insert_ne; [apply Hn; lia|].
    intros E. apply (vertex_of_inj p xs) in E; [lia|done|lia|lia].
  - simpl. by rewrite map_touch_dom, Htd.
  - simpl. by rewrite map_touch_dom, Hsd.
  - intros v1 v2. rewrite with_vertex_has_succ. simpl. intros ?%Hs. set_solver.
  - split; [apply Hm|]. intros v t. rewrite with_vertex_has_tag. apply Hm.
  - simpl. set_solver.
  - intros q ?%Ht. eapply quad_ok_impl; [|done]. intros. by rewrite with_vertex_has_tag.
  - intros q ?%Hp. eapply quad_ok_impl; [|done]. intros. by rewrite with_vertex_has_tag.
Qed.

Definition with_tag (v : Vertex) (t : Tag) (p : ProofData) : ProofData :=
  upd_tag_map (λ m, <[v := {[t]} ∪ default ∅ (m !! v)]> m)
    (upd_max_tag (λ m, Z.max m t) p).

Lemma with_tag_has_tag v t p v' t' :
  has_tag (with_tag v t p) v' t' ↔ (v' = v ∧ t' = t) ∨ has_tag p v' t'.
Proof.
  rewrite !has_tag_alt. simpl. rewrite lookup_insert. case_decide; simpl; set_solver.
Qed.

Lemma with_tag_wf v t p : v ∈ vertices p → proof_wf p → proof_wf (with_tag v t p).
Proof.
  intros Hv [Hxs Hl Hvs Hn Htd Hsd Hs Hm Hi Ht Hp].
  split; [done|done|done|done| |done|done| |done| |].
  - simpl. rewrite dom_insert_L. set_solver.
  - split; [simpl; lia|]. intros v' t'. rewrite with_tag_has_tag. simpl.
    intros [[-> ->]|?%Hm]; lia.
  - intros q ?%Ht. eapply quad_ok_impl; [|done]. intros. rewrite with_tag_has_tag. by right.
  - intros q ?%Hp. eapply quad_ok_impl; [|done]. intros. rewrite with_tag_has_tag. by right.
Qed.

Definition with_succ (v1 v2 : Vertex) (p : ProofData) : ProofData :=
  upd_trans_map (λ m, <[v1 := {[v2]} ∪ default ∅ (m !! v1)]> m) p.

Lemma with_succ_has_succ v1 v2 p a b :
  has_succ (with_succ v1 v2 p) a b ↔ (a = v1 ∧ b = v2) ∨ has_succ p a b.
Proof.
  rewrite !has_succ_alt. simpl. rewrite lookup_insert. case_decide; simpl; set_solver.
Qed.

Lemma with_succ_wf v1 v2 p :
  v1 ∈ vertices p → v2 ∈ vertices p → proof_wf p → proof_wf (with_succ v1 v2 p).
Proof.
  intros Hv1 Hv2 [Hxs Hl Hvs Hn Htd Hsd Hs Hm Hi Ht Hp].
  split; [done|done|done|done|done| | |done|done|done|done].
  - simpl. rewrite dom_insert_L. set_solver.
  - intros a b. rewrite with_succ_has_succ. intros [[-> ->]|?%Hs]; done.
Qed.

Lemma with_initial_wf v p :
  v ∈ vertices p → proof_wf p → proof_wf (upd_initial_vertex (λ _, v) p).
Proof. intros Hv []. split; try done. by right. Qed.

Lemma with_trace_pair_wf q p :
  quad_ok p q → proof_wf p → proof_wf (upd_trace_pairs (λ s, {[q]} ∪ s) p).
Proof.
  intros Hq []. split; try done. simpl.
  intros q' [->%elem_of_singleton|Hq']%elem_of_union; [exact Hq|exact (wf_trace0 _ Hq')].
Qed.

Lemma with_progress_pair_wf q p :
  quad_ok p q → proof_wf p → proof_wf (upd_progress_pairs (λ s, {[q]} ∪ s) p).
Proof.
  intros Hq []. split; try done. simpl.
  intros q' [->%elem_of_singleton|Hq']%elem_of_union; [exact Hq|exact (wf_progress0 _ Hq')].
Qed.

(** ** Vertices as letters *)

Lemma wf_vertex_letter p v :
  proof_wf p → v ∈ vertices p → ∃ ρ, bdd_sat ρ v = true.
Proof.
  intros Hwf. destruct (wf_props p Hwf) as [xs Hxs].
  intros (z & _ & ->)%(wf_vertices p Hwf). exists (spell xs z). by apply spell_sat.
Qed.

Lemma wf_vertex_excl p v1 v2 ρ :
  proof_wf p → v1 ∈ vertices p → v2 ∈ vertices p →
  bdd_sat ρ v1 = true → bdd_sat ρ v2 = true → v1 = v2.
Proof.
  intros Hwf. destruct (wf_props p Hwf) as [xs Hxs].
  pose proof (wf_last p Hwf) as [? ?].
  intros (z1 & ? & ->)%(wf_vertices p Hwf) (z2 & ? & ->)%(wf_vertices p Hwf) HA HB.
  f_equal. eapply (vertex_of_excl p xs); [done|lia|lia|done|done].
Qed.

Lemma wf_no_vertex p : proof_wf p → NO_VERTEX ∉ vertices p.
Proof.
  intros Hwf Hv. destruct (wf_vertex_letter p NO_VERTEX Hwf Hv) as [ρ Hρ].
  by rewrite sat_false in Hρ.
Qed.

Lemma wf_has_tag_vertex p v t : proof_wf p → has_tag p v t → v ∈ vertices p.
Proof. intros Hwf Ht. rewrite <-(wf_tag_dom p Hwf). by eapply has_tag_dom. Qed.

Lemma wf_has_succ_vertex p v v' : proof_wf p → has_succ p v v' → v ∈ vertices p.
Proof.
  intros Hwf (vs & ? & _). rewrite <-(wf_trans_dom p Hwf). by eapply elem_of_dom_2.
Qed.

Lemma wf_get_tags p v : proof_wf p → v ∈ vertices p →
  ∃ ts, get_tags_of_vertex p v = Ok ts ∧ ∀ t, t ∈ ts ↔ has_tag p v t.
Proof.
  intros Hwf Hv. rewrite <-(wf_tag_dom p Hwf) in Hv. apply elem_of_dom in Hv as [ts Hts].
  unfold get_tags_of_vertex. rewrite Hts. exists ts. split; [done|].
  intros t. rewrite has_tag_alt, Hts. done.
Qed.

Lemma wf_get_successors p v : proof_wf p → v ∈ vertices p →
  ∃ vs, get_successors p v = Ok vs ∧ ∀ v', v' ∈ vs ↔ has_succ p v v'.
Proof.
  intros Hwf Hv. rewrite <-(wf_trans_dom p Hwf) in Hv. apply elem_of_dom in Hv as [vs Hvs].
  unfold get_successors. rewrite Hvs. exists vs. split; [done|].
  intros v'. rewrite has_succ_alt, Hvs. done.
Qed.

Lemma wf_get_tags_err p v : proof_wf p → v ∉ vertices p →
  get_tags_of_vertex p v = Err EAssert.
Proof.
  intros Hwf Hv. rewrite <-(wf_tag_dom p Hwf) in Hv. apply not_elem_of_dom in Hv.
  unfold get_tags_of_vertex. by rewrite Hv.
Qed.

(** ** Sessions *)

(** One successful call of a method that changes the graph. *)
Inductive proof_step (p : ProofData) : ProofData → Prop :=
| step_create v p' : create_vertex p = Ok (v, p') → proof_step p p'
| step_tag v t p' : tag_vertex v t p = Ok (tt, p') → proof_step p p'
| step_initial v p' : set_initial_vertex v p = Ok (tt, p') → proof_step p p'
| step_succ v1 v2 p' : set_successor v1 v2 p = Ok (tt, p') → proof_step p p'
| step_trace v1 v2 t1 t2 p' :
    set_trace_pair v1 v2 t1 t2 p = Ok (tt, p') → proof_step p p'
| step_progress v1 v2 t1 t2 p' :
    set_progress_pair v1 v2 t1 t2 p = Ok (tt, p') → proof_step p p'.

Lemma create_vertex_wf p v p' :
  max_vertices_log2 p < 32 → proof_wf p → create_vertex p = Ok (v, p') →
  proof_wf p' ∧ max_vertices_log2 p' = max_vertices_log2 p.
Proof.
  intros H32 Hwf. rewrite create_vertex_run by done. case_decide as Hd; [|done].
  intros [= <- <-]. split; [|done]. apply with_vertex_wf; [done|lia|lia].
Qed.

Lemma proof_step_wf p p' :
  max_vertices_log2 p < 32 → proof_wf p → proof_step p p' →
  proof_wf p' ∧ max_vertices_log2 p' = max_vertices_log2 p.
Proof.
  intros H32 Hwf Hstep.
  destruct Hstep as [v p' H|v t p' H|v p' H|v1 v2 p' H|v1 v2 t1 t2 p' H|v1 v2 t1 t2 p' H].
  - by eapply create_vertex_wf.
  - rewrite tag_vertex_run in H. case_decide; simplify_eq. split; [by apply with_tag_wf|done].
  - rewrite set_initial_vertex_run in H. case_decide; simplify_eq.
    split; [by apply with_initial_wf|done].
  - rewrite set_successor_run in H. case_decide; simplify_eq.
    split; [apply with_succ_wf; tauto|done].
  - rewrite set_trace_pair_run in H by done. case_decide; simplify_eq.
    split; [by apply with_trace_pair_wf|done].
  - rewrite set_progress_pair_run in H by done. case_decide; simplify_eq.
    split; [by apply with_progress_pair_wf|done].
Qed.

Lemma proof_steps_wf p p' :
  rtc proof_step p p' → max_vertices_log2 p < 32 → proof_wf p →
  proof_wf p' ∧ max_vertices_log2 p' = max_vertices_log2 p.
Proof.
  induction 1 as [|p p1 p' Hstep _ IH]; intros H32 Hwf; [done|].
  destruct (proof_step_wf _ _ H32 Hwf Hstep) as [Hwf1 Hn].
  destruct IH as [? ?]; [lia|done|]. split; [done|congruence].
Qed.

(** The number of vertices is the counter. *)
Lemma wf_size p : proof_wf p → Z.of_nat (size (vertices p)) = last_vertex p.
Proof.
  intros Hwf. destruct (wf_props p Hwf) as [xs Hxs].
  pose proof (wf_last p Hwf) as [? ?].
  assert (vertices p = list_to_set (vertex_of p <$> seqZ 1 (last_vertex p))) as ->.
  { apply set_eq. intros v. rewrite (wf_vertices p Hwf), elem_of_list_to_set, list_elem_of_fmap.
    setoid_rewrite elem_of_seqZ. split; intros (z & Ha & Hb); exists z; split; done || lia. }
  rewrite size_list_to_set; [rewrite length_fmap, length_seqZ; lia|].
  apply NoDup_fmap_2_strong; [|apply NoDup_seqZ].
  intros a b Ha%elem_of_seqZ Hb%elem_of_seqZ. apply (vertex_of_inj p xs); [done|lia|lia].
Qed.
End proof_graph.
