(* ===== verification/Gtc.v ===== *)
(** * The global trace condition

    The abstract specification of the soundness checker.  A cyclic pre-proof is
    a graph with traces: a root, a successor relation, and per edge the pairs
    of tags a trace may follow, some of them progressing.  The pre-proof is
    sound when along every infinite path from the root some suffix carries a
    trace that progresses infinitely often ([gtc]).  Nothing here mentions
    automata or the data structures of the code. *)

From S2P Require Import Prelude.

Record tgraph (V T : Type) := TGraph {
  tg_init : V;
  tg_succ : V → V → Prop;
  tg_trace : V → V → T → T → Prop;
  tg_progress : V → V → T → T → Prop;
}.
Arguments TGraph {V T} _ _ _ _.
Arguments tg_init {V T} _.
Arguments tg_succ {V T} _ _ _.
Arguments tg_trace {V T} _ _ _ _ _.
Arguments tg_progress {V T} _ _ _ _ _.

Section gtc.
Context {V T : Type}.
Implicit Types g : tgraph V T.

(** An infinite path from the root. *)
Definition is_path g (π : nat → V) : Prop :=
  π 0 = tg_init g ∧ ∀ i, tg_succ g (π i) (π (S i)).

(** A trace on the suffix of [π] from position [k]. *)
Definition is_trace g (π : nat → V) (k : nat) (τ : nat → T) : Prop :=
  ∀ i, k ≤ i → tg_trace g (π i) (π (S i)) (τ i) (τ (S i)).

Definition progresses g (π : nat → V) (τ : nat → T) : Prop :=
  inf_often (λ i, tg_progress g (π i) (π (S i)) (τ i) (τ (S i))).

(** A suffix of [π] carries an infinitely progressing trace. *)
Definition good_path g (π : nat → V) : Prop :=
  ∃ k τ, is_trace g π k τ ∧ progresses g π τ.

Definition gtc g : Prop := ∀ π, is_path g π → good_path g π.
End gtc.

(** ** Renaming of vertices *)

Section rename.
Context {V W T : Type} (g : tgraph V T) (h : tgraph W T) (R : V → W → Prop).

(** [h] simulates [g] along [R], and related edges of the two graphs carry the
    same pairs; then soundness of [h] gives soundness of [g]. *)
Record gtc_sim : Prop := {
  sim_init : R (tg_init g) (tg_init h);
  sim_succ v v' w : R v w → tg_succ g v v' → ∃ w', tg_succ h w w' ∧ R v' w';
  sim_trace v v' w w' t t' : R v w → R v' w' → tg_succ g v v' →
    tg_trace h w w' t t' → tg_trace g v v' t t';
  sim_progress v v' w w' t t' : R v w → R v' w' → tg_succ g v v' →
    tg_progress h w w' t t' → tg_progress g v v' t t';
}.
End rename.

(** A functional simulation carries [gtc] backwards. *)
Lemma gtc_sim_fun {V W T} (g : tgraph V T) (h : tgraph W T) (f : V → W) (P : V → Prop) :
  P (tg_init g) → (∀ v v', P v → tg_succ g v v' → P v') →
  gtc_sim g h (λ v w, P v ∧ w = f v) → gtc h → gtc g.
Proof.
  intros HP0 HPs [Hi Hs Ht Hp] Hh π [Hπ0 Hπ].
  assert (∀ i, P (π i)) as HP.
  { intros i. induction i as [|i IH]; [by rewrite Hπ0|]. eapply HPs; eauto. }
  destruct (Hh (λ i, f (π i))) as (k & τ & Htr & Hpr).
  - split; [rewrite Hπ0; symmetry; apply Hi|].
    intros i. destruct (Hs (π i) (π (S i)) (f (π i))) as (w' & Hw & _ & ->); [done..|]. done.
  - exists k, τ. split.
    + intros i Hk. eapply Ht; [by split|by split|done|by apply Htr].
    + eapply inf_often_impl; [|exact Hpr]. intros i Hpi.
      eapply Hp; [by split|by split|done|done].
Qed.

(** ** Equal graphs *)

(** Graphs with the same root and the same relations. *)
#[global] Instance tgraph_equiv {V T} : Equiv (tgraph V T) := λ g h,
  tg_init g = tg_init h ∧
  (∀ v w, tg_succ g v w ↔ tg_succ h v w) ∧
  (∀ v w t u, tg_trace g v w t u ↔ tg_trace h v w t u) ∧
  (∀ v w t u, tg_progress g v w t u ↔ tg_progress h v w t u).

#[global] Instance tgraph_equivalence {V T} : Equivalence (≡@{tgraph V T}).
Proof.
  unfold equiv, tgraph_equiv. split.
  - intros g. done.
  - intros g h (? & ? & ? & ?). split_and!; [done|symmetry; auto..].
  - intros g h k (-> & H1 & H2 & H3) (-> & K1 & K2 & K3).
    split; [done|]. split_and!; intros; first [by rewrite H1|by rewrite H2|by rewrite H3].
Qed.

Lemma gtc_mono {V T} (g h : tgraph V T) : g ≡ h → gtc g → gtc h.
Proof.
  intros (Hi & Hs & Ht & Hp) Hg π [H0 HS].
  destruct (Hg π) as (k & τ & Htr & Hpr).
  - split; [by rewrite Hi|]. intros i. by apply Hs.
  - exists k, τ. split.
    + intros i Hk. by apply Ht, Htr.
    + eapply inf_often_impl; [|exact Hpr]. intros i. apply Hp.
Qed.

#[global] Instance gtc_proper {V T} : Proper ((≡) ==> iff) (@gtc V T).
Proof. intros g h Hgh. split; apply gtc_mono; [done|by symmetry]. Qed.
