(* ===== verification/GtcReduce.v ===== *)
(** * Reductions that keep the global trace condition

    Two ways to shrink a pre-proof, on graphs with traces: leaving out a node
    that no infinite path visits ([pruned]), and contracting a node with one
    successor into its predecessors, composing the pairs of the two edges
    ([fused]).  Both keep [gtc] in both directions. *)

From Stdlib Require Import ClassicalEpsilon.
From S2P Require Import Prelude Gtc.

(** ** A node without successors *)

Section prune.
Context {V T : Type} (g h : tgraph V T) (x : V).

Record pruned : Prop := {
  pr_init : tg_init h = tg_init g;
  pr_leaf v : ¬ tg_succ g x v;
  pr_succ v w : tg_succ h v w ↔ tg_succ g v w ∧ w ≠ x;
  pr_trace v w t u : w ≠ x → tg_trace h v w t u ↔ tg_trace g v w t u;
  pr_progress v w t u : w ≠ x → tg_progress h v w t u ↔ tg_progress g v w t u;
}.

Lemma pruned_path π : pruned → is_path g π ↔ is_path h π.
Proof.
  intros [Hi Hl Hs _ _]. unfold is_path. rewrite Hi. setoid_rewrite Hs. split.
  - intros [H0 HS]. split; [done|]. intros i. split; [done|].
    intros Hx. apply (Hl (π (S (S i)))). rewrite <-Hx. apply HS.
  - intros [H0 HS]. split; [done|]. intros i. apply HS.
Qed.

Lemma pruned_gtc : pruned → gtc g ↔ gtc h.
Proof.
  intros Hp. pose proof Hp as [_ _ Hs Ht Hg]. unfold gtc. setoid_rewrite (pruned_path _ Hp).
  apply forall_proper. intros π.
  assert (is_path h π → ∀ i, π (S i) ≠ x) as Hne.
  { intros [_ HS] i. by apply (Hs (π i)). }
  split; intros H Hπ; destruct (H Hπ) as (k & τ & Htr & Hpr); specialize (Hne Hπ);
    exists k, τ; (split; [intros i Hk; by apply Ht, Htr|]).
  - eapply inf_often_impl; [|exact Hpr]. intros i. by apply Hg.
  - eapply inf_often_impl; [|exact Hpr]. intros i. by apply Hg.
Qed.
End prune.

(** ** Sequences cut into blocks *)

(** A sequence is cut into blocks of one or two positions; block [i] has two
    when [long i]. *)
Section blocks.
Context (long : nat → bool).

(** Where block [i] starts. *)
Fixpoint pos (i : nat) : nat :=
  match i with
  | O => O
  | S i => if long i then S (S (pos i)) else S (pos i)
  end.

(** The block of position [m], and whether [m] is its second position. *)
Fixpoint blk (m : nat) : nat * bool :=
  match m with
  | O => (0, false)
  | S m =>
    match blk m with
    | (i, false) => if long i then (i, true) else (S i, false)
    | (i, true) => (S i, false)
    end
  end.

Lemma blk_inv m i b :
  blk m = (i, b) → m = pos i + (if b then 1 else 0) ∧ (b = true → long i = true).
Proof.
  revert i b. induction m as [|m IH]; intros i b; simpl; [by intros [= <- <-]|].
  destruct (blk m) as [j c]. destruct (IH j c eq_refl) as [Hm Hc].
  destruct c; [|destruct (long j) eqn:E]; intros [= <- <-]; simpl.
  - rewrite (Hc eq_refl). split; [lia|done].
  - split; [lia|done].
  - rewrite E. split; [lia|done].
Qed.

Lemma blk_pos i : blk (pos i) = (i, false).
Proof.
  induction i as [|i IH]; simpl; [done|]. destruct (long i) eqn:E; simpl; by rewrite IH, E.
Qed.

Lemma blk_pos_S i : long i = true → blk (S (pos i)) = (i, true).
Proof. intros Hl. simpl. by rewrite blk_pos, Hl. Qed.

Lemma pos_le i : i ≤ pos i.
Proof. induction i as [|i IH]; simpl; [lia|]. destruct (long i); lia. Qed.

Lemma pos_mono i j : i ≤ j → pos i ≤ pos j.
Proof. induction 1 as [|j _ IH]; simpl; [lia|]. destruct (long j); lia. Qed.

(** Late positions are in late blocks. *)
Lemma blk_late i m : pos i ≤ m → i ≤ (blk m).1.
Proof.
  intros Hm. destruct (blk m) as [j b] eqn:E. apply blk_inv in E as [-> Hb]. simpl.
  destruct (decide (i ≤ j)) as [|Hij]; [done|]. exfalso.
  pose proof (pos_mono (S j) i ltac:(lia)) as H. simpl in H.
  destruct b; [rewrite (Hb eq_refl) in H; lia|]. destruct (long j); lia.
Qed.
End blocks.

(** ** A node with one successor *)

Section fuse.
Context {V T : Type} `{EqDecision V} (g h : tgraph V T) (x c : V).

(** [v] reaches [c] through [x]. *)
Definition via (v w : V) : Prop := w = c ∧ tg_succ g v x.

Record fused : Prop := {
  fu_init : tg_init h = tg_init g;
  fu_root : tg_init g ≠ x;
  fu_ne : c ≠ x;
  fu_one w : tg_succ g x w ↔ w = c;
  fu_excl v : tg_succ g v x → ¬ tg_succ g v c;
  fu_succ v w : tg_succ h v w ↔ v ≠ x ∧ w ≠ x ∧ (tg_succ g v w ∨ via v w);
  fu_trace v w t u : v ≠ x → w ≠ x → ¬ via v w → tg_trace h v w t u ↔ tg_trace g v w t u;
  fu_progress v w t u : v ≠ x → w ≠ x → ¬ via v w →
    tg_progress h v w t u ↔ tg_progress g v w t u;
  fu_trace_via v t u : v ≠ x → via v c →
    tg_trace h v c t u ↔ ∃ y, tg_trace g v x t y ∧ tg_trace g x c y u;
  fu_progress_via v t u : v ≠ x → via v c →
    tg_progress h v c t u ↔
    ∃ y, tg_trace g v x t y ∧ tg_trace g x c y u ∧
         (tg_progress g v x t y ∨ tg_progress g x c y u);
}.

Section expand.
Context (F : fused) (π : nat → V) (Hπ : is_path h π).

(** Does step [i] of the short path pass through [x] in [g]? *)
Definition detour (i : nat) : bool :=
  if excluded_middle_informative (via (π i) (π (S i))) then true else false.

(** The path of [g], with the visits of [x] put back. *)
Definition expand (m : nat) : V :=
  match blk detour m with (i, b) => if b then x else π i end.

Lemma detour_true i : detour i = true ↔ via (π i) (π (S i)).
Proof. unfold detour. by destruct (excluded_middle_informative _). Qed.

Lemma detour_false i : detour i = false → ¬ via (π i) (π (S i)).
Proof. unfold detour. by destruct (excluded_middle_informative _). Qed.

Lemma short_ne i : π i ≠ x.
Proof.
  destruct Hπ as [H0 HS]. destruct i as [|i].
  - rewrite H0, (fu_init F). apply (fu_root F).
  - by apply (fu_succ F (π i)).
Qed.

Lemma expand_path : is_path g expand.
Proof.
  destruct Hπ as [H0 HS]. split; [by rewrite <-(fu_init F), <-H0|]. intros m.
  unfold expand. simpl. destruct (blk detour m) as [i b] eqn:E.
  destruct (proj1 (fu_succ F _ _) (HS i)) as (_ & _ & Hi). destruct b.
  - apply blk_inv in E as [_ Hd]. destruct (proj1 (detour_true i) (Hd eq_refl)) as [Hc _].
    rewrite Hc. by apply (fu_one F).
  - destruct (detour i) eqn:Ed.
    + apply detour_true in Ed as [_ ?]. done.
    + apply detour_false in Ed. by destruct Hi.
Qed.

Lemma expand_pos i : expand (pos detour i) = π i.
Proof. unfold expand. by rewrite blk_pos. Qed.

Lemma expand_pos_S i : detour i = true → expand (S (pos detour i)) = x.
Proof. intros Hd. unfold expand. by rewrite blk_pos_S. Qed.

Lemma pos_detour i :
  pos detour (S i) = if detour i then S (S (pos detour i)) else S (pos detour i).
Proof. done. Qed.

Lemma expand_trace k τ :
  is_trace g expand k τ → is_trace h π k (λ i, τ (pos detour i)).
Proof.
  intros Htr i Hk. pose proof (pos_le detour i) as Hle. cbv beta.
  assert (k ≤ pos detour i) as Hp by lia. pose proof (Htr _ Hp) as H1.
  rewrite pos_detour. pose proof (expand_pos (S i)) as HS. rewrite pos_detour in HS.
  destruct (detour i) eqn:Ed.
  - pose proof (Htr (S (pos detour i)) ltac:(lia)) as H2.
    rewrite expand_pos, expand_pos_S in H1 by done. rewrite expand_pos_S, HS in H2 by done.
    apply detour_true in Ed as [Hc Hx]. rewrite Hc in H2 |- *.
    apply (fu_trace_via F); [apply short_ne|done|]. eauto.
  - rewrite expand_pos, HS in H1. apply detour_false in Ed.
    apply (fu_trace F); [apply short_ne|apply short_ne|done|done].
Qed.

Lemma expand_progress k τ :
  is_trace g expand k τ → progresses g expand τ →
  progresses h π (λ i, τ (pos detour i)).
Proof.
  intros Htr Hpr i. destruct (Hpr (pos detour (i + k))) as (m & Hm & Hp).
  pose proof (blk_late detour (i + k) m Hm) as Hj.
  destruct (blk detour m) as [j b] eqn:E. simpl in Hj. exists j. split; [lia|].
  pose proof (blk_inv detour m j b E) as [Hmj Hb]. pose proof (pos_le detour j) as Hle.
  pose proof (expand_pos (S j)) as HS. rewrite pos_detour in HS. cbv beta. rewrite pos_detour.
  destruct (detour j) eqn:Ed.
  - assert (expand (S (pos detour j)) = x) as Hx by (by apply expand_pos_S).
    pose proof (Htr (pos detour j) ltac:(lia)) as H1. rewrite expand_pos, Hx in H1.
    pose proof (Htr (S (pos detour j)) ltac:(lia)) as H2. rewrite Hx, HS in H2.
    apply detour_true in Ed as [Hc Hv]. rewrite Hc in H2, HS |- *.
    apply (fu_progress_via F); [apply short_ne|done|].
    exists (τ (S (pos detour j))). split; [done|]. split; [done|]. destruct b.
    + right. rewrite Nat.add_1_r in Hmj. subst m. by rewrite Hx, HS in Hp.
    + left. rewrite Nat.add_0_r in Hmj. subst m. by rewrite expand_pos, Hx in Hp.
  - destruct b; [by specialize (Hb eq_refl)|]. rewrite Nat.add_0_r in Hmj. subst m.
    rewrite expand_pos, HS in Hp. apply detour_false in Ed.
    apply (fu_progress F); [apply short_ne|apply short_ne|done|done].
Qed.
End expand.

Lemma fused_gtc_complete : fused → gtc g → gtc h.
Proof.
  intros F Hg π Hπ. destruct (Hg (expand π) (expand_path F π Hπ)) as (k & τ & Htr & Hpr).
  exists k, (λ i, τ (pos (detour π) i)).
  split; [by apply expand_trace|by eapply expand_progress].
Qed.

Section contract.
Context (F : fused) (π : nat → V) (Hπ : is_path g π).

(** The positions of the long path that are kept. *)
Fixpoint start (i : nat) : nat :=
  match i with
  | O => O
  | S i => if decide (π (S (start i)) = x) then S (S (start i)) else S (start i)
  end.

Definition skip (i : nat) : bool := bool_decide (π (S (start i)) = x).

Lemma pos_skip i : pos skip i = start i.
Proof.
  induction i as [|i IH]; simpl; [done|]. rewrite IH. unfold skip.
  by case_bool_decide; case_decide.
Qed.

(** The path of [h]. *)
Definition contract (i : nat) : V := π (start i).

Lemma after_x m : π m = x → π (S m) = c.
Proof. intros Hm. apply (fu_one F). rewrite <-Hm. apply Hπ. Qed.

Lemma contract_ne i : contract i ≠ x.
Proof.
  unfold contract. induction i as [|i IH]; simpl.
  - destruct Hπ as [-> _]. apply (fu_root F).
  - case_decide as Hx; [|done]. rewrite (after_x _ Hx). apply (fu_ne F).
Qed.

Lemma contract_skip i : skip i = true → contract (S i) = c ∧ via (contract i) c.
Proof.
  intros Hs%bool_decide_eq_true. unfold contract. simpl. rewrite decide_True by done.
  split; [by apply after_x|]. split; [done|]. rewrite <-Hs. apply Hπ.
Qed.

Lemma contract_keep i :
  skip i = false → contract (S i) = π (S (start i)) ∧ ¬ via (contract i) (contract (S i)).
Proof.
  intros Hs%bool_decide_eq_false. unfold contract. simpl. rewrite decide_False by done.
  split; [done|]. intros [Hc Hx]. apply (fu_excl F _ Hx). rewrite <-Hc. apply Hπ.
Qed.

Lemma contract_path : is_path h contract.
Proof.
  split; [rewrite (fu_init F); apply Hπ|]. intros i.
  apply (fu_succ F). split; [apply contract_ne|]. split; [apply contract_ne|].
  destruct (skip i) eqn:E.
  - destruct (contract_skip i E) as [-> ?]. by right.
  - destruct (contract_keep i E) as [-> _]. left. apply Hπ.
Qed.

(** A trace of the short path, with a middle tag for every detour. *)
Context (k : nat) (τ : nat → T) (Htr : is_trace h contract k τ).

Definition mid_spec (i : nat) (y : T) : Prop :=
  tg_trace g (contract i) x (τ i) y ∧ tg_trace g x c y (τ (S i)) ∧
  (tg_progress h (contract i) c (τ i) (τ (S i)) →
   tg_progress g (contract i) x (τ i) y ∨ tg_progress g x c y (τ (S i))).

Definition mid (i : nat) : T := epsilon (inhabits (τ 0)) (mid_spec i).

Lemma mid_ok i : k ≤ i → skip i = true → mid_spec i (mid i).
Proof.
  intros Hk Hs. unfold mid. apply epsilon_spec. destruct (contract_skip i Hs) as [Hc Hv].
  pose proof (Htr i Hk) as Ht. rewrite Hc in Ht.
  destruct (excluded_middle_informative (tg_progress h (contract i) c (τ i) (τ (S i))))
    as [Hp|Hp].
  - apply (fu_progress_via F) in Hp as (y & ? & ? & ?); [by exists y|apply contract_ne|done].
  - apply (fu_trace_via F) in Ht as (y & ? & ?); [by exists y|apply contract_ne|done].
Qed.

Definition retrace (m : nat) : T :=
  match blk skip m with (i, b) => if b then mid i else τ i end.

Lemma retrace_start i : retrace (start i) = τ i.
Proof. unfold retrace. by rewrite <-pos_skip, blk_pos. Qed.

Lemma retrace_mid i : skip i = true → retrace (S (start i)) = mid i.
Proof. intros Hs. unfold retrace. by rewrite <-pos_skip, blk_pos_S. Qed.

Lemma start_S i : start (S i) = if skip i then S (S (start i)) else S (start i).
Proof. simpl. unfold skip. by case_bool_decide; case_decide. Qed.

(** Both halves of a detour, and a step without one, are traces of [g]. *)
Lemma retrace_block i m :
  k ≤ i → start i ≤ m → m < start (S i) → tg_trace g (π m) (π (S m)) (retrace m) (retrace (S m)).
Proof.
  intros Hk H1 H2. pose proof (retrace_start (S i)) as HS. rewrite start_S in H2, HS.
  destruct (skip i) eqn:Es.
  - pose proof (mid_ok i Hk Es) as (Ha & Hb & _). pose proof (retrace_mid i Es) as Hm.
    apply bool_decide_eq_true in Es.
    destruct (decide (m = start i)) as [->|].
    + by rewrite retrace_start, Hm, Es.
    + assert (m = S (start i)) as -> by lia. by rewrite Hm, HS, Es, (after_x _ Es).
  - assert (m = start i) as -> by lia. destruct (contract_keep i Es) as [Hc Hv].
    rewrite retrace_start, HS, <-Hc.
    apply (fu_trace F); [apply contract_ne|apply contract_ne|done|by apply Htr].
Qed.

Lemma retrace_trace : is_trace g π (start k) retrace.
Proof.
  intros m Hm. rewrite <-pos_skip in Hm. pose proof (blk_late skip k m Hm) as Hi.
  destruct (blk skip m) as [i b] eqn:E. apply blk_inv in E as [Hmi Hb]. simpl in Hi.
  rewrite pos_skip in Hmi. apply (retrace_block i); [done|lia|]. rewrite start_S.
  destruct b; [rewrite Hb by done; lia|]. destruct (skip i); lia.
Qed.

Lemma retrace_progress : progresses h contract τ → progresses g π retrace.
Proof.
  intros Hpr i. destruct (Hpr (i + k)) as (j & Hj & Hp).
  pose proof (pos_le skip j) as Hle. rewrite pos_skip in Hle.
  pose proof (retrace_start (S j)) as HS. rewrite start_S in HS.
  destruct (skip j) eqn:Es.
  - destruct (contract_skip j Es) as [Hc _]. rewrite Hc in Hp.
    pose proof (mid_ok j ltac:(lia) Es) as (_ & _ & Hmid).
    pose proof (retrace_mid j Es) as Hm. apply bool_decide_eq_true in Es.
    destruct (Hmid Hp) as [H|H].
    + exists (start j). split; [lia|]. by rewrite retrace_start, Hm, Es.
    + exists (S (start j)). split; [lia|]. by rewrite Hm, HS, Es, (after_x _ Es).
  - destruct (contract_keep j Es) as [Hc Hv]. exists (start j). split; [lia|].
    rewrite retrace_start, HS, <-Hc.
    apply (fu_progress F); [apply contract_ne|apply contract_ne|done|done].
Qed.
End contract.

Lemma fused_gtc_sound : fused → gtc h → gtc g.
Proof.
  intros F Hh π Hπ.
  destruct (Hh (contract π) (contract_path F π Hπ)) as (k & τ & Htr & Hpr).
  exists (start π k), (retrace π τ).
  split; [by apply retrace_trace|by eapply retrace_progress].
Qed.

Lemma fused_gtc : fused → gtc g ↔ gtc h.
Proof. split; [by apply fused_gtc_complete|by apply fused_gtc_sound]. Qed.
End fuse.
