(* ===== verification/ProofAut.v ===== *)
(** * The proof automaton: [src/generic/proof_aut.hpp], [proof_aut.c]

    Spot's view of the proof graph as a Büchi automaton: a ghost initial state
    with one transition to the root, and per vertex one transition for each
    successor, labelled with the successor's diagram.  Every transition is
    accepting, so the automaton accepts exactly the words that spell infinite
    paths of the graph. *)

From S2P Require Import Prelude Spot ProofGraph Gtc.

Section proof_automaton.
Context {B : Bdd} {D : BddDict} {HO : HashOrder}.

(** ** States *)

(** [ProofState] and [ProofGhostState], the two classes derived from
    [spot::state] here; [dynamic_cast] is case analysis. *)
Inductive pstate :=
| ProofState (vertex : Vertex) (tags : gset Tag)
| ProofGhostState.

Definition compare (s other : pstate) : Z :=
  match s, other with
  | ProofState _ _, ProofGhostState => 1
  | ProofState v _, ProofState v' _ =>
    if decide (bdd_id v < bdd_id v')%Z then -1
    else if decide (bdd_id v' < bdd_id v)%Z then 1 else 0
  | ProofGhostState, ProofState _ _ => -1
  | ProofGhostState, ProofGhostState => 0
  end.

Definition hash (s : pstate) : Z :=
  match s with
  | ProofState v _ => wrapu 64 (bdd_id v)
  | ProofGhostState => 0
  end.

(** ** Successor iterators *)

(** [ProofGhostSuccIterator] with its flag, and [ProofSuccIterator] with the
    vertices the iterator [successor] has still to visit, [None] before
    [first] assigns it. *)
Inductive piter :=
| ProofGhostSuccIterator (finished : bool)
| ProofSuccIterator (vertex : Vertex) (successor : option (list Vertex)).

Definition done (i : piter) : M ProofData bool :=
  match i with
  | ProofGhostSuccIterator finished => mret finished
  | ProofSuccIterator v None => fail EUB
  | ProofSuccIterator v (Some l) =>
    p ← get; lift (get_successors p v) ;; mret (bool_decide (l = []))
  end.

Definition first (i : piter) : M ProofData (bool * piter) :=
  match i with
  | ProofGhostSuccIterator _ =>
    let i := ProofGhostSuccIterator false in
    d ← done i; mret (negb d, i)
  | ProofSuccIterator v _ =>
    p ← get;
    vs ← lift (get_successors p v);
    let i := ProofSuccIterator v (Some (hash_iter vs)) in
    d ← done i; mret (negb d, i)
  end.

Definition next (i : piter) : M ProofData (bool * piter) :=
  match i with
  | ProofGhostSuccIterator _ =>
    let i := ProofGhostSuccIterator true in
    d ← done i; mret (negb d, i)
  | ProofSuccIterator v (Some (_ :: l)) =>
    let i := ProofSuccIterator v (Some l) in
    d ← done i; mret (negb d, i)
  | ProofSuccIterator v _ => fail EUB
  end.

(** The vertex [dst] and [cond] look at. *)
Definition current (i : piter) : M ProofData Vertex :=
  match i with
  | ProofGhostSuccIterator _ => gets initial_vertex
  | ProofSuccIterator _ (Some (v :: _)) => mret v
  | ProofSuccIterator _ _ => fail EUB
  end.

Definition dst (i : piter) : M ProofData pstate :=
  v ← current i;
  p ← get;
  ts ← lift (get_tags_of_vertex p v);
  mret (ProofState v ts).

Definition cond (i : piter) : M ProofData bdd := current i.

(** [proof.acc().all_sets()]: the one set of the Büchi condition. *)
Definition acc (i : piter) : M ProofData bool := mret true.

Definition iterator : succ_iterator ProofData piter pstate :=
  SuccIterator first next done dst cond acc.

(** ** The automaton *)

Definition get_init_state : pstate := ProofGhostState.

Definition succ_iter (s : pstate) : piter :=
  match s with
  | ProofState v _ => ProofSuccIterator v None
  | ProofGhostState => ProofGhostSuccIterator false
  end.

(** The transitions an iterator has still to visit. *)
Definition left_of (i : piter) : nat :=
  match i with
  | ProofGhostSuccIterator finished => if finished then 0 else 1
  | ProofSuccIterator _ o => length (default [] o)
  end.

(** The transitions of a state. *)
Definition successors (p : ProofData) (s : pstate) : res (list (edge pstate)) :=
  match drain iterator left_of (succ_iter s) p with
  | Ok (es, _) => Ok es
  | Err e => Err e
  end.

Definition ProofAutomaton (p : ProofData) : twa pstate :=
  Twa get_init_state (successors p).

(** The tags of a state's name: [t_1,t_2,...]. *)
Fixpoint format_tags (ts : list Tag) : string :=
  match ts with
  | [] => ""
  | [t] => "t_" +:+ pretty t
  | t :: ts => "t_" +:+ pretty t +:+ "," +:+ format_tags ts
  end.

Definition format_state (p : ProofData) (s : pstate) : res string :=
  match s with
  | ProofGhostState => Ok ""
  | ProofState v ts =>
    match get_vertex_name p v with
    | Ok n => Ok ("S" +:+ n +:+ " " +:+ format_tags (hash_iter ts))
    | Err e => Err e
    end
  end.

Context {BL : BddLaws B} {HL : HashOrderLaws HO}.

(** ** Comparison *)

(** States that occur in the automaton carry the tags of their vertex. *)
Definition state_of (p : ProofData) (v : Vertex) : pstate :=
  ProofState v (default ∅ (tag_map p !! v)).

Lemma compare_vertex v v' ts ts' :
  compare (ProofState v ts) (ProofState v' ts') = 0%Z ↔ v = v'.
Proof.
  simpl. repeat case_decide; [naive_solver lia..|].
  split; [intros _; apply (inj bdd_id); lia|done].
Qed.

(** ** Transitions *)

Lemma get_tags_state_of p v :
  proof_wf p → v ∈ vertices p →
  get_tags_of_vertex p v = Ok (default ∅ (tag_map p !! v)).
Proof.
  intros Hwf Hv. rewrite <-(wf_tag_dom p Hwf) in Hv. apply elem_of_dom in Hv as [ts Hts].
  unfold get_tags_of_vertex. by rewrite Hts.
Qed.

Lemma done_run p v l :
  proof_wf p → v ∈ vertices p →
  done (ProofSuccIterator v (Some l)) p = Ok (bool_decide (l = []), p).
Proof.
  intros Hwf Hv. destruct (wf_get_successors p v Hwf Hv) as (vs & Hvs & _).
  unfold done. run_step. by rewrite Hvs.
Qed.

Lemma drain_loop_run p v l fuel :
  proof_wf p → v ∈ vertices p → Forall (.∈ vertices p) l → length l ≤ fuel →
  drain_loop iterator fuel (ProofSuccIterator v (Some l)) p
    = Ok ((λ v', (v', true, state_of p v')) <$> l, p).
Proof.
  intros Hwf Hv Hl. revert fuel. induction Hl as [|v' l Hv' Hl IH]; intros fuel Hf.
  - destruct fuel; unfold drain_loop; fold (@drain_loop B); simpl it_done;
      by rewrite (bind_Ok _ _ _ _ _ (done_run p v [] Hwf Hv)).
  - destruct fuel as [|fuel]; simpl in Hf; [lia|]. cbn [drain_loop].
    simpl it_done. rewrite (bind_Ok _ _ _ _ _ (done_run p v (v' :: l) Hwf Hv)).
    rewrite bool_decide_eq_false_2 by done.
    change (it_dst iterator) with dst. change (it_next iterator) with next.
    unfold dst, next, current. run_step. rewrite get_tags_state_of by done. run_step.
    destruct (wf_get_successors p v Hwf Hv) as (vs & -> & _). run_step.
    rewrite IH by lia. done.
Qed.

Lemma first_run p v o vs :
  get_successors p v = Ok vs →
  first (ProofSuccIterator v o) p
    = Ok (negb (bool_decide (hash_iter vs = [])), ProofSuccIterator v (Some (hash_iter vs)), p).
Proof. intros Hvs. unfold first, done. run_step. rewrite Hvs. run_step. by rewrite Hvs. Qed.

Lemma successors_state p v ts :
  proof_wf p → v ∈ vertices p →
  ∃ es, successors p (ProofState v ts) = Ok es ∧
    ∀ c m s, (c, m, s) ∈ es ↔ has_succ p v c ∧ m = true ∧ s = state_of p c.
Proof.
  intros Hwf Hv. destruct (wf_get_successors p v Hwf Hv) as (vs & Hvs & Hin).
  assert (Forall (.∈ vertices p) (hash_iter vs)) as Hall.
  { apply Forall_forall. intros x Hx%elem_of_hash_iter%Hin. by eapply wf_succ. }
  unfold successors, drain.
  rewrite (bind_Ok _ _ _ _ _ (first_run p v None vs Hvs)).
  cbn [snd]. rewrite drain_loop_run by done.
  eexists. split; [done|]. intros c m s. rewrite list_elem_of_fmap. split.
  - intros (x & [= -> -> ->] & Hx%elem_of_hash_iter%Hin). done.
  - intros (Hc & -> & ->). exists c. by rewrite elem_of_hash_iter, Hin.
Qed.

Lemma successors_ghost p :
  proof_wf p → initial_vertex p ∈ vertices p →
  successors p ProofGhostState
    = Ok [(initial_vertex p, true, state_of p (initial_vertex p))].
Proof.
  intros Hwf Hi. unfold successors, drain. repeat progress run_step. unfold dst. run_step.
  by rewrite get_tags_state_of by done.
Qed.

(** Without a root the ghost's transition cannot be built. *)
Lemma successors_ghost_err p :
  proof_wf p → initial_vertex p = NO_VERTEX →
  successors p ProofGhostState = Err EAssert.
Proof.
  intros Hwf Hi. unfold successors, drain. repeat progress run_step. unfold dst. run_step.
  by rewrite Hi, (wf_get_tags_err p NO_VERTEX Hwf (wf_no_vertex p Hwf)).
Qed.

Lemma ProofAutomaton_explorable p :
  proof_wf p → initial_vertex p ∈ vertices p → explorable (ProofAutomaton p).
Proof.
  intros Hwf Hi. exists (ProofGhostState :: (state_of p <$> elements (vertices p))).
  split; [by left|]. intros s [->|(v & -> & Hv%elem_of_elements)%list_elem_of_fmap]%elem_of_cons.
  - eexists. split; [by apply successors_ghost|].
    intros c m s [= -> -> ->]%list_elem_of_singleton. right.
    apply list_elem_of_fmap. eexists. split; [done|]. by apply elem_of_elements.
  - destruct (successors_state p v (default ∅ (tag_map p !! v)) Hwf Hv) as (es & Hes & Hin).
    exists es. split; [done|]. intros c m s (Hc & -> & ->)%Hin. right.
    apply list_elem_of_fmap. eexists. split; [done|].
    apply elem_of_elements. by eapply wf_succ.
Qed.

(** ** The language *)

(** The graph with traces the object stands for. *)
Definition graph_of (p : ProofData) : tgraph Vertex Tag := {|
  tg_init := initial_vertex p;
  tg_succ := has_succ p;
  tg_trace v v' t t' := (v, v', t, t') ∈ trace_pairs p;
  tg_progress v v' t t' := (v, v', t, t') ∈ progress_pairs p;
|}.

(** [w] spells the path [π]. *)
Definition spells (w : word) (π : nat → Vertex) : Prop := ∀ i, bdd_sat (w i) (π i) = true.

Lemma path_vertices p π i :
  proof_wf p → initial_vertex p ∈ vertices p → is_path (graph_of p) π → π i ∈ vertices p.
Proof.
  intros Hwf Hi [H0 HS]. destruct i as [|i]; [by rewrite H0|].
  eapply (wf_succ p Hwf), HS.
Qed.

Lemma ProofAutomaton_run_path p w ρ cs ms :
  proof_wf p → initial_vertex p ∈ vertices p →
  is_run (ProofAutomaton p) w ρ cs ms → is_path (graph_of p) cs.
Proof.
  intros Hwf Hi [Hr0 Hrs _]. simpl in *.
  assert (∀ i, ρ (S i) = state_of p (cs i) ∧ cs i ∈ vertices p
     ∧ match i with O => cs 0 = initial_vertex p | S j => has_succ p (cs j) (cs i) end) as H.
  { intros i. induction i as [|i (IH1 & IH2 & _)].
    - destruct (Hrs 0) as (es & Hes & Hin). simpl in Hes.
      rewrite Hr0 in Hes. unfold get_init_state in Hes.
      rewrite successors_ghost in Hes by done. simplify_eq.
      apply list_elem_of_singleton in Hin as [= -> ? ->]. done.
    - destruct (Hrs (S i)) as (es & Hes & Hin). simpl in Hes. rewrite IH1 in Hes.
      destruct (successors_state p (cs i) (default ∅ (tag_map p !! cs i)) Hwf IH2)
        as (es' & Hes' & Hin'). unfold state_of in Hes. rewrite Hes' in Hes. simplify_eq.
      apply Hin' in Hin as (Hs & _ & ->). split; [done|]. split; [by eapply wf_succ|done]. }
  split; [apply (H 0)|]. intros i. apply (H (S i)).
Qed.

Lemma ProofAutomaton_path_run p w π :
  proof_wf p → initial_vertex p ∈ vertices p →
  is_path (graph_of p) π → spells w π →
  is_run (ProofAutomaton p) w
    (λ i, match i with O => ProofGhostState | S j => state_of p (π j) end) π (λ _, true).
Proof.
  intros Hwf Hi Hπ Hw. split; [done| |done].
  intros [|i]; unfold twa_step; simpl.
  - eexists. split; [by apply successors_ghost|].
    destruct Hπ as [-> _]. by apply list_elem_of_singleton.
  - destruct (successors_state p (π i) (default ∅ (tag_map p !! π i)) Hwf) as (es & Hes & Hin).
    { by apply path_vertices. }
    exists es. split; [done|]. apply Hin. split; [apply Hπ|done].
Qed.

Lemma ProofAutomaton_accepts p w :
  proof_wf p → initial_vertex p ∈ vertices p →
  accepts (ProofAutomaton p) w ↔ ∃ π, is_path (graph_of p) π ∧ spells w π.
Proof.
  intros Hwf Hi. split.
  - intros (ρ & cs & ms & Hrun & _). exists cs.
    split; [by eapply ProofAutomaton_run_path|exact (run_sat _ _ _ _ _ Hrun)].
  - intros (π & Hπ & Hw). eexists _, _, _. split; [by apply ProofAutomaton_path_run|].
    intros i. by exists i.
Qed.
End proof_automaton.
