(* ===== verification/Trace.v ===== *)
(** * The trace automaton: [src/generic/trace.hpp], [trace.c]

    A Büchi automaton over the same letters as the proof automaton.  Its states
    are pairs of a vertex and a tag, created on demand and shared through
    [state_map]; the initial state loops on every letter and may jump to any
    pair, after which the automaton follows trace pairs, and a transition is
    accepting when it is a progress pair.  It accepts the words some suffix of
    which spells a path that carries an infinitely progressing trace. *)

From S2P Require Import Prelude Spot ProofGraph Gtc ProofAut.

Section trace_automaton.
Context {B : Bdd} {D : BddDict} {HO : HashOrder}.

(** ** States *)

Record TraceState := mkTraceState {
  vertex : Vertex;
  tag : Tag;
}.

Definition initial (s : TraceState) : bool :=
  bool_decide (vertex s = NO_VERTEX) && bool_decide (tag s = NO_TAG).

Definition compare (s other : TraceState) : Z :=
  if initial s then (if initial other then 0 else -1)
  else if initial other then 1
  else if decide (bdd_id (vertex s) < bdd_id (vertex other))%Z then -1
  else if decide (bdd_id (vertex s) > bdd_id (vertex other))%Z then 1
  else if decide (tag s < tag other)%Z then -1
  else if decide (tag s > tag other)%Z then 1
  else 0.

Definition hash (s : TraceState) : Z :=
  let seed := 0%Z in
  let seed := HASH_VAL seed (hash_vertex (vertex s)) in
  let seed := HASH_VAL seed (hash_tag (tag s)) in
  wrapu 64 seed.

(** [std::hash<StatePair>], the key of [state_map]. *)
Definition hash_pair (key : Vertex * Tag) : Z :=
  let seed := 0%Z in
  let seed := HASH_VAL seed (hash_vertex key.1) in
  let seed := HASH_VAL seed (hash_tag key.2) in
  wrapu 64 seed.

(** ** The automaton object *)

(** The states the automaton owns live at the addresses of [store]; an address
    is never null. *)
Record TraceAutomaton := mkTraceAutomaton {
  ta_proof : ProofData;
  state_map : gmap (Vertex * Tag) positive;
  store : gmap positive TraceState;
}.

Definition new_TraceAutomaton (p : ProofData) : TraceAutomaton :=
  mkTraceAutomaton p ∅ ∅.

(** Dereferencing a [TraceState *]. *)
Definition deref (s : positive) : M TraceAutomaton TraceState :=
  st ← gets store;
  match st !! s with Some x => mret x | None => fail EFault end.

Definition get_state (v : Vertex) (t : Tag) : M TraceAutomaton positive :=
  sm ← gets state_map;
  match sm !! (v, t) with
  | None =>
    st ← gets store;
    let s := fresh (dom st) in
    modify (λ a, mkTraceAutomaton (ta_proof a)
      (<[(v, t) := s]> (state_map a)) (<[s := mkTraceState v t]> (store a))) ;;
    mret s
  | Some s => mret s
  end.

Definition get_init_state : M TraceAutomaton positive := get_state NO_VERTEX NO_TAG.

(** [delete] of the state that an entry of [state_map] points to; to delete an
    object twice is undefined. *)
Definition delete_state (k : Vertex * Tag) : M TraceAutomaton unit :=
  sm ← gets state_map;
  match sm !! k with
  | None => mret tt
  | Some x =>
    deref x ;;
    modify (λ a, mkTraceAutomaton (ta_proof a) (state_map a) (delete x (store a)))
  end.

(** The destructor, over the entries of [state_map] in their order. *)
Definition delete_TraceAutomaton : M TraceAutomaton unit :=
  sm ← gets state_map; for_each (hash_iter (dom sm)) delete_state.

(** ** Successor iterators *)

(** The vector is kept with its back first: [push_back] is cons. *)
Record titer := TraceSuccIterator {
  it_state : positive;
  state_info_vector : list positive;
}.

Definition succ_iter (s : positive) : titer := TraceSuccIterator s [].

Definition done (i : titer) : M TraceAutomaton bool :=
  mret (bool_decide (state_info_vector i = [])).

(** The inner loop of [first], over the tags of one vertex. *)
Fixpoint push_tags (s : TraceState) (v : Vertex) (ts : list Tag) (vec : list positive) :
    M TraceAutomaton (list positive) :=
  match ts with
  | [] => mret vec
  | t :: ts =>
    p ← gets ta_proof;
    if negb (initial s) && negb (trace_pair p (vertex s) v (tag s) t)
    then push_tags s v ts vec
    else x ← get_state v t; push_tags s v ts (x :: vec)
  end.

(** The outer loop of [first], over the vertices. *)
Fixpoint push_vertices (s : TraceState) (vs : list Vertex) (vec : list positive) :
    M TraceAutomaton (list positive) :=
  match vs with
  | [] => mret vec
  | v :: vs =>
    p ← gets ta_proof;
    tset ← lift (get_tags_of_vertex p v);
    vec ← push_tags s v (hash_iter tset) vec;
    push_vertices s vs vec
  end.

(** [reserve] changes the capacity of the vector only. *)
Definition first (i : titer) : M TraceAutomaton (bool * titer) :=
  assert (bool_decide (state_info_vector i = [])) ;;
  p ← gets ta_proof;
  s ← deref (it_state i);
  successors ← (if initial s then mret (vertices p)
                else lift (get_successors p (vertex s)));
  vec ← (if initial s
         then x ← get_state NO_VERTEX NO_TAG; mret (x :: state_info_vector i)
         else mret (state_info_vector i));
  vec ← push_vertices s (hash_iter successors) vec;
  let i := TraceSuccIterator (it_state i) vec in
  d ← done i; mret (negb d, i).

(** [back] and [pop_back] of an empty vector are undefined. *)
Definition back (i : titer) : M TraceAutomaton positive :=
  match state_info_vector i with x :: _ => mret x | [] => fail EUB end.

Definition next (i : titer) : M TraceAutomaton (bool * titer) :=
  match state_info_vector i with
  | _ :: vec =>
    let i := TraceSuccIterator (it_state i) vec in
    d ← done i; mret (negb d, i)
  | [] => fail EUB
  end.

Definition dst (i : titer) : M TraceAutomaton positive := back i.

Definition cond (i : titer) : M TraceAutomaton bdd :=
  x ← back i;
  s ← deref x;
  mret (if decide (vertex s = NO_VERTEX) then bddtrue else vertex s).

(** The mark of the Büchi condition on progress pairs only. *)
Definition acc (i : titer) : M TraceAutomaton bool :=
  x ← back i;
  s ← deref x;
  st ← deref (it_state i);
  p ← gets ta_proof;
  mret (progress_pair p (vertex st) (vertex s) (tag st) (tag s)).

Definition iterator : succ_iterator TraceAutomaton titer positive :=
  SuccIterator first next done dst cond acc.

Definition left_of (i : titer) : nat := length (state_info_vector i).

(** ** The automaton as Spot sees it *)

(** Spot identifies states by [compare]: the pointers of the transitions are
    read back as the pairs they denote. *)
Fixpoint deref_edges (es : list (edge positive)) : M TraceAutomaton (list (edge TraceState)) :=
  match es with
  | [] => mret []
  | (c, m, x) :: es =>
    s ← deref x;
    r ← deref_edges es;
    mret ((c, m, s) :: r)
  end.

Definition successors_at (x : positive) : M TraceAutomaton (list (edge TraceState)) :=
  es ← drain iterator left_of (succ_iter x);
  deref_edges es.

(** The transitions of a state, from an automaton that has built no state yet. *)
Definition successors (p : ProofData) (s : TraceState) : res (list (edge TraceState)) :=
  match (x ← get_state (vertex s) (tag s); successors_at x) (new_TraceAutomaton p) with
  | Ok (es, _) => Ok es
  | Err e => Err e
  end.

Definition trace_automaton (p : ProofData) : twa TraceState :=
  Twa (mkTraceState NO_VERTEX NO_TAG) (successors p).

Definition format_state (p : ProofData) (s : TraceState) : res string :=
  if initial s then Ok "init"
  else if decide (vertex s ≠ NO_VERTEX ∧ tag s ≠ NO_TAG) then
    match get_vertex_name p (vertex s) with
    | Ok n => Ok ("S" +:+ n +:+ ",t" +:+ pretty (tag s))
    | Err e => Err e
    end
  else Err EAssert.

(** ** Comparison *)

#[global] Instance TraceState_eq_dec : EqDecision TraceState.
Proof. solve_decision. Defined.

Lemma initial_true s : initial s = true ↔ s = mkTraceState NO_VERTEX NO_TAG.
Proof.
  unfold initial. rewrite andb_true_iff, !bool_decide_eq_true.
  destruct s; simpl. naive_solver.
Qed.

Context {BL : BddLaws B} {HL : HashOrderLaws HO}.

Lemma compare_eq s s' : compare s s' = 0%Z ↔ s = s'.
Proof.
  split.
  - unfold compare. destruct (initial s) eqn:E, (initial s') eqn:E'; try done.
    + intros _. apply initial_true in E, E'. congruence.
    + repeat case_decide; try done. intros _. destruct s, s'; simpl in *.
      f_equal; [apply (inj bdd_id)|]; lia.
  - intros <-. unfold compare. destruct (initial s); [done|].
    repeat case_decide; done || lia.
Qed.

Lemma compare_antisym s s' : compare s' s = (- compare s s')%Z.
Proof.
  unfold compare. destruct (initial s), (initial s'); try done.
  repeat case_decide; done || lia.
Qed.

Lemma compare_trans s1 s2 s3 :
  (compare s1 s2 < 0)%Z → (compare s2 s3 < 0)%Z → (compare s1 s3 < 0)%Z.
Proof.
  unfold compare. destruct (initial s1), (initial s2), (initial s3); try done.
  repeat case_decide; done || lia.
Qed.

(** ** Shared states *)

(** [state_map] and the owned states are inverse to each other. *)
Record ta_wf (a : TraceAutomaton) : Prop := {
  map_store v t x : state_map a !! (v, t) = Some x → store a !! x = Some (mkTraceState v t);
  store_map x s : store a !! x = Some s → state_map a !! (vertex s, tag s) = Some x;
}.

Lemma new_TraceAutomaton_wf p : ta_wf (new_TraceAutomaton p).
Proof. split; simpl; intros *; by rewrite lookup_empty. Qed.

(** What calls do to the automaton: states are added, none moves. *)
Definition ta_ext (a a' : TraceAutomaton) : Prop :=
  ta_proof a' = ta_proof a ∧ state_map a ⊆ state_map a' ∧ store a ⊆ store a'.

#[local] Instance ta_ext_preorder : PreOrder ta_ext.
Proof.
  split; [done|]. intros a b c (H1 & H2 & H3) (H4 & H5 & H6).
  split_and!; [congruence|by etrans..].
Qed.

Lemma get_state_spec a v t :
  ta_wf a →
  ∃ x a', get_state v t a = Ok (x, a') ∧ ta_wf a' ∧ ta_ext a a' ∧
    store a' !! x = Some (mkTraceState v t) ∧ state_map a' !! (v, t) = Some x.
Proof.
  intros [Hms Hsm]. unfold get_state. run_step.
  destruct (state_map a !! (v, t)) as [x|] eqn:E.
  { exists x, a. split_and!; try done. by apply Hms. }
  set (x := fresh (dom (store a))).
  assert (store a !! x = None) as Hx by (apply not_elem_of_dom, is_fresh).
  eexists x, _. split; [done|]. split; [split|]; simpl.
  - intros v' t' y [[[= <- <-] <-]|[Hne Hy]]%lookup_insert_Some; [apply lookup_insert_eq|].
    apply Hms in Hy. rewrite lookup_insert_ne; [done|]. intros <-. congruence.
  - intros y s [[<- <-]|[Hne Hy]]%lookup_insert_Some; [apply lookup_insert_eq|].
    apply Hsm in Hy. rewrite lookup_insert_ne; [done|]. intros [= Ev Et].
    destruct s; simpl in *; subst. congruence.
  - split; [split_and!; [done|by apply insert_subseteq..]|].
    split; apply lookup_insert_eq.
Qed.

(** The destructor deletes every state, and none twice. *)
Lemma delete_TraceAutomaton_spec a :
  ta_wf a → ∃ a', delete_TraceAutomaton a = Ok (tt, a') ∧ store a' = ∅.
Proof.
  intros [Hms Hsm]. set (l := hash_iter (dom (state_map a))).
  destruct (for_each_inv (λ dn b, state_map b = state_map a ∧ ∀ y s, store b !! y = Some s ↔
    store a !! y = Some s ∧ (vertex s, tag s) ∉ dn) l delete_state) with (s := a)
    as (b & Hb & _ & Hst).
  - intros dn k todo b Hl [Hm Hst].
    pose proof (NoDup_hash_iter (dom (state_map a))) as Hnd. fold l in Hnd. rewrite Hl in Hnd.
    apply NoDup_app in Hnd as (_ & Hnd & _).
    assert (k ∈ l) as Hk by (rewrite Hl; set_solver).
    apply elem_of_hash_iter, elem_of_dom in Hk as [x Hx]. destruct k as [v t].
    pose proof (Hms v t x Hx) as Hax.
    assert (store b !! x = Some (mkTraceState v t)) as Hbx.
    { apply Hst. split; [done|]. simpl. intros Hin. apply (Hnd _ Hin). left. }
    eexists. split.
    { unfold delete_state, deref. run_step. rewrite Hm, Hx. run_step. rewrite Hbx. by run_step. }
    simpl. split; [done|]. intros y s. rewrite lookup_delete_Some, Hst, elem_of_app, list_elem_of_singleton.
    split.
    + intros (Hne & Hy & Hd). split; [done|]. intros [?|[= Hv Ht]]; [done|].
      apply Hsm in Hy. rewrite Hv, Ht in Hy. congruence.
    + intros [Hy Hd]. split; [|tauto]. intros <-. rewrite Hax in Hy. injection Hy as <-. simpl in Hd. tauto.
  - split; [done|]. set_solver.
  - exists b. split; [unfold delete_TraceAutomaton; run_step; exact Hb|].
    apply map_empty. intros y. apply eq_None_not_Some. intros [s Hs].
    apply Hst in Hs as [Hy Hd]. apply Hd, elem_of_hash_iter, elem_of_dom. by eexists; apply Hsm.
Qed.

(** The pairs a vector of pointers denotes. *)
Definition denotes (a : TraceAutomaton) (vec : list positive) (ss : list TraceState) : Prop :=
  Forall2 (λ x s, store a !! x = Some s) vec ss.

Lemma denotes_ext a a' vec ss : ta_ext a a' → denotes a vec ss → denotes a' vec ss.
Proof.
  intros (_ & _ & H) Hd. eapply Forall2_impl; [exact Hd|].
  simpl. intros x s Hx. eapply lookup_weaken; [exact Hx|done].
Qed.

Lemma deref_run a x s : store a !! x = Some s → deref x a = Ok (s, a).
Proof. intros H. unfold deref. run_step. by rewrite H. Qed.

(** ** The transitions, without pointers *)

Definition follows (p : ProofData) (s : TraceState) (v : Vertex) (t : Tag) : bool :=
  initial s || trace_pair p (vertex s) v (tag s) t.

Fixpoint tag_targets (p : ProofData) (s : TraceState) (v : Vertex) (ts : list Tag) :
    list TraceState :=
  match ts with
  | [] => []
  | t :: ts =>
    if follows p s v t then mkTraceState v t :: tag_targets p s v ts else tag_targets p s v ts
  end.

Definition vertex_targets (p : ProofData) (s : TraceState) (vs : list Vertex) :
    list TraceState :=
  vs ≫= λ v, tag_targets p s v (hash_iter (default ∅ (tag_map p !! v))).

Definition targets (p : ProofData) (s : TraceState) : list TraceState :=
  if initial s then s :: vertex_targets p s (hash_iter (vertices p))
  else vertex_targets p s (hash_iter (default ∅ (trans_map p !! vertex s))).

Definition trace_edge (p : ProofData) (s s' : TraceState) : edge TraceState :=
  (if decide (vertex s' = NO_VERTEX) then bddtrue else vertex s',
   progress_pair p (vertex s) (vertex s') (tag s) (tag s'), s').

Definition edges_of (p : ProofData) (s : TraceState) : list (edge TraceState) :=
  trace_edge p s <$> reverse (targets p s).

Lemma push_tags_spec p s v ts : ∀ vec ss a,
  ta_wf a → ta_proof a = p → denotes a vec ss →
  ∃ vec' a', push_tags s v ts vec a = Ok (vec', a') ∧ ta_wf a' ∧ ta_ext a a' ∧
    denotes a' vec' (reverse (tag_targets p s v ts) ++ ss).
Proof.
  induction ts as [|t ts IH]; intros vec ss a Hwf Hp Hvec; simpl.
  { by exists vec, a. }
  run_step. rewrite Hp. unfold follows. rewrite <-negb_orb.
  destruct (initial s || trace_pair p (vertex s) v (tag s) t); simpl; [|by apply IH].
  destruct (get_state_spec a v t Hwf) as (x & a1 & -> & Hwf1 & Hext1 & Hx & _).
  destruct (IH (x :: vec) (mkTraceState v t :: ss) a1) as (vec' & a2 & H2 & Hwf2 & Hext2 & Hd2).
  { done. } { destruct Hext1 as [-> _]. done. }
  { constructor; [done|by eapply denotes_ext]. }
  exists vec', a2. split; [done|]. split; [done|]. split; [by etrans|].
  by rewrite reverse_cons, <-app_assoc.
Qed.

Lemma push_vertices_spec p s vs : ∀ vec ss a,
  proof_wf p → Forall (.∈ vertices p) vs →
  ta_wf a → ta_proof a = p → denotes a vec ss →
  ∃ vec' a', push_vertices s vs vec a = Ok (vec', a') ∧ ta_wf a' ∧ ta_ext a a' ∧
    denotes a' vec' (reverse (vertex_targets p s vs) ++ ss).
Proof.
  intros vec ss a Hpwf Hvs. revert vec ss a.
  induction Hvs as [|v vs Hv Hvs IH]; intros vec ss a Hwf Hp Hvec; simpl.
  { by exists vec, a. }
  run_step. rewrite Hp, get_tags_state_of by done. run_step.
  destruct (push_tags_spec p s v (hash_iter (default ∅ (tag_map p !! v))) vec ss a)
    as (vec1 & a1 & -> & Hwf1 & Hext1 & Hd1); [done..|].
  assert (ta_proof a1 = p) as Hp1 by (by destruct Hext1 as [-> _]).
  destruct (IH vec1 _ a1 Hwf1 Hp1 Hd1) as (vec2 & a2 & H2 & Hwf2 & Hext2 & Hd2).
  exists vec2, a2. split; [done|]. split; [done|]. split; [by etrans|].
  unfold vertex_targets in *. simpl. by rewrite reverse_app, <-app_assoc.
Qed.

(** ** Runs of the iterator *)

(** States [first] accepts: the initial one, or a pair over a vertex. *)
Definition state_ok (p : ProofData) (s : TraceState) : Prop :=
  initial s = true ∨ (initial s = false ∧ vertex s ∈ vertices p).

Lemma first_spec p a x s :
  proof_wf p → ta_wf a → ta_proof a = p → store a !! x = Some s → state_ok p s →
  ∃ vec a', first (succ_iter x) a
      = Ok (negb (bool_decide (vec = [])), TraceSuccIterator x vec, a') ∧
    ta_wf a' ∧ ta_ext a a' ∧ denotes a' vec (reverse (targets p s)).
Proof.
  intros Hpwf Hwf Hp Hx Hs. unfold first. run_step. rewrite (deref_run a x s Hx).
  unfold targets. destruct Hs as [Hini|[Hini Hv]]; rewrite Hini; run_step.
  - destruct (get_state_spec a NO_VERTEX NO_TAG Hwf) as (y & a1 & -> & Hwf1 & Hext1 & Hy & _).
    run_step. apply initial_true in Hini.
    destruct (push_vertices_spec p s (hash_iter (vertices p)) [y] [s] a1)
      as (vec & a2 & H2 & Hwf2 & Hext2 & Hd2); [done| |done| | |].
    { apply Forall_forall. intros v. by rewrite elem_of_hash_iter. }
    { by destruct Hext1 as [-> _]. }
    { constructor; [by rewrite Hini|constructor]. }
    rewrite Hp, H2. run_step. exists vec, a2. split; [done|]. split; [done|].
    split; [by etrans|]. by rewrite reverse_cons.
  - destruct (wf_get_successors p (vertex s) Hpwf Hv) as (vs & Hvs & Hin).
    rewrite Hp, Hvs. run_step.
    destruct (push_vertices_spec p s (hash_iter vs) [] [] a)
      as (vec & a2 & H2 & Hwf2 & Hext2 & Hd2); [done| |done|done|constructor|].
    { apply Forall_forall. intros v Hv'%elem_of_hash_iter%Hin. by eapply wf_succ. }
    rewrite H2. run_step. exists vec, a2. split; [done|]. split; [done|]. split; [done|].
    rewrite app_nil_r in Hd2. unfold get_successors in Hvs.
    destruct (trans_map p !! vertex s); by simplify_eq/=.
Qed.

Lemma drain_loop_spec p a x s vec ss :
  ta_proof a = p → store a !! x = Some s → denotes a vec ss →
  ∃ es, drain_loop iterator (length vec) (TraceSuccIterator x vec) a = Ok (es, a) ∧
    deref_edges es a = Ok (trace_edge p s <$> ss, a).
Proof.
  intros Hp Hx Hd. induction Hd as [|y s' vec ss Hy Hd IH]; simpl.
  { by exists []. }
  destruct IH as (es & IH1 & IH2). run_step. unfold cond, acc, next, back. run_step.
  rewrite (deref_run a y s' Hy). run_step. rewrite (deref_run a y s' Hy). run_step.
  rewrite (deref_run a x s Hx). run_step. rewrite IH1. run_step.
  eexists. split; [done|]. simpl. run_step. rewrite (deref_run a y s' Hy). run_step.
  rewrite IH2, Hp. done.
Qed.

(** The transitions an automaton reports do not depend on the states it has
    built so far. *)
Lemma successors_at_spec p a x s :
  proof_wf p → ta_wf a → ta_proof a = p → store a !! x = Some s → state_ok p s →
  ∃ a', successors_at x a = Ok (edges_of p s, a') ∧ ta_wf a' ∧ ta_ext a a'.
Proof.
  intros Hpwf Hwf Hp Hx Hs.
  destruct (first_spec p a x s) as (vec & a' & Hf & Hwf' & Hext & Hd); [done..|].
  destruct (drain_loop_spec p a' x s vec (reverse (targets p s))) as (es & H1 & H2).
  { by destruct Hext as [-> _]. }
  { destruct Hext as (_ & _ & Hst). by eapply lookup_weaken. }
  { done. }
  exists a'. split; [|done]. unfold successors_at, drain.
  rewrite (bind_Ok _ _ _ es a'); [exact H2|].
  rewrite (bind_Ok _ _ _ _ _ Hf). exact H1.
Qed.

Lemma successors_run p s :
  proof_wf p → state_ok p s → successors p s = Ok (edges_of p s).
Proof.
  intros Hwf Hs. unfold successors.
  destruct (get_state_spec (new_TraceAutomaton p) (vertex s) (tag s))
    as (x & a1 & Hx & Hwf1 & Hext1 & Hst & _); [apply new_TraceAutomaton_wf|].
  rewrite (bind_Ok _ _ _ _ _ Hx).
  destruct (successors_at_spec p a1 x s) as (a2 & -> & _); try done.
  - by destruct Hext1 as [-> _].
  - rewrite Hst. by destruct s.
Qed.

(** ** The transition relation *)

Lemma elem_of_tag_targets p s v ts s' :
  s' ∈ tag_targets p s v ts ↔
  vertex s' = v ∧ tag s' ∈ ts ∧ follows p s v (tag s') = true.
Proof.
  induction ts as [|t ts IH]; simpl; [set_solver|].
  destruct s' as [v' t']. rewrite elem_of_cons. simpl in *.
  destruct (follows p s v t) eqn:E; rewrite ?elem_of_cons, IH.
  - split; [intros [[= -> ->]|(-> & ? & ?)]; auto|intros (-> & [->|?] & ?); auto].
  - split; [intros (-> & ? & ?); auto|intros (-> & [->|?] & ?); [congruence|auto]].
Qed.

Lemma elem_of_vertex_targets p s vs s' :
  s' ∈ vertex_targets p s vs ↔
  vertex s' ∈ vs ∧ has_tag p (vertex s') (tag s') ∧ follows p s (vertex s') (tag s') = true.
Proof.
  unfold vertex_targets. rewrite list_elem_of_bind. setoid_rewrite elem_of_tag_targets.
  setoid_rewrite elem_of_hash_iter. setoid_rewrite <-has_tag_alt. naive_solver.
Qed.

Abbreviation init_state := (mkTraceState NO_VERTEX NO_TAG).

Lemma progress_no_vertex p v t t' :
  proof_wf p → progress_pair p NO_VERTEX v t t' = false.
Proof.
  intros Hwf. apply bool_decide_eq_false. intros [Ht _]%(wf_progress p Hwf).
  by apply (wf_no_vertex p Hwf), (wf_has_tag_vertex p NO_VERTEX t).
Qed.

Lemma elem_of_edges p s e :
  e ∈ edges_of p s ↔ ∃ s', s' ∈ targets p s ∧ e = trace_edge p s s'.
Proof.
  unfold edges_of. rewrite list_elem_of_fmap. setoid_rewrite elem_of_reverse. naive_solver.
Qed.

(** From the initial state: stay on any letter, or jump; never accepting. *)
Lemma step_init p c m s' :
  proof_wf p →
  twa_step (trace_automaton p) init_state c m s' ↔
  m = false ∧ ((s' = init_state ∧ c = bddtrue) ∨
               (has_tag p (vertex s') (tag s') ∧ c = vertex s')).
Proof.
  intros Hwf. unfold twa_step. simpl.
  assert (initial init_state = true) as Hini by (by apply initial_true).
  setoid_rewrite (successors_run p init_state Hwf (or_introl Hini)).
  trans ((c, m, s') ∈ edges_of p init_state); [naive_solver|].
  rewrite elem_of_edges. unfold targets. rewrite Hini.
  setoid_rewrite elem_of_cons. setoid_rewrite elem_of_vertex_targets.
  setoid_rewrite elem_of_hash_iter. unfold trace_edge, follows. rewrite Hini. simpl.
  setoid_rewrite progress_no_vertex; [|done]. split.
  - intros (s1 & [->|(Hv & Ht & _)] & [= -> -> ->]); split; try done.
    + left. by rewrite decide_True.
    + right. rewrite decide_False; [done|]. intros Heq. rewrite Heq in Hv.
      by apply (wf_no_vertex p Hwf).
  - intros (-> & [[-> ->]|[Ht ->]]).
    + exists init_state. split; [by left|]. by rewrite decide_True.
    + exists s'. pose proof (wf_has_tag_vertex p _ _ Hwf Ht). split; [by right|].
      rewrite decide_False; [done|]. intros Heq. rewrite Heq in *. by apply (wf_no_vertex p Hwf).
Qed.

(** From a pair: follow a trace pair along an edge, accepting on progress. *)
Lemma step_pair p s c m s' :
  proof_wf p → vertex s ∈ vertices p →
  twa_step (trace_automaton p) s c m s' ↔
  has_succ p (vertex s) (vertex s') ∧
  (vertex s, vertex s', tag s, tag s') ∈ trace_pairs p ∧
  c = vertex s' ∧ m = progress_pair p (vertex s) (vertex s') (tag s) (tag s').
Proof.
  intros Hwf Hv. unfold twa_step. simpl.
  assert (initial s = false) as Hini.
  { apply not_true_is_false. intros ->%initial_true. by apply (wf_no_vertex p Hwf). }
  setoid_rewrite (successors_run p s Hwf (or_intror (conj Hini Hv))).
  trans ((c, m, s') ∈ edges_of p s); [naive_solver|].
  rewrite elem_of_edges. unfold targets. rewrite Hini.
  setoid_rewrite elem_of_vertex_targets. setoid_rewrite elem_of_hash_iter.
  setoid_rewrite <-has_succ_alt. unfold trace_edge, follows, trace_pair. rewrite Hini. simpl.
  setoid_rewrite bool_decide_eq_true. split.
  - intros (s1 & (Hs & Ht & Htr) & [= -> -> ->]). rewrite decide_False; [done|].
    intros Heq. rewrite Heq in Hs. by apply (wf_no_vertex p Hwf), (wf_succ p Hwf (vertex s)).
  - intros (Hs & Htr & -> & ->). exists s'.
    destruct (wf_trace p Hwf _ Htr) as [_ Ht]. split; [done|].
    rewrite decide_False; [done|].
    intros Heq. rewrite Heq in Hs. by apply (wf_no_vertex p Hwf), (wf_succ p Hwf (vertex s)).
Qed.

Lemma trace_automaton_explorable p : proof_wf p → explorable (trace_automaton p).
Proof.
  intros Hwf.
  exists (init_state :: (v ← elements (vertices p);
    t ← elements (default ∅ (tag_map p !! v)); [mkTraceState v t])).
  assert (∀ s, has_tag p (vertex s) (tag s) →
    s ∈ (v ← elements (vertices p);
         t ← elements (default ∅ (tag_map p !! v)); [mkTraceState v t])) as Hall.
  { intros s Ht. apply list_elem_of_bind. exists (vertex s). split.
    - apply list_elem_of_bind. exists (tag s). split; [destruct s; by left|].
      by apply elem_of_elements, has_tag_alt.
    - by apply elem_of_elements, (wf_has_tag_vertex p _ (tag s)). }
  split; [by left|]. intros s [->|Hs]%elem_of_cons.
  - eexists. split; [apply successors_run; [done|left; by apply initial_true]|].
    intros c m s' Hin. destruct (step_init p c m s' Hwf) as [Hst _].
    destruct Hst as [_ [[-> _]|[Ht _]]]; [|by left|right; by apply Hall].
    eexists. split; [apply successors_run; [done|left; by apply initial_true]|done].
  - apply list_elem_of_bind in Hs as (v & Hs & Hv%elem_of_elements).
    apply list_elem_of_bind in Hs as (t & ->%list_elem_of_singleton & Ht).
    assert (state_ok p (mkTraceState v t)) as Hok.
    { right. split; [|done]. apply not_true_is_false. intros [= -> _]%initial_true.
      by apply (wf_no_vertex p Hwf). }
    eexists. split; [by apply successors_run|]. intros c m s' Hin.
    destruct (step_pair p (mkTraceState v t) c m s' Hwf Hv) as [Hst _].
    destruct Hst as (_ & Htr & _); [by eexists; split; [apply successors_run|]|].
    right. apply Hall. by apply (wf_trace p Hwf) in Htr as [_ ?].
Qed.

(** ** The language *)

(** From position [k] on, [w] spells a path [π] that carries the trace [τ], and
    the trace progresses infinitely often. *)
Definition traced (p : ProofData) (w : word) (k : nat)
    (π : nat → Vertex) (τ : nat → Tag) : Prop :=
  has_tag p (π k) (τ k) ∧
  (∀ i, k ≤ i → bdd_sat (w i) (π i) = true ∧ has_succ p (π i) (π (S i)) ∧
     (π i, π (S i), τ i, τ (S i)) ∈ trace_pairs p) ∧
  inf_often (λ i, (π i, π (S i), τ i, τ (S i)) ∈ progress_pairs p).

Lemma pair_step_vertex p s c m s' :
  proof_wf p → vertex s ∈ vertices p → twa_step (trace_automaton p) s c m s' →
  vertex s' ∈ vertices p ∧ has_tag p (vertex s') (tag s').
Proof.
  intros Hwf Hv (Hs & Htr & _)%step_pair; [|done..].
  split; [by eapply wf_succ|]. by apply (wf_trace p Hwf) in Htr as [_ ?].
Qed.

(** A run that accepts leaves the initial state. *)
Lemma accepting_run_leaves p w ρ cs ms :
  proof_wf p → is_run (trace_automaton p) w ρ cs ms → inf_often (λ i, ms i = true) →
  ∃ k, vertex (ρ k) ∈ vertices p.
Proof.
  intros Hwf [H0 Hst _] Hinf. destruct (Hinf 0) as (j & _ & Hj). exists j.
  cut (ρ j = init_state ∨ vertex (ρ j) ∈ vertices p).
  { intros [Hini|?]; [|done]. specialize (Hst j). rewrite Hini, Hj in Hst.
    by apply step_init in Hst as [? _]. }
  clear Hj. induction j as [|j IH]; [by left|]. specialize (Hst j).
  destruct IH as [Hini|Hv].
  - rewrite Hini in Hst. apply step_init in Hst as [_ [[-> _]|[Ht _]]]; [by left| |done].
    right. by eapply wf_has_tag_vertex.
  - right. by eapply pair_step_vertex.
Qed.

Lemma accepting_run_traced p w ρ cs ms k :
  proof_wf p → is_run (trace_automaton p) w ρ cs ms → inf_often (λ i, ms i = true) →
  vertex (ρ k) ∈ vertices p →
  traced p w k (λ i, vertex (ρ (S i))) (λ i, tag (ρ (S i))).
Proof.
  intros Hwf [H0 Hst Hsat] Hinf Hk.
  assert (∀ i, k ≤ i → vertex (ρ i) ∈ vertices p) as Hv.
  { intros i Hi. induction Hi as [|i Hi IH]; [done|]. by eapply pair_step_vertex. }
  split; [|split].
  - by eapply (pair_step_vertex p (ρ k)).
  - intros i Hi. split.
    + rewrite <-(Hsat i). f_equal. symmetry.
      by eapply (step_pair p (ρ i)), (Hst i); [|apply Hv].
    + apply (step_pair p _ _ _ _ Hwf (Hv (S i) ltac:(lia))) in Hst as Hst'.
      destruct Hst' as (? & ? & _). done.
  - intros i. destruct (Hinf (S (i + k))) as (j & Hj & Hm). exists (pred j). split; [lia|].
    destruct j as [|j]; [lia|]. simpl. specialize (Hst (S j)). rewrite Hm in Hst.
    apply step_pair in Hst as (_ & _ & _ & Hp); [|done|apply Hv; lia].
    by apply eq_sym, bool_decide_eq_true in Hp.
Qed.

(** The run that guesses position [k] and follows [τ]. *)
Definition guess_run (k : nat) (π : nat → Vertex) (τ : nat → Tag) (i : nat) : TraceState :=
  if decide (i ≤ k) then init_state else mkTraceState (π (pred i)) (τ (pred i)).

Definition guess_cond (k : nat) (π : nat → Vertex) (i : nat) : bdd :=
  if decide (i < k) then bddtrue else π i.

Definition guess_mark (p : ProofData) (k : nat) (π : nat → Vertex) (τ : nat → Tag) (i : nat) :
    bool :=
  if decide (i ≤ k) then false
  else progress_pair p (π (pred i)) (π i) (τ (pred i)) (τ i).

Lemma traced_run p w k π τ :
  proof_wf p → traced p w k π τ →
  is_run (trace_automaton p) w (guess_run k π τ) (guess_cond k π) (guess_mark p k π τ).
Proof.
  intros Hwf (Ht & Hi & _). split.
  - unfold guess_run. by rewrite decide_True by lia.
  - intros i. unfold guess_run, guess_cond, guess_mark.
    destruct (decide (i ≤ k)) as [Hik|Hik].
    + apply step_init; [done|]. split; [done|].
      destruct (decide (S i ≤ k)) as [Hk|Hk].
      * left. by rewrite decide_True by lia.
      * right. assert (i = k) as -> by lia. rewrite decide_False by lia. done.
    + rewrite !decide_False by lia. destruct i as [|i]; [lia|]. simpl.
      destruct (Hi i) as (_ & Hs & Htr); [lia|].
      apply step_pair; [done| |done]. simpl. by eapply wf_has_succ_vertex.
  - intros i. unfold guess_cond. case_decide; [apply sat_true|]. apply Hi. lia.
Qed.

Lemma traced_progress p w k π τ :
  traced p w k π τ → inf_often (λ i, guess_mark p k π τ i = true).
Proof.
  intros (_ & _ & Hinf) i. destruct (Hinf (i + k)) as (j & Hj & Hp).
  exists (S j). split; [lia|]. unfold guess_mark. rewrite decide_False by lia. simpl.
  by apply bool_decide_eq_true.
Qed.

Lemma trace_automaton_accepts p w :
  proof_wf p → accepts (trace_automaton p) w ↔ ∃ k π τ, traced p w k π τ.
Proof.
  intros Hwf. split.
  - intros (ρ & cs & ms & Hrun & Hinf).
    destruct (accepting_run_leaves p w ρ cs ms) as [k Hk]; [done..|].
    eexists k, _, _. by eapply accepting_run_traced.
  - intros (k & π & τ & Htr). eexists _, _, _.
    split; [by eapply traced_run|by eapply traced_progress].
Qed.

(** ** Inclusion of the languages is the global trace condition *)

(** A letter that spells a given vertex. *)
Definition letter_of (p : ProofData) (xs : list nat) (v : Vertex) : valuation :=
  match list_find (λ z, vertex_of p z = v) (seqZ 1 (last_vertex p)) with
  | Some (_, z) => spell xs z
  | None => λ _, false
  end.

Lemma letter_of_sat p xs v :
  proof_wf p → props_ok p xs → v ∈ vertices p → bdd_sat (letter_of p xs v) v = true.
Proof.
  intros Hwf Hxs (z & Hz & ->)%(wf_vertices p Hwf). unfold letter_of.
  destruct (list_find _ _) as [[i z']|] eqn:E.
  - apply list_find_Some in E as (_ & <- & _). by apply spell_sat.
  - rewrite list_find_None, Forall_forall in E. exfalso. apply (E z); [|done].
    apply elem_of_seqZ. lia.
Qed.

Lemma inclusion_gtc p :
  proof_wf p → initial_vertex p ∈ vertices p →
  (∀ w, accepts (ProofAutomaton p) w → accepts (trace_automaton p) w) ↔ gtc (graph_of p).
Proof.
  intros Hwf Hi. setoid_rewrite ProofAutomaton_accepts; [|done..].
  setoid_rewrite trace_automaton_accepts; [|done]. split.
  - intros Hincl π Hπ. destruct (wf_props p Hwf) as [xs Hxs].
    assert (∀ i, π i ∈ vertices p) as Hv by (intros; by apply path_vertices).
    destruct (Hincl (λ i, letter_of p xs (π i))) as (k & π' & τ & Ht & Htr & Hinf).
    { exists π. split; [done|]. intros i. by apply letter_of_sat. }
    assert (∀ i, k ≤ i → π' i = π i) as Heq.
    { intros i Hk. destruct (Htr i Hk) as (Hsat & Hs & _).
      eapply (wf_vertex_excl p); [done| |done|exact Hsat|by apply letter_of_sat].
      by eapply wf_has_succ_vertex. }
    exists k, τ. split.
    + intros i Hk. rewrite <-!Heq by lia. by apply Htr.
    + intros i. destruct (Hinf (i + k)) as (j & Hj & Hp). exists j. split; [lia|].
      simpl. by rewrite <-!Heq by lia.
  - intros Hgtc w (π & Hπ & Hw). destruct (Hgtc π Hπ) as (k & τ & Htr & Hinf).
    exists k, π, τ. split; [|split; [|done]].
    + by apply (wf_trace p Hwf _ (Htr k (le_n k))).
    + intros i Hk. split; [apply Hw|]. split; [apply Hπ|by apply Htr].
Qed.
End trace_automaton.
