(* ===== verification/Soundness.v ===== *)
(** * The checker's entry points: [src/generic/soundness.c]

    The functions OCaml calls: a session creates one proof automaton, adds
    vertices, tags, edges and pairs under the client's integer names, and asks
    whether the proof is sound.  The two globals [proof] and [bdd_map] are the
    state; [assert] failures and null dereferences are errors of the monad. *)

From S2P Require Import Prelude Spot ProofGraph Gtc ProofAut Trace.

Section soundness.
Context {B : Bdd} {D : BddDict} {HO : HashOrder} {G : SpotAlgos B}.

(** ** State *)

Record Globals := mkGlobals {
  proof : option ProofData;
  bdd_map : gmap Z Vertex;
}.

Definition globals_init : Globals := mkGlobals None ∅.

(** [Int_val] truncates an OCaml integer to [int]. *)
Definition Int_val (v : Z) : Z := wrap32 v.

Definition assert_proof : M Globals unit :=
  b ← gets (λ g, bool_decide (is_Some (proof g)));
  assert b.

(** [proof->m(...)] *)
Definition call_proof {A} (m : M ProofData A) : M Globals A := λ g,
  match proof g with
  | None => Err EFault
  | Some p =>
    match m p with
    | Ok (a, p') => Ok (a, mkGlobals (Some p') (bdd_map g))
    | Err e => Err e
    end
  end.

(** [assert( bdd_map.find(v) != bdd_map.end() )] and the later [bdd_map\[v\]]. *)
Definition find_vertex (v : Z) : M Globals Vertex :=
  m ← gets bdd_map;
  match m !! v with Some x => mret x | None => fail EAssert end.

(** ** Operations *)

Definition create_aut (max_log2_states : Z) : M Globals unit :=
  b ← gets (λ g, bool_decide (proof g = None));
  assert b ;;
  modify (λ g, mkGlobals
    (Some (new_Proof (Z.to_nat (wrapu 64 (Int_val max_log2_states))))) (bdd_map g)).

Definition destroy_aut : M Globals unit :=
  assert_proof ;;
  modify (λ g, mkGlobals None (bdd_map g)) ;;
  modify (λ g, mkGlobals (proof g) ∅).

Definition create_vertex (v_ : Z) : M Globals unit :=
  assert_proof ;;
  v ← call_proof ProofGraph.create_vertex;
  let id := Int_val v_ in
  b ← gets (λ g, bool_decide (bdd_map g !! id = None));
  assert b ;;
  modify (λ g, mkGlobals (proof g) (<[id := v]> (bdd_map g))).

Definition tag_vertex (v_ t_ : Z) : M Globals unit :=
  let v := Int_val v_ in
  let t := Int_val t_ in
  assert_proof ;;
  x ← find_vertex v;
  call_proof (ProofGraph.tag_vertex x t).

Definition set_successor (v1_ v2_ : Z) : M Globals unit :=
  let v1 := Int_val v1_ in
  let v2 := Int_val v2_ in
  assert_proof ;;
  x1 ← find_vertex v1;
  x2 ← find_vertex v2;
  call_proof (ProofGraph.set_successor x1 x2).

Definition set_trace_pair (v1_ v2_ t1_ t2_ : Z) : M Globals unit :=
  let v1 := Int_val v1_ in
  let v2 := Int_val v2_ in
  let t1 := Int_val t1_ in
  let t2 := Int_val t2_ in
  assert_proof ;;
  x1 ← find_vertex v1;
  x2 ← find_vertex v2;
  call_proof (ProofGraph.set_trace_pair x1 x2 t1 t2).

Definition set_progress_pair (v1_ v2_ t1_ t2_ : Z) : M Globals unit :=
  let v1 := Int_val v1_ in
  let v2 := Int_val v2_ in
  let t1 := Int_val t1_ in
  let t2 := Int_val t2_ in
  assert_proof ;;
  x1 ← find_vertex v1;
  x2 ← find_vertex v2;
  call_proof (ProofGraph.set_progress_pair x1 x2 t1 t2).

(** No [assert(proof)] here: the pointer is dereferenced. *)
Definition check_soundness : M Globals bool :=
  p ← call_proof get;
  graph ← lift (make_twa_graph (trace_automaton p));
  prf ← lift (make_twa_graph (ProofAutomaton p));
  mret (contains graph prf).

Definition set_initial_vertex (v_ : Z) : M Globals unit :=
  let v := Int_val v_ in
  assert_proof ;;
  x ← find_vertex v;
  call_proof (ProofGraph.set_initial_vertex x).

(** ** The invariant of a session *)

(** [bdd_map] is a bijection between client names and vertices.  With fewer
    than 31 propositions the vertex counter stays clear of [INT_MAX]. *)
Record session (g : Globals) (p : ProofData) : Prop := {
  ses_proof : proof g = Some p;
  ses_wf : proof_wf p;
  ses_log2 : max_vertices_log2 p < 31;
  ses_size : Z.of_nat (size (bdd_map g)) = last_vertex p;
  ses_vertex i v : bdd_map g !! i = Some v → v ∈ vertices p;
  ses_inj i j v : bdd_map g !! i = Some v → bdd_map g !! j = Some v → i = j;
  ses_surj v : v ∈ vertices p → ∃ i, bdd_map g !! i = Some v;
}.

Context {BL : BddLaws B} {HL : HashOrderLaws HO} {GL : SpotAlgosLaws B G}.

(** ** Runs of the entry points *)

Lemma assert_proof_run g p : proof g = Some p → assert_proof g = Ok (tt, g).
Proof. intros H. unfold assert_proof. run_step. by rewrite H, bool_decide_eq_true_2 by done. Qed.

Lemma find_vertex_run g i :
  find_vertex i g =
    match bdd_map g !! i with Some v => Ok (v, g) | None => Err EAssert end.
Proof. unfold find_vertex. run_step. by destruct (bdd_map g !! i). Qed.

Lemma call_proof_run {A} (m : M ProofData A) g p :
  proof g = Some p →
  call_proof m g = match m p with
                   | Ok (a, p') => Ok (a, mkGlobals (Some p') (bdd_map g))
                   | Err e => Err e
                   end.
Proof. intros H. unfold call_proof. by rewrite H. Qed.

Lemma session_proof g p : session g p → mkGlobals (Some p) (bdd_map g) = g.
Proof. intros [H]. destruct g; simpl in *. congruence. Qed.

(** ** The verdict *)

Lemma check_soundness_run g p :
  session g p → initial_vertex p ∈ vertices p →
  ∃ b, check_soundness g = Ok (b, g) ∧ (b = true ↔ gtc (graph_of p)).
Proof.
  intros Hses Hi. pose proof (ses_wf g p Hses) as Hwf.
  destruct (make_twa_graph_ok (trace_automaton p)) as (gt & Hgt & Lgt).
  { by apply trace_automaton_explorable. }
  destruct (make_twa_graph_ok (ProofAutomaton p)) as (gp & Hgp & Lgp).
  { by apply ProofAutomaton_explorable. }
  exists (contains gt gp). split.
  - unfold check_soundness. rewrite (bind_Ok _ _ g p g).
    + run_step. by rewrite Hgt, Hgp.
    + rewrite (call_proof_run _ g p (ses_proof g p Hses)). unfold get.
      by rewrite (session_proof g p Hses).
  - rewrite contains_spec, <-inclusion_gtc by done.
    setoid_rewrite Lgt. by setoid_rewrite Lgp.
Qed.

(** Before [set_initial_vertex] the ghost state has no successor vertex. *)
Lemma check_soundness_no_root g p :
  session g p → initial_vertex p = NO_VERTEX → is_ok (check_soundness g) = false.
Proof.
  intros Hses Hi. pose proof (ses_wf g p Hses) as Hwf.
  destruct (make_twa_graph_err (ProofAutomaton p) ProofGhostState EAssert) as [e He].
  { apply reach_init. } { by apply successors_ghost_err. }
  unfold check_soundness. rewrite (bind_Ok _ _ g p g).
  - run_step. destruct (make_twa_graph (trace_automaton p)); [|done]. by rewrite He.
  - rewrite (call_proof_run _ g p (ses_proof g p Hses)). unfold get.
    by rewrite (session_proof g p Hses).
Qed.

(** ** Sessions are preserved *)

Lemma ses_found g p i v : session g p → bdd_map g !! i = Some v → v ∈ vertices p.
Proof. intros Hs. apply (ses_vertex g p Hs). Qed.

(** Replacing the graph by one with the same vertices. *)
Lemma session_update g p p' :
  session g p → proof_wf p' → max_vertices_log2 p' = max_vertices_log2 p →
  vertices p' = vertices p → session (mkGlobals (Some p') (bdd_map g)) p'.
Proof.
  intros [Hp Hwf Hl Hsz Hv Hi Hs] Hwf' Hm Hvs. split; simpl; [done|done|lia| | |done|].
  - rewrite Hsz, <-!wf_size by done. by rewrite Hvs.
  - rewrite Hvs. done.
  - rewrite Hvs. done.
Qed.

Lemma create_aut_run n :
  create_aut n globals_init
    = Ok (tt, mkGlobals (Some (new_Proof (Z.to_nat (wrapu 64 (Int_val n))))) ∅).
Proof. done. Qed.

Lemma create_aut_session {DL : BddDictLaws D} n :
  n < 31 → session (mkGlobals (Some (new_Proof n)) ∅) (new_Proof n).
Proof.
  intros Hn. split; simpl; [done|apply new_Proof_wf|done|done|..].
  - intros i v. by rewrite lookup_empty.
  - intros i j v. by rewrite lookup_empty.
  - intros v Hv. by rewrite elem_of_empty in Hv.
Qed.

Lemma wrap32_nat n : n < 32 → Z.to_nat (wrapu 64 (Int_val (Z.of_nat n))) = n.
Proof.
  intros Hn. unfold Int_val. rewrite wrap32_id by (unfold int_range, INT_MIN, INT_MAX; lia).
  unfold wrapu. rewrite Z.mod_small by lia. lia.
Qed.
End soundness.
