(* ===== verification/SoundnessSpec.v ===== *)
(** * What the checker promises its client

    The abstract state of a session: finite sets of names, tags, edges and
    pairs, with the operations a client thinks of.  [repr] relates it to the
    globals of [Soundness], and every entry point refines its abstract
    operation: it succeeds exactly when the abstract operation does, and the
    verdict is the global trace condition of the abstract graph. *)

From S2P Require Import Prelude Spot ProofGraph Gtc ProofAut Trace Soundness.

(** ** The abstract session *)

Record aspec := mkSpec {
  a_cap : nat;
  a_ids : gset Z;
  a_tags : gset (Z * Z);
  a_succs : gset (Z * Z);
  a_traces : gset (Z * Z * Z * Z);
  a_progs : gset (Z * Z * Z * Z);
  a_init : option Z;
}.

Definition a_new (n : nat) : aspec := mkSpec n ∅ ∅ ∅ ∅ ∅ None.

Definition a_guard (P : Prop) `{Decision P} (a : aspec) : res aspec :=
  if decide P then Ok a else Err EAssert.

Definition a_create_vertex (i : Z) (a : aspec) : res aspec :=
  a_guard (Z.of_nat (size (a_ids a)) + 1 < 2 ^ Z.of_nat (a_cap a) ∧ i ∉ a_ids a)%Z
    (mkSpec (a_cap a) ({[i]} ∪ a_ids a) (a_tags a) (a_succs a) (a_traces a) (a_progs a)
       (a_init a)).

Definition a_tag_vertex (i t : Z) (a : aspec) : res aspec :=
  a_guard (i ∈ a_ids a)
    (mkSpec (a_cap a) (a_ids a) ({[(i, t)]} ∪ a_tags a) (a_succs a) (a_traces a) (a_progs a)
       (a_init a)).

Definition a_set_successor (i j : Z) (a : aspec) : res aspec :=
  a_guard (i ∈ a_ids a ∧ j ∈ a_ids a)
    (mkSpec (a_cap a) (a_ids a) (a_tags a) ({[(i, j)]} ∪ a_succs a) (a_traces a) (a_progs a)
       (a_init a)).

Definition a_pair_ok (a : aspec) (i j t u : Z) : Prop :=
  (i ∈ a_ids a ∧ j ∈ a_ids a) ∧ ((i, t) ∈ a_tags a ∧ (j, u) ∈ a_tags a).

#[global] Instance a_pair_ok_dec a i j t u : Decision (a_pair_ok a i j t u).
Proof. unfold a_pair_ok. apply _. Defined.

Definition a_set_trace_pair (i j t u : Z) (a : aspec) : res aspec :=
  a_guard (a_pair_ok a i j t u)
    (mkSpec (a_cap a) (a_ids a) (a_tags a) (a_succs a) ({[(i, j, t, u)]} ∪ a_traces a)
       (a_progs a) (a_init a)).

Definition a_set_progress_pair (i j t u : Z) (a : aspec) : res aspec :=
  a_guard (a_pair_ok a i j t u)
    (mkSpec (a_cap a) (a_ids a) (a_tags a) (a_succs a) (a_traces a)
       ({[(i, j, t, u)]} ∪ a_progs a) (a_init a)).

Definition a_set_initial_vertex (i : Z) (a : aspec) : res aspec :=
  a_guard (i ∈ a_ids a)
    (mkSpec (a_cap a) (a_ids a) (a_tags a) (a_succs a) (a_traces a) (a_progs a) (Some i)).

(** The pre-proof of the session, rooted at [init]. *)
Definition a_graph (a : aspec) (init : Z) : tgraph Z Z := {|
  tg_init := init;
  tg_succ i j := (i, j) ∈ a_succs a;
  tg_trace i j t u := (i, j, t, u) ∈ a_traces a;
  tg_progress i j t u := (i, j, t, u) ∈ a_progs a;
|}.

(** Everything in the session is about names of the session. *)
Record a_closed (a : aspec) : Prop := {
  cl_tags i t : (i, t) ∈ a_tags a → i ∈ a_ids a;
  cl_succs i j : (i, j) ∈ a_succs a → i ∈ a_ids a ∧ j ∈ a_ids a;
  cl_traces i j t u : (i, j, t, u) ∈ a_traces a → i ∈ a_ids a ∧ j ∈ a_ids a;
  cl_progs i j t u : (i, j, t, u) ∈ a_progs a → i ∈ a_ids a ∧ j ∈ a_ids a;
}.

(** ** Representation *)

Section refinement.
Context {B : Bdd} {D : BddDict} {HO : HashOrder} {G : SpotAlgos B}.
Context {BL : BddLaws B} {HL : HashOrderLaws HO} {GL : SpotAlgosLaws B G}.

(** Names [i] and [j] stand for [v] and [w]. *)
Definition named (g : Globals) (i : Z) (v : Vertex) : Prop := bdd_map g !! i = Some v.

Record represents (g : Globals) (p : ProofData) (a : aspec) : Prop := {
  rep_session : session g p;
  rep_cap : max_vertices_log2 p = a_cap a;
  rep_ids : dom (bdd_map g) = a_ids a;
  rep_tags i v t : named g i v → has_tag p v t ↔ (i, t) ∈ a_tags a;
  rep_succs i v j w : named g i v → named g j w → has_succ p v w ↔ (i, j) ∈ a_succs a;
  rep_traces i v j w t u : named g i v → named g j w →
    (v, w, t, u) ∈ trace_pairs p ↔ (i, j, t, u) ∈ a_traces a;
  rep_progs i v j w t u : named g i v → named g j w →
    (v, w, t, u) ∈ progress_pairs p ↔ (i, j, t, u) ∈ a_progs a;
  rep_init : match a_init a with
             | None => initial_vertex p = NO_VERTEX
             | Some i => named g i (initial_vertex p)
             end;
  rep_closed : a_closed a;
}.

Definition repr (g : Globals) (a : aspec) : Prop := ∃ p, represents g p a.

(** An entry point refines an abstract operation. *)
Definition refines (op : M Globals unit) (aop : aspec → res aspec) : Prop :=
  ∀ g a, repr g a →
    match aop a with
    | Ok a' => ∃ g', op g = Ok (tt, g') ∧ repr g' a'
    | Err e => op g = Err e
    end.

Lemma named_inj g p i j v : session g p → named g i v → named g j v → i = j.
Proof. intros Hs. apply (ses_inj g p Hs). Qed.

Lemma named_dom g p a i :
  represents g p a → i ∈ a_ids a ↔ ∃ v, named g i v.
Proof. intros Hr. rewrite <-(rep_ids g p a Hr), elem_of_dom. done. Qed.

Lemma create_aut_repr {DL : BddDictLaws D} n :
  n < 31 → ∃ g, create_aut (Z.of_nat n) globals_init = Ok (tt, g) ∧ repr g (a_new n).
Proof.
  intros Hn. rewrite create_aut_run, wrap32_nat by lia. eexists. split; [done|].
  exists (new_Proof n). split; simpl.
  - by apply create_aut_session.
  - done.
  - apply dom_empty_L.
  - intros i v t. unfold named. simpl. by rewrite lookup_empty.
  - intros i v j w. unfold named. simpl. by rewrite lookup_empty.
  - intros i v j w t u. unfold named. simpl. by rewrite lookup_empty.
  - intros i v j w t u. unfold named. simpl. by rewrite lookup_empty.
  - done.
  - split; set_solver.
Qed.

(** The prefix shared by the entry points: check the session, look names up. *)
Lemma lookup1_run {A} g p i (k : Vertex → M Globals A) :
  session g p →
  (assert_proof ;; x ← find_vertex i; k x) g =
    match bdd_map g !! i with Some v => k v g | None => Err EAssert end.
Proof.
  intros Hs. rewrite (bind_Ok _ _ _ _ _ (assert_proof_run g p (ses_proof g p Hs))).
  unfold mbind at 1, M_bind. rewrite find_vertex_run. by destruct (bdd_map g !! i).
Qed.

Lemma lookup2_run {A} g p i j (k : Vertex → Vertex → M Globals A) :
  session g p →
  (assert_proof ;; x ← find_vertex i; y ← find_vertex j; k x y) g =
    match bdd_map g !! i, bdd_map g !! j with
    | Some v, Some w => k v w g
    | _, _ => Err EAssert
    end.
Proof.
  intros Hs. rewrite (lookup1_run g p) by done. destruct (bdd_map g !! i); [|done].
  unfold mbind at 1, M_bind. rewrite find_vertex_run. by destruct (bdd_map g !! j).
Qed.

Lemma tag_vertex_refines i t :
  refines (tag_vertex i t) (a_tag_vertex (Int_val i) (Int_val t)).
Proof.
  intros g a [p Hr]. pose proof (rep_session g p a Hr) as Hs.
  pose proof (named_dom g p a (Int_val i) Hr) as Hd. unfold named in Hd.
  unfold a_tag_vertex, a_guard, tag_vertex. rewrite (lookup1_run g p) by done.
  destruct (bdd_map g !! Int_val i) as [v|] eqn:Ei;
    [rewrite decide_True by naive_solver|rewrite decide_False by naive_solver; done].
  assert (v ∈ vertices p) as Hv by (by eapply ses_found).
  rewrite (call_proof_run _ g p (ses_proof g p Hs)), tag_vertex_run, decide_True by done.
  eexists. split; [done|]. exists (with_tag v (Int_val t) p).
  destruct Hr as [_ Hcap Hids Htags Hsuccs Htr Hpr Hinit Hcl].
  split; try done.
  - apply (session_update g p); [done| |done|done]. by apply with_tag_wf, ses_wf with g.
  - intros j w u Hj. rewrite with_tag_has_tag, (Htags j w u Hj). simpl.
    rewrite elem_of_union, elem_of_singleton.
    split; (intros [Heq|?]; [left|by right]).
    + destruct Heq as [-> ->]. by rewrite (named_inj g p j (Int_val i) v).
    + simplify_eq. unfold named in Hj; simpl in Hj. split; congruence.
  - destruct Hcl. split; simpl; [|done..].
    intros j u [[= -> ->]%elem_of_singleton|?]%elem_of_union; [naive_solver|eauto].
Qed.

Lemma set_successor_refines i j :
  refines (set_successor i j) (a_set_successor (Int_val i) (Int_val j)).
Proof.
  intros g a [p Hr]. pose proof (rep_session g p a Hr) as Hs.
  pose proof (named_dom g p a (Int_val i) Hr) as Hi. unfold named in Hi.
  pose proof (named_dom g p a (Int_val j) Hr) as Hj. unfold named in Hj.
  unfold a_set_successor, a_guard, set_successor. rewrite (lookup2_run g p) by done.
  destruct (bdd_map g !! Int_val i) as [v|] eqn:Ei, (bdd_map g !! Int_val j) as [w|] eqn:Ej;
    [rewrite decide_True by naive_solver|rewrite decide_False by naive_solver; done..].
  assert (v ∈ vertices p) as Hv by (by eapply ses_found).
  assert (w ∈ vertices p) as Hw by (by eapply ses_found).
  rewrite (call_proof_run _ g p (ses_proof g p Hs)), set_successor_run, decide_True by done.
  eexists. split; [done|]. exists (with_succ v w p).
  destruct Hr as [_ Hcap Hids Htags Hsuccs Htr Hpr Hinit Hcl].
  split; try done.
  - apply (session_update g p); [done| |done|done]. by apply with_succ_wf, ses_wf with g.
  - intros i' v' j' w' Hi' Hj'.
    rewrite with_succ_has_succ, (Hsuccs i' v' j' w' Hi' Hj'). simpl.
    rewrite elem_of_union, elem_of_singleton. split; (intros [Heq|?]; [left|by right]).
    + destruct Heq as [-> ->].
      by rewrite (named_inj g p i' (Int_val i) v), (named_inj g p j' (Int_val j) w).
    + simplify_eq. unfold named in *; simpl in *. split; congruence.
  - destruct Hcl. split; simpl; [done| |done..].
    intros i' j' [[= -> ->]%elem_of_singleton|?]%elem_of_union; [naive_solver|eauto].
Qed.

(** The two entry points that record a pair of tags check the same things. *)
Lemma pair_run g p a i j t u
    (rec : Vertex → Vertex → M ProofData unit) (upd : Quad → ProofData → ProofData) :
  represents g p a →
  (∀ v w, rec v w p = if decide (has_tag p v t ∧ has_tag p w u)
                      then Ok (tt, upd (v, w, t, u) p) else Err EAssert) →
  let r := (assert_proof ;; x ← find_vertex i; y ← find_vertex j; call_proof (rec x y)) g in
  if decide (a_pair_ok a i j t u)
  then ∃ v w, named g i v ∧ named g j w ∧ quad_ok p (v, w, t, u) ∧
         r = Ok (tt, mkGlobals (Some (upd (v, w, t, u) p)) (bdd_map g))
  else r = Err EAssert.
Proof.
  intros Hr Hrec r. pose proof (rep_session g p a Hr) as Hs.
  pose proof (named_dom g p a i Hr) as Hi. pose proof (named_dom g p a j Hr) as Hj.
  unfold named in *. unfold r, a_pair_ok. rewrite (lookup2_run g p) by done.
  destruct (bdd_map g !! i) as [v|] eqn:Ei, (bdd_map g !! j) as [w|] eqn:Ej;
    [|rewrite decide_False by naive_solver; done..].
  rewrite (call_proof_run _ g p (ses_proof g p Hs)), Hrec.
  pose proof (rep_tags g p a Hr _ _ t Ei) as Ht. pose proof (rep_tags g p a Hr _ _ u Ej) as Hu.
  destruct (decide (has_tag p v t ∧ has_tag p w u)) as [Hok|Hno];
    [rewrite decide_True by naive_solver|rewrite decide_False by naive_solver; done].
  by exists v, w.
Qed.

(** Adding a quadruple on both sides keeps the correspondence of pairs. *)
Lemma quad_insert (g : Globals) (p : ProofData) (i j t u i' j' t' u' : Z) (v w v' w' : Vertex)
    (X : gset Quad) (Y : gset (Z * Z * Z * Z)) :
  session g p → named g i v → named g j w → named g i' v' → named g j' w' →
  (v', w', t', u') ∈ X ↔ (i', j', t', u') ∈ Y →
  (v', w', t', u') ∈ {[(v, w, t, u)]} ∪ X ↔ (i', j', t', u') ∈ {[(i, j, t, u)]} ∪ Y.
Proof.
  intros Hs Hi Hj Hi' Hj' Heq. rewrite !elem_of_union, !elem_of_singleton, Heq. split.
  - intros [[= -> -> -> ->]|?]; [left|by right].
    by rewrite (named_inj g p i' i v), (named_inj g p j' j w).
  - intros [[= -> -> -> ->]|?]; [left|by right]. unfold named in *. congruence.
Qed.

Lemma set_trace_pair_refines i j t u :
  refines (set_trace_pair i j t u)
    (a_set_trace_pair (Int_val i) (Int_val j) (Int_val t) (Int_val u)).
Proof.
  intros g a [p Hr]. pose proof (rep_session g p a Hr) as Hs.
  pose proof (ses_wf g p Hs) as Hwf. unfold a_set_trace_pair, a_guard, set_trace_pair.
  pose proof (pair_run g p a (Int_val i) (Int_val j) (Int_val t) (Int_val u)
    (λ v w, ProofGraph.set_trace_pair v w (Int_val t) (Int_val u))
    (λ q, upd_trace_pairs (λ s, {[q]} ∪ s)) Hr
    (λ v w, set_trace_pair_run v w (Int_val t) (Int_val u) p Hwf)) as Hrun.
  cbv zeta in Hrun. case_decide as Hok; [|done].
  destruct Hrun as (v & w & Hv & Hw & Hq & ->). eexists. split; [done|].
  exists (upd_trace_pairs (λ s, {[(v, w, Int_val t, Int_val u)]} ∪ s) p).
  destruct Hr as [_ Hcap Hids Htags Hsuccs Htr Hpr Hinit Hcl]. split; try done.
  - apply (session_update g p); [done| |done|done]. by apply with_trace_pair_wf.
  - intros i' v' j' w' t' u' Hi' Hj'. simpl.
    apply (quad_insert g p); [done..|]. by apply Htr.
  - destruct Hcl. split; simpl; [done|done| |done].
    intros i' j' t' u' [[= -> -> -> ->]%elem_of_singleton|?]%elem_of_union;
      [apply Hok|eauto].
Qed.

Lemma set_progress_pair_refines i j t u :
  refines (set_progress_pair i j t u)
    (a_set_progress_pair (Int_val i) (Int_val j) (Int_val t) (Int_val u)).
Proof.
  intros g a [p Hr]. pose proof (rep_session g p a Hr) as Hs.
  pose proof (ses_wf g p Hs) as Hwf. unfold a_set_progress_pair, a_guard, set_progress_pair.
  pose proof (pair_run g p a (Int_val i) (Int_val j) (Int_val t) (Int_val u)
    (λ v w, ProofGraph.set_progress_pair v w (Int_val t) (Int_val u))
    (λ q, upd_progress_pairs (λ s, {[q]} ∪ s)) Hr
    (λ v w, set_progress_pair_run v w (Int_val t) (Int_val u) p Hwf)) as Hrun.
  cbv zeta in Hrun. case_decide as Hok; [|done].
  destruct Hrun as (v & w & Hv & Hw & Hq & ->). eexists. split; [done|].
  exists (upd_progress_pairs (λ s, {[(v, w, Int_val t, Int_val u)]} ∪ s) p).
  destruct Hr as [_ Hcap Hids Htags Hsuccs Htr Hpr Hinit Hcl]. split; try done.
  - apply (session_update g p); [done| |done|done]. by apply with_progress_pair_wf.
  - intros i' v' j' w' t' u' Hi' Hj'. simpl.
    apply (quad_insert g p); [done..|]. by apply Hpr.
  - destruct Hcl. split; simpl; [done|done|done|].
    intros i' j' t' u' [[= -> -> -> ->]%elem_of_singleton|?]%elem_of_union;
      [apply Hok|eauto].
Qed.

Lemma set_initial_vertex_refines i :
  refines (set_initial_vertex i) (a_set_initial_vertex (Int_val i)).
Proof.
  intros g a [p Hr]. pose proof (rep_session g p a Hr) as Hs.
  pose proof (named_dom g p a (Int_val i) Hr) as Hd. unfold named in Hd.
  unfold a_set_initial_vertex, a_guard, set_initial_vertex. rewrite (lookup1_run g p) by done.
  destruct (bdd_map g !! Int_val i) as [v|] eqn:Ei;
    [rewrite decide_True by naive_solver|rewrite decide_False by naive_solver; done].
  assert (v ∈ vertices p) as Hv by (by eapply ses_found).
  rewrite (call_proof_run _ g p (ses_proof g p Hs)), set_initial_vertex_run, decide_True by done.
  eexists. split; [done|]. exists (upd_initial_vertex (λ _, v) p).
  destruct Hr as [_ Hcap Hids Htags Hsuccs Htr Hpr Hinit Hcl]. split; try done.
  - apply (session_update g p); [done| |done|done]. by apply with_initial_wf, ses_wf with g.
  - by destruct Hcl.
Qed.

(** The vertex [create_vertex] returns is new. *)
Lemma next_vertex_fresh p :
  proof_wf p → (last_vertex p + 1 < 2 ^ Z.of_nat (max_vertices_log2 p))%Z →
  vertex_of p (last_vertex p + 1) ∉ vertices p.
Proof.
  intros Hwf Hl (z & Hz & Heq)%(wf_vertices p Hwf). destruct (wf_props p Hwf) as [xs Hxs].
  apply (vertex_of_inj p xs) in Heq; [lia|done|lia|lia].
Qed.

Lemma create_vertex_session g p i :
  session g p → (last_vertex p < INT_MAX)%Z →
  (last_vertex p + 1 < 2 ^ Z.of_nat (max_vertices_log2 p))%Z →
  bdd_map g !! i = None →
  let v := vertex_of p (last_vertex p + 1) in
  let p' := with_vertex (last_vertex p + 1) v p in
  session (mkGlobals (Some p') (<[i := v]> (bdd_map g))) p'.
Proof.
  intros Hs Hmax Hl Hi v p'. pose proof (next_vertex_fresh p (ses_wf g p Hs) Hl) as Hfresh.
  destruct Hs as [Hp Hwf Hl2 Hsz Hv Hinj Hsurj]. split; simpl.
  - done.
  - by apply with_vertex_wf.
  - done.
  - rewrite map_size_insert_None by done. lia.
  - intros j w [[<- <-]|[? Hw]]%lookup_insert_Some; [set_solver|]. apply Hv in Hw. set_solver.
  - intros j k w [[<- <-]|[? Hj]]%lookup_insert_Some [[<- Hw]|[? Hk]]%lookup_insert_Some;
      [done| | |by eapply Hinj].
    + by apply Hv in Hk.
    + subst w. by apply Hv in Hj.
  - intros w [->%elem_of_singleton|Hw]%elem_of_union; [exists i; apply lookup_insert_eq|].
    destruct (Hsurj w Hw) as [j Hj]. exists j. rewrite lookup_insert_ne; [done|].
    intros ->. congruence.
Qed.

Lemma create_vertex_represents g p a i :
  represents g p a → (last_vertex p < INT_MAX)%Z →
  (last_vertex p + 1 < 2 ^ Z.of_nat (max_vertices_log2 p))%Z →
  bdd_map g !! i = None →
  let v := vertex_of p (last_vertex p + 1) in
  let p' := with_vertex (last_vertex p + 1) v p in
  represents (mkGlobals (Some p') (<[i := v]> (bdd_map g))) p'
    (mkSpec (a_cap a) ({[i]} ∪ a_ids a) (a_tags a) (a_succs a) (a_traces a) (a_progs a)
       (a_init a)).
Proof.
  intros Hr Hmax Hl Hi v p'. pose proof (rep_session g p a Hr) as Hs.
  pose proof (ses_wf g p Hs) as Hwf. pose proof (next_vertex_fresh p Hwf Hl) as Hfresh.
  fold v in Hfresh. destruct Hr as [_ Hcap Hids Htags Hsuccs Htr Hpr Hinit Hcl].
  assert (i ∉ a_ids a) as Hni by (rewrite <-Hids; by apply not_elem_of_dom).
  assert (∀ j w, named (mkGlobals (Some p') (<[i := v]> (bdd_map g))) j w →
    (j = i ∧ w = v) ∨ (named g j w ∧ j ≠ i)) as Hn.
  { unfold named. simpl. intros j w [[<- <-]|[? Hw]]%lookup_insert_Some; auto. }
  assert (∀ t, ¬ has_tag p v t) as Ht by (intros t Ht; by eapply Hfresh, wf_has_tag_vertex).
  assert (∀ w, ¬ has_succ p v w) as Hsv by (intros w ?; by eapply Hfresh, wf_has_succ_vertex).
  assert (∀ w, ¬ has_succ p w v) as Hws by (intros w ?; by eapply Hfresh, wf_succ).
  assert (∀ w x t u, quad_ok p (w, x, t, u) → w ≠ v ∧ x ≠ v) as Hq.
  { intros w x t u [Hw Hx]. split; intros ->; by eapply Ht. }
  pose proof (wf_trace p Hwf) as Hwt. pose proof (wf_progress p Hwf) as Hwp.
  destruct Hcl as [C1 C2 C3 C4]. split; simpl.
  - by apply create_vertex_session.
  - done.
  - by rewrite dom_insert_L, Hids.
  - intros j w t [[-> ->]|[Hj _]]%Hn; unfold p'; rewrite with_vertex_has_tag; [|by apply Htags].
    split; [intros ?; by edestruct Ht|intros ?%C1; done].
  - intros j w k x [[-> ->]|[Hj _]]%Hn [[-> ->]|[Hk _]]%Hn; unfold p'; rewrite with_vertex_has_succ;
      [..|by apply Hsuccs].
    + split; [intros ?; by edestruct Hsv|intros [? _]%C2; done].
    + split; [intros ?; by edestruct Hsv|intros [? _]%C2; done].
    + split; [intros ?; by edestruct Hws|intros [_ ?]%C2; done].
  - intros j w k x t u [[-> ->]|[Hj _]]%Hn [[-> ->]|[Hk _]]%Hn; [..|by apply Htr];
      (split; [intros [? ?]%Hwt%Hq; done|intros [? ?]%C3; done]).
  - intros j w k x t u [[-> ->]|[Hj _]]%Hn [[-> ->]|[Hk _]]%Hn; [..|by apply Hpr];
      (split; [intros [? ?]%Hwp%Hq; done|intros [? ?]%C4; done]).
  - destruct (a_init a) as [k|]; [|done]. unfold named in *. simpl.
    rewrite lookup_insert_ne; [done|]. intros ->. congruence.
  - split; simpl; set_solver.
Qed.

Lemma create_vertex_ffi_run g p i :
  session g p →
  create_vertex i g =
    if decide (last_vertex p + 1 < 2 ^ Z.of_nat (max_vertices_log2 p)
               ∧ bdd_map g !! Int_val i = None)%Z
    then let v := vertex_of p (last_vertex p + 1) in
         Ok (tt, mkGlobals (Some (with_vertex (last_vertex p + 1) v p))
                   (<[Int_val i := v]> (bdd_map g)))
    else Err EAssert.
Proof.
  intros Hs. pose proof (ses_wf g p Hs) as Hwf. pose proof (ses_log2 g p Hs) as Hn.
  assert (2 ^ Z.of_nat (max_vertices_log2 p) ≤ 2 ^ 30)%Z as Hpow.
  { apply Z.pow_le_mono_r; lia. }
  pose proof (wf_last p Hwf) as [Hl1 Hl2]. unfold create_vertex.
  rewrite (bind_Ok _ _ _ _ _ (assert_proof_run g p (ses_proof g p Hs))).
  unfold mbind at 1, M_bind.
  rewrite (call_proof_run _ g p (ses_proof g p Hs)), create_vertex_run by (done || lia).
  unfold INT_MAX in *.
  destruct (decide (last_vertex p + 1 < 2 ^ Z.of_nat (max_vertices_log2 p))%Z).
  - rewrite decide_True by lia. run_step. case_bool_decide; case_decide; tauto || done.
  - rewrite !decide_False by lia. done.
Qed.

Lemma create_vertex_refines i :
  refines (create_vertex i) (a_create_vertex (Int_val i)).
Proof.
  intros g a [p Hr]. pose proof (rep_session g p a Hr) as Hs.
  assert (Z.of_nat (size (a_ids a)) = last_vertex p) as Hsz.
  { rewrite <-(rep_ids g p a Hr), size_dom. apply (ses_size g p Hs). }
  pose proof (wf_last p (ses_wf g p Hs)) as [Hl1 Hl2]. pose proof (ses_log2 g p Hs) as Hn.
  assert (2 ^ Z.of_nat (max_vertices_log2 p) ≤ 2 ^ 30)%Z as Hpow.
  { apply Z.pow_le_mono_r; lia. }
  rewrite (create_vertex_ffi_run g p) by done. unfold a_create_vertex, a_guard.
  rewrite Hsz, <-(rep_cap g p a Hr).
  assert (Int_val i ∉ a_ids a ↔ bdd_map g !! Int_val i = None) as Hid.
  { by rewrite <-(rep_ids g p a Hr), not_elem_of_dom. }
  destruct (decide (_ ∧ Int_val i ∉ a_ids a)) as [[Hlt Hi]|Hno].
  - rewrite decide_True by tauto. eexists. split; [done|]. eexists.
    rewrite (rep_cap g p a Hr). apply create_vertex_represents; [done| |done|by apply Hid].
    unfold INT_MAX. lia.
  - by rewrite decide_False by tauto.
Qed.

(** ** The verdict *)

Definition vert (g : Globals) (i : Z) : Vertex := default NO_VERTEX (bdd_map g !! i).

Definition name (g : Globals) (v : Vertex) : Z :=
  match list_find (λ e, e.2 = v) (map_to_list (bdd_map g)) with
  | Some (_, (i, _)) => i
  | None => 0%Z
  end.

Lemma vert_named g p a i : represents g p a → i ∈ a_ids a → named g i (vert g i).
Proof. intros Hr [v Hv]%(named_dom g p a i Hr). unfold named, vert in *. by rewrite Hv. Qed.

Lemma name_named g p v : session g p → v ∈ vertices p → named g (name g v) v.
Proof.
  intros Hs [i Hi]%(ses_surj g p Hs). unfold named, name.
  destruct (list_find _ _) as [[n [j w]]|] eqn:E.
  - apply list_find_Some in E as (Hj & Hw & _). simpl in Hw. subst w.
    apply elem_of_map_to_list. by eapply list_elem_of_lookup_2.
  - rewrite list_find_None, Forall_forall in E. exfalso.
    by apply (E (i, v)); [apply elem_of_map_to_list|].
Qed.

Lemma a_graph_sim g p a i :
  represents g p a → a_init a = Some i → gtc (graph_of p) → gtc (a_graph a i).
Proof.
  intros Hr Hi. pose proof (rep_session g p a Hr) as Hs.
  pose proof (rep_init g p a Hr) as Hinit. rewrite Hi in Hinit.
  assert (i ∈ a_ids a) as Hid by (rewrite named_dom by done; eauto).
  assert (∀ j v, named g j v → vert g j = v) as Hv.
  { intros j v Hj. unfold vert. by rewrite Hj. }
  apply (gtc_sim_fun _ _ (vert g) (.∈ a_ids a)); [done| |split; simpl].
  - intros j k _ [_ Hk]%(cl_succs a (rep_closed g p a Hr)). done.
  - split; [done|]. symmetry. by apply Hv.
  - intros j k w [Hj ->] Hjk. exists (vert g k).
    destruct (cl_succs a (rep_closed g p a Hr) j k Hjk) as [_ Hk].
    split; [|done]. apply (rep_succs g p a Hr j _ k); [by eapply vert_named..|done].
  - intros j k w w' t u [Hj ->] [Hk ->] _.
    apply (rep_traces g p a Hr); by eapply vert_named.
  - intros j k w w' t u [Hj ->] [Hk ->] _.
    apply (rep_progs g p a Hr); by eapply vert_named.
Qed.

Lemma a_graph_sim_back g p a i :
  represents g p a → a_init a = Some i → gtc (a_graph a i) → gtc (graph_of p).
Proof.
  intros Hr Hi. pose proof (rep_session g p a Hr) as Hs. pose proof (ses_wf g p Hs) as Hwf.
  pose proof (rep_init g p a Hr) as Hinit. rewrite Hi in Hinit.
  apply (gtc_sim_fun _ _ (name g) (.∈ vertices p)); [by eapply ses_vertex| |split; simpl].
  - intros v w _. apply (wf_succ p Hwf).
  - assert (initial_vertex p ∈ vertices p) by (by eapply ses_vertex). split; [done|].
    eapply (named_inj g p); [done|done|by eapply name_named].
  - intros v w j [Hv ->] Hvw. exists (name g w).
    assert (w ∈ vertices p) by (by eapply wf_succ).
    split; [|done]. apply (rep_succs g p a Hr _ v _ w); [by eapply name_named..|done].
  - intros v w j k t u [Hv ->] [Hw ->] _.
    apply (rep_traces g p a Hr); by eapply name_named.
  - intros v w j k t u [Hv ->] [Hw ->] _.
    apply (rep_progs g p a Hr); by eapply name_named.
Qed.

Lemma check_soundness_spec g a i :
  repr g a → a_init a = Some i →
  ∃ b, check_soundness g = Ok (b, g) ∧ (b = true ↔ gtc (a_graph a i)).
Proof.
  intros [p Hr] Hi. pose proof (rep_session g p a Hr) as Hs.
  pose proof (rep_init g p a Hr) as Hinit. rewrite Hi in Hinit.
  destruct (check_soundness_run g p) as (b & Hb & Hgtc); [done|by eapply ses_vertex|].
  exists b. split; [done|]. rewrite Hgtc.
  split; [by eapply a_graph_sim|by eapply a_graph_sim_back].
Qed.

(** ** Whole sessions *)

(** The calls a client makes between [create_aut] and [check_soundness]. *)
Inductive ffi_op :=
| CreateVertex (v : Z)
| TagVertex (v t : Z)
| SetSuccessor (v1 v2 : Z)
| SetTracePair (v1 v2 t1 t2 : Z)
| SetProgressPair (v1 v2 t1 t2 : Z)
| SetInitialVertex (v : Z).

Definition ffi_call (o : ffi_op) : M Globals unit :=
  match o with
  | CreateVertex v => create_vertex v
  | TagVertex v t => tag_vertex v t
  | SetSuccessor v1 v2 => set_successor v1 v2
  | SetTracePair v1 v2 t1 t2 => set_trace_pair v1 v2 t1 t2
  | SetProgressPair v1 v2 t1 t2 => set_progress_pair v1 v2 t1 t2
  | SetInitialVertex v => set_initial_vertex v
  end.

Definition a_call (o : ffi_op) : aspec → res aspec :=
  match o with
  | CreateVertex v => a_create_vertex (Int_val v)
  | TagVertex v t => a_tag_vertex (Int_val v) (Int_val t)
  | SetSuccessor v1 v2 => a_set_successor (Int_val v1) (Int_val v2)
  | SetTracePair v1 v2 t1 t2 =>
    a_set_trace_pair (Int_val v1) (Int_val v2) (Int_val t1) (Int_val t2)
  | SetProgressPair v1 v2 t1 t2 =>
    a_set_progress_pair (Int_val v1) (Int_val v2) (Int_val t1) (Int_val t2)
  | SetInitialVertex v => a_set_initial_vertex (Int_val v)
  end.

Fixpoint a_calls (ops : list ffi_op) (a : aspec) : res aspec :=
  match ops with
  | [] => Ok a
  | o :: ops => match a_call o a with Ok a' => a_calls ops a' | Err e => Err e end
  end.

Lemma ffi_call_refines o : refines (ffi_call o) (a_call o).
Proof.
  destruct o; simpl.
  - apply create_vertex_refines.
  - apply tag_vertex_refines.
  - apply set_successor_refines.
  - apply set_trace_pair_refines.
  - apply set_progress_pair_refines.
  - apply set_initial_vertex_refines.
Qed.

Lemma ffi_calls_refines ops : refines (for_each ops ffi_call) (a_calls ops).
Proof.
  induction ops as [|o ops IH]; intros g a R; simpl; [by exists g|].
  pose proof (ffi_call_refines o g a R) as Ho.
  destruct (a_call o a) as [a'|e]; [|by apply bind_Err].
  destruct Ho as (g' & Hg & R'). rewrite (bind_Ok _ _ _ _ _ Hg). by apply IH.
Qed.

Lemma check_soundness_rootless g a :
  repr g a → a_init a = None → is_ok (check_soundness g) = false.
Proof.
  intros [p Hr] Hi. apply (check_soundness_no_root g p); [apply (rep_session g p a Hr)|].
  pose proof (rep_init g p a Hr) as H. by rewrite Hi in H.
Qed.

Lemma destroy_aut_run g a : repr g a → destroy_aut g = Ok (tt, globals_init).
Proof.
  intros [p Hr]. pose proof (rep_session g p a Hr) as Hs. unfold destroy_aut.
  by rewrite (bind_Ok _ _ _ _ _ (assert_proof_run g p (ses_proof g p Hs))).
Qed.
End refinement.
