(* ===== verification/Soundcheck.v ===== *)
(** * The OCaml client: [src/generic/soundcheck.ml]

    Abstract proofs as the prover hands them to the checker, the validation
    the client performs, the sequence of calls that loads a proof into the
    automaton and reads the verdict, and the cache of verdicts.  Finite maps
    and sets iterate in increasing order, as OCaml's do. *)

From S2P Require Import Prelude Spot ProofGraph Gtc ProofAut Trace Soundness SoundnessSpec.

(** ** Data *)

Abbreviation tagpairs := (gset (Z * Z)).

(** Tags, and per premise its index, valid and progressing tag transitions. *)
Definition abstract_node : Type := gset Z * list (Z * tagpairs * tagpairs).

Abbreviation aproof := (gmap Z abstract_node).

Definition get_tags (n : abstract_node) : gset Z := n.1.
Definition get_subg (n : abstract_node) : list (Z * tagpairs * tagpairs) := n.2.

Definition pair_le (x y : Z * Z) : Prop := (x.1 < y.1 ∨ (x.1 = y.1 ∧ x.2 ≤ y.2))%Z.

#[global] Instance pair_le_dec : RelDecision pair_le.
Proof. intros x y. unfold pair_le. apply _. Defined.

(** [Int.Set.elements], [IntPairSet.elements], [Int.Map.bindings]. *)
Definition ints (s : gset Z) : list Z := merge_sort Z.le (elements s).
Definition pairs (s : tagpairs) : list (Z * Z) := merge_sort pair_le (elements s).
Definition bindings (p : aproof) : list (Z * abstract_node) :=
  omap (λ i, pair i <$> p !! i) (ints (dom p)).

(** ** Queries on nodes *)

Definition compose (t1 t2 : tagpairs) : tagpairs :=
  foldl (λ a xy, foldl (λ b wz,
    if decide (xy.2 = wz.1) then {[(xy.1, wz.2)]} ∪ b else b) a (pairs t2)) ∅ (pairs t1).

Definition is_leaf (n : abstract_node) : bool := bool_decide (get_subg n = []).

Definition premise (e : Z * tagpairs * tagpairs) : Z := e.1.1.

Definition in_children (child : Z) (n : abstract_node) : bool :=
  existsb (λ e, bool_decide (premise e = child)) (get_subg n).

Definition build_premise (x : Z * list (Z * Z) * list (Z * Z)) : Z * tagpairs * tagpairs :=
  (x.1.1, list_to_set x.1.2, list_to_set x.2).

Definition build_proof (nodes : list (Z * list Z * list (Z * list (Z * Z) * list (Z * Z)))) :
    aproof :=
  foldl (λ m x, <[x.1.1 := (list_to_set x.1.2, map build_premise x.2)]> m) ∅ nodes.

(** ** Validation *)

(** One premise [(i, tv, tp)] of node [n]. *)
Definition valid_premise (prf : aproof) (n : abstract_node) (e : Z * tagpairs * tagpairs) : bool :=
  let '(i, tv, tp) := e in
  match prf !! i with
  | None => false
  | Some target =>
    bool_decide (tp ⊆ tv) &&
    bool_decide (set_map (C := tagpairs) (D := gset Z) fst tv ⊆ get_tags n) &&
    bool_decide (set_map (C := tagpairs) (D := gset Z) snd tv ⊆ get_tags target)
  end.

Definition valid (prf : aproof) (init : Z) : bool :=
  bool_decide (init ∈ dom prf) &&
  forallb (λ b, forallb (valid_premise prf b.2) (get_subg b.2)) (bindings prf).

(** ** The logarithm *)

(** [int_of_float (ceil (log (float_of_int n) /. log 2.0))] of the C library. *)
Class FloatLog := { ceil_log2 : nat → nat }.

(** What the client relies on, rounding of the quotient included. *)
Class FloatLogLaws (F : FloatLog) : Prop := {
  ceil_log2_spec n : 1 ≤ n → (Z.of_nat n ≤ 2 ^ 28)%Z →
    (Z.of_nat n < 2 ^ Z.of_nat (S (ceil_log2 n)))%Z ∧ ceil_log2 n ≤ 29;
}.

#[global] Instance log2_up_log : FloatLog := {| ceil_log2 := Nat.log2_up |}.

#[global] Instance log2_up_log_laws : FloatLogLaws log2_up_log.
Proof.
  split. intros n H1 H2. simpl ceil_log2.
  destruct (decide (n = 1)) as [->|]; [vm_compute; split; [done|lia]|].
  pose proof (Nat.log2_up_spec n ltac:(lia)) as [Hlo Hhi].
  apply Nat2Z.inj_lt in Hlo. apply Nat2Z.inj_le in Hhi. rewrite Nat2Z.inj_pow in Hlo, Hhi.
  split.
  - rewrite Nat2Z.inj_succ, Z.pow_succ_r by lia. simpl Z.of_nat in *. lia.
  - assert (Z.of_nat (pred (Nat.log2_up n)) < 28)%Z; [|lia].
    apply (Z.pow_lt_mono_r_iff 2); [lia|lia|]. simpl Z.of_nat in Hlo. lia.
Qed.

(** ** Loading a proof and reading the verdict *)

Section driver.
Context {B : Bdd} {D : BddDict} {HO : HashOrder} {G : SpotAlgos B} {F : FloatLog}.

Definition create_tags (b : Z * abstract_node) : M Globals unit :=
  for_each (ints (get_tags b.2)) (tag_vertex b.1).

Definition create_succs (b : Z * abstract_node) : M Globals unit :=
  for_each (get_subg b.2) (λ e, set_successor b.1 (premise e)).

Definition create_trace_pairs (b : Z * abstract_node) : M Globals unit :=
  for_each (get_subg b.2) (λ e,
    for_each (pairs e.1.2) (λ km, set_trace_pair b.1 (premise e) km.1 km.2) ;;
    for_each (pairs e.2) (λ km, set_progress_pair b.1 (premise e) km.1 km.2)).

Definition log2size (size : nat) : nat := 1 + ceil_log2 size.

(** The inner [check_proof]: one session of the automaton. *)
Definition check_session (init : Z) (p : aproof) : M Globals bool :=
  create_aut (Z.of_nat (log2size (size p))) ;;
  for_each (bindings p) (λ b, create_vertex b.1) ;;
  for_each (bindings p) create_tags ;;
  for_each (bindings p) create_succs ;;
  set_initial_vertex init ;;
  for_each (bindings p) create_trace_pairs ;;
  retval ← check_soundness;
  destroy_aut ;;
  mret retval.
End driver.

(** The pre-proof an abstract proof denotes. *)
Definition aproof_graph (p : aproof) (init : Z) : tgraph Z Z := {|
  tg_init := init;
  tg_succ i j := ∃ n e, p !! i = Some n ∧ e ∈ get_subg n ∧ premise e = j;
  tg_trace i j t u := ∃ n e, p !! i = Some n ∧ e ∈ get_subg n ∧ premise e = j ∧ (t, u) ∈ e.1.2;
  tg_progress i j t u := ∃ n e, p !! i = Some n ∧ e ∈ get_subg n ∧ premise e = j ∧ (t, u) ∈ e.2;
|}.

(** Names and tags the stubs can represent as [int]. *)
Definition fits (p : aproof) : Prop :=
  map_Forall (λ i n, int_range i ∧ set_Forall int_range (get_tags n)) p.

#[global] Instance fits_dec p : Decision (fits p).
Proof. unfold fits. apply _. Defined.

(** ** Iteration *)

Lemma elem_of_ints s x : x ∈ ints s ↔ x ∈ s.
Proof. unfold ints. rewrite merge_sort_Permutation. apply elem_of_elements. Qed.

Lemma NoDup_ints s : NoDup (ints s).
Proof. unfold ints. rewrite merge_sort_Permutation. apply NoDup_elements. Qed.

Lemma elem_of_pairs s x : x ∈ pairs s ↔ x ∈ s.
Proof. unfold pairs. rewrite merge_sort_Permutation. apply elem_of_elements. Qed.

Lemma elem_of_bindings p b : b ∈ bindings p ↔ p !! b.1 = Some b.2.
Proof.
  unfold bindings. rewrite list_elem_of_omap. setoid_rewrite elem_of_ints.
  setoid_rewrite elem_of_dom. destruct b as [i n]; simpl. split.
  - intros (j & Hj & (n' & Hn' & [= -> ->])%fmap_Some). done.
  - intros Hi. exists i. split; [by eexists|]. by rewrite Hi.
Qed.

Lemma bindings_keys p : (bindings p).*1 = ints (dom p).
Proof.
  unfold bindings. assert (∀ i, i ∈ ints (dom p) → is_Some (p !! i)) as H.
  { intros i. by rewrite elem_of_ints, elem_of_dom. }
  induction (ints (dom p)) as [|i l IH]; simpl; [done|].
  destruct (H i) as [n Hn]; [by left|]. rewrite Hn. simpl. f_equal.
  apply IH. intros j Hj. apply H. by right.
Qed.

(** ** Abstract runs of the loading loops *)

Fixpoint afold {A} (l : list A) (f : A → aspec → res aspec) (a : aspec) : res aspec :=
  match l with
  | [] => Ok a
  | x :: l => match f x a with Ok a => afold l f a | Err e => Err e end
  end.

(** Adding the contents of [d] to [a]. *)
Definition merge (a d : aspec) : aspec :=
  mkSpec (a_cap a) (a_ids a ∪ a_ids d) (a_tags a ∪ a_tags d) (a_succs a ∪ a_succs d)
    (a_traces a ∪ a_traces d) (a_progs a ∪ a_progs d) (a_init a).

Definition nothing : aspec := a_new 0.

Lemma merge_nothing a : merge a nothing = a.
Proof. destruct a. unfold merge; simpl. f_equal; set_solver. Qed.

Lemma merge_assoc a b c : merge (merge a b) c = merge a (merge b c).
Proof. unfold merge; simpl. f_equal; set_solver. Qed.

Definition delta {A} (f : A → aspec) (l : list A) : aspec :=
  foldr (λ x d, merge (f x) d) nothing l.

Lemma afold_merge {A} (P : aspec → Prop) (f : A → aspec) (af : A → aspec → res aspec) l :
  (∀ x a, x ∈ l → P a → af x a = Ok (merge a (f x)) ∧ P (merge a (f x))) →
  ∀ a, P a → afold l af a = Ok (merge a (delta f l)) ∧ P (merge a (delta f l)).
Proof.
  induction l as [|x l IH]; intros Hf a Ha; simpl.
  - rewrite merge_nothing. done.
  - destruct (Hf x a) as [-> HP]; [by left|done|].
    rewrite <-merge_assoc. apply IH; [|done]. intros y b Hy. apply Hf. by right.
Qed.

Lemma elem_of_delta_tags {A} (f : A → aspec) l z :
  z ∈ a_tags (delta f l) ↔ ∃ x, x ∈ l ∧ z ∈ a_tags (f x).
Proof. induction l; simpl; [set_solver|]. rewrite elem_of_union. set_solver. Qed.

Lemma elem_of_delta_succs {A} (f : A → aspec) l z :
  z ∈ a_succs (delta f l) ↔ ∃ x, x ∈ l ∧ z ∈ a_succs (f x).
Proof. induction l; simpl; [set_solver|]. rewrite elem_of_union. set_solver. Qed.

Lemma elem_of_delta_traces {A} (f : A → aspec) l z :
  z ∈ a_traces (delta f l) ↔ ∃ x, x ∈ l ∧ z ∈ a_traces (f x).
Proof. induction l; simpl; [set_solver|]. rewrite elem_of_union. set_solver. Qed.

Lemma elem_of_delta_progs {A} (f : A → aspec) l z :
  z ∈ a_progs (delta f l) ↔ ∃ x, x ∈ l ∧ z ∈ a_progs (f x).
Proof. induction l; simpl; [set_solver|]. rewrite elem_of_union. set_solver. Qed.

(** What each loop contributes. *)
Definition d_ids (i : Z) : aspec := mkSpec 0 {[i]} ∅ ∅ ∅ ∅ None.
Definition d_tag (i t : Z) : aspec := mkSpec 0 ∅ {[(i, t)]} ∅ ∅ ∅ None.
Definition d_succ (i j : Z) : aspec := mkSpec 0 ∅ ∅ {[(i, j)]} ∅ ∅ None.
Definition d_trace (i j : Z) (km : Z * Z) : aspec :=
  mkSpec 0 ∅ ∅ ∅ {[(i, j, km.1, km.2)]} ∅ None.
Definition d_prog (i j : Z) (km : Z * Z) : aspec :=
  mkSpec 0 ∅ ∅ ∅ ∅ {[(i, j, km.1, km.2)]} None.

Definition d_tags (b : Z * abstract_node) : aspec := delta (d_tag b.1) (ints (get_tags b.2)).
Definition d_succs (b : Z * abstract_node) : aspec :=
  delta (λ e, d_succ b.1 (premise e)) (get_subg b.2).
Definition d_edge (i : Z) (e : Z * tagpairs * tagpairs) : aspec :=
  merge (delta (d_trace i (premise e)) (pairs e.1.2)) (delta (d_prog i (premise e)) (pairs e.2)).
Definition d_pairs (b : Z * abstract_node) : aspec := delta (d_edge b.1) (get_subg b.2).

Lemma afold_create_vertices l : ∀ a,
  NoDup l → (∀ i, i ∈ l → i ∉ a_ids a) →
  (Z.of_nat (size (a_ids a) + length l) < 2 ^ Z.of_nat (a_cap a))%Z →
  afold l a_create_vertex a = Ok (merge a (delta d_ids l)).
Proof.
  induction l as [|i l IH]; intros a Hnd Hni Hsz; simpl.
  { by rewrite merge_nothing. }
  apply NoDup_cons in Hnd as [Hi Hnd]. simpl in Hsz.
  unfold a_create_vertex at 1, a_guard.
  assert (i ∉ a_ids a) as Hia by (apply Hni; by left).
  rewrite decide_True by (split; [lia|done]).
  rewrite IH; simpl.
  - rewrite <-merge_assoc. do 2 f_equal. unfold merge; simpl. f_equal; set_solver.
  - done.
  - set_solver.
  - rewrite size_union by set_solver. rewrite size_singleton. lia.
Qed.

Lemma elem_of_delta_ids l i : i ∈ a_ids (delta d_ids l) ↔ i ∈ l.
Proof. induction l; simpl; set_solver. Qed.

(** ** Correctness of a session *)

Section correctness.
Context {B : Bdd} {D : BddDict} {HO : HashOrder} {G : SpotAlgos B} {F : FloatLog}.
Context {BL : BddLaws B} {DL : BddDictLaws D} {HL : HashOrderLaws HO}
        {GL : SpotAlgosLaws B G} {FL : FloatLogLaws F}.

Lemma refines_step m am g a a' :
  refines m am → am a = Ok a' → repr g a → ∃ g', m g = Ok (tt, g') ∧ repr g' a'.
Proof. intros Hm Ha Hg. specialize (Hm g a Hg). by rewrite Ha in Hm. Qed.

Lemma refines_seq m am m' am' :
  refines m am → refines m' am' →
  refines (m ;; m') (λ a, match am a with Ok a => am' a | Err e => Err e end).
Proof.
  intros Hm Hm' g a Hg. specialize (Hm g a Hg). destruct (am a) as [a1|e].
  - destruct Hm as (g1 & Hm1 & Hg1). rewrite (bind_Ok _ _ _ _ _ Hm1). by apply Hm'.
  - by rewrite (bind_Err _ _ _ _ Hm).
Qed.

Lemma refines_for_each {A} (l : list A) (f : A → M Globals unit) (af : A → aspec → res aspec) :
  (∀ x, x ∈ l → refines (f x) (af x)) → refines (for_each l f) (afold l af).
Proof.
  induction l as [|x l IH]; intros Hf.
  - intros g a Hg. by exists g.
  - apply (refines_seq (f x) (af x)); [apply Hf; by left|].
    apply IH. intros y Hy. apply Hf. by right.
Qed.

Lemma Int_val_id z : int_range z → Int_val z = z.
Proof. apply wrap32_id. Qed.

(** The abstract counterparts of the client's loops. *)
Definition a_create_tags (b : Z * abstract_node) : aspec → res aspec :=
  afold (ints (get_tags b.2)) (a_tag_vertex b.1).
Definition a_create_succs (b : Z * abstract_node) : aspec → res aspec :=
  afold (get_subg b.2) (λ e, a_set_successor b.1 (premise e)).
Definition a_create_edge (i : Z) (e : Z * tagpairs * tagpairs) (a : aspec) : res aspec :=
  match afold (pairs e.1.2) (λ km, a_set_trace_pair i (premise e) km.1 km.2) a with
  | Ok a => afold (pairs e.2) (λ km, a_set_progress_pair i (premise e) km.1 km.2) a
  | Err e => Err e
  end.
Definition a_create_pairs (b : Z * abstract_node) : aspec → res aspec :=
  afold (get_subg b.2) (a_create_edge b.1).

(** What [valid] establishes about a premise. *)
Lemma valid_premise_spec p init i n e :
  valid p init = true → p !! i = Some n → e ∈ get_subg n →
  ∃ m, p !! premise e = Some m ∧ e.2 ⊆ e.1.2 ∧
    ∀ t u, (t, u) ∈ e.1.2 → t ∈ get_tags n ∧ u ∈ get_tags m.
Proof.
  intros [_ Hv]%andb_true_iff Hi He. rewrite forallb_forall in Hv.
  specialize (Hv (i, n)). rewrite <-list_elem_of_In, elem_of_bindings in Hv.
  specialize (Hv Hi). rewrite forallb_forall in Hv. specialize (Hv e).
  rewrite <-list_elem_of_In in Hv. specialize (Hv He).
  destruct e as [[j tv] tp]. simpl in *. unfold premise. simpl.
  destruct (p !! j) as [m|]; [|done].
  rewrite !andb_true_iff, !bool_decide_eq_true in Hv. destruct Hv as [[Hp Hl] Hr].
  exists m. split; [done|]. split; [done|]. intros t u Htu. split.
  - apply Hl, elem_of_map. by exists (t, u).
  - apply Hr, elem_of_map. by exists (t, u).
Qed.

Lemma valid_init p init : valid p init = true → init ∈ dom p.
Proof. intros [H _]%andb_true_iff. by apply bool_decide_eq_true in H. Qed.

(** *** The concrete loops refine the abstract ones *)

Section refinements.
Context (p : aproof) (init : Z) (Hfits : fits p) (Hvalid : valid p init = true).

Lemma fits_key i n : p !! i = Some n → Int_val i = i.
Proof. intros Hi. apply Int_val_id. exact (proj1 (Hfits i n Hi)). Qed.

Lemma fits_tag i n t : p !! i = Some n → t ∈ get_tags n → Int_val t = t.
Proof. intros Hi Ht. apply Int_val_id. exact (proj2 (Hfits i n Hi) t Ht). Qed.

Lemma create_vertices_refines :
  refines (for_each (bindings p) (λ b, create_vertex b.1))
    (afold (bindings p) (λ b, a_create_vertex b.1)).
Proof.
  apply refines_for_each. intros b Hb%elem_of_bindings.
  rewrite <-(fits_key b.1 b.2 Hb) at 2. apply create_vertex_refines.
Qed.

Lemma create_tags_refines :
  refines (for_each (bindings p) create_tags) (afold (bindings p) a_create_tags).
Proof.
  apply refines_for_each. intros b Hb%elem_of_bindings.
  apply refines_for_each. intros t Ht%elem_of_ints.
  rewrite <-(fits_key b.1 b.2 Hb) at 2. rewrite <-(fits_tag b.1 b.2 t Hb Ht) at 2.
  apply tag_vertex_refines.
Qed.

Lemma create_succs_refines :
  refines (for_each (bindings p) create_succs) (afold (bindings p) a_create_succs).
Proof.
  apply refines_for_each. intros b Hb%elem_of_bindings.
  apply refines_for_each. intros e He.
  destruct (valid_premise_spec p init b.1 b.2 e) as (m & Hm & _); [done..|].
  rewrite <-(fits_key b.1 b.2 Hb) at 2. rewrite <-(fits_key (premise e) m Hm) at 2.
  apply set_successor_refines.
Qed.

Lemma create_pairs_refines :
  refines (for_each (bindings p) create_trace_pairs) (afold (bindings p) a_create_pairs).
Proof.
  apply refines_for_each. intros b Hb%elem_of_bindings.
  apply refines_for_each. intros e He.
  destruct (valid_premise_spec p init b.1 b.2 e) as (m & Hm & Hsub & Htu); [done..|].
  apply refines_seq; apply refines_for_each; intros [t u] Hkm%elem_of_pairs; simpl;
    (destruct (Htu t u) as [Ht Hu]; [first [exact Hkm|exact (Hsub _ Hkm)]|]);
    rewrite <-(fits_key b.1 b.2 Hb) at 2; rewrite <-(fits_key (premise e) m Hm) at 2;
    rewrite <-(fits_tag b.1 b.2 t Hb Ht) at 2; rewrite <-(fits_tag (premise e) m u Hm Hu) at 2.
  - apply set_trace_pair_refines.
  - apply set_progress_pair_refines.
Qed.
End refinements.

(** *** What the abstract loops build *)

Lemma afold_fmap {A C} (h : A → C) (l : list A) (f : C → aspec → res aspec) a :
  afold l (λ x, f (h x)) a = afold (h <$> l) f a.
Proof. revert a. induction l as [|x l IH]; intros a; simpl; [done|]. by destruct (f (h x) a). Qed.

Lemma a_tag_vertex_ok i t a : i ∈ a_ids a → a_tag_vertex i t a = Ok (merge a (d_tag i t)).
Proof.
  intros Hi. unfold a_tag_vertex, a_guard. rewrite decide_True by done.
  unfold merge; simpl. do 2 f_equal; set_solver.
Qed.

Lemma a_set_successor_ok i j a :
  i ∈ a_ids a → j ∈ a_ids a → a_set_successor i j a = Ok (merge a (d_succ i j)).
Proof.
  intros Hi Hj. unfold a_set_successor, a_guard. rewrite decide_True by done.
  unfold merge; simpl. do 2 f_equal; set_solver.
Qed.

Lemma a_set_trace_pair_ok i j km a :
  a_pair_ok a i j km.1 km.2 →
  a_set_trace_pair i j km.1 km.2 a = Ok (merge a (d_trace i j km)).
Proof.
  intros Hok. unfold a_set_trace_pair, a_guard. rewrite decide_True by done.
  unfold merge; simpl. do 2 f_equal; set_solver.
Qed.

Lemma a_set_progress_pair_ok i j km a :
  a_pair_ok a i j km.1 km.2 →
  a_set_progress_pair i j km.1 km.2 a = Ok (merge a (d_prog i j km)).
Proof.
  intros Hok. unfold a_set_progress_pair, a_guard. rewrite decide_True by done.
  unfold merge; simpl. do 2 f_equal; set_solver.
Qed.

(** A session that has the proof's names, and then also its tags. *)
Definition has_ids (p : aproof) (a : aspec) : Prop := dom p ⊆ a_ids a.
Definition has_tags (p : aproof) (a : aspec) : Prop :=
  has_ids p a ∧ ∀ i n t, p !! i = Some n → t ∈ get_tags n → (i, t) ∈ a_tags a.

Lemma has_ids_merge p a d : has_ids p a → has_ids p (merge a d).
Proof. unfold has_ids. simpl. set_solver. Qed.

Lemma has_tags_merge p a d : has_tags p a → has_tags p (merge a d).
Proof.
  intros [Hi Ht]. split; [by apply has_ids_merge|]. intros i n t Hn Htn. simpl.
  apply elem_of_union_l. by eapply Ht.
Qed.

Lemma has_ids_key p a i n : has_ids p a → p !! i = Some n → i ∈ a_ids a.
Proof. intros Ha Hi. by apply Ha, elem_of_dom_2 with n. Qed.

Lemma load_tags p a :
  has_ids p a → afold (bindings p) a_create_tags a = Ok (merge a (delta d_tags (bindings p))).
Proof.
  intros Ha. apply (afold_merge (has_ids p)); [|done].
  intros b a' Hb%elem_of_bindings Ha'. split; [|by apply has_ids_merge].
  apply (afold_merge (has_ids p)); [|done]. intros t a'' _ Ha''.
  split; [|by apply has_ids_merge]. by apply a_tag_vertex_ok, (has_ids_key p a'' _ b.2).
Qed.

Lemma load_succs p init a :
  valid p init = true → has_ids p a →
  afold (bindings p) a_create_succs a = Ok (merge a (delta d_succs (bindings p))).
Proof.
  intros Hv Ha. apply (afold_merge (has_ids p)); [|done].
  intros b a' Hb%elem_of_bindings Ha'. split; [|by apply has_ids_merge].
  apply (afold_merge (has_ids p) (λ e, d_succ b.1 (premise e))); [|done].
  intros e a'' He Ha''. split; [|by apply has_ids_merge].
  destruct (valid_premise_spec p init b.1 b.2 e) as (m & Hm & _); [done..|].
  apply a_set_successor_ok; by eapply has_ids_key.
Qed.

Lemma load_edge p init a i n e :
  valid p init = true → has_tags p a → p !! i = Some n → e ∈ get_subg n →
  a_create_edge i e a = Ok (merge a (d_edge i e)).
Proof.
  intros Hv Ha Hi He. destruct (valid_premise_spec p init i n e) as (m & Hm & Hsub & Htu); [done..|].
  assert (∀ a' km, has_tags p a' → km ∈ e.1.2 → a_pair_ok a' i (premise e) km.1 km.2) as Hok.
  { intros a' [t u] [Hids Htags] Hkm. destruct (Htu t u Hkm) as [Ht Hu].
    split; split; first [by eapply has_ids_key|by eapply Htags]. }
  unfold a_create_edge, d_edge.
  edestruct (afold_merge (has_tags p) (d_trace i (premise e))
    (λ km, a_set_trace_pair i (premise e) km.1 km.2) (pairs e.1.2)) as [-> Ha1]; [|exact Ha|].
  { intros km a' Hkm%elem_of_pairs Ha'. split; [|by apply has_tags_merge].
    by apply a_set_trace_pair_ok, Hok. }
  rewrite <-merge_assoc. apply (afold_merge (has_tags p)); [|done].
  intros km a' Hkm%elem_of_pairs Ha'. split; [|by apply has_tags_merge].
  by apply a_set_progress_pair_ok, Hok, Hsub.
Qed.

Lemma load_pairs p init a :
  valid p init = true → has_tags p a →
  afold (bindings p) a_create_pairs a = Ok (merge a (delta d_pairs (bindings p))).
Proof.
  intros Hv Ha. apply (afold_merge (has_tags p)); [|done].
  intros b a' Hb%elem_of_bindings Ha'. split; [|by apply has_tags_merge].
  apply (afold_merge (has_tags p)); [|done]. intros e a'' He Ha''.
  split; [|by apply has_tags_merge]. by eapply load_edge.
Qed.

(** The session's contents once the proof is loaded. *)
Definition loaded (p : aproof) (init : Z) : aspec :=
  let a := merge (a_new (log2size (size p))) (delta d_ids (ints (dom p))) in
  let a := merge (merge a (delta d_tags (bindings p))) (delta d_succs (bindings p)) in
  merge (mkSpec (a_cap a) (a_ids a) (a_tags a) (a_succs a) (a_traces a) (a_progs a) (Some init))
    (delta d_pairs (bindings p)).

Lemma valid_size p init : valid p init = true → 1 ≤ size p.
Proof.
  intros Hv%valid_init%elem_of_dom. destruct Hv as [n Hn].
  destruct (size p) eqn:E; [|lia]. apply map_size_empty_inv in E as ->. by rewrite lookup_empty in Hn.
Qed.

Lemma load_vertices p init :
  valid p init = true → (Z.of_nat (size p) ≤ 2 ^ 28)%Z →
  let a := a_new (log2size (size p)) in
  afold (bindings p) (λ b, a_create_vertex b.1) a = Ok (merge a (delta d_ids (ints (dom p)))).
Proof.
  intros Hv Hsz a. rewrite (afold_fmap fst), bindings_keys. apply afold_create_vertices.
  - apply NoDup_ints.
  - intros i _. simpl. set_solver.
  - subst a. cbn [a_ids a_cap a_new]. rewrite size_empty, Nat.add_0_l. unfold ints.
    rewrite (Permutation_length (merge_sort_Permutation _ _)).
    change (length (elements (dom p))) with (size (dom p)). rewrite size_dom.
    by destruct (ceil_log2_spec (size p)) as [Hlt _]; [by eapply valid_size|done|].
Qed.

Lemma load_repr p init :
  valid p init = true → fits p → (Z.of_nat (size p) ≤ 2 ^ 28)%Z →
  ∃ g, (create_aut (Z.of_nat (log2size (size p))) ;;
        for_each (bindings p) (λ b, create_vertex b.1) ;;
        for_each (bindings p) create_tags ;;
        for_each (bindings p) create_succs ;;
        set_initial_vertex init ;;
        for_each (bindings p) create_trace_pairs) globals_init = Ok (tt, g)
     ∧ repr g (loaded p init).
Proof.
  intros Hv Hf Hsz. pose proof (valid_size p init Hv) as Hsz1.
  destruct (create_aut_repr (log2size (size p))) as (g0 & H0 & R0).
  { destruct (ceil_log2_spec (size p)) as [_ ?]; [done..|]. unfold log2size. lia. }
  rewrite (bind_Ok _ _ _ _ _ H0).
  destruct (refines_step _ _ _ _ _ (create_vertices_refines p Hf)
    (load_vertices p init Hv Hsz) R0) as (g1 & H1 & R1).
  rewrite (bind_Ok _ _ _ _ _ H1).
  set (a1 := merge _ _) in R1. assert (has_ids p a1) as Hi1.
  { intros i Hi. apply elem_of_union_r, elem_of_delta_ids, elem_of_ints. done. }
  destruct (refines_step _ _ _ _ _ (create_tags_refines p Hf)
    (load_tags p a1 Hi1) R1) as (g2 & H2 & R2).
  rewrite (bind_Ok _ _ _ _ _ H2).
  set (a2 := merge a1 _) in R2. assert (has_tags p a2) as Hi2.
  { split; [by apply has_ids_merge|]. intros i n t Hn Ht. apply elem_of_union_r.
    apply elem_of_delta_tags. exists (i, n). rewrite elem_of_bindings. split; [done|].
    apply elem_of_delta_tags. exists t. rewrite elem_of_ints. simpl. set_solver. }
  destruct (refines_step _ _ _ _ _ (create_succs_refines p init Hf Hv)
    (load_succs p init a2 Hv (proj1 Hi2)) R2) as (g3 & H3 & R3).
  rewrite (bind_Ok _ _ _ _ _ H3).
  set (a3 := merge a2 _) in R3. assert (has_tags p a3) as Hi3 by (by apply has_tags_merge).
  apply valid_init in Hv as Hinit. apply elem_of_dom in Hinit as [n Hn].
  assert (a_set_initial_vertex (Int_val init) a3 = Ok (mkSpec (a_cap a3) (a_ids a3)
    (a_tags a3) (a_succs a3) (a_traces a3) (a_progs a3) (Some init))) as Hai.
  { unfold a_set_initial_vertex, a_guard. rewrite (fits_key p Hf init n Hn).
    by rewrite decide_True by (by eapply has_ids_key, Hn; apply Hi3). }
  destruct (refines_step _ _ _ _ _ (set_initial_vertex_refines init) Hai R3) as (g4 & H4 & R4).
  rewrite (bind_Ok _ _ _ _ _ H4).
  exact (refines_step _ _ _ _ _ (create_pairs_refines p init Hf Hv)
    (load_pairs p init _ Hv (Hi3 : has_tags p (mkSpec _ _ _ _ _ _ (Some init)))) R4).
Qed.

Lemma loaded_succs p init z :
  z ∈ a_succs (loaded p init) ↔
  ∃ b e, b ∈ bindings p ∧ e ∈ get_subg b.2 ∧ z = (b.1, premise e).
Proof.
  unfold loaded; simpl. rewrite !elem_of_union, !elem_of_delta_succs.
  unfold d_tags, d_succs, d_pairs. repeat setoid_rewrite elem_of_delta_succs.
  unfold d_edge; simpl. setoid_rewrite elem_of_union.
  repeat setoid_rewrite elem_of_delta_succs. simpl. set_solver.
Qed.

Lemma loaded_traces p init z :
  z ∈ a_traces (loaded p init) ↔
  ∃ b e km, b ∈ bindings p ∧ e ∈ get_subg b.2 ∧ km ∈ e.1.2 ∧ z = (b.1, premise e, km.1, km.2).
Proof.
  unfold loaded; simpl. rewrite !elem_of_union, !elem_of_delta_traces.
  unfold d_tags, d_succs, d_pairs. repeat setoid_rewrite elem_of_delta_traces.
  unfold d_edge; simpl. setoid_rewrite elem_of_union.
  repeat setoid_rewrite elem_of_delta_traces. simpl. setoid_rewrite elem_of_pairs. set_solver.
Qed.

Lemma loaded_progs p init z :
  z ∈ a_progs (loaded p init) ↔
  ∃ b e km, b ∈ bindings p ∧ e ∈ get_subg b.2 ∧ km ∈ e.2 ∧ z = (b.1, premise e, km.1, km.2).
Proof.
  unfold loaded; simpl. rewrite !elem_of_union, !elem_of_delta_progs.
  unfold d_tags, d_succs, d_pairs. repeat setoid_rewrite elem_of_delta_progs.
  unfold d_edge; simpl. setoid_rewrite elem_of_union.
  repeat setoid_rewrite elem_of_delta_progs. simpl. setoid_rewrite elem_of_pairs. set_solver.
Qed.

Lemma loaded_graph p init : a_graph (loaded p init) init ≡ aproof_graph p init.
Proof.
  split_and!; [done|..]; cbn [tg_succ tg_trace tg_progress a_graph aproof_graph].
  - intros i j. rewrite loaded_succs. setoid_rewrite elem_of_bindings. split.
    + intros ([i' n] & e & Hn & He & [= -> ->]). by exists n, e.
    + intros (n & e & Hn & He & <-). by exists (i, n), e.
  - intros i j t u. rewrite loaded_traces. setoid_rewrite elem_of_bindings. split.
    + intros ([i' n] & e & [t' u'] & Hn & He & Hk & [= -> -> -> ->]). by exists n, e.
    + intros (n & e & Hn & He & <- & Hk). by exists (i, n), e, (t, u).
  - intros i j t u. rewrite loaded_progs. setoid_rewrite elem_of_bindings. split.
    + intros ([i' n] & e & [t' u'] & Hn & He & Hk & [= -> -> -> ->]). by exists n, e.
    + intros (n & e & Hn & He & <- & Hk). by exists (i, n), e, (t, u).
Qed.

(** Loading a valid proof never trips an assertion of the stubs, and the
    verdict is the global trace condition. *)
Lemma check_session_spec p init :
  valid p init = true → fits p → (Z.of_nat (size p) ≤ 2 ^ 28)%Z →
  ∃ b, check_session init p globals_init = Ok (b, globals_init) ∧
    (b = true ↔ gtc (aproof_graph p init)).
Proof.
  intros Hv Hf Hsz. destruct (load_repr p init) as (g & Hg & R); [done..|].
  destruct (check_soundness_spec g (loaded p init) init R) as (b & Hb & Hgtc); [done|].
  exists b. split; [|by rewrite Hgtc, loaded_graph].
  unfold check_session. repeat (apply bind_inv in Hg as (? & ? & ?H & Hg);
    erewrite bind_Ok by done).
  rewrite (bind_Ok _ _ _ _ _ Hg), (bind_Ok _ _ _ _ _ Hb).
  by rewrite (bind_Ok _ _ _ _ _ (destroy_aut_run _ _ R)).
Qed.
End correctness.
