(* ===== verification/Minimize.v ===== *)
(** * Minimisation and caching: [src/generic/soundcheck.ml]

    Before it loads a proof the client shrinks it: it removes leaves other than
    node 0 until none is left ([remove_dead_nodes]), then fuses nodes with one
    premise into their parents ([fuse_single_nodes]).  The verdict of the
    minimised proof is kept in a cache.  The [while] loops run with fuel; every
    iteration removes a node, so the size of the proof is enough. *)

From S2P Require Import Prelude Spot ProofGraph Gtc ProofAut Trace.
From S2P Require Import Soundness SoundnessSpec Soundcheck.

(** ** Queries *)

Definition index_of_child (child : Z) (n : abstract_node) : option nat :=
  fst <$> list_find (λ e, premise e = child) (get_subg n).

(** Has one child and is not a self loop. *)
Definition is_single_node (idx : Z) (n : abstract_node) : bool :=
  match get_subg n with
  | [e] => bool_decide (premise e ≠ idx)
  | _ => false
  end.

Definition fathers_grandchild (prf : aproof) (idx : Z) (n : abstract_node) : res bool :=
  match get_subg n with
  | [e] =>
    if decide (idx = premise e) then Err EInvalidArg
    else Ok (existsb (λ b, in_children idx b.2 && in_children (premise e) b.2) (bindings prf))
  | _ => Err EInvalidArg
  end.

(** [Int.Map.find_map]: the first binding that satisfies a test. *)
Fixpoint find_first (f : Z → abstract_node → res bool) (l : list (Z * abstract_node)) :
    res (option (Z * abstract_node)) :=
  match l with
  | [] => Ok None
  | b :: l =>
    match f b.1 b.2 with
    | Ok true => Ok (Some b)
    | Ok false => find_first f l
    | Err e => Err e
    end
  end.

Definition find_map (f : Z → abstract_node → res bool) (prf : aproof) :
    res (option (Z * abstract_node)) := find_first f (bindings prf).

(** ** Dead nodes *)

(** [process_node]: drop the first premise [child] of the parent. *)
Definition drop_child (child : Z) (prf : aproof) (b : Z * abstract_node) : aproof :=
  if in_children child b.2 then
    let '(tags, subg) := b.2 in
    let newparent :=
      match subg with
      | [_] => (tags, [])
      | _ => (tags, match index_of_child child b.2 with
                    | Some k => delete k subg
                    | None => subg
                    end)
      end in
    <[b.1 := newparent]> prf
  else prf.

Definition remove_dead_node (idx : Z) (prf : aproof) : aproof :=
  let prf := delete idx prf in
  foldl (drop_child idx) prf (bindings prf).

Definition is_dead (idx : Z) (n : abstract_node) : res bool :=
  Ok (bool_decide (idx ≠ 0%Z) && is_leaf n).

Fixpoint remove_dead_loop (fuel : nat) (prf : aproof) : res aproof :=
  match find_map is_dead prf with
  | Err e => Err e
  | Ok None => Ok prf
  | Ok (Some (idx, _)) =>
    match fuel with
    | O => Err EFuel
    | S fuel => remove_dead_loop fuel (remove_dead_node idx prf)
    end
  end.

Definition remove_dead_nodes (prf : aproof) : res aproof := remove_dead_loop (size prf) prf.

(** ** Single nodes *)

(** [process_node]: redirect the parent's premise [child] to [grand_child]. *)
Definition fuse_parent (child grand_child : Z) (tv tp : tagpairs)
    (prf : aproof) (b : Z * abstract_node) : aproof :=
  if in_children child b.2 then
    let '(par_tags, par_subg) := b.2 in
    match index_of_child child b.2 with
    | None => prf
    | Some pos =>
      match par_subg !! pos with
      | None => prf
      | Some (_, par_tv, par_tp) =>
        let newsubg :=
          <[pos := (grand_child, compose par_tv tv,
                    compose par_tp tp ∪ compose par_tv tp ∪ compose par_tp tv)]> par_subg in
        <[b.1 := (par_tags, newsubg)]> prf
      end
    end
  else prf.

Definition fuse_node (idx : Z) (n : abstract_node) (prf : aproof) : res aproof :=
  match get_subg n with
  | [(child, tv, tp)] =>
    Ok (delete idx (foldl (fuse_parent idx child tv tp) prf (bindings prf)))
  | _ => Err EInvalidArg
  end.

(** The node may be fused: it is not the root, has one child, and no parent of
    it points to that child already. *)
Definition fusable (prf : aproof) (init : Z) (idx : Z) (n : abstract_node) : res bool :=
  if decide (idx = init) then Ok false
  else if negb (is_single_node idx n) then Ok false
  else match fathers_grandchild prf idx n with
       | Ok b => Ok (negb b)
       | Err e => Err e
       end.

Fixpoint fuse_loop (fuel : nat) (prf : aproof) (init : Z) : res aproof :=
  match find_map (fusable prf init) prf with
  | Err e => Err e
  | Ok None => Ok prf
  | Ok (Some (idx, n)) =>
    match fuel with
    | O => Err EFuel
    | S fuel =>
      match fuse_node idx n prf with
      | Ok prf => fuse_loop fuel prf init
      | Err e => Err e
      end
    end
  end.

Definition fuse_single_nodes (prf : aproof) (init : Z) : res aproof :=
  fuse_loop (size prf) prf init.

Definition minimize_abs_proof (prf : aproof) (init : Z) : res aproof :=
  match remove_dead_nodes prf with
  | Ok prf => fuse_single_nodes prf init
  | Err e => Err e
  end.

(** ** The cached check *)

(** The structural equality by which [Hashtbl.find] compares keys.  The keys are
    balanced trees, so two trees of one map may differ: equal trees hold equal
    maps, and the converse is left open. *)
Class TreeEq := { tree_eq : aproof → aproof → bool }.

Class TreeEqLaws (T : TreeEq) : Prop := {
  tree_eq_sound p q : tree_eq p q = true → p = q;
}.

#[global] Instance map_tree_eq : TreeEq := {| tree_eq p q := bool_decide (p = q) |}.

#[global] Instance map_tree_eq_laws : TreeEqLaws map_tree_eq.
Proof. split. intros p q. apply bool_decide_eq_true_1. Qed.

Section checker.
Context {B : Bdd} {D : BddDict} {HO : HashOrder} {G : SpotAlgos B} {F : FloatLog} {T : TreeEq}.

(** The stubs' globals and [ccache], whose most recent binding comes first. *)
Record checker := mkChecker {
  globals : Globals;
  ccache : list (aproof * bool);
}.

(** Runs the stubs on the checker's globals. *)
Definition with_globals {A} (m : M Globals A) : M checker A := λ c,
  match m (globals c) with
  | Ok (a, g) => Ok (a, mkChecker g (ccache c))
  | Err e => Err e
  end.

Definition cache_find (prf : aproof) (l : list (aproof * bool)) : option bool :=
  (λ x, x.2.2) <$> list_find (λ e, tree_eq prf e.1) l.

Definition check_proof (init : Z) (prf : aproof) : M checker bool :=
  if decide (prf = ∅) then mret true
  else
    assert (valid prf init) ;;
    aprf ← lift (minimize_abs_proof prf init);
    if decide (aprf = ∅) then mret true
    else
      assert (valid aprf init) ;;
      cache ← gets ccache;
      match cache_find aprf cache with
      | Some r => mret r
      | None =>
        r ← with_globals (check_session init aprf);
        modify (λ c, mkChecker (globals c) ((aprf, r) :: ccache c)) ;;
        mret r
      end.
End checker.
