(* ===== verification/MinimizeProofs.v ===== *)
(** * Minimisation keeps the verdict

    On proofs whose nodes have distinct premises, each step of
    [remove_dead_nodes] is a pruning and each step of [fuse_single_nodes] a
    fusion in the sense of [GtcReduce]; validity is kept, and the loops stop
    within the size of the proof. *)

From S2P Require Import Prelude Spot ProofGraph Gtc GtcReduce ProofAut.
From S2P Require Import Trace Soundness SoundnessSpec Soundcheck Minimize.

(** ** Edges *)

(** Node [i] has the premise [e]. *)
Definition has_edge (p : aproof) (i : Z) (e : Z * tagpairs * tagpairs) : Prop :=
  ∃ n, p !! i = Some n ∧ e ∈ get_subg n.

(** No node lists a premise twice. *)
Definition distinct (p : aproof) : Prop :=
  map_Forall (λ _ n, NoDup (premise <$> get_subg n)) p.

#[global] Instance distinct_dec p : Decision (distinct p).
Proof. unfold distinct. apply _. Defined.

Lemma graph_succ p init i j :
  tg_succ (aproof_graph p init) i j ↔ ∃ e, has_edge p i e ∧ premise e = j.
Proof. simpl. unfold has_edge. naive_solver. Qed.

Lemma graph_trace p init i j t u :
  tg_trace (aproof_graph p init) i j t u ↔
  ∃ e, has_edge p i e ∧ premise e = j ∧ (t, u) ∈ e.1.2.
Proof. simpl. unfold has_edge. naive_solver. Qed.

Lemma graph_progress p init i j t u :
  tg_progress (aproof_graph p init) i j t u ↔
  ∃ e, has_edge p i e ∧ premise e = j ∧ (t, u) ∈ e.2.
Proof. simpl. unfold has_edge. naive_solver. Qed.

Lemma in_children_spec c n : in_children c n = true ↔ ∃ e, e ∈ get_subg n ∧ premise e = c.
Proof.
  unfold in_children. rewrite existsb_exists. setoid_rewrite <-list_elem_of_In.
  by setoid_rewrite bool_decide_eq_true.
Qed.

Lemma elem_of_compose t1 t2 x z :
  (x, z) ∈ compose t1 t2 ↔ ∃ y, (x, y) ∈ t1 ∧ (y, z) ∈ t2.
Proof.
  unfold compose. setoid_rewrite <-(elem_of_pairs t1). setoid_rewrite <-(elem_of_pairs t2).
  generalize (pairs t1) as l1, (pairs t2) as l2. intros l1 l2.
  assert (∀ p (a : tagpairs), (x, z) ∈ foldl (λ b wz,
      if decide (p.2 = wz.1) then {[(p.1, wz.2)]} ∪ b else b) a l2
    ↔ (x, z) ∈ a ∨ (p.1 = x ∧ (p.2, z) ∈ l2)) as Hin.
  { intros [p1 p2]. induction l2 as [|[w v] l2 IH]; intros a; simpl; [set_solver|].
    rewrite IH. case_decide; set_solver. }
  trans ((x, z) ∈ (∅ : tagpairs) ∨ ∃ y, (x, y) ∈ l1 ∧ (y, z) ∈ l2); [|set_solver].
  generalize (∅ : tagpairs) as a. induction l1 as [|[p1 p2] l1 IH]; intros a; simpl.
  - set_solver.
  - pose proof (Hin (p1, p2) a) as Ha. simpl in Ha. rewrite IH, Ha. set_solver.
Qed.

(** The conditions on a valid proof, as one rule per premise. *)
Lemma valid_intro p init :
  init ∈ dom p →
  (∀ i n e, p !! i = Some n → e ∈ get_subg n →
     ∃ m, p !! premise e = Some m ∧ e.2 ⊆ e.1.2 ∧
       ∀ t u, (t, u) ∈ e.1.2 → t ∈ get_tags n ∧ u ∈ get_tags m) →
  valid p init = true.
Proof.
  intros Hi H. apply andb_true_iff. split; [by apply bool_decide_eq_true|].
  apply forallb_forall. intros [i n] Hin%list_elem_of_In%elem_of_bindings. simpl in *.
  apply forallb_forall. intros [[j tv] tp] He%list_elem_of_In.
  destruct (H i n _ Hin He) as (m & Hm & Hsub & Ht). unfold premise in Hm. simpl in *.
  rewrite Hm, !andb_true_iff, !bool_decide_eq_true. split; [split; [done|]|].
  - intros t ([t' u] & -> & Htu)%elem_of_map. by apply (Ht t' u).
  - intros u ([t u'] & -> & Htu)%elem_of_map. by apply (Ht t u').
Qed.

(** ** Rewriting all nodes *)

(** An iteration over the bindings that updates each node in place. *)
Lemma foldl_update (f : abstract_node → abstract_node)
    (step : aproof → Z * abstract_node → aproof) l m :
  (∀ m b, m !! b.1 = Some b.2 → step m b = <[b.1 := f b.2]> m) →
  NoDup l.*1 → (∀ b, b ∈ l → m !! b.1 = Some b.2) →
  ∀ i, foldl step m l !! i = if decide (i ∈ l.*1) then f <$> m !! i else m !! i.
Proof.
  intros Hstep. revert m. induction l as [|[j n] l IH]; intros m Hnd Hl i; [done|].
  cbn [foldl fmap list_fmap fst] in *.
  apply NoDup_cons in Hnd as [Hj Hnd].
  assert (m !! j = Some n) as Hjn by (by apply (Hl (j, n)); left).
  rewrite Hstep by done. rewrite IH; [|done|].
  - simpl. destruct (decide (i = j)) as [->|Hne].
    + rewrite decide_False by done. rewrite decide_True by (by left).
      by rewrite lookup_insert_eq, Hjn.
    + rewrite lookup_insert_ne by done.
      destruct (decide (i ∈ l.*1)); [by rewrite decide_True by (by right)|].
      by rewrite decide_False by set_solver.
  - intros [k n'] Hk. simpl. rewrite lookup_insert_ne; [by apply (Hl (k, n')); right|].
    intros ->. apply Hj, list_elem_of_fmap. by exists (k, n').
Qed.

Lemma foldl_bindings (f : abstract_node → abstract_node)
    (step : aproof → Z * abstract_node → aproof) m :
  (∀ m b, m !! b.1 = Some b.2 → step m b = <[b.1 := f b.2]> m) →
  foldl step m (bindings m) = f <$> m.
Proof.
  intros Hstep. apply map_eq. intros i. rewrite lookup_fmap.
  rewrite (foldl_update f) by (done || (rewrite bindings_keys; apply NoDup_ints) ||
    (intros b; apply elem_of_bindings)).
  case_decide as Hi; [done|]. rewrite bindings_keys, elem_of_ints, elem_of_dom in Hi.
  destruct (m !! i); [|done]. exfalso. by apply Hi.
Qed.

(** The first premise with a given index, on a list without repetitions. *)
Lemma index_of_child_some c n :
  in_children c n = true →
  ∃ k e, index_of_child c n = Some k ∧ get_subg n !! k = Some e ∧ premise e = c.
Proof.
  intros (e & He & Hc)%in_children_spec. unfold index_of_child.
  destruct (list_find_elem_of (λ e, premise e = c) (get_subg n) e He Hc) as [[k e'] Hk].
  rewrite Hk. apply list_find_Some in Hk as (? & ? & _). by exists k, e'.
Qed.

(** Positions of a list with distinct keys. *)
Lemma distinct_key {A K} (f : A → K) (l : list A) i j x y :
  NoDup (f <$> l) → l !! i = Some x → l !! j = Some y → f x = f y → i = j.
Proof.
  intros Hnd Hx Hy Hf. eapply NoDup_lookup; [exact Hnd|..]; rewrite list_lookup_fmap.
  - by rewrite Hx.
  - rewrite Hy. simpl. by f_equal.
Qed.

Lemma elem_of_delete_key {A K} (f : A → K) (l : list A) k x y :
  NoDup (f <$> l) → l !! k = Some x → y ∈ delete k l ↔ y ∈ l ∧ f y ≠ f x.
Proof.
  intros Hnd Hk. rewrite (delete_take_drop l k), elem_of_app.
  rewrite <-(take_drop_middle l k x Hk) in Hnd |- * at 3.
  rewrite fmap_app, fmap_cons, NoDup_app, NoDup_cons in Hnd.
  destruct Hnd as (_ & Hl & Hr & _). rewrite elem_of_app, elem_of_cons. split.
  - intros [Hy|Hy]; (split; [tauto|]); intros Heq.
    + apply (Hl (f y)); [by apply list_elem_of_fmap_2|rewrite Heq; by left].
    + apply Hr. rewrite <-Heq. by apply list_elem_of_fmap_2.
  - intros [[?|[->|?]] Hne]; tauto.
Qed.

(** ** Removing a leaf *)

(** What [drop_child] makes of one node. *)
Definition drop_node (c : Z) (n : abstract_node) : abstract_node :=
  if in_children c n then
    (get_tags n, match get_subg n with
                 | [_] => []
                 | _ => match index_of_child c n with
                        | Some k => delete k (get_subg n)
                        | None => get_subg n
                        end
                 end)
  else n.

Lemma drop_child_step c m b :
  m !! b.1 = Some b.2 → drop_child c m b = <[b.1 := drop_node c b.2]> m.
Proof.
  intros Hb. unfold drop_child, drop_node. destruct (in_children c b.2); [|by rewrite insert_id].
  destruct b as [i [tags subg]]. simpl. by destruct subg as [|? []].
Qed.

Lemma remove_dead_node_eq idx p : remove_dead_node idx p = drop_node idx <$> delete idx p.
Proof. apply foldl_bindings, drop_child_step. Qed.

Lemma drop_node_tags c n : get_tags (drop_node c n) = get_tags n.
Proof. unfold drop_node. by destruct (in_children c n). Qed.

Lemma drop_node_subg c n :
  NoDup (premise <$> get_subg n) →
  (∀ e, e ∈ get_subg (drop_node c n) ↔ e ∈ get_subg n ∧ premise e ≠ c) ∧
  NoDup (premise <$> get_subg (drop_node c n)).
Proof.
  intros Hnd. unfold drop_node. destruct (in_children c n) eqn:E.
  - destruct (index_of_child_some c n E) as (k & x & -> & Hk & Hc). subst c.
    assert (get_subg (get_tags n, delete k (get_subg n)) = match get_subg n with
      | [_] => [] | _ => delete k (get_subg n) end) as Heq.
    { simpl. destruct (get_subg n) as [|y [|? ?]]; [done| |done]. by destruct k. }
    simpl in *. rewrite <-Heq. split.
    + intros e. by rewrite (elem_of_delete_key premise _ _ _ _ Hnd Hk).
    + eapply sublist_NoDup; [exact Hnd|]. apply fmap_sublist, sublist_delete.
  - split; [|done]. intros e. split; [|tauto]. intros He. split; [done|]. intros <-.
    apply not_true_iff_false in E. apply E, in_children_spec. eauto.
Qed.

Lemma remove_dead_edges idx p i e :
  distinct p →
  has_edge (remove_dead_node idx p) i e ↔ i ≠ idx ∧ has_edge p i e ∧ premise e ≠ idx.
Proof.
  intros Hd. rewrite remove_dead_node_eq. unfold has_edge.
  setoid_rewrite lookup_fmap_Some. setoid_rewrite lookup_delete_Some. split.
  - intros (n' & (n & <- & Hi & Hn) & He).
    apply (drop_node_subg idx n (Hd i n Hn)) in He. naive_solver.
  - intros (Hi & (n & Hn & He) & Hne). exists (drop_node idx n). split; [by exists n|].
    by apply (drop_node_subg idx n (Hd i n Hn)).
Qed.

Lemma remove_dead_distinct idx p : distinct p → distinct (remove_dead_node idx p).
Proof.
  intros Hd i n'. rewrite remove_dead_node_eq, lookup_fmap_Some.
  intros (n & <- & [_ Hn]%lookup_delete_Some). by apply drop_node_subg, (Hd i n).
Qed.

Lemma remove_dead_dom idx p : dom (remove_dead_node idx p) = dom p ∖ {[idx]}.
Proof. by rewrite remove_dead_node_eq, dom_fmap_L, dom_delete_L. Qed.

Lemma remove_dead_valid idx p init :
  distinct p → valid p init = true → init ≠ idx → valid (remove_dead_node idx p) init = true.
Proof.
  intros Hd Hv Hne. apply valid_intro.
  { rewrite remove_dead_dom. apply valid_init in Hv. set_solver. }
  intros i n' e. rewrite remove_dead_node_eq, lookup_fmap_Some.
  intros (n & <- & [_ Hn]%lookup_delete_Some) He.
  apply (drop_node_subg idx n (Hd i n Hn)) in He as [He Hne'].
  destruct (valid_premise_spec p init i n e Hv Hn He) as (m & Hm & Hsub & Ht).
  exists (drop_node idx m). rewrite lookup_fmap, lookup_delete_ne, Hm by done.
  by rewrite !drop_node_tags.
Qed.

Lemma remove_dead_pruned idx n p init :
  distinct p → p !! idx = Some n → get_subg n = [] →
  pruned (aproof_graph p init) (aproof_graph (remove_dead_node idx p) init) idx.
Proof.
  intros Hd Hn Hleaf.
  assert (∀ e, ¬ has_edge p idx e) as Hno.
  { intros e (n' & Hn' & He). simplify_eq. rewrite Hleaf in He. by apply elem_of_nil in He. }
  split.
  - done.
  - intros v. rewrite graph_succ. intros (e & He & _). by apply (Hno e).
  - intros v w. rewrite !graph_succ. setoid_rewrite remove_dead_edges; [|done]. split.
    + naive_solver.
    + intros [(e & He & <-) Hw]. exists e. split; [|done]. split; [|done].
      intros ->. by apply (Hno e).
  - intros v w t u Hw. rewrite !graph_trace. setoid_rewrite remove_dead_edges; [|done]. split.
    + naive_solver.
    + intros (e & He & <- & Ht). exists e. split; [|done]. split; [|done].
      intros ->. by apply (Hno e).
  - intros v w t u Hw. rewrite !graph_progress. setoid_rewrite remove_dead_edges; [|done]. split.
    + naive_solver.
    + intros (e & He & <- & Ht). exists e. split; [|done]. split; [|done].
      intros ->. by apply (Hno e).
Qed.

(** ** Fusing a node *)

Lemma elem_of_insert_key {A K} (f : A → K) (l : list A) k x y z :
  NoDup (f <$> l) → l !! k = Some x → z ∈ <[k := y]> l ↔ z = y ∨ (z ∈ l ∧ f z ≠ f x).
Proof.
  intros Hnd Hk. rewrite <-(elem_of_delete_key f l k x z Hnd Hk).
  rewrite (delete_take_drop l k), elem_of_app.
  rewrite insert_take_drop by (by eapply lookup_lt_Some).
  rewrite elem_of_app, elem_of_cons. tauto.
Qed.

Lemma NoDup_insert_new {A} (l : list A) k x : NoDup l → x ∉ l → NoDup (<[k := x]> l).
Proof.
  intros Hnd Hx. destruct (decide (k < length l)) as [Hk|Hk].
  - destruct (lookup_lt_is_Some_2 l k Hk) as [y Hy]. rewrite insert_take_drop by done.
    rewrite <-(take_drop_middle l k y Hy) in Hnd, Hx.
    rewrite NoDup_app, NoDup_cons in *. set_solver.
  - by rewrite list_insert_ge by lia.
Qed.

Section fuse_one.
Context (idx c : Z) (tv tp : tagpairs).

Definition fuse_edge (e : Z * tagpairs * tagpairs) : Z * tagpairs * tagpairs :=
  (c, compose e.1.2 tv, compose e.2 tp ∪ compose e.1.2 tp ∪ compose e.2 tv).

Definition fuse_one (n : abstract_node) : abstract_node :=
  if in_children idx n then
    match index_of_child idx n with
    | Some k => match get_subg n !! k with
                | Some e => (get_tags n, <[k := fuse_edge e]> (get_subg n))
                | None => n
                end
    | None => n
    end
  else n.

Lemma fuse_parent_step m b :
  m !! b.1 = Some b.2 → fuse_parent idx c tv tp m b = <[b.1 := fuse_one b.2]> m.
Proof.
  intros Hb. unfold fuse_parent, fuse_one.
  destruct (in_children idx b.2) eqn:E; [|by rewrite insert_id].
  destruct (index_of_child_some idx b.2 E) as (k & e & Hk & He & _).
  destruct b as [i [tags subg]]. simpl in *. rewrite Hk, He. by destruct e as [[? ?] ?].
Qed.

Lemma fuse_node_eq n p :
  get_subg n = [(c, tv, tp)] → fuse_node idx n p = Ok (delete idx (fuse_one <$> p)).
Proof.
  intros Hn. unfold fuse_node. rewrite Hn. by rewrite (foldl_bindings fuse_one) by apply fuse_parent_step.
Qed.

Lemma fuse_one_tags n : get_tags (fuse_one n) = get_tags n.
Proof.
  unfold fuse_one. destruct (in_children idx n), (index_of_child idx n) as [k|]; try done.
  by destruct (get_subg n !! k).
Qed.

Lemma fuse_one_subg n :
  NoDup (premise <$> get_subg n) → in_children idx n && in_children c n = false →
  (∀ e, e ∈ get_subg (fuse_one n) ↔ (e ∈ get_subg n ∧ premise e ≠ idx) ∨
     ∃ e', e' ∈ get_subg n ∧ premise e' = idx ∧ e = fuse_edge e') ∧
  NoDup (premise <$> get_subg (fuse_one n)).
Proof.
  intros Hnd Hg. unfold fuse_one. destruct (in_children idx n) eqn:E.
  - destruct (index_of_child_some idx n E) as (k & x & -> & Hk & Hx). rewrite Hk. simpl in *.
    split.
    + intros e. rewrite (elem_of_insert_key premise _ _ _ _ _ Hnd Hk), Hx. split.
      * intros [->|?]; [|by left]. right. exists x. split; [by eapply list_elem_of_lookup_2|done].
      * intros [?|(e' & He' & Hi & ->)]; [by right|]. left.
        apply list_elem_of_lookup in He' as [j Hj].
        assert (j = k) as -> by (eapply (distinct_key premise); [done|done|done|congruence]).
        by simplify_eq.
    + rewrite list_fmap_insert. apply NoDup_insert_new; [done|]. simpl.
      intros (e & He & Hin)%list_elem_of_fmap. apply not_true_iff_false in Hg.
      apply Hg, in_children_spec. eauto.
  - split; [|done]. apply not_true_iff_false in E. intros e. split.
    + intros He. left. split; [done|]. intros Hi. apply E, in_children_spec. eauto.
    + intros [[? _]|(e' & He' & Hi & _)]; [done|]. exfalso. apply E, in_children_spec. eauto.
Qed.

Context (nd : abstract_node) (p : aproof) (init : Z).
Context (Hd : distinct p) (Hv : valid p init = true).
Context (Hidx : p !! idx = Some nd) (Hone : get_subg nd = [(c, tv, tp)]).
Context (Hc : c ≠ idx) (Hinit : init ≠ idx).
Context (Hpar : ∀ i n, p !! i = Some n → in_children idx n && in_children c n = false).

Definition fuse_result : aproof := delete idx (fuse_one <$> p).

Lemma fuse_result_lookup i n' :
  fuse_result !! i = Some n' ↔ i ≠ idx ∧ ∃ n, p !! i = Some n ∧ n' = fuse_one n.
Proof.
  unfold fuse_result. rewrite lookup_delete_Some, lookup_fmap_Some. naive_solver.
Qed.

Lemma fuse_edges i e :
  has_edge fuse_result i e ↔
  i ≠ idx ∧ ((has_edge p i e ∧ premise e ≠ idx) ∨
             ∃ e', has_edge p i e' ∧ premise e' = idx ∧ e = fuse_edge e').
Proof.
  unfold has_edge. setoid_rewrite fuse_result_lookup. split.
  - intros (n' & (Hi & n & Hn & ->) & He).
    apply (fuse_one_subg n (Hd i n Hn) (Hpar i n Hn)) in He. naive_solver.
  - intros (Hi & Hcases). assert (∃ n, p !! i = Some n) as [n Hn] by naive_solver.
    exists (fuse_one n). split; [eauto|]. apply (fuse_one_subg n (Hd i n Hn) (Hpar i n Hn)).
    naive_solver.
Qed.

Lemma fuse_distinct : distinct fuse_result.
Proof.
  intros i n' (_ & n & Hn & ->)%fuse_result_lookup.
  by apply fuse_one_subg; [apply (Hd i n)|apply (Hpar i n)].
Qed.

Lemma fuse_dom : dom fuse_result = dom p ∖ {[idx]}.
Proof. unfold fuse_result. by rewrite dom_delete_L, dom_fmap_L. Qed.

Lemma fuse_valid : valid fuse_result init = true.
Proof.
  apply valid_intro; [rewrite fuse_dom; apply valid_init in Hv; set_solver|].
  intros i n' e (Hi & n & Hn & ->)%fuse_result_lookup He. rewrite fuse_one_tags.
  assert (∀ j m, j ≠ idx → p !! j = Some m → fuse_result !! j = Some (fuse_one m)) as Hlk.
  { intros j m Hj Hm. apply fuse_result_lookup. eauto. }
  apply (fuse_one_subg n (Hd i n Hn) (Hpar i n Hn)) in He as [[He Hne]|(e' & He' & Hi' & ->)].
  - destruct (valid_premise_spec p init i n e Hv Hn He) as (m & Hm & Hsub & Ht).
    exists (fuse_one m). rewrite fuse_one_tags. split; [by apply Hlk|done].
  - destruct (valid_premise_spec p init i n e' Hv Hn He') as (m & Hm & Hsub & Ht).
    rewrite Hi', Hidx in Hm. simplify_eq.
    destruct (valid_premise_spec p init idx _ (c, tv, tp) Hv Hidx) as (mc & Hmc & Hsubc & Htc).
    { rewrite Hone. by left. }
    unfold premise in *. simpl in *. exists (fuse_one mc). rewrite fuse_one_tags.
    split; [by apply Hlk|]. split.
    + intros [t u]. rewrite !elem_of_union, !elem_of_compose. set_solver.
    + intros t u (y & Hy1 & Hy2)%elem_of_compose. split; [by eapply Ht|by eapply Htc].
Qed.

Lemma idx_edge e : has_edge p idx e ↔ e = (c, tv, tp).
Proof.
  unfold has_edge. rewrite Hidx. split.
  - intros (n & [= <-] & He). rewrite Hone in He. by apply list_elem_of_singleton in He.
  - intros ->. exists nd. split; [done|]. rewrite Hone. by left.
Qed.

Lemma no_triangle i e e' : has_edge p i e → has_edge p i e' → premise e = idx → premise e' ≠ c.
Proof.
  intros (n & Hn & He) (n' & Hn' & He') Hi Hc'. simplify_eq.
  pose proof (Hpar i n Hn) as Ht. apply not_true_iff_false in Ht. apply Ht.
  rewrite andb_true_iff, !in_children_spec. split; eauto.
Qed.

Lemma edge_sub i e t u : has_edge p i e → (t, u) ∈ e.2 → (t, u) ∈ e.1.2.
Proof.
  intros (n & Hn & He). destruct (valid_premise_spec p init i n e Hv Hn He) as (_ & _ & Hs & _).
  apply Hs.
Qed.

Lemma fuse_trace_via v t u e0 :
  v ≠ idx → has_edge p v e0 → premise e0 = idx →
  tg_trace (aproof_graph fuse_result init) v c t u ↔
  ∃ y, tg_trace (aproof_graph p init) v idx t y ∧ tg_trace (aproof_graph p init) idx c y u.
Proof.
  intros Hi He0 Hx0. setoid_rewrite graph_trace.
  setoid_rewrite fuse_edges. setoid_rewrite idx_edge. split.
  - intros (e & (_ & [[He Hne]|(e' & He' & Hi' & ->)]) & Hec & Ht).
    { by destruct (no_triangle v e0 e). }
    apply elem_of_compose in Ht as (y & ? & ?). exists y. split; [by exists e'|].
    by exists (c, tv, tp).
  - intros (y & (e & He & Hx & Hy) & (e' & -> & _ & Hu)). exists (fuse_edge e).
    split; [naive_solver|]. split; [done|]. apply elem_of_compose. by exists y.
Qed.

Lemma fuse_progress_via v t u e0 :
  v ≠ idx → has_edge p v e0 → premise e0 = idx →
  tg_progress (aproof_graph fuse_result init) v c t u ↔
  ∃ y, tg_trace (aproof_graph p init) v idx t y ∧ tg_trace (aproof_graph p init) idx c y u ∧
    (tg_progress (aproof_graph p init) v idx t y ∨ tg_progress (aproof_graph p init) idx c y u).
Proof.
  intros Hi He0 Hx0. setoid_rewrite graph_progress.
  setoid_rewrite graph_trace. setoid_rewrite fuse_edges. setoid_rewrite idx_edge. split.
  - intros (e & (_ & [[He Hne]|(e' & He' & Hi' & ->)]) & Hec & Ht).
    { by destruct (no_triangle v e0 e). }
    pose proof (λ t u, edge_sub v e' t u He') as Hs.
    pose proof (λ t u, edge_sub idx _ t u (proj2 (idx_edge _) eq_refl)) as Hs'.
    simpl in Ht, Hs'. rewrite !elem_of_union, !elem_of_compose in Ht.
    destruct Ht as [[(y & Hy & Hu)|(y & Hy & Hu)]|(y & Hy & Hu)]; exists y;
      (split; [exists e'; auto|]); (split; [exists (c, tv, tp); auto|]).
    + left. by exists e'.
    + right. by exists (c, tv, tp).
    + left. by exists e'.
  - intros (y & (e & He & Hx & Hy) & (e' & -> & _ & Hu) & Hp). simpl in Hu.
    destruct Hp as [(e1 & He1 & Hx1 & Hp)|(e1 & -> & _ & Hp)].
    + exists (fuse_edge e1). split; [naive_solver|]. split; [done|]. simpl.
      rewrite !elem_of_union, !elem_of_compose. right. by exists y.
    + exists (fuse_edge e). split; [naive_solver|]. split; [done|]. simpl in *.
      rewrite !elem_of_union, !elem_of_compose. left. right. by exists y.
Qed.

Lemma fuse_fused : fused (aproof_graph p init) (aproof_graph fuse_result init) idx c.
Proof.
  assert (∀ v, via (aproof_graph p init) idx c v c ↔ ∃ e, has_edge p v e ∧ premise e = idx)
    as Hvia.
  { intros v. unfold via. rewrite graph_succ. tauto. }
  split; [done|done|done|..].
  - intros w. rewrite graph_succ. setoid_rewrite idx_edge. naive_solver.
  - intros v. rewrite !graph_succ. intros (e & He & Hi) (e' & He' & Hc').
    by apply (no_triangle v e e').
  - intros v w. unfold via. rewrite !graph_succ. setoid_rewrite fuse_edges. split.
    + intros (e & (Hi & [[He Hne]|(e' & He' & Hi' & ->)]) & <-); naive_solver.
    + intros (Hi & Hw & [(e & He & <-)|[-> (e & He & Hx)]]); [naive_solver|].
      exists (fuse_edge e). naive_solver.
  - intros v w t u Hi Hw Hnv. rewrite !graph_trace. setoid_rewrite fuse_edges. split.
    + intros (e & (_ & [[He Hne]|(e' & He' & Hi' & ->)]) & <- & Ht); [eauto|].
      exfalso. apply Hnv, Hvia. eauto.
    + intros (e & He & <- & Ht). exists e. naive_solver.
  - intros v w t u Hi Hw Hnv. rewrite !graph_progress. setoid_rewrite fuse_edges. split.
    + intros (e & (_ & [[He Hne]|(e' & He' & Hi' & ->)]) & <- & Ht); [eauto|].
      exfalso. apply Hnv, Hvia. eauto.
    + intros (e & He & <- & Ht). exists e. naive_solver.
  - intros v t u Hi (e0 & He0 & Hx0)%Hvia. by apply (fuse_trace_via v t u e0).
  - intros v t u Hi (e0 & He0 & Hx0)%Hvia. by apply (fuse_progress_via v t u e0).
Qed.
End fuse_one.

(** ** The loops *)

(** What a minimisation step keeps. *)
Record keeps (init : Z) (p q : aproof) : Prop := {
  kp_distinct : distinct q;
  kp_valid : valid q init = true;
  kp_tags i n' : q !! i = Some n' → ∃ n, p !! i = Some n ∧ get_tags n' = get_tags n;
  kp_gtc : gtc (aproof_graph p init) ↔ gtc (aproof_graph q init);
}.

Lemma keeps_refl init p : distinct p → valid p init = true → keeps init p p.
Proof. split; eauto. Qed.

Lemma keeps_trans init p q r : keeps init p q → keeps init q r → keeps init p r.
Proof.
  intros [_ _ Ht Hg] [Hd Hv Ht' Hg']. split; [done|done| |by rewrite Hg].
  intros i n' (n & Hn & ->)%Ht'. by apply Ht.
Qed.

Lemma keeps_fits init p q : keeps init p q → fits p → fits q.
Proof. intros K Hf i n' (n & Hn & ->)%(kp_tags _ _ _ K). by apply Hf. Qed.

Lemma keeps_size init p q : keeps init p q → size q ≤ size p.
Proof.
  intros K. rewrite <-!size_dom. apply subseteq_size. intros i [n' Hi]%elem_of_dom.
  destruct (kp_tags _ _ _ K i n' Hi) as (n & Hn & _). by eapply elem_of_dom_2.
Qed.

Lemma size_drop (p q : aproof) idx n :
  p !! idx = Some n → dom q = dom p ∖ {[idx]} → size p = S (size q).
Proof.
  intros Hn Hq. rewrite <-!size_dom, Hq.
  rewrite size_difference by (apply singleton_subseteq_l; by eapply elem_of_dom_2).
  rewrite size_singleton.
  assert (size (dom p) ≠ 0); [|lia]. rewrite size_dom. intros ->%map_size_empty_inv.
  by rewrite lookup_empty in Hn.
Qed.

(** [find_map] finds a binding that passes the test, when there is one. *)
Lemma find_first_spec (f : Z → abstract_node → res bool) (l : list (Z * abstract_node)) :
  (∀ i n, (i, n) ∈ l → ∃ b, f i n = Ok b) →
  match find_first f l with
  | Ok (Some (i, n)) => (i, n) ∈ l ∧ f i n = Ok true
  | Ok None => ∀ i n, (i, n) ∈ l → f i n = Ok false
  | Err _ => False
  end.
Proof.
  induction l as [|[i n] l IH]; intros Hf; simpl; [by intros ? ? ?%elem_of_nil|].
  destruct (Hf i n) as [b Hb]; [by left|]. rewrite Hb. destruct b; [by split; [left|]|].
  specialize (IH (λ i n H, Hf i n (list_elem_of_further _ _ _ H))).
  destruct (find_first f l) as [[[j m]|]|]; [|..|done].
  - destruct IH. by split; [right|].
  - intros j m [[= -> ->]|?]%elem_of_cons; [done|by apply IH].
Qed.

Lemma find_map_spec (f : Z → abstract_node → res bool) (p : aproof) :
  (∀ i n, p !! i = Some n → ∃ b, f i n = Ok b) →
  match find_map f p with
  | Ok (Some (i, n)) => p !! i = Some n ∧ f i n = Ok true
  | Ok None => ∀ i n, p !! i = Some n → f i n = Ok false
  | Err _ => False
  end.
Proof.
  intros Hf. pose proof (find_first_spec f (bindings p)) as H. unfold find_map.
  assert (∀ i n, (i, n) ∈ bindings p ↔ p !! i = Some n) as Hb by (intros; apply elem_of_bindings).
  specialize (H (λ i n Hi, Hf i n (proj1 (Hb i n) Hi))).
  destruct (find_first f (bindings p)) as [[[i n]|]|]; [|..|done].
  - by rewrite <-Hb.
  - intros i n Hn. by apply H, Hb.
Qed.

Lemma remove_dead_keeps p idx n init :
  distinct p → valid p init = true → p !! idx = Some n → get_subg n = [] → init ≠ idx →
  keeps init p (remove_dead_node idx p).
Proof.
  intros Hd Hv Hn Hl Hne. split.
  - by apply remove_dead_distinct.
  - by apply remove_dead_valid.
  - intros i n'. rewrite remove_dead_node_eq, lookup_fmap_Some.
    intros (m & <- & [_ Hm]%lookup_delete_Some). exists m. by rewrite drop_node_tags.
  - by eapply pruned_gtc, remove_dead_pruned.
Qed.

Lemma remove_dead_loop_spec fuel : ∀ p,
  size p ≤ fuel → distinct p → valid p 0 = true →
  ∃ q, remove_dead_loop fuel p = Ok q ∧ keeps 0 p q ∧
    ∀ i n, q !! i = Some n → i ≠ 0%Z → is_leaf n = false.
Proof.
  induction fuel as [|fuel IH]; intros p Hsz Hd Hv;
    cbn [remove_dead_loop]; pose proof (find_map_spec is_dead p) as Hf;
    specialize (Hf ltac:(by eexists)); unfold is_dead in Hf at 2 3;
    destruct (find_map is_dead p) as [[[idx n]|]|]; try done.
  - destruct Hf as [Hn _]. apply Nat.le_0_r, map_size_empty_inv in Hsz. simplify_map_eq.
  - exists p. split; [done|]. split; [by apply keeps_refl|]. intros i n Hn Hi.
    specialize (Hf i n Hn). by rewrite bool_decide_eq_true_2 in Hf by done; simplify_eq/=.
  - destruct Hf as [Hn [= Hdead]]. apply andb_true_iff in Hdead as [Hne Hl].
    apply bool_decide_eq_true in Hne, Hl.
    assert (keeps 0 p (remove_dead_node idx p)) as K by (by eapply remove_dead_keeps).
    pose proof (size_drop p _ idx n Hn (remove_dead_dom idx p)).
    destruct (IH (remove_dead_node idx p)) as (q & Hq & K' & Hend); [lia|apply K|apply K|].
    exists q. split; [done|]. split; [by eapply keeps_trans|done].
  - exists p. split; [done|]. split; [by apply keeps_refl|]. intros i n Hn Hi.
    specialize (Hf i n Hn). by rewrite bool_decide_eq_true_2 in Hf by done; simplify_eq/=.
Qed.

Lemma fusable_total p init i n : ∃ b, fusable p init i n = Ok b.
Proof.
  unfold fusable, is_single_node, fathers_grandchild. case_decide; [eauto|].
  destruct (get_subg n) as [|e [|? ?]]; simpl; [eauto| |eauto].
  case_bool_decide as Hne; simpl; [|eauto]. rewrite decide_False by done. eauto.
Qed.

Lemma fusable_true p init i n :
  fusable p init i n = Ok true →
  i ≠ init ∧ ∃ c tv tp, get_subg n = [(c, tv, tp)] ∧ c ≠ i ∧
    ∀ j m, p !! j = Some m → in_children i m && in_children c m = false.
Proof.
  unfold fusable, is_single_node, fathers_grandchild. case_decide; [done|].
  destruct (get_subg n) as [|[[c tv] tp] [|? ?]]; simpl; [done| |done].
  unfold premise; simpl. case_bool_decide as Hne; simpl; [|done].
  rewrite decide_False by done. intros [= Hex%negb_true_iff].
  split; [done|]. exists c, tv, tp. split; [done|]. split; [done|]. intros j m Hm.
  apply not_true_iff_false. intros Hin. apply not_true_iff_false in Hex. apply Hex.
  apply existsb_exists. exists (j, m). split; [|done].
  by apply list_elem_of_In, elem_of_bindings.
Qed.

Lemma fuse_keeps p idx n init :
  distinct p → valid p init = true → p !! idx = Some n → fusable p init idx n = Ok true →
  ∃ q, fuse_node idx n p = Ok q ∧ keeps init p q ∧ size p = S (size q).
Proof.
  intros Hd Hv Hn (Hi & c & tv & tp & Hone & Hc & Hpar)%fusable_true.
  rewrite (fuse_node_eq idx c tv tp) by done. eexists. split; [done|].
  change (delete idx (fuse_one idx c tv tp <$> p)) with (fuse_result idx c tv tp p).
  split; [|by eapply size_drop, fuse_dom]. split.
  - by apply fuse_distinct.
  - by eapply fuse_valid.
  - intros i n' (_ & m & Hm & ->)%fuse_result_lookup. exists m. by rewrite fuse_one_tags.
  - by eapply fused_gtc, fuse_fused.
Qed.

Lemma fuse_loop_spec fuel init : ∀ p,
  size p ≤ fuel → distinct p → valid p init = true →
  ∃ q, fuse_loop fuel p init = Ok q ∧ keeps init p q ∧
    ∀ i n, q !! i = Some n → fusable q init i n = Ok false.
Proof.
  induction fuel as [|fuel IH]; intros p Hsz Hd Hv;
    cbn [fuse_loop]; pose proof (find_map_spec (fusable p init) p) as Hf;
    specialize (Hf (λ i n _, fusable_total p init i n));
    destruct (find_map (fusable p init) p) as [[[idx n]|]|]; try done.
  - destruct Hf as [Hn _]. apply Nat.le_0_r, map_size_empty_inv in Hsz. simplify_map_eq.
  - exists p. by split; [|split; [apply keeps_refl|]].
  - destruct Hf as [Hn Hf]. destruct (fuse_keeps p idx n init) as (q & -> & K & Hs); [done..|].
    destruct (IH q) as (r & Hr & K' & Hend); [lia|apply K|apply K|].
    exists r. split; [done|]. split; [by eapply keeps_trans|done].
  - exists p. by split; [|split; [apply keeps_refl|]].
Qed.

Lemma minimize_spec p :
  distinct p → valid p 0 = true → ∃ q, minimize_abs_proof p 0 = Ok q ∧ keeps 0 p q.
Proof.
  intros Hd Hv. unfold minimize_abs_proof, remove_dead_nodes.
  destruct (remove_dead_loop_spec (size p) p) as (q & -> & K & _); [done..|].
  destruct (fuse_loop_spec (size q) 0 q) as (r & Hr & K' & _); [done|apply K|apply K|].
  exists r. split; [done|by eapply keeps_trans].
Qed.

(** ** The cached check *)

Section cached.
Context {B : Bdd} {D : BddDict} {HO : HashOrder} {G : SpotAlgos B} {F : FloatLog} {T : TreeEq}.
Context {BL : BddLaws B} {DL : BddDictLaws D} {HL : HashOrderLaws HO}
  {GL : SpotAlgosLaws B G} {FL : FloatLogLaws F} {TL : TreeEqLaws T}.

(** No automaton is open between calls, and cached verdicts are those of proofs
    rooted at node 0. *)
Record checker_ok (c : checker) : Prop := {
  ck_globals : globals c = globals_init;
  ck_cache p r : (p, r) ∈ ccache c → r = true ↔ gtc (aproof_graph p 0);
}.

Lemma new_checker_ok : checker_ok (mkChecker globals_init []).
Proof. split; [done|]. intros p r H. by apply elem_of_nil in H. Qed.

Lemma cache_find_some p l r : cache_find p l = Some r → (p, r) ∈ l.
Proof.
  intros ([k [q r']] & Hk & ->)%fmap_Some. simpl.
  apply list_find_Some in Hk as (Hk & Hq & _). apply Is_true_true, tree_eq_sound in Hq.
  simpl in Hq. subst q.
  by eapply list_elem_of_lookup_2.
Qed.

Lemma valid_nonempty p init : valid p init = true → p ≠ ∅.
Proof. intros Hv%valid_init ->. by rewrite dom_empty in Hv. Qed.

(** The outer [check_proof] past its validations: one look in the cache. *)
Lemma check_proof_run init p q c :
  valid p init = true → minimize_abs_proof p init = Ok q → valid q init = true →
  check_proof init p c =
    match cache_find q (ccache c) with
    | Some r => Ok (r, c)
    | None =>
      match check_session init q (globals c) with
      | Ok (r, g) => Ok (r, mkChecker g ((q, r) :: ccache c))
      | Err e => Err e
      end
    end.
Proof.
  intros Hv Hq Hvq. unfold check_proof, assert, lift, with_globals.
  rewrite !decide_False by (by eapply valid_nonempty).
  rewrite Hv, Hq. unfold mbind, M_bind, mret, M_ret. rewrite Hvq.
  rewrite decide_False by (by eapply valid_nonempty). cbn.
  destruct (cache_find q (ccache c)); [done|].
  by destruct (check_session init q (globals c)) as [[r g]|].
Qed.

Lemma check_proof_spec p c :
  checker_ok c → distinct p → valid p 0 = true → fits p → (Z.of_nat (size p) ≤ 2 ^ 28)%Z →
  ∃ b c', check_proof 0 p c = Ok (b, c') ∧ checker_ok c' ∧
    (b = true ↔ gtc (aproof_graph p 0)).
Proof.
  intros Hc Hd Hv Hf Hs. destruct (minimize_spec p Hd Hv) as (q & Hq & K).
  rewrite (check_proof_run 0 p q c Hv Hq (kp_valid _ _ _ K)), (ck_globals c Hc).
  destruct (cache_find q (ccache c)) as [r|] eqn:E.
  - exists r, c. split; [done|]. split; [done|]. rewrite (kp_gtc _ _ _ K).
    by apply (ck_cache c Hc), cache_find_some.
  - destruct (check_session_spec q 0) as (b & Hb & Hgtc).
    { apply K. } { by eapply keeps_fits. } { pose proof (keeps_size _ _ _ K). lia. }
    rewrite Hb. eexists b, _. split; [done|]. split; [|by rewrite (kp_gtc _ _ _ K)].
    split; [done|]. intros p' r' [[= -> ->]|Hin]%elem_of_cons; [done|].
    by apply (ck_cache c Hc).
Qed.
End cached.
