(* ===== verification/CheckerTheorems.v ===== *)
(** * The properties of the soundness checker

    The theorems that make the checker correct, stated for every
    implementation of BuDDy, Spot, hash iteration and the floating-point
    logarithm that meets the documented laws, each with an instance of it on a
    concrete session under the reference implementation of [Spot]. *)

From S2P Require Import Prelude Spot ProofGraph Gtc GtcReduce ProofAut.
From S2P Require Import Trace Soundness SoundnessSpec Soundcheck Minimize MinimizeProofs.


(** Equality of a closed term with its value; an unknown right side is set to it. *)
Ltac vm_eq := match goal with |- ?a = ?b =>
  let x := eval vm_compute in a in
  first [unify b x; vm_cast_no_check (@eq_refl _ x)|vm_cast_no_check (@eq_refl _ b)] end.

(** ** Concrete data for the instances *)

Abbreviation ProofData0 := (@ProofData form_bdd list_dict).
Abbreviation Globals0 := (@Globals form_bdd list_dict).

(** The state after a run, or a default. *)
Definition state_after {S A} (s : S) (m : M S A) : S :=
  match m s with Ok (_, s') => s' | Err _ => s end.

(** A graph with one vertex, its own successor, tagged [7]. *)
Definition vertex1 : @bdd form_bdd :=
  Eval vm_compute in vertex_of (new_Proof 2 : ProofData0) 1.
Definition demo_proof : ProofData0 :=
  Eval vm_compute in state_after (new_Proof 2)
    (v ← ProofGraph.create_vertex;
     ProofGraph.tag_vertex v 7 ;;
     ProofGraph.set_successor v v ;;
     ProofGraph.set_trace_pair v v 7 7 ;;
     ProofGraph.set_progress_pair v v 7 7 ;;
     ProofGraph.set_initial_vertex v).

Lemma new_Proof2_wf : proof_wf (new_Proof 2 : ProofData0).
Proof. apply new_Proof_wf. Qed.

Lemma demo_proof_steps : rtc proof_step (new_Proof 2 : ProofData0) demo_proof.
Proof.
  eapply rtc_l; [eapply step_create; vm_eq|].
  eapply rtc_l; [eapply (step_tag _ vertex1 7); vm_eq|].
  eapply rtc_l; [eapply (step_succ _ vertex1 vertex1); vm_eq|].
  eapply rtc_l; [eapply (step_trace _ vertex1 vertex1 7 7); vm_eq|].
  eapply rtc_l; [eapply (step_progress _ vertex1 vertex1 7 7); vm_eq|].
  eapply rtc_l; [eapply (step_initial _ vertex1); vm_eq|].
  apply rtc_refl.
Qed.

Lemma demo_proof_wf : proof_wf demo_proof.
Proof.
  apply (proof_steps_wf _ _ demo_proof_steps); [vm_compute; lia|apply new_Proof_wf].
Qed.

(** An abstract proof: one node that is its own premise and progresses. *)
Definition demo_aproof : aproof := build_proof [((0, [1]), [(0, [(1, 1)], [(1, 1)])])]%Z.

Lemma demo_aproof_fits : fits demo_aproof.
Proof. apply (bool_decide_unpack _). by vm_compute. Qed.

Lemma demo_aproof_valid : valid demo_aproof 0 = true.
Proof. by vm_compute. Qed.

(** ** The theorems *)

Section theorems.
Context {B : Bdd} {D : BddDict} {HO : HashOrder} {G : SpotAlgos B} {F : FloatLog} {T : TreeEq}.
Context {BL : BddLaws B} {DL : BddDictLaws D} {HL : HashOrderLaws HO}
  {GL : SpotAlgosLaws B G} {FL : FloatLogLaws F} {TL : TreeEqLaws T}.

(** C1: the client's check, minimisation and cache included, for a proof rooted
    at node 0 that passes validation, lists no premise twice and fits the stubs:
    from a checker whose cached verdicts are right it returns a verdict, which
    is the global trace condition of the proof as given, and leaves such a
    checker. *)
Theorem check_proof_correct (p : aproof) (c : checker) :
  checker_ok c → distinct p → valid p 0 = true → fits p → (Z.of_nat (size p) ≤ 2 ^ 28)%Z →
  ∃ b c', check_proof 0 p c = Ok (b, c') ∧ checker_ok c' ∧
    (b = true ↔ gtc (aproof_graph p 0)).
Proof. apply check_proof_spec. Qed.

(** C2: loading a valid proof of at most 2^28 nodes whose names and tags are
    [int]s into a fresh checker trips no assertion, returns a verdict, leaves the
    globals as they were, and the verdict is [true] exactly when every infinite
    path from [init] has a suffix with an infinitely progressing trace. *)
Theorem check_session_decides_gtc (p : aproof) (init : Z) :
  valid p init = true → fits p → (Z.of_nat (size p) ≤ 2 ^ 28)%Z →
  ∃ b, check_session init p globals_init = Ok (b, globals_init) ∧
    (b = true ↔ gtc (aproof_graph p init)).
Proof. apply check_session_spec. Qed.

(** C3: for every sequence of calls after [create_aut]: when the abstract
    session accepts it, so do the stubs, [check_soundness] decides the global
    trace condition of the abstract graph (and fails when no root was set), and
    [destroy_aut] restores the initial globals; when the abstract session
    refuses it, the stubs fail the same way. *)
Theorem session_correct (n : nat) (ops : list ffi_op) :
  n < 31 →
  match a_calls ops (a_new n) with
  | Err e => (create_aut (Z.of_nat n) ;; for_each ops ffi_call) globals_init = Err e
  | Ok a => ∃ g,
    (create_aut (Z.of_nat n) ;; for_each ops ffi_call) globals_init = Ok (tt, g) ∧
    (∀ i, a_init a = Some i →
       (∃ b, check_soundness g = Ok (b, g) ∧ (b = true ↔ gtc (a_graph a i)))) ∧
    (a_init a = None → is_ok (check_soundness g) = false) ∧
    destroy_aut g = Ok (tt, globals_init)
  end.
Proof.
  intros Hn. destruct (create_aut_repr n Hn) as (g0 & Hg0 & R0).
  rewrite (bind_Ok _ _ _ _ _ Hg0). pose proof (ffi_calls_refines ops g0 (a_new n) R0) as Hops.
  destruct (a_calls ops (a_new n)) as [a|e]; [|done]. destruct Hops as (g & Hg & R).
  exists g. split; [done|]. split; [by intros i; apply check_soundness_spec|].
  split; [by apply check_soundness_rootless|by eapply destroy_aut_run].
Qed.

(** C4: for every graph the methods of [Proof] can build, with a root, the
    language of the proof automaton is included in that of the trace automaton
    exactly when the graph satisfies the global trace condition. *)
Theorem inclusion_iff_gtc (n : nat) (p : ProofData) :
  n < 32 → rtc proof_step (new_Proof n) p → initial_vertex p ∈ vertices p →
  (∀ w, accepts (ProofAutomaton p) w → accepts (trace_automaton p) w) ↔ gtc (graph_of p).
Proof.
  intros Hn Hp. apply inclusion_gtc.
  apply (proof_steps_wf _ _ Hp); [done|apply new_Proof_wf].
Qed.

(** C5: the trace automaton accepts the words with a suffix that spells a path
    of the graph carrying an infinitely progressing trace. *)
Theorem trace_language (p : ProofData) (w : word) :
  proof_wf p → accepts (trace_automaton p) w ↔ ∃ k π τ, traced p w k π τ.
Proof. apply trace_automaton_accepts. Qed.

(** C6: the proof automaton accepts the words that spell an infinite path from
    the root. *)
Theorem proof_language (p : ProofData) (w : word) :
  proof_wf p → initial_vertex p ∈ vertices p →
  accepts (ProofAutomaton p) w ↔ ∃ π, is_path (graph_of p) π ∧ spells w π.
Proof. apply ProofAutomaton_accepts. Qed.

(** C7: every graph reached by calls of the methods satisfies the
    representation invariant, and its vertex set has as many elements as
    vertices were created: encodings never collide. *)
Theorem reachable_wf (n : nat) (p : ProofData) :
  n < 32 → rtc proof_step (new_Proof n) p →
  proof_wf p ∧ Z.of_nat (size (vertices p)) = last_vertex p.
Proof.
  intros Hn Hp.
  destruct (proof_steps_wf _ _ Hp) as [Hwf _]; [done|apply new_Proof_wf|].
  split; [done|by apply wf_size].
Qed.

(** C8: on a well-formed graph with fewer than 31 propositions [create_vertex]
    succeeds exactly while the next number has [max_vertices_log2] bits; the
    vertex it returns is new, has no tags and no successors, and the rest of
    the graph is kept. *)
Theorem create_vertex_correct (p : ProofData) :
  proof_wf p → max_vertices_log2 p < 31 →
  if decide (last_vertex p + 1 < 2 ^ Z.of_nat (max_vertices_log2 p))%Z then
    ∃ v p', ProofGraph.create_vertex p = Ok (v, p') ∧ (v ∉ vertices p) ∧
      vertices p' = {[v]} ∪ vertices p ∧ proof_wf p' ∧
      (∀ t, ¬ has_tag p' v t) ∧ (∀ v', ¬ has_succ p' v v') ∧
      (∀ v' t, has_tag p' v' t ↔ has_tag p v' t) ∧
      (∀ v1 v2, has_succ p' v1 v2 ↔ has_succ p v1 v2)
  else ProofGraph.create_vertex p = Err EAssert.
Proof.
  intros Hwf Hn. rewrite create_vertex_run by (done || lia).
  pose proof (wf_last p Hwf) as [Hl1 Hl2].
  assert (2 ^ Z.of_nat (max_vertices_log2 p) ≤ 2 ^ 30)%Z by (apply Z.pow_le_mono_r; lia).
  assert (last_vertex p < INT_MAX)%Z as Hmax by (unfold INT_MAX; lia).
  case_decide as Hlt; [|by rewrite !decide_False by lia].
  rewrite decide_True by done.
  pose proof (next_vertex_fresh p Hwf Hlt) as Hfresh.
  eexists _, _. split; [done|]. split; [done|]. split; [done|].
  split; [by apply with_vertex_wf|].
  setoid_rewrite with_vertex_has_tag. setoid_rewrite with_vertex_has_succ.
  split_and!; try done.
  - intros t Ht. by apply Hfresh, (wf_has_tag_vertex p _ t).
  - intros v' Hs. by apply Hfresh, (wf_has_succ_vertex p _ v').
Qed.

(** In every reachable graph each vertex is satisfied by some letter, no
    letter satisfies two vertices, and the constant [NO_VERTEX] is not a
    vertex: words over the propositions determine the paths they spell. *)
Theorem vertices_are_letters (n : nat) (p : ProofData) :
  n < 32 → rtc proof_step (new_Proof n) p →
  (∀ v, v ∈ vertices p → ∃ ρ, bdd_sat ρ v = true) ∧
  (∀ v1 v2 ρ, v1 ∈ vertices p → v2 ∈ vertices p →
     bdd_sat ρ v1 = true → bdd_sat ρ v2 = true → v1 = v2) ∧
  NO_VERTEX ∉ vertices p.
Proof.
  intros Hn Hp.
  destruct (proof_steps_wf _ _ Hp) as [Hwf _]; [done|apply new_Proof_wf|].
  split_and!; [|by intros; eapply wf_vertex_excl|by apply wf_no_vertex].
  intros v Hv. by apply (wf_vertex_letter p).
Qed.

(** [set_trace_pair] and [set_progress_pair] succeed exactly when both
    tags are registered for their vertices, add just the one pair, and keep the
    invariant; otherwise their assertions fail. *)
Theorem set_pairs_correct (p : ProofData) (v1 v2 : Vertex) (t1 t2 : Tag) :
  proof_wf p →
  if decide (has_tag p v1 t1 ∧ has_tag p v2 t2) then
    (∃ p', ProofGraph.set_trace_pair v1 v2 t1 t2 p = Ok (tt, p') ∧ proof_wf p' ∧
       (∀ a b t u, trace_pair p' a b t u = true ↔
          (a, b, t, u) = (v1, v2, t1, t2) ∨ trace_pair p a b t u = true) ∧
       progress_pairs p' = progress_pairs p) ∧
    (∃ p', ProofGraph.set_progress_pair v1 v2 t1 t2 p = Ok (tt, p') ∧ proof_wf p' ∧
       (∀ a b t u, progress_pair p' a b t u = true ↔
          (a, b, t, u) = (v1, v2, t1, t2) ∨ progress_pair p a b t u = true) ∧
       trace_pairs p' = trace_pairs p)
  else ProofGraph.set_trace_pair v1 v2 t1 t2 p = Err EAssert ∧
       ProofGraph.set_progress_pair v1 v2 t1 t2 p = Err EAssert.
Proof.
  intros Hwf. rewrite set_trace_pair_run, set_progress_pair_run by done.
  unfold trace_pair, progress_pair.
  case_decide as Ht; [|done]. split; eexists; (split; [done|]).
  - split; [by apply with_trace_pair_wf|]. split; [|done].
    intros. rewrite !bool_decide_eq_true. simpl. set_solver.
  - split; [by apply with_progress_pair_wf|]. split; [|done].
    intros. rewrite !bool_decide_eq_true. simpl. set_solver.
Qed.

(** [TraceState::compare] is a total order on pairs of a vertex and a tag,
    zero on equal states only, and equal states have equal hashes: Spot's hash
    tables identify exactly the equal states. *)
Theorem trace_state_compare_order (s1 s2 s3 : TraceState) :
  (Trace.compare s1 s2 = 0%Z ↔ s1 = s2) ∧
  Trace.compare s2 s1 = (- Trace.compare s1 s2)%Z ∧
  ((Trace.compare s1 s2 < 0)%Z → (Trace.compare s2 s3 < 0)%Z → (Trace.compare s1 s3 < 0)%Z) ∧
  (Trace.compare s1 s2 = 0%Z → Trace.hash s1 = Trace.hash s2).
Proof.
  split; [apply compare_eq|]. split; [apply compare_antisym|].
  split; [apply compare_trans|]. by intros ->%compare_eq.
Qed.

(** [get_state] shares states: a second call returns the pointer of the
    first exactly when it asks for the same pair, the pointers denote the pairs
    asked for, and states built before keep their addresses.  The destructor then
    deletes every state, and none twice. *)
Theorem get_state_shares (a : TraceAutomaton) (v v' : Vertex) (t t' : Tag) :
  ta_wf a →
  ∃ x a1 y a2, get_state v t a = Ok (x, a1) ∧ get_state v' t' a1 = Ok (y, a2) ∧
    (x = y ↔ (v, t) = (v', t')) ∧
    store a2 !! x = Some (mkTraceState v t) ∧ store a2 !! y = Some (mkTraceState v' t') ∧
    store a ⊆ store a2 ∧ ta_wf a2 ∧
    ∃ a3, delete_TraceAutomaton a2 = Ok (tt, a3) ∧ store a3 = ∅.
Proof.
  intros Hwf. destruct (get_state_spec a v t Hwf) as (x & a1 & Hx & Hwf1 & Hext1 & Hst1 & Hm1).
  destruct (get_state_spec a1 v' t' Hwf1) as (y & a2 & Hy & Hwf2 & Hext2 & Hst2 & Hm2).
  destruct Hext1 as (_ & _ & Hsub1), Hext2 as (_ & Hsubm & Hsub2).
  pose proof (lookup_weaken _ _ _ _ Hst1 Hsub2) as Hst1'.
  pose proof (lookup_weaken _ _ _ _ Hm1 Hsubm) as Hm1'.
  exists x, a1, y, a2. split_and!; try done; [|by etrans|by apply delete_TraceAutomaton_spec].
  split; intros Heq; simplify_eq; congruence.
Qed.

(** Whatever states the automaton has built, a state's successor iterator
    yields: from the initial state, itself on every letter and each tag of each
    vertex, never accepting; from a pair, the trace pairs along the edges of its
    vertex, accepting exactly on progress pairs. *)
Theorem trace_transitions (p : ProofData) (a : TraceAutomaton) (x : positive) (s : TraceState) :
  proof_wf p → ta_wf a → ta_proof a = p → store a !! x = Some s → state_ok p s →
  ∃ es a', successors_at x a = Ok (es, a') ∧ ta_wf a' ∧ store a ⊆ store a' ∧
    ∀ c m s', (c, m, s') ∈ es ↔
      if initial s
      then m = false ∧ ((initial s' = true ∧ c = bddtrue) ∨
                        (has_tag p (vertex s') (tag s') ∧ c = vertex s'))
      else has_succ p (vertex s) (vertex s') ∧ c = vertex s' ∧
           trace_pair p (vertex s) (vertex s') (tag s) (tag s') = true ∧
           m = progress_pair p (vertex s) (vertex s') (tag s) (tag s').
Proof.
  intros Hwf Ha Hp Hx Hs.
  destruct (successors_at_spec p a x s) as (a' & Hrun & Ha' & _ & _ & Hst); [done..|].
  exists (edges_of p s), a'. split; [done|]. split; [done|]. split; [done|]. intros c m s'.
  trans (twa_step (trace_automaton p) s c m s').
  { unfold twa_step. simpl. setoid_rewrite successors_run; [|done..]. naive_solver. }
  destruct (initial s) eqn:E.
  - apply initial_true in E as ->. rewrite step_init by done. by rewrite initial_true.
  - destruct Hs as [Hs|[_ Hv]]; [congruence|]. rewrite step_pair by done.
    unfold trace_pair. rewrite bool_decide_eq_true. tauto.
Qed.

(** Without an automaton every entry point stops: the ones that assert
    [proof] by assertion, [check_soundness], which does not, by a null
    dereference; with one, a second [create_aut] is refused. *)
Theorem session_protocol (g : Globals) (o : ffi_op) (n : Z) :
  match proof g with
  | None => ffi_call o g = Err EAssert ∧ destroy_aut g = Err EAssert ∧
            check_soundness g = Err EFault ∧ is_ok (create_aut n g) = true
  | Some _ => create_aut n g = Err EAssert
  end.
Proof.
  destruct g as [[p|] m]; simpl; [done|].
  split; [by destruct o|]. done.
Qed.
End theorems.

(** C9: minimising a valid proof rooted at 0 with distinct premises terminates
    within fuel equal to its size, and yields a valid proof, no larger, with the
    same verdict, in which no node can be fused any more. *)
Theorem minimize_correct (p : aproof) :
  distinct p → valid p 0 = true →
  ∃ q, minimize_abs_proof p 0 = Ok q ∧ valid q 0 = true ∧ size q ≤ size p ∧
    (gtc (aproof_graph p 0) ↔ gtc (aproof_graph q 0)) ∧
    ∀ i n, q !! i = Some n → fusable q 0 i n = Ok false.
Proof.
  intros Hd Hv. unfold minimize_abs_proof, remove_dead_nodes.
  destruct (remove_dead_loop_spec (size p) p) as (q & -> & K & _); [done..|].
  destruct (fuse_loop_spec (size q) 0 q) as (r & Hr & K' & Hend); [done|apply K|apply K|].
  pose proof (keeps_trans _ _ _ _ K K') as K2. exists r. split; [done|].
  split; [apply K2|]. split; [by eapply keeps_size|]. split; [apply K2|done].
Qed.

(** [remove_dead_nodes] on such a proof terminates, keeps validity and the
    verdict, and leaves no leaf but possibly node 0. *)
Theorem remove_dead_nodes_correct (p : aproof) :
  distinct p → valid p 0 = true →
  ∃ q, remove_dead_nodes p = Ok q ∧ distinct q ∧ valid q 0 = true ∧
    (gtc (aproof_graph p 0) ↔ gtc (aproof_graph q 0)) ∧
    ∀ i n, q !! i = Some n → is_leaf n = true → i = 0%Z.
Proof.
  intros Hd Hv. destruct (remove_dead_loop_spec (size p) p) as (q & Hq & K & Hend); [done..|].
  exists q. split; [done|]. split; [apply K|]. split; [apply K|]. split; [apply K|].
  intros i n Hn Hl. destruct (decide (i = 0%Z)) as [|Hi]; [done|].
  rewrite (Hend i n Hn Hi) in Hl. done.
Qed.

(** [fuse_single_nodes] on a valid proof with distinct premises, whatever
    its root, terminates, keeps validity and the verdict: composing the tag
    pairs of the two edges around a removed node loses no trace and no
    progress. *)
Theorem fuse_single_nodes_correct (p : aproof) (init : Z) :
  distinct p → valid p init = true →
  ∃ q, fuse_single_nodes p init = Ok q ∧ distinct q ∧ valid q init = true ∧
    (gtc (aproof_graph p init) ↔ gtc (aproof_graph q init)).
Proof.
  intros Hd Hv. destruct (fuse_loop_spec (size p) init p) as (q & Hq & K & _); [done..|].
  exists q. split; [done|]. split; [apply K|]. split; apply K.
Qed.

(** ** Where the code departs from its intent *)

(** Two separate loops: node 0 does not progress, node 1 does. *)
Definition two_loops : aproof :=
  build_proof [((0, [1]), [(0, [(1, 1)], [])]); ((1, [1]), [(1, [(1, 1)], [(1, 1)])])]%Z.

Lemma two_loops_min init :
  init = 0%Z ∨ init = 1%Z → minimize_abs_proof two_loops init = Ok two_loops.
Proof. intros [->| ->]; vm_eq. Qed.

Lemma two_loops_fits : fits two_loops.
Proof. apply (bool_decide_unpack _). by vm_compute. Qed.

Lemma two_loops_edges init i j :
  tg_succ (aproof_graph two_loops init) i j → i = j ∧ (i = 0%Z ∨ i = 1%Z).
Proof.
  intros (n & e & Hn & He & <-).
  assert (forallb (λ b, forallb (λ e, bool_decide (b.1 = premise e ∧ (b.1 = 0%Z ∨ b.1 = 1%Z)))
    (get_subg b.2)) (bindings two_loops) = true) as H by vm_eq.
  rewrite forallb_forall in H. specialize (H (i, n)).
  rewrite <-list_elem_of_In, elem_of_bindings in H. specialize (H Hn).
  rewrite forallb_forall in H. specialize (H e). rewrite <-list_elem_of_In in H.
  by apply H, bool_decide_eq_true in He.
Qed.

Lemma two_loops_gtc1 : gtc (aproof_graph two_loops 1).
Proof.
  intros π [H0 HS]. assert (∀ i, π i = 1%Z) as H1.
  { intros i. induction i as [|i IH]; [done|]. rewrite <-IH. symmetry.
    by apply (two_loops_edges 1). }
  destruct (two_loops !! 1%Z) as [n|] eqn:E; [|by vm_compute in E].
  assert (bool_decide ((1, {[(1, 1)]}, {[(1, 1)]}) ∈ get_subg n)%Z = true) as Hn.
  { vm_compute in E. injection E as <-. vm_eq. }
  apply bool_decide_eq_true in Hn. exists 0, (λ _, 1%Z). split.
  - intros i _. rewrite !H1. eexists _, _. split; [done|]. split; [done|]. set_solver.
  - intros i. exists i. split; [done|]. rewrite !H1.
    eexists _, _. split; [done|]. split; [done|]. set_solver.
Qed.

Lemma two_loops_not_gtc0 : ¬ gtc (aproof_graph two_loops 0).
Proof.
  destruct (two_loops !! 0%Z) as [n|] eqn:E; [|by vm_compute in E].
  assert (get_subg n = [(0, {[(1, 1)]}, ∅)]%Z) as Hn.
  { vm_compute in E. injection E as <-. vm_eq. }
  intros Hg. destruct (Hg (λ _, 0%Z)) as (k & τ & _ & Hpr).
  - split; [done|]. intros i. eexists _, _. split; [done|]. rewrite Hn. split; [by left|done].
  - destruct (Hpr 0) as (j & _ & n' & e & Hn' & He & _ & Hin). simplify_eq.
    rewrite Hn in He. apply list_elem_of_singleton in He as ->. set_solver.
Qed.

(** A self-loop at node 0 and a leaf at node 1. *)
Definition leaf_root : aproof := build_proof [((0, []), [(0, [], [])]); ((1, []), [])]%Z.

(** A node that lists the same leaf twice. *)
Definition twice : aproof := build_proof [((0, []), [(1, [], []); (1, [], [])]); ((1, []), [])]%Z.

Section departures.
Context {B : Bdd} {D : BddDict} {HO : HashOrder} {G : SpotAlgos B} {F : FloatLog} {T : TreeEq}.
Context {BL : BddLaws B} {DL : BddDictLaws D} {HL : HashOrderLaws HO}
  {GL : SpotAlgosLaws B G} {FL : FloatLogLaws F} {TL : TreeEqLaws T}.

(** C10: the cache is keyed by the proof alone: after a check rooted at node 1
    the same tree, checked as rooted at node 0, is declared sound, although it is
    not. *)
Theorem cache_ignores_root :
  tree_eq two_loops two_loops = true →
  ∃ c1 c2, check_proof 1 two_loops (mkChecker globals_init []) = Ok (true, c1) ∧
    check_proof 0 two_loops c1 = Ok (true, c2) ∧ ¬ gtc (aproof_graph two_loops 0).
Proof.
  intros Hsame. destruct (check_session_spec two_loops 1) as (b & Hb & Hgtc);
    [vm_eq|exact two_loops_fits|by vm_compute|].
  assert (b = true) as -> by (apply Hgtc, two_loops_gtc1).
  eexists _, _. rewrite (check_proof_run 1 two_loops two_loops);
    [|vm_eq|apply two_loops_min; by right|vm_eq].
  simpl cache_find. cbn [ccache globals]. rewrite Hb. split; [done|].
  rewrite (check_proof_run 0 two_loops two_loops);
    [|vm_eq|apply two_loops_min; by left|vm_eq].
  unfold cache_find. simpl. rewrite decide_True by by rewrite Hsame.
  split; [done|apply two_loops_not_gtc0].
Qed.

(** Minimisation can break validity, so that [check_proof] stops by its
    second assertion on valid proofs: [remove_dead_nodes] spares node 0 and not
    the root, and drops one occurrence of a repeated premise. *)
Theorem check_proof_asserts_on_valid (c : checker) :
  valid leaf_root 1 = true ∧ check_proof 1 leaf_root c = Err EAssert ∧
  valid twice 0 = true ∧ check_proof 0 twice c = Err EAssert.
Proof.
  split; [vm_eq|]. split; [|split; [vm_eq|]].
  - vm_eq.
  - vm_eq.
Qed.
End departures.

(** The seed of the header's hashes is a negative [int] after its first
    step for every node id below 0x61c88647, and the next step shifts it
    left. *)
Theorem hash_seed_negative `{B : Bdd} (v : Vertex) :
  (0 ≤ bdd_id v < 0x61c88647)%Z → (HASH_VAL 0 (hash_vertex v) < 0)%Z.
Proof.
  intros Hv. unfold HASH_VAL, hash_vertex, wrap32, wrapu.
  change (Z.shiftl 0 6) with 0%Z. change (Z.shiftr 0 2) with 0%Z.
  change (0 `mod` 2 ^ 64)%Z with 0%Z. rewrite Z.lxor_0_l.
  change (((0 + 2 ^ 31) `mod` 2 ^ 32 - 2 ^ 31) `mod` 2 ^ 64)%Z with 0%Z.
  rewrite (Z.mod_small (bdd_id v)) by lia. rewrite !Z.add_0_r.
  rewrite (Z.mod_small (bdd_id v + 0x9e3779b9)) by lia.
  rewrite (Z.mod_eq _ (2 ^ 32)) by lia.
  assert ((bdd_id v + 0x9e3779b9 + 2 ^ 31) / 2 ^ 32 = 1)%Z as ->; [|lia].
  symmetry. apply (Z.div_unique _ _ _ (bdd_id v + 0x9e3779b9 + 2 ^ 31 - 2 ^ 32)%Z); lia.
Qed.

(** ** Instances *)

Lemma check_proof_correct_witness :
  ∃ b c', check_proof (B := form_bdd) (D := list_dict) 0 demo_aproof
            (mkChecker globals_init []) = Ok (b, c') ∧ checker_ok c' ∧
    (b = true ↔ gtc (aproof_graph demo_aproof 0)).
Proof.
  apply check_proof_correct; [exact new_checker_ok| |exact demo_aproof_valid
    |exact demo_aproof_fits|by vm_compute].
  apply (bool_decide_unpack _). by vm_compute.
Defined.

(** A chain with a leaf and a node to fuse: 0 -> 1 -> 0 and 0 -> 2. *)
Definition chain : aproof :=
  build_proof [((0, [1]), [(1, [(1, 2)], []); (2, [], [])]);
               ((1, [2]), [(0, [(2, 1)], [(2, 1)])]); ((2, []), [])]%Z.

Lemma chain_distinct : distinct chain.
Proof. apply (bool_decide_unpack _). by vm_compute. Qed.

Lemma minimize_correct_witness :
  ∃ q, minimize_abs_proof chain 0 = Ok q ∧ valid q 0 = true ∧ size q ≤ size chain ∧
    (gtc (aproof_graph chain 0) ↔ gtc (aproof_graph q 0)) ∧
    ∀ i n, q !! i = Some n → fusable q 0 i n = Ok false.
Proof. apply minimize_correct; [exact chain_distinct|vm_eq]. Defined.

Lemma remove_dead_nodes_correct_witness :
  ∃ q, remove_dead_nodes chain = Ok q ∧ distinct q ∧ valid q 0 = true ∧
    (gtc (aproof_graph chain 0) ↔ gtc (aproof_graph q 0)) ∧
    ∀ i n, q !! i = Some n → is_leaf n = true → i = 0%Z.
Proof. apply remove_dead_nodes_correct; [exact chain_distinct|vm_eq]. Defined.

Lemma fuse_single_nodes_correct_witness :
  ∃ q, fuse_single_nodes chain 0 = Ok q ∧ distinct q ∧ valid q 0 = true ∧
    (gtc (aproof_graph chain 0) ↔ gtc (aproof_graph q 0)).
Proof. apply fuse_single_nodes_correct; [exact chain_distinct|vm_eq]. Defined.

Lemma cache_ignores_root_witness :
  ∃ c1 c2, check_proof (B := form_bdd) (D := list_dict) 1 two_loops
             (mkChecker globals_init []) = Ok (true, c1) ∧
    check_proof 0 two_loops c1 = Ok (true, c2) ∧ ¬ gtc (aproof_graph two_loops 0).
Proof. apply cache_ignores_root. by apply bool_decide_eq_true_2. Defined.

Lemma hash_seed_negative_witness : (HASH_VAL 0 (hash_vertex (B := form_bdd) FFalse) < 0)%Z.
Proof. apply hash_seed_negative. vm_compute. split; [discriminate|reflexivity]. Defined.

Lemma demo_proof_root : initial_vertex demo_proof ∈ vertices demo_proof.
Proof. apply (bool_decide_unpack _). by vm_compute. Qed.

Lemma check_session_decides_gtc_witness :
  ∃ b, check_session (B := form_bdd) (D := list_dict) 0 demo_aproof globals_init
         = Ok (b, globals_init) ∧ (b = true ↔ gtc (aproof_graph demo_aproof 0)).
Proof.
  apply check_session_decides_gtc;
    [exact demo_aproof_valid|exact demo_aproof_fits|by vm_compute].
Defined.

(** The calls of a session that loads [demo_aproof]. *)
Definition demo_ops : list ffi_op :=
  [CreateVertex 0; TagVertex 0 1; SetSuccessor 0 0; SetInitialVertex 0;
   SetTracePair 0 0 1 1; SetProgressPair 0 0 1 1].

Lemma session_correct_witness :
  match a_calls demo_ops (a_new 1) with
  | Err e => (create_aut (B := form_bdd) (D := list_dict) (Z.of_nat 1) ;;
              for_each demo_ops ffi_call) globals_init = Err e
  | Ok a => ∃ g : Globals0,
    (create_aut (Z.of_nat 1) ;; for_each demo_ops ffi_call) globals_init = Ok (tt, g) ∧
    (∀ i, a_init a = Some i →
       (∃ b, check_soundness g = Ok (b, g) ∧ (b = true ↔ gtc (a_graph a i)))) ∧
    (a_init a = None → is_ok (check_soundness g) = false) ∧
    destroy_aut g = Ok (tt, globals_init)
  end.
Proof. apply (session_correct 1 demo_ops). lia. Defined.

Lemma inclusion_iff_gtc_witness :
  (∀ w, accepts (ProofAutomaton demo_proof) w → accepts (trace_automaton demo_proof) w)
    ↔ gtc (graph_of demo_proof).
Proof.
  apply (inclusion_iff_gtc 2); [lia|exact demo_proof_steps|exact demo_proof_root].
Defined.

Lemma trace_language_witness :
  accepts (trace_automaton demo_proof) (λ _ _, false)
    ↔ ∃ k π τ, traced demo_proof (λ _ _, false) k π τ.
Proof. apply trace_language. exact demo_proof_wf. Defined.

Lemma proof_language_witness :
  accepts (ProofAutomaton demo_proof) (λ _ _, false)
    ↔ ∃ π, is_path (graph_of demo_proof) π ∧ spells (λ _ _, false) π.
Proof. apply proof_language; [exact demo_proof_wf|exact demo_proof_root]. Defined.

Lemma reachable_wf_witness :
  proof_wf demo_proof ∧ Z.of_nat (size (vertices demo_proof)) = last_vertex demo_proof.
Proof. apply (reachable_wf 2); [lia|exact demo_proof_steps]. Defined.

Lemma create_vertex_correct_witness :
  ∃ v p', ProofGraph.create_vertex demo_proof = Ok (v, p') ∧ (v ∉ vertices demo_proof).
Proof.
  assert (max_vertices_log2 demo_proof = 2) as Hm by vm_eq.
  assert (last_vertex demo_proof = 1%Z) as Hl by vm_eq.
  pose proof (create_vertex_correct demo_proof demo_proof_wf) as H.
  rewrite Hm, Hl, decide_True in H by done.
  destruct H as (v & p' & Hv & Hf & _); [lia|]. exact (ex_intro _ v (ex_intro _ p' (conj Hv Hf))).
Defined.

Lemma vertices_are_letters_witness :
  (∀ v, v ∈ vertices demo_proof → ∃ ρ, bdd_sat ρ v = true) ∧
  (∀ v1 v2 ρ, v1 ∈ vertices demo_proof → v2 ∈ vertices demo_proof →
     bdd_sat ρ v1 = true → bdd_sat ρ v2 = true → v1 = v2) ∧
  NO_VERTEX ∉ vertices demo_proof.
Proof. apply (vertices_are_letters 2); [lia|exact demo_proof_steps]. Defined.

Lemma set_pairs_correct_witness :
  ProofGraph.set_trace_pair vertex1 vertex1 7 8 demo_proof = Err EAssert.
Proof.
  pose proof (set_pairs_correct demo_proof vertex1 vertex1 7 8 demo_proof_wf) as H.
  rewrite decide_False in H; [exact (proj1 H)|].
  apply (bool_decide_eq_false _). vm_eq.
Defined.

(** Two states of the trace automaton of [demo_proof]. *)
Definition demo_state (t : Z) : @TraceState form_bdd := mkTraceState vertex1 t.

Lemma trace_state_compare_order_witness :
  Trace.compare (demo_state 8) (demo_state 7)
    = (- Trace.compare (demo_state 7) (demo_state 8))%Z.
Proof. apply (trace_state_compare_order (demo_state 7) (demo_state 8) (demo_state 7)). Defined.

Lemma get_state_shares_witness :
  ∃ x a1 y a2, get_state vertex1 7 (new_TraceAutomaton demo_proof) = Ok (x, a1) ∧
    get_state vertex1 7 a1 = Ok (y, a2) ∧ x = y.
Proof.
  destruct (get_state_shares (new_TraceAutomaton demo_proof) vertex1 vertex1 7 7)
    as (x & a1 & y & a2 & Hx & Hy & Heq & _); [apply new_TraceAutomaton_wf|].
  exists x, a1, y, a2. split; [exact Hx|]. split; [exact Hy|]. by apply Heq.
Defined.

(** The trace automaton of [demo_proof] that has built its initial state. *)
Definition demo_trace : TraceAutomaton :=
  state_after (new_TraceAutomaton demo_proof) Trace.get_init_state.

Lemma demo_trace_run :
  Trace.get_init_state (new_TraceAutomaton demo_proof) = Ok (1%positive, demo_trace).
Proof. vm_eq. Qed.

Lemma trace_transitions_witness :
  ∃ es a', successors_at 1%positive demo_trace = Ok (es, a') ∧
    (bddtrue, false, mkTraceState NO_VERTEX NO_TAG) ∈ es.
Proof.
  destruct (get_state_spec (new_TraceAutomaton demo_proof) NO_VERTEX NO_TAG)
    as (x & a & Hx & Hwf & (Hp & _) & Hst & _); [apply new_TraceAutomaton_wf|].
  assert (Ok (x, a) = Ok (1%positive, demo_trace)) as [= -> ->].
  { rewrite <-Hx. exact demo_trace_run. }
  destruct (trace_transitions demo_proof demo_trace 1 (mkTraceState NO_VERTEX NO_TAG))
    as (es & a' & Hes & _ & _ & Hin); [|exact Hwf|exact Hp|exact Hst|..].
  - exact demo_proof_wf.
  - left. vm_eq.
  - exists es, a'. split; [exact Hes|]. apply Hin. split; [done|]. left. split; [vm_eq|done].
Defined.
