(* ===== verification/Exn.v ===== *)
(** * OCaml computations: exceptions and mutable state

    The prover keeps its state (the soundness checker behind it) when an
    exception is raised and caught, so a computation of type [X S A] returns the
    state with either outcome.  Pure functions that may raise return [res].
    The list functions are those of [Blist], with a state and exceptions. *)

From S2P Require Import Prelude.

(** ** Pure functions that may raise *)

#[global] Instance res_ret : MRet res := λ A a, Ok a.
#[global] Instance res_bind : MBind res := λ A B k m,
  match m with Ok a => k a | Err e => Err e end.

(** [List.map] *)
Fixpoint map_res {A B} (f : A → res B) (l : list A) : res (list B) :=
  match l with
  | [] => Ok []
  | x :: l => y ← f x; ys ← map_res f l; mret (y :: ys)
  end.

Lemma map_res_ok {A B} (f : A → res B) (g : A → B) l :
  (∀ x, x ∈ l → f x = Ok (g x)) → map_res f l = Ok (map g l).
Proof.
  induction l as [|x l IH]; intros H; [done|]. simpl. rewrite H by left.
  rewrite IH by (intros; apply H; by right). done.
Qed.

(** [List.map2] *)
Fixpoint map2 {A B C} (f : A → B → C) (l : list A) (k : list B) : res (list C) :=
  match l, k with
  | [], [] => Ok []
  | x :: l, y :: k => zs ← map2 f l k; mret (f x y :: zs)
  | _, _ => Err EInvalidArg
  end.

(** [List.map2] with a function that may raise *)
Fixpoint map2_res {A B C} (f : A → B → res C) (l : list A) (k : list B) : res (list C) :=
  match l, k with
  | [], [] => Ok []
  | x :: l, y :: k => z ← f x y; zs ← map2_res f l k; mret (z :: zs)
  | _, _ => Err EInvalidArg
  end.

(** [List.fold_left2] *)
Fixpoint fold_left2_res {A B C} (f : C → A → B → res C) (acc : C) (l : list A) (k : list B) :
    res C :=
  match l, k with
  | [], [] => Ok acc
  | x :: l, y :: k => acc ← f acc x y; fold_left2_res f acc l k
  | _, _ => Err EInvalidArg
  end.

(** [List.fold_right2] *)
Fixpoint fold_right2 {A B C} (f : A → B → C → C) (l : list A) (k : list B) (acc : C) : res C :=
  match l, k with
  | [], [] => Ok acc
  | x :: l, y :: k => acc ← fold_right2 f l k acc; mret (f x y acc)
  | _, _ => Err EInvalidArg
  end.

(** Adding two lists as keys and values to a map. *)
Lemma fold_right2_insert (l k : list Z) (m : gmap Z Z) :
  length l = length k → NoDup l →
  ∃ m', fold_right2 (λ i i' m, <[i := i']> m) l k m = Ok m' ∧
    Forall2 (λ i i', m' !! i = Some i') l k ∧ ∀ i, i ∉ l → m' !! i = m !! i.
Proof.
  revert k. induction l as [|i l IH]; intros [|i' k] Hlen Hnd; try done; simpl in *.
  - exists m. split; [done|]. split; [constructor|done].
  - apply NoDup_cons in Hnd as [Hi Hnd].
    destruct (IH k) as (m' & Hm' & Hl & Hr); [lia|done|]. rewrite Hm'.
    exists (<[i := i']> m'). split; [done|]. split.
    + constructor; [by rewrite lookup_insert_eq|].
      apply Forall2_same_length_lookup. split; [lia|]. intros n j j' Hj Hj'.
      rewrite lookup_insert_ne by (intros ->; by apply Hi, (list_elem_of_lookup_2 _ n)).
      by apply (Forall2_lookup_lr _ _ _ _ _ _ Hl Hj Hj').
    + intros j [Hne Hj]%not_elem_of_cons. rewrite lookup_insert_ne by done. auto.
Qed.

(** [List.fold_left] *)
Fixpoint fold_left_res {A B} (f : B → A → res B) (acc : B) (l : list A) : res B :=
  match l with
  | [] => Ok acc
  | x :: l => acc ← f acc x; fold_left_res f acc l
  end.

(** [List.find_opt] *)
Fixpoint find_opt {A} (f : A → bool) (l : list A) : option A :=
  match l with
  | [] => None
  | x :: l => if f x then Some x else find_opt f l
  end.

Lemma find_opt_some {A} (f : A → bool) l x : find_opt f l = Some x → x ∈ l ∧ f x = true.
Proof.
  induction l as [|y l IH]; simpl; [done|]. destruct (f y) eqn:E.
  - intros [= <-]. split; [left|done].
  - intros H. destruct (IH H). split; [by right|done].
Qed.

(** [List.filter], [Set.filter] *)
Fixpoint filter_res {A} (f : A → res bool) (l : list A) : res (list A) :=
  match l with
  | [] => Ok []
  | x :: l => b ← f x; ys ← filter_res f l; mret (if b : bool then x :: ys else ys)
  end.

(** [List.for_all], [Map.for_all] *)
Fixpoint for_all_res {A} (f : A → res bool) (l : list A) : res bool :=
  match l with
  | [] => Ok true
  | x :: l => b ← f x; if b : bool then for_all_res f l else Ok false
  end.

(** [List.exists] *)
Fixpoint exists_res {A} (f : A → res bool) (l : list A) : res bool :=
  match l with
  | [] => Ok false
  | x :: l => b ← f x; if b : bool then Ok true else exists_res f l
  end.

(** The result of a test that does not raise and decides [P]. *)
Definition decides (r : res bool) (P : Prop) : Prop := ∃ b, r = Ok b ∧ (b = true ↔ P).

Lemma filter_res_spec {A} (f : A → res bool) l k : filter_res f l = Ok k →
  ∀ x, x ∈ k ↔ x ∈ l ∧ f x = Ok true.
Proof.
  revert k. induction l as [|x l IH]; intros k; simpl; [intros [= <-]; set_solver|].
  unfold mbind, res_bind. destruct (f x) as [b|] eqn:E; [|done].
  destruct (filter_res f l) as [k'|]; [|done]. intros [= <-] y. specialize (IH k' eq_refl y).
  destruct b; rewrite ?elem_of_cons, IH; naive_solver congruence.
Qed.

Lemma filter_res_total {A} (f : A → res bool) l : (∀ x, x ∈ l → ∃ b, f x = Ok b) →
  ∃ k, filter_res f l = Ok k.
Proof.
  induction l as [|x l IH]; intros Hf; simpl; [by eexists|].
  destruct (Hf x) as [b Hb]; [left|]. destruct IH as [k Hk]; [set_solver|].
  unfold mbind, res_bind. rewrite Hb, Hk. by eexists.
Qed.

Lemma filter_res_ok {A} (f : A → res bool) (P : A → Prop) l :
  (∀ x, x ∈ l → decides (f x) (P x)) →
  ∃ k, filter_res f l = Ok k ∧ ∀ x, x ∈ k ↔ x ∈ l ∧ P x.
Proof.
  intros Hf. destruct (filter_res_total f l) as [k Hk].
  { intros x Hx. destruct (Hf x Hx) as (b & Hb & _). by exists b. }
  exists k. split; [done|]. intros x. rewrite (filter_res_spec f l k Hk x). split.
  - intros [Hx Ht]. destruct (Hf x Hx) as (b & Hb & Hp). split; [done|]. apply Hp. congruence.
  - intros [Hx Hp]. destruct (Hf x Hx) as (b & Hb & Hp'). split; [done|]. by rewrite Hb, (proj2 Hp').
Qed.

Lemma for_all_res_ok {A} (f : A → res bool) (P : A → Prop) l :
  (∀ x, x ∈ l → decides (f x) (P x)) → decides (for_all_res f l) (∀ x, x ∈ l → P x).
Proof.
  induction l as [|x l IH]; intros Hf; simpl; [exists true; split; [done|set_solver]|].
  destruct (Hf x) as (b & Hb & Hp); [left|]. unfold mbind, res_bind. rewrite Hb. destruct b.
  - destruct IH as (b & Hr & Hall); [set_solver|]. exists b. split; [done|]. rewrite Hall. set_solver.
  - exists false. split; [done|]. split; [done|]. intros Hall. apply Hp, Hall. left.
Qed.

Lemma exists_res_ok {A} (f : A → res bool) (P : A → Prop) l :
  (∀ x, x ∈ l → decides (f x) (P x)) → decides (exists_res f l) (∃ x, x ∈ l ∧ P x).
Proof.
  induction l as [|x l IH]; intros Hf; simpl; [exists false; split; [done|set_solver]|].
  destruct (Hf x) as (b & Hb & Hp); [left|]. unfold mbind, res_bind. rewrite Hb. destruct b.
  - exists true. split; [done|]. split; [|done]. intros _. exists x. split; [left|by apply Hp].
  - destruct IH as (b & Hr & Hex); [set_solver|]. exists b. split; [done|]. rewrite Hex.
    setoid_rewrite elem_of_cons. naive_solver.
Qed.

Definition assert_res (b : bool) : res unit := if b then Ok tt else Err EAssert.

(** ** Computations with state *)

Definition X (S A : Type) : Type := S → res A * S.

#[global] Instance X_ret {S} : MRet (X S) := λ A a s, (Ok a, s).
#[global] Instance X_bind {S} : MBind (X S) := λ A B k m s,
  match m s with
  | (Ok a, s') => k a s'
  | (Err e, s') => (Err e, s')
  end.

Definition lift_res {S A} (r : res A) : X S A := λ s, (r, s).

(** [try m with Invalid_argument _ -> h] *)
Definition try_invalid {S A} (m h : X S A) : X S A := λ s,
  match m s with
  | (Err EInvalidArg, s') => h s'
  | r => r
  end.

Section lists.
Context {S A B : Type}.

(** [List.map] *)
Fixpoint map_x (f : A → X S B) (l : list A) : X S (list B) :=
  match l with
  | [] => mret []
  | x :: l => y ← f x; ys ← map_x f l; mret (y :: ys)
  end.

(** [List.filter] *)
Fixpoint filter_x (f : A → X S bool) (l : list A) : X S (list A) :=
  match l with
  | [] => mret []
  | x :: l => b ← f x; ys ← filter_x f l; mret (if b : bool then x :: ys else ys)
  end.

(** [List.find_opt] *)
Fixpoint find_opt_x (f : A → X S bool) (l : list A) : X S (option A) :=
  match l with
  | [] => mret None
  | x :: l => b ← f x; if b : bool then mret (Some x) else find_opt_x f l
  end.

(** [Blist.find_map] *)
Fixpoint find_map_x (f : A → X S (option B)) (l : list A) : X S (option B) :=
  match l with
  | [] => mret None
  | x :: l => o ← f x; match o with Some y => mret (Some y) | None => find_map_x f l end
  end.

(** [List.fold_left] *)
Fixpoint fold_left_x (f : B → A → X S B) (acc : B) (l : list A) : X S B :=
  match l with
  | [] => mret acc
  | x :: l => acc ← f acc x; fold_left_x f acc l
  end.
End lists.

(** [Blist.bind] *)
Definition bind_x {S A B} (f : A → X S (list B)) (l : list A) : X S (list B) :=
  ys ← map_x f l; mret (concat ys).

(** [List.fold_left2], which raises when one list runs out first. *)
Fixpoint fold_left2_x {S A B C} (f : C → A → B → X S C) (acc : C) (l : list A) (k : list B) :
    X S C :=
  match l, k with
  | [], [] => mret acc
  | x :: l, y :: k => acc ← f acc x y; fold_left2_x f acc l k
  | _, _ => lift_res (Err EInvalidArg)
  end.

(** ** Total correctness *)

(** From [s], [m] returns a value and a state in [Q]. *)
Definition returns {S A} (m : X S A) (s : S) (Q : A → S → Prop) : Prop :=
  ∃ a s', m s = (Ok a, s') ∧ Q a s'.

Section returns.
Context {S : Type}.

Lemma returns_ret {A} (a : A) (s : S) (Q : A → S → Prop) : Q a s → returns (mret a) s Q.
Proof. intros H. by exists a, s. Qed.

Lemma returns_lift {A} (r : res A) a (s : S) (Q : A → S → Prop) :
  r = Ok a → Q a s → returns (lift_res r) s Q.
Proof. intros -> H. by exists a, s. Qed.

Lemma returns_bind {A B} (m : X S A) (k : A → X S B) s Q :
  returns m s (λ a s', returns (k a) s' Q) → returns (m ≫= k) s Q.
Proof.
  intros (a & s' & Hm & b & s'' & Hk & HQ). exists b, s''.
  unfold mbind, X_bind. by rewrite Hm.
Qed.

Lemma returns_mono {A} (m : X S A) s (P Q : A → S → Prop) :
  returns m s P → (∀ a s', P a s' → Q a s') → returns m s Q.
Proof. intros (a & s' & Hm & HP) HPQ. exists a, s'. auto. Qed.

Lemma returns_try {A} (m h : X S A) s Q : returns m s Q → returns (try_invalid m h) s Q.
Proof. intros (a & s' & Hm & HQ). exists a, s'. unfold try_invalid. by rewrite Hm. Qed.

(** The list functions keep an invariant [I] of the state. *)
Context (I : S → Prop).

Lemma returns_map {A B} (f : A → X S B) (R : A → B → Prop) l s :
  I s → (∀ x s, x ∈ l → I s → returns (f x) s (λ y s', I s' ∧ R x y)) →
  returns (map_x f l) s (λ ys s', I s' ∧ Forall2 R l ys).
Proof.
  revert s. induction l as [|x l IH]; intros s Hs Hf; simpl.
  - by apply returns_ret.
  - apply returns_bind. eapply returns_mono; [apply Hf; [left|done]|].
    intros y s1 [Hs1 Hy]. apply returns_bind.
    eapply returns_mono; [apply IH; [done|]; intros; apply Hf; [by right|done]|].
    intros ys s2 [Hs2 Hys]. apply returns_ret. split; [done|by constructor].
Qed.

Lemma returns_bind_list {A B} (f : A → X S (list B)) (P : B → Prop) l s :
  I s → (∀ x s, x ∈ l → I s → returns (f x) s (λ ys s', I s' ∧ Forall P ys)) →
  returns (bind_x f l) s (λ ys s', I s' ∧ Forall P ys).
Proof.
  intros Hs Hf. apply returns_bind.
  eapply returns_mono; [apply (returns_map f (λ _ ys, Forall P ys)); done|].
  intros yss s' [Hs' H]. apply returns_ret. split; [done|].
  apply Forall_concat. clear -H. induction H as [|????? _ IH]; [apply Forall_nil_2|by apply Forall_cons_2].
Qed.

(** The elements of the results, exactly. *)
Lemma returns_map_exact {A B} (f : A → X S B) (P : A → B → Prop) l s :
  I s → (∀ x s, x ∈ l → I s → returns (f x) s (λ y s', I s' ∧ ∀ z, z = y ↔ P x z)) →
  returns (map_x f l) s (λ ys s', I s' ∧ ∀ y, y ∈ ys ↔ ∃ x, x ∈ l ∧ P x y).
Proof.
  intros Hs Hf. eapply returns_mono; [by apply (returns_map f (λ x y, ∀ z, z = y ↔ P x z))|].
  intros ys s' [Hs' H]. split; [done|]. intros y. clear -H.
  induction H as [|x z l ys Hz _ IH]; [set_solver|].
  rewrite elem_of_cons, IH, Hz. set_solver.
Qed.

Lemma returns_bind_exact {A B} (f : A → X S (list B)) (P : A → B → Prop) l s :
  I s → (∀ x s, x ∈ l → I s → returns (f x) s (λ ys s', I s' ∧ ∀ y, y ∈ ys ↔ P x y)) →
  returns (bind_x f l) s (λ ys s', I s' ∧ ∀ y, y ∈ ys ↔ ∃ x, x ∈ l ∧ P x y).
Proof.
  intros Hs Hf. apply returns_bind.
  eapply returns_mono; [by apply (returns_map f (λ x ys, ∀ y, y ∈ ys ↔ P x y))|].
  intros yss s' [Hs' H]. apply returns_ret. split; [done|]. intros y. clear -H.
  induction H as [|x ys l yss Hys _ IH]; [set_solver|].
  simpl. rewrite elem_of_app, IH, Hys. set_solver.
Qed.

Lemma returns_filter {A} (f : A → X S bool) (P : A → Prop) l s :
  I s → (∀ x s, x ∈ l → I s → returns (f x) s (λ b s', I s' ∧ (b = true ↔ P x))) →
  returns (filter_x f l) s (λ ys s', I s' ∧ ∀ x, x ∈ ys ↔ x ∈ l ∧ P x).
Proof.
  revert s. induction l as [|x l IH]; intros s Hs Hf; simpl.
  - apply returns_ret. set_solver.
  - apply returns_bind. eapply returns_mono; [apply Hf; [left|done]|].
    intros b s1 [Hs1 Hb]. apply returns_bind.
    eapply returns_mono; [apply IH; [done|]; intros; apply Hf; [by right|done]|].
    intros ys s2 (Hs2 & Hys). apply returns_ret. split; [done|]. intros y.
    destruct b; set_solver.
Qed.

Lemma returns_find_opt {A} (f : A → X S bool) (P : A → Prop) l s :
  I s → (∀ x s, x ∈ l → I s → returns (f x) s (λ b s', I s' ∧ (b = true ↔ P x))) →
  returns (find_opt_x f l) s (λ o s', I s' ∧
    match o with Some x => x ∈ l ∧ P x | None => ∀ x, x ∈ l → ¬ P x end).
Proof.
  revert s. induction l as [|x l IH]; intros s Hs Hf; simpl.
  - apply returns_ret. set_solver.
  - apply returns_bind. eapply returns_mono; [apply Hf; [left|done]|].
    intros b s1 [Hs1 Hb]. destruct b.
    + apply returns_ret. set_solver.
    + eapply returns_mono; [apply IH; [done|]; intros; apply Hf; [by right|done]|].
      intros o s2 [Hs2 Ho]. split; [done|]. destruct o; set_solver.
Qed.

Lemma returns_find_map {A B} (f : A → X S (option B)) (P : B → Prop) l s :
  I s → (∀ x s, x ∈ l → I s → returns (f x) s (λ o s', I s' ∧ ∀ y, o = Some y → P y)) →
  returns (find_map_x f l) s (λ o s', I s' ∧ ∀ y, o = Some y → P y).
Proof.
  revert s. induction l as [|x l IH]; intros s Hs Hf; simpl.
  - by apply returns_ret.
  - apply returns_bind. eapply returns_mono; [apply Hf; [left|done]|].
    intros o s1 [Hs1 Ho]. destruct o as [y|]; [by apply returns_ret|].
    apply IH; [done|]. intros; apply Hf; [by right|done].
Qed.
End returns.

Create HintDb exn.
#[export] Hint Resolve returns_ret : exn.
