(* ===== verification/ProofNode.v ===== *)
(** * Sequents and nodes of a cyclic proof: [sequent.mli], [proofnode.ml]

    A proof is labelled with sequents of some logic, which the generic prover
    sees through the signature [Sequent.S].  A tag is its integer
    ([Tags.Elt.to_int]): tags are hash-consed, so that equality and order of
    tags are those of the integers. *)

From S2P Require Import Prelude Exn Spot ProofGraph Gtc ProofAut Trace Soundness.
From S2P Require Import SoundnessSpec Soundcheck.

(** The signature [Sequent.S]. *)
Class Sequent := {
  sequent : Type;
  seq_equal : sequent → sequent → bool;
  equal_upto_tags : sequent → sequent → bool;
  tags : sequent → gset Z;
}.

(** [equal] is an equality. *)
Class SequentLaws (Q : Sequent) : Prop := {
  seq_equal_refl s : seq_equal s s = true;
}.

(** [Soundcheck.mk_abs_node] *)
Definition mk_abs_node (ts : gset Z) (succs : list Z) (tps_pair : list (tagpairs * tagpairs)) :
    res abstract_node :=
  subg ← map2 (λ i tps, (i, tps.1, tps.2)) succs tps_pair;
  mret (ts, subg).

Module Node.
Section node.
Context {Q : Sequent}.

Inductive t :=
| OpenNode (seq : sequent) (descr : string)
| AxiomNode (seq : sequent) (descr : string)
| InfNode (seq : sequent) (descr : string) (succs : list Z)
    (tagpairs2 : list (tagpairs * tagpairs))
| BackNode (seq : sequent) (descr : string) (succ : Z) (tps : tagpairs).

Definition get_seq (n : t) : sequent :=
  match n with
  | OpenNode seq _ | AxiomNode seq _ | InfNode seq _ _ _ | BackNode seq _ _ _ => seq
  end.

Definition get_succs (n : t) : list Z :=
  match n with
  | AxiomNode _ _ | OpenNode _ _ => []
  | BackNode _ _ s _ => [s]
  | InfNode _ _ succs _ => succs
  end.

Definition dest (n : t) : sequent * string :=
  match n with
  | OpenNode seq descr | AxiomNode seq descr | InfNode seq descr _ _
  | BackNode seq descr _ _ => (seq, descr)
  end.

Definition dest_backlink (n : t) : res (sequent * string * Z * tagpairs) :=
  match n with
  | BackNode seq descr succ tps => Ok (seq, descr, succ, tps)
  | _ => Err EInvalidArg
  end.

Definition dest_inf (n : t) :
    res (sequent * string * list Z * list (tagpairs * tagpairs)) :=
  match n with
  | InfNode seq descr succs tagpairs2 => Ok (seq, descr, succs, tagpairs2)
  | _ => Err EInvalidArg
  end.

Definition is_open (n : t) : bool := match n with OpenNode _ _ => true | _ => false end.
Definition is_backlink (n : t) : bool := match n with BackNode _ _ _ _ => true | _ => false end.
Definition is_axiom (n : t) : bool := match n with AxiomNode _ _ => true | _ => false end.
Definition is_inf (n : t) : bool := match n with InfNode _ _ _ _ => true | _ => false end.

Definition mk_open (seq : sequent) : t := OpenNode seq "(Open)".
Definition mk_axiom (seq : sequent) (descr : string) : t := AxiomNode seq descr.
Definition mk_inf (seq : sequent) (descr : string) (succs : list Z)
    (tagpairs2 : list (tagpairs * tagpairs)) : t := InfNode seq descr succs tagpairs2.
Definition mk_backlink (seq : sequent) (descr : string) (succ : Z) (tps : tagpairs) : t :=
  BackNode seq descr succ tps.

Definition to_abstract_node (n : t) : res abstract_node :=
  match n with
  | OpenNode seq _ | AxiomNode seq _ => mk_abs_node (tags seq) [] []
  | InfNode seq _ succs tagpairs2 => mk_abs_node (tags seq) succs tagpairs2
  | BackNode seq _ succ tps => mk_abs_node (tags seq) [succ] [(tps, ∅)]
  end.

(** ** The abstract node *)

(** The premises with their tag pairs. *)
Definition edges (n : t) : list (Z * tagpairs * tagpairs) :=
  match n with
  | OpenNode _ _ | AxiomNode _ _ => []
  | InfNode _ _ succs tagpairs2 => zip_with (λ i tps, (i, tps.1, tps.2)) succs tagpairs2
  | BackNode _ _ succ tps => [(succ, tps, ∅)]
  end.

Definition abs (n : t) : abstract_node := (tags (get_seq n), edges n).

(** An inference has one pair of tag relations per premise. *)
Definition shaped (n : t) : Prop :=
  match n with
  | InfNode _ _ succs tagpairs2 => length succs = length tagpairs2
  | _ => True
  end.
End node.
End Node.

Lemma map2_zip_with {A B C} (f : A → B → C) l k :
  length l = length k → map2 f l k = Ok (zip_with f l k).
Proof.
  revert k. induction l as [|x l IH]; intros [|y k] Hlen; [done..|].
  simpl in *. rewrite IH by lia. done.
Qed.

Lemma to_abstract_node_ok {Q : Sequent} (n : Node.t) :
  Node.shaped n → Node.to_abstract_node n = Ok (Node.abs n).
Proof.
  destruct n as [s d|s d|s d succs tps|s d j tps]; simpl; intros H; [done| done| |done].
  unfold mk_abs_node. by rewrite map2_zip_with.
Qed.

Lemma premise_edges {Q : Sequent} (n : Node.t) :
  Node.shaped n → premise <$> Node.edges n = Node.get_succs n.
Proof.
  destruct n as [s d|s d|s d succs tps|s d j tps]; simpl; intros H; [done| done| |done].
  revert tps H. induction succs as [|i l IH]; intros [|x tps] H; [done..|].
  simpl in *. f_equal. apply IH. lia.
Qed.
