(* ===== verification/CyclicProof.v ===== *)
(** * Cyclic proofs: [proof.ml]

    A proof maps indices to nodes, each with the index of its parent; the root
    is at 0 and its own parent.  Proofs grow by closing open nodes: with an
    axiom, a back-link, or an inference whose premises are new open nodes. *)

From S2P Require Import Prelude Exn Spot ProofGraph Gtc ProofAut Trace Soundness.
From S2P Require Import SoundnessSpec Soundcheck Minimize MinimizeProofs ProofNode.

(** ** What a proof needs of the soundness checker *)

(** [Soundcheck.check_proof] on a state [St] of the checker. *)
Class GtcChecker (St : Type) := { check_proof : aproof → X St bool }.

Definition max_nodes : Z := 2 ^ 28.

(** On a valid proof that fits, with distinct premises, it returns and decides
    the global trace condition. *)
Class GtcCheckerLaws {St : Type} (C : GtcChecker St) (inv : St → Prop) : Prop := {
  check_proof_decides p s :
    inv s → distinct p → valid p 0 = true → fits p → (Z.of_nat (size p) ≤ max_nodes)%Z →
    returns (check_proof p) s (λ b s', inv s' ∧ (b = true ↔ gtc (aproof_graph p 0)));
}.

Module Prf.

(** Indices, each with the index of its parent and its node. *)
Abbreviation t := (gmap Z (Z * Node.t)).

Section proof.
Context {Q : Sequent}.

(** [P.bindings] *)
Definition bindings (prf : t) : list (Z * (Z * Node.t)) :=
  omap (λ i, pair i <$> prf !! i) (ints (dom prf)).

Definition get (idx : Z) (prf : t) : res (Z * Node.t) :=
  match prf !! idx with Some x => Ok x | None => Err EExn end.

Definition find (idx : Z) (prf : t) : res Node.t := x ← get idx prf; mret x.2.

Definition get_seq (idx : Z) (prf : t) : res sequent :=
  n ← find idx prf; mret (Node.get_seq n).

(** [P.max_binding] raises on the empty map. *)
Definition fresh_idx (prf : t) : res Z :=
  match last (ints (dom prf)) with Some m => Ok (1 + m)%Z | None => Err EExn end.

(** [Blist.range] *)
Definition range {A} (n : Z) (xs : list A) : list Z := imap (λ m _, (Z.of_nat m + n)%Z) xs.

Definition fresh_idxs {A} (xs : list A) (prf : t) : res (list Z) :=
  n ← fresh_idx prf; mret (range n xs).

Definition to_list (prf : t) : list (Z * Node.t) := map (λ b, (b.1, b.2.2)) (bindings prf).

Definition num_backlinks (prf : t) : nat :=
  length (filter (λ b, Node.is_backlink b.2 = true) (to_list prf)).

Definition is_closed (prf : t) : bool :=
  forallb (λ b, negb (Node.is_open b.2.2)) (bindings prf).

(** [P.map (fun (_, n) -> Node.to_abstract_node n)] *)
Definition abstract (prf : t) : res aproof :=
  l ← map_res (λ b, n ← Node.to_abstract_node b.2.2; mret (b.1, n)) (bindings prf);
  mret (list_to_map l).

Definition check {St} `{GtcChecker St} (prf : t) : X St bool :=
  p ← lift_res (abstract prf); check_proof p.

Definition mk (seq : sequent) : t := <[0%Z := (0%Z, Node.mk_open seq)]> ∅.

Definition replace (idx : Z) (n : Node.t) (prf : t) : res t :=
  x ← get idx prf; mret (<[idx := (x.1, n)]> prf).

Definition ensure_add (idx : Z) (n : Node.t) (prf : t) : res unit :=
  n' ← find idx prf;
  assert_res (Node.is_open n' && seq_equal (Node.get_seq n) (Node.get_seq n')).

Definition add_axiom (idx : Z) (descr : string) (prf : t) : res t :=
  seq ← get_seq idx prf;
  let n := Node.mk_axiom seq descr in
  ensure_add idx n prf ;;
  replace idx n prf.

Definition add_backlink (idx : Z) (descr : string) (target : Z) (vtts : tagpairs) (prf : t) :
    res t :=
  seq ← get_seq idx prf;
  let n := Node.mk_backlink seq descr target vtts in
  ensure_add idx n prf ;;
  target_seq ← get_seq target prf;
  assert_res (equal_upto_tags seq target_seq) ;;
  replace idx n prf.

Definition add_inf (idx : Z) (descr : string)
    (subgoals : list (sequent * tagpairs * tagpairs)) (prf : t) : res (list Z * t) :=
  subidxs ← fresh_idxs subgoals prf;
  subnodes ← map2 (λ i sg, (i, Node.mk_open sg.1.1)) subidxs subgoals;
  let tagpairs2 := map (λ sg, (sg.1.2, sg.2)) subgoals in
  seq ← get_seq idx prf;
  let n := Node.mk_inf seq descr subidxs tagpairs2 in
  ensure_add idx n prf ;;
  prf' ← replace idx n prf;
  mret (subidxs, foldl (λ prf' c, <[c.1 := (idx, c.2)]> prf') prf' subnodes).

(** The premises of an inference, as [add_inf] takes them. *)
Definition subgoals_of (prf : t) (premises : list Z) (tagpairs2 : list (tagpairs * tagpairs)) :
    res (list (sequent * tagpairs * tagpairs)) :=
  map2_res (λ pidx tps, seq ← get_seq pidx prf; mret (seq, tps.1, tps.2)) premises tagpairs2.

(** [_add] of [add_subprf]: copies the subtree of [prf] at [idx] to [idx'], with
    the new index of every node copied and the back-links still to be added. *)
Fixpoint add_tree (fuel : nat) (prf : t) (acc : t * (gmap Z Z * list (Z * Z))) (idx idx' : Z) :
    res (t * (gmap Z Z * list (Z * Z))) :=
  match fuel with
  | O => Err EFuel
  | S fuel =>
    let '(prf', (node_map, bls)) := acc in
    n ← find idx prf;
    if Node.is_open n then mret (prf', (node_map, bls))
    else if Node.is_axiom n then
      prf' ← add_axiom idx' (Node.dest n).2 prf'; mret (prf', (node_map, bls))
    else if Node.is_backlink n then mret (prf', (node_map, (idx, idx') :: bls))
    else if Node.is_inf n then
      '(_, descr, premises, tagpairs2) ← Node.dest_inf n;
      subgoals ← subgoals_of prf premises tagpairs2;
      '(premises', prf') ← add_inf idx' descr subgoals prf';
      node_map ← fold_right2 (λ i i' m, <[i := i']> m) premises premises' node_map;
      fold_left2_res (add_tree fuel prf) (prf', (node_map, bls)) premises premises'
    else Err EInvalidArg
  end.

(** [fix_bl] of [add_subprf] *)
Definition fix_bl (prf : t) (node_map : gmap Z Z) (prf' : t) (b : Z * Z) : res t :=
  n ← find b.1 prf;
  '(_, descr, target, vtts) ← Node.dest_backlink n;
  target' ← match node_map !! target with Some i => Ok i | None => Err EExn end;
  add_backlink b.2 descr target' vtts prf'.

Definition add_subprf (prf : t) (idx : Z) (prf' : t) : res t :=
  n' ← find idx prf';
  assert_res (Node.is_open n') ;;
  n ← find 0 prf;
  assert_res (seq_equal (Node.get_seq n) (Node.get_seq n')) ;;
  '(prf', (node_map, bls)) ← add_tree (size prf) prf (prf', ({[0%Z := idx]}, [])) 0 idx;
  fold_left_res (fix_bl prf node_map) prf' bls.

(** [Tagpairs.mk] *)
Definition ident (ts : gset Z) : tagpairs := set_map (C := gset Z) (D := tagpairs) (λ t, (t, t)) ts.

(** [_extract] of [extract_subproof]: back-links to nodes not copied yet are
    followed. *)
Fixpoint extract (fuel : nat) (prf : t) (acc : t * gmap Z Z) (idx idx' : Z) :
    res (t * gmap Z Z) :=
  match fuel with
  | O => Err EFuel
  | S fuel =>
    let '(prf', node_map) := acc in
    match node_map !! idx with
    | Some i =>
      seq ← get_seq idx prf;
      prf' ← add_backlink idx' "Backl" i (ident (tags seq)) prf';
      mret (prf', node_map)
    | None =>
      let node_map := <[idx := idx']> node_map in
      n ← find idx prf;
      if Node.is_open n then mret (prf', node_map)
      else if Node.is_axiom n then
        prf' ← add_axiom idx' (Node.dest n).2 prf'; mret (prf', node_map)
      else if Node.is_backlink n then
        '(_, descr, target, vtts) ← Node.dest_backlink n;
        match node_map !! target with
        | Some i => prf' ← add_backlink idx' descr i vtts prf'; mret (prf', node_map)
        | None => extract fuel prf (prf', node_map) target idx'
        end
      else if Node.is_inf n then
        '(_, descr, premises, tagpairs2) ← Node.dest_inf n;
        subgoals ← subgoals_of prf premises tagpairs2;
        '(premises', prf') ← add_inf idx' descr subgoals prf';
        fold_left2_res (extract fuel prf) (prf', node_map) premises premises'
      else Err EInvalidArg
    end
  end.

Definition extract_subproof (idx : Z) (prf : t) : res t :=
  seq ← get_seq idx prf;
  x ← extract (1 + size prf) prf (mk seq, ∅) idx 0;
  mret x.1.

(** The loop of [get_ancestry], along the parents. *)
Fixpoint ancestry_loop (fuel : nat) (prf : t) (acc : list (Z * Node.t)) (idx : Z)
    (x : Z * Node.t) : res (list (Z * Node.t)) :=
  match fuel with
  | O => Err EFuel
  | S fuel =>
    let '(par_idx, n) := x in
    parent ← get par_idx prf;
    let acc := (idx, n) :: acc in
    if decide (par_idx = idx) then mret acc else ancestry_loop fuel prf acc par_idx parent
  end.

Definition get_ancestry (idx : Z) (prf : t) : res (list (Z * Node.t)) :=
  x ← get idx prf; ancestry_loop (size prf) prf [] idx x.

(** [Blist.for_all], which stops at the first [false]. *)
Fixpoint for_all {A} (f : A → res bool) (l : list A) : res bool :=
  match l with
  | [] => mret true
  | x :: l => b ← f x; if b : bool then for_all f l else mret false
  end.

Fixpoint closed_at (fuel : nat) (prf : t) (idx : Z) : res bool :=
  match fuel with
  | O => Err EFuel
  | S fuel =>
    n ← find idx prf;
    if Node.is_axiom n then mret true
    else if Node.is_open n then mret false
    else if Node.is_backlink n then mret true
    else for_all (closed_at fuel prf) (Node.get_succs n)
  end.

Definition is_closed_at (prf : t) (idx : Z) : res bool := closed_at (size prf) prf idx.
End proof.
End Prf.
