(* ===== verification/ProofInvariant.v ===== *)
(** * The invariant of cyclic proofs

    [proof.ml] documents its proofs as connected graphs rooted at 0 whose
    indices all exist.  [Wf.t] states this, with the facts on indices it rests
    on: they are 0, 1, ... in order of creation, and a parent is older than its
    premises.  The functions that grow a proof are described by what they
    change, and they keep the invariant. *)

From S2P Require Import Prelude Exn Spot ProofGraph Gtc ProofAut Trace Soundness.
From S2P Require Import SoundnessSpec Soundcheck Minimize MinimizeProofs ProofNode CyclicProof.

(** ** Maps on an initial segment *)

Lemma ints_sorted s : StronglySorted Z.le (ints s).
Proof. unfold ints. apply StronglySorted_merge_sort; apply _. Qed.

Lemma StronglySorted_last l (m x : Z) :
  StronglySorted Z.le l → last l = Some m → x ∈ l → (x ≤ m)%Z.
Proof.
  intros Hs Hm Hx. apply last_Some in Hm as [l' ->].
  apply elem_of_app in Hx as [Hx|Hx]; [|apply list_elem_of_singleton in Hx; lia].
  eapply StronglySorted_app_1_elem_of; [done|done|]. by apply list_elem_of_singleton.
Qed.

Lemma size_segment {A} (m : gmap Z A) (n : nat) :
  (∀ i, is_Some (m !! i) ↔ (0 ≤ i < Z.of_nat n)%Z) → size m = n.
Proof.
  intros H. rewrite <-size_dom.
  assert (dom m = list_to_set (C := gset Z) (seqZ 0 (Z.of_nat n))) as ->.
  { apply set_eq. intros i. rewrite elem_of_dom, H, elem_of_list_to_set, elem_of_seqZ. lia. }
  rewrite size_list_to_set by apply NoDup_seqZ. rewrite length_seqZ. lia.
Qed.

Lemma range_cons {A} n (x : A) xs : Prf.range n (x :: xs) = n :: Prf.range (n + 1) xs.
Proof.
  unfold Prf.range. simpl. f_equal. apply imap_ext. intros i y _. simpl. lia.
Qed.

Lemma length_range {A} n (xs : list A) : length (Prf.range n xs) = length xs.
Proof. apply length_imap. Qed.

Lemma lookup_range {A} n (xs : list A) k :
  Prf.range n xs !! k = (λ _, (Z.of_nat k + n)%Z) <$> xs !! k.
Proof. apply list_lookup_imap. Qed.

Lemma elem_of_range {A} n (xs : list A) j :
  j ∈ Prf.range n xs ↔ (n ≤ j < n + Z.of_nat (length xs))%Z.
Proof.
  rewrite list_elem_of_lookup. setoid_rewrite lookup_range. split.
  - intros (k & (x & Hx & ->)%fmap_Some). apply lookup_lt_Some in Hx. lia.
  - intros Hj. destruct (lookup_lt_is_Some_2 xs (Z.to_nat (j - n))) as [x Hx]; [lia|].
    exists (Z.to_nat (j - n)). rewrite Hx. simpl. f_equal. lia.
Qed.

Lemma NoDup_range {A} n (xs : list A) : NoDup (Prf.range n xs).
Proof.
  apply NoDup_alt. intros i j k.
  rewrite !lookup_range. intros (x & _ & ->)%fmap_Some (y & _ & ?)%fmap_Some. lia.
Qed.

Lemma range_fmap {A B} n (f : A → B) xs : Prf.range n (f <$> xs) = Prf.range n xs.
Proof. unfold Prf.range. by rewrite imap_fmap. Qed.

(** ** The invariant *)

Module Wf.
Section wf.
Context {Q : Sequent}.

Definition seq_of (p : Prf.t) (i : Z) : option sequent := (λ x, Node.get_seq x.2) <$> p !! i.

Definition open_at (p : Prf.t) (i : Z) : Prop :=
  ∃ par s d, p !! i = Some (par, Node.OpenNode s d).

Record t (p : Prf.t) : Prop := {
  dom_segment i : is_Some (p !! i) ↔ (0 ≤ i < Z.of_nat (size p))%Z;
  root_at_0 : ∃ n, p !! 0%Z = Some (0%Z, n);
  parent_of i par n : p !! i = Some (par, n) → i ≠ 0%Z →
    (par < i)%Z ∧ ∃ par' s d succs tps,
      p !! par = Some (par', Node.InfNode s d succs tps) ∧ i ∈ succs;
  inf_succs i par s d succs tps : p !! i = Some (par, Node.InfNode s d succs tps) →
    length succs = length tps ∧ NoDup succs ∧
    ∀ j, j ∈ succs → (i < j)%Z ∧ ∃ n, p !! j = Some (i, n);
  back_target i par s d j tps : p !! i = Some (par, Node.BackNode s d j tps) →
    ∃ s', seq_of p j = Some s' ∧ equal_upto_tags s s' = true;
}.

(** The successor relation, back-links included. *)
Definition succ (p : Prf.t) (i j : Z) : Prop :=
  ∃ par n, p !! i = Some (par, n) ∧ j ∈ Node.get_succs n.

(** ** Queries *)

Lemma elem_of_prf (p : Prf.t) b : b ∈ Prf.bindings p ↔ p !! b.1 = Some b.2.
Proof.
  unfold Prf.bindings. rewrite list_elem_of_omap. setoid_rewrite elem_of_ints.
  setoid_rewrite elem_of_dom. destruct b as [i n]; simpl. split.
  - intros (j & Hj & (n' & Hn' & [= -> ->])%fmap_Some). done.
  - intros Hi. exists i. split; [by eexists|]. by rewrite Hi.
Qed.

Lemma get_ok (p : Prf.t) i x : p !! i = Some x → Prf.get i p = Ok x.
Proof. intros H. unfold Prf.get. by rewrite H. Qed.

Lemma find_ok (p : Prf.t) i par n : p !! i = Some (par, n) → Prf.find i p = Ok n.
Proof. intros H. unfold Prf.find. by rewrite (get_ok p i (par, n)). Qed.

Lemma get_seq_ok (p : Prf.t) i s : seq_of p i = Some s → Prf.get_seq i p = Ok s.
Proof.
  intros ([par n] & H & ->)%fmap_Some. unfold Prf.get_seq. by rewrite (find_ok p i par n).
Qed.

Lemma fresh_idx_ok p : t p → Prf.fresh_idx p = Ok (Z.of_nat (size p)).
Proof.
  intros W. unfold Prf.fresh_idx.
  assert (0%Z ∈ ints (dom p)) as H0.
  { apply elem_of_ints, elem_of_dom. destruct (root_at_0 p W) as [n Hn]. by eexists. }
  destruct (last (ints (dom p))) as [m|] eqn:Hm; [|apply last_None in Hm; rewrite Hm in H0; set_solver].
  f_equal. assert (m ∈ dom p) as Hd.
  { apply elem_of_ints. apply last_Some in Hm as [l' ->]. set_solver. }
  apply elem_of_dom, (dom_segment p W) in Hd.
  assert (Z.of_nat (size p) - 1 ≤ m)%Z; [|lia].
  eapply StronglySorted_last; [apply ints_sorted|done|].
  apply elem_of_ints, elem_of_dom, (dom_segment p W). lia.
Qed.

Lemma open_at_in p i : open_at p i → is_Some (p !! i).
Proof. intros (par & s & d & ->). by eexists. Qed.

Lemma is_closed_spec (p : Prf.t) : Prf.is_closed p = true ↔ ∀ i, ¬ open_at p i.
Proof.
  unfold Prf.is_closed. rewrite forallb_forall. split.
  - intros H i (par & s & d & Hi). specialize (H (i, (par, Node.OpenNode s d))).
    rewrite <-list_elem_of_In, elem_of_prf in H. by specialize (H Hi).
  - intros H [i [par n]] Hi%list_elem_of_In%elem_of_prf. simpl in *.
    destruct n as [s d| | |]; [|done..]. destruct (H i). by exists par, s, d.
Qed.

(** ** One new proof *)

Lemma mk_wf s : t (Prf.mk s).
Proof.
  assert (size (Prf.mk s) = 1) as Hs.
  { unfold Prf.mk. rewrite map_size_insert, lookup_empty. by rewrite map_size_empty. }
  assert (∀ i x, Prf.mk s !! i = Some x → i = 0%Z ∧ x = (0%Z, Node.mk_open s)) as Hl.
  { intros i x. unfold Prf.mk. rewrite lookup_insert_Some, lookup_empty. naive_solver. }
  split.
  - intros i. rewrite Hs. unfold Prf.mk. rewrite lookup_insert_is_Some, lookup_empty.
    split; [intros [?|[_ []%is_Some_None]]; lia|intros ?; left; lia].
  - exists (Node.mk_open s). unfold Prf.mk. by rewrite lookup_insert_eq.
  - intros i par n H Hi. by destruct (Hl _ _ H).
  - intros i par s' d succs tps H. by destruct (Hl _ _ H).
  - intros i par s' d j tps H. by destruct (Hl _ _ H).
Qed.

(** ** Growing a proof *)

(** Node [idx], open in [p], is closed as [n] in [q], and the premises [new] of
    [n] follow the nodes of [p]; everything else is as it was. *)
Record closes (p : Prf.t) (idx : Z) (n : Node.t) (new : list sequent) (q : Prf.t) : Prop := {
  cl_open : ∃ par s d, p !! idx = Some (par, Node.OpenNode s d) ∧
    Node.get_seq n = s ∧ q !! idx = Some (par, n);
  cl_new k s : new !! k = Some s →
    q !! (Z.of_nat (size p) + Z.of_nat k)%Z = Some (idx, Node.mk_open s);
  cl_old j : j ≠ idx → (j < Z.of_nat (size p))%Z → q !! j = p !! j;
  cl_size : size q = size p + length new;
  cl_dom j : (0 ≤ j < Z.of_nat (size q))%Z ↔ is_Some (q !! j);
}.

(** What closing a node may put there. *)
Definition fresh_node (p : Prf.t) (n : Node.t) (new : list sequent) : Prop :=
  match n with
  | Node.OpenNode _ _ => False
  | Node.AxiomNode _ _ => new = []
  | Node.InfNode _ _ succs tps =>
    succs = Prf.range (Z.of_nat (size p)) new ∧ length tps = length new
  | Node.BackNode s _ j _ =>
    new = [] ∧ ∃ s', seq_of p j = Some s' ∧ equal_upto_tags s s' = true
  end.

Lemma closes_lookup p idx n new q j x :
  closes p idx n new q → q !! j = Some x →
  (j = idx ∧ x.2 = n ∧ ∃ s d, p !! idx = Some (x.1, Node.OpenNode s d) ∧ Node.get_seq n = s) ∨
  (j ≠ idx ∧ p !! j = Some x ∧ (j < Z.of_nat (size p))%Z) ∨
  (∃ k s, new !! k = Some s ∧ j = (Z.of_nat (size p) + Z.of_nat k)%Z ∧
     x = (idx, Node.mk_open s)).
Proof.
  intros [(par & s & d & Hp & Hs & Hq) Hnew Hold Hsz Hdom] Hj.
  destruct (decide (j = idx)) as [->|Hne]; [left; naive_solver|right].
  destruct (decide (j < Z.of_nat (size p))%Z) as [Hlt|Hge].
  - left. by rewrite <-Hold.
  - right. assert (0 ≤ j < Z.of_nat (size q))%Z as Hd by (apply Hdom; by eexists).
    destruct (lookup_lt_is_Some_2 new (Z.to_nat (j - Z.of_nat (size p)))) as [s' Hs']; [lia|].
    exists (Z.to_nat (j - Z.of_nat (size p))), s'. split; [done|]. split; [lia|].
    apply Hnew in Hs'. rewrite Z2Nat.id in Hs' by lia.
    replace (Z.of_nat (size p) + (j - Z.of_nat (size p)))%Z with j in Hs' by lia. congruence.
Qed.

Lemma closes_idx_lt p idx n new q : t p → closes p idx n new q → (0 ≤ idx < Z.of_nat (size p))%Z.
Proof.
  intros W [(par & s & d & Hp & _) _ _ _ _]. apply (dom_segment p W). by eexists.
Qed.

Lemma closes_seq_of p idx n new q j :
  closes p idx n new q → is_Some (p !! j) → (j < Z.of_nat (size p))%Z →
  seq_of q j = seq_of p j.
Proof.
  intros [(par & s & d & Hp & Hs & Hq) _ Hold _ _] Hj Hlt. unfold seq_of.
  destruct (decide (j = idx)) as [->|Hne]; [|by rewrite Hold].
  rewrite Hp, Hq. simpl. by rewrite Hs.
Qed.

Lemma closes_seq_old p idx n new q j s :
  t p → closes p idx n new q → seq_of p j = Some s → seq_of q j = Some s.
Proof.
  intros W C H. rewrite <-H. assert (is_Some (p !! j)) as Hj.
  { apply fmap_Some in H as (x & Hx & _). by eexists. }
  eapply closes_seq_of; [done|done|]. by apply (dom_segment p W).
Qed.

Lemma closes_open p idx n new q j :
  t p → closes p idx n new q → Node.is_open n = false →
  open_at q j ↔ (open_at p j ∧ j ≠ idx) ∨
                (Z.of_nat (size p) ≤ j < Z.of_nat (size q))%Z.
Proof.
  intros W C Hn. split.
  - intros (par & s & d & Hj).
    destruct (closes_lookup _ _ _ _ _ _ _ C Hj) as [(-> & <- & _)|[(Hne & Hp & _)|(k & s' & Hk & -> & _)]].
    + done.
    + left. split; [by exists par, s, d|done].
    + right. apply lookup_lt_Some in Hk. rewrite (cl_size _ _ _ _ _ C). lia.
  - destruct C as [_ Hnew Hold Hsz _]. intros [[(par & s & d & Hj) Hne]|Hj].
    + exists par, s, d. rewrite Hold; [done..|]. apply (dom_segment p W). by eexists.
    + destruct (lookup_lt_is_Some_2 new (Z.to_nat (j - Z.of_nat (size p)))) as [s' Hs']; [lia|].
      apply Hnew in Hs'. rewrite Z2Nat.id in Hs' by lia.
      replace (Z.of_nat (size p) + (j - Z.of_nat (size p)))%Z with j in Hs' by lia.
      by exists idx, s', "(Open)".
Qed.

(** Closing a node keeps the invariant. *)
Lemma closes_wf p idx n new q :
  t p → closes p idx n new q → fresh_node p n new → t q.
Proof.
  intros W C F. pose proof (closes_idx_lt _ _ _ _ _ W C) as Hidx.
  pose proof C as [(par & s & d & Hp & Hs & Hq) Hnew Hold Hsz Hdom]. split.
  - intros i. by rewrite Hdom.
  - destruct (root_at_0 p W) as [n0 H0]. destruct (decide (0%Z = idx)) as [<-|Hne].
    + rewrite H0 in Hp. injection Hp as <- _. by eexists.
    + exists n0. rewrite Hold; [done..|lia].
  - intros i par' n' Hi Hi0.
    assert (∀ par'', p !! i = Some par'' → par''.1 = par' → (par' < i)%Z ∧ ∃ par'' s d succs tps,
      q !! par' = Some (par'', Node.InfNode s d succs tps) ∧ i ∈ succs) as Hpar.
    { intros [pi ni] Hpi Heq. simpl in Heq. subst pi.
      destruct (parent_of p W i par' ni Hpi Hi0) as (Hlt & par3 & s3 & d3 & succs & tps & H3 & Hin).
      split; [done|]. exists par3, s3, d3, succs, tps. split; [|done].
      rewrite Hold; [done| |apply (dom_segment p W); by eexists].
      intros ->. rewrite Hp in H3. done. }
    destruct (closes_lookup _ _ _ _ _ _ _ C Hi) as [(-> & _ & s1 & d1 & H1 & _)|[(_ & H1 & _)|
      (k & s1 & Hk & -> & [= -> ->])]]; [eapply Hpar; [exact H1|done]|by eapply Hpar|].
    split; [lia|]. destruct n as [| |s2 d2 succs tps|s2 d2 j tps]; simpl in F.
    + done.
    + by rewrite F in Hk.
    + exists par, s2, d2, succs, tps. split; [done|]. destruct F as [-> _].
      apply elem_of_range. apply lookup_lt_Some in Hk. lia.
    + destruct F as [-> _]. done.
  - intros i par' s' d' succs tps Hi.
    destruct (closes_lookup _ _ _ _ _ _ _ C Hi) as [(-> & <- & _)|[(_ & H1 & _)|
      (k & s1 & Hk & -> & [=])]].
    + destruct F as [-> Hlen]. rewrite length_range. split; [done|]. split; [apply NoDup_range|].
      intros j Hj%elem_of_range. split; [lia|].
      destruct (lookup_lt_is_Some_2 new (Z.to_nat (j - Z.of_nat (size p)))) as [s2 Hs2]; [lia|].
      exists (Node.mk_open s2). rewrite <-(Hnew _ _ Hs2). f_equal. lia.
    + destruct (inf_succs p W _ _ _ _ _ _ H1) as (Hlen & Hnd & Hsucc).
      split; [done|]. split; [done|]. intros j Hj. destruct (Hsucc j Hj) as (Hlt & nj & Hnj).
      split; [done|]. destruct (decide (j = idx)) as [->|Hne].
      * rewrite Hp in Hnj. injection Hnj as -> _. by eexists.
      * exists nj. rewrite Hold; [done..|]. apply (dom_segment p W). by eexists.
  - intros i par' s' d' j tps Hi.
    assert (∃ s2, seq_of p j = Some s2 ∧ equal_upto_tags s' s2 = true) as (s2 & Hj & He).
    { destruct (closes_lookup _ _ _ _ _ _ _ C Hi) as [(-> & <- & _)|[(_ & H1 & _)|
        (k & s1 & Hk & -> & [=])]]; [apply F|]. by eapply (back_target p W). }
    exists s2. split; [|done]. by eapply closes_seq_old.
Qed.

(** ** The functions of [proof.ml] as closings *)

Section operations.
Context {QL : SequentLaws Q}.

Lemma ensure_add_ok (p : Prf.t) idx par s d n :
  p !! idx = Some (par, Node.OpenNode s d) → Node.get_seq n = s →
  Prf.ensure_add idx n p = Ok tt.
Proof.
  intros Hp Hn. unfold Prf.ensure_add. rewrite (find_ok p idx par (Node.OpenNode s d)) by done.
  unfold mbind, res_bind. simpl. by rewrite Hn, seq_equal_refl.
Qed.

Lemma replace_ok (p : Prf.t) idx par n n' :
  p !! idx = Some (par, n') → Prf.replace idx n p = Ok (<[idx := (par, n)]> p).
Proof. intros Hp. unfold Prf.replace. by rewrite (get_ok p idx (par, n')). Qed.

Lemma insert_closes (p : Prf.t) idx par s d n :
  t p → p !! idx = Some (par, Node.OpenNode s d) → Node.get_seq n = s →
  closes p idx n [] (<[idx := (par, n)]> p).
Proof.
  intros W Hp Hn.
  assert (size (<[idx := (par, n)]> p) = size p) as Hsz.
  { rewrite map_size_insert, Hp. done. }
  split.
  - exists par, s, d. by rewrite lookup_insert_eq.
  - intros k s' Hk. done.
  - intros j Hne _. by rewrite lookup_insert_ne.
  - rewrite Hsz. simpl. lia.
  - intros j. rewrite Hsz, <-(dom_segment p W), lookup_insert_is_Some.
    destruct (decide (idx = j)) as [->|]; [|naive_solver]. rewrite Hp. naive_solver.
Qed.

Lemma add_axiom_run p idx par s d0 d :
  t p → p !! idx = Some (par, Node.OpenNode s d0) →
  ∃ q, Prf.add_axiom idx d p = Ok q ∧ closes p idx (Node.AxiomNode s d) [] q.
Proof.
  intros W Hp. eexists. split; [|by eapply (insert_closes p idx par s d0)].
  unfold Prf.add_axiom. rewrite (get_seq_ok p idx s) by (unfold seq_of; by rewrite Hp).
  unfold mbind, res_bind. rewrite (ensure_add_ok p idx par s d0) by done.
  by rewrite (replace_ok p idx par _ (Node.OpenNode s d0)).
Qed.

Lemma add_backlink_run p idx par s d0 d target s' vtts :
  t p → p !! idx = Some (par, Node.OpenNode s d0) → seq_of p target = Some s' →
  equal_upto_tags s s' = true →
  ∃ q, Prf.add_backlink idx d target vtts p = Ok q ∧
    closes p idx (Node.BackNode s d target vtts) [] q.
Proof.
  intros W Hp Ht He. eexists. split; [|by eapply (insert_closes p idx par s d0)].
  unfold Prf.add_backlink. rewrite (get_seq_ok p idx s) by (unfold seq_of; by rewrite Hp).
  unfold mbind, res_bind. rewrite (ensure_add_ok p idx par s d0) by done.
  rewrite (get_seq_ok p target s') by done. rewrite He.
  by rewrite (replace_ok p idx par _ (Node.OpenNode s d0)).
Qed.

(** Adding the premises of an inference. *)
Lemma add_premises (m : Prf.t) (idx n : Z) (sgs : list (sequent * tagpairs * tagpairs)) (j : Z) :
  foldl (λ prf' c, <[c.1 := (idx, c.2)]> prf') m
    (zip_with (λ i sg, (i, Node.mk_open sg.1.1)) (Prf.range n sgs) sgs) !! j =
  if decide (n ≤ j)%Z then
    match sgs !! Z.to_nat (j - n) with
    | Some sg => Some (idx, Node.mk_open sg.1.1)
    | None => m !! j
    end
  else m !! j.
Proof.
  revert m n. induction sgs as [|sg sgs IH]; intros m n; [by case_decide|].
  rewrite range_cons. simpl. rewrite IH. destruct (decide (j = n)) as [->|Hne].
  - rewrite decide_False by lia. rewrite decide_True by lia.
    rewrite Z.sub_diag. simpl. by rewrite lookup_insert_eq.
  - rewrite lookup_insert_ne by done. do 2 case_decide; try lia; [|done].
    replace (Z.to_nat (j - n)) with (S (Z.to_nat (j - (n + 1)))) by lia. done.
Qed.

Lemma add_inf_run (p : Prf.t) (idx par : Z) (s : sequent) (d0 d : string)
    (sgs : list (sequent * tagpairs * tagpairs)) :
  t p → p !! idx = Some (par, Node.OpenNode s d0) →
  ∃ q, Prf.add_inf idx d sgs p = Ok (Prf.range (Z.of_nat (size p)) sgs, q) ∧
    closes p idx (Node.InfNode s d (Prf.range (Z.of_nat (size p)) sgs)
                    ((λ sg, (sg.1.2, sg.2)) <$> sgs)) ((λ sg, sg.1.1) <$> sgs) q.
Proof.
  intros W Hp.
  assert (0 ≤ idx < Z.of_nat (size p))%Z as Hidx by (apply (dom_segment p W); by eexists).
  eexists. split.
  - unfold Prf.add_inf, Prf.fresh_idxs. rewrite fresh_idx_ok by done.
    unfold mbind, res_bind, mret, res_ret. rewrite map2_zip_with by apply length_range.
    rewrite (get_seq_ok p idx s) by (unfold seq_of; by rewrite Hp).
    rewrite (ensure_add_ok p idx par s d0) by done.
    by rewrite (replace_ok p idx par _ (Node.OpenNode s d0)).
  - set (n := Node.InfNode _ _ _ _). set (q := foldl _ _ _).
    assert (∀ j, q !! j = if decide (Z.of_nat (size p) ≤ j)%Z then
      match sgs !! Z.to_nat (j - Z.of_nat (size p)) with
      | Some sg => Some (idx, Node.mk_open sg.1.1)
      | None => <[idx := (par, n)]> p !! j
      end else <[idx := (par, n)]> p !! j) as Hq by (intros; apply add_premises).
    assert (∀ j, is_Some (q !! j) ↔ (0 ≤ j < Z.of_nat (size p + length sgs))%Z) as Hdom.
    { intros j. rewrite Hq.
      assert (is_Some (<[idx := (par, n)]> p !! j) ↔ (0 ≤ j < Z.of_nat (size p))%Z) as Hold.
      { rewrite lookup_insert_is_Some, (dom_segment p W).
        split; [intros [<-|[]]; lia|intros; destruct (decide (idx = j)); auto]. }
      case_decide; [|rewrite Hold; lia].
      destruct (sgs !! _) as [sg|] eqn:E.
      - apply lookup_lt_Some in E. split; [lia|by eexists].
      - apply lookup_ge_None in E. rewrite Hold. lia. }
    assert (size q = size p + length sgs) as Hsz by by apply size_segment.
    split.
    + exists par, s, d0. split; [done|]. split; [done|]. rewrite Hq, decide_False by lia.
      by rewrite lookup_insert_eq.
    + intros k s' (sg & -> & Hsg)%list_lookup_fmap_Some. rewrite Hq, decide_True by lia.
      replace (Z.to_nat (Z.of_nat (size p) + Z.of_nat k - Z.of_nat (size p))) with k by lia.
      by rewrite Hsg.
    + intros j Hne Hlt. rewrite Hq, decide_False by lia. by rewrite lookup_insert_ne.
    + by rewrite length_fmap.
    + intros j. by rewrite Hdom, Hsz.
Qed.

(** ** Results on every branch *)

(** What is at [idx], when it is not an open node, decides the exception. *)
Definition not_open (p : Prf.t) (idx : Z) : err :=
  match p !! idx with Some _ => EAssert | None => EExn end.

Lemma ensure_add_err (p : Prf.t) idx x n :
  p !! idx = Some x → Node.is_open x.2 = false → Prf.ensure_add idx n p = Err EAssert.
Proof.
  intros Hp Hn. unfold Prf.ensure_add. destruct x as [par n'].
  rewrite (find_ok p idx par n') by done. unfold mbind, res_bind. simpl in *. by rewrite Hn.
Qed.

Lemma get_seq_none (p : Prf.t) idx : p !! idx = None → Prf.get_seq idx p = Err EExn.
Proof. intros Hp. unfold Prf.get_seq, Prf.find, Prf.get. by rewrite Hp. Qed.

Lemma open_at_dec (p : Prf.t) idx :
  (∃ par s d, p !! idx = Some (par, Node.OpenNode s d)) ∨
  (∃ x, p !! idx = Some x ∧ Node.is_open x.2 = false) ∨ p !! idx = None.
Proof.
  destruct (p !! idx) as [[par [s d| | |]]|]; [left; by eexists _, _, _|right; left; by eexists..|].
  by right; right.
Qed.

Lemma not_open_at p idx x : p !! idx = Some x → Node.is_open x.2 = false → ¬ open_at p idx.
Proof. intros Hp Hn (par & s & d & Hd). rewrite Hd in Hp. by injection Hp as <-. Qed.

Lemma add_axiom_err p idx d : ¬ open_at p idx → Prf.add_axiom idx d p = Err (not_open p idx).
Proof.
  intros Ho. unfold Prf.add_axiom, not_open. destruct (open_at_dec p idx) as [?|[(x & Hx & Hn)|Hx]].
  - done.
  - rewrite (get_seq_ok p idx (Node.get_seq x.2)) by (unfold seq_of; by rewrite Hx).
    unfold mbind, res_bind. by rewrite (ensure_add_err p idx x), Hx.
  - by rewrite (get_seq_none p idx Hx), Hx.
Qed.

Lemma add_inf_err p idx d sgs :
  t p → ¬ open_at p idx → Prf.add_inf idx d sgs p = Err (not_open p idx).
Proof.
  intros W Ho. unfold Prf.add_inf, Prf.fresh_idxs, not_open. rewrite fresh_idx_ok by done.
  unfold mbind, res_bind, mret, res_ret. rewrite map2_zip_with by apply length_range.
  destruct (open_at_dec p idx) as [?|[(x & Hx & Hn)|Hx]]; [done| |].
  - rewrite (get_seq_ok p idx (Node.get_seq x.2)) by (unfold seq_of; by rewrite Hx).
    by rewrite (ensure_add_err p idx x), Hx.
  - by rewrite (get_seq_none p idx Hx), Hx.
Qed.

Lemma add_backlink_err p idx d j v :
  ¬ open_at p idx → Prf.add_backlink idx d j v p = Err (not_open p idx).
Proof.
  intros Ho. unfold Prf.add_backlink, not_open.
  destruct (open_at_dec p idx) as [?|[(x & Hx & Hn)|Hx]]; [done| |].
  - rewrite (get_seq_ok p idx (Node.get_seq x.2)) by (unfold seq_of; by rewrite Hx).
    unfold mbind, res_bind. by rewrite (ensure_add_err p idx x), Hx.
  - by rewrite (get_seq_none p idx Hx), Hx.
Qed.

(** From an open node, the target decides. *)
Lemma add_backlink_target_err p idx par s d0 d j v :
  p !! idx = Some (par, Node.OpenNode s d0) →
  (∀ s', seq_of p j = Some s' → equal_upto_tags s s' = false) →
  Prf.add_backlink idx d j v p =
    Err (match p !! j with Some _ => EAssert | None => EExn end).
Proof.
  intros Hp Hj. unfold Prf.add_backlink.
  rewrite (get_seq_ok p idx s) by (unfold seq_of; by rewrite Hp).
  unfold mbind, res_bind. rewrite (ensure_add_ok p idx par s d0) by done.
  destruct (p !! j) as [x|] eqn:Hx; [|by rewrite get_seq_none].
  assert (seq_of p j = Some (Node.get_seq x.2)) as Hs by (unfold seq_of; by rewrite Hx).
  rewrite (get_seq_ok p j _ Hs). unfold assert_res. by rewrite Hj.
Qed.

(** ** Proofs built from the constructors *)

Inductive step : Prf.t → Prf.t → Prop :=
| step_axiom p q idx d : Prf.add_axiom idx d p = Ok q → step p q
| step_backlink p q idx d j v : Prf.add_backlink idx d j v p = Ok q → step p q
| step_inf p q idx d sgs l : Prf.add_inf idx d sgs p = Ok (l, q) → step p q.

Lemma step_closes p q : t p → step p q → ∃ idx n new, closes p idx n new q ∧ fresh_node p n new.
Proof.
  intros W Hs. revert W. destruct Hs as [p' q' idx d H|p' q' idx d j v H|p' q' idx d sgs l H]; intros W.
  - destruct (open_at_dec p' idx) as [(par & s & d0 & Hi)|Hn].
    + destruct (add_axiom_run p' idx par s d0 d W Hi) as (q2 & Hq2 & C).
      rewrite H in Hq2. injection Hq2 as <-. by eexists _, _, _.
    + rewrite add_axiom_err in H; [done|]. intros (par & s & d0 & Hi). naive_solver.
  - destruct (open_at_dec p' idx) as [(par & s & d0 & Hi)|Hn].
    + assert (∃ s', seq_of p' j = Some s' ∧ equal_upto_tags s s' = true) as (s' & Hs & He).
      { destruct (seq_of p' j) as [s'|] eqn:Hs; [destruct (equal_upto_tags s s') eqn:He|]; [by exists s'|..].
        all: by rewrite (add_backlink_target_err p' idx par s d0) in H; [done|done|naive_solver]. }
      destruct (add_backlink_run p' idx par s d0 d j s' v W Hi Hs He) as (q2 & Hq2 & C).
      rewrite H in Hq2. injection Hq2 as <-. eexists _, _, _. split; [done|].
      split; [done|]. by exists s'.
    + rewrite add_backlink_err in H; [done|]. intros (par & s & d0 & Hi). naive_solver.
  - destruct (open_at_dec p' idx) as [(par & s & d0 & Hi)|Hn].
    + destruct (add_inf_run p' idx par s d0 d sgs W Hi) as (q2 & Hq2 & C).
      rewrite H in Hq2. injection Hq2 as _ <-. eexists _, _, _. split; [done|].
      split; [by rewrite range_fmap|by rewrite !length_fmap].
    + rewrite add_inf_err in H; [done|done|]. intros (par & s & d0 & Hi). naive_solver.
Qed.

Lemma steps_wf p q : rtc step p q → t p → t q.
Proof.
  induction 1 as [p|p q r H _ IH]; [done|]. intros W. apply IH.
  destruct (step_closes p q W H) as (idx & n & new & C & F). by eapply closes_wf.
Qed.

Lemma steps_seq p q i s : rtc step p q → t p → seq_of p i = Some s → seq_of q i = Some s.
Proof.
  induction 1 as [p|p q r H _ IH]; [done|]. intros W Hs.
  destruct (step_closes p q W H) as (idx & n & new & C & F).
  apply IH; [by eapply closes_wf|by eapply closes_seq_old].
Qed.

(** All indices point to existing nodes. *)
Lemma succ_in p : t p → ∀ i j, succ p i j → is_Some (p !! j).
Proof.
  intros W i j (par & n & Hi & Hj). destruct n as [s d|s d|s d succs tps|s d k v]; simpl in Hj.
  - by apply elem_of_nil in Hj.
  - by apply elem_of_nil in Hj.
  - destruct (inf_succs p W _ _ _ _ _ _ Hi) as (_ & _ & H). destruct (H j Hj) as (_ & nj & ->). by eexists.
  - apply list_elem_of_singleton in Hj as ->. destruct (back_target p W _ _ _ _ _ _ Hi) as (s' & Hs & _).
    apply fmap_Some in Hs as (x & -> & _). by eexists.
Qed.
End operations.
End wf.
End Wf.
