(* ===== verification/ProofQueries.v ===== *)
(** * Walks over a cyclic proof: [is_closed_at] and [get_ancestry]

    Both functions of [proof.ml] recurse along the tree of inferences, one
    downwards and one to the root.  On a proof with the invariant they end
    within as many steps as there are nodes. *)

From S2P Require Import Prelude Exn Spot ProofGraph Gtc ProofAut Trace Soundness.
From S2P Require Import SoundnessSpec Soundcheck ProofNode CyclicProof ProofInvariant.

Section queries.
Context {Q : Sequent}.

(** [j] is a premise of the inference at [i]. *)
Definition child (p : Prf.t) (i j : Z) : Prop :=
  ∃ par s d succs tps, p !! i = Some (par, Node.InfNode s d succs tps) ∧ j ∈ succs.

Lemma child_lt p i j : Wf.t p → child p i j → (i < j)%Z ∧ ∃ n, p !! j = Some (i, n).
Proof.
  intros W (par & s & d & succs & tps & Hi & Hj). by apply (Wf.inf_succs p W _ _ _ _ _ _ Hi).
Qed.

Lemma child_parent p i j n : Wf.t p → p !! j = Some (i, n) → j ≠ 0%Z → (i < j)%Z ∧ child p i j.
Proof.
  intros W Hj Hne. destruct (Wf.parent_of p W j i n Hj Hne) as (Hlt & par & s & d & succs & tps & H).
  split; [done|]. by exists par, s, d, succs, tps.
Qed.

(** Every node is below the root. *)
Lemma connected p i : Wf.t p → is_Some (p !! i) → rtc (child p) 0%Z i.
Proof.
  intros W Hi. assert (0 ≤ i)%Z as Hi0 by (apply (Wf.dom_segment p W) in Hi; lia).
  revert Hi. pattern i. apply Z_lt_induction; [|done]. clear i Hi0. intros i IH [[par n] Hi].
  destruct (decide (i = 0%Z)) as [->|Hne]; [apply rtc_refl|].
  destruct (child_parent p par i n W Hi Hne) as [Hlt Hc].
  eapply rtc_r; [|exact Hc]. apply IH.
  - split; [|done]. destruct Hc as (? & ? & ? & ? & ? & Hpar & _).
    assert (is_Some (p !! par)) as Hs by by eexists. apply (Wf.dom_segment p W) in Hs. lia.
  - destruct Hc as (? & ? & ? & ? & ? & Hpar & _). by eexists.
Qed.

(** ** The tree of inferences *)

Lemma child_inj p i j k : Wf.t p → child p i k → child p j k → i = j.
Proof.
  intros W Hi Hj. destruct (child_lt p i k W Hi) as (_ & n & Hn).
  destruct (child_lt p j k W Hj) as (_ & n' & Hn'). congruence.
Qed.

Lemma below_lt p i j : Wf.t p → tc (child p) i j → (i < j)%Z.
Proof.
  intros W. induction 1 as [i j H|i j k H _ IH]; destruct (child_lt p i j W H); lia.
Qed.

Lemma below_le p i j : Wf.t p → rtc (child p) i j → (i ≤ j)%Z.
Proof. intros W [->|H%(below_lt p i j W)]%rtc_tc; lia. Qed.

Lemma below_dom p i j : Wf.t p → tc (child p) i j → is_Some (p !! j).
Proof. intros W. induction 1 as [i j H|]; [|done]. destruct (child_lt p i j W H) as (_ & n & ->). by eexists. Qed.

(** The ancestors of a node form a chain. *)
Lemma ancestors_chain p i j k :
  Wf.t p → rtc (child p) i k → rtc (child p) j k → rtc (child p) i j ∨ rtc (child p) j i.
Proof.
  intros W Hi Hj. revert k Hj Hi.
  apply (rtc_ind_r (λ k, rtc (child p) i k → _)); [by left|]. intros k k' Hk Hc IH Hi.
  apply rtc_inv_r in Hi as [->|(k2 & Hi & Hc2)]; [right; by eapply rtc_r|].
  assert (k2 = k) as -> by by eapply child_inj. auto.
Qed.

(** The subtrees of the premises of a node are disjoint. *)
Lemma siblings_disjoint p i a b x :
  Wf.t p → child p i a → child p i b → rtc (child p) a x → rtc (child p) b x → a = b.
Proof.
  intros W Ha Hb Hx Hy.
  assert (∀ a b, child p i a → child p i b → rtc (child p) a b → a = b) as H.
  { intros a' b' Ha' Hb' [Heq|(k & Hk & Hc)]%rtc_inv_r; [done|].
    assert (k = i) as -> by by eapply child_inj.
    apply (below_le p _ _ W) in Hk. destruct (child_lt p i a' W Ha'). lia. }
  destruct (ancestors_chain p a b x W Hx Hy); [auto|symmetry; auto].
Qed.

(** ** Closed subtrees *)

Lemma for_all_spec {A} (f : A → res bool) (P : A → Prop) l :
  (∀ x, x ∈ l → ∃ b, f x = Ok b ∧ (b = true ↔ P x)) →
  ∃ b, Prf.for_all f l = Ok b ∧ (b = true ↔ ∀ x, x ∈ l → P x).
Proof.
  induction l as [|x l IH]; intros Hf; simpl.
  - exists true. split; [done|]. set_solver.
  - destruct (Hf x) as (b & Hb & HP); [left|]. rewrite Hb. simpl. destruct b.
    + destruct IH as (b & Hb' & HP'); [intros; apply Hf; by right|].
      exists b. split; [done|]. rewrite HP'. set_solver.
    + exists false. split; [done|]. split; [done|]. intros H. apply HP, H. left.
Qed.

(** The verdict of [is_closed_at] at [i]. *)
Definition closed_below (p : Prf.t) (i : Z) : Prop :=
  ∀ j, rtc (child p) i j → ¬ Wf.open_at p j.

Lemma closed_below_leaf p i x :
  p !! i = Some x → Node.is_inf x.2 = false → closed_below p i ↔ Node.is_open x.2 = false.
Proof.
  intros Hi Hn. split.
  - intros H. destruct x as [par [s d| | |]]; [|done..]. destruct (H i); [apply rtc_refl|].
    by exists par, s, d.
  - intros Ho j Hj. apply rtc_inv in Hj as [<-|(k & (par & s & d & succs & tps & Hk & _) & _)].
    + intros (par & s & d & Hi'). rewrite Hi in Hi'. injection Hi' as ->. done.
    + rewrite Hi in Hk. injection Hk as ->. done.
Qed.

Lemma closed_below_inf p i par s d succs tps :
  p !! i = Some (par, Node.InfNode s d succs tps) →
  closed_below p i ↔ ∀ j, j ∈ succs → closed_below p j.
Proof.
  intros Hi. split.
  - intros H j Hj k Hk. apply H. eapply rtc_l; [|done]. by exists par, s, d, succs, tps.
  - intros H j Hj. apply rtc_inv in Hj as [<-|(k & (par' & s' & d' & succs' & tps' & Hk & Hin) & Hr)].
    + intros (par' & s' & d' & Hi'). congruence.
    + rewrite Hi in Hk. simplify_eq. by apply (H k).
Qed.

Lemma closed_at_spec p fuel i :
  Wf.t p → is_Some (p !! i) → (Z.of_nat (size p) - i ≤ Z.of_nat fuel)%Z →
  ∃ b, Prf.closed_at fuel p i = Ok b ∧ (b = true ↔ closed_below p i).
Proof.
  intros W. revert i. induction fuel as [|fuel IH]; intros i Hi Hf.
  - apply (Wf.dom_segment p W) in Hi. lia.
  - destruct Hi as [[par n] Hi]. simpl. rewrite (Wf.find_ok p i par n Hi).
    unfold mbind, res_bind.
    destruct n as [s d|s d|s d succs tps|s d j tps]; simpl.
    + exists false. split; [done|]. by rewrite (closed_below_leaf p i _ Hi).
    + exists true. split; [done|]. by rewrite (closed_below_leaf p i _ Hi).
    + setoid_rewrite (closed_below_inf p i _ _ _ _ _ Hi). apply for_all_spec. intros j Hj.
      destruct (child_lt p i j W) as (Hlt & nj & Hnj); [by exists par, s, d, succs, tps|].
      apply IH; [by eexists|lia].
    + exists true. split; [done|]. by rewrite (closed_below_leaf p i _ Hi).
Qed.

Lemma is_closed_at_spec p i :
  Wf.t p → is_Some (p !! i) → ∃ b, Prf.is_closed_at p i = Ok b ∧ (b = true ↔ closed_below p i).
Proof.
  intros W Hi. apply closed_at_spec; [done..|]. apply (Wf.dom_segment p W) in Hi. lia.
Qed.

(** ** Ancestors *)

(** The nodes on the way from the root to [i], in this order. *)
Inductive ancestry (p : Prf.t) : Z → list (Z * Node.t) → Prop :=
| anc_root n : p !! 0%Z = Some (0%Z, n) → ancestry p 0 [(0%Z, n)]
| anc_step i j n l : ancestry p i l → p !! j = Some (i, n) → child p i j →
    ancestry p j (l ++ [(j, n)]).

Lemma ancestry_loop_spec p fuel acc i par n :
  Wf.t p → p !! i = Some (par, n) → (i < Z.of_nat fuel)%Z →
  ∃ l, ancestry p i l ∧ Prf.ancestry_loop fuel p acc i (par, n) = Ok (l ++ acc).
Proof.
  intros W. revert acc i par n. induction fuel as [|fuel IH]; intros acc i par n Hi Hf.
  - assert (is_Some (p !! i)) as Hd by by eexists. apply (Wf.dom_segment p W) in Hd. lia.
  - simpl. destruct (decide (i = 0%Z)) as [->|Hne].
    + destruct (Wf.root_at_0 p W) as [n0 H0]. rewrite H0 in Hi. injection Hi as <- <-.
      rewrite (Wf.get_ok p 0%Z _ H0). exists [(0%Z, n0)]. split; [by constructor|done].
    + destruct (child_parent p par i n W Hi Hne) as [Hlt Hc].
      pose proof Hc as (par' & s & d & succs & tps & Hpar & _).
      rewrite (Wf.get_ok p par _ Hpar). unfold mbind, res_bind.
      rewrite decide_False by lia.
      destruct (IH ((i, n) :: acc) par par' _ Hpar) as (l & Hl & Hrun); [lia|].
      exists (l ++ [(i, n)]). split; [by econstructor|]. rewrite Hrun.
      by rewrite <-(assoc_L app).
Qed.

Lemma get_ancestry_spec p i :
  Wf.t p → is_Some (p !! i) → ∃ l, Prf.get_ancestry i p = Ok l ∧ ancestry p i l.
Proof.
  intros W Hi. pose proof Hi as Hd. apply (Wf.dom_segment p W) in Hd. destruct Hi as [[par n] Hi].
  destruct (ancestry_loop_spec p (size p) [] i par n W Hi) as (l & Hl & Hrun); [lia|].
  exists l. split; [|done]. unfold Prf.get_ancestry. rewrite (Wf.get_ok p i _ Hi).
  unfold mbind, res_bind. by rewrite Hrun, app_nil_r.
Qed.

Lemma ancestry_in p i l j n :
  ancestry p i l → (j, n) ∈ l → ∃ par, p !! j = Some (par, n).
Proof.
  induction 1 as [n0 H0|k i' n' l Hl IH Hi' _]; intros Hin.
  - apply list_elem_of_singleton in Hin. simplify_eq. by eexists.
  - apply elem_of_app in Hin as [Hin|Hin]; [by apply IH|].
    apply list_elem_of_singleton in Hin. simplify_eq. by eexists.
Qed.

(** The indices listed are those of the ancestors of [i]. *)
Lemma ancestry_ancestors p i l j :
  Wf.t p → ancestry p i l → j ∈ l.*1 ↔ rtc (child p) j i.
Proof.
  intros W. induction 1 as [n0 H0|k i n l Hl IH Hi Hc].
  - simpl. rewrite list_elem_of_singleton. split; [intros ->; apply rtc_refl|].
    intros [?|(k & _ & Hc)]%rtc_inv_r; [done|].
    destruct (child_lt p k 0%Z W Hc) as [Hlt _].
    destruct Hc as (? & ? & ? & ? & ? & Hk & _).
    assert (is_Some (p !! k)) as Hd by by eexists. apply (Wf.dom_segment p W) in Hd. lia.
  - rewrite fmap_app, elem_of_app, IH. simpl. rewrite list_elem_of_singleton. split.
    + intros [Hr| ->]; [by eapply rtc_r|apply rtc_refl].
    + intros [->|(k' & Hr & Hc')]%rtc_inv_r; [by right|]. left.
      destruct (child_lt p k' i W Hc') as (_ & n' & Hn'). congruence.
Qed.
End queries.
