(* ===== verification/ProofSound.v ===== *)
(** * Sound cyclic proofs

    A proof is good when it has the invariant, every closed node is an instance
    of a rule of the calculus, and the abstract proof sent to the checker meets
    the global trace condition.  Axioms and inferences keep proofs good; for a
    back-link the verdict of [Proof.check] decides. *)

From S2P Require Import Prelude Exn Spot ProofGraph Gtc ProofAut Trace Soundness.
From S2P Require Import SoundnessSpec Soundcheck Minimize MinimizeProofs ProofNode CyclicProof.
From S2P Require Import ProofInvariant ProofQueries.

(** ** The rules of a calculus *)

Section calculus.
Context {Q : Sequent}.

(** A premise of an inference: a sequent, valid and progressing tag pairs. *)
Abbreviation subgoal := (sequent * tagpairs * tagpairs)%type.

(** Which axioms, inferences and back-links are instances of the rules. *)
Class Calculus := {
  ax_ok : sequent → Prop;
  inf_ok : sequent → list subgoal → Prop;
  back_ok : sequent → sequent → tagpairs → Prop;
}.

(** Progressing pairs are valid, and pairs relate tags of the two sequents. *)
Definition premise_ok (s : sequent) (sg : subgoal) : Prop :=
  sg.2 ⊆ sg.1.2 ∧ ∀ t u, (t, u) ∈ sg.1.2 → t ∈ tags s ∧ u ∈ tags sg.1.1.

Class CalculusLaws (K : Calculus) : Prop := {
  inf_tags s sgs : inf_ok s sgs → Forall (premise_ok s) sgs;
  back_tags s s' v : back_ok s s' v → premise_ok s (s', v, ∅);
  back_equal s s' v : back_ok s s' v → equal_upto_tags s s' = true;
}.
End calculus.
Abbreviation subgoal := (sequent * tagpairs * tagpairs)%type.

(** A tag is the number of a hash-consed name, within the range of [int]. *)
Class TagRange (Q : Sequent) : Prop := {
  tags_int s t : t ∈ tags s → int_range t;
}.

Section sound.
Context {Q : Sequent} {K : Calculus} {QL : SequentLaws Q} {KL : CalculusLaws K} {TR : TagRange Q}.

(** ** The abstract proof *)

Definition abs (p : Prf.t) : aproof := (λ x, Node.abs x.2) <$> p.

Lemma lookup_abs p i par n : p !! i = Some (par, n) → abs p !! i = Some (Node.abs n).
Proof. intros H. unfold abs. by rewrite lookup_fmap, H. Qed.

Lemma abs_inv p i a : abs p !! i = Some a → ∃ par n, p !! i = Some (par, n) ∧ a = Node.abs n.
Proof. unfold abs. rewrite lookup_fmap. intros ([par n] & H & ->)%fmap_Some. by exists par, n. Qed.

Lemma wf_shaped p i par n : Wf.t p → p !! i = Some (par, n) → Node.shaped n.
Proof.
  intros W H. destruct n as [| |s d succs tps|]; [done|done| |done].
  by destruct (Wf.inf_succs p W _ _ _ _ _ _ H).
Qed.

Lemma prf_keys (p : Prf.t) : (Prf.bindings p).*1 = ints (dom p).
Proof.
  unfold Prf.bindings.
  assert (∀ l, (∀ i, i ∈ l → is_Some (p !! i)) →
    (omap (λ i, pair i <$> p !! i) l).*1 = l) as H.
  { induction l as [|i l IH]; intros Hl; [done|].
    destruct (Hl i) as [x Hx]; [left|]. simpl. rewrite Hx. simpl. f_equal.
    apply IH. intros; apply Hl; by right. }
  apply H. intros i Hi%elem_of_ints. by apply elem_of_dom.
Qed.

Lemma abstract_ok p : Wf.t p → Prf.abstract p = Ok (abs p).
Proof.
  intros W. unfold Prf.abstract.
  rewrite (map_res_ok _ (λ b, (b.1, Node.abs b.2.2))).
  - unfold mbind, res_bind, mret, res_ret. f_equal. apply map_eq. intros i. apply option_eq. intros a.
    rewrite <-elem_of_list_to_map.
    + rewrite list_elem_of_fmap. split.
      * intros ([j [par n]] & [= -> ->] & H%Wf.elem_of_prf). by apply (lookup_abs p _ par).
      * intros (par & n & H & ->)%abs_inv. exists (i, (par, n)).
        split; [done|]. by apply Wf.elem_of_prf.
    + rewrite <-list_fmap_compose. simpl. change (NoDup (Prf.bindings p).*1).
      rewrite prf_keys. apply NoDup_ints.
  - intros [i [par n]] H%Wf.elem_of_prf. simpl in *.
    by rewrite (to_abstract_node_ok n) by by eapply wf_shaped.
Qed.

(** ** Justified proofs *)

Record justified (p : Prf.t) : Prop := {
  ju_ax i par s d : p !! i = Some (par, Node.AxiomNode s d) → ax_ok s;
  ju_inf i par s d succs tps : p !! i = Some (par, Node.InfNode s d succs tps) →
    ∃ sgs, inf_ok s sgs ∧ tps = (λ sg, (sg.1.2, sg.2)) <$> sgs ∧
      Forall2 (λ j sg, Wf.seq_of p j = Some sg.1.1) succs sgs;
  ju_back i par s d j v : p !! i = Some (par, Node.BackNode s d j v) →
    ∃ s', Wf.seq_of p j = Some s' ∧ back_ok s s' v;
}.

(** An edge of a justified proof. *)
Lemma justified_edge p i par n e :
  justified p → p !! i = Some (par, n) → e ∈ Node.edges n →
  ∃ s', Wf.seq_of p (premise e) = Some s' ∧ premise_ok (Node.get_seq n) (s', e.1.2, e.2).
Proof.
  intros J Hi He. destruct n as [s d|s d|s d succs tps|s d j v]; simpl in He.
  - by apply elem_of_nil in He.
  - by apply elem_of_nil in He.
  - destruct (ju_inf p J _ _ _ _ _ _ Hi) as (sgs & Hok & -> & Hs).
    apply list_elem_of_lookup in He as [k Hk]. apply lookup_zip_with_Some in Hk
      as (j & tt & -> & Hj & (sg & -> & Hsg)%list_lookup_fmap_Some_1).
    destruct (Forall2_lookup_l _ _ _ _ _ Hs Hj) as (sg' & Hsg' & Hseq).
    assert (sg' = sg) as -> by congruence. exists sg.1.1. split; [done|].
    eapply Forall_lookup_1 in Hsg; [|by apply inf_tags]. by destruct sg as [[]].
  - apply list_elem_of_singleton in He as ->. simpl.
    destruct (ju_back p J _ _ _ _ _ _ Hi) as (s' & Hs & Hok). exists s'. split; [done|].
    by apply back_tags.
Qed.

Lemma abs_valid p : Wf.t p → justified p → valid (abs p) 0 = true.
Proof.
  intros W J. apply valid_intro.
  - destruct (Wf.root_at_0 p W) as [n Hn]. apply elem_of_dom. rewrite (lookup_abs p _ _ _ Hn). by eexists.
  - intros i a e (par & n & Hi & ->)%abs_inv He.
    destruct (justified_edge p i par n e J Hi He) as (s' & ([par' n'] & Hj & ->)%fmap_Some & Hsub & Ht).
    exists (Node.abs n'). split; [by apply (lookup_abs p _ par')|]. split; [done|].
    intros t u Htu. by apply Ht.
Qed.

Lemma abs_distinct p : Wf.t p → distinct (abs p).
Proof.
  intros W i a (par & n & Hi & ->)%abs_inv. unfold Node.abs, get_subg. simpl.
  rewrite premise_edges by by eapply wf_shaped.
  destruct n as [s d|s d|s d succs tps|s d j v]; simpl; [constructor|constructor| |].
  - by destruct (Wf.inf_succs p W _ _ _ _ _ _ Hi) as (_ & ? & _).
  - apply NoDup_singleton.
Qed.

Lemma abs_fits p : Wf.t p → (Z.of_nat (size p) ≤ max_nodes)%Z → fits (abs p).
Proof.
  intros W Hs i a (par & n & Hi & ->)%abs_inv. split.
  - assert (is_Some (p !! i)) as Hd by by eexists. apply (Wf.dom_segment p W) in Hd.
    unfold int_range, INT_MIN, INT_MAX, max_nodes in *. lia.
  - intros t Ht. by apply (tags_int (Node.get_seq n)).
Qed.

(** ** Soundness *)

Definition sound (p : Prf.t) : Prop := gtc (aproof_graph (abs p) 0).

Record good (p : Prf.t) : Prop := {
  good_wf : Wf.t p;
  good_justified : justified p;
  good_sound : sound p;
}.

(** [Proof.check] returns, and decides soundness. *)
Lemma check_spec {St} {C : GtcChecker St} {inv : St → Prop} {CL : GtcCheckerLaws C inv} p s :
  Wf.t p → justified p → (Z.of_nat (size p) ≤ max_nodes)%Z → inv s →
  returns (Prf.check p) s (λ b s', inv s' ∧ (b = true ↔ sound p)).
Proof.
  intros W J Hs Hinv. unfold Prf.check. apply returns_bind.
  eapply returns_lift; [by apply abstract_ok|].
  apply check_proof_decides; [done|by apply abs_distinct|by apply abs_valid|by apply abs_fits|].
  unfold abs. by rewrite map_size_fmap.
Qed.

(** ** Closing a node *)

(** The node put at a closed index is an instance of a rule. *)
Definition node_justified (p : Prf.t) (n : Node.t) (new : list sequent) : Prop :=
  match n with
  | Node.OpenNode _ _ => False
  | Node.AxiomNode s _ => ax_ok s
  | Node.InfNode s _ _ tps => ∃ sgs : list subgoal,
      inf_ok s sgs ∧ tps = (λ sg, (sg.1.2, sg.2)) <$> sgs ∧ new = (λ sg, sg.1.1) <$> sgs
  | Node.BackNode s _ j v => ∃ s', Wf.seq_of p j = Some s' ∧ back_ok s s' v
  end.

Lemma closes_justified p idx n new q :
  Wf.t p → Wf.closes p idx n new q → Wf.fresh_node p n new → node_justified p n new →
  justified p → justified q.
Proof.
  intros W C F N J. split.
  - intros i par s d Hi.
    destruct (Wf.closes_lookup _ _ _ _ _ _ _ C Hi) as [(-> & <- & _)|[(_ & H1 & _)|
      (k & s1 & Hk & -> & [=])]]; [done|by eapply (ju_ax p J)].
  - intros i par s d succs tps Hi.
    destruct (Wf.closes_lookup _ _ _ _ _ _ _ C Hi) as [(-> & <- & _)|[(_ & H1 & _)|
      (k & s1 & Hk & -> & [=])]].
    + destruct N as (sgs & Hok & -> & ->), F as [-> _]. exists sgs. split; [done|]. split; [done|].
      apply Forall2_same_length_lookup. split; [by rewrite length_range, length_fmap|].
      intros k j sg Hj Hsg. rewrite lookup_range, list_lookup_fmap, Hsg in Hj. simplify_eq/=.
      unfold Wf.seq_of. rewrite Z.add_comm.
      rewrite (Wf.cl_new _ _ _ _ _ C k sg.1.1); [done|]. by rewrite list_lookup_fmap, Hsg.
    + destruct (ju_inf p J _ _ _ _ _ _ H1) as (sgs & Hok & -> & Hs). exists sgs.
      split; [done|]. split; [done|]. eapply Forall2_impl; [exact Hs|].
      intros j sg. simpl. by eapply Wf.closes_seq_old.
  - intros i par s d j v Hi.
    assert (∃ s', Wf.seq_of p j = Some s' ∧ back_ok s s' v) as (s' & Hs & Hok).
    { destruct (Wf.closes_lookup _ _ _ _ _ _ _ C Hi) as [(-> & <- & _)|[(_ & H1 & _)|
        (k & s1 & Hk & -> & [=])]]; [done|]. by eapply (ju_back p J). }
    exists s'. split; [|done]. by eapply Wf.closes_seq_old.
Qed.

(** Proofs that agree along a path agree on its traces. *)
Lemma good_path_agree (p q : aproof) π :
  (∀ i, q !! π i = p !! π i) →
  good_path (aproof_graph p 0) π → good_path (aproof_graph q 0) π.
Proof.
  intros H (k & τ & Ht & Hp). exists k, τ. split.
  - intros i Hk. destruct (Ht i Hk) as (n & e & Hn & He). exists n, e. by rewrite H.
  - eapply inf_often_impl; [|exact Hp]. intros i (n & e & Hn & He). exists n, e. by rewrite H.
Qed.

(** An infinite path never meets an open node. *)
Lemma path_not_open p π i : is_path (aproof_graph (abs p) 0) π → ¬ Wf.open_at p (π i).
Proof.
  intros [_ HS] (par & s & d & Hi).
  destruct (HS i) as (a & e & Ha & He & _). rewrite (lookup_abs p _ _ _ Hi) in Ha.
  injection Ha as <-. by apply elem_of_nil in He.
Qed.

(** Closing a node with anything but a back-link adds no infinite path. *)
Lemma closes_sound p idx n new q :
  Wf.t p → Wf.closes p idx n new q → Wf.fresh_node p n new → Node.is_backlink n = false →
  sound p → sound q.
Proof.
  intros W C F Hb Hp π Hπ.
  assert (∀ i, π i ≠ idx) as Hne.
  { intros i Hi. destruct Hπ as [H0 HS]. destruct (HS i) as (a & e & Ha & He & Hprem).
    destruct (Wf.cl_open _ _ _ _ _ C) as (par & s & d & _ & _ & Hq).
    rewrite Hi, (lookup_abs q _ _ _ Hq) in Ha. injection Ha as <-. simpl in He.
    destruct n as [s' d'|s' d'|s' d' succs tps|]; [by apply elem_of_nil in He..| |done].
    apply (path_not_open q π (S i)); [by split|].
    apply (Wf.closes_open _ _ _ _ _ (π (S i)) W C eq_refl). right. rewrite (Wf.cl_size _ _ _ _ _ C).
    destruct F as [-> _]. apply list_elem_of_lookup in He as [k Hk].
    apply lookup_zip_with_Some in Hk as (j & tt & -> & Hj & _).
    apply list_elem_of_lookup_2, elem_of_range in Hj. rewrite <-Hprem. unfold premise. simpl. lia. }
  assert (∀ i, abs q !! π i = abs p !! π i) as Hag.
  { intros i. pose proof (path_not_open q π i Hπ) as Ho. destruct Hπ as [_ HS].
    destruct (HS i) as (a & _ & Ha & _). apply abs_inv in Ha as (par & m & Hm & _).
    destruct (Wf.closes_lookup _ _ _ _ _ _ _ C Hm) as [(He & _)|[(_ & H1 & _)|(k & s & Hk & Hj & [= -> ->])]].
    - by destruct (Hne i).
    - unfold abs. by rewrite !lookup_fmap, Hm, H1.
    - destruct Ho. by exists idx, s, "(Open)". }
  eapply good_path_agree; [exact Hag|]. apply Hp. destruct Hπ as [H0 HS]. split; [done|].
  intros i. destruct (HS i) as (a & e & Ha & He). exists a, e. by rewrite <-Hag.
Qed.

Lemma mk_good s : good (Prf.mk s).
Proof.
  assert (∀ i x, Prf.mk s !! i = Some x → x = (0%Z, Node.mk_open s)) as Hl.
  { intros i x. unfold Prf.mk. rewrite lookup_insert_Some, lookup_empty. naive_solver. }
  split; [apply Wf.mk_wf| |].
  - split; intros; by match goal with H : Prf.mk _ !! _ = Some _ |- _ => apply Hl in H end.
  - intros π Hπ. destruct (path_not_open _ π 0 Hπ). destruct Hπ as [-> _].
    exists 0%Z, s, "(Open)". unfold Prf.mk. by rewrite lookup_insert_eq.
Qed.

Lemma closes_good p idx n new q :
  good p → Wf.closes p idx n new q → Wf.fresh_node p n new → node_justified p n new →
  Wf.t q ∧ justified q ∧ (Node.is_backlink n = false → good q).
Proof.
  intros [W J S] C F N.
  assert (Wf.t q) as Wq by by eapply Wf.closes_wf.
  assert (justified q) as Jq by exact (closes_justified p idx n new q W C F N J).
  split; [done|]. split; [done|]. intros Hb. split; [done..|]. exact (closes_sound p idx n new q W C F Hb S).
Qed.

(** The constructors on good proofs. *)
Lemma add_axiom_good p idx par s d0 d q :
  good p → p !! idx = Some (par, Node.OpenNode s d0) → ax_ok s →
  Prf.add_axiom idx d p = Ok q → good q.
Proof.
  intros Hp Hi Hok Hq. destruct (Wf.add_axiom_run p idx par s d0 d (good_wf p Hp) Hi) as (q' & Hq' & C).
  rewrite Hq in Hq'. injection Hq' as <-. by eapply (closes_good p idx (Node.AxiomNode s d) []).
Qed.

Lemma add_inf_good (p : Prf.t) (idx par : Z) (s : sequent) (d0 d : string) (sgs : list subgoal)
    (l : list Z) (q : Prf.t) :
  good p → p !! idx = Some (par, Node.OpenNode s d0) → inf_ok s sgs →
  Prf.add_inf idx d sgs p = Ok (l, q) → good q.
Proof.
  intros Hp Hi Hok Hq. destruct (Wf.add_inf_run p idx par s d0 d sgs (good_wf p Hp) Hi) as (q' & Hq' & C).
  rewrite Hq in Hq'. injection Hq' as _ <-. eapply (closes_good _ _ _ _ _ Hp C); [|by exists sgs|done].
  split; [by rewrite range_fmap|by rewrite !length_fmap].
Qed.

(** A back-link keeps proofs good when the condition still holds. *)
Lemma add_backlink_good p idx par s d0 d j s' v q :
  good p → p !! idx = Some (par, Node.OpenNode s d0) → Wf.seq_of p j = Some s' → back_ok s s' v →
  Prf.add_backlink idx d j v p = Ok q → Wf.t q ∧ justified q ∧ (sound q → good q).
Proof.
  intros Hp Hi Hj Hok Hq. pose proof (back_equal s s' v Hok) as He.
  destruct (Wf.add_backlink_run p idx par s d0 d j s' v (good_wf p Hp) Hi Hj He) as (q' & Hq' & C).
  rewrite Hq in Hq'. injection Hq' as <-.
  destruct (closes_good _ _ _ _ _ Hp C) as (W & J & _); [by split; [|exists s']|by exists s'|].
  split; [done|]. split; [done|]. intros S. by split.
Qed.
End sound.
