(* ===== verification/ProofCopy.v ===== *)
(** * Copying a proof: [add_subprf]

    [add_subprf] of [proof.ml] copies a proof over an open node of another one:
    first the tree of inferences, with a map from the nodes to their copies, then
    the back-links.  [copied] describes the first pass, [embeds] its result and
    that of the second: the copy has a node for every node of the proof copied,
    the same up to the renaming of indices. *)

From S2P Require Import Prelude Exn Spot ProofGraph Gtc ProofAut Trace Soundness.
From S2P Require Import SoundnessSpec Soundcheck Minimize MinimizeProofs ProofNode CyclicProof.
From S2P Require Import ProofInvariant ProofQueries ProofSound.

Section copy.
Context {Q : Sequent} {QL : SequentLaws Q}.

(** Node [n] with its indices renamed by [m]. *)
Definition image (m : gmap Z Z) (n n' : Node.t) : Prop :=
  match n, n' with
  | Node.OpenNode s _, Node.OpenNode s' _ => s = s'
  | Node.AxiomNode s d, Node.AxiomNode s' d' => s = s' ∧ d = d'
  | Node.InfNode s d succs tps, Node.InfNode s' d' succs' tps' =>
    s = s' ∧ d = d' ∧ tps = tps' ∧ Forall2 (λ j j', m !! j = Some j') succs succs'
  | Node.BackNode s d j v, Node.BackNode s' d' j' v' =>
    s = s' ∧ d = d' ∧ v = v' ∧ m !! j = Some j'
  | _, _ => False
  end.

(** The image before the back-links are added. *)
Definition pending (m : gmap Z Z) (n n' : Node.t) : Prop :=
  match n, n' with
  | Node.BackNode s _ _ _, Node.OpenNode s' _ => s = s'
  | Node.BackNode _ _ _ _, _ => False
  | _, _ => image m n n'
  end.

Lemma pending_seq m n n' : pending m n n' → Node.get_seq n' = Node.get_seq n.
Proof. destruct n, n'; simpl; naive_solver. Qed.

Lemma image_seq m n n' : image m n n' → Node.get_seq n' = Node.get_seq n.
Proof. destruct n, n'; simpl; naive_solver. Qed.

(** Only the premises of an inference matter to [pending]. *)
Lemma pending_agree m m' n n' :
  (∀ s d succs tps j, n = Node.InfNode s d succs tps → j ∈ succs → m' !! j = m !! j) →
  pending m n n' → pending m' n n'.
Proof.
  intros H. destruct n as [| |s d succs tps|], n' as [| |s' d' succs' tps'|]; try done. simpl.
  intros (-> & -> & -> & Hl). split_and!; try done.
  apply Forall2_same_length_lookup. split; [by eapply Forall2_length|].
  intros k j j' Hj Hj'. rewrite (H _ _ _ _ j eq_refl) by by eapply list_elem_of_lookup_2.
  by apply (Forall2_lookup_lr _ _ _ _ _ _ Hl Hj Hj').
Qed.

Section tree.
Variable src : Prf.t.
Hypothesis Hsrc : Wf.t src.

(** Nodes strictly below, and below, one of [l]. *)
Definition below (l : list Z) (i : Z) : Prop := ∃ a, a ∈ l ∧ tc (child src) a i.
Definition under (l : list Z) (i : Z) : Prop := ∃ a, a ∈ l ∧ rtc (child src) a i.

Lemma under_below l i : under l i ↔ i ∈ l ∨ below l i.
Proof.
  split.
  - intros (a & Ha & [->|H]%rtc_tc); [by left|right; by exists a].
  - intros [H|(a & Ha & H)]; [by exists i|exists a; split; [done|by apply tc_rtc]].
Qed.

Lemma below_one a par s d succs tps i :
  src !! a = Some (par, Node.InfNode s d succs tps) → below [a] i ↔ under succs i.
Proof.
  intros Ha. split.
  - intros (b & ->%list_elem_of_singleton & H).
    assert (∃ c, child src a c ∧ rtc (child src) c i) as (c & Hc & Hr).
    { inversion H as [? ? Hc|? c ? Hc Ht]; subst; [by exists i|exists c; split; [done|by apply tc_rtc]]. }
    exists c. split; [|done]. destruct Hc as (? & ? & ? & ? & ? & Hc & Hin).
    rewrite Ha in Hc. by simplify_eq.
  - intros (c & Hc & Hr). exists a. split; [by left|].
    eapply tc_rtc_r; [apply tc_once; by exists par, s, d, succs, tps|done].
Qed.

Lemma below_leaf a par n i : src !! a = Some (par, n) → Node.is_inf n = false → ¬ below [a] i.
Proof.
  intros Ha Hn (b & ->%list_elem_of_singleton & H).
  assert (∃ c, child src a c) as (c & ? & ? & ? & ? & ? & Hc & _).
  { inversion H; subst; by eexists. }
  rewrite Ha in Hc. by injection Hc as -> ->.
Qed.

(** Roots of disjoint subtrees. *)
Definition apart (l : list Z) : Prop := NoDup l ∧ ∀ a b x,
  a ∈ l → b ∈ l → rtc (child src) a x → rtc (child src) b x → a = b.

Lemma apart_not_below l a : apart l → a ∈ l → ¬ below l a.
Proof.
  intros [_ H] Ha (b & Hb & Hba).
  assert (a = b) as -> by (apply (H a b a); [done|done|done|by apply tc_rtc]).
  apply (below_lt src b b Hsrc) in Hba. lia.
Qed.

Lemma apart_cons a l : apart (a :: l) → apart l ∧ (a ∉ l) ∧ ∀ x, under l x → ¬ rtc (child src) a x.
Proof.
  intros [[Ha Hnd]%NoDup_cons H]. split; [|split].
  - split; [done|]. intros b c x Hb Hc. apply H; by right.
  - done.
  - intros x (b & Hb & Hx) Hax. assert (a = b) as -> by (apply (H a b x); [left|by right|done..]). done.
Qed.

Lemma apart_succs a par s d succs tps :
  src !! a = Some (par, Node.InfNode s d succs tps) → apart succs.
Proof.
  intros Ha. split; [apply (Wf.inf_succs src Hsrc _ _ _ _ _ _ Ha)|].
  intros b c x Hb Hc. apply (siblings_disjoint src a b c x Hsrc); by exists par, s, d, succs, tps.
Qed.

(** The roots [l] are mapped to open nodes [l'] with the same sequents. *)
Record ready (l l' : list Z) (q : Prf.t) (m : gmap Z Z) : Prop := {
  rd_wf : Wf.t q;
  rd_apart : apart l;
  rd_map : Forall2 (λ a a', m !! a = Some a') l l';
  rd_open : Forall2 (λ a a', ∃ par s d,
    q !! a' = Some (par, Node.OpenNode s d) ∧ Wf.seq_of src a = Some s) l l';
  rd_nodup : NoDup l';
}.

(** The subtrees of [l] have been copied. *)
Record copied (l l' : list Z) (q : Prf.t) (m : gmap Z Z) (bls : list (Z * Z))
    (q1 : Prf.t) (m1 : gmap Z Z) (bls1 : list (Z * Z)) : Prop := {
  cp_wf : Wf.t q1;
  cp_size : size q ≤ size q1;
  cp_keep j x : j ∉ l' → q !! j = Some x → q1 !! j = Some x;
  cp_same i : ¬ below l i → m1 !! i = m !! i;
  cp_new i : below l i → ∃ i', m1 !! i = Some i' ∧
    (Z.of_nat (size q) ≤ i' < Z.of_nat (size q1))%Z;
  cp_inj i j i' : below l i → below l j → m1 !! i = Some i' → m1 !! j = Some i' → i = j;
  cp_cover i' : (Z.of_nat (size q) ≤ i' < Z.of_nat (size q1))%Z →
    ∃ i, below l i ∧ m1 !! i = Some i';
  cp_nodes i i' par n : under l i → m1 !! i = Some i' → src !! i = Some (par, n) →
    ∃ par' n', q1 !! i' = Some (par', n') ∧ pending m1 n n';
  cp_bls : ∃ new, bls1 = new ++ bls ∧ NoDup new.*1 ∧ ∀ b, b ∈ new ↔
    under l b.1 ∧ m1 !! b.1 = Some b.2 ∧
    ∃ par s d j v, src !! b.1 = Some (par, Node.BackNode s d j v);
}.

Lemma copied_nil q m bls : Wf.t q → copied [] [] q m bls q m bls.
Proof.
  intros W. assert (∀ i, ¬ under [] i) as Hu by (by intros i (a & Ha%elem_of_nil & _)).
  assert (∀ i, ¬ below [] i) as Hb by (by intros i (a & Ha%elem_of_nil & _)).
  split; [done|done|done|done|..].
  - intros i Hi. by destruct (Hb i).
  - intros i j i' Hi. by destruct (Hb i).
  - lia.
  - intros i i' par n Hi. by destruct (Hu i).
  - exists []. split; [done|]. split; [constructor|]. intros b. split; [set_solver|].
    intros (Hi & _). by destruct (Hu b.1).
Qed.

Lemma ready_head a a' l l' q m : ready (a :: l) (a' :: l') q m → ready [a] [a'] q m.
Proof.
  intros [W [Hnd Ha] [Hm _]%Forall2_cons_1 [Ho _]%Forall2_cons_1 Hnd']. split.
  - done.
  - split; [apply NoDup_singleton|]. by intros b c x ->%list_elem_of_singleton ->%list_elem_of_singleton.
  - by repeat constructor.
  - by repeat constructor.
  - apply NoDup_singleton.
Qed.

Lemma ready_tail a a' l l' q m bls q1 m1 bls1 :
  ready (a :: l) (a' :: l') q m → copied [a] [a'] q m bls q1 m1 bls1 → ready l l' q1 m1.
Proof.
  intros [W [Hap [Hal Hdis]]%apart_cons [Hm Hml]%Forall2_cons_1 [Ho Hol]%Forall2_cons_1
    [Ha' Hnd']%NoDup_cons] C. split; [apply C|done|..|done].
  - apply Forall2_same_length_lookup. split; [by eapply Forall2_length|].
    intros k b b' Hb Hb'. rewrite (cp_same _ _ _ _ _ _ _ _ C).
    + by apply (Forall2_lookup_lr _ _ _ _ _ _ Hml Hb Hb').
    + intros (c & ->%list_elem_of_singleton & Hc). apply (Hdis b); [|by apply tc_rtc].
      exists b. split; [by eapply list_elem_of_lookup_2|done].
  - apply Forall2_same_length_lookup. split; [by eapply Forall2_length|].
    intros k b b' Hb Hb'.
    destruct (Forall2_lookup_lr _ _ _ _ _ _ Hol Hb Hb') as (par & s & d & Hq & Hs).
    exists par, s, d. split; [|done]. apply (cp_keep _ _ _ _ _ _ _ _ C); [|done].
    intros ->%list_elem_of_singleton. apply Ha'. by eapply list_elem_of_lookup_2.
Qed.

Lemma below_cons a l i : below (a :: l) i ↔ below [a] i ∨ below l i.
Proof. unfold below. set_solver. Qed.

Lemma under_cons a l i : under (a :: l) i ↔ under [a] i ∨ under l i.
Proof. unfold under. set_solver. Qed.

Lemma below_child a i par s d succs tps j :
  under [a] i → src !! i = Some (par, Node.InfNode s d succs tps) → j ∈ succs → below [a] j.
Proof.
  intros (b & ->%list_elem_of_singleton & Hi) Hn Hj. exists a. split; [by left|].
  eapply tc_rtc_l; [done|]. apply tc_once. by exists par, s, d, succs, tps.
Qed.

(** The copies of the first subtree are not the other roots. *)
Lemma copy_not_root a a' l l' q m bls q1 m1 bls1 i i' :
  ready (a :: l) (a' :: l') q m → copied [a] [a'] q m bls q1 m1 bls1 →
  under [a] i → m1 !! i = Some i' → i' ∉ l'.
Proof.
  intros R C Hi Hmi Hin.
  pose proof (apart_not_below [a] a (rd_apart _ _ _ _ (ready_head _ _ _ _ _ _ R)) ltac:(left)) as Hnb.
  pose proof R as [W _ [Hm _]%Forall2_cons_1 [_ Ho]%Forall2_cons_1 [Ha' _]%NoDup_cons].
  apply under_below in Hi as [->%list_elem_of_singleton|Hi].
  - rewrite (cp_same _ _ _ _ _ _ _ _ C a Hnb), Hm in Hmi. by injection Hmi as ->.
  - destruct (cp_new _ _ _ _ _ _ _ _ C i Hi) as (i2 & Hi2 & Hge). rewrite Hmi in Hi2. injection Hi2 as <-.
    apply list_elem_of_lookup in Hin as [k Hk].
    destruct (Forall2_lookup_r _ _ _ _ _ Ho Hk) as (b & _ & par & s & d & Hb & _).
    assert (is_Some (q !! i')) as Hd by by eexists. apply (Wf.dom_segment q W) in Hd. lia.
Qed.

(** ** The copies of the subtrees one after the other *)

Section siblings.
Variables (a a' : Z) (l l' : list Z) (q q1 q2 : Prf.t) (m m1 m2 : gmap Z Z).
Variables (bls bls1 bls2 : list (Z * Z)).
Hypothesis R : ready (a :: l) (a' :: l') q m.
Hypothesis C : copied [a] [a'] q m bls q1 m1 bls1.
Hypothesis D : copied l l' q1 m1 bls1 q2 m2 bls2.

Lemma sib_apart i : under [a] i → ¬ under l i.
Proof using R.
  intros (b & ->%list_elem_of_singleton & Hi) Hl.
  destruct (apart_cons a l (rd_apart _ _ _ _ R)) as (_ & _ & Hdis). by destruct (Hdis i Hl).
Qed.

(** The second copy leaves the first one alone. *)
Lemma sib_map i : under [a] i → m2 !! i = m1 !! i.
Proof using R D.
  intros Hi. apply (cp_same _ _ _ _ _ _ _ _ D). intros Hl. apply (sib_apart i Hi), under_below. by right.
Qed.

Lemma sib_map_below i : below [a] i → m2 !! i = m1 !! i.
Proof using R D. intros Hi. apply sib_map, under_below. by right. Qed.

Lemma sib_new i : below (a :: l) i →
  ∃ i', m2 !! i = Some i' ∧ (Z.of_nat (size q) ≤ i' < Z.of_nat (size q2))%Z.
Proof using Hsrc QL R C D.
  pose proof (cp_size _ _ _ _ _ _ _ _ C). pose proof (cp_size _ _ _ _ _ _ _ _ D).
  intros [Hi|Hi]%below_cons.
  - rewrite sib_map_below by done.
    destruct (cp_new _ _ _ _ _ _ _ _ C i Hi) as (i' & -> & Hi'). exists i'. split; [done|lia].
  - destruct (cp_new _ _ _ _ _ _ _ _ D i Hi) as (i' & -> & Hi'). exists i'. split; [done|lia].
Qed.

Lemma sib_inj i j i' : below (a :: l) i → below (a :: l) j →
  m2 !! i = Some i' → m2 !! j = Some i' → i = j.
Proof using Hsrc QL R C D.
  assert (∀ i j i', below [a] i → below l j → m2 !! i = Some i' → m2 !! j = Some i' → False) as Hx.
  { intros x y z Hi Hj. rewrite sib_map_below by done.
    destruct (cp_new _ _ _ _ _ _ _ _ C x Hi) as (i1 & -> & Hi1).
    destruct (cp_new _ _ _ _ _ _ _ _ D y Hj) as (j1 & -> & Hj1). intros [= ->] [= ->]. lia. }
  intros [Hi|Hi]%below_cons [Hj|Hj]%below_cons H1 H2.
  - rewrite sib_map_below in H1, H2 by done. by eapply (cp_inj _ _ _ _ _ _ _ _ C).
  - by destruct (Hx i j i').
  - by destruct (Hx j i i').
  - by eapply (cp_inj _ _ _ _ _ _ _ _ D).
Qed.

Lemma sib_cover i' : (Z.of_nat (size q) ≤ i' < Z.of_nat (size q2))%Z →
  ∃ i, below (a :: l) i ∧ m2 !! i = Some i'.
Proof using Hsrc QL R C D.
  intros Hi'. destruct (decide (i' < Z.of_nat (size q1))%Z).
  - destruct (cp_cover _ _ _ _ _ _ _ _ C i') as (i & Hi & Hmi); [lia|].
    exists i. split; [apply below_cons; by left|]. by rewrite sib_map_below.
  - destruct (cp_cover _ _ _ _ _ _ _ _ D i') as (i & Hi & Hmi); [lia|].
    exists i. split; [apply below_cons; by right|done].
Qed.

Lemma sib_nodes i i' par n : under (a :: l) i → m2 !! i = Some i' → src !! i = Some (par, n) →
  ∃ par' n', q2 !! i' = Some (par', n') ∧ pending m2 n n'.
Proof using Hsrc QL R C D.
  intros [Hi|Hi]%under_cons Hmi Hn; [|by eapply (cp_nodes _ _ _ _ _ _ _ _ D)].
  rewrite sib_map in Hmi by done.
  destruct (cp_nodes _ _ _ _ _ _ _ _ C i i' par n Hi Hmi Hn) as (par' & n' & Hq1 & Hp).
  exists par', n'. split.
  - apply (cp_keep _ _ _ _ _ _ _ _ D); [|done]. by eapply copy_not_root.
  - eapply pending_agree; [|done]. intros s d succs tps j -> Hj. apply sib_map_below.
    by eapply below_child.
Qed.

Lemma sib_bls : ∃ new, bls2 = new ++ bls ∧ NoDup new.*1 ∧ ∀ b, b ∈ new ↔
  under (a :: l) b.1 ∧ m2 !! b.1 = Some b.2 ∧
  ∃ par s d j v, src !! b.1 = Some (par, Node.BackNode s d j v).
Proof using Hsrc QL R C D.
  destruct (cp_bls _ _ _ _ _ _ _ _ D) as (new2 & E2 & Hnd2 & H2).
  destruct (cp_bls _ _ _ _ _ _ _ _ C) as (new1 & E1 & Hnd1 & H1).
  exists (new2 ++ new1). split; [by rewrite E2, E1, (assoc_L app)|]. split.
  - rewrite fmap_app. apply NoDup_app. split; [done|]. split; [|done].
    intros x (b & -> & Hb)%list_elem_of_fmap (c & Hbc & Hc)%list_elem_of_fmap.
    apply H1 in Hc as [Hc _]. apply H2 in Hb as [Hb _]. rewrite Hbc in Hb. by destruct (sib_apart _ Hc).
  - intros b. rewrite elem_of_app, H1, H2, (under_cons a l). split.
    + intros [(Hu & Hb & He)|(Hu & Hb & He)]; [by split; [right|]|]. rewrite sib_map by done.
      by split; [left|].
    + intros ([Hu|Hu] & Hb & He); [right|by left]. by rewrite <-sib_map.
Qed.

Lemma copied_cons : copied (a :: l) (a' :: l') q m bls q2 m2 bls2.
Proof using Hsrc QL R C D.
  split.
  - apply D.
  - etrans; [apply C|apply D].
  - intros j x [Hj Hjl]%not_elem_of_cons Hx. apply (cp_keep _ _ _ _ _ _ _ _ D); [done|].
    apply (cp_keep _ _ _ _ _ _ _ _ C); [|done]. by intros ->%list_elem_of_singleton.
  - intros i Hi. rewrite below_cons in Hi. rewrite (cp_same _ _ _ _ _ _ _ _ D) by tauto.
    apply (cp_same _ _ _ _ _ _ _ _ C). tauto.
  - apply sib_new.
  - apply sib_inj.
  - apply sib_cover.
  - apply sib_nodes.
  - apply sib_bls.
Qed.
End siblings.

(** The copy of a leaf: the node is closed, or left open. *)
Lemma copied_leaf a a' par n q m bls q1 new :
  src !! a = Some (par, n) → Node.is_inf n = false → m !! a = Some a' →
  Wf.t q1 → size q1 = size q → (∀ j x, j ≠ a' → q !! j = Some x → q1 !! j = Some x) →
  (∃ par' n', q1 !! a' = Some (par', n') ∧ pending m n n') →
  new = (if Node.is_backlink n then [(a, a')] else []) →
  copied [a] [a'] q m bls q1 m (new ++ bls).
Proof.
  intros Ha Hn Hm W Hs Hk Hp ->.
  assert (∀ i, ¬ below [a] i) as Hb by (intros i; by eapply below_leaf).
  assert (∀ i, under [a] i → i = a) as Hu.
  { intros i [->%list_elem_of_singleton|Hi]%under_below; [done|by destruct (Hb i)]. }
  split; [done|lia|..].
  - intros j x Hj. apply Hk. by intros ->; destruct Hj; left.
  - done.
  - intros i Hi. by destruct (Hb i).
  - intros i j i' Hi. by destruct (Hb i).
  - lia.
  - intros i i' par' n' ->%Hu Hi' Hn'. rewrite Ha in Hn'. rewrite Hm in Hi'. by simplify_eq.
  - eexists. split; [done|]. split; [destruct (Node.is_backlink n); [apply NoDup_singleton|constructor]|].
    intros b. split.
    + destruct n as [| | |s d j v]; simpl; [by intros ?%elem_of_nil..|].
      intros ->%list_elem_of_singleton. simpl. split; [exists a; split; [by left|done]|].
      split; [done|]. by exists par, s, d, j, v.
    + intros (Hi%Hu & Hmb & par' & s & d & j & v & Hb'). destruct b as [b b']. simpl in *. subst b.
      rewrite Ha in Hb'. injection Hb' as -> ->. simpl. rewrite Hm in Hmb. injection Hmb as ->. left.
Qed.

Lemma subgoals_of_ok succs tps :
  length succs = length tps → (∀ j, j ∈ succs → is_Some (src !! j)) →
  ∃ sgs, Prf.subgoals_of src succs tps = Ok sgs ∧
    Forall2 (λ j sg, Wf.seq_of src j = Some sg.1.1) succs sgs ∧ (λ sg, (sg.1.2, sg.2)) <$> sgs = tps.
Proof.
  revert tps. induction succs as [|j succs IH]; intros [|x tps] Hlen Hin; try done.
  - exists []. split; [done|]. split; [constructor|done].
  - destruct (IH tps) as (sgs & Hsgs & Hs & <-); [simpl in *; lia|intros; apply Hin; by right|].
    destruct (Hin j) as [y Hy]; [left|].
    assert (Wf.seq_of src j = Some (Node.get_seq y.2)) as Hj by (unfold Wf.seq_of; by rewrite Hy).
    exists ((Node.get_seq y.2, x.1, x.2) :: sgs). split; [|split].
    + unfold Prf.subgoals_of in *. simpl. rewrite (Wf.get_seq_ok src j _ Hj). simpl.
      unfold mbind, res_bind, mret, res_ret in *. by rewrite Hsgs.
    + by constructor.
    + simpl. by destruct x.
Qed.

(** The premises of a copied inference are ready to be copied. *)
Lemma ready_premises (a par : Z) (s : sequent) (d : string) (succs : list Z)
    (tps : list (tagpairs * tagpairs)) (sgs : list subgoal) (q q1 : Prf.t) (n : Z) (m1 : gmap Z Z) :
  Wf.t q → src !! a = Some (par, Node.InfNode s d succs tps) →
  Forall2 (λ j sg, Wf.seq_of src j = Some sg.1.1) succs sgs →
  Wf.t q1 → Wf.closes q n (Node.InfNode s d (Prf.range (Z.of_nat (size q)) sgs) tps)
              ((λ sg, sg.1.1) <$> sgs) q1 →
  Forall2 (λ i i', m1 !! i = Some i') succs (Prf.range (Z.of_nat (size q)) sgs) →
  ready succs (Prf.range (Z.of_nat (size q)) sgs) q1 m1.
Proof.
  intros W Ha Hs W1 C Hm1. split; [done|by eapply apart_succs|done| |apply NoDup_range].
  apply Forall2_same_length_lookup. split; [by eapply Forall2_length|].
  intros k j j' Hj Hj'. destruct (Forall2_lookup_l _ _ _ _ _ Hs Hj) as (sg & Hsg & Hseq).
  rewrite lookup_range, Hsg in Hj'. injection Hj' as <-.
  exists n, sg.1.1, "(Open)". split; [|done]. rewrite Z.add_comm.
  apply (Wf.cl_new _ _ _ _ _ C). by rewrite list_lookup_fmap, Hsg.
Qed.

(** ** The copy of an inference *)

Section inference.
Variables (a a' par : Z) (s : sequent) (d : string) (succs : list Z).
Variables (tps : list (tagpairs * tagpairs)) (sgs : list subgoal).
Variables (q q0 q1 : Prf.t) (m m0 m1 : gmap Z Z) (bls bls1 : list (Z * Z)).
Abbreviation succs' := (Prf.range (Z.of_nat (size q)) sgs).
Hypothesis R : ready [a] [a'] q m.
Hypothesis Ha : src !! a = Some (par, Node.InfNode s d succs tps).
Hypothesis C : Wf.closes q a' (Node.InfNode s d succs' tps) ((λ sg, sg.1.1) <$> sgs) q0.
Hypothesis Hm0 : Forall2 (λ i i', m0 !! i = Some i') succs succs'.
Hypothesis Hrest : ∀ i, i ∉ succs → m0 !! i = m !! i.
Hypothesis D : copied succs succs' q0 m0 bls q1 m1 bls1.

Lemma inf_sizes : size q0 = size q + length sgs ∧ size q0 ≤ size q1.
Proof using C D.
  pose proof (cp_size _ _ _ _ _ _ _ _ D). by rewrite (Wf.cl_size _ _ _ _ _ C), length_fmap in *.
Qed.

Lemma inf_below i : below [a] i ↔ i ∈ succs ∨ below succs i.
Proof using Ha. by rewrite (below_one a par s d succs tps i Ha), under_below. Qed.

Lemma inf_same i : i ∈ succs → m1 !! i = m0 !! i.
Proof using Hsrc Ha D.
  intros Hi. apply (cp_same _ _ _ _ _ _ _ _ D), apart_not_below; [by eapply apart_succs|done].
Qed.

(** The copies of the premises. *)
Lemma inf_premise i : i ∈ succs →
  ∃ k, succs !! k = Some i ∧ k < length sgs ∧ m1 !! i = Some (Z.of_nat k + Z.of_nat (size q))%Z.
Proof using Hsrc Ha Hm0 D.
  intros Hi. rewrite (inf_same i Hi). apply list_elem_of_lookup in Hi as [k Hk].
  destruct (Forall2_lookup_l _ _ _ _ _ Hm0 Hk) as (j & Hj & ->).
  rewrite lookup_range in Hj. apply fmap_Some in Hj as (sg & Hsg & ->).
  exists k. split; [done|]. split; [by eapply lookup_lt_Some|done].
Qed.

Lemma inf_root : m1 !! a = Some a'.
Proof using Hsrc R Ha Hrest D.
  assert (¬ below [a] a) as Hna by (apply apart_not_below; [apply R|left]).
  rewrite (cp_same _ _ _ _ _ _ _ _ D), Hrest; [|intros Hi; apply Hna, inf_below; auto..].
  by destruct (Forall2_cons_1 _ _ _ _ _ (rd_map _ _ _ _ R)).
Qed.

Lemma inf_new i : below [a] i →
  ∃ i', m1 !! i = Some i' ∧ (Z.of_nat (size q) ≤ i' < Z.of_nat (size q1))%Z.
Proof using Hsrc Ha C Hm0 D.
  pose proof inf_sizes. intros [Hi|Hi]%inf_below.
  - destruct (inf_premise i Hi) as (k & _ & Hk & ->). eexists. split; [done|lia].
  - destruct (cp_new _ _ _ _ _ _ _ _ D i Hi) as (i' & -> & Hi'). exists i'. split; [done|lia].
Qed.

Lemma inf_inj i j i' : below [a] i → below [a] j → m1 !! i = Some i' → m1 !! j = Some i' → i = j.
Proof using Hsrc Ha C Hm0 D.
  pose proof inf_sizes.
  assert (∀ i j i', i ∈ succs → below succs j → m1 !! i = Some i' → m1 !! j = Some i' → False) as Hx.
  { intros x y z Hi Hj Hi' Hj'. destruct (inf_premise x Hi) as (k & _ & Hk & Hx).
    destruct (cp_new _ _ _ _ _ _ _ _ D y Hj) as (j' & Hj2 & Hge). simplify_eq. lia. }
  intros [Hi|Hi]%inf_below [Hj|Hj]%inf_below Hi' Hj'.
  - destruct (inf_premise i Hi) as (k & Hk & _ & Hik), (inf_premise j Hj) as (k' & Hk' & _ & Hjk).
    assert (k = k') as <- by (rewrite Hi' in Hik; rewrite Hj' in Hjk; simplify_eq; lia). congruence.
  - by destruct (Hx i j i').
  - by destruct (Hx j i i').
  - by eapply (cp_inj _ _ _ _ _ _ _ _ D).
Qed.

Lemma inf_cover i' : (Z.of_nat (size q) ≤ i' < Z.of_nat (size q1))%Z →
  ∃ i, below [a] i ∧ m1 !! i = Some i'.
Proof using Hsrc Ha C Hm0 D.
  pose proof inf_sizes as [Hs0 Hs1]. intros Hi'. destruct (decide (i' < Z.of_nat (size q0))%Z).
  - destruct (lookup_lt_is_Some_2 succs' (Z.to_nat (i' - Z.of_nat (size q)))) as [j Hj];
      [rewrite length_range; lia|].
    destruct (Forall2_lookup_r _ _ _ _ _ Hm0 Hj) as (i & Hi%list_elem_of_lookup_2 & Hmi).
    rewrite lookup_range in Hj. apply fmap_Some in Hj as (sg & _ & ->).
    exists i. split; [apply inf_below; by left|]. rewrite (inf_same i Hi), Hmi. f_equal. lia.
  - destruct (cp_cover _ _ _ _ _ _ _ _ D i') as (i & Hi & Hmi); [lia|].
    exists i. split; [apply inf_below; by right|done].
Qed.

(** The node itself: its premises are the copies. *)
Lemma inf_node : ∃ par' n', q1 !! a' = Some (par', n') ∧ pending m1 (Node.InfNode s d succs tps) n'.
Proof using Hsrc R Ha C Hm0 D.
  pose proof (Wf.closes_idx_lt _ _ _ _ _ (rd_wf _ _ _ _ R) C) as Ha'.
  destruct (Wf.cl_open _ _ _ _ _ C) as (par' & s' & d' & _ & _ & Hq0).
  exists par'. eexists. split; [apply (cp_keep _ _ _ _ _ _ _ _ D); [rewrite elem_of_range; lia|exact Hq0]|].
  simpl. split_and!; try done. apply Forall2_same_length_lookup. split; [by eapply Forall2_length|].
  intros k j j' Hj Hj'. rewrite inf_same by by eapply list_elem_of_lookup_2.
  by apply (Forall2_lookup_lr _ _ _ _ _ _ Hm0 Hj Hj').
Qed.

Lemma copied_inf : copied [a] [a'] q m bls q1 m1 bls1.
Proof using Hsrc R Ha C Hm0 Hrest D.
  pose proof inf_sizes. pose proof (rd_wf _ _ _ _ R) as W. split.
  - apply D.
  - lia.
  - intros j x Hj Hx. assert (is_Some (q !! j)) as Hd by by eexists.
    apply (Wf.dom_segment q W) in Hd. apply (cp_keep _ _ _ _ _ _ _ _ D); [rewrite elem_of_range; lia|].
    rewrite (Wf.cl_old _ _ _ _ _ C); [done| |lia]. intros ->. apply Hj. left.
  - intros i Hi. rewrite inf_below in Hi. rewrite (cp_same _ _ _ _ _ _ _ _ D) by tauto. apply Hrest. tauto.
  - apply inf_new.
  - apply inf_inj.
  - apply inf_cover.
  - intros i i' par' n [->%list_elem_of_singleton|Hi]%under_below Hi' Hn.
    + rewrite inf_root in Hi'. rewrite Ha in Hn. injection Hi' as <-. injection Hn as _ <-. apply inf_node.
    + apply inf_below, under_below in Hi. by eapply (cp_nodes _ _ _ _ _ _ _ _ D).
  - destruct (cp_bls _ _ _ _ _ _ _ _ D) as (new & -> & Hnd & Hnew). exists new.
    split; [done|]. split; [done|]. intros b.
    rewrite Hnew, !under_below, inf_below, list_elem_of_singleton.
    split; [tauto|]. intros ([Hba|?] & Hb2 & Hb3); [|done]. rewrite Hba, Ha in Hb3. naive_solver.
Qed.
End inference.

Abbreviation state := (Prf.t * (gmap Z Z * list (Z * Z)))%type.

(** [f] copies the subtree of [a]. *)
Definition copies (f : state → Z → Z → res state) (a : Z) : Prop := ∀ a' q m bls,
  ready [a] [a'] q m →
  ∃ q1 m1 bls1, f (q, (m, bls)) a a' = Ok (q1, (m1, bls1)) ∧ copied [a] [a'] q m bls q1 m1 bls1.

Lemma copy_all (f : state → Z → Z → res state) l l' q m bls :
  (∀ a, a ∈ l → copies f a) → ready l l' q m →
  ∃ q1 m1 bls1, fold_left2_res f (q, (m, bls)) l l' = Ok (q1, (m1, bls1)) ∧
    copied l l' q m bls q1 m1 bls1.
Proof.
  revert l' q m bls. induction l as [|a l IH]; intros l' q m bls Hf R.
  - pose proof (rd_map _ _ _ _ R) as ->%Forall2_nil_inv_l. exists q, m, bls.
    split; [done|]. apply copied_nil, R.
  - pose proof (rd_map _ _ _ _ R) as (a' & l'' & _ & _ & ->)%Forall2_cons_inv_l. rename l'' into l'.
    destruct (Hf a ltac:(left) a' q m bls (ready_head _ _ _ _ _ _ R)) as (q1 & m1 & bls1 & E & C).
    destruct (IH l' q1 m1 bls1) as (q2 & m2 & bls2 & E2 & C2);
      [intros; apply Hf; by right|by eapply ready_tail|].
    exists q2, m2, bls2. cbn [fold_left2_res]. rewrite E. split; [exact E2|by eapply copied_cons].
Qed.

Lemma add_tree_copies fuel a :
  (Z.of_nat (size src) - a ≤ Z.of_nat fuel)%Z → copies (Prf.add_tree fuel src) a.
Proof.
  revert a. induction fuel as [|fuel IH]; intros a Hfuel a' q m bls R;
    pose proof R as [W _ [Hm _]%Forall2_cons_1 [(par' & s & d' & Ho & Hs) _]%Forall2_cons_1 _];
    apply fmap_Some in Hs as ([par n] & Ha & ->).
  { assert (is_Some (src !! a)) as Hd by by eexists. apply (Wf.dom_segment src Hsrc) in Hd. lia. }
  cbn [Prf.add_tree]. rewrite (Wf.find_ok src a par n Ha). unfold mbind, res_bind.
  destruct n as [s d|s d|s d succs tps|s d j v]; simpl in *.
  - exists q, m, bls. split; [done|]. eapply (copied_leaf a a' _ _ q m bls q []); try done.
    by eexists _, _.
  - destruct (Wf.add_axiom_run q a' par' s d' d W Ho) as (q1 & E & C). rewrite E.
    exists q1, m, bls. split; [done|].
    eapply (copied_leaf a a' _ _ q m bls q1 []); try done.
    + by eapply (Wf.closes_wf q a' (Node.AxiomNode s d) []).
    + rewrite (Wf.cl_size _ _ _ _ _ C). simpl. lia.
    + intros j x Hj Hx. rewrite (Wf.cl_old _ _ _ _ _ C); [done|done|].
      apply (Wf.dom_segment q W). by eexists.
    + destruct (Wf.cl_open _ _ _ _ _ C) as (par2 & s2 & d2 & _ & _ & Hq). by eexists _, _.
  - destruct (Wf.inf_succs src Hsrc _ _ _ _ _ _ Ha) as (Hlen & Hnd & Hsucc).
    destruct (subgoals_of_ok succs tps Hlen) as (sgs & E & Hsgs & <-).
    { intros j Hj. destruct (Hsucc j Hj) as (_ & nj & ->). by eexists. }
    rewrite E. destruct (Wf.add_inf_run q a' par' s d' d sgs W Ho) as (q0 & E0 & C). rewrite E0.
    destruct (fold_right2_insert succs (Prf.range (Z.of_nat (size q)) sgs) m) as (m0 & Em & Hm0 & Hrest);
      [rewrite length_range; by eapply Forall2_length|done|]. rewrite Em.
    assert (Wf.t q0) as W0.
    { eapply Wf.closes_wf; [done|exact C|]. split; [by rewrite range_fmap|by rewrite !length_fmap]. }
    destruct (copy_all (Prf.add_tree fuel src) succs (Prf.range (Z.of_nat (size q)) sgs) q0 m0 bls)
      as (q1 & m1 & bls1 & E1 & D).
    + intros j Hj. apply IH. destruct (Hsucc j Hj). lia.
    + by eapply ready_premises.
    + exists q1, m1, bls1. split; [done|].
      by eapply (copied_inf a a' par s d succs).
  - exists q, m, ((a, a') :: bls). split; [done|].
    eapply (copied_leaf a a' _ _ q m bls q [(a, a')]); try done. by eexists _, _.
Qed.

(** ** The copy in the outer proof *)

(** [q] is [p] with a copy of [src] at [idx], node [i] at [m !! i]; [R] relates
    the nodes to their copies. *)
Record embeds (p : Prf.t) (idx : Z) (m : gmap Z Z) (R : Z → Node.t → Node.t → Prop)
    (q : Prf.t) : Prop := {
  em_wf : Wf.t q;
  em_size : size p ≤ size q;
  em_root : m !! 0%Z = Some idx;
  em_total i : is_Some (src !! i) → ∃ i', m !! i = Some i' ∧
    (i' = idx ∨ (Z.of_nat (size p) ≤ i')%Z);
  em_inj i j i' : is_Some (src !! i) → is_Some (src !! j) →
    m !! i = Some i' → m !! j = Some i' → i = j;
  em_cover i' : (Z.of_nat (size p) ≤ i' < Z.of_nat (size q))%Z →
    ∃ i, is_Some (src !! i) ∧ m !! i = Some i';
  em_keep j x : j ≠ idx → p !! j = Some x → q !! j = Some x;
  em_nodes i i' par n : src !! i = Some (par, n) → m !! i = Some i' →
    ∃ par' n', q !! i' = Some (par', n') ∧ R i n n';
}.

Lemma em_seq p idx m R q i i' :
  (∀ i n n', R i n n' → Node.get_seq n' = Node.get_seq n) →
  embeds p idx m R q → is_Some (src !! i) → m !! i = Some i' → Wf.seq_of q i' = Wf.seq_of src i.
Proof.
  intros HR E [[par n] Hi] Hi'. destruct (em_nodes _ _ _ _ _ E i i' par n Hi Hi') as (par' & n' & Hq & Hn).
  unfold Wf.seq_of. rewrite Hq, Hi. simpl. f_equal. by eapply HR.
Qed.

Lemma embeds_mono p idx m (R R' : Z → Node.t → Node.t → Prop) q :
  (∀ i par n n', src !! i = Some (par, n) → R i n n' → R' i n n') →
  embeds p idx m R q → embeds p idx m R' q.
Proof.
  intros HR [E1 E2 E3 E4 E5 E6 E7 E8]. split; try done. intros i i' par n Hi Hi'.
  destruct (E8 i i' par n Hi Hi') as (par' & n' & Hq & Hn). exists par', n'. eauto.
Qed.

Lemma is_under_root i : is_Some (src !! i) → under [0%Z] i.
Proof. intros Hi. exists 0%Z. split; [left|]. by apply connected. Qed.

Lemma copied_embeds p idx q m bls :
  Wf.t p → is_Some (p !! idx) → copied [0%Z] [idx] p {[0%Z := idx]} [] q m bls →
  embeds p idx m (λ _, pending m) q ∧ NoDup bls.*1 ∧
  ∀ b, b ∈ bls ↔ m !! b.1 = Some b.2 ∧
    ∃ par s d j v, src !! b.1 = Some (par, Node.BackNode s d j v).
Proof.
  intros W Hidx C. apply (Wf.dom_segment p W) in Hidx.
  assert (¬ below [0%Z] 0%Z) as H0.
  { intros (a & ->%list_elem_of_singleton & H). apply (below_lt src 0 0 Hsrc) in H. lia. }
  assert (m !! 0%Z = Some idx) as Hm0.
  { rewrite (cp_same _ _ _ _ _ _ _ _ C) by done. by simplify_map_eq. }
  assert (∀ i, is_Some (src !! i) → i = 0%Z ∨ below [0%Z] i) as Hb.
  { intros i [->%list_elem_of_singleton|Hi]%is_under_root%under_below; auto. }
  split; [split|].
  - apply C.
  - apply C.
  - done.
  - intros i [->|Hi]%Hb; [exists idx; auto|].
    destruct (cp_new _ _ _ _ _ _ _ _ C i Hi) as (i' & Hi' & Hge). exists i'. split; [done|right; lia].
  - assert (∀ i i', below [0%Z] i → m !! i = Some i' → i' ≠ idx) as Hne.
    { intros i i' Hi Hi' ->. destruct (cp_new _ _ _ _ _ _ _ _ C i Hi) as (i2 & Hi2 & Hge).
      rewrite Hi' in Hi2. injection Hi2 as <-. lia. }
    intros i j i' [->|Hi]%Hb [->|Hj]%Hb Hi' Hj'; [done|..|by eapply (cp_inj _ _ _ _ _ _ _ _ C)].
    + rewrite Hm0 in Hi'. injection Hi' as <-. by destruct (Hne j idx).
    + rewrite Hm0 in Hj'. injection Hj' as <-. by destruct (Hne i idx).
  - intros i' Hi'. destruct (cp_cover _ _ _ _ _ _ _ _ C i' Hi') as (i & (a & _ & Hi) & Hmi).
    exists i. split; [by eapply below_dom|done].
  - intros j x Hj. apply (cp_keep _ _ _ _ _ _ _ _ C). by intros ->%list_elem_of_singleton.
  - intros i i' par n Hi Hi'. apply (cp_nodes _ _ _ _ _ _ _ _ C i i' par n); [|done..].
    apply is_under_root. by eexists.
  - destruct (cp_bls _ _ _ _ _ _ _ _ C) as (new & -> & Hnd & Hnew). rewrite app_nil_r.
    split; [done|]. intros b. rewrite Hnew. split; [tauto|]. intros (Hm & par & s & d & j & v & Hb').
    split; [|split; [done|by exists par, s, d, j, v]]. apply is_under_root. by eexists.
Qed.

(** The back-links of [rest] are still to be added. *)
Definition linking (m : gmap Z Z) (rest : list (Z * Z)) (i : Z) (n n' : Node.t) : Prop :=
  if decide (i ∈ rest.*1) then pending m n n' else image m n n'.

Lemma linking_seq m rest i n n' : linking m rest i n n' → Node.get_seq n' = Node.get_seq n.
Proof. unfold linking. case_decide; [apply pending_seq|apply image_seq]. Qed.

Lemma fix_bl_run p idx m b rest q :
  Wf.t p → embeds p idx m (linking m (b :: rest)) q → b.1 ∉ rest.*1 → m !! b.1 = Some b.2 →
  (∃ par s d j v, src !! b.1 = Some (par, Node.BackNode s d j v)) →
  ∃ q1, Prf.fix_bl src m q b = Ok q1 ∧ embeds p idx m (linking m rest) q1 ∧ size q1 = size q.
Proof.
  destruct b as [i i']. simpl. intros Wp E Hrest Hmi (par & s & d & j & v & Hi).
  destruct (Wf.back_target src Hsrc _ _ _ _ _ _ Hi) as (s' & Hs & He).
  assert (is_Some (src !! j)) as Hj by (apply fmap_Some in Hs as (y & Hy & _); by eexists).
  destruct (em_total _ _ _ _ _ E j Hj) as (j' & Hj' & _).
  assert (Wf.seq_of q j' = Some s') as Hq by (erewrite em_seq; [done|apply linking_seq|done..]).
  destruct (em_nodes _ _ _ _ _ E i i' par _ Hi Hmi) as (par' & n' & Hqi & Hn').
  unfold linking in Hn'. rewrite decide_True in Hn' by left.
  destruct n' as [s2 d2| | |]; simpl in Hn'; [subst s2|done..].
  pose proof (em_wf _ _ _ _ _ E) as W.
  destruct (Wf.add_backlink_run q i' par' s d2 d j' s' v W Hqi Hq He) as (q1 & Hq1 & C).
  assert (size q1 = size q) as Hsz by (rewrite (Wf.cl_size _ _ _ _ _ C); simpl; lia).
  assert (∀ k x, k ≠ i' → q !! k = Some x → q1 !! k = Some x) as Hk.
  { intros k x Hne Hx. rewrite (Wf.cl_old _ _ _ _ _ C); [done..|]. apply (Wf.dom_segment q W). by eexists. }
  exists q1. split; [|split; [|done]].
  - unfold Prf.fix_bl. simpl. rewrite (Wf.find_ok src i par _ Hi). simpl.
    unfold mbind, res_bind. by rewrite Hj'.
  - split; rewrite ?Hsz; try apply E.
    + eapply Wf.closes_wf; [done|exact C|]. split; [done|]. by exists s'.
    + intros k x Hne Hx. apply Hk; [|by apply (em_keep _ _ _ _ _ E)]. intros ->.
      destruct (em_total _ _ _ _ _ E i) as (i2 & Hi2 & Hor); [by eexists|].
      rewrite Hmi in Hi2. injection Hi2 as <-. destruct Hor as [->|Hge]; [done|].
      assert (is_Some (p !! i')) as Hd by by eexists. apply (Wf.dom_segment p Wp) in Hd. lia.
    + intros k k' park n Hkn Hk'.
      destruct (em_nodes _ _ _ _ _ E k k' park n Hkn Hk') as (par2 & n2 & Hqk & Hn2).
      destruct (decide (k = i)) as [->|Hki].
      * rewrite Hmi in Hk'. rewrite Hi in Hkn. injection Hk' as <-. injection Hkn as <- <-.
        destruct (Wf.cl_open _ _ _ _ _ C) as (par3 & s3 & d3 & _ & _ & Hq3).
        eexists _, _. split; [done|]. unfold linking. by rewrite decide_False.
      * exists par2, n2. split.
        -- apply Hk; [|done]. intros ->. apply Hki.
           apply (em_inj _ _ _ _ _ E k i i'); [by eexists|by eexists|done|done].
        -- unfold linking in *. destruct (decide (k ∈ rest.*1)).
           ++ by rewrite decide_True in Hn2 by (by right).
           ++ rewrite decide_False in Hn2; [done|]. simpl. by rewrite not_elem_of_cons.
Qed.

Lemma fix_all p idx m rest q :
  Wf.t p → embeds p idx m (linking m rest) q → NoDup rest.*1 →
  (∀ b, b ∈ rest → m !! b.1 = Some b.2 ∧
    ∃ par s d j v, src !! b.1 = Some (par, Node.BackNode s d j v)) →
  ∃ q1, fold_left_res (Prf.fix_bl src m) q rest = Ok q1 ∧
    embeds p idx m (λ _, image m) q1 ∧ size q1 = size q.
Proof.
  intros Wp. revert q. induction rest as [|b rest IH]; intros q E Hnd Hr; simpl.
  - exists q. split; [done|]. split; [|done]. eapply embeds_mono; [|exact E].
    intros i par n n' _ Hn. unfold linking in Hn. by rewrite decide_False in Hn by set_solver.
  - apply NoDup_cons in Hnd as [Hb Hnd]. destruct (Hr b ltac:(left)) as [Hm Hback].
    destruct (fix_bl_run p idx m b rest q Wp E Hb Hm Hback) as (q1 & -> & E1 & Hs1).
    destruct (IH q1 E1 Hnd) as (q2 & Hq2 & E2 & Hs2); [intros; apply Hr; by right|].
    exists q2. split; [done|]. split; [done|congruence].
Qed.

(** [add_subprf] on an open node with the sequent of the root. *)
Lemma add_subprf_run p idx par s d :
  Wf.t p → p !! idx = Some (par, Node.OpenNode s d) → Wf.seq_of src 0%Z = Some s →
  ∃ q m, Prf.add_subprf src idx p = Ok q ∧ embeds p idx m (λ _, image m) q.
Proof.
  intros Wp Hidx Hs. pose proof Hs as ([par0 n0] & H0 & Hn0)%fmap_Some.
  assert (ready [0%Z] [idx] p {[0%Z := idx]}) as R.
  { split; [done|..|apply NoDup_singleton].
    - split; [apply NoDup_singleton|]. by intros a b x ->%list_elem_of_singleton ->%list_elem_of_singleton.
    - constructor; [by simplify_map_eq|constructor].
    - constructor; [by exists par, s, d|constructor]. }
  assert (copies (Prf.add_tree (size src) src) 0%Z) as Hcopy by (apply add_tree_copies; lia).
  destruct (Hcopy idx p {[0%Z := idx]} [] R) as (q1 & m & bls & E1 & C).
  destruct (copied_embeds p idx q1 m bls Wp ltac:(by eexists) C) as (E & Hnd & Hbls).
  destruct (fix_all p idx m bls q1 Wp) as (q2 & E2 & Em & _).
  - eapply embeds_mono; [|exact E]. intros i par' n n' Hi Hn. unfold linking. case_decide as Hin; [done|].
    destruct n as [| | |s' d' j v], n' as [| | |]; try done. destruct Hin.
    destruct (em_total _ _ _ _ _ E i) as (i' & Hi' & _); [by eexists|].
    apply list_elem_of_fmap. exists (i, i'). split; [done|]. apply Hbls. split; [done|].
    by exists par', s', d', j, v.
  - done.
  - intros b Hb. by apply Hbls.
  - exists q2, m. split; [|done]. unfold Prf.add_subprf.
    rewrite (Wf.find_ok p idx par _ Hidx), (Wf.find_ok src 0%Z par0 n0 H0).
    unfold mbind, res_bind. simpl. simpl in Hn0. rewrite <-Hn0, seq_equal_refl. simpl.
    by rewrite E1.
Qed.
End tree.
End copy.

(** The exceptions of [add_subprf]. *)
Lemma add_subprf_not_open {Q : Sequent} (src p : Prf.t) (idx : Z) :
  ¬ Wf.open_at p idx → Prf.add_subprf src idx p = Err (Wf.not_open p idx).
Proof.
  intros Ho. unfold Prf.add_subprf, Wf.not_open. destruct (Wf.open_at_dec p idx) as [?|[(x & Hx & Hn)|Hx]].
  - done.
  - destruct x as [par n]. rewrite (Wf.find_ok p idx par n Hx), Hx. simpl in *. by rewrite Hn.
  - unfold Prf.find, Prf.get. by rewrite Hx.
Qed.

Lemma add_subprf_other {Q : Sequent} (src p : Prf.t) (idx par : Z) (s s' : sequent) (d : string) :
  p !! idx = Some (par, Node.OpenNode s d) → Wf.seq_of src 0%Z = Some s' → seq_equal s' s = false →
  Prf.add_subprf src idx p = Err EAssert.
Proof.
  intros Hp ([par0 n0] & H0 & ->)%fmap_Some He. unfold Prf.add_subprf.
  rewrite (Wf.find_ok p idx par _ Hp), (Wf.find_ok src 0%Z par0 n0 H0).
  unfold mbind, res_bind. simpl in *. by rewrite He.
Qed.
