(* ===== verification/ProofCompose.v ===== *)
(** * Replacing an open node by a proof

    The proof that [add_subprf] builds is good when both proofs are: an infinite
    path of it stays in the outer proof, or it enters the copy and from there is
    a path of the proof copied. *)

From Stdlib Require Import ClassicalEpsilon.
From S2P Require Import Prelude Exn Spot ProofGraph Gtc ProofAut Trace Soundness.
From S2P Require Import SoundnessSpec Soundcheck Minimize MinimizeProofs ProofNode CyclicProof.
From S2P Require Import ProofInvariant ProofQueries ProofSound ProofCopy.

(** ** The result is good *)

(** Edges of a node and of its image. *)
Definition edge_image (m : gmap Z Z) (e e' : Z * tagpairs * tagpairs) : Prop :=
  m !! premise e = Some (premise e') ∧ e'.1.2 = e.1.2 ∧ e'.2 = e.2.

Lemma image_edges {Q : Sequent} m (n n' : Node.t) :
  image m n n' → Forall2 (edge_image m) (Node.edges n) (Node.edges n').
Proof.
  destruct n as [| |s d succs tps|s d j v], n' as [| |s' d' succs' tps'|s' d' j' v']; simpl; try done.
  - intros (_ & _ & <- & H). revert tps. induction H as [|i i' l l' Hi _ IH]; intros [|x tps]; simpl;
      constructor; [|apply IH]. by split.
  - intros (_ & _ & <- & H). constructor; [by split|constructor].
Qed.

Section graft.
Context {Q : Sequent} {K : Calculus} {KL : CalculusLaws K}.
Variables (src p : Prf.t) (idx par : Z) (s : sequent) (d : string) (m : gmap Z Z) (q : Prf.t).
Hypothesis Gsrc : good src.
Hypothesis Gp : good p.
Hypothesis Hidx : p !! idx = Some (par, Node.OpenNode s d).
Hypothesis Hroot : Wf.seq_of src 0%Z = Some s.
Hypothesis E : embeds src p idx m (λ _, image m) q.

Lemma graft_root_in : is_Some (src !! 0%Z).
Proof using Hroot. apply fmap_Some in Hroot as (x & -> & _). by eexists. Qed.

Lemma graft_seq_src i i' : is_Some (src !! i) → m !! i = Some i' → Wf.seq_of q i' = Wf.seq_of src i.
Proof. apply (em_seq src p idx m (λ _, image m)); [|done]. intros _ n n'. apply image_seq. Qed.

Lemma graft_seq_old j s' : Wf.seq_of p j = Some s' → Wf.seq_of q j = Some s'.
Proof.
  intros Hj. destruct (decide (j = idx)) as [->|Hne].
  - unfold Wf.seq_of in Hj. rewrite Hidx in Hj. injection Hj as <-. rewrite <-Hroot.
    apply graft_seq_src; [apply graft_root_in|apply E].
  - apply fmap_Some in Hj as (x & Hx & ->). unfold Wf.seq_of.
    by rewrite (em_keep _ _ _ _ _ _ E j x Hne Hx).
Qed.

(** Every node of the result is a copy or an old node. *)
Lemma graft_cases j x : q !! j = Some x →
  (∃ i pari n, src !! i = Some (pari, n) ∧ m !! i = Some j ∧ image m n x.2) ∨
  (j ≠ idx ∧ p !! j = Some x).
Proof.
  intros Hj. assert (is_Some (q !! j)) as Hd by by eexists.
  apply (Wf.dom_segment q (em_wf _ _ _ _ _ _ E)) in Hd.
  assert (∀ i, is_Some (src !! i) → m !! i = Some j →
    ∃ i pari n, src !! i = Some (pari, n) ∧ m !! i = Some j ∧ image m n x.2) as Hcopy.
  { intros i [[pari n] Hi] Hm. exists i, pari, n. split; [done|]. split; [done|].
    destruct (em_nodes _ _ _ _ _ _ E i j pari n Hi Hm) as (par' & n' & Hq & Hn).
    rewrite Hj in Hq. by injection Hq as ->. }
  destruct (decide (j = idx)) as [->|Hne].
  - left. apply (Hcopy 0%Z); [apply graft_root_in|apply E].
  - destruct (decide (j < Z.of_nat (size p))%Z).
    + right. split; [done|]. destruct (p !! j) as [y|] eqn:Hy.
      * rewrite (em_keep _ _ _ _ _ _ E j y Hne Hy) in Hj. congruence.
      * assert (is_Some (p !! j)) as [? ?]; [|congruence]. apply (Wf.dom_segment p (good_wf p Gp)). lia.
    + left. destruct (em_cover _ _ _ _ _ _ E j) as (i & Hi & Hm); [lia|]. by apply (Hcopy i).
Qed.

Lemma graft_justified : justified q.
Proof.
  destruct Gsrc as [Ws Js _], Gp as [Wp Jp _]. split.
  - intros j parj sj dj Hj. destruct (graft_cases j _ Hj) as [(i & pari & n & Hi & Hm & Hn)|[_ Hj']].
    + destruct n; simpl in Hn; try done. destruct Hn as [<- _]. by eapply (ju_ax src Js).
    + by eapply (ju_ax p Jp).
  - intros j parj sj dj succs tps Hj.
    destruct (graft_cases j _ Hj) as [(i & pari & n & Hi & Hm & Hn)|[_ Hj']].
    + destruct n as [| |s1 d1 succs1 tps1|]; simpl in Hn; try done. destruct Hn as (<- & _ & <- & Hl).
      destruct (ju_inf src Js _ _ _ _ _ _ Hi) as (sgs & Hok & -> & Hs). exists sgs.
      split; [done|]. split; [done|]. apply Forall2_same_length_lookup.
      split; [by rewrite <-(Forall2_length _ _ _ Hl), (Forall2_length _ _ _ Hs)|].
      intros k j' sg Hj' Hsg. destruct (Forall2_lookup_r _ _ _ _ _ Hs Hsg) as (i' & Hi' & Hseq).
      rewrite (graft_seq_src i' j'); [done| |by apply (Forall2_lookup_lr _ _ _ _ _ _ Hl Hi' Hj')].
      apply fmap_Some in Hseq as (y & -> & _). by eexists.
    + destruct (ju_inf p Jp _ _ _ _ _ _ Hj') as (sgs & Hok & -> & Hs). exists sgs.
      split; [done|]. split; [done|]. eapply Forall2_impl; [exact Hs|]. intros k sg. apply graft_seq_old.
  - intros j parj sj dj t v Hj. destruct (graft_cases j _ Hj) as [(i & pari & n & Hi & Hm & Hn)|[_ Hj']].
    + destruct n as [| | |s1 d1 t1 v1]; simpl in Hn; try done. destruct Hn as (<- & _ & <- & Ht).
      destruct (ju_back src Js _ _ _ _ _ _ Hi) as (s' & Hs & Hok). exists s'. split; [|done].
      rewrite (graft_seq_src t1 t); [done| |done]. apply fmap_Some in Hs as (y & -> & _). by eexists.
    + destruct (ju_back p Jp _ _ _ _ _ _ Hj') as (s' & Hs & Hok). exists s'.
      split; [by apply graft_seq_old|done].
Qed.

(** The edges of a copied node are those of the node. *)
Lemma graft_edges i i' pari n : src !! i = Some (pari, n) → m !! i = Some i' →
  ∃ n', abs q !! i' = Some (Node.abs n') ∧ Forall2 (edge_image m) (Node.edges n) (Node.edges n').
Proof.
  intros Hi Hm. destruct (em_nodes _ _ _ _ _ _ E i i' pari n Hi Hm) as (par' & n' & Hq & Hn).
  exists n'. split; [by eapply lookup_abs|by apply image_edges].
Qed.

Lemma graft_pairs i j i' j' t u : m !! i = Some i' → m !! j = Some j' →
  (tg_trace (aproof_graph (abs src) 0) i j t u → tg_trace (aproof_graph (abs q) 0) i' j' t u) ∧
  (tg_progress (aproof_graph (abs src) 0) i j t u → tg_progress (aproof_graph (abs q) 0) i' j' t u).
Proof.
  intros Hi Hj. split; intros (a & e & (pari & n & Hn & ->)%abs_inv & He & <- & Htu);
    destruct (graft_edges i i' pari n Hn Hi) as (n' & Hq & Hl);
    apply list_elem_of_lookup in He as [k Hk];
    destruct (Forall2_lookup_l _ _ _ _ _ Hl Hk) as (e' & He' & Hp & H1 & H2);
    exists (Node.abs n'), e'; (split; [done|]; split; [by eapply list_elem_of_lookup_2|]).
  - rewrite H1. split; [congruence|done].
  - rewrite H2. split; [congruence|done].
Qed.

Lemma graft_step i i' j' : is_Some (src !! i) → m !! i = Some i' →
  tg_succ (aproof_graph (abs q) 0) i' j' →
  ∃ j, is_Some (src !! j) ∧ m !! j = Some j' ∧ tg_succ (aproof_graph (abs src) 0) i j.
Proof using KL Gsrc E.
  intros [[pari n] Hi] Hm (a & e' & Ha & He' & <-).
  destruct (graft_edges i i' pari n Hi Hm) as (n' & Hq & Hl). rewrite Ha in Hq. injection Hq as ->.
  apply list_elem_of_lookup in He' as [k Hk].
  destruct (Forall2_lookup_r _ _ _ _ _ Hl Hk) as (e & He%list_elem_of_lookup_2 & Hp & _).
  exists (premise e). split; [|split; [done|]].
  - destruct (justified_edge src i pari n e (good_justified src Gsrc) Hi He) as (s' & Hs & _).
    apply fmap_Some in Hs as (y & -> & _). by eexists.
  - exists (Node.abs n), e. split; [by eapply lookup_abs|done].
Qed.

(** A path that has entered the copy is a path of the proof copied. *)
Lemma graft_inner_path π k : is_path (aproof_graph (abs q) 0) π → π k = idx →
  good_path (aproof_graph (abs q) 0) π.
Proof using KL Gsrc E Hroot.
  intros [H0 HS] Hk.
  assert (∀ n, ∃ i, is_Some (src !! i) ∧ m !! i = Some (π (k + n))) as Hin.
  { induction n as [|n (i & Hi & Hm)].
    - exists 0%Z. rewrite Nat.add_0_r, Hk. split; [apply graft_root_in|apply E].
    - rewrite Nat.add_succ_r. destruct (graft_step i (π (k + n)) (π (S (k + n))) Hi Hm (HS _))
        as (j & Hj & Hmj & _). by exists j. }
  set (σ n := proj1_sig (constructive_indefinite_description _ (Hin n))).
  assert (∀ n, is_Some (src !! σ n) ∧ m !! σ n = Some (π (k + n))) as Hσ.
  { intros n. unfold σ. by destruct (constructive_indefinite_description _ (Hin n)). }
  destruct (good_sound src Gsrc σ) as (k' & τ & Ht & Hp).
  - split.
    + apply (em_inj _ _ _ _ _ _ E _ _ idx); [apply Hσ|apply graft_root_in| |apply E].
      destruct (Hσ 0) as [_ ->]. by rewrite Nat.add_0_r, Hk.
    + intros n. destruct (Hσ n) as [Hn Hmn], (Hσ (S n)) as [HSn HmSn]. rewrite Nat.add_succ_r in HmSn.
      destruct (graft_step (σ n) _ (π (S (k + n))) Hn Hmn (HS _)) as (j & Hj & Hmj & Hs).
      assert (j = σ (S n)) as <- by by eapply (em_inj _ _ _ _ _ _ E). done.
  - assert (∀ n, k ≤ n → m !! σ (n - k) = Some (π n)) as Hmσ.
    { intros n Hn. destruct (Hσ (n - k)) as [_ ->]. do 2 f_equal. lia. }
    assert (∀ n t u, k ≤ n →
      (tg_trace (aproof_graph (abs src) 0) (σ (n - k)) (σ (S (n - k))) t u →
       tg_trace (aproof_graph (abs q) 0) (π n) (π (S n)) t u) ∧
      (tg_progress (aproof_graph (abs src) 0) (σ (n - k)) (σ (S (n - k))) t u →
       tg_progress (aproof_graph (abs q) 0) (π n) (π (S n)) t u)) as Hpairs.
    { intros n t u Hn. apply graft_pairs; [by apply Hmσ|].
      replace (S (n - k)) with (S n - k) by lia. apply Hmσ. lia. }
    exists (k + k'), (λ n, τ (n - k)). split.
    + intros n Hn. apply Hpairs; [lia|]. replace (S n - k) with (S (n - k)) by lia. apply Ht. lia.
    + intros n0. destruct (Hp n0) as (n & Hn & Hpr). exists (k + n). split; [lia|].
      apply Hpairs; [lia|]. replace (S (k + n) - k) with (S n) by lia.
      by replace (k + n - k) with n by lia.
Qed.

(** A path that never meets the copy is one of the outer proof. *)
Lemma graft_outer_path π : is_path (aproof_graph (abs q) 0) π → (∀ k, π k ≠ idx) →
  good_path (aproof_graph (abs q) 0) π.
Proof using KL Gp E.
  intros [H0 HS] Hne.
  assert (∀ n, is_Some (p !! π n) → abs q !! π n = abs p !! π n) as Hag.
  { intros n [x Hx]. unfold abs. rewrite !lookup_fmap, Hx.
    by rewrite (em_keep _ _ _ _ _ _ E (π n) x (Hne n) Hx). }
  assert (∀ n, is_Some (p !! π n)) as Hin.
  { induction n as [|n IH].
    - rewrite H0. destruct (Wf.root_at_0 p (good_wf p Gp)) as [n0 Hn0]. simpl. by eexists.
    - destruct (HS n) as (a & e & Ha & He & <-). rewrite (Hag n IH) in Ha.
      apply abs_inv in Ha as (parn & nd & Hn & ->).
      destruct (justified_edge p _ _ _ e (good_justified p Gp) Hn He) as (s' & Hs & _).
      apply fmap_Some in Hs as (y & -> & _). by eexists. }
  apply (good_path_agree (abs p) (abs q)); [intros; by apply Hag|].
  apply (good_sound p Gp). split; [done|]. intros n. destruct (HS n) as (a & e & Ha & He).
  exists a, e. by rewrite <-Hag.
Qed.

Lemma graft_good : good q.
Proof.
  split; [apply E|apply graft_justified|]. intros π Hπ.
  destruct (classic (∃ k, π k = idx)) as [[k Hk]|Hn].
  - by eapply graft_inner_path.
  - apply graft_outer_path; [done|]. naive_solver.
Qed.
End graft.

(** When the proof copied is closed, its node is the only one that closes. *)
Lemma graft_open {Q : Sequent} {K : Calculus} (src p : Prf.t) (idx par : Z) (s : sequent)
    (d : string) (m : gmap Z Z) (q : Prf.t) :
  good p → p !! idx = Some (par, Node.OpenNode s d) → Wf.seq_of src 0%Z = Some s →
  embeds src p idx m (λ _, image m) q → Prf.is_closed src = true →
  ∀ j, Wf.open_at q j ↔ Wf.open_at p j ∧ j ≠ idx.
Proof.
  intros Gp Hidx Hroot E Hc j. rewrite Wf.is_closed_spec in Hc. split.
  - intros (parj & sj & dj & Hj).
    destruct (graft_cases src p idx s m q Gp Hroot E j _ Hj) as [(i & pari & n & Hi & _ & Hn)|[Hne Hp]].
    + destruct n as [s1 d1| | |]; try done. destruct (Hc i). by exists pari, s1, d1.
    + split; [by exists parj, sj, dj|done].
  - intros [(parj & sj & dj & Hj) Hne]. exists parj, sj, dj. by apply (em_keep _ _ _ _ _ _ E).
Qed.
