(* ===== verification/Descent.v ===== *)
(** * What a cyclic proof proves

    The reason for the global trace condition.  A sequent is valid when no model
    falsifies it.  The rules are locally sound when a model that falsifies the
    conclusion yields one that falsifies a premise, with values of the tags that
    do not grow along valid pairs and drop along progressing ones.  In a closed
    proof that meets the condition, a counterexample to the root would give an
    infinite path with a counterexample at every node, and the progressing trace
    on it an infinite descent of values. *)

From Stdlib Require Import ClassicalEpsilon.
From S2P Require Import Prelude Exn Spot ProofGraph Gtc ProofAut Trace Soundness.
From S2P Require Import SoundnessSpec Soundcheck Minimize MinimizeProofs ProofNode CyclicProof.
From S2P Require Import ProofInvariant ProofQueries ProofSound.

(** ** Descent *)

Section descending.
Context {O : Type} (lt le : O → O → Prop) (f : nat → O) (k : nat).
Hypothesis lt_wf : well_founded lt.
Hypothesis le_pre : PreOrder le.
Hypothesis lt_le : ∀ a b c, lt a b → le b c → lt a c.
Hypothesis f_le : ∀ i, k ≤ i → le (f (S i)) (f i).

Lemma descending_le i j : k ≤ i → i ≤ j → le (f j) (f i).
Proof.
  intros Hk. induction 1 as [|j Hij IH]; [reflexivity|]. etrans; [|exact IH]. apply f_le. lia.
Qed.

(** A sequence that never grows cannot drop infinitely often. *)
Lemma no_descent : ¬ inf_often (λ i, lt (f (S i)) (f i)).
Proof.
  intros Hinf.
  assert (∀ o i, k ≤ i → f i = o → False) as H; [|by eapply (H (f k) k)].
  intros o. induction (lt_wf o) as [o _ IH]. intros i Hi <-.
  destruct (Hinf i) as (j & Hij & Hlt). apply (IH (f (S j))) with (i := S j); [|lia|done].
  eapply lt_le; [exact Hlt|]. by apply descending_le.
Qed.
End descending.

(** ** Semantics *)

Class Semantics (Q : Sequent) := {
  model : Type;
  falsifies : model → sequent → Prop;
  rank : Type;
  rank_lt : rank → rank → Prop;
  rank_le : rank → rank → Prop;
  value : model → Z → rank;
}.

Class SemanticsLaws {Q : Sequent} (M : Semantics Q) : Prop := {
  rank_wf : well_founded rank_lt;
  #[global] rank_le_pre :: PreOrder rank_le;
  rank_lt_le a b c : rank_lt a b → rank_le b c → rank_lt a c;
}.

Section semantics.
Context {Q : Sequent} {K : Calculus} {M : Semantics Q}.

Definition is_valid (s : sequent) : Prop := ∀ m, ¬ falsifies m s.

(** The values along the valid pairs [v] and the progressing ones [w]. *)
Definition follows (m m' : model) (v w : tagpairs) : Prop :=
  (∀ t u, (t, u) ∈ v → rank_le (value m' u) (value m t)) ∧
  (∀ t u, (t, u) ∈ w → rank_lt (value m' u) (value m t)).

Class LocallySound : Prop := {
  ax_sound s m : ax_ok s → ¬ falsifies m s;
  inf_sound s sgs m : inf_ok s sgs → falsifies m s →
    ∃ sg m', sg ∈ sgs ∧ falsifies m' sg.1.1 ∧ follows m m' sg.1.2 sg.2;
  back_sound s s' v m : back_ok s s' v → falsifies m s →
    ∃ m', falsifies m' s' ∧ follows m m' v ∅;
}.
End semantics.
Arguments LocallySound {Q} K M.

(** ** Soundness of closed proofs *)

Section descent.
Context {Q : Sequent} {K : Calculus} {M : Semantics Q}.
Context {ML : SemanticsLaws M} {LS : LocallySound K M}.
Variable p : Prf.t.
Hypothesis Hgood : good p.
Hypothesis Hclosed : Prf.is_closed p = true.

(** A node with a model that falsifies its sequent. *)
Definition failing (x : Z * model) : Prop :=
  ∃ s, Wf.seq_of p x.1 = Some s ∧ falsifies x.2 s.

Definition descends (x y : Z * model) : Prop :=
  ∃ par n e, p !! x.1 = Some (par, n) ∧ e ∈ Node.edges n ∧ premise e = y.1 ∧
    follows x.2 y.2 e.1.2 e.2.

Lemma failing_step x : failing x → ∃ y, failing y ∧ descends x y.
Proof.
  destruct x as [i m]. intros (s & ([par n] & Hi & ->)%fmap_Some & Hm). simpl in *.
  pose proof (good_justified p Hgood) as J. destruct n as [s d|s d|s d succs tps|s d j v].
  - apply Wf.is_closed_spec with (i := i) in Hclosed. destruct Hclosed. by exists par, s, d.
  - by destruct (ax_sound s m (ju_ax p J _ _ _ _ Hi)).
  - destruct (ju_inf p J _ _ _ _ _ _ Hi) as (sgs & Hok & -> & Hs).
    destruct (inf_sound s sgs m Hok Hm) as (sg & m' & Hsg & Hm' & Hf).
    apply list_elem_of_lookup in Hsg as [k Hk].
    destruct (Forall2_lookup_r _ _ _ _ _ Hs Hk) as (j & Hj & Hseq).
    exists (j, m'). split; [by exists sg.1.1|].
    exists par, (Node.InfNode s d succs ((λ sg, (sg.1.2, sg.2)) <$> sgs)), (j, sg.1.2, sg.2).
    split; [done|]. split; [|done]. simpl.
    apply (list_elem_of_lookup_2 _ k). apply lookup_zip_with_Some.
    exists j, (sg.1.2, sg.2). by rewrite list_lookup_fmap, Hk.
  - destruct (ju_back p J _ _ _ _ _ _ Hi) as (s' & Hs & Hok).
    destruct (back_sound s s' v m Hok Hm) as (m' & Hm' & Hf).
    exists (j, m'). split; [by exists s'|]. exists par, (Node.BackNode s d j v), (j, v, ∅).
    split; [done|]. split; [by apply list_elem_of_singleton|done].
Qed.

Definition next (x : {x | failing x}) : {x | failing x} :=
  let (y, Hy) := constructive_indefinite_description _ (failing_step (proj1_sig x) (proj2_sig x)) in
  y ↾ proj1 Hy.

Lemma next_descends x : descends (proj1_sig x) (proj1_sig (next x)).
Proof.
  unfold next. destruct (constructive_indefinite_description _ _) as [y [Hy1 Hy2]]. done.
Qed.

(** The infinite sequence of counterexamples. *)
Definition run (x : {x | failing x}) (n : nat) : Z * model := proj1_sig (Nat.iter n next x).

Lemma run_step x n : descends (run x n) (run x (S n)).
Proof. apply next_descends. Qed.

(** The edge between two nodes of the proof is unique. *)
Lemma edge_unique i par n e e' :
  p !! i = Some (par, n) → e ∈ Node.edges n → e' ∈ Node.edges n → premise e = premise e' → e = e'.
Proof.
  intros Hi He He' Heq. pose proof (abs_distinct p (good_wf p Hgood)) as Hd.
  specialize (Hd i (Node.abs n) (lookup_abs p _ _ _ Hi)).
  apply list_elem_of_lookup in He as [k Hk], He' as [k' Hk'].
  assert (k = k') as -> by exact (distinct_key premise _ k k' e e' Hd Hk Hk' Heq). congruence.
Qed.

Lemma run_trace x n t u :
  (tg_trace (aproof_graph (abs p) 0) (run x n).1 (run x (S n)).1 t u →
   rank_le (value (run x (S n)).2 u) (value (run x n).2 t)) ∧
  (tg_progress (aproof_graph (abs p) 0) (run x n).1 (run x (S n)).1 t u →
   rank_lt (value (run x (S n)).2 u) (value (run x n).2 t)).
Proof.
  destruct (run_step x n) as (par & nd & e & Hi & He & Hprem & Hle & Hlt).
  assert (∀ a e', abs p !! (run x n).1 = Some a → e' ∈ get_subg a →
    premise e' = (run x (S n)).1 → e' = e) as Huniq.
  { intros a e' Ha He' Hp'. rewrite (lookup_abs p _ _ _ Hi) in Ha. injection Ha as <-.
    eapply edge_unique; [done..|congruence]. }
  split; intros (a & e' & Ha & He' & Hp' & Htu); rewrite (Huniq a e' Ha He' Hp') in Htu; auto.
Qed.

Lemma root_valid s : Wf.seq_of p 0%Z = Some s → is_valid s.
Proof.
  intros Hs m Hm. assert (failing (0%Z, m)) as H0 by by exists s.
  set (x := exist failing (0%Z, m) H0).
  destruct (good_sound p Hgood (λ n, (run x n).1)) as (k & τ & Htr & Hpr).
  - split; [done|]. intros n. destruct (run_step x n) as (par & nd & e & Hi & He & Hprem & _).
    exists (Node.abs nd), e. split; [by apply (lookup_abs p _ par)|done].
  - apply (no_descent rank_lt rank_le (λ n, value (run x n).2 (τ n)) k).
    + apply rank_wf.
    + apply rank_le_pre.
    + apply rank_lt_le.
    + intros i Hk. by apply run_trace, Htr.
    + eapply inf_often_impl; [|exact Hpr]. intros i. apply run_trace.
Qed.
End descent.
