(* ===== verification/ProofRule.v ===== *)
(** * Proof rules and their combinators: [proofrule.ml]

    A rule takes an open node of a proof and returns the proofs obtained by its
    applications, each with the new open nodes.  Rules may call the soundness
    checker, so they run on its state. *)

From S2P Require Import Prelude Exn Spot ProofGraph Gtc ProofAut Trace Soundness.
From S2P Require Import SoundnessSpec Soundcheck Minimize MinimizeProofs ProofNode CyclicProof.
From S2P Require Import ProofInvariant ProofQueries ProofSound.

Module Rule.
Section rules.
Context {Q : Sequent} {St : Type} {C : GtcChecker St}.

Definition axiom_f : Type := sequent → option string.
Definition infrule_f : Type := sequent → list (list subgoal * string).
Definition backrule_f : Type := sequent → sequent → list (tagpairs * string).
Definition select_f : Type := Z → Prf.t → res (list Z).

Definition t : Type := Z → Prf.t → X St (list (list Z * Prf.t)).

Definition mk_axiom (ax_f : axiom_f) : t := λ idx prf,
  seq ← lift_res (Prf.get_seq idx prf);
  match ax_f seq with
  | None => mret []
  | Some descr => p ← lift_res (Prf.add_axiom idx descr prf); mret [([], p)]
  end.

Definition mk_infrule (r_f : infrule_f) : t := λ idx prf,
  seq ← lift_res (Prf.get_seq idx prf);
  map_x (λ ld, lift_res (Prf.add_inf idx ld.2 ld.1 prf)) (r_f seq).

Definition mk_backrule (greedy : bool) (sel_f : select_f) (br_f : backrule_f) : t :=
  λ srcidx prf,
  srcseq ← lift_res (Prf.get_seq srcidx prf);
  trgidxs ← lift_res (sel_f srcidx prf);
  let mk trgidx vd : X St (list Z * Prf.t) :=
    p ← lift_res (Prf.add_backlink srcidx vd.2 trgidx vd.1 prf); mret ([], p) in
  let check (app : list Z * Prf.t) := Prf.check app.2 in
  let apply trgidx :=
    trgseq ← lift_res (Prf.get_seq trgidx prf);
    map_x (mk trgidx) (br_f srcseq trgseq) in
  apps ← bind_x apply trgidxs;
  if greedy then
    o ← find_opt_x check apps;
    mret (match o with None => [] | Some app => [app] end)
  else filter_x check apps.

Definition all_nodes : select_f := λ srcidx prf,
  Ok (filter (λ idx, idx ≠ srcidx) (Prf.to_list prf).*1).

Definition closed_nodes : select_f := λ srcidx prf,
  Ok (filter (λ b, Node.is_open b.2 = false ∧ b.1 ≠ srcidx) (Prf.to_list prf)).*1.

Definition ancestor_nodes : select_f := λ srcidx prf,
  l ← Prf.get_ancestry srcidx prf; mret l.*1.

Definition syntactically_equal_nodes : select_f := λ srcidx prf,
  seq ← Prf.get_seq srcidx prf;
  mret (filter (λ b, seq_equal seq (Node.get_seq b.2) = true ∧ b.1 ≠ srcidx)
          (Prf.to_list prf)).*1.

Definition fail : t := λ _ _, mret [].

(** One step of [apply_to_subgoals_pairwise]: the rule on one subgoal of every
    application so far. *)
Definition apply_to_subgoal (apps : list (list Z * Prf.t)) (r : t) (idx : Z) :
    X St (list (list Z * Prf.t)) :=
  bind_x (λ app,
    news ← r idx app.2;
    mret (map (λ new, (app.1 ++ new.1, new.2)) news)) apps.

Definition apply_to_subgoals_pairwise (rules : list t) (app : list Z * Prf.t) :
    X St (list (list Z * Prf.t)) :=
  try_invalid (fold_left2_x apply_to_subgoal [([], app.2)] rules app.1) (mret []).

Definition compose (r r' : t) : t := λ idx prf,
  apps ← r idx prf;
  bind_x (λ app, apply_to_subgoals_pairwise (replicate (length app.1) r') app) apps.

Definition compose_pairwise (r : t) (rs : list t) : t := λ idx prf,
  apps ← r idx prf; bind_x (apply_to_subgoals_pairwise rs) apps.

Definition choice (rl : list t) : t := λ idx prf, bind_x (λ f : t, f idx prf) rl.

Fixpoint first (rl : list t) : t := λ idx prf,
  match rl with
  | [] => mret []
  | r :: rs => apps ← r idx prf; if decide (apps = []) then first rs idx prf else mret apps
  end.

Definition identity : t := λ idx prf, mret [([idx], prf)].

Definition attempt (r : t) : t := λ idx prf,
  apps ← r idx prf; if decide (apps = []) then identity idx prf else mret apps.

Fixpoint sequence (rl : list t) : t :=
  match rl with
  | [] => identity
  | r :: rs => compose r (sequence rs)
  end.

Definition conditional (cond : sequent → bool) (r : t) : t := λ idx prf,
  seq ← lift_res (Prf.get_seq idx prf);
  if cond seq then r idx prf else mret [].

Definition combine_axioms (ax rl : t) : t := first [ax; compose rl (attempt ax)].
End rules.
End Rule.
