(* ===== verification/RuleContract.v ===== *)
(** * What a proof rule promises

    [application p idx subs q]: [q] is a good proof that continues [p] at the
    open node [idx], and [subs] are its open nodes that are not those of [p].
    [rule_ok g n r]: on a good proof with room for [g] more nodes, [r] returns
    only applications, each with at most [g] new nodes and [n] subgoals.  The
    rules made from axioms, inferences and back-links of the calculus keep the
    promise, and so do all combinators. *)

From S2P Require Import Prelude Exn Spot ProofGraph Gtc ProofAut Trace Soundness.
From S2P Require Import SoundnessSpec Soundcheck Minimize MinimizeProofs ProofNode CyclicProof.
From S2P Require Import ProofInvariant ProofQueries ProofSound ProofRule.

Section applications.
Context {Q : Sequent} {K : Calculus}.

Record application (p : Prf.t) (idx : Z) (subs : list Z) (q : Prf.t) : Prop := {
  app_good : good q;
  app_open j : Wf.open_at q j → j ∈ subs ∨ (Wf.open_at p j ∧ j ≠ idx);
  app_subs j : j ∈ subs → Wf.open_at q j;
  app_new j : j ∈ subs → j = idx ∨ (Z.of_nat (size p) ≤ j)%Z;
  app_nodup : NoDup subs;
  app_keep j x : j ≠ idx → p !! j = Some x → q !! j = Some x;
  app_seq j s : Wf.seq_of p j = Some s → Wf.seq_of q j = Some s;
  app_size : size p ≤ size q;
}.

Lemma open_lt p j : Wf.t p → Wf.open_at p j → (0 ≤ j < Z.of_nat (size p))%Z.
Proof. intros W Hj. by apply (Wf.dom_segment p W), Wf.open_at_in. Qed.

Lemma application_refl p idx : good p → Wf.open_at p idx → application p idx [idx] p.
Proof.
  intros Hp Ho. split; try done.
  - intros j Hj. destruct (decide (j = idx)) as [->|]; [left; left|by right].
  - intros j ->%list_elem_of_singleton. done.
  - intros j ->%list_elem_of_singleton. by left.
  - apply NoDup_singleton.
Qed.

(** An application to one of the subgoals of another. *)
Lemma application_trans p idx q opened j rest ns q' :
  good p → application p idx (opened ++ j :: rest) q → application q j ns q' →
  application p idx ((opened ++ ns) ++ rest) q'.
Proof.
  intros Hp A B. pose proof (app_nodup _ _ _ _ A) as Hnd.
  assert (j ∉ opened ++ rest) as Hj.
  { apply NoDup_app in Hnd as (_ & Hd & [Hr _]%NoDup_cons). intros [Hin|Hin]%elem_of_app; [|done].
    apply (Hd j Hin). left. }
  assert (j = idx ∨ (Z.of_nat (size p) ≤ j)%Z) as Hjn.
  { apply (app_new _ _ _ _ A). set_solver. }
  split.
  - apply (app_good _ _ _ _ B).
  - intros x [Hx|[Hx Hne]]%(app_open _ _ _ _ B); [left; set_solver|].
    apply (app_open _ _ _ _ A) in Hx as [Hx|Hx]; [left|by right].
    rewrite elem_of_app, elem_of_cons in Hx. set_solver.
  - intros x Hx. assert (x ∈ ns ∨ x ∈ opened ++ rest) as [Hn|Ho] by set_solver.
    + by apply (app_subs _ _ _ _ B).
    + destruct (app_subs _ _ _ _ A x) as (par & s & d & Hd); [set_solver|].
      exists par, s, d. apply (app_keep _ _ _ _ B); [|done]. by intros ->.
  - intros x Hx. assert (x ∈ ns ∨ x ∈ opened ++ rest) as [Hn|Ho] by set_solver.
    + destruct (app_new _ _ _ _ B x Hn) as [->|Hge]; [done|].
      right. pose proof (app_size _ _ _ _ A). lia.
    + apply (app_new _ _ _ _ A). set_solver.
  - assert (NoDup (opened ++ rest)) as Hor.
    { apply NoDup_app in Hnd as (H1 & H2 & [_ H3]%NoDup_cons). apply NoDup_app.
      split; [done|]. split; [|done]. intros x Hx Hr. apply (H2 x Hx). by right. }
    assert (∀ x, x ∈ ns → x ∉ opened ++ rest) as Hdis.
    { intros x Hn Ho. destruct (app_new _ _ _ _ B x Hn) as [->|Hge]; [done|].
      assert (Wf.open_at q x) as Hx by (apply (app_subs _ _ _ _ A); set_solver).
      apply (open_lt q x) in Hx; [lia|]. apply good_wf, (app_good _ _ _ _ A). }
    apply NoDup_app in Hor as (H1 & H2 & H3). apply NoDup_app. split.
    { apply NoDup_app. split; [done|]. split; [|apply (app_nodup _ _ _ _ B)].
      intros x Ho Hn. apply (Hdis x Hn). set_solver. }
    split; [|done]. intros x Hx Hr. apply elem_of_app in Hx as [Hx|Hx]; [by apply (H2 x)|].
    apply (Hdis x Hx). set_solver.
  - intros x y Hne Hx. apply (app_keep _ _ _ _ B); [|by apply (app_keep _ _ _ _ A)].
    intros ->. destruct Hjn as [->|Hge]; [done|].
    assert (is_Some (p !! j)) as Hd by by eexists.
    apply (Wf.dom_segment p (good_wf p Hp)) in Hd. lia.
  - intros x s Hx. by apply (app_seq _ _ _ _ B), (app_seq _ _ _ _ A).
  - pose proof (app_size _ _ _ _ A). pose proof (app_size _ _ _ _ B). lia.
Qed.

(** Closing one node is an application, its premises the subgoals. *)
Lemma closes_application p idx n new q :
  good p → Wf.closes p idx n new q → Wf.fresh_node p n new → good q →
  application p idx (Prf.range (Z.of_nat (size p)) new) q.
Proof.
  intros [W _ _] C F Gq. assert (Node.is_open n = false) as Hn by by destruct n.
  pose proof (Wf.cl_size _ _ _ _ _ C) as Hsz. split.
  - done.
  - intros j [Hj|Hj]%(Wf.closes_open _ _ _ _ _ j W C Hn); [by right|].
    left. apply elem_of_range. lia.
  - intros j Hj%elem_of_range. apply (Wf.closes_open _ _ _ _ _ j W C Hn). right. lia.
  - intros j Hj%elem_of_range. right. lia.
  - apply NoDup_range.
  - intros j x Hne Hj. rewrite (Wf.cl_old _ _ _ _ _ C); [done..|].
    apply (Wf.dom_segment p W). by eexists.
  - intros j s. by apply (Wf.closes_seq_old p idx n new q).
  - lia.
Qed.
End applications.

Section contracts.
Context {Q : Sequent} {K : Calculus} {QL : SequentLaws Q} {KL : CalculusLaws K} {TR : TagRange Q}.
Context {St : Type} {C : GtcChecker St} {inv : St → Prop} {CL : GtcCheckerLaws C inv}.

(** At most [g] new nodes and [n] subgoals. *)
Definition result_ok (p : Prf.t) (idx : Z) (g n : nat) (a : list Z * Prf.t) : Prop :=
  application p idx a.1 a.2 ∧ size a.2 ≤ size p + g ∧ length a.1 ≤ n.

Definition room (p : Prf.t) (g : nat) : Prop := (Z.of_nat (size p + g) ≤ max_nodes)%Z.

Definition rule_ok (g n : nat) (r : Rule.t) : Prop := ∀ idx p s,
  good p → Wf.open_at p idx → room p g → inv s →
  returns (r idx p) s (λ apps s', inv s' ∧ Forall (result_ok p idx g n) apps).

Lemma result_ok_mono p idx g n g' n' a :
  g ≤ g' → n ≤ n' → result_ok p idx g n a → result_ok p idx g' n' a.
Proof. intros Hg Hn (A & Hs & Hl). split; [done|]. lia. Qed.

Lemma room_mono p g g' : g ≤ g' → room p g' → room p g.
Proof. unfold room. lia. Qed.

Lemma rule_ok_mono g n g' n' r : g ≤ g' → n ≤ n' → rule_ok g n r → rule_ok g' n' r.
Proof.
  intros Hg Hn H idx p s Hp Ho Hr Hi. eapply returns_mono.
  - apply H; [done|done|by eapply room_mono|done].
  - intros apps s' [Hs' Hf]. split; [done|]. eapply Forall_impl; [exact Hf|].
    intros a. by apply result_ok_mono.
Qed.

(** ** Rules of the calculus *)

Lemma get_seq_open p idx s : Wf.open_at p idx → ∃ par s0 d,
  p !! idx = Some (par, Node.OpenNode s0 d) ∧
  ∀ A (k : sequent → X St A) P, returns (k s0) s P →
    returns (seq ← lift_res (Prf.get_seq idx p); k seq) s P.
Proof.
  intros (par & s0 & d & Hp). exists par, s0, d. split; [done|]. intros A k P Hk.
  apply returns_bind. eapply returns_lift; [|exact Hk].
  apply Wf.get_seq_ok. unfold Wf.seq_of. by rewrite Hp.
Qed.

Lemma mk_axiom_ok (ax_f : Rule.axiom_f) :
  (∀ s d, ax_f s = Some d → ax_ok s) → rule_ok 0 0 (Rule.mk_axiom ax_f).
Proof.
  intros Hax idx p s Hp Ho Hr Hi. destruct (get_seq_open p idx s Ho) as (par & s0 & d & Hidx & Hk).
  apply Hk. destruct (ax_f s0) as [descr|] eqn:E; [|by apply returns_ret].
  destruct (Wf.add_axiom_run p idx par s0 d descr (good_wf p Hp) Hidx) as (q & Hq & Hc).
  apply returns_bind. eapply returns_lift; [exact Hq|]. apply returns_ret. split; [done|].
  apply Forall_singleton. split.
  - apply (closes_application p idx (Node.AxiomNode s0 descr) []); [done..|].
    by eapply (closes_good p idx (Node.AxiomNode s0 descr) []); [done..|apply (Hax _ _ E)|].
  - simpl. rewrite (Wf.cl_size _ _ _ _ _ Hc). simpl. lia.
Qed.

(** Closing an open node by an inference. *)
Lemma add_inf_result (idx : Z) (p : Prf.t) (par : Z) (s0 : sequent) (d0 d : string)
    (sgs : list subgoal) (n : nat) :
  good p → p !! idx = Some (par, Node.OpenNode s0 d0) → inf_ok s0 sgs → length sgs ≤ n →
  ∃ a, Prf.add_inf idx d sgs p = Ok a ∧ result_ok p idx n n a.
Proof.
  intros Hp Hidx Hok Hlen.
  destruct (Wf.add_inf_run p idx par s0 d0 d sgs (good_wf p Hp) Hidx) as (q & Hq & Hc).
  eexists. split; [exact Hq|]. rewrite <-(range_fmap _ (λ sg, sg.1.1)).
  assert (Wf.fresh_node p (Node.InfNode s0 d (Prf.range (Z.of_nat (size p)) sgs)
    ((λ sg, (sg.1.2, sg.2)) <$> sgs)) ((λ sg, sg.1.1) <$> sgs)) as Hf.
  { split; [by rewrite range_fmap|by rewrite !length_fmap]. }
  split.
  - apply (closes_application _ _ _ _ _ Hp Hc Hf).
    apply (closes_good _ _ _ _ _ Hp Hc Hf); [|done]. by exists sgs.
  - simpl. rewrite length_range, (Wf.cl_size _ _ _ _ _ Hc), !length_fmap. lia.
Qed.

Lemma mk_infrule_ok (r_f : Rule.infrule_f) (n : nat) :
  (∀ s sgs d, (sgs, d) ∈ r_f s → inf_ok s sgs ∧ length sgs ≤ n) →
  rule_ok n n (Rule.mk_infrule r_f).
Proof.
  intros Hinf idx p s Hp Ho Hr Hi. destruct (get_seq_open p idx s Ho) as (par & s0 & d & Hidx & Hk).
  apply Hk. eapply returns_mono; [apply (returns_map inv _ (λ _, result_ok p idx n n)); [done|]|].
  - intros [sgs descr] s1 Hin Hs1. destruct (Hinf s0 sgs descr Hin) as [Hok Hlen].
    destruct (add_inf_result idx p par s0 d descr sgs n Hp Hidx Hok Hlen) as (a & Ha & Hres).
    by eapply returns_lift.
  - intros apps s' [Hs' Hf]. split; [done|]. by eapply Forall2_Forall_r; [exact Hf|apply Forall_true].
Qed.

(** A selection of back-link targets. *)
Definition select_ok (sel_f : Rule.select_f) : Prop := ∀ idx p,
  Wf.t p → is_Some (p !! idx) →
  ∃ l, sel_f idx p = Ok l ∧ ∀ j, j ∈ l → is_Some (p !! j).

(** A proof with a back-link from [idx], not yet checked. *)
Definition linked (p : Prf.t) (idx : Z) (a : list Z * Prf.t) : Prop :=
  a.1 = [] ∧ ∃ s d j v, Wf.closes p idx (Node.BackNode s d j v) [] a.2 ∧
    Wf.t a.2 ∧ justified a.2 ∧ size a.2 = size p.

Lemma linked_ok p idx a : good p → linked p idx a → sound a.2 → result_ok p idx 0 0 a.
Proof.
  intros Hp (H1 & s & d & j & v & Hc & Wa & Ja & Hsz) Hs. destruct a as [l q]. simpl in *. subst l.
  split; [|simpl; lia]. assert (good q) as Hq by done.
  split; try done.
  - intros x [Hx|Hx]%(Wf.closes_open _ _ _ _ _ x (good_wf p Hp) Hc eq_refl); [by right|lia].
  - intros x Hx. by apply elem_of_nil in Hx.
  - intros x Hx. by apply elem_of_nil in Hx.
  - apply NoDup_nil_2.
  - intros x y Hne Hx. rewrite (Wf.cl_old _ _ _ _ _ Hc); [done..|].
    apply (Wf.dom_segment p (good_wf p Hp)). by eexists.
  - intros x s'. by eapply Wf.closes_seq_old; [apply Hp|].
  - simpl. lia.
Qed.

Lemma mk_link p idx par s0 d0 j s' v d :
  good p → p !! idx = Some (par, Node.OpenNode s0 d0) → Wf.seq_of p j = Some s' →
  back_ok s0 s' v →
  ∃ q, Prf.add_backlink idx d j v p = Ok q ∧ linked p idx ([], q).
Proof.
  intros Hp Hidx Hj Hb. pose proof (good_wf p Hp) as W.
  destruct (Wf.add_backlink_run p idx par s0 d0 d j s' v W Hidx Hj) as (q & Hq & Hc);
    [by apply (back_equal s0 s' v)|].
  assert (Wf.fresh_node p (Node.BackNode s0 d j v) []) as Hf.
  { split; [done|]. exists s'. split; [done|]. by apply (back_equal s0 s' v). }
  destruct (closes_good _ _ _ _ _ Hp Hc Hf) as (Wq & Jq & _); [by exists s'|].
  exists q. split; [done|]. split; [done|]. exists s0, d, j, v. split; [done|]. split; [done|].
  split; [done|]. simpl. rewrite (Wf.cl_size _ _ _ _ _ Hc). simpl. lia.
Qed.

Lemma check_linked p idx a s :
  linked p idx a → room p 0 → inv s →
  returns (Prf.check a.2) s (λ b s', inv s' ∧ (b = true ↔ sound a.2)).
Proof.
  intros (_ & _ & _ & _ & _ & _ & Wa & Ja & Hsz) Hr Hi.
  apply check_spec; [done..| |done]. unfold room in Hr. lia.
Qed.

(** The back-links from [idx] that the selection and the rule propose. *)
Definition proposed (sel_f : Rule.select_f) (br_f : Rule.backrule_f) (p : Prf.t) (idx : Z)
    (a : list Z * Prf.t) : Prop :=
  a.1 = [] ∧ ∃ s l j s' v d,
    Wf.seq_of p idx = Some s ∧ sel_f idx p = Ok l ∧ j ∈ l ∧ Wf.seq_of p j = Some s' ∧
    (v, d) ∈ br_f s s' ∧ Prf.add_backlink idx d j v p = Ok a.2.

Section backrule.
Variables (sel_f : Rule.select_f) (br_f : Rule.backrule_f).
Hypothesis Hsel : select_ok sel_f.
Hypothesis Hbr : ∀ s s' v d, (v, d) ∈ br_f s s' → back_ok s s' v.

Lemma proposed_linked p idx a :
  good p → Wf.open_at p idx → proposed sel_f br_f p idx a → linked p idx a.
Proof.
  intros Hp (par & s0 & d0 & Hidx) (Ha & s & l & j & s' & v & d & Hs & _ & _ & Hj & Hv & Hq).
  unfold Wf.seq_of in Hs. rewrite Hidx in Hs. injection Hs as <-. simpl in Hv.
  destruct (mk_link p idx par s0 d0 j s' v d Hp Hidx Hj) as (q & Hq' & Hl); [by eapply Hbr|].
  destruct a as [l' q2]. simpl in *. subst l'. rewrite Hq in Hq'. by injection Hq' as ->.
Qed.

(** [mk_backrule] keeps the proposed links that are sound: all of them, or the
    first one. *)
Lemma mk_backrule_exact greedy idx p s :
  good p → Wf.open_at p idx → room p 0 → inv s →
  returns (Rule.mk_backrule greedy sel_f br_f idx p) s (λ apps s', inv s' ∧
    (∀ a, a ∈ apps → proposed sel_f br_f p idx a ∧ sound a.2) ∧
    if greedy then length apps ≤ 1 ∧
      (apps = [] → ∀ a, proposed sel_f br_f p idx a → ¬ sound a.2)
    else ∀ a, proposed sel_f br_f p idx a → sound a.2 → a ∈ apps).
Proof.
  intros Hp Ho Hr Hi. destruct (get_seq_open p idx s Ho) as (par & s0 & d & Hidx & Hk).
  apply Hk. destruct (Hsel idx p (good_wf p Hp)) as (l & Hl & Hin); [by eexists|].
  assert (Wf.seq_of p idx = Some s0) as Hs0 by (unfold Wf.seq_of; by rewrite Hidx).
  apply returns_bind. eapply returns_lift; [exact Hl|]. apply returns_bind.
  eapply returns_mono; [apply (returns_bind_exact inv _ (λ j a, a.1 = [] ∧ ∃ s' v d,
    Wf.seq_of p j = Some s' ∧ (v, d) ∈ br_f s0 s' ∧
    Prf.add_backlink idx d j v p = Ok a.2)); [done|]|].
  - intros j s1 Hj Hs1. destruct (Hin j Hj) as [x Hx].
    assert (Wf.seq_of p j = Some (Node.get_seq x.2)) as Hsj by (unfold Wf.seq_of; by rewrite Hx).
    apply returns_bind. eapply returns_lift; [by apply Wf.get_seq_ok|].
    eapply returns_mono; [apply (returns_map_exact inv _ (λ vd a, a.1 = [] ∧
      Prf.add_backlink idx vd.2 j vd.1 p = Ok a.2)); [done|]|].
    + intros [v d'] s2 Hv Hs2.
      destruct (mk_link p idx par s0 d j _ v d' Hp Hidx Hsj) as (q & Hq & _); [by eapply Hbr|].
      apply returns_bind. eapply returns_lift; [exact Hq|]. apply returns_ret. split; [done|].
      intros [l' q']. simpl. rewrite Hq. naive_solver.
    + intros apps s2 [Hs2 Hf]. split; [done|]. intros a. rewrite Hf, Hsj. split.
      * intros ([v d'] & Hv & Ha & Hq). split; [done|]. by exists (Node.get_seq x.2), v, d'.
      * intros (Ha & s' & v & d' & [= <-] & Hv & Hq). by exists (v, d').
  - intros apps s1 [Hs1 Hf].
    assert (∀ a, a ∈ apps ↔ proposed sel_f br_f p idx a) as Hap.
    { intros a. rewrite Hf. unfold proposed. rewrite Hs0, Hl. naive_solver. }
    assert (∀ a s, a ∈ apps → inv s → returns (Prf.check a.2) s
      (λ b s', inv s' ∧ (b = true ↔ sound a.2))) as Hchk.
    { intros a s2 Ha Hs2. eapply check_linked; [|done|done]. by apply proposed_linked, Hap. }
    destruct greedy.
    + apply returns_bind. eapply returns_mono; [by apply (returns_find_opt inv _ (λ a, sound a.2))|].
      intros o s2 [Hs2 Hfo]. apply returns_ret. split; [done|]. destruct o as [a|].
      * destruct Hfo as [Ha Hsa]. split; [|simpl; split; [lia|done]].
        intros b ->%list_elem_of_singleton. split; [by apply Hap|done].
      * split; [intros a Ha; by apply elem_of_nil in Ha|]. split; [simpl; lia|].
        intros _ a Ha. by apply Hfo, Hap.
    + eapply returns_mono; [by apply (returns_filter inv _ (λ a, sound a.2))|].
      intros ys s2 (Hs2 & Hys). split; [done|].
      split; intros a; rewrite Hys, Hap; naive_solver.
Qed.

Lemma mk_backrule_ok greedy : rule_ok 0 0 (Rule.mk_backrule greedy sel_f br_f).
Proof.
  intros idx p s Hp Ho Hr Hi. eapply returns_mono; [by apply mk_backrule_exact|].
  intros apps s' (Hs' & Happs & _). split; [done|]. apply Forall_forall. intros a Ha.
  destruct (Happs a Ha). apply linked_ok; [done| |done]. by apply proposed_linked.
Qed.
End backrule.

(** ** Selections *)

Lemma elem_of_to_list (p : Prf.t) b : b ∈ Prf.to_list p ↔ ∃ par, p !! b.1 = Some (par, b.2).
Proof.
  unfold Prf.to_list. rewrite list_elem_of_fmap. split.
  - intros ([i [par n]] & -> & H%Wf.elem_of_prf). by exists par.
  - intros [par H]. exists (b.1, (par, b.2)). split; [by destruct b|]. by apply Wf.elem_of_prf.
Qed.

Lemma filtered_nodes (p : Prf.t) (P : Z * Node.t → Prop) `{∀ b, Decision (P b)} j :
  j ∈ (filter P (Prf.to_list p)).*1 → is_Some (p !! j).
Proof.
  intros (b & -> & [_ [par Hb]%elem_of_to_list]%list_elem_of_filter)%list_elem_of_fmap.
  by eexists.
Qed.

Lemma all_nodes_ok : select_ok Rule.all_nodes.
Proof.
  intros idx p W Hi. eexists. split; [done|].
  intros j [_ (b & -> & [par Hb]%elem_of_to_list)%list_elem_of_fmap]%list_elem_of_filter.
  by eexists.
Qed.

Lemma closed_nodes_ok : select_ok Rule.closed_nodes.
Proof. intros idx p W Hi. eexists. split; [done|]. intros j. apply filtered_nodes. Qed.

Lemma ancestor_nodes_ok : select_ok Rule.ancestor_nodes.
Proof.
  intros idx p W Hi. destruct (get_ancestry_spec p idx W Hi) as (l & Hl & Hanc).
  exists l.*1. unfold Rule.ancestor_nodes. rewrite Hl. split; [done|].
  intros j ([j' n] & -> & Hj)%list_elem_of_fmap.
  destruct (ancestry_in p idx l j' n Hanc Hj) as [par Hn]. by eexists.
Qed.

Lemma syntactically_equal_nodes_ok : select_ok Rule.syntactically_equal_nodes.
Proof.
  intros idx p W [x Hx]. unfold Rule.syntactically_equal_nodes.
  rewrite (Wf.get_seq_ok p idx (Node.get_seq x.2)) by (unfold Wf.seq_of; by rewrite Hx).
  eexists. split; [done|]. intros j. apply filtered_nodes.
Qed.

(** ** Combinators *)

Lemma fail_ok : rule_ok 0 0 Rule.fail.
Proof. intros idx p s Hp Ho Hr Hi. by apply returns_ret. Qed.

Lemma identity_ok : rule_ok 0 1 Rule.identity.
Proof.
  intros idx p s Hp Ho Hr Hi. apply returns_ret. split; [done|]. apply Forall_singleton.
  split; [by apply application_refl|simpl; lia].
Qed.

(** An application in progress: [subs] are still to be treated. *)
Definition partly_ok (p : Prf.t) (idx : Z) (subs : list Z) (g n : nat) (a : list Z * Prf.t) : Prop :=
  application p idx (a.1 ++ subs) a.2 ∧ size a.2 ≤ size p + g ∧ length a.1 ≤ n.

Lemma apply_to_subgoal_ok g n r p idx j subs apps s G N :
  rule_ok g n r → good p → room p (G + g) → inv s →
  Forall (partly_ok p idx (j :: subs) G N) apps →
  returns (Rule.apply_to_subgoal apps r j) s (λ apps' s',
    inv s' ∧ Forall (partly_ok p idx subs (G + g) (N + n)) apps').
Proof.
  intros Hr Hp Hroom Hi Happs. rewrite Forall_forall in Happs.
  apply (returns_bind_list inv); [done|].
  intros [opened q] s1 Hin Hs1. destruct (Happs _ Hin) as (A & Hs & Hl). simpl in *.
  apply returns_bind. eapply returns_mono; [apply (Hr j q s1)|].
  - apply (app_good _ _ _ _ A).
  - apply (app_subs _ _ _ _ A). set_solver.
  - unfold room in *. lia.
  - done.
  - intros news s2 [Hs2 Hnews]. apply returns_ret. split; [done|].
    apply Forall_fmap. eapply Forall_impl; [exact Hnews|]. intros [ns q'] (B & Hsb & Hlb).
    simpl in *. split; [by eapply application_trans|]. simpl. rewrite length_app. lia.
Qed.

(** [List.fold_left2] over rules and subgoals: all applications when there are
    as many rules as subgoals, and the exception otherwise. *)
Lemma fold_subgoals_ok g n p idx rules subs apps s G N :
  Forall (rule_ok g n) rules → good p → room p (G + length subs * g) → inv s →
  Forall (partly_ok p idx subs G N) apps →
  ∃ r s', fold_left2_x Rule.apply_to_subgoal apps rules subs s = (r, s') ∧ inv s' ∧
    if decide (length rules = length subs) then
      ∃ apps', r = Ok apps' ∧
        Forall (result_ok p idx (G + length subs * g) (N + length subs * n)) apps'
    else r = Err EInvalidArg.
Proof.
  intros Hrules Hp. revert subs apps s G N.
  induction Hrules as [|r rules Hr _ IH]; intros [|j subs] apps s G N Hroom Hi Happs;
    [eexists _, s; split; [done|]; split; [done|]; simpl..|].
  - exists apps. split; [done|]. eapply Forall_impl; [exact Happs|].
    intros a (A & Hs & Hl). rewrite app_nil_r in A. split; [done|lia].
  - done.
  - done.
  - destruct (apply_to_subgoal_ok g n r p idx j subs apps s G N) as (apps1 & s1 & E & Hs1 & H1);
      [done|done|unfold room in *; simpl in *; lia|done|done|].
    destruct (IH subs apps1 s1 (G + g) (N + n)) as (r2 & s2 & E2 & Hs2 & H2);
      [unfold room in *; simpl in *; lia|done|done|].
    exists r2, s2. simpl. unfold mbind, X_bind. rewrite E. split; [done|]. split; [done|].
    destruct (decide (length rules = length subs)) as [Hlen|Hlen].
    + rewrite decide_True by lia. destruct H2 as (apps2 & -> & H2). exists apps2. split; [done|].
      eapply Forall_impl; [exact H2|]. intros a. apply result_ok_mono; lia.
    + by rewrite decide_False by lia.
Qed.

(** Rules applied to all subgoals of an application. *)
Lemma apply_to_subgoals_ok g n g1 n1 p idx rules a s :
  Forall (rule_ok g n) rules → good p → result_ok p idx g1 n1 a →
  room p (g1 + n1 * g) → inv s →
  returns (Rule.apply_to_subgoals_pairwise rules a) s (λ apps s',
    inv s' ∧ Forall (result_ok p idx (g1 + n1 * g) (n1 * n)) apps).
Proof.
  intros Hrules Hp (A & Hs & Hl) Hroom Hi.
  assert (length a.1 * g ≤ n1 * g ∧ length a.1 * n ≤ n1 * n) as [Hg Hn] by (split; by apply Nat.mul_le_mono_r).
  destruct (fold_subgoals_ok g n p idx rules a.1 [([], a.2)] s g1 0) as (r & s' & E & Hs' & H).
  { done. } { done. } { unfold room in *. lia. } { done. }
  { apply Forall_singleton. split; [done|simpl; lia]. }
  unfold Rule.apply_to_subgoals_pairwise, try_invalid, returns. rewrite E.
  destruct (decide _) as [Hlen|Hlen].
  - destruct H as (apps & -> & Happs). exists apps, s'. split; [done|]. split; [done|].
    eapply Forall_impl; [exact Happs|]. intros b. apply result_ok_mono; lia.
  - rewrite H. exists [], s'. done.
Qed.

Lemma compose_pairwise_ok g n g1 n1 r rs :
  rule_ok g1 n1 r → Forall (rule_ok g n) rs →
  rule_ok (g1 + n1 * g) (n1 * n) (Rule.compose_pairwise r rs).
Proof.
  intros Hr Hrs idx p s Hp Ho Hroom Hi. apply returns_bind.
  eapply returns_mono; [apply Hr; [done|done|by eapply room_mono; [|exact Hroom]; lia|done]|].
  intros apps s1 [Hs1 Happs]. rewrite Forall_forall in Happs.
  apply (returns_bind_list inv); [done|]. intros a s2 Ha Hs2.
  by eapply apply_to_subgoals_ok; [done|done|apply Happs|done|].
Qed.

Lemma compose_ok g n g1 n1 r r' :
  rule_ok g1 n1 r → rule_ok g n r' → rule_ok (g1 + n1 * g) (n1 * n) (Rule.compose r r').
Proof.
  intros Hr Hr' idx p s Hp Ho Hroom Hi. apply returns_bind.
  eapply returns_mono; [apply Hr; [done|done|by eapply room_mono; [|exact Hroom]; lia|done]|].
  intros apps s1 [Hs1 Happs]. rewrite Forall_forall in Happs.
  apply (returns_bind_list inv); [done|]. intros a s2 Ha Hs2.
  eapply apply_to_subgoals_ok; [|done|by apply Happs|done|done].
  by apply Forall_replicate.
Qed.

Lemma choice_ok g n rl : Forall (rule_ok g n) rl → rule_ok g n (Rule.choice rl).
Proof.
  intros Hrl idx p s Hp Ho Hroom Hi. rewrite Forall_forall in Hrl.
  apply (returns_bind_list inv); [done|]. intros r s1 Hr Hs1. by apply Hrl.
Qed.

(** One rule, and another when it has no application. *)
Lemma or_else_ok g n (r : Rule.t) (r' : Rule.t) idx p s :
  rule_ok g n r → good p → Wf.open_at p idx → room p g → inv s →
  (∀ s, inv s → returns (r' idx p) s (λ apps s', inv s' ∧ Forall (result_ok p idx g n) apps)) →
  returns (apps ← r idx p; if decide (apps = []) then r' idx p else mret apps) s
    (λ apps s', inv s' ∧ Forall (result_ok p idx g n) apps).
Proof.
  intros Hr Hp Ho Hroom Hi Hr'. apply returns_bind. eapply returns_mono; [by apply Hr|].
  intros apps s1 [Hs1 Happs]. case_decide; [by apply Hr'|by apply returns_ret].
Qed.

Lemma first_ok g n rl : Forall (rule_ok g n) rl → rule_ok g n (Rule.first rl).
Proof.
  induction 1 as [|r rs Hr _ IH]; intros idx p s Hp Ho Hroom Hi; simpl; [by apply returns_ret|].
  apply or_else_ok; [done..|]. intros s1 Hs1. by apply IH.
Qed.

Lemma attempt_ok g n r : rule_ok g n r → rule_ok g (max n 1) (Rule.attempt r).
Proof.
  intros Hr idx p s Hp Ho Hroom Hi.
  apply or_else_ok; [eapply rule_ok_mono; [| |exact Hr]; lia|done..|].
  intros s1 Hs1. apply (rule_ok_mono 0 1); [lia|lia|apply identity_ok|done..].
Qed.

(** The bounds of a sequence of rules. *)
Fixpoint seq_bounds (bs : list (nat * nat)) : nat * nat :=
  match bs with
  | [] => (0, 1)
  | (g, n) :: bs => (g + n * (seq_bounds bs).1, n * (seq_bounds bs).2)
  end.

Lemma sequence_ok bs rl :
  Forall2 (λ b r, rule_ok b.1 b.2 r) bs rl →
  rule_ok (seq_bounds bs).1 (seq_bounds bs).2 (Rule.sequence rl).
Proof.
  induction 1 as [|[g n] r bs rl Hr _ IH]; [apply identity_ok|]. by apply compose_ok.
Qed.

Lemma conditional_ok g n cond r : rule_ok g n r → rule_ok g n (Rule.conditional cond r).
Proof.
  intros Hr idx p s Hp Ho Hroom Hi. destruct (get_seq_open p idx s Ho) as (par & s0 & d & _ & Hk).
  apply Hk. destruct (cond s0); [by apply Hr|by apply returns_ret].
Qed.

Lemma combine_axioms_ok ga na g n ax rl :
  rule_ok ga na ax → rule_ok g n rl →
  rule_ok (max ga (g + n * ga)) (max na (n * max na 1)) (Rule.combine_axioms ax rl).
Proof.
  intros Hax Hrl. apply first_ok. apply Forall_cons_2; [eapply rule_ok_mono; [| |exact Hax]; lia|].
  apply Forall_singleton. eapply rule_ok_mono; [| |apply (compose_ok ga (max na 1) g n); [done|]]; [lia|lia|].
  by apply attempt_ok.
Qed.
End contracts.
