(* ===== verification/Prover.v ===== *)
(** * The prover: [prover.ml]

    Iterated depth-first search: every open node is closed by an axiom or
    expanded by a rule, to a depth that grows until a proof is found. *)

From S2P Require Import Prelude Exn Spot ProofGraph Gtc ProofAut Trace Soundness.
From S2P Require Import SoundnessSpec Soundcheck Minimize MinimizeProofs ProofNode CyclicProof.
From S2P Require Import ProofInvariant ProofQueries ProofSound ProofRule RuleContract.

Module Prover.
Section prover.
Context {Q : Sequent} {St : Type} {C : GtcChecker St}.

(** [dfs] with a bound of [n - 1]: a negative bound is [n = 0]. *)
Fixpoint dfs (ax r : Rule.t) (n : nat) (idx : Z) (prf : Prf.t) : X St (option Prf.t) :=
  match n with
  | O => mret None
  | S n =>
    apps ← ax idx prf;
    match snd <$> find_opt (λ a, bool_decide (a.1 = [])) apps with
    | Some prf' => mret (Some prf')
    | None =>
      apps ← r idx prf;
      find_map_x (λ a,
        fold_left_x (λ optprf idx',
          match optprf with
          | None => mret None
          | Some prf' => dfs ax r n idx' prf'
          end) (Some a.2) a.1) apps
    end
  end.

(** The checker's state and [last_search_depth]. *)
Record search := mkSearch {
  checker_state : St;
  last_search_depth : Z;
}.

Definition on_checker {A} (m : X St A) : X search A := λ s,
  let '(a, c) := m (checker_state s) in (a, mkSearch c (last_search_depth s)).

Definition set_depth (d : Z) : X search unit := λ s, (Ok tt, mkSearch (checker_state s) d).

(** [idfs], with at most [n] rounds. *)
Fixpoint idfs_loop (n : nat) (bound maxbound : Z) (ax r : Rule.t) (seq : sequent) :
    X search (option Prf.t) :=
  if decide (bound > maxbound)%Z then mret None
  else
    match n with
    | O => lift_res (Err EFuel)
    | S n =>
      res ← on_checker (dfs ax r (Z.to_nat (bound + 1)) 0 (Prf.mk seq));
      match res with
      | None => idfs_loop n (bound + 1) maxbound ax r seq
      | Some prf => set_depth bound ;; mret (Some prf)
      end
    end.

Definition idfs (bound maxbound : Z) (ax r : Rule.t) (seq : sequent) : X search (option Prf.t) :=
  idfs_loop (Z.to_nat (maxbound - bound + 1)) bound maxbound ax r seq.
End prover.
Arguments search : clear implicits.
Arguments mkSearch {St} _ _.
End Prover.

(** ** Search keeps proofs good *)

Section search.
Context {Q : Sequent} {K : Calculus} {QL : SequentLaws Q} {KL : CalculusLaws K} {TR : TagRange Q}.
Context {St : Type} {C : GtcChecker St} {inv : St → Prop} {CL : GtcCheckerLaws C inv}.
Context (ax r : Rule.t (St := St)) (ga na g m : nat).
Hypothesis Hax : rule_ok (inv := inv) ga na ax.
Hypothesis Hr : rule_ok (inv := inv) g m r.

(** New nodes of a search of depth [n - 1]. *)
Fixpoint growth (n : nat) : nat :=
  match n with
  | O => 0
  | S n => max ga (g + m * growth n)
  end.

Lemma growth_mono n n' : n ≤ n' → growth n ≤ growth n'.
Proof.
  intros H. revert n' H. induction n as [|n IH]; intros [|n'] H; simpl; [lia|lia|lia|].
  assert (m * growth n ≤ m * growth n'); [apply Nat.mul_le_mono_l, IH; lia|lia].
Qed.

(** A proof with node [idx] closed, with at most [B] more nodes. *)
Definition closed_in (p : Prf.t) (idx : Z) (B : nat) (q : Prf.t) : Prop :=
  application p idx [] q ∧ size q ≤ size p + B.

Lemma fold_none (f : Z → Prf.t → X St (option Prf.t)) subs s :
  returns (fold_left_x (λ o j, match o with None => mret None | Some q => f j q end) None subs) s
    (λ o s', o = None ∧ s' = s).
Proof.
  induction subs as [|k subs IH]; simpl; [by apply returns_ret|].
  apply returns_bind. by apply returns_ret.
Qed.

Lemma close_subgoals (f : Z → Prf.t → X St (option Prf.t)) G p idx q subs B s :
  (∀ j q s, good q → Wf.open_at q j → room q G → inv s →
     returns (f j q) s (λ o s', inv s' ∧ ∀ q', o = Some q' → closed_in q j G q')) →
  good p → application p idx subs q → size q ≤ size p + B → room p (B + length subs * G) → inv s →
  returns (fold_left_x (λ o j, match o with None => mret None | Some q => f j q end) (Some q) subs) s
    (λ o s', inv s' ∧ ∀ q', o = Some q' → closed_in p idx (B + length subs * G) q').
Proof.
  intros Hf Hp. revert q B s. induction subs as [|j subs IH]; intros q B s A Hs Hroom Hi; simpl.
  - apply returns_ret. split; [done|]. intros ? [= <-]. split; [done|lia].
  - apply returns_bind. eapply returns_mono; [apply (Hf j q s)|].
    + apply (app_good _ _ _ _ A).
    + apply (app_subs _ _ _ _ A). left.
    + unfold room in *. simpl in *. lia.
    + done.
    + intros [q'|] s1 [Hs1 Hq'].
      * destruct (Hq' q' eq_refl) as [A' Hsz]. eapply returns_mono; [apply (IH q' (B + G) s1)|].
        -- exact (application_trans p idx q [] j subs [] q' Hp A A').
        -- lia.
        -- unfold room in *. simpl in *. lia.
        -- done.
        -- intros o s2 [Hs2 Ho]. split; [done|]. intros q2 Hq2. destruct (Ho q2 Hq2) as [A2 H2].
           split; [done|lia].
      * eapply returns_mono; [apply fold_none|]. by intros o s2 [-> ->].
Qed.

Lemma dfs_ok n idx p s :
  good p → Wf.open_at p idx → room p (growth n) → inv s →
  returns (Prover.dfs ax r n idx p) s
    (λ o s', inv s' ∧ ∀ q, o = Some q → closed_in p idx (growth n) q).
Proof.
  revert idx p s. induction n as [|n IH]; intros idx p s Hp Ho Hroom Hi; simpl.
  - by apply returns_ret.
  - apply returns_bind. eapply returns_mono; [apply Hax; [done|done| |done]|].
    { eapply room_mono; [|exact Hroom]. simpl. lia. }
    intros apps s1 [Hs1 Happs]. rewrite Forall_forall in Happs.
    destruct (find_opt _ apps) as [[l q]|] eqn:E; simpl.
    + apply find_opt_some in E as [Hin Hl%bool_decide_eq_true]. simpl in Hl. subst l.
      destruct (Happs _ Hin) as (A & Hsz & _). apply returns_ret. split; [done|].
      intros ? [= <-]. split; [done|simpl in *; lia].
    + apply returns_bind. eapply returns_mono; [apply Hr; [done|done| |done]|].
      { eapply room_mono; [|exact Hroom]. simpl. lia. }
      intros apps2 s2 [Hs2 Happs2]. rewrite Forall_forall in Happs2.
      apply (returns_find_map inv); [done|]. intros [subs q] s3 Hin Hs3.
      destruct (Happs2 _ Hin) as (A & Hsz & Hlen). simpl in *.
      assert (length subs * growth n ≤ m * growth n) by by apply Nat.mul_le_mono_r.
      eapply returns_mono; [apply (close_subgoals _ (growth n) p idx q subs g s3 IH); try done|].
      { unfold room in *. lia. }
      intros o s4 [Hs4 Hq]. split; [done|]. intros q' Hq'. destruct (Hq q' Hq') as [A' H'].
      split; [done|lia].
Qed.

(** What [idfs] returns. *)
Definition proves (seq : sequent) (q : Prf.t) : Prop :=
  good q ∧ Prf.is_closed q = true ∧ Wf.seq_of q 0%Z = Some seq.

Lemma dfs_root_ok n seq s :
  (Z.of_nat (1 + growth n) ≤ max_nodes)%Z → inv s →
  returns (Prover.dfs ax r n 0 (Prf.mk seq)) s
    (λ o s', inv s' ∧ ∀ q, o = Some q → proves seq q).
Proof.
  intros Hg Hi.
  assert (size (Prf.mk seq) = 1) as Hsz.
  { unfold Prf.mk. by rewrite map_size_insert, lookup_empty, map_size_empty. }
  assert (Prf.mk seq !! 0%Z = Some (0%Z, Node.mk_open seq)) as H0 by apply lookup_insert_eq.
  eapply returns_mono; [apply (dfs_ok n 0%Z (Prf.mk seq) s); [apply mk_good| | |done]|].
  - by exists 0%Z, seq, "(Open)".
  - unfold room. by rewrite Hsz.
  - intros o s' [Hs' Ho]. split; [done|]. intros q Hq. destruct (Ho q Hq) as [A _].
    split; [apply (app_good _ _ _ _ A)|]. split.
    + apply Wf.is_closed_spec. intros j Hj.
      apply (app_open _ _ _ _ A) in Hj as [Hj|[(par & s0 & d & Hj) Hne]]; [by apply elem_of_nil in Hj|].
      unfold Prf.mk in Hj. by rewrite lookup_insert_ne in Hj.
    + apply (app_seq _ _ _ _ A). unfold Wf.seq_of. by rewrite H0.
Qed.

Lemma returns_on_checker {A} (mm : X St A) (s : Prover.search St) (P : A → St → Prop) :
  returns mm (Prover.checker_state s) P →
  returns (Prover.on_checker mm) s (λ a s',
    P a (Prover.checker_state s') ∧ Prover.last_search_depth s' = Prover.last_search_depth s).
Proof.
  intros (a & c & E & H). eexists a, _. unfold Prover.on_checker. rewrite E. by split.
Qed.

Lemma idfs_loop_ok n bound maxbound seq s :
  (maxbound - bound + 1 ≤ Z.of_nat n)%Z →
  (Z.of_nat (1 + growth (Z.to_nat (maxbound + 1))) ≤ max_nodes)%Z →
  inv (Prover.checker_state s) →
  returns (Prover.idfs_loop n bound maxbound ax r seq) s (λ o s',
    inv (Prover.checker_state s') ∧
    ∀ q, o = Some q → proves seq q ∧ (bound ≤ Prover.last_search_depth s' ≤ maxbound)%Z).
Proof.
  revert bound s. induction n as [|n IH]; intros bound s Hn Hg Hi; simpl.
  - rewrite decide_True by lia. by apply returns_ret.
  - case_decide; [by apply returns_ret|]. apply returns_bind.
    eapply returns_mono; [apply returns_on_checker, dfs_root_ok; [|exact Hi]|].
    { pose proof (growth_mono (Z.to_nat (bound + 1)) (Z.to_nat (maxbound + 1))). lia. }
    intros [q|] s1 [[Hs1 Hq] _].
    + apply returns_bind. eexists tt, _. split; [done|]. apply returns_ret. split; [done|].
      intros ? [= <-]. split; [by apply Hq|]. simpl. lia.
    + eapply returns_mono; [apply (IH (bound + 1)%Z s1); [lia|done|done]|].
      intros o s2 [Hs2 Ho]. split; [done|]. intros q Hq'. destruct (Ho q Hq'). split; [done|lia].
Qed.

(** A search to depth [d] from a good checker ends with [o]. *)
Definition search_ends (seq : sequent) (d : Z) (o : option Prf.t) : Prop :=
  ∃ c c', inv c ∧ inv c' ∧ Prover.dfs ax r (Z.to_nat (d + 1)) 0 (Prf.mk seq) c = (Ok o, c').

(** The rounds before the one that succeeds have failed, and all of them when
    none succeeds; [last_search_depth] is the depth of the proof returned. *)
Lemma idfs_loop_deepens n bound maxbound seq s :
  (maxbound - bound + 1 ≤ Z.of_nat n)%Z →
  (Z.of_nat (1 + growth (Z.to_nat (maxbound + 1))) ≤ max_nodes)%Z →
  inv (Prover.checker_state s) →
  returns (Prover.idfs_loop n bound maxbound ax r seq) s (λ o s',
    let d := match o with Some _ => Prover.last_search_depth s' | None => maxbound + 1 end in
    (∀ i, bound ≤ i < d → search_ends seq i None) ∧
    match o with
    | Some q => bound ≤ d ≤ maxbound ∧ search_ends seq d (Some q)
    | None => Prover.last_search_depth s' = Prover.last_search_depth s
    end)%Z.
Proof.
  revert bound s. induction n as [|n IH]; intros bound s Hn Hg Hi; simpl.
  - rewrite decide_True by lia. apply returns_ret. split; [lia|done].
  - case_decide; [apply returns_ret; split; [lia|done]|].
    destruct (dfs_root_ok (Z.to_nat (bound + 1)) seq (Prover.checker_state s)) as (o & c' & E & Hc' & _);
      [|done|].
    { pose proof (growth_mono (Z.to_nat (bound + 1)) (Z.to_nat (maxbound + 1))). lia. }
    assert (search_ends seq bound o) as Hb by by exists (Prover.checker_state s), c'.
    apply returns_bind. exists o, (Prover.mkSearch c' (Prover.last_search_depth s)).
    split; [unfold Prover.on_checker; by rewrite E|]. destruct o as [q|].
    + apply returns_bind. eexists tt, _. split; [done|]. apply returns_ret. simpl.
      split; [lia|]. split; [lia|done].
    + eapply returns_mono; [apply (IH (bound + 1)%Z); [lia|done|done]|]. simpl.
      intros o2 s2 [Hfail Ho]. split.
      * intros i Hi2. destruct (decide (i = bound)) as [->|]; [done|]. apply Hfail. lia.
      * destruct o2; [|done]. split; [lia|apply Ho].
Qed.
End search.
