(* ===== verification/CheckProof.v ===== *)
(** * The command-line checker: [checkproof.ml]

    Reads lines [src -> dest : { progressing pairs }, { other pairs }], builds an
    abstract proof from them, and checks it from the source of the first line.
    The model starts from the parsed lines; nodes and tags are the numbers of
    their hash-consed names. *)

From S2P Require Import Prelude Exn Spot ProofGraph Gtc ProofAut Trace Soundness.
From S2P Require Import SoundnessSpec Soundcheck Minimize MinimizeProofs ProofNode.

Module CheckProof.

(** Source, target, progressing and other tag pairs. *)
Definition line : Type := Z * Z * tagpairs * tagpairs.

(** Tags, premises, and the pairs per premise. *)
Definition entry : Type := gset Z * list Z * list (tagpairs * tagpairs).

(** [Tagpairs.projectl], [Tagpairs.projectr] *)
Definition projectl (tps : tagpairs) : gset Z := set_map (C := tagpairs) (D := gset Z) fst tps.
Definition projectr (tps : tagpairs) : gset Z := set_map (C := tagpairs) (D := gset Z) snd tps.

(** The update at the source of a line. *)
Definition add_source (dest : Z) (src_tags : gset Z) (all prog : tagpairs) (o : option entry) :
    entry :=
  match o with
  | None => (src_tags, [dest], [(all, prog)])
  | Some (ts, premises, tps) => (src_tags ∪ ts, dest :: premises, (all, prog) :: tps)
  end.

(** The update at its target. *)
Definition add_target (dest_tags : gset Z) (o : option entry) : entry :=
  match o with
  | None => (dest_tags, [], [])
  | Some (ts, premises, tps) => (dest_tags ∪ ts, premises, tps)
  end.

Definition add_entry (nodemap : gmap Z entry) (l : line) : res (gmap Z entry) :=
  let '(src, dest, prog, nonprog) := l in
  let all := nonprog ∪ prog in
  let src_tags := projectl all in
  let dest_tags := projectr all in
  assert_res (match nodemap !! src with
              | None => true
              | Some (_, premises, _) => negb (bool_decide (dest ∈ premises))
              end) ;;
  let nodemap := <[src := add_source dest src_tags all prog (nodemap !! src)]> nodemap in
  let nodemap := <[dest := add_target dest_tags (nodemap !! dest)]> nodemap in
  mret nodemap.

(** [List.fold_left add_entry] *)
Fixpoint add_entries (nodemap : gmap Z entry) (lines : list line) : res (gmap Z entry) :=
  match lines with
  | [] => mret nodemap
  | l :: lines => nodemap ← add_entry nodemap l; add_entries nodemap lines
  end.

(** [Int.Map.map] with [mk_abs_node] *)
Definition abstract (nodemap : gmap Z entry) : res aproof :=
  l ← map_res (λ i, n ← match nodemap !! i with
                         | Some (ts, premises, tps) => mk_abs_node ts premises tps
                         | None => Err EExn
                         end; mret (i, n)) (ints (dom nodemap));
  mret (list_to_map l).

Definition mk_prf (lines : list line) : res (aproof * Z) :=
  nodemap ← add_entries ∅ lines;
  prf ← abstract nodemap;
  let init := match lines with [] => 0%Z | (src, _, _, _) :: _ => src end in
  mret (prf, init).

(** One round of the main loop, after parsing: YES or NO. *)
Definition answer {B : Bdd} {D : BddDict} {HO : HashOrder} {G : SpotAlgos B} {F : FloatLog}
    {T : TreeEq} (lines : list line) : M checker bool :=
  pi ← lift (mk_prf lines); check_proof pi.2 pi.1.

(** ** The proof built *)

(** Line [l] is the premise [e] of node [i]. *)
Definition line_edge (l : line) (i : Z) (e : Z * tagpairs * tagpairs) : Prop :=
  l.1.1.1 = i ∧ e = (l.1.1.2, l.2 ∪ l.1.2, l.1.2).

(** The premises of an entry. *)
Definition entry_edges (x : entry) : list (Z * tagpairs * tagpairs) :=
  zip_with (λ i tps, (i, tps.1, tps.2)) x.1.2 x.2.

Lemma entry_edges_premises (x : entry) :
  length x.1.2 = length x.2 → premise <$> entry_edges x = x.1.2.
Proof.
  destruct x as [[ts ps] tps]. unfold entry_edges. simpl. revert tps.
  induction ps as [|i ps IH]; intros [|y tps] H; [done..|]. simpl in *. f_equal. apply IH. lia.
Qed.

(** The entry of [i], empty when there is none. *)
Definition no_entry : entry := (∅, [], []).
Definition entry_of (m : gmap Z entry) (i : Z) : entry := default no_entry (m !! i).

Lemma entry_of_some (m : gmap Z entry) (i : Z) (x : entry) : m !! i = Some x → entry_of m i = x.
Proof. intros H. unfold entry_of. by rewrite H. Qed.

(** The entries built from [lines]. *)
Record entries_ok (lines : list line) (m : gmap Z entry) : Prop := {
  eo_dom i : is_Some (m !! i) ↔ ∃ l, l ∈ lines ∧ (i = l.1.1.1 ∨ i = l.1.1.2);
  eo_len i : length (entry_of m i).1.2 = length (entry_of m i).2;
  eo_nodup i : NoDup (entry_of m i).1.2;
  eo_edges i e : e ∈ entry_edges (entry_of m i) ↔ ∃ l, l ∈ lines ∧ line_edge l i e;
  eo_ltags l t u : l ∈ lines → (t, u) ∈ l.2 ∪ l.1.2 → t ∈ (entry_of m l.1.1.1).1.1;
  eo_rtags l t u : l ∈ lines → (t, u) ∈ l.2 ∪ l.1.2 → u ∈ (entry_of m l.1.1.2).1.1;
}.

Lemma add_entry_run m src dest prog nonprog :
  dest ∉ (entry_of m src).1.2 →
  ∃ m', add_entry m (src, dest, prog, nonprog) = Ok m' ∧
    (∀ i, is_Some (m' !! i) ↔ i = src ∨ i = dest ∨ is_Some (m !! i)) ∧
    ∀ i, (entry_of m' i).1.2 = (if decide (i = src) then [dest] else []) ++ (entry_of m i).1.2 ∧
      (entry_of m' i).2 =
        (if decide (i = src) then [(nonprog ∪ prog, prog)] else []) ++ (entry_of m i).2 ∧
      (entry_of m' i).1.1 =
        (if decide (i = dest) then projectr (nonprog ∪ prog) else ∅) ∪
        ((if decide (i = src) then projectl (nonprog ∪ prog) else ∅) ∪ (entry_of m i).1.1).
Proof.
  intros Hd. eexists. split; [|split].
  - unfold add_entry.
    assert (match m !! src with
            | None => true
            | Some (_, premises, _) => negb (bool_decide (dest ∈ premises))
            end = true) as ->; [|reflexivity].
    unfold entry_of in Hd. destruct (m !! src) as [[[ts ps] tps]|]; [|done].
    simpl in *. by rewrite bool_decide_eq_false_2.
  - intros i. rewrite !lookup_insert_is_Some'. naive_solver.
  - intros i. unfold entry_of.
    destruct (decide (i = dest)) as [->|Hne].
    + rewrite lookup_insert_eq. destruct (decide (dest = src)) as [->|Hns].
      * rewrite lookup_insert_eq. destruct (m !! src) as [[[ts ps] tps]|]; simpl;
          split_and!; set_solver.
      * rewrite lookup_insert_ne by done. destruct (m !! dest) as [[[ts ps] tps]|]; simpl;
          split_and!; set_solver.
    + rewrite lookup_insert_ne by done. destruct (decide (i = src)) as [->|Hns].
      * rewrite lookup_insert_eq. destruct (m !! src) as [[[ts ps] tps]|]; simpl;
          split_and!; set_solver.
      * rewrite lookup_insert_ne by done. split_and!; set_solver.
Qed.

Lemma add_entry_new m (l : line) :
  l.1.1.2 ∉ (entry_of m l.1.1.1).1.2 → ∃ m', add_entry m l = Ok m'.
Proof.
  destruct l as [[[src dest] prog] nonprog]. intros Hd.
  destruct (add_entry_run m src dest prog nonprog Hd) as (m' & Hm' & _). by exists m'.
Qed.

Lemma add_entry_dup m (l : line) :
  l.1.1.2 ∈ (entry_of m l.1.1.1).1.2 → add_entry m l = Err EAssert.
Proof.
  destruct l as [[[src dest] prog] nonprog]. simpl. unfold entry_of, assert_res. intros Hd.
  destruct (m !! src) as [[[ts ps] tps]|]; simpl in *; [|by apply elem_of_nil in Hd].
  by rewrite bool_decide_eq_true_2.
Qed.

Lemma entries_premises lines m i j :
  entries_ok lines m → j ∈ (entry_of m i).1.2 ↔ ∃ l, l ∈ lines ∧ l.1.1.1 = i ∧ l.1.1.2 = j.
Proof.
  intros E. rewrite <-(entry_edges_premises _ (eo_len _ _ E i)), list_elem_of_fmap.
  setoid_rewrite (eo_edges _ _ E). split.
  - intros (e & -> & l & Hl & Hi & ->). by exists l.
  - intros (l & Hl & Hi & <-). exists (l.1.1.2, l.2 ∪ l.1.2, l.1.2). split; [done|].
    by exists l.
Qed.

Lemma entries_empty : entries_ok [] ∅.
Proof.
  assert (∀ i, entry_of ∅ i = (∅, [], [])) as H by done.
  split; intros; rewrite ?H; simpl; try set_solver.
  - rewrite lookup_empty. split; [intros []%is_Some_None|set_solver].
  - apply NoDup_nil_2.
Qed.

Lemma entries_step lines m l m' :
  entries_ok lines m → l.1.1.2 ∉ (entry_of m l.1.1.1).1.2 → add_entry m l = Ok m' →
  entries_ok (lines ++ [l]) m'.
Proof.
  destruct l as [[[src dest] prog] nonprog]. simpl. intros E Hd Hrun.
  destruct (add_entry_run m src dest prog nonprog Hd) as (m2 & Hrun2 & Hdom & Hent).
  assert (Ok m2 = Ok m') as [= ->] by (rewrite <-Hrun2; exact Hrun). split.
  - intros i. rewrite Hdom, (eo_dom _ _ E). setoid_rewrite elem_of_app.
    setoid_rewrite list_elem_of_singleton. split.
    + intros [->|[->|(l & Hl & Hi)]]; [eexists; split; [by right|by left]|
        eexists; split; [by right|by right]|exists l; auto].
    + intros (l & [Hl| ->] & Hi); [right; right; by exists l|simpl in Hi; tauto].
  - intros i. destruct (Hent i) as (-> & -> & _). rewrite !length_app, (eo_len _ _ E). by case_decide.
  - intros i. destruct (Hent i) as (-> & _). case_decide as Hi; [|apply (eo_nodup _ _ E)].
    subst i. apply NoDup_cons. split; [done|apply (eo_nodup _ _ E)].
  - intros i e. unfold entry_edges. destruct (Hent i) as (-> & -> & _).
    setoid_rewrite elem_of_app. setoid_rewrite list_elem_of_singleton.
    trans ((i = src ∧ e = (dest, nonprog ∪ prog, prog)) ∨ e ∈ entry_edges (entry_of m i)).
    + case_decide as Hi; simpl; [rewrite elem_of_cons|]; unfold entry_edges; naive_solver.
    + rewrite (eo_edges _ _ E). unfold line_edge. naive_solver.
  - intros l t u [Hl|Hl]%elem_of_app Htu; destruct (Hent l.1.1.1) as (_ & _ & ->).
    + apply elem_of_union_r, elem_of_union_r. by eapply (eo_ltags _ _ E).
    + apply list_elem_of_singleton in Hl as ->. simpl in *. rewrite (decide_True (P := src = src)) by done.
      apply elem_of_union_r, elem_of_union_l. unfold projectl. apply elem_of_map. by exists (t, u).
  - intros l t u [Hl|Hl]%elem_of_app Htu; destruct (Hent l.1.1.2) as (_ & _ & ->).
    + apply elem_of_union_r, elem_of_union_r. by eapply (eo_rtags _ _ E).
    + apply list_elem_of_singleton in Hl as ->. simpl in *. rewrite (decide_True (P := dest = dest)) by done.
      apply elem_of_union_l. unfold projectr. apply elem_of_map. by exists (t, u).
Qed.

(** Source and target of a line. *)
Definition ends (l : line) : Z * Z := (l.1.1.1, l.1.1.2).

Lemma add_entries_spec pre todo m :
  entries_ok pre m → NoDup (ends <$> pre) →
  if decide (NoDup (ends <$> pre ++ todo)) then
    ∃ m', add_entries m todo = Ok m' ∧ entries_ok (pre ++ todo) m'
  else add_entries m todo = Err EAssert.
Proof.
  revert pre m. induction todo as [|l todo IH]; intros pre m E Hnd; simpl.
  - rewrite app_nil_r, decide_True by done. by exists m.
  - assert (l.1.1.2 ∈ (entry_of m l.1.1.1).1.2 ↔ ends l ∈ ends <$> pre) as Hin.
    { rewrite (entries_premises pre m _ _ E), list_elem_of_fmap. unfold ends. split.
      - intros (l' & Hl' & H1 & H2). exists l'. by rewrite H1, H2.
      - intros (l' & [= H1 H2] & Hl'). by exists l'. }
    destruct (decide (ends l ∈ ends <$> pre)) as [Hl|Hl].
    + rewrite add_entry_dup by by apply Hin.
      rewrite decide_False; [done|]. rewrite fmap_app, NoDup_app. intros (_ & Hdis & _).
      apply (Hdis _ Hl). left.
    + rewrite <-Hin in Hl. destruct (add_entry_new m l Hl) as [m' Hm'].
      rewrite Hm'. unfold mbind, res_bind.
      specialize (IH (pre ++ [l]) m' (entries_step pre m l m' E Hl Hm')).
      rewrite <-(assoc_L (++)) in IH. simpl in IH.
      apply IH. rewrite Hin in Hl. rewrite fmap_app. apply NoDup_app. split; [done|].
      split; [|apply NoDup_singleton]. by intros x Hx ->%list_elem_of_singleton.
Qed.

(** ** The abstract proof *)

Lemma abstract_spec m :
  (∀ i, length (entry_of m i).1.2 = length (entry_of m i).2) →
  ∃ p, abstract m = Ok p ∧
    ∀ i, p !! i = (λ x : entry, (x.1.1, entry_edges x)) <$> m !! i.
Proof.
  intros Hlen. unfold abstract.
  rewrite (map_res_ok _ (λ i, (i, ((entry_of m i).1.1, entry_edges (entry_of m i))))).
  - eexists. split; [done|]. intros i. apply option_eq. intros a.
    rewrite <-elem_of_list_to_map.
    + rewrite list_elem_of_fmap. split.
      * intros (j & [= -> ->] & [x Hx]%elem_of_ints%elem_of_dom).
        by rewrite (entry_of_some m j x Hx), Hx.
      * intros (x & Hx & ->)%fmap_Some. exists i. rewrite (entry_of_some m i x Hx). split; [done|].
        apply elem_of_ints, elem_of_dom. by eexists.
    + rewrite <-list_fmap_compose. simpl. rewrite list_fmap_id. apply NoDup_ints.
  - intros i [x Hx]%elem_of_ints%elem_of_dom. specialize (Hlen i).
    rewrite (entry_of_some m i x Hx) in *. cbv beta. unfold entry in *. rewrite Hx.
    destruct x as [[ts ps] tps]. simpl in *. unfold mk_abs_node. by rewrite map2_zip_with.
Qed.

(** The node of [i] lists the lines from [i]; two lines with the same ends are
    refused. *)
Lemma mk_prf_spec lines :
  if decide (NoDup (ends <$> lines)) then
    ∃ p, mk_prf lines = Ok (p, match lines with [] => 0%Z | l :: _ => l.1.1.1 end) ∧
      distinct p ∧
      (∀ i e, has_edge p i e ↔ ∃ l, l ∈ lines ∧ line_edge l i e) ∧
      ∀ l, l ∈ lines → valid p l.1.1.1 = true
  else mk_prf lines = Err EAssert.
Proof.
  pose proof (add_entries_spec [] lines ∅ entries_empty (NoDup_nil_2)) as H. simpl in H.
  unfold mk_prf. case_decide; [|by rewrite H].
  destruct H as (m & Hm & E). destruct (abstract_spec m (eo_len _ _ E)) as (p & Hp & Hl).
  exists p. split; [|split; [|split]].
  - rewrite Hm. unfold mbind, res_bind. rewrite Hp. by destruct lines as [|[[[]]]].
  - intros i a. rewrite Hl. intros (x & Hx & ->)%fmap_Some. unfold get_subg. simpl.
    pose proof (eo_len _ _ E i) as Hlen. pose proof (eo_nodup _ _ E i) as Hnd.
    rewrite (entry_of_some m i x Hx) in *. by rewrite entry_edges_premises.
  - intros i e. rewrite <-(eo_edges _ _ E). unfold has_edge. rewrite Hl. split.
    + intros (n & (x & Hx & ->)%fmap_Some & He). by rewrite (entry_of_some m i x Hx).
    + unfold entry_of. destruct (m !! i) as [x|]; [|by intros ?%elem_of_nil].
      intros He. by eexists.
  - intros l Hin. apply valid_intro.
    + apply elem_of_dom. rewrite Hl. apply fmap_is_Some, (eo_dom _ _ E). exists l. auto.
    + intros i a e. rewrite Hl. intros (x & Hx & ->)%fmap_Some He. unfold get_subg in He. simpl in He.
      assert (e ∈ entry_edges (entry_of m i)) as He' by by rewrite (entry_of_some m i x Hx).
      apply (eo_edges _ _ E) in He' as (l' & Hl' & <- & ->). unfold premise, get_tags. simpl.
      assert (is_Some (m !! l'.1.1.2)) as [y Hy].
      { apply (eo_dom _ _ E). exists l'. auto. }
      exists (y.1.1, entry_edges y). rewrite Hl, Hy. split; [done|]. split; [set_solver|].
      intros t u Htu. pose proof (eo_ltags _ _ E l' t u Hl' Htu) as H1.
      pose proof (eo_rtags _ _ E l' t u Hl' Htu) as H2.
      rewrite (entry_of_some m _ x Hx) in H1. by rewrite (entry_of_some m _ y Hy) in H2.
Qed.
End CheckProof.
