(* ===== verification/AnyRoot.v ===== *)
(** * Checking a proof from any root

    [remove_dead_nodes] spares node 0 and not the root.  With another root the
    root itself can be removed, which happens only when no infinite path starts
    there; then [check_proof] answers [true] when nothing is left and fails its
    second assertion otherwise.  In all other cases the verdict is right, for a
    checker that has been used with this root only. *)

From S2P Require Import Prelude Spot ProofGraph Gtc GtcReduce ProofAut.
From S2P Require Import Trace Soundness SoundnessSpec Soundcheck Minimize MinimizeProofs.

(** The root was removed. *)
Record root_lost (init : Z) (q : aproof) : Prop := {
  rl_init : init ∉ dom q;
  rl_distinct : distinct q;
}.

Definition no_path (p : aproof) (init : Z) : Prop := ∀ π, ¬ is_path (aproof_graph p init) π.

Lemma leaf_no_path p init n : p !! init = Some n → get_subg n = [] → no_path p init.
Proof.
  intros Hn Hl π [H0 HS]. specialize (HS 0). rewrite H0 in HS.
  destruct HS as (n' & e & Hn' & He & _). simpl in Hn'. simplify_eq. rewrite Hl in He.
  by apply elem_of_nil in He.
Qed.

Lemma no_path_gtc p init : no_path p init → gtc (aproof_graph p init).
Proof. intros H π Hπ. by destruct (H π). Qed.

Lemma remove_dead_lost init p idx :
  root_lost init p → root_lost init (remove_dead_node idx p).
Proof.
  intros [Hi Hd]. split; [rewrite remove_dead_dom; set_solver|by apply remove_dead_distinct].
Qed.

Lemma remove_dead_loop_lost fuel init : ∀ p,
  size p ≤ fuel → root_lost init p →
  ∃ q, remove_dead_loop fuel p = Ok q ∧ root_lost init q.
Proof.
  induction fuel as [|fuel IH]; intros p Hsz Hl; cbn [remove_dead_loop];
    pose proof (find_map_spec is_dead p) as Hf; specialize (Hf ltac:(by eexists));
    destruct (find_map is_dead p) as [[[idx n]|]|]; try done; [|by exists p| |by exists p].
  - destruct Hf as [Hn _]. apply Nat.le_0_r, map_size_empty_inv in Hsz. simplify_map_eq.
  - destruct Hf as [Hn _]. apply IH; [|by apply remove_dead_lost].
    pose proof (size_drop p _ idx n Hn (remove_dead_dom idx p)). lia.
Qed.

Lemma remove_dead_loop_any fuel init : ∀ p,
  size p ≤ fuel → distinct p → valid p init = true →
  ∃ q, remove_dead_loop fuel p = Ok q ∧
    (keeps init p q ∨ (init ≠ 0%Z ∧ no_path p init ∧ root_lost init q)).
Proof.
  induction fuel as [|fuel IH]; intros p Hsz Hd Hv; cbn [remove_dead_loop];
    pose proof (find_map_spec is_dead p) as Hf; specialize (Hf ltac:(by eexists));
    unfold is_dead in Hf at 2 3; destruct (find_map is_dead p) as [[[idx n]|]|]; try done.
  - destruct Hf as [Hn _]. apply Nat.le_0_r, map_size_empty_inv in Hsz. simplify_map_eq.
  - exists p. split; [done|left; by apply keeps_refl].
  - destruct Hf as [Hn [= [Hne Hl]%andb_true_iff]]. apply bool_decide_eq_true in Hne, Hl.
    pose proof (size_drop p _ idx n Hn (remove_dead_dom idx p)).
    destruct (decide (init = idx)) as [->|Hni].
    + destruct (remove_dead_loop_lost fuel idx (remove_dead_node idx p)) as (q & Hq & Hlost); [lia| |].
      { split; [rewrite remove_dead_dom; set_solver|by apply remove_dead_distinct]. }
      exists q. split; [done|]. right. split; [done|]. split; [by eapply leaf_no_path|done].
    + assert (keeps init p (remove_dead_node idx p)) as K by by eapply remove_dead_keeps.
      destruct (IH (remove_dead_node idx p)) as (q & Hq & [K'|(H0 & Hnp & Hlost)]);
        [lia|apply K|apply K|exists q; split; [done|]..].
      * left. by eapply keeps_trans.
      * right. split; [done|]. split; [|done]. intros π Hπ. apply (Hnp π).
        by apply (pruned_path _ _ _ π (remove_dead_pruned idx n p init Hd Hn Hl)).
  - exists p. split; [done|left; by apply keeps_refl].
Qed.

Lemma fuse_loop_lost fuel init : ∀ p,
  size p ≤ fuel → root_lost init p → ∃ q, fuse_loop fuel p init = Ok q ∧ root_lost init q.
Proof.
  induction fuel as [|fuel IH]; intros p Hsz Hl; cbn [fuse_loop];
    pose proof (find_map_spec (fusable p init) p) as Hf;
    specialize (Hf (λ i n _, fusable_total p init i n));
    destruct (find_map (fusable p init) p) as [[[idx n]|]|]; try done; [|by exists p| |by exists p].
  - destruct Hf as [Hn _]. apply Nat.le_0_r, map_size_empty_inv in Hsz. simplify_map_eq.
  - destruct Hf as [Hn (Hi & c & tv & tp & Hone & Hc & Hpar)%fusable_true].
    rewrite (fuse_node_eq idx c tv tp n p Hone).
    change (delete idx (fuse_one idx c tv tp <$> p)) with (fuse_result idx c tv tp p).
    pose proof (fuse_dom idx c tv tp p) as Hdom. destruct Hl as [Hin Hd].
    apply IH.
    + pose proof (size_drop p _ idx n Hn Hdom). lia.
    + split; [rewrite Hdom; set_solver|by apply fuse_distinct].
Qed.

Lemma minimize_any p init :
  distinct p → valid p init = true →
  ∃ q, minimize_abs_proof p init = Ok q ∧
    (keeps init p q ∨ (init ≠ 0%Z ∧ no_path p init ∧ root_lost init q)).
Proof.
  intros Hd Hv. unfold minimize_abs_proof, remove_dead_nodes.
  destruct (remove_dead_loop_any (size p) init p) as (q & -> & [K|(H0 & Hnp & Hl)]); [done..| |].
  - destruct (fuse_loop_spec (size q) init q) as (r & Hr & K' & _); [done|apply K|apply K|].
    exists r. split; [done|]. left. by eapply keeps_trans.
  - destruct (fuse_loop_lost (size q) init q) as (r & Hr & Hl'); [done..|].
    exists r. split; [done|]. by right.
Qed.

Section any_root.
Context {B : Bdd} {D : BddDict} {HO : HashOrder} {G : SpotAlgos B} {F : FloatLog} {T : TreeEq}.
Context {BL : BddLaws B} {DL : BddDictLaws D} {HL : HashOrderLaws HO}
  {GL : SpotAlgosLaws B G} {FL : FloatLogLaws F} {TL : TreeEqLaws T}.

(** No automaton is open, and the cached verdicts are those from [init]. *)
Record checker_ok_at (init : Z) (c : checker) : Prop := {
  cka_globals : globals c = globals_init;
  cka_cache p r : (p, r) ∈ ccache c → r = true ↔ gtc (aproof_graph p init);
}.

Lemma checker_ok_at_0 c : checker_ok c ↔ checker_ok_at 0 c.
Proof. split; intros []; by split. Qed.

(** The second validation of [check_proof], when the root was removed. *)
Lemma check_proof_lost init p q c :
  valid p init = true → minimize_abs_proof p init = Ok q → init ∉ dom q →
  check_proof init p c = if decide (q = ∅) then Ok (true, c) else Err EAssert.
Proof.
  intros Hv Hq Hi. unfold check_proof, assert, lift.
  rewrite decide_False by by eapply valid_nonempty.
  rewrite Hv, Hq. unfold mbind, M_bind, mret, M_ret. case_decide; [done|].
  assert (valid q init = false) as ->; [|done].
  apply not_true_iff_false. by intros ?%valid_init.
Qed.

Lemma check_proof_any_spec init p c :
  checker_ok_at init c → distinct p → valid p init = true → fits p →
  (Z.of_nat (size p) ≤ 2 ^ 28)%Z →
  (∃ b c', check_proof init p c = Ok (b, c') ∧ checker_ok_at init c' ∧
     (b = true ↔ gtc (aproof_graph p init))) ∨
  (check_proof init p c = Err EAssert ∧ init ≠ 0%Z ∧ no_path p init).
Proof.
  intros [Hg Hc] Hd Hv Hf Hs. destruct (minimize_any p init Hd Hv) as (q & Hq & [K|(H0 & Hnp & Hl)]).
  - left. rewrite (check_proof_run init p q c Hv Hq (kp_valid _ _ _ K)), Hg.
    destruct (cache_find q (ccache c)) as [r|] eqn:E.
    + exists r, c. split; [done|]. split; [done|]. rewrite (kp_gtc _ _ _ K).
      by apply Hc, cache_find_some.
    + destruct (check_session_spec q init) as (b & Hb & Hgtc).
      { apply K. } { by eapply keeps_fits. } { pose proof (keeps_size _ _ _ K). lia. }
      rewrite Hb. eexists b, _. split; [done|]. split; [|by rewrite (kp_gtc _ _ _ K)].
      split; [done|]. intros p' r' [[= -> ->]|Hin]%elem_of_cons; [done|]. by apply Hc.
  - rewrite (check_proof_lost init p q c Hv Hq (rl_init _ _ Hl)). case_decide.
    + left. exists true, c. split; [done|]. split; [done|]. split; [|done]. intros _.
      by apply no_path_gtc.
    + by right.
Qed.
End any_root.
