(* ===== verification/Parity.v ===== *)
(** * The checker behind the prover, and a small logic

    [Soundcheck.check_proof] as the checker that [Proof.check] calls, and a logic
    with one axiom, one inference with descent and back-links, in which the
    theorems on the prover are instantiated. *)

From S2P Require Import Prelude Exn Spot ProofGraph Gtc GtcReduce ProofAut.
From S2P Require Import Trace Soundness SoundnessSpec Soundcheck Minimize MinimizeProofs AnyRoot.
From S2P Require Import ProofNode CyclicProof ProofInvariant ProofQueries ProofSound ProofCopy ProofCompose.
From S2P Require Import Descent ProofRule RuleContract Prover CheckProof.

(** ** The checker behind the prover *)

Section checker.
Context {B : Bdd} {D : BddDict} {HO : HashOrder} {G : SpotAlgos B} {F : FloatLog} {T : TreeEq}.

(** [Soundcheck.check_proof] with its default root. *)
#[export] Instance soundcheck : GtcChecker checker := {|
  check_proof p c :=
    match Minimize.check_proof 0 p c with
    | Ok (b, c') => (Ok b, c')
    | Err e => (Err e, c)
    end;
|}.

#[export] Instance soundcheck_laws {BL : BddLaws B} {DL : BddDictLaws D} {HL : HashOrderLaws HO}
    {GL : SpotAlgosLaws B G} {FL : FloatLogLaws F} {TL : TreeEqLaws T} :
  GtcCheckerLaws soundcheck checker_ok.
Proof.
  split. intros p c Hc Hd Hv Hf Hs. destruct (check_proof_spec p c Hc Hd Hv Hf Hs) as (b & c' & E & H).
  exists b, c'. simpl. by rewrite E.
Qed.
End checker.

(** ** A small logic *)

(** [Nat]: every number is even or odd, under one of two tags; [Zero]: 0 is even. *)
Inductive claim := Nat_ (tagged : bool) | Zero.

Definition tag_of (b : bool) : Z := if b then 2 else 1.

#[export] Instance claim_dec : EqDecision claim.
Proof. solve_decision. Defined.

#[export] Instance parity : Sequent := {|
  sequent := claim;
  seq_equal s s' := bool_decide (s = s');
  equal_upto_tags s s' := match s, s' with Nat_ _, Nat_ _ => true | Zero, Zero => true | _, _ => false end;
  tags s := match s with Nat_ b => {[tag_of b]} | Zero => ∅ end;
|}.

#[export] Instance parity_laws : SequentLaws parity.
Proof. split. intros s. by apply bool_decide_eq_true. Qed.

#[export] Instance parity_tags : TagRange parity.
Proof.
  split. intros [b|] t; simpl; [|set_solver]. intros ->%elem_of_singleton.
  destruct b; unfold int_range, INT_MIN, INT_MAX, tag_of; lia.
Qed.

Definition link (b b' : bool) : tagpairs := {[(tag_of b, tag_of b')]}.

(** By case distinction and descent, or by a back-link. *)
Definition parity_step (b b' : bool) : list subgoal :=
  [((Zero : sequent), ∅, ∅); ((Nat_ b' : sequent), link b b', link b b')].

#[export] Instance parity_rules : Calculus := {|
  ax_ok s := s = (Zero : sequent);
  inf_ok s sgs := ∃ b b', s = (Nat_ b : sequent) ∧ sgs = parity_step b b';
  back_ok s s' v := ∃ b b', s = (Nat_ b : sequent) ∧ s' = (Nat_ b' : sequent) ∧ v = link b b';
|}.

#[export] Instance parity_rules_laws : CalculusLaws parity_rules.
Proof.
  assert (∀ b b' t u, (t, u) ∈ link b b' → t = tag_of b ∧ u = tag_of b') as Hl.
  { unfold link. set_solver. }
  split.
  - intros s sgs (b & b' & -> & ->). apply Forall_cons_2; [split; set_solver|].
    apply Forall_singleton. split; [done|]. simpl. intros t u [-> ->]%Hl. set_solver.
  - intros s s' v (b & b' & -> & -> & ->). split; [set_solver|]. simpl.
    intros t u [-> ->]%Hl. set_solver.
  - by intros s s' v (b & b' & -> & -> & ->).
Qed.

#[export] Instance parity_models : Semantics parity := {|
  model := nat;
  falsifies n s := match s with Nat_ _ => ¬ (Nat.Even n ∨ Nat.Odd n) | Zero => ¬ Nat.Even 0 end;
  rank := nat;
  rank_lt := lt;
  rank_le := le;
  value n _ := n;
|}.

#[export] Instance parity_models_laws : SemanticsLaws parity_models.
Proof. split; [apply lt_wf|apply _|simpl; lia]. Qed.

#[export] Instance parity_sound : LocallySound parity_rules parity_models.
Proof.
  split.
  - intros s n ->. simpl. intros H. apply H. by exists 0.
  - intros s sgs n (b & b' & -> & ->). simpl. intros Hn. destruct n as [|n].
    { destruct Hn. left. by exists 0. }
    exists ((Nat_ b' : @sequent parity), link b b', link b b'), n. split; [set_solver|]. split.
    + simpl. intros [[k Hk]|[k Hk]]; apply Hn; [right; exists k|left; exists (S k)]; lia.
    + split; simpl; intros; lia.
  - intros s s' v n (b & b' & -> & -> & ->) Hn. exists n. split; [done|]. split; simpl; [lia|set_solver].
Qed.

Definition parity_ax : Rule.axiom_f := λ s : claim, if decide (s = Zero) then Some "Zero" else None.
Definition parity_inf : Rule.infrule_f := λ s : claim,
  match s with Nat_ b => [(parity_step b b, "Step")] | Zero => [] end.
Definition parity_back : Rule.backrule_f := λ s s' : claim,
  match s, s' with Nat_ b, Nat_ b' => [(link b b', "Back")] | _, _ => [] end.

Lemma parity_ax_ok s d : parity_ax s = Some d → ax_ok s.
Proof. unfold parity_ax. by case_decide. Qed.

Lemma parity_inf_ok s sgs d : (sgs, d) ∈ parity_inf s → inf_ok s sgs ∧ length sgs ≤ 2.
Proof.
  destruct s as [b|]; simpl; [|by intros ?%elem_of_nil].
  intros [= -> ->]%list_elem_of_singleton. split; [by exists b, b|simpl; lia].
Qed.

Lemma parity_back_ok s s' v d : (v, d) ∈ parity_back s s' → back_ok s s' v.
Proof.
  destruct s as [b|], s' as [b'|]; simpl; try by intros ?%elem_of_nil.
  intros [= -> ->]%list_elem_of_singleton. by exists b, b'.
Qed.

(** ** Proofs in it *)

(** The open proof of one node. *)
Definition start (b : bool) : Prf.t := Prf.mk (Nat_ b).

Lemma start_open b : Wf.open_at (start b) 0.
Proof. by exists 0%Z, (Nat_ b : @sequent parity), "(Open)". Qed.

Lemma start_good b : good (start b).
Proof. apply mk_good. Qed.

Definition or_start (r : res Prf.t) : Prf.t := match r with Ok p => p | Err _ => start true end.

(** The inference at the root, with the first premise closed by the axiom and
    the other one tagged by [b]. *)
Definition expanded (b : bool) : Prf.t :=
  match Prf.add_inf 0 "Step" (parity_step false b) (start false) with
  | Ok (_, p) => p
  | Err _ => start b
  end.
Definition stepped (b : bool) : Prf.t := or_start (Prf.add_axiom 1 "Zero" (expanded b)).

(** The closed proof: the second premise is a back-link to the root. *)
Definition looped (b : bool) : Prf.t :=
  or_start (Prf.add_backlink 2 "Back" 0 (link b false) (stepped b)).

Lemma expanded_ok b : Prf.add_inf 0 "Step" (parity_step false b) (start false) =
  Ok ([1; 2]%Z, expanded b).
Proof. destruct b; by vm_compute. Qed.

Lemma stepped_ok b : Prf.add_axiom 1 "Zero" (expanded b) = Ok (stepped b).
Proof. destruct b; by vm_compute. Qed.

Lemma looped_ok b : Prf.add_backlink 2 "Back" 0 (link b false) (stepped b) = Ok (looped b).
Proof. destruct b; by vm_compute. Qed.

Lemma looped_steps b : rtc Wf.step (start false) (looped b).
Proof.
  eapply rtc_l; [eapply Wf.step_inf, (expanded_ok b)|].
  eapply rtc_l; [eapply Wf.step_axiom, stepped_ok|].
  apply rtc_once. eapply Wf.step_backlink, looped_ok.
Qed.

Lemma stepped_good b : good (stepped b).
Proof.
  eapply (add_axiom_good (expanded b) 1 0 Zero "(Open)" "Zero"); [|by destruct b|done|apply stepped_ok].
  eapply (add_inf_good (start false) 0 0 (Nat_ false) "(Open)"); [apply start_good|done| |apply expanded_ok].
  by exists false, b.
Qed.

Lemma stepped_open b : stepped b !! 2%Z = Some (0%Z, Node.OpenNode (Nat_ b : @sequent parity) "(Open)").
Proof. destruct b; by vm_compute. Qed.

(** The abstraction of the closed proof. *)
Definition looped_abs (b : bool) : aproof :=
  {[ 0%Z := ({[1%Z]}, [(1%Z, ∅, ∅); (2%Z, link false b, link false b)]);
     1%Z := (∅, []);
     2%Z := ({[tag_of b]}, [(0%Z, link b false, ∅)]) ]}.

Lemma abs_looped b : abs (looped b) = looped_abs b.
Proof. destruct b; by vm_compute. Qed.

Lemma looped_edges b i j : tg_succ (aproof_graph (looped_abs b) 0) i j →
  ((i = 0 ∧ (j = 1 ∨ j = 2)) ∨ (i = 2 ∧ j = 0))%Z.
Proof.
  intros (a & e & Ha & He & <-). unfold looped_abs in Ha.
  apply lookup_insert_Some in Ha as [[<- <-]|[_ Ha]].
  { left. split; [done|]. by apply elem_of_cons in He as [->| ->%list_elem_of_singleton]; [left|right]. }
  apply lookup_insert_Some in Ha as [[<- <-]|[_ Ha]]; [by apply elem_of_nil in He|].
  apply lookup_singleton_Some in Ha as [<- <-]. right. by apply list_elem_of_singleton in He as ->.
Qed.

Lemma looped_sound b : gtc (aproof_graph (looped_abs b) 0).
Proof.
  intros π [H0 HS]. simpl in H0.
  assert (∀ n, π n = 0 ∨ π n = 2)%Z as Hπ.
  { induction n as [|n IH]; [by left|]. destruct (looped_edges _ _ _ (HS n)) as [[_ [H|H]]|[_ H]]; auto.
    destruct (looped_edges _ _ _ (HS (S n))) as [[H' _]|[H' _]]; congruence. }
  assert (∀ n, π n = 0 ∧ π (S n) = 2 ∨ π n = 2 ∧ π (S n) = 0)%Z as Hstep.
  { intros n. destruct (looped_edges _ _ _ (HS n)) as [[H [H'|H']]|[H H']]; auto.
    destruct (Hπ (S n)); congruence. }
  exists 0, (λ n, if decide (π n = 0%Z) then 1%Z else tag_of b). split.
  - intros n _. destruct (Hstep n) as [[-> ->]|[-> ->]]; simpl.
    + eexists _, _. split; [apply lookup_insert_eq|]. split; [right; left|]. split; [done|].
      by apply elem_of_singleton.
    + exists ({[tag_of b]}, [(0%Z, link b false, ∅)]), (0%Z, link b false, ∅).
      split; [done|]. split; [left|]. split; [done|]. by apply elem_of_singleton.
  - intros n. assert (∃ k, n ≤ k ∧ π k = 0%Z) as (k & Hk & Hk0).
    { destruct (Hstep n) as [[H _]|[_ H]]; [by exists n|exists (S n); split; [lia|done]]. }
    exists k. split; [done|]. destruct (Hstep k) as [[-> ->]|[H _]]; [|congruence]. simpl.
    eexists _, _. split; [apply lookup_insert_eq|]. split; [right; left|]. split; [done|].
    by apply elem_of_singleton.
Qed.

Lemma looped_good b : good (looped b).
Proof.
  eapply (add_backlink_good (stepped b) 2 0 (Nat_ b) "(Open)" "Back" 0 (Nat_ false) (link b false));
    [apply stepped_good|apply stepped_open|by destruct b|by exists b, false|apply looped_ok|].
  unfold sound. rewrite abs_looped. apply looped_sound.
Qed.

Lemma looped_closed b : Prf.is_closed (looped b) = true.
Proof. by destruct b. Qed.
