(* ===== verification/ProverTheorems.v ===== *)
(** * The properties of the prover

    Proofs, rules, search and the command-line checker, on top of the soundness
    checker of [Minimize], for every logic with the laws of [Calculus] and every
    implementation of the libraries below the checker, with the instances of the
    theorems in the logic of [Parity]. *)

From S2P Require Import Prelude Exn Spot ProofGraph Gtc GtcReduce ProofAut.
From S2P Require Import Trace Soundness SoundnessSpec Soundcheck Minimize MinimizeProofs AnyRoot.
From S2P Require Import ProofNode CyclicProof ProofInvariant ProofQueries ProofSound ProofCopy ProofCompose.
From S2P Require Import Descent ProofRule RuleContract Prover CheckProof Parity.

Section theorems.
Context {B : Bdd} {D : BddDict} {HO : HashOrder} {G : SpotAlgos B} {F : FloatLog} {T : TreeEq}.
Context {BL : BddLaws B} {DL : BddDictLaws D} {HL : HashOrderLaws HO}
  {GL : SpotAlgosLaws B G} {FL : FloatLogLaws F} {TL : TreeEqLaws T}.
Context {Q : Sequent} {K : Calculus} {QL : SequentLaws Q} {KL : CalculusLaws K} {TR : TagRange Q}.

(** ** Search *)

(** C11: the iterated depth-first search of the prover returns for all bounds
    whose searches fit the checker, whatever rules it is given that keep their
    contract; a proof it returns is closed, has the sequent at its root, consists
    of instances of the rules and meets the global trace condition, and when the
    rules are locally sound the sequent is valid. *)
Theorem idfs_sound {M : Semantics Q} {ML : SemanticsLaws M} {LS : LocallySound K M}
    (ax r : Rule.t) (ga na g m : nat) (bound maxbound : Z) (seq : sequent)
    (s : Prover.search checker) :
  rule_ok (inv := checker_ok) ga na ax → rule_ok (inv := checker_ok) g m r →
  (Z.of_nat (1 + growth ga g m (Z.to_nat (maxbound + 1))) ≤ max_nodes)%Z →
  checker_ok (Prover.checker_state s) →
  ∃ o s', Prover.idfs bound maxbound ax r seq s = (Ok o, s') ∧
    checker_ok (Prover.checker_state s') ∧
    ∀ q, o = Some q → Prf.is_closed q = true ∧ Wf.seq_of q 0%Z = Some seq ∧ good q ∧ is_valid seq.
Proof.
  intros Hax Hr Hg Hs.
  destruct (idfs_loop_ok ax r ga na g m Hax Hr (Z.to_nat (maxbound - bound + 1)) bound maxbound seq s)
    as (o & s' & E & Hs' & Ho); [lia|done|done|].
  exists o, s'. split; [done|]. split; [done|]. intros q Hq. destruct (Ho q Hq) as [(Gq & Cq & Rq) _].
  split; [done|]. split; [done|]. split; [done|]. exact (root_valid q Gq Cq seq Rq).
Qed.

(** C12: the depth grows by one from [bound]: when a proof is returned,
    [last_search_depth] is its depth, within the bounds, and every smaller depth
    has failed; when none is, all depths up to [maxbound] have failed. *)
Theorem idfs_deepens (ax r : Rule.t) (ga na g m : nat) (bound maxbound : Z) (seq : sequent)
    (s : Prover.search checker) :
  rule_ok (inv := checker_ok) ga na ax → rule_ok (inv := checker_ok) g m r →
  (Z.of_nat (1 + growth ga g m (Z.to_nat (maxbound + 1))) ≤ max_nodes)%Z →
  checker_ok (Prover.checker_state s) →
  ∃ o s', Prover.idfs bound maxbound ax r seq s = (Ok o, s') ∧
    let d := match o with Some _ => Prover.last_search_depth s' | None => (maxbound + 1)%Z end in
    (∀ i, (bound ≤ i < d)%Z → search_ends (inv := checker_ok) ax r seq i None) ∧
    match o with
    | Some q => (bound ≤ d ≤ maxbound)%Z ∧ search_ends (inv := checker_ok) ax r seq d (Some q)
    | None => Prover.last_search_depth s' = Prover.last_search_depth s
    end.
Proof.
  intros Hax Hr Hg Hs. apply (idfs_loop_deepens ax r ga na g m Hax Hr); [lia|done|done].
Qed.

(** ** Rules *)

(** C13: [mk_backrule] on an open node of a good proof: every application it
    returns is one of the back-links proposed by the selection and the rule and
    keeps the proof sound.  A rule that is not greedy returns all proposed
    back-links that are sound, a greedy one at most one, and one if there is
    any. *)
Theorem mk_backrule_correct (greedy : bool) (sel_f : Rule.select_f) (br_f : Rule.backrule_f)
    (idx : Z) (p : Prf.t) (c : checker) :
  select_ok sel_f → (∀ s s' v d, (v, d) ∈ br_f s s' → back_ok s s' v) →
  good p → Wf.open_at p idx → room p 0 → checker_ok c →
  ∃ apps c', Rule.mk_backrule greedy sel_f br_f idx p c = (Ok apps, c') ∧ checker_ok c' ∧
    (∀ a, a ∈ apps → proposed sel_f br_f p idx a ∧ sound a.2) ∧
    if greedy then length apps ≤ 1 ∧
      (apps = [] → ∀ a, proposed sel_f br_f p idx a → ¬ sound a.2)
    else ∀ a, proposed sel_f br_f p idx a → sound a.2 → a ∈ apps.
Proof. intros Hsel Hbr. by apply (mk_backrule_exact (inv := checker_ok) sel_f br_f Hsel Hbr). Qed.

(** C14: the contract of rules, to return only good continuations of the proof
    with the open nodes listed, holds for the rules made from the axioms and the
    inferences of the calculus and for all combinators of rules that have it. *)
Theorem rules_keep_contract (g n g' n' : nat) (r r' : Rule.t) (rs : list Rule.t)
    (cond : sequent → bool) (ax_f : Rule.axiom_f) (r_f : Rule.infrule_f) :
  rule_ok (inv := checker_ok) g n r → rule_ok (inv := checker_ok) g' n' r' →
  Forall (rule_ok (inv := checker_ok) g n) rs →
  (∀ s d, ax_f s = Some d → ax_ok s) →
  (∀ s sgs d, (sgs, d) ∈ r_f s → inf_ok s sgs ∧ length sgs ≤ n) →
  rule_ok (inv := checker_ok) 0 0 (Rule.mk_axiom ax_f) ∧
  rule_ok (inv := checker_ok) n n (Rule.mk_infrule r_f) ∧
  rule_ok (inv := checker_ok) (g + n * g') (n * n') (Rule.compose r r') ∧
  rule_ok (inv := checker_ok) (g' + n' * g) (n' * n) (Rule.compose_pairwise r' rs) ∧
  rule_ok (inv := checker_ok) g n (Rule.choice rs) ∧
  rule_ok (inv := checker_ok) g n (Rule.first rs) ∧
  rule_ok (inv := checker_ok) g (max n 1) (Rule.attempt r) ∧
  rule_ok (inv := checker_ok) (seq_bounds (replicate (length rs) (g, n))).1
    (seq_bounds (replicate (length rs) (g, n))).2 (Rule.sequence rs) ∧
  rule_ok (inv := checker_ok) g n (Rule.conditional cond r) ∧
  rule_ok (inv := checker_ok) (max g' (g + n * g')) (max n' (n * max n' 1))
    (Rule.combine_axioms r' r).
Proof.
  intros Hr Hr' Hrs Hax Hinf. split_and!.
  - by apply mk_axiom_ok.
  - by apply mk_infrule_ok.
  - by apply compose_ok.
  - by apply compose_pairwise_ok.
  - by apply choice_ok.
  - by apply first_ok.
  - by apply attempt_ok.
  - apply sequence_ok. clear -Hrs. induction Hrs; simpl; by constructor.
  - by apply conditional_ok.
  - by apply combine_axioms_ok.
Qed.

(** ** Proofs *)

(** C15: [Proof.check] on a proof with the invariant whose nodes are instances
    of the rules fails no assertion of the checker, and its verdict is the
    global trace condition. *)
Theorem proof_check_decides (p : Prf.t) (c : checker) :
  Wf.t p → justified p → (Z.of_nat (size p) ≤ max_nodes)%Z → checker_ok c →
  ∃ b c', Prf.check p c = (Ok b, c') ∧ checker_ok c' ∧ (b = true ↔ sound p).
Proof. apply check_spec. Qed.
End theorems.

Section proofs.
Context {Q : Sequent} {K : Calculus} {QL : SequentLaws Q} {KL : CalculusLaws K}.

(** C16: [add_subprf] on an open node with the sequent of the root of the proof
    to be copied returns; the result has a copy of that proof at the node, up to
    the renaming of indices, keeps all other nodes, is good when both proofs are,
    and when the proof copied is closed it has the open nodes of the outer proof
    but this one. *)
Theorem add_subprf_good (src p : Prf.t) (idx par : Z) (s : sequent) (d : string) :
  good src → good p → p !! idx = Some (par, Node.OpenNode s d) → Wf.seq_of src 0%Z = Some s →
  ∃ q m, Prf.add_subprf src idx p = Ok q ∧ embeds src p idx m (λ _, image m) q ∧ good q ∧
    (Prf.is_closed src = true → ∀ j, Wf.open_at q j ↔ Wf.open_at p j ∧ j ≠ idx).
Proof.
  intros Gs Gp Hp Hs.
  destruct (add_subprf_run src (good_wf src Gs) p idx par s d (good_wf p Gp) Hp Hs) as (q & m & Hq & E).
  exists q, m. split; [done|]. split; [done|]. split; [by apply (graft_good src p idx par s d m q)|]. by apply (graft_open src p idx par s d m q).
Qed.

(** C17: the invariants documented for proofs hold of every proof built from
    [mk] by the constructors: the root is at 0 and keeps its sequent, all
    successors exist, every node is below the root, a back-link has the sequent
    of its target up to tags.  A node without successors is open, an axiom, or,
    which the documentation leaves out, an inference without premises. *)
Theorem built_proofs_invariant (s : sequent) (p : Prf.t) :
  rtc Wf.step (Prf.mk s) p →
  (∃ n, p !! 0%Z = Some (0%Z, n)) ∧ Wf.seq_of p 0%Z = Some s ∧
  (∀ i j, Wf.succ p i j → is_Some (p !! j)) ∧
  (∀ i, is_Some (p !! i) → rtc (child p) 0%Z i) ∧
  (∀ i par s' d j v, p !! i = Some (par, Node.BackNode s' d j v) →
     ∃ s'', Wf.seq_of p j = Some s'' ∧ equal_upto_tags s' s'' = true) ∧
  (∀ i par n, p !! i = Some (par, n) → Node.get_succs n = [] →
     Node.is_open n = true ∨ Node.is_axiom n = true ∨ ∃ s' d, n = Node.InfNode s' d [] []).
Proof.
  intros Hp. assert (Wf.t p) as W by (apply (Wf.steps_wf _ _ Hp), Wf.mk_wf).
  split; [apply W|]. split; [|split; [|split; [|split]]].
  - apply (Wf.steps_seq _ _ _ _ Hp); [apply Wf.mk_wf|]. unfold Wf.seq_of, Prf.mk. by rewrite lookup_insert_eq.
  - apply (Wf.succ_in p W).
  - intros i. by apply connected.
  - apply W.
  - intros i par n Hi Hn. destruct n as [s' d|s' d|s' d succs tps|s' d j v]; simpl in *; auto; [|done].
    subst succs. destruct (Wf.inf_succs p W _ _ _ _ _ _ Hi) as (Hlen & _). destruct tps; [|done].
    right; right. by exists s', d.
Qed.

(** C18: the constructors on every branch, on a proof with the invariant.  At an
    open node the axiom or the inference replaces it, the premises of an
    inference being new open nodes in order; a back-link needs a target with the
    same sequent up to tags, otherwise an assertion fails, or the lookup when
    there is no target.  At a node that is not open all fail by an assertion, and
    by the lookup where there is no node. *)
Theorem constructor_results (p src : Prf.t) (idx : Z) (d : string)
    (sgs : list (sequent * tagpairs * tagpairs)) (j : Z) (v : tagpairs) :
  Wf.t p →
  (∀ par s d0, p !! idx = Some (par, Node.OpenNode s d0) →
     (∃ q, Prf.add_axiom idx d p = Ok q ∧ Wf.closes p idx (Node.AxiomNode s d) [] q) ∧
     (∃ q, Prf.add_inf idx d sgs p = Ok (Prf.range (Z.of_nat (size p)) sgs, q) ∧
       Wf.closes p idx (Node.InfNode s d (Prf.range (Z.of_nat (size p)) sgs)
         ((λ sg, (sg.1.2, sg.2)) <$> sgs)) ((λ sg, sg.1.1) <$> sgs) q) ∧
     match Wf.seq_of p j with
     | Some s' => if equal_upto_tags s s' then
         ∃ q, Prf.add_backlink idx d j v p = Ok q ∧ Wf.closes p idx (Node.BackNode s d j v) [] q
       else Prf.add_backlink idx d j v p = Err EAssert
     | None => Prf.add_backlink idx d j v p = Err EExn
     end) ∧
  (¬ Wf.open_at p idx →
     Prf.add_axiom idx d p = Err (Wf.not_open p idx) ∧
     Prf.add_inf idx d sgs p = Err (Wf.not_open p idx) ∧
     Prf.add_backlink idx d j v p = Err (Wf.not_open p idx) ∧
     Prf.add_subprf src idx p = Err (Wf.not_open p idx)).
Proof.
  intros W. split.
  - intros par s d0 Hi. split; [by eapply Wf.add_axiom_run|]. split; [by eapply Wf.add_inf_run|].
    destruct (Wf.seq_of p j) as [s'|] eqn:Hj; [destruct (equal_upto_tags s s') eqn:He|].
    + by eapply Wf.add_backlink_run.
    + rewrite (Wf.add_backlink_target_err p idx par s d0) by naive_solver.
      unfold Wf.seq_of in Hj. by destruct (p !! j).
    + rewrite (Wf.add_backlink_target_err p idx par s d0) by naive_solver.
      unfold Wf.seq_of in Hj. by destruct (p !! j).
  - intros Ho. split_and!; [by apply Wf.add_axiom_err|by apply Wf.add_inf_err|
      by apply Wf.add_backlink_err|by apply add_subprf_not_open].
Qed.

(** [is_closed_at] ends and tells whether no node of the subtree is open; at
    the root it agrees with [is_closed]. *)
Theorem is_closed_at_correct (p : Prf.t) (i : Z) :
  Wf.t p → is_Some (p !! i) →
  ∃ b, Prf.is_closed_at p i = Ok b ∧ (b = true ↔ closed_below p i) ∧
    (i = 0%Z → b = Prf.is_closed p).
Proof.
  intros W Hi. destruct (is_closed_at_spec p i W Hi) as (b & Hb & Hc). exists b.
  split; [done|]. split; [done|]. intros ->. apply eq_true_iff_eq. rewrite Hc, Wf.is_closed_spec.
  split; intros H j Hj; [|apply H]. destruct (H j); [|done]. by apply connected, Wf.open_at_in.
Qed.

(** [get_ancestry] ends and lists the nodes from the root to the index, each
    a premise of the one before: exactly the ancestors. *)
Theorem get_ancestry_correct (p : Prf.t) (i : Z) :
  Wf.t p → is_Some (p !! i) →
  ∃ l, Prf.get_ancestry i p = Ok l ∧ ancestry p i l ∧ ∀ j, j ∈ l.*1 ↔ rtc (child p) j i.
Proof.
  intros W Hi. destruct (get_ancestry_spec p i W Hi) as (l & Hl & Ha). exists l.
  split; [done|]. split; [done|]. intros j. by apply ancestry_ancestors.
Qed.
End proofs.

(** ** The command-line checker *)

(** Two lines, and what minimisation leaves of their proof. *)
Definition dead_root_lines : list CheckProof.line :=
  [(1%Z, 2%Z, ∅, ∅); (3%Z, 3%Z, {[(5%Z, 5%Z)]}, ∅)].
Definition dead_root : aproof := Eval vm_compute in
  match CheckProof.mk_prf dead_root_lines with Ok (p, _) => p | Err _ => ∅ end.
Definition dead_root_left : aproof := Eval vm_compute in
  match minimize_abs_proof dead_root 1 with Ok q => q | Err _ => ∅ end.

Lemma dead_root_ok : CheckProof.mk_prf dead_root_lines = Ok (dead_root, 1%Z).
Proof. by vm_compute. Qed.

Lemma dead_root_no_path : no_path dead_root 1.
Proof.
  assert (map_Forall (λ i a, Forall (λ e, i = 1 ∧ premise e = 2 ∨ i = 3) (get_subg a)) dead_root)%Z as H.
  { apply (bool_decide_unpack _). by vm_compute. }
  assert (∀ i j, tg_succ (aproof_graph dead_root 1) i j → i = 1 ∧ j = 2 ∨ i = 3)%Z as He.
  { intros i j (a & e & Ha & He & <-). specialize (H i a Ha). rewrite Forall_forall in H. by apply H. }
  intros π [H0 HS]. destruct (He _ _ (HS 0)) as [[_ H1]|H1]; [|simpl in H0; congruence].
  destruct (He _ _ (HS 1)) as [[H2 _]|H2]; congruence.
Qed.

Section checkproof.
Context {B : Bdd} {D : BddDict} {HO : HashOrder} {G : SpotAlgos B} {F : FloatLog} {T : TreeEq}.
Context {BL : BddLaws B} {DL : BddDictLaws D} {HL : HashOrderLaws HO}
  {GL : SpotAlgosLaws B G} {FL : FloatLogLaws F} {TL : TreeEqLaws T}.

(** C19: [check_proof] from any root, for a checker used with this root only:
    the verdict is the global trace condition, or the second assertion fails,
    which happens only for a root other than 0 from which no infinite path
    starts. *)
Theorem check_proof_any_root (init : Z) (p : aproof) (c : checker) :
  checker_ok_at init c → distinct p → valid p init = true → fits p →
  (Z.of_nat (size p) ≤ 2 ^ 28)%Z →
  (∃ b c', Minimize.check_proof init p c = Ok (b, c') ∧ checker_ok_at init c' ∧
     (b = true ↔ gtc (aproof_graph p init))) ∨
  (Minimize.check_proof init p c = Err EAssert ∧ init ≠ 0%Z ∧ no_path p init).
Proof. apply check_proof_any_spec. Qed.

(** The lines [1 -> 2] and [3 -> 3] make the command-line checker stop by an
    assertion, although the proof read is valid and meets the global trace
    condition from its root 1. *)
Theorem checkproof_stops (c : checker) :
  CheckProof.answer dead_root_lines c = Err EAssert ∧
  ∃ p, CheckProof.mk_prf dead_root_lines = Ok (p, 1%Z) ∧ valid p 1 = true ∧
    gtc (aproof_graph p 1).
Proof.
  assert (valid dead_root 1 = true) as Hv by by vm_compute. split.
  - unfold CheckProof.answer, lift. rewrite dead_root_ok. unfold mbind, M_bind. simpl.
    rewrite (check_proof_lost 1 dead_root dead_root_left c Hv); [|by vm_compute..]. by vm_compute.
  - exists dead_root. split; [apply dead_root_ok|]. split; [done|]. apply no_path_gtc, dead_root_no_path.
Qed.
End checkproof.

(** C20: the proof built from the lines of the input, when no two lines have the
    same source and target: it passes validation from the source of every line,
    lists no premise twice, and the premises of a node are the lines from it,
    with their progressing pairs and all their pairs; otherwise an assertion
    fails. *)
Theorem mk_prf_correct (lines : list CheckProof.line) :
  if decide (NoDup (CheckProof.ends <$> lines)) then
    ∃ p, CheckProof.mk_prf lines = Ok (p, match lines with [] => 0%Z | l :: _ => l.1.1.1 end) ∧
      distinct p ∧
      (∀ i e, has_edge p i e ↔ ∃ l, l ∈ lines ∧ CheckProof.line_edge l i e) ∧
      ∀ l, l ∈ lines → valid p l.1.1.1 = true
  else CheckProof.mk_prf lines = Err EAssert.
Proof. apply CheckProof.mk_prf_spec. Qed.

(** ** Subproofs across tags *)

(** The proof extracted at the back-link of [looped true]. *)
Definition extracted : Prf.t := Eval vm_compute in or_start (Prf.extract_subproof 2 (looped true)).

(** [extract_subproof] follows a back-link to a node it has not copied yet,
    and copies the inference of the target under the sequent of the source, whose
    tags may differ: in a good, closed proof with such a back-link the result has
    tag pairs over tags its sequent does not have, it fails validation, and
    [Proof.check] stops by an assertion. *)
Theorem extract_subproof_drops_tags {B : Bdd} {D : BddDict} {HO : HashOrder} {G : SpotAlgos B}
    {F : FloatLog} {T : TreeEq} (c : checker) :
  good (looped true) ∧ Prf.is_closed (looped true) = true ∧
  Prf.extract_subproof 2 (looped true) = Ok extracted ∧
  valid (abs extracted) 0 = false ∧ Prf.check extracted c = (Err EAssert, c).
Proof.
  split; [apply looped_good|]. split; [apply looped_closed|]. split; [by vm_compute|].
  split; by vm_compute.
Qed.

(** ** Instances *)

(** The rules of the logic of [Parity], and a new search. *)
Definition parity_axiom : Rule.t (St := checker (B := form_bdd) (D := list_dict)) :=
  Rule.mk_axiom parity_ax.
Definition parity_rule : Rule.t (St := checker (B := form_bdd) (D := list_dict)) :=
  Rule.choice [Rule.mk_backrule true Rule.ancestor_nodes parity_back; Rule.mk_infrule parity_inf].
Definition new_checker : checker (B := form_bdd) (D := list_dict) := mkChecker globals_init [].
Definition new_search : Prover.search checker := Prover.mkSearch new_checker 0.

Lemma parity_axiom_ok : rule_ok (inv := checker_ok) 0 0 parity_axiom.
Proof. apply mk_axiom_ok, parity_ax_ok. Qed.

Lemma parity_inf_rule_ok : rule_ok (inv := checker_ok) 2 2
  (Rule.mk_infrule parity_inf : Rule.t (St := checker (B := form_bdd) (D := list_dict))).
Proof. apply mk_infrule_ok, parity_inf_ok. Qed.

Lemma parity_rule_ok : rule_ok (inv := checker_ok) 2 2 parity_rule.
Proof.
  apply choice_ok, Forall_cons_2; [|apply Forall_singleton, parity_inf_rule_ok].
  eapply rule_ok_mono; [| |apply mk_backrule_ok; [apply ancestor_nodes_ok|apply parity_back_ok]]; lia.
Qed.

Lemma idfs_sound_witness :
  ∃ o s', Prover.idfs 1 3 parity_axiom parity_rule (Nat_ false) new_search = (Ok o, s') ∧
    checker_ok (Prover.checker_state s') ∧
    ∀ q, o = Some q → Prf.is_closed q = true ∧ Wf.seq_of q 0%Z = Some (Nat_ false : @sequent parity) ∧
      good q ∧ is_valid (Nat_ false : @sequent parity).
Proof.
  apply (idfs_sound parity_axiom parity_rule 0 0 2 2 1 3 (Nat_ false) new_search);
    [apply parity_axiom_ok|apply parity_rule_ok|by vm_compute|exact new_checker_ok].
Defined.

Lemma idfs_deepens_witness :
  ∃ o s', Prover.idfs 1 3 parity_axiom parity_rule (Nat_ false) new_search = (Ok o, s') ∧
    let d := match o with Some _ => Prover.last_search_depth s' | None => 4%Z end in
    (∀ i, (1 ≤ i < d)%Z → search_ends (inv := checker_ok) parity_axiom parity_rule (Nat_ false) i None) ∧
    match o with
    | Some q => (1 ≤ d ≤ 3)%Z ∧
        search_ends (inv := checker_ok) parity_axiom parity_rule (Nat_ false) d (Some q)
    | None => Prover.last_search_depth s' = 0%Z
    end.
Proof.
  apply (idfs_deepens parity_axiom parity_rule 0 0 2 2 1 3 (Nat_ false) new_search);
    [apply parity_axiom_ok|apply parity_rule_ok|by vm_compute|exact new_checker_ok].
Defined.

Lemma stepped_open_at b : Wf.open_at (stepped b) 2.
Proof. exists 0%Z, (Nat_ b : @sequent parity), "(Open)". apply stepped_open. Qed.

Lemma mk_backrule_correct_witness :
  ∃ apps c', Rule.mk_backrule false Rule.ancestor_nodes parity_back 2%Z (stepped false) new_checker =
      (Ok apps, c') ∧ checker_ok c' ∧
    (∀ a, a ∈ apps → proposed Rule.ancestor_nodes parity_back (stepped false) 2 a ∧ sound a.2) ∧
    ∀ a, proposed Rule.ancestor_nodes parity_back (stepped false) 2 a → sound a.2 → a ∈ apps.
Proof.
  apply (mk_backrule_correct false); [apply ancestor_nodes_ok|apply parity_back_ok|apply stepped_good|
    apply stepped_open_at|by vm_compute|exact new_checker_ok].
Defined.

(** The back-link of [looped] is proposed, so the rule finds it. *)
Lemma looped_proposed : proposed Rule.ancestor_nodes parity_back (stepped false) 2 ([], looped false).
Proof.
  split; [done|]. eexists (Nat_ false : @sequent parity), _, 0%Z, (Nat_ false : @sequent parity), _, _.
  split; [by vm_compute|]. split; [by vm_compute|]. split; [left|]. split; [by vm_compute|].
  split; [left|]. apply looped_ok.
Qed.

Lemma rules_keep_contract_witness :
  rule_ok (inv := checker_ok) 6 4 (Rule.compose parity_rule parity_rule) ∧
  rule_ok (inv := checker_ok) 2 2 (Rule.first [parity_rule; parity_rule]) ∧
  rule_ok (inv := checker_ok) 2 2 (Rule.combine_axioms parity_axiom parity_rule).
Proof.
  destruct (rules_keep_contract 2 2 2 2 parity_rule parity_rule [parity_rule; parity_rule]
    (λ _, true) parity_ax parity_inf) as (_ & _ & H1 & _ & _ & H2 & _);
    [apply parity_rule_ok|apply parity_rule_ok|
     apply Forall_cons_2; [|apply Forall_singleton]; apply parity_rule_ok|
     apply parity_ax_ok|apply parity_inf_ok|].
  split; [exact H1|]. split; [exact H2|].
  apply (rules_keep_contract 2 2 0 0 parity_rule parity_axiom [] (λ _, true) parity_ax parity_inf);
    [apply parity_rule_ok|apply parity_axiom_ok|constructor|apply parity_ax_ok|apply parity_inf_ok].
Defined.

Lemma proof_check_decides_witness :
  ∃ b c', Prf.check (looped true) new_checker = (Ok b, c') ∧ checker_ok c' ∧
    (b = true ↔ sound (looped true)).
Proof.
  apply proof_check_decides; [apply looped_good|apply looped_good|by vm_compute|exact new_checker_ok].
Defined.

Lemma add_subprf_good_witness :
  ∃ q m, Prf.add_subprf (looped false) 2 (stepped false) = Ok q ∧
    embeds (looped false) (stepped false) 2 m (λ _, image m) q ∧ good q ∧
    (Prf.is_closed (looped false) = true → ∀ j, Wf.open_at q j ↔ Wf.open_at (stepped false) j ∧ j ≠ 2%Z).
Proof.
  apply (add_subprf_good (looped false) (stepped false) 2 0 (Nat_ false) "(Open)");
    [apply looped_good|apply stepped_good|apply stepped_open|by vm_compute].
Defined.

Lemma built_proofs_invariant_witness :
  Wf.seq_of (looped true) 0%Z = Some (Nat_ false : @sequent parity) ∧
  ∀ i, is_Some (looped true !! i) → rtc (child (looped true)) 0%Z i.
Proof.
  destruct (built_proofs_invariant (Nat_ false : @sequent parity) (looped true)) as (_ & Hs & _ & Hc & _);
    [apply looped_steps|]. by split.
Defined.

Lemma constructor_results_witness :
  Prf.add_axiom 0 "Zero" (looped true) = Err EAssert ∧ Prf.add_axiom 7 "Zero" (looped true) = Err EExn.
Proof.
  split.
  - apply (constructor_results (looped true) (looped true) 0 "Zero" [] 0 ∅); [apply looped_good|].
    intros (par & s & d & H). by vm_compute in H.
  - apply (constructor_results (looped true) (looped true) 7 "Zero" [] 0 ∅); [apply looped_good|].
    intros (par & s & d & H). by vm_compute in H.
Defined.

Lemma is_closed_at_correct_witness :
  ∃ b, Prf.is_closed_at (stepped true) 0 = Ok b ∧ (b = true ↔ closed_below (stepped true) 0) ∧
    (0%Z = 0%Z → b = Prf.is_closed (stepped true)).
Proof. apply is_closed_at_correct; [apply stepped_good|by eexists]. Defined.

Lemma get_ancestry_correct_witness :
  ∃ l, Prf.get_ancestry 2 (stepped true) = Ok l ∧ ancestry (stepped true) 2 l ∧
    ∀ j, j ∈ l.*1 ↔ rtc (child (stepped true)) j 2%Z.
Proof. apply get_ancestry_correct; [apply stepped_good|by eexists]. Defined.

Lemma check_proof_any_root_witness :
  (∃ b c', Minimize.check_proof 1 dead_root new_checker = Ok (b, c') ∧ checker_ok_at 1 c' ∧
     (b = true ↔ gtc (aproof_graph dead_root 1))) ∨
  (Minimize.check_proof 1 dead_root new_checker = Err EAssert ∧ 1%Z ≠ 0%Z ∧ no_path dead_root 1).
Proof.
  apply check_proof_any_root; [|apply (bool_decide_unpack _); by vm_compute|by vm_compute|
    apply (bool_decide_unpack _); by vm_compute|by vm_compute].
  split; [done|]. by intros p r ?%elem_of_nil.
Defined.
