(* ===== verification/AbdRule.v ===== *)
(** * Abductive rules: [abdrule.ml]

    A rule of the abducer is a rule that may also extend the inductive
    definitions the proof is about: it takes an open node, a proof and
    definitions, and returns proofs with their new open nodes and the
    definitions under which they are proofs.  The promise of such rules, and the
    combinators that keep it, follow [RuleContract]. *)

From S2P Require Import Prelude Exn Spot ProofGraph Gtc ProofAut Trace Soundness.
From S2P Require Import SoundnessSpec Soundcheck Minimize MinimizeProofs ProofNode CyclicProof.
From S2P Require Import ProofInvariant ProofQueries ProofSound ProofRule RuleContract.

Module AbdRule.
Section rules.
Context {Q : Sequent} {St : Type} {D : Type}.

Definition abdinfrule_f : Type := sequent → D → list D.
Definition abdbackrule_f : Type := sequent → sequent → D → list D.
Definition abdgenrule_f : Type := sequent → D → list ((list subgoal * string) * D).

Definition t : Type := Z → Prf.t → D → X St (list ((list Z * Prf.t) * D)).

Definition mk_abdinfrule (r : abdinfrule_f) : t := λ idx prf defs,
  seq ← lift_res (Prf.get_seq idx prf);
  let apps := r seq defs in
  mret (map (λ newdefs, (([idx], prf), newdefs)) apps).

Definition mk_abdbackrule (sel_f : Rule.select_f) (abr_f : abdbackrule_f) : t := λ srcidx prf defs,
  srcseq ← lift_res (Prf.get_seq srcidx prf);
  trgidxs ← lift_res (sel_f srcidx prf);
  let apply trgidx :=
    trgseq ← lift_res (Prf.get_seq trgidx prf);
    mret (map (λ defs', (([srcidx], prf), defs')) (abr_f srcseq trgseq defs)) in
  bind_x apply trgidxs.

Definition mk_abdgenrule (r : abdgenrule_f) : t := λ idx prf defs,
  seq ← lift_res (Prf.get_seq idx prf);
  map_x (λ ldd, a ← lift_res (Prf.add_inf idx ldd.1.2 ldd.1.1 prf); mret (a, ldd.2)) (r seq defs).

Definition fail : t := λ _ _ _, mret [].

Definition lift (r : Rule.t (St := St)) : t := λ idx prf defs,
  apps ← r idx prf; mret (map (λ p, (p, defs)) apps).

(** One round of [apply_to_subgoals]: the rule on one subgoal of every
    application so far. *)
Definition apply_to_subgoal (r : t) (apps : list ((list Z * Prf.t) * D)) (idx : Z) :
    X St (list ((list Z * Prf.t) * D)) :=
  bind_x (λ app,
    news ← r idx app.1.2 app.2;
    mret (map (λ new, ((app.1.1 ++ new.1.1, new.1.2), new.2)) news)) apps.

Definition apply_to_subgoals (r : t) (app : (list Z * Prf.t) * D) :
    X St (list ((list Z * Prf.t) * D)) :=
  fold_left_x (apply_to_subgoal r) [(([], app.1.2), app.2)] app.1.1.

Definition compose (r r' : t) : t := λ idx prf defs,
  apps ← r idx prf defs; bind_x (apply_to_subgoals r') apps.

Definition choice (rl : list t) : t := λ idx prf defs, bind_x (λ f : t, f idx prf defs) rl.

Fixpoint first (rl : list t) : t := λ idx prf defs,
  match rl with
  | [] => mret []
  | r :: rs =>
      apps ← r idx prf defs;
      match apps with [] => first rs idx prf defs | _ => mret apps end
  end.

Definition attempt (r : t) : t := λ idx prf defs,
  apps ← r idx prf defs;
  match apps with [] => mret [(([idx], prf), defs)] | _ => mret apps end.
End rules.
End AbdRule.

(** ** What is kept when definitions grow *)

(** A calculus for all definitions: what is an instance of a rule stays one when
    definitions are extended. *)
Class Extensible {Q : Sequent} {D : Type} (K : D → Calculus) (extends : D → D → Prop) : Prop := {
  #[global] extends_pre :: PreOrder extends;
  ax_extends d d' s : extends d d' → ax_ok (Calculus := K d) s → ax_ok (Calculus := K d') s;
  inf_extends d d' s sgs : extends d d' →
    inf_ok (Calculus := K d) s sgs → inf_ok (Calculus := K d') s sgs;
  back_extends d d' s s' v : extends d d' →
    back_ok (Calculus := K d) s s' v → back_ok (Calculus := K d') s s' v;
}.

Section extension.
Context {Q : Sequent} {D : Type} {K : D → Calculus} {extends : D → D → Prop}.
Context {EX : Extensible K extends}.

Lemma good_extends d d' p : extends d d' → good (K := K d) p → good (K := K d') p.
Proof.
  intros He [W [Ja Ji Jb] S]. split; [done| |done]. split.
  - intros i par s ds Hi. eapply ax_extends; [exact He|]. by eapply Ja.
  - intros i par s ds succs tps Hi. destruct (Ji _ _ _ _ _ _ Hi) as (sgs & Hok & H).
    exists sgs. split; [|done]. by eapply inf_extends.
  - intros i par s ds j v Hi. destruct (Jb _ _ _ _ _ _ Hi) as (s' & Hs & Hok).
    exists s'. split; [done|]. by eapply back_extends.
Qed.

Lemma application_extends d d' p idx subs q :
  extends d d' → application (K := K d) p idx subs q → application (K := K d') p idx subs q.
Proof. intros He [H]. split; try done. by eapply good_extends. Qed.
End extension.

(** ** The promise of a rule *)

Section contracts.
Context {Q : Sequent} {D : Type} {K : D → Calculus} {extends : D → D → Prop}.
Context {EX : Extensible K extends} {QL : SequentLaws Q} {KL : ∀ d, CalculusLaws (K d)}.
Context {TR : TagRange Q}.
Context {St : Type} {C : GtcChecker St} {inv : St → Prop} {CL : GtcCheckerLaws C inv}.

(** An application under definitions that extend those before. *)
Definition abd_result_ok (p : Prf.t) (d : D) (idx : Z) (g n : nat)
    (a : (list Z * Prf.t) * D) : Prop :=
  extends d a.2 ∧ result_ok (K := K a.2) p idx g n a.1.

Definition abdrule_ok (g n : nat) (r : AbdRule.t) : Prop := ∀ idx p d s,
  good (K := K d) p → Wf.open_at p idx → room p g → inv s →
  returns (r idx p d) s (λ apps s', inv s' ∧ Forall (abd_result_ok p d idx g n) apps).

Lemma abd_result_ok_mono p d idx g n g' n' a :
  g ≤ g' → n ≤ n' → abd_result_ok p d idx g n a → abd_result_ok p d idx g' n' a.
Proof. intros Hg Hn [He H]. split; [done|]. by apply (result_ok_mono p idx g n). Qed.

Lemma abdrule_ok_mono g n g' n' r : g ≤ g' → n ≤ n' → abdrule_ok g n r → abdrule_ok g' n' r.
Proof.
  intros Hg Hn H idx p d s Hp Ho Hr Hi. eapply returns_mono.
  - apply H; [done|done|by eapply room_mono|done].
  - intros apps s' [Hs' Hf]. split; [done|]. eapply Forall_impl; [exact Hf|].
    intros a. by apply abd_result_ok_mono.
Qed.

(** The proof itself, with the node still open, under more definitions. *)
Lemma still_open p d d' idx g :
  good (K := K d) p → Wf.open_at p idx → extends d d' →
  abd_result_ok p d idx g 1 (([idx], p), d').
Proof.
  intros Hp Ho He. split; [done|]. split; [|simpl; lia].
  apply application_refl; [|done]. by eapply good_extends.
Qed.

(** ** Rules *)

Lemma mk_abdinfrule_ok (r : AbdRule.abdinfrule_f) :
  (∀ s d d', d' ∈ r s d → extends d d') → abdrule_ok 0 1 (AbdRule.mk_abdinfrule r).
Proof.
  intros Hext idx p d s Hp Ho Hr Hi. destruct (get_seq_open p idx s Ho) as (par & s0 & ds & _ & Hk).
  apply Hk. apply returns_ret. split; [done|]. apply Forall_fmap, Forall_forall.
  intros d' Hd'. apply still_open; [done|done|]. by apply (Hext s0).
Qed.

Lemma mk_abdbackrule_ok (sel_f : Rule.select_f) (abr_f : AbdRule.abdbackrule_f) :
  select_ok sel_f → (∀ s s' d d', d' ∈ abr_f s s' d → extends d d') →
  abdrule_ok 0 1 (AbdRule.mk_abdbackrule sel_f abr_f).
Proof.
  intros Hsel Hext idx p d s Hp Ho Hr Hi.
  destruct (get_seq_open p idx s Ho) as (par & s0 & ds & Hidx & Hk). apply Hk.
  destruct (Hsel idx p (good_wf p Hp)) as (l & Hl & Hin); [by eexists|].
  apply returns_bind. eapply returns_lift; [exact Hl|].
  apply (returns_bind_list inv); [done|]. intros j s1 Hj Hs1. destruct (Hin j Hj) as [x Hx].
  apply returns_bind. eapply (returns_lift _ (Node.get_seq x.2)).
  { apply Wf.get_seq_ok. unfold Wf.seq_of. by rewrite Hx. }
  apply returns_ret. split; [done|]. apply Forall_fmap, Forall_forall.
  intros d' Hd'. apply still_open; [done|done|]. by apply (Hext s0 (Node.get_seq x.2)).
Qed.

Lemma mk_abdgenrule_ok (r : AbdRule.abdgenrule_f) (n : nat) :
  (∀ s d sgs descr d', ((sgs, descr), d') ∈ r s d →
    extends d d' ∧ inf_ok (Calculus := K d') s sgs ∧ length sgs ≤ n) →
  abdrule_ok n n (AbdRule.mk_abdgenrule r).
Proof.
  intros Hinf idx p d s Hp Ho Hr Hi.
  destruct (get_seq_open p idx s Ho) as (par & s0 & ds & Hidx & Hk). apply Hk.
  eapply returns_mono; [apply (returns_map inv _ (λ _, abd_result_ok p d idx n n)); [done|]|].
  - intros [[sgs descr] d'] s1 Hin Hs1. destruct (Hinf _ _ _ _ _ Hin) as (He & Hok & Hlen).
    destruct (add_inf_result (K := K d') idx p par s0 ds descr sgs n) as (a & Ha & Hres);
      [by eapply good_extends|done..|].
    apply returns_bind. eapply returns_lift; [exact Ha|]. apply returns_ret. by split.
  - intros apps s' [Hs' Hf]. split; [done|]. by eapply Forall2_Forall_r; [exact Hf|apply Forall_true].
Qed.

Lemma abd_fail_ok : abdrule_ok 0 0 AbdRule.fail.
Proof. intros idx p d s Hp Ho Hr Hi. by apply returns_ret. Qed.

Lemma lift_ok g n (r : Rule.t) :
  (∀ d, rule_ok (K := K d) (inv := inv) g n r) → abdrule_ok g n (AbdRule.lift r).
Proof.
  intros H idx p d s Hp Ho Hr Hi. apply returns_bind. eapply returns_mono; [by apply (H d)|].
  intros apps s' [Hs' Hf]. apply returns_ret. split; [done|]. apply Forall_fmap.
  eapply Forall_impl; [exact Hf|]. by intros a Ha.
Qed.

(** ** Combinators *)

(** An application in progress: [subs] are still to be treated. *)
Definition abd_partly_ok (p : Prf.t) (d : D) (idx : Z) (subs : list Z) (g n : nat)
    (a : (list Z * Prf.t) * D) : Prop :=
  extends d a.2 ∧ partly_ok (K := K a.2) p idx subs g n a.1.

Lemma abd_subgoal_ok g n r p d idx j subs apps s G N :
  abdrule_ok g n r → good (K := K d) p → room p (G + g) → inv s →
  Forall (abd_partly_ok p d idx (j :: subs) G N) apps →
  returns (AbdRule.apply_to_subgoal r apps j) s (λ apps' s',
    inv s' ∧ Forall (abd_partly_ok p d idx subs (G + g) (N + n)) apps').
Proof.
  intros Hr Hp Hroom Hi Happs. rewrite Forall_forall in Happs.
  apply (returns_bind_list inv); [done|].
  intros [[opened q] d1] s1 Hin Hs1. destruct (Happs _ Hin) as (He & A & Hs & Hl). simpl in *.
  apply returns_bind. eapply returns_mono; [apply (Hr j q d1 s1)|].
  - apply (app_good _ _ _ _ A).
  - apply (app_subs _ _ _ _ A). set_solver.
  - unfold room in *. lia.
  - done.
  - intros news s2 [Hs2 Hnews]. apply returns_ret. split; [done|].
    apply Forall_fmap. eapply Forall_impl; [exact Hnews|]. intros [[ns q'] d2] (He2 & B & Hsb & Hlb).
    simpl in *. split; [by etrans|]. split.
    + eapply application_trans; [|by eapply application_extends|exact B].
      eapply good_extends; [|exact Hp]. by etrans.
    + simpl. rewrite length_app. lia.
Qed.

Lemma abd_subgoals_ok g n p d idx r subs apps s G N :
  abdrule_ok g n r → good (K := K d) p → room p (G + length subs * g) → inv s →
  Forall (abd_partly_ok p d idx subs G N) apps →
  returns (fold_left_x (AbdRule.apply_to_subgoal r) apps subs) s (λ apps' s', inv s' ∧
    Forall (abd_result_ok p d idx (G + length subs * g) (N + length subs * n)) apps').
Proof.
  intros Hr Hp. revert apps s G N. induction subs as [|j subs IH]; intros apps s G N Hroom Hi Happs; simpl.
  - apply returns_ret. split; [done|]. eapply Forall_impl; [exact Happs|].
    intros a (He & A & Hs & Hl). rewrite app_nil_r in A. split; [done|]. split; [done|lia].
  - apply returns_bind. eapply returns_mono;
      [apply (abd_subgoal_ok g n r p d idx j subs apps s G N); try done; unfold room in *; simpl in *; lia|].
    intros apps1 s1 [Hs1 H1]. eapply returns_mono;
      [apply (IH apps1 s1 (G + g) (N + n)); try done; unfold room in *; simpl in *; lia|].
    intros apps2 s2 [Hs2 H2]. split; [done|]. eapply Forall_impl; [exact H2|].
    intros a. apply abd_result_ok_mono; lia.
Qed.

Lemma abd_compose_ok g n g1 n1 r r' :
  abdrule_ok g1 n1 r → abdrule_ok g n r' → abdrule_ok (g1 + n1 * g) (n1 * n) (AbdRule.compose r r').
Proof.
  intros Hr Hr' idx p d s Hp Ho Hroom Hi. apply returns_bind.
  eapply returns_mono; [apply Hr; [done|done|by eapply room_mono; [|exact Hroom]; lia|done]|].
  intros apps s1 [Hs1 Happs]. rewrite Forall_forall in Happs.
  apply (returns_bind_list inv); [done|]. intros [[subs q] d1] s2 Ha Hs2.
  destruct (Happs _ Ha) as (He & A & Hs & Hl). simpl in *.
  assert (length subs * g ≤ n1 * g ∧ length subs * n ≤ n1 * n) as [Hg Hn]
    by (split; by apply Nat.mul_le_mono_r).
  eapply returns_mono; [apply (abd_subgoals_ok g n p d idx r' subs _ s2 g1 0)|]; [done|done| |done| |].
  - unfold room in *. simpl. lia.
  - apply Forall_singleton. split; [done|]. split; [done|simpl; lia].
  - intros apps2 s3 [Hs3 H3]. split; [done|]. eapply Forall_impl; [exact H3|].
    intros a. apply abd_result_ok_mono; lia.
Qed.

Lemma abd_choice_ok g n rl : Forall (abdrule_ok g n) rl → abdrule_ok g n (AbdRule.choice rl).
Proof.
  intros Hrl idx p d s Hp Ho Hroom Hi. rewrite Forall_forall in Hrl.
  apply (returns_bind_list inv); [done|]. intros r s1 Hr Hs1. by apply Hrl.
Qed.

Lemma abd_first_ok g n rl : Forall (abdrule_ok g n) rl → abdrule_ok g n (AbdRule.first rl).
Proof.
  induction 1 as [|r rs Hr _ IH]; intros idx p d s Hp Ho Hroom Hi; simpl; [by apply returns_ret|].
  apply returns_bind. eapply returns_mono; [by apply Hr|].
  intros [|a apps] s1 [Hs1 Happs]; [by apply IH|by apply returns_ret].
Qed.

Lemma abd_attempt_ok g n r : abdrule_ok g n r → abdrule_ok g (max n 1) (AbdRule.attempt r).
Proof.
  intros Hr idx p d s Hp Ho Hroom Hi. apply returns_bind. eapply returns_mono; [by apply Hr|].
  intros [|a apps] s1 [Hs1 Happs]; apply returns_ret; (split; [done|]).
  - apply Forall_singleton. eapply (abd_result_ok_mono _ _ _ g 1); [lia|lia|by apply still_open].
  - eapply Forall_impl; [exact Happs|]. intros b. apply abd_result_ok_mono; lia.
Qed.
End contracts.
