(* ===== verification/Abducer.v ===== *)
(** * The abducer: [abducer.ml]

    Breadth-first search for a proof and definitions under which it is one.  A
    state is the list of applications of the rule to one open goal of an earlier
    application; the stack holds the states whose goals are all above the
    current depth, the frontier those for the next depth. *)

From S2P Require Import Prelude Exn Spot ProofGraph Gtc ProofAut Trace Soundness.
From S2P Require Import SoundnessSpec Soundcheck Minimize MinimizeProofs ProofNode CyclicProof.
From S2P Require Import ProofInvariant ProofQueries ProofSound ProofRule RuleContract Prover AbdRule.

Module Abducer.
Section abducer.
Context {Q : Sequent} {St : Type} {D : Type}.

Record app_state := mkApp {
  prf : Prf.t;
  depth : Z;
  (** open goals with their depths *)
  goals : list (Z * Z);
  defs : D;
}.

Record abd_proof_state := mkProofState {
  seq_no : Z;
  par : Z;
  idx : Z;
  apps : list app_state;
}.

(** The prover's state and [state_seq_no]. *)
Record abduction := mkAbduction {
  search_state : Prover.search St;
  state_seq_no : Z;
}.

Definition on_search {A} (m : X (Prover.search St) A) : X abduction A := λ s,
  let '(a, c) := m (search_state s) in (a, mkAbduction c (state_seq_no s)).

Definition mk_state (par idx : Z) (apps : list app_state) : X abduction abd_proof_state := λ s,
  let n := (state_seq_no s + 1)%Z in
  (Ok (mkProofState n par idx apps), mkAbduction (search_state s) n).

Fixpoint pop_loop (aux : list abd_proof_state) (s : Z) (l : list abd_proof_state) :
    list abd_proof_state :=
  match l with
  | [] => rev aux
  | p :: ps =>
      if (seq_no p =? s)%Z then pop_loop aux (par p) ps else pop_loop (p :: aux) s ps
  end.

Definition pop_parents (sn : Z) (stack : list abd_proof_state) : list abd_proof_state :=
  pop_loop [] sn stack.

(** [Blist.is_empty] *)
Definition is_empty {A} (l : list A) : bool := match l with [] => true | _ => false end.

Definition expand_proof_state (par_seq_no : Z) (app : app_state) (rule : AbdRule.t (D := D)) :
    X abduction abd_proof_state :=
  lift_res (assert_res (negb (Prf.is_closed (prf app)) && negb (is_empty (goals app)))) ;;
  match goals app with
  | [] => lift_res (Err EInvalidArg)
  | (idx, goal_depth) :: goals =>
      let new_goal_depth := (goal_depth + 1)%Z in
      let new_prf_depth := Z.max (depth app) new_goal_depth in
      new ← on_search (Prover.on_checker (rule idx (prf app) (defs app)));
      let newapps := map (λ a,
        mkApp a.1.2 new_prf_depth
          (rev_append (rev (map (λ j, (j, new_goal_depth)) a.1.1)) goals) a.2) new in
      mk_state par_seq_no idx newapps
  end.

(** The loop of [bfs]; every round takes fuel. *)
Fixpoint aux (fuel : nat) (maxbound : Z) (rule : AbdRule.t (D := D)) (check : D → bool)
    (bound : Z) (frontier stack : list abd_proof_state) :
    X abduction (option (Prf.t * Z * D)) :=
  if (maxbound <? bound)%Z || (is_empty stack && is_empty frontier) then mret None
  else
    match fuel with
    | O => lift_res (Err EFuel)
    | S fuel =>
      match stack with
      | [] => aux fuel maxbound rule check (bound + 1) [] (rev frontier)
      | proof_state :: stack =>
        match apps proof_state with
        | [] => aux fuel maxbound rule check bound frontier stack
        | app :: apps =>
          lift_res (assert_res (depth app <=? bound)%Z) ;;
          lift_res (assert_res (forallb (λ g, g.2 <=? bound)%Z (goals app))) ;;
          let stack :=
            mkProofState (seq_no proof_state) (par proof_state) (idx proof_state) apps :: stack in
          if is_empty (goals app) then
            lift_res (assert_res (Prf.is_closed (prf app))) ;;
            if check (defs app) then mret (Some (prf app, depth app, defs app))
            else aux fuel maxbound rule check bound frontier stack
          else
            lift_res (assert_res (negb (Prf.is_closed (prf app)))) ;;
            if existsb (λ g, g.2 =? bound)%Z (goals app) then
              st ← expand_proof_state (seq_no proof_state) app rule;
              aux fuel maxbound rule check bound (st :: frontier) stack
            else
              closed ← lift_res (Prf.is_closed_at (prf app) (idx proof_state));
              let stack :=
                if closed : bool then pop_parents (seq_no proof_state) stack else stack in
              st ← expand_proof_state (seq_no proof_state) app rule;
              aux fuel maxbound rule check bound frontier (st :: stack)
        end
      end
    end.

Definition bfs (fuel : nat) (maxbound : Z) (rule : AbdRule.t (D := D)) (seq : sequent)
    (initial_defs : D) (check : D → bool) : X abduction (option (Prf.t * D)) :=
  let start := Prf.mk seq in
  st ← expand_proof_state 0 (mkApp start 0 [(0, 0)]%Z initial_defs) rule;
  o ← aux fuel maxbound rule check 1 [] [st];
  match o with
  | None => mret None
  | Some (p, d, defs) => on_search (Prover.set_depth d) ;; mret (Some (p, defs))
  end.
End abducer.
Arguments app_state {Q} D.
Arguments abd_proof_state {Q} D.
Arguments abduction : clear implicits.
Arguments mkAbduction {St} _ _.
End Abducer.

(** ** Lists in which an element is replaced by smaller ones *)

Section shrinking.
Context {A : Type} (R : A → A → Prop).

(** An element is replaced by smaller ones, and some of those after it dropped. *)
Definition shrinks (l' l : list A) : Prop :=
  ∃ l1 a l2 new l2', l = l1 ++ a :: l2 ∧ l' = l1 ++ new ++ l2' ∧
    Forall (λ b, R b a) new ∧ l2' `sublist_of` l2.

Lemma shrinks_cons a new l2 l2' :
  Forall (λ b, R b a) new → l2' `sublist_of` l2 → shrinks (new ++ l2') (a :: l2).
Proof. intros Hn Hs. by exists [], a, l2, new, l2'. Qed.

Lemma shrinks_app l l2 l2' : shrinks l2' l2 → shrinks (l ++ l2') (l ++ l2).
Proof.
  intros (l1 & a & l3 & new & l3' & -> & -> & Hn & Hs).
  exists (l ++ l1), a, l3, new, l3'. by rewrite <-!app_assoc.
Qed.

Lemma shrinks_sublist l m l' :
  l `sublist_of` m → shrinks l' l → ∃ m', shrinks m' m ∧ l' `sublist_of` m'.
Proof.
  intros Hs (l1 & a & l2 & new & l2' & -> & -> & Hn & Hs2).
  apply sublist_app_l in Hs as (m1 & m2 & -> & Hm1 & Hm2).
  apply sublist_cons_l in Hm2 as (m3 & m4 & -> & Hm4).
  exists ((m1 ++ m3) ++ new ++ l2'). split.
  - exists (m1 ++ m3), a, m4, new, l2'. rewrite <-app_assoc. split; [done|]. split; [done|].
    split; [done|]. by etrans.
  - apply sublist_app; [|done]. by apply sublist_inserts_r.
Qed.

Lemma acc_sublist m : Acc shrinks m → ∀ l, l `sublist_of` m → Acc shrinks l.
Proof.
  induction 1 as [m _ IH]. intros l Hl. constructor. intros l' Hs.
  destruct (shrinks_sublist l m l' Hl Hs) as (m' & Hm' & Hsub). by apply (IH m').
Qed.

Lemma acc_app l1 : Acc shrinks l1 → ∀ l2, Acc shrinks l2 → Acc shrinks (l1 ++ l2).
Proof.
  induction 1 as [l1 H1 IH1]. intros l2 H2. induction H2 as [l2 H2 IH2].
  constructor. intros l' (k1 & a & k2 & new & k2' & Heq & -> & Hn & Hs).
  apply app_eq_app in Heq as (k & [[-> Hk]|[-> ->]]).
  - destruct k as [|b k]; simpl in Hk.
    + subst l2. rewrite app_nil_r in *. apply IH2.
      by exists [], a, k2, new, k2'.
    + injection Hk as <- ->. apply sublist_app_r in Hs as (j1 & j2 & -> & Hj1 & Hj2).
      rewrite !app_assoc, <-(app_assoc k1). apply IH1; [by exists k1, a, k, new, j1|].
      apply (acc_sublist l2); [by constructor|done].
  - rewrite <-app_assoc. apply IH2. by exists k, a, k2, new, k2'.
Qed.

Lemma wf_shrinks : well_founded R → well_founded shrinks.
Proof.
  intros HR.
  assert (∀ a, Acc shrinks [a]) as Ha.
  { intros a. induction (HR a) as [a _ IH]. constructor.
    intros l' (k1 & b & k2 & new & k2' & Heq & -> & Hn & Hs).
    destruct k1 as [|c k1]; [|by destruct k1]. injection Heq as <- <-.
    apply sublist_nil_r in Hs as ->. rewrite app_nil_r. simpl.
    induction Hn as [|b new Hb _ IHn]; [|by apply (acc_app [b]); [apply IH|]].
    constructor. intros l' (k1 & c & k2 & ? & ? & Heq & _). by destruct k1. }
  intros l. induction l as [|a l IH]; [|by apply (acc_app [a])].
  constructor. intros l' (k1 & c & k2 & ? & ? & Heq & _). by destruct k1.
Qed.
End shrinking.

Lemma forall_sublist {A} (P : A → Prop) l l' : l `sublist_of` l' → Forall P l' → Forall P l.
Proof.
  induction 1 as [|x l l' _ IH|x l l' _ IH]; [done| |];
    intros [Hx Hl]%Forall_cons; [apply Forall_cons; auto|auto].
Qed.

(** ** The search *)

Section search.
Context {Q : Sequent} {D : Type} {K : D → Calculus} {extends : D → D → Prop}.
Context {EX : Extensible K extends} {QL : SequentLaws Q} {KL : ∀ d, CalculusLaws (K d)}.
Context {TR : TagRange Q}.
Context {St : Type} {C : GtcChecker St} {inv : St → Prop} {CL : GtcCheckerLaws C inv}.
Context (r : AbdRule.t (St := St) (D := D)) (g m : nat).
Hypothesis Hr : abdrule_ok (K := K) (extends := extends) (inv := inv) g m r.
Context (maxbound : Z) (seq : sequent) (d0 : D).
Hypothesis Hroom : (Z.of_nat (1 + growth 0 g m (S (Z.to_nat maxbound))) ≤ max_nodes)%Z.

Import Abducer.

(** How much deeper a goal of depth [d] can be expanded. *)
Definition left_below (d : Z) : nat := Z.to_nat (Z.max 0 maxbound + 1 - d).

Definition ranks (a : app_state D) : list nat := (λ b, left_below b.2) <$> goals a.

(** An application is followed by those in which its first goal is expanded. *)
Definition app_lt (a' a : app_state D) : Prop := shrinks lt (ranks a') (ranks a).

Lemma wf_app_lt : well_founded app_lt.
Proof. apply (wf_projected (shrinks lt) ranks); [done|]. apply wf_shrinks, lt_wf. Qed.

(** New nodes that the goals of an application can lead to. *)
Definition to_grow (gs : list (Z * Z)) : nat :=
  sum_list_with (λ b, growth 0 g m (left_below b.2)) gs.

(** Its goals, of depth at most [b], are the open nodes of the proof. *)
Record app_ok (b : Z) (a : app_state D) : Prop := {
  ao_good : good (K := K (defs a)) (prf a);
  ao_extends : extends d0 (defs a);
  ao_root : Wf.seq_of (prf a) 0%Z = Some seq;
  ao_nodup : NoDup (goals a).*1;
  ao_open j : Wf.open_at (prf a) j ↔ j ∈ (goals a).*1;
  ao_goals : Forall (λ gd, 0 ≤ gd.2 ≤ b)%Z (goals a);
  ao_depth : (0 ≤ depth a ≤ b)%Z;
  ao_room : (Z.of_nat (size (prf a) + to_grow (goals a)) ≤ max_nodes)%Z;
}.

Definition state_ok (b : Z) (st : abd_proof_state D) : Prop :=
  Forall (λ a, app_ok b a ∧ is_Some (prf a !! idx st)) (apps st).

Lemma app_ok_mono b b' a : (b ≤ b')%Z → app_ok b a → app_ok b' a.
Proof.
  intros Hb []. split; try done; [|lia]. eapply Forall_impl; [done|]. simpl. lia.
Qed.

Lemma state_ok_mono b b' st : (b ≤ b')%Z → state_ok b st → state_ok b' st.
Proof.
  intros Hb H. eapply Forall_impl; [exact H|]. intros a [Ha Hi]. split; [|done]. by eapply app_ok_mono.
Qed.

Lemma closed_iff b a : app_ok b a → Prf.is_closed (prf a) = is_empty (goals a).
Proof.
  intros Ha. apply eq_true_iff_eq. rewrite Wf.is_closed_spec. split.
  - intros H. destruct (goals a) as [|[j d] gs] eqn:E; [done|]. exfalso.
    apply (H j), (ao_open b a Ha). rewrite E. left.
  - intros H j Hj%(ao_open b a Ha). destruct (goals a); [|done]. by apply elem_of_nil in Hj.
Qed.

Lemma to_grow_app gs gs' : to_grow (gs ++ gs') = to_grow gs + to_grow gs'.
Proof. unfold to_grow. by rewrite sum_list_with_app. Qed.

Lemma to_grow_same js d : to_grow (map (λ j, (j, d)) js) = length js * growth 0 g m (left_below d).
Proof. unfold to_grow. induction js as [|j js IH]; simpl in *; [done|]. by rewrite IH. Qed.

(** One application of the rule to the first goal. *)
Lemma newapp_ok b a j d gs news q d' :
  app_ok (b + 1) a → goals a = (j, d) :: gs → Forall (λ gd, gd.2 ≤ b)%Z (goals a) →
  (b ≤ Z.max 0 maxbound)%Z →
  abd_result_ok (K := K) (extends := extends) (prf a) (defs a) j g m ((news, q), d') →
  let a' := mkApp q (Z.max (depth a) (d + 1)) (map (λ j, (j, (d + 1)%Z)) news ++ gs) d' in
  app_ok (b + 1) a' ∧ is_Some (q !! j) ∧ app_lt a' a.
Proof.
  intros Ha Hg Hb Hmax (He & A & Hsz & Hlen) a'. simpl in *.
  pose proof (ao_goals _ _ Ha) as Hgs. pose proof (ao_nodup _ _ Ha) as Hnd.
  rewrite Hg in Hgs, Hb, Hnd. apply Forall_cons in Hgs as [Hd Hgs]. apply Forall_cons in Hb as [Hdb Hb].
  apply NoDup_cons in Hnd as [Hj Hnd]. simpl in *.
  assert (Wf.open_at (prf a) j) as Ho by (apply (ao_open _ _ Ha); rewrite Hg; left).
  assert (∀ k, k ∈ gs.*1 → Wf.open_at (prf a) k) as Hold.
  { intros k Hk. apply (ao_open _ _ Ha). rewrite Hg. by right. }
  assert ((map (λ j, (j, (d + 1)%Z)) news ++ gs).*1 = news ++ gs.*1) as Hfst.
  { rewrite fmap_app. f_equal. rewrite <-list_fmap_compose. apply list_fmap_id. }
  split; [|split].
  - split; simpl.
    + apply (app_good _ _ _ _ A).
    + etrans; [|exact He]. apply (ao_extends _ _ Ha).
    + apply (app_seq _ _ _ _ A), (ao_root _ _ Ha).
    + rewrite Hfst. apply NoDup_app. split; [apply (app_nodup _ _ _ _ A)|]. split; [|done].
      intros k Hk Hk'. destruct (app_new _ _ _ _ A k Hk) as [->|Hge]; [done|].
      apply Hold, open_lt in Hk'; [lia|]. exact (good_wf _ (ao_good _ _ Ha)).
    + intros k. rewrite Hfst, elem_of_app. split.
      * intros [Hk|[Hk Hne]]%(app_open _ _ _ _ A); [by left|]. apply (ao_open _ _ Ha) in Hk.
        rewrite Hg in Hk. apply elem_of_cons in Hk as [Hk|Hk]; [done|by right].
      * intros [Hk|Hk]; [by apply (app_subs _ _ _ _ A)|]. destruct (Hold k Hk) as (par & s & ds & Hp).
        exists par, s, ds. apply (app_keep _ _ _ _ A); [|done]. by intros ->.
    + apply Forall_app. split; [|eapply Forall_impl; [exact Hgs|]; simpl; lia].
      apply Forall_fmap, Forall_true. intros k. simpl. lia.
    + pose proof (ao_depth _ _ Ha). lia.
    + pose proof (ao_room _ _ Ha) as Hs. rewrite Hg in Hs. rewrite to_grow_app, to_grow_same.
      unfold to_grow at 1 in Hs. simpl in Hs. fold (to_grow gs) in Hs.
      assert (left_below d = S (left_below (d + 1))) as El by (unfold left_below; lia).
      rewrite El in Hs. simpl in Hs.
      assert (length news * growth 0 g m (left_below (d + 1)) ≤ m * growth 0 g m (left_below (d + 1)))
        by by apply Nat.mul_le_mono_r.
      lia.
  - destruct Ho as (par & s & ds & Hp).
    assert (Wf.seq_of q j = Some s) as (x & Hx & _)%fmap_Some; [|by exists x].
    apply (app_seq _ _ _ _ A). unfold Wf.seq_of. by rewrite Hp.
  - unfold app_lt, ranks. simpl. rewrite Hg, fmap_app. simpl. apply shrinks_cons; [|done].
    apply Forall_fmap, Forall_fmap, Forall_true. intros k. simpl. unfold left_below. lia.
Qed.

(** The checker is good, and [last_search_depth] is [d]. *)
Definition abd_inv (d : Z) (s : abduction St) : Prop :=
  inv (Prover.checker_state (search_state s)) ∧ Prover.last_search_depth (search_state s) = d.

Lemma returns_on_search {A} (c : X St A) s d (P : A → Prop) :
  abd_inv d s → returns c (Prover.checker_state (search_state s)) (λ a c', inv c' ∧ P a) →
  returns (on_search (Prover.on_checker c)) s (λ a s', abd_inv d s' ∧ P a).
Proof.
  intros [_ Hd] (a & c' & E & Hc & Ha). unfold on_search, Prover.on_checker.
  eexists a, _. rewrite E. split; [done|]. split; [|done]. by split.
Qed.

Lemma expand_ok b n a s d :
  app_ok (b + 1) a → goals a ≠ [] → Forall (λ gd, gd.2 ≤ b)%Z (goals a) →
  (b ≤ Z.max 0 maxbound)%Z → abd_inv d s →
  returns (expand_proof_state n a r) s (λ st s', abd_inv d s' ∧ state_ok (b + 1) st ∧
    Forall (λ a', app_lt a' a) (apps st)).
Proof.
  intros Ha Hne Hb Hmax Hs. unfold expand_proof_state. rewrite (closed_iff _ _ Ha).
  destruct (goals a) as [|[j dj] gs] eqn:Hg; [done|]. simpl. apply returns_bind, returns_ret.
  assert (Wf.open_at (prf a) j) as Ho by (apply (ao_open _ _ Ha); rewrite Hg; left).
  apply returns_bind. eapply returns_mono; [apply (returns_on_search _ _ d); [done|]|].
  - apply (Hr j (prf a) (defs a)); [apply (ao_good _ _ Ha)|done| |apply Hs].
    pose proof (ao_room _ _ Ha) as H. rewrite Hg in H. apply Forall_cons in Hb as [Hdj _].
    unfold to_grow in H. simpl in *.
    assert (left_below dj = S (left_below (dj + 1))) as El by (unfold left_below; lia).
    rewrite El in H. simpl in H. unfold room. lia.
  - intros news s1 [Hs1 Hnews]. eexists _, _. split; [reflexivity|]. split; [done|].
    assert (Forall (λ a', (app_ok (b + 1) a' ∧ is_Some (prf a' !! j)) ∧ app_lt a' a)
      (map (λ x, mkApp x.1.2 (Z.max (depth a) (dj + 1))
        (rev_append (rev (map (λ j, (j, (dj + 1)%Z)) x.1.1)) gs) x.2) news)) as Hall.
    { apply Forall_fmap. eapply Forall_impl; [exact Hnews|]. intros [[subs q] d'] Hx. simpl.
      rewrite rev_append_rev, rev_involutive.
      destruct (newapp_ok b a j dj gs subs q d' Ha Hg) as (H1 & H2 & H3); [by rewrite Hg|done|done|].
      by split. }
    apply Forall_and in Hall. exact Hall.
Qed.

Lemma pop_loop_sublist (acc : list (abd_proof_state D)) n l : pop_loop acc n l `sublist_of` rev acc ++ l.
Proof.
  revert acc n. induction l as [|p l IH]; intros acc n; simpl; [by rewrite app_nil_r|].
  destruct (_ =? _)%Z.
  - etrans; [apply IH|]. apply sublist_app; [done|]. by apply sublist_cons.
  - etrans; [apply IH|]. simpl. by rewrite <-app_assoc.
Qed.

(** All applications of a list of states. *)
Definition apps_of (l : list (abd_proof_state D)) : list (app_state D) := l ≫= apps.

Lemma apps_of_sublist l l' : l `sublist_of` l' → apps_of l `sublist_of` apps_of l'.
Proof.
  unfold apps_of. induction 1; simpl; [done| |]; [by apply sublist_app|by apply sublist_inserts_l].
Qed.

(** The applications that are still to be treated, in order. *)
Definition pending (frontier stack : list (abd_proof_state D)) : list (app_state D) :=
  apps_of (rev frontier) ++ apps_of stack.

Lemma pending_next frontier : pending [] (rev frontier) = pending frontier [].
Proof. unfold pending. simpl. by rewrite app_nil_r. Qed.

Lemma pending_stack frontier st stack :
  pending frontier (st :: stack) = apps_of (rev frontier) ++ apps st ++ apps_of stack.
Proof. done. Qed.

Lemma pending_frontier frontier st stack :
  pending (st :: frontier) stack = apps_of (rev frontier) ++ apps st ++ apps_of stack.
Proof. unfold pending, apps_of. simpl. rewrite bind_app. simpl. by rewrite app_nil_r, <-app_assoc. Qed.

Lemma pending_pop frontier st stack a as_ stack' new :
  apps st = a :: as_ → Forall (λ a', app_lt a' a) new →
  stack' `sublist_of` mkProofState (seq_no st) (par st) (idx st) as_ :: stack →
  shrinks app_lt (apps_of (rev frontier) ++ new ++ apps_of stack') (pending frontier (st :: stack)).
Proof.
  intros Hst Hnew Hsub. unfold pending. apply shrinks_app.
  replace (apps_of (st :: stack)) with (a :: as_ ++ apps_of stack) by (unfold apps_of; simpl; by rewrite Hst).
  apply shrinks_cons; [done|]. by apply apps_of_sublist in Hsub.
Qed.

Context (check : D → bool).

(** What the loop returns. *)
Definition found (d : Z) (o : option (Prf.t * Z * D)) (s : abduction St) : Prop :=
  abd_inv d s ∧ ∀ q dp d', o = Some (q, dp, d') →
    proves (K := K d') seq q ∧ extends d0 d' ∧ check d' = true ∧ (0 ≤ dp ≤ maxbound)%Z.

Definition ends (bound : Z) (frontier stack : list (abd_proof_state D)) (d : Z) (s : abduction St) :
    Prop :=
  ∃ n o s', (∀ fuel, n ≤ fuel → aux fuel maxbound r check bound frontier stack s = (Ok o, s')) ∧
    found d o s'.

Lemma ends_none bound frontier stack d s :
  ((maxbound <? bound)%Z || (is_empty stack && is_empty frontier)) = true → abd_inv d s →
  ends bound frontier stack d s.
Proof.
  intros H Hs. exists 0, None, s. split; [|by split]. intros fuel _. by destruct fuel; simpl; rewrite H.
Qed.

(** A round in which nothing is expanded. *)
Lemma ends_step bound frontier stack d s bound' frontier' stack' :
  (∀ fuel, (maxbound <? bound)%Z || (is_empty stack && is_empty frontier) = false →
     aux (S fuel) maxbound r check bound frontier stack s =
     aux fuel maxbound r check bound' frontier' stack' s) →
  abd_inv d s → ends bound' frontier' stack' d s → ends bound frontier stack d s.
Proof.
  intros Hstep Hs (n & o & s' & Hn & Ho).
  destruct ((maxbound <? bound)%Z || (is_empty stack && is_empty frontier)) eqn:E.
  { by apply ends_none. }
  exists (S n), o, s'. split; [|done]. intros [|fuel] Hf; [lia|]. rewrite Hstep by done. apply Hn. lia.
Qed.

(** A round that expands an application. *)
Lemma ends_expand bound frontier stack d s b n a F S' :
  (∀ fuel, (maxbound <? bound)%Z || (is_empty stack && is_empty frontier) = false →
     aux (S fuel) maxbound r check bound frontier stack s =
     (st ← expand_proof_state n a r; aux fuel maxbound r check bound (F st) (S' st)) s) →
  app_ok (b + 1) a → goals a ≠ [] → Forall (λ gd, gd.2 ≤ b)%Z (goals a) →
  (b ≤ Z.max 0 maxbound)%Z → abd_inv d s →
  (∀ st s', state_ok (b + 1) st → Forall (λ a', app_lt a' a) (apps st) → abd_inv d s' →
     ends bound (F st) (S' st) d s') →
  ends bound frontier stack d s.
Proof.
  intros Hstep Ha Hne Hb Hmax Hs IH.
  destruct ((maxbound <? bound)%Z || (is_empty stack && is_empty frontier)) eqn:E.
  { by apply ends_none. }
  destruct (expand_ok b n a s d Ha Hne Hb Hmax Hs) as (st & s' & Ex & Hs' & Hok & Hlt).
  destruct (IH st s' Hok Hlt Hs') as (k & o & s2 & Hk & Ho). exists (S k), o, s2. split; [|done].
  intros [|fuel] Hf; [lia|]. rewrite Hstep by done. unfold mbind, X_bind. rewrite Ex. apply Hk. lia.
Qed.

(** The asserts on an application of the stack hold. *)
Lemma asserts_ok b a : app_ok b a →
  (depth a <=? b)%Z = true ∧ forallb (λ gd, gd.2 <=? b)%Z (goals a) = true.
Proof.
  intros Ha. split; [pose proof (ao_depth _ _ Ha); lia|]. apply forallb_forall.
  intros [j d] Hin%list_elem_of_In. pose proof (ao_goals _ _ Ha) as H. rewrite Forall_forall in H.
  specialize (H _ Hin). simpl in *. lia.
Qed.

(** No goal at depth [b]: all are above. *)
Lemma goals_above b a : app_ok b a → existsb (λ gd, gd.2 =? b)%Z (goals a) = false →
  Forall (λ gd, gd.2 ≤ b - 1)%Z (goals a).
Proof.
  intros Ha He. apply Forall_forall. intros gd Hin. pose proof (ao_goals _ _ Ha) as H.
  rewrite Forall_forall in H. specialize (H gd Hin). simpl in H.
  assert (gd.2 ≠ b) as Hne; [|lia]. intros Heq.
  enough (existsb (λ gd, gd.2 =? b)%Z (goals a) = true) by congruence.
  apply existsb_exists. exists gd. split; [by apply list_elem_of_In|lia].
Qed.

(** The first application of the stack is [a]; the state without it is [st']. *)
Section first.
Variables (bound : Z) (frontier : list (abd_proof_state D)) (st : abd_proof_state D).
Variables (stack : list (abd_proof_state D)) (a : app_state D) (as_ : list (app_state D)).
Variables (d : Z) (s : abduction St).
Hypothesis Hmax : (bound ≤ maxbound)%Z.
Hypothesis Hst : apps st = a :: as_.
Hypothesis Ha : app_ok bound a.
Hypothesis Hs : abd_inv d s.

Let st' : abd_proof_state D := mkProofState (seq_no st) (par st) (idx st) as_.

(** It is a closed proof. *)
Lemma ends_closed : is_empty (goals a) = true →
  (check (defs a) = false → ends bound frontier (st' :: stack) d s) →
  ends bound frontier (st :: stack) d s.
Proof.
  intros Hempty IH. destruct (asserts_ok bound a Ha) as [Hdep Hgoals].
  pose proof (closed_iff bound a Ha) as Hcl. rewrite Hempty in Hcl.
  destruct (check (defs a)) eqn:Hchk.
  - exists 1, (Some (prf a, depth a, defs a)), s. split.
    { intros [|fuel] Hfuel; [lia|]. simpl. assert ((maxbound <? bound)%Z = false) as -> by lia.
      rewrite Hst. simpl. unfold mbind, X_bind, lift_res. by rewrite Hdep, Hgoals, Hempty, Hcl, Hchk. }
    split; [done|]. intros q dp d' [= <- <- <-].
    split; [split; [apply (ao_good _ _ Ha)|]; split; [done|apply (ao_root _ _ Ha)]|].
    split; [apply (ao_extends _ _ Ha)|]. split; [done|]. pose proof (ao_depth _ _ Ha). lia.
  - apply (ends_step _ _ _ _ _ bound frontier (st' :: stack)); [|done|by apply IH].
    intros fuel E. simpl in *. rewrite E, Hst. simpl. unfold mbind, X_bind, lift_res.
    by rewrite Hdep, Hgoals, Hempty, Hcl, Hchk.
Qed.

(** It has open goals: it is expanded, for this depth or for the next. *)
Lemma ends_open : is_Some (prf a !! idx st) → is_empty (goals a) = false →
  (∀ st2 s2, state_ok (bound + 1) st2 → Forall (λ a', app_lt a' a) (apps st2) → abd_inv d s2 →
     ends bound (st2 :: frontier) (st' :: stack) d s2) →
  (∀ st2 stack2 s2, stack2 `sublist_of` st' :: stack → state_ok bound st2 →
     Forall (λ a', app_lt a' a) (apps st2) → abd_inv d s2 →
     ends bound frontier (st2 :: stack2) d s2) →
  ends bound frontier (st :: stack) d s.
Proof.
  intros Hidx Hempty IHf IHs. destruct (asserts_ok bound a Ha) as [Hdep Hgoals].
  pose proof (closed_iff bound a Ha) as Hcl. rewrite Hempty in Hcl.
  assert (goals a ≠ []) as Hne by (by destruct (goals a)).
  destruct (existsb (λ gd, gd.2 =? bound)%Z (goals a)) eqn:Hex.
  - apply (ends_expand _ _ _ _ _ bound (seq_no st) a (λ st2, st2 :: frontier) (λ _, st' :: stack)); try done.
    + intros fuel E. simpl in *. rewrite E, Hst. simpl. unfold mbind, X_bind, lift_res.
      by rewrite Hdep, Hgoals, Hempty, Hcl, Hex.
    + eapply app_ok_mono; [|exact Ha]. lia.
    + eapply Forall_impl; [apply (ao_goals _ _ Ha)|]. simpl. lia.
    + lia.
  - destruct (is_closed_at_spec (prf a) (idx st)) as (closed & Hclosed & _).
    { exact (good_wf _ (ao_good _ _ Ha)). } { done. }
    set (stack2 := if closed then pop_parents (seq_no st) (st' :: stack) else st' :: stack).
    assert (stack2 `sublist_of` st' :: stack) as Hsub.
    { unfold stack2. destruct closed; [|done]. apply (pop_loop_sublist []). }
    assert (bound - 1 + 1 = bound)%Z as Hb by lia.
    apply (ends_expand _ _ _ _ _ (bound - 1) (seq_no st) a (λ _, frontier) (λ st2, st2 :: stack2));
      rewrite ?Hb; try done.
    + intros fuel E. simpl in *. rewrite E, Hst. simpl. unfold mbind, X_bind, lift_res.
      by rewrite Hdep, Hgoals, Hempty, Hcl, Hex, Hclosed.
    + by apply goals_above.
    + lia.
    + intros st2 s2. by apply IHs.
Qed.
End first.

(** The first application of the stack, given how the search ends after it. *)
Lemma ends_app bound frontier st stack a as_ d s :
  apps st = a :: as_ →
  Forall (state_ok (bound + 1)) frontier → Forall (state_ok bound) (st :: stack) → abd_inv d s →
  (∀ frontier' stack' s', Forall (state_ok (bound + 1)) frontier' → Forall (state_ok bound) stack' →
     shrinks app_lt (pending frontier' stack') (pending frontier (st :: stack)) →
     abd_inv d s' → ends bound frontier' stack' d s') →
  ends bound frontier (st :: stack) d s.
Proof.
  intros Hst Hf Hstk Hs IH. apply Forall_cons in Hstk as [Hok Hstk].
  destruct (decide (bound ≤ maxbound)%Z) as [Hmax|Hmax];
    [|apply ends_none; [|done]; apply orb_true_iff; left; lia].
  unfold state_ok in Hok at 1. rewrite Hst in Hok. apply Forall_cons in Hok as [[Ha Hidx] Hok].
  set (st' := mkProofState (seq_no st) (par st) (idx st) as_).
  assert (Forall (state_ok bound) (st' :: stack)) as Hstk' by by apply Forall_cons.
  destruct (is_empty (goals a)) eqn:Hempty.
  - apply (ends_closed _ _ _ _ a as_); [done..|]. intros _. apply IH; [done|done| |done].
    by apply (pending_pop frontier st stack a as_ (st' :: stack) [] Hst).
  - apply (ends_open _ _ _ _ a as_); [done..| |].
    + intros st2 s2 Hok2 Hlt2 Hs2. apply IH; [by apply Forall_cons|done| |done].
      rewrite pending_frontier. by apply (pending_pop _ _ _ a as_).
    + intros st2 stack2 s2 Hsub Hok2 Hlt2 Hs2.
      apply IH; [done|apply Forall_cons; split; [done|by eapply forall_sublist]| |done].
      rewrite pending_stack. by apply (pending_pop _ _ _ a as_).
Qed.

(** The loop ends: an application gives way to smaller ones, or the depth or
    the number of states that are used up changes. *)
Lemma aux_ok l : ∀ bound frontier stack d s,
  pending frontier stack = l →
  Forall (state_ok (bound + 1)) frontier → Forall (state_ok bound) stack → abd_inv d s →
  ends bound frontier stack d s.
Proof.
  induction (wf_shrinks app_lt wf_app_lt l) as [l _ IHl]. intros bound.
  remember (Z.to_nat (maxbound + 1 - bound)) as k eqn:Hk. revert bound Hk.
  induction k as [k IHk] using lt_wf_ind. intros bound -> frontier stack. revert frontier.
  induction stack as [|st stack IHs]; intros frontier d s Hl Hf Hst Hs.
  - destruct (decide (bound ≤ maxbound)%Z); [|apply ends_none; [apply orb_true_iff; left; lia|done]].
    apply (ends_step _ _ _ _ _ (bound + 1) [] (rev frontier)); [|done|].
    { intros fuel E. simpl in *. by rewrite E. }
    eapply IHk; [|done| |constructor| |done]; [lia|by rewrite pending_next|].
    by apply Forall_rev.
  - destruct (apps st) as [|a as_] eqn:Happs.
    + apply Forall_cons in Hst as [_ Hst]. apply (ends_step _ _ _ _ _ bound frontier stack); [|done|].
      { intros fuel E. simpl in *. by rewrite E, Happs. }
      apply IHs; [|done..]. by rewrite <-Hl, pending_stack, Happs.
    + eapply ends_app; [done..|]. intros frontier' stack' s' Hf' Hst' Hsh Hs'.
      eapply IHl; [|done..]. by rewrite <-Hl.
Qed.

(** The initial application. *)
Lemma start_ok : app_ok 1 (mkApp (Prf.mk seq) 0 [(0, 0)]%Z d0).
Proof.
  assert (Prf.mk seq !! 0%Z = Some (0%Z, Node.mk_open seq)) as H0 by apply lookup_insert_eq.
  split; simpl.
  - apply mk_good.
  - reflexivity.
  - unfold Wf.seq_of. by rewrite H0.
  - apply NoDup_singleton.
  - intros j. rewrite list_elem_of_singleton. split; [|intros ->; by exists 0%Z, seq, "(Open)"].
    intros (p & s & ds & Hj). unfold Prf.mk in Hj. by apply lookup_singleton_Some in Hj as [<- _].
  - by apply Forall_singleton.
  - done.
  - assert (size (Prf.mk seq) = 1) as ->.
    { unfold Prf.mk. by rewrite map_size_insert, lookup_empty, map_size_empty. }
    unfold to_grow. simpl.
    assert (left_below 0 = S (Z.to_nat maxbound)) as -> by (unfold left_below; lia). simpl in *. lia.
Qed.

(** [bfs] returns, the same with all fuel that is enough, and a proof it returns
    is one under the definitions. *)
Lemma bfs_ok s :
  inv (Prover.checker_state (search_state s)) →
  ∃ n o s', (∀ fuel, n ≤ fuel → bfs fuel maxbound r seq d0 check s = (Ok o, s')) ∧
    inv (Prover.checker_state (search_state s')) ∧
    match o with
    | Some (q, d) => proves (K := K d) seq q ∧ extends d0 d ∧ check d = true ∧
        (0 ≤ Prover.last_search_depth (search_state s') ≤ maxbound)%Z
    | None => Prover.last_search_depth (search_state s') =
        Prover.last_search_depth (search_state s)
    end.
Proof.
  intros Hs.
  destruct (expand_ok 0 0 (mkApp (Prf.mk seq) 0 [(0, 0)]%Z d0) s
    (Prover.last_search_depth (search_state s))) as (st & s1 & E & Hs1 & Hok & _);
    [apply start_ok|done|by apply Forall_singleton|lia|done|].
  destruct (aux_ok _ 1 [] [st] (Prover.last_search_depth (search_state s)) s1 eq_refl)
    as (n & o & s2 & Hn & [Hi Hd] & Ho); [constructor|by apply Forall_singleton|done|].
  destruct o as [[[q dp] d]|].
  - exists n, (Some (q, d)). eexists. split.
    + intros fuel Hf. unfold bfs, mbind, X_bind. rewrite E, Hn by done. reflexivity.
    + simpl. split; [done|]. by apply Ho.
  - exists n, None, s2. split; [|done]. intros fuel Hf. unfold bfs, mbind, X_bind. by rewrite E, Hn.
Qed.
End search.
