(* ===== verification/VarManager.v ===== *)
(** * Variables and tags: [varManager.ml], [tags.ml]

    Variables are hash-consed names: a variable is the integer the table gives to
    its name.  Names are free, bound or anonymous, by a classification that is a
    parameter of the module and has the one of tags as an instance.  Fresh
    variables come from the letters of an alphabet, then from the letters with
    the subscripts 1, 2 and so on. *)

From Stdlib Require Import Ascii.
From S2P Require Import Prelude Exn.

Module VarManager.

(** [Hashcons.Make]: the table that numbers the names. *)
Class Hashcons := {
  hashcons : string → Z;
  node : Z → string;
}.

Class HashconsLaws (H : Hashcons) : Prop := {
  node_hashcons s : node (hashcons s) = s;
}.

Inductive varname_class := FREE | BOUND | ANONYMOUS.

#[global] Instance varname_class_eq_dec : EqDecision varname_class.
Proof. solve_decision. Defined.

Fixpoint cyclic_permute_loop {A} (ls : list A) (n : nat) (acc : list A) {struct n} : list A :=
  match n with
  | O => ls ++ rev acc
  | S n =>
      match ls with
      | [] => rev acc
      | l :: ls => cyclic_permute_loop ls n (l :: acc)
      end
  end.

(** [mod] truncates, and raises [Division_by_zero]. *)
Definition cyclic_permute {A} (ls : list A) (n : Z) : res (list A) :=
  if decide (length ls = 0) then Err EExn
  else
    let n := Z.rem n (Z.of_nat (length ls)) in
    let n := if (n <? 0)%Z then (n + Z.of_nat (length ls))%Z else n in
    Ok (cyclic_permute_loop ls (Z.to_nat n) []).

Definition roman_alphabet : list string :=
  ["a"; "b"; "c"; "d"; "e"; "f"; "g"; "h"; "i"; "j"; "k"; "l"; "m"; "n"; "o";
   "p"; "q"; "r"; "s"; "t"; "u"; "v"; "w"; "x"; "y"; "z"].

Section manager.
Context {H : Hashcons}.
Context (seed : Z) (classify_varname : string → res varname_class) (alphabet : list string).

Definition anonymous : Z := hashcons "".

Definition mk (s : string) : res Z :=
  c ← classify_varname s;
  mret (if decide (c = ANONYMOUS) then anonymous else hashcons s).

Definition is_anonymous (v : Z) : bool := (v =? anonymous)%Z.

Definition is_exist_var (n : Z) : res bool :=
  if is_anonymous n then mret false
  else c ← classify_varname (node n); mret (bool_decide (c = BOUND)).

Definition is_free_var (n : Z) : res bool :=
  if is_anonymous n then mret false
  else c ← classify_varname (node n); mret (bool_decide (c = FREE)).

Definition var_name (lvl : nat) (n : string) : string :=
  match lvl with O => n | S _ => n +:+ "_" +:+ pretty lvl end.

Definition mk_var (free : bool) (lvl : nat) (acc : list Z) (n : string) : res (list Z) :=
  let n := var_name lvl n in
  v ← (if free then mk n else mk (n +:+ "'"));
  mret (v :: acc).

Definition mk_seg (letters : list string) (free : bool) (lvl : nat) : res (list Z) :=
  fold_left_res (mk_var free lvl) [] (rev letters).

Fixpoint search_list (s : gset Z) (acc : list Z) (vs : list Z) (n : nat) : option (list Z) :=
  match n with
  | O => Some (rev acc)
  | S n' =>
      match vs with
      | [] => None
      | v :: vs =>
          if decide (v ∈ s) then search_list s acc vs n else search_list s (v :: acc) vs n'
      end
  end.

Fixpoint search (fuel : nat) (letters : list string) (curr_lvl : nat) (fvars evars : list Z)
    (s : gset Z) (free : bool) (n : nat) : res (list Z) :=
  match search_list s [] (if free then fvars else evars) n with
  | Some vs => Ok vs
  | None =>
      match fuel with
      | O => Err EFuel
      | S fuel =>
          fseg ← mk_seg letters true curr_lvl;
          eseg ← mk_seg letters false curr_lvl;
          search fuel letters (S curr_lvl) (fvars ++ fseg) (evars ++ eseg) s free n
      end
  end.

(** Every level has a new name, so that as many levels as there are names to
    avoid or to find are enough. *)
Definition search_vars (vs : gset Z) (fresh : bool) (n : nat) : res (list Z) :=
  letters ← cyclic_permute alphabet seed;
  fvars ← mk_seg letters true 0;
  evars ← mk_seg letters false 0;
  search (size vs + n) letters 1 fvars evars vs fresh n.

Definition fresh_fvars (s : gset Z) (n : nat) : res (list Z) := search_vars s true n.
Definition fresh_evars (s : gset Z) (n : nat) : res (list Z) := search_vars s false n.

Definition hd_res {A} (l : list A) : res A := match l with [] => Err EExn | x :: _ => Ok x end.
Definition fresh_fvar (s : gset Z) : res Z := l ← fresh_fvars s 1; hd_res l.
Definition fresh_evar (s : gset Z) : res Z := l ← fresh_evars s 1; hd_res l.
End manager.

(** [Tags.classify_varname] *)
Definition classify_tag (s : string) : res varname_class :=
  let l := String.length s in
  assert_res (bool_decide (0 < l)) ;;
  mret (if bool_decide (1 < l) && bool_decide (String.get (l - 1) s = Some "'"%char)
        then BOUND else FREE).
End VarManager.

(** ** Names *)

Section names.
Import VarManager.

(** Without the character that precedes a subscript. *)
Fixpoint no_underscore (s : string) : bool :=
  match s with
  | EmptyString => true
  | String c s => negb (bool_decide (c = "_"%char)) && no_underscore s
  end.

Lemma split_underscore (l l' s s' : string) :
  no_underscore l = true → no_underscore l' = true →
  l +:+ "_" +:+ s = l' +:+ "_" +:+ s' → l = l' ∧ s = s'.
Proof.
  revert l'. induction l as [|c l IH]; intros [|c' l'] Hl Hl' Heq; simpl in *.
  - by injection Heq.
  - injection Heq as <- _. by rewrite bool_decide_true in Hl'.
  - injection Heq as -> _. by rewrite bool_decide_true in Hl.
  - injection Heq as -> Heq. apply andb_true_iff in Hl as [_ Hl], Hl' as [_ Hl'].
    by destruct (IH l' Hl Hl' Heq) as [-> ->].
Qed.

Lemma has_underscore l s : no_underscore (l +:+ "_" +:+ s) = false.
Proof.
  induction l as [|c l IH]; simpl; [done|]. rewrite IH. apply andb_false_r.
Qed.

Lemma var_name_inj k k' l l' : no_underscore l = true → no_underscore l' = true →
  var_name k l = var_name k' l' → k = k' ∧ l = l'.
Proof.
  intros Hl Hl'. destruct k as [|k], k' as [|k']; simpl; intros Heq.
  - done.
  - rewrite Heq, has_underscore in Hl. done.
  - rewrite <-Heq, has_underscore in Hl'. done.
  - destruct (split_underscore _ _ _ _ Hl Hl' Heq) as [-> Hs]. split; [by apply (inj pretty)|done].
Qed.

Lemma append_quote_inj (s s' : string) : s +:+ "'" = s' +:+ "'" → s = s'.
Proof.
  revert s'. induction s as [|c s IH]; intros [|c' s'] Heq; simpl in *; [done| | |].
  - injection Heq as _ Heq. by destruct s'.
  - injection Heq as _ Heq. by destruct s.
  - injection Heq as -> Heq. by rewrite (IH s').
Qed.

(** The last character of a name. *)
Lemma get_last (s : string) c : String.get (String.length (s +:+ String c "") - 1) (s +:+ String c "") = Some c.
Proof.
  induction s as [|c' s IH]; [done|]. simpl. rewrite Nat.sub_0_r.
  assert (String.length (s +:+ String c "") = S (String.length (s +:+ String c "") - 1)) as ->.
  { clear. induction s; simpl; lia. }
  simpl. exact IH.
Qed.

Lemma pretty_go_app x s t : pretty_N_go x (s +:+ t) = pretty_N_go x s +:+ t.
Proof.
  revert s. induction (N.lt_wf_0 x) as [x _ IH]. intros s.
  destruct (decide (x = 0%N)) as [->|Hx]; [by rewrite !pretty_N_go_0|].
  rewrite !(pretty_N_go_step x) by lia. rewrite <-(IH (x `div` 10)%N); [done|].
  apply N.div_lt; lia.
Qed.

Lemma pretty_last n : ∃ s c, pretty (S n) = s +:+ String c "" ∧ c ≠ "'"%char.
Proof.
  exists (pretty_N_go (N.of_nat (S n) `div` 10) ""), (pretty_N_char (N.of_nat (S n) `mod` 10)).
  split.
  - unfold pretty, pretty_nat, pretty, pretty_N. rewrite decide_False by done.
    rewrite pretty_N_go_step by lia. by rewrite <-(pretty_go_app _ "").
  - generalize (N.of_nat (S n) `mod` 10)%N. intros x. unfold pretty_N_char.
    repeat case_match; done.
Qed.

(** Two characters or more, the last one a quote. *)
Definition quoted (s : string) : bool :=
  bool_decide (1 < String.length s) &&
  bool_decide (String.get (String.length s - 1) s = Some "'"%char).

(** A letter of an alphabet for tags. *)
Definition is_letter (s : string) : bool :=
  no_underscore s && bool_decide (0 < String.length s) && negb (quoted s).

Lemma append_assoc' (a b c : string) : (a +:+ b) +:+ c = a +:+ (b +:+ c).
Proof. induction a as [|x a IH]; [done|]. exact (f_equal (String x) IH). Qed.

Lemma classify_tag_ok s : 0 < String.length s →
  classify_tag s = Ok (if quoted s then BOUND else FREE).
Proof.
  intros Hs. unfold classify_tag. cbv zeta.
  by rewrite (bool_decide_true (0 < String.length s)).
Qed.

Lemma length_snoc (s : string) c : String.length (s +:+ String c "") = S (String.length s).
Proof. induction s as [|c' s IH]; [done|]. simpl. by rewrite <-IH. Qed.

Lemma quoted_snoc s c : quoted (s +:+ String c "") = bool_decide (0 < String.length s ∧ c = "'"%char).
Proof.
  unfold quoted. rewrite get_last, length_snoc. apply eq_true_iff_eq.
  rewrite andb_true_iff, !bool_decide_eq_true. split; [intros [? [= ->]]|intros [? ->]]; split; auto; lia.
Qed.

Lemma classify_letter k l : is_letter l = true →
  classify_tag (var_name k l) = Ok FREE ∧ classify_tag (var_name k l +:+ "'") = Ok BOUND.
Proof.
  unfold is_letter. rewrite !andb_true_iff, negb_true_iff. intros [[_ Hl%bool_decide_eq_true] Hlast].
  assert (0 < String.length (var_name k l)) as Hlen by (destruct k, l; simpl in *; lia).
  split; rewrite classify_tag_ok; [|done| |rewrite length_snoc; lia].
  - destruct k as [|k]; [unfold var_name; by rewrite Hlast|].
    destruct (pretty_last k) as (s & c & Hp & Hc). unfold var_name. rewrite Hp.
    assert (l +:+ "_" +:+ (s +:+ String c "") = (l +:+ "_" +:+ s) +:+ String c "") as ->
      by by rewrite append_assoc'.
    by rewrite quoted_snoc, bool_decide_false by naive_solver.
  - by rewrite quoted_snoc, bool_decide_true by done.
Qed.
End names.

(** ** Fresh variables *)

Section fresh.
Import VarManager.
Context {H : Hashcons} {HL : HashconsLaws H}.
Context (seed : Z) (classify : string → res varname_class) (alphabet : list string).

(** Letters from which distinct free and bound names can be made. *)
Record alphabet_ok : Prop := {
  al_ne : alphabet ≠ [];
  al_nodup : NoDup alphabet;
  al_plain l : l ∈ alphabet → no_underscore l = true ∧ l ≠ "";
  al_class k l : l ∈ alphabet →
    classify (var_name k l) = Ok FREE ∧ classify (var_name k l +:+ "'") = Ok BOUND;
}.
Hypothesis Hal : alphabet_ok.

Lemma cyclic_permute_loop_perm {A} (ls : list A) n acc : cyclic_permute_loop ls n acc ≡ₚ ls ++ acc.
Proof.
  revert ls acc. induction n as [|n IH]; intros ls acc; simpl.
  - apply Permutation_app_head. symmetry. apply Permutation_rev.
  - destruct ls as [|l ls]; [symmetry; apply Permutation_rev|]. rewrite IH.
    symmetry. apply Permutation_middle.
Qed.

Lemma cyclic_permute_perm {A} (ls : list A) n : ls ≠ [] → ∃ ls', cyclic_permute ls n = Ok ls' ∧ ls' ≡ₚ ls.
Proof.
  intros Hne. unfold cyclic_permute. rewrite decide_False by by destruct ls.
  eexists. split; [done|]. by rewrite cyclic_permute_loop_perm, app_nil_r.
Qed.

(** The name that is made of a letter. *)
Definition full_name (free : bool) (k : nat) (l : string) : string :=
  if free then var_name k l else var_name k l +:+ "'".

Lemma full_name_inj free k k' l l' : l ∈ alphabet → l' ∈ alphabet →
  full_name free k l = full_name free k' l' → k = k' ∧ l = l'.
Proof.
  intros [Hl _]%(al_plain Hal) [Hl' _]%(al_plain Hal). destruct free; simpl.
  - by apply var_name_inj.
  - intros Heq%append_quote_inj. by apply var_name_inj.
Qed.

Definition segment (letters : list string) (free : bool) (k : nat) : list Z :=
  (λ l, hashcons (full_name free k l)) <$> letters.

Lemma hashcons_inj s s' : hashcons s = hashcons s' → s = s'.
Proof. intros Heq. by rewrite <-(node_hashcons s), Heq, node_hashcons. Qed.

Lemma mk_var_ok free k acc l : l ∈ alphabet →
  mk_var classify free k acc l = Ok (hashcons (full_name free k l) :: acc).
Proof.
  intros Hl. destruct (al_class Hal k l Hl) as [Hf Hb]. unfold mk_var, mk.
  destruct free; unfold mbind, res_bind; [by rewrite Hf|by rewrite Hb].
Qed.

Lemma mk_seg_ok letters free k : letters ⊆ alphabet →
  mk_seg classify letters free k = Ok (segment letters free k).
Proof.
  intros Hsub. unfold mk_seg.
  assert (∀ ls acc, ls ⊆ alphabet → fold_left_res (mk_var classify free k) acc ls =
    Ok (rev (segment ls free k) ++ acc)) as Hf.
  { induction ls as [|l ls IH]; intros acc Hls; [done|]. simpl. rewrite mk_var_ok by (apply Hls; left).
    unfold mbind, res_bind. rewrite IH; [|set_solver]. by rewrite <-app_assoc. }
  rewrite Hf, app_nil_r.
  - unfold segment. rewrite <-(map_rev _ (rev letters)), rev_involutive. done.
  - intros l Hl. apply Hsub. by apply list_elem_of_In, in_rev, list_elem_of_In.
Qed.

Section letters.
Context (letters : list string).
Hypothesis Hperm : letters ≡ₚ alphabet.

(** The names of the levels below [k]. *)
Fixpoint below (free : bool) (k : nat) : list Z :=
  match k with O => [] | S k => below free k ++ segment letters free k end.

Lemma elem_of_below free k v :
  v ∈ below free k ↔ ∃ j l, j < k ∧ l ∈ alphabet ∧ v = hashcons (full_name free j l).
Proof.
  induction k as [|k IH]; simpl; [split; [by intros ?%elem_of_nil|intros (? & ? & ? & _); lia]|].
  unfold segment. rewrite elem_of_app, IH, list_elem_of_fmap. setoid_rewrite Hperm. split.
  - intros [(j & l & Hj & Hl)|(l & -> & Hl)]; [exists j, l|exists k, l]; split; auto; lia.
  - intros (j & l & Hj & Hl & ->). destruct (decide (j = k)) as [->|]; [right; by exists l|].
    left. exists j, l. split; [lia|done].
Qed.

Lemma below_nodup free k : NoDup (below free k).
Proof.
  induction k as [|k IH]; simpl; [constructor|]. apply NoDup_app. split; [done|]. split.
  - intros v (j & l & Hj & Hl & ->)%elem_of_below (l' & Heq & Hl')%list_elem_of_fmap.
    rewrite Hperm in Hl'. apply hashcons_inj, full_name_inj in Heq as [-> _]; [lia|done|done].
  - apply NoDup_fmap_2_strong; [|rewrite Hperm; apply (al_nodup Hal)].
    intros l l' Hl Hl' Heq. rewrite Hperm in Hl, Hl'. by apply hashcons_inj, full_name_inj in Heq as [_ ->].
Qed.

Lemma below_length free k : k ≤ length (below free k).
Proof.
  induction k as [|k IH]; simpl; [lia|]. unfold segment. rewrite length_app, length_fmap, Hperm.
  pose proof (al_ne Hal). destruct alphabet; [done|simpl; lia].
Qed.

Lemma search_list_spec (s : gset Z) acc vs n : search_list s acc vs n =
  if decide (n ≤ length (filter (λ v, v ∉ s) vs))
  then Some (rev acc ++ take n (filter (λ v, v ∉ s) vs)) else None.
Proof.
  revert acc n. induction vs as [|v vs IH]; intros acc [|n]; simpl.
  - by rewrite app_nil_r.
  - done.
  - by rewrite take_0, app_nil_r.
  - rewrite filter_cons. destruct (decide (v ∈ s)) as [Hv|Hv].
    + rewrite (decide_False (P := v ∉ s)) by tauto. apply IH.
    + rewrite (decide_True (P := v ∉ s)) by done. rewrite IH. simpl. rewrite <-app_assoc. simpl.
      destruct (decide (n ≤ _)), (decide (S n ≤ _)); done || lia.
Qed.

(** At most as many names are taken as there are variables to avoid. *)
Lemma many_free (s : gset Z) (vs : list Z) : NoDup vs →
  length vs ≤ size s + length (filter (λ v, v ∉ s) vs).
Proof.
  intros Hnd. rewrite <-(Permutation_length (filter_app_complement (λ v, v ∈ s) vs)), length_app.
  assert (length (filter (λ v, v ∈ s) vs) ≤ size s); [|lia].
  unfold size, set_size. apply submseteq_length, NoDup_submseteq; [by apply NoDup_filter|].
  intros v [Hv _]%list_elem_of_filter. by apply elem_of_elements.
Qed.

Lemma search_ok fuel k (s : gset Z) free n : size s + n ≤ fuel + k →
  ∃ l, search classify fuel letters k (below true k) (below false k) s free n = Ok l ∧
    length l = n ∧ NoDup l ∧ (∀ v, v ∈ l → (v ∉ s) ∧ ∃ j, v ∈ below free j).
Proof.
  revert k. induction fuel as [|fuel IH]; intros k Hf; simpl;
    (assert ((if free then below true k else below false k) = below free k) as -> by by destruct free);
    rewrite search_list_spec; simpl;
    pose proof (many_free s (below free k) (below_nodup free k));
    pose proof (below_length free k); case_decide as Hd; [|lia| |].
  1, 2: exists (take n (filter (λ v, v ∉ s) (below free k))); split; [done|];
    (split; [rewrite length_take; lia|]); split;
    [apply (sublist_NoDup _ (filter (λ v, v ∉ s) (below free k)));
      [apply NoDup_filter, below_nodup|apply sublist_take]|];
    intros v Hv%elem_of_take; destruct Hv as (i & Hv%list_elem_of_lookup_2%list_elem_of_filter & _);
    destruct Hv as [? ?]; split; [done|by exists k].
  assert (letters ⊆ alphabet) as Hsub by (intros l; by rewrite Hperm).
  rewrite !mk_seg_ok by done. unfold mbind, res_bind. apply (IH (S k)). lia.
Qed.
End letters.

(** As many variables as asked for, distinct, none to be avoided, all of the
    class asked for. *)
Lemma search_vars_ok (s : gset Z) (free : bool) (n : nat) :
  ∃ l, search_vars seed classify alphabet s free n = Ok l ∧ length l = n ∧ NoDup l ∧
    (∀ v, v ∈ l → (v ∉ s) ∧
      (if free then is_free_var classify v else is_exist_var classify v) = Ok true).
Proof.
  destruct (cyclic_permute_perm alphabet seed (al_ne Hal)) as (letters & Hl & Hperm).
  assert (letters ⊆ alphabet) as Hsub by (intros l; by rewrite Hperm).
  unfold search_vars. rewrite Hl. unfold mbind at 1, res_bind at 1.
  rewrite !mk_seg_ok by done. unfold mbind, res_bind.
  destruct (search_ok letters Hperm (size s + n) 1 s free n) as (l & Hs & Hlen & Hnd & Hin); [lia|].
  exists l. split; [exact Hs|]. split; [done|]. split; [done|]. intros v Hv.
  destruct (Hin v Hv) as [Hvs (k & (j & x & _ & Hx & ->)%(elem_of_below letters Hperm))].
  split; [done|]. destruct (al_class Hal j x Hx) as [Hf Hb]. destruct (al_plain Hal x Hx) as [_ Hne].
  assert (is_anonymous (hashcons (full_name free j x)) = false) as Ha.
  { unfold is_anonymous, anonymous. apply Z.eqb_neq. intros Heq%hashcons_inj.
    by destruct free, j, x. }
  destruct free; [unfold is_free_var|unfold is_exist_var]; rewrite Ha, node_hashcons; simpl;
    unfold mbind, res_bind; [by rewrite Hf|by rewrite Hb].
Qed.
End fresh.

(** The alphabets for tags. *)
Lemma tag_alphabet (alphabet : list string) :
  alphabet ≠ [] → NoDup alphabet → Forall (λ l, is_letter l = true) alphabet →
  alphabet_ok VarManager.classify_tag alphabet.
Proof.
  intros Hne Hnd Hl. rewrite Forall_forall in Hl. split; [done|done| |].
  - intros l Hin. specialize (Hl l Hin). unfold is_letter in Hl.
    apply andb_true_iff in Hl as [[H1 H2%bool_decide_eq_true]%andb_true_iff _]. split; [done|].
    intros ->. simpl in H2. lia.
  - intros k l Hin. by apply classify_letter, Hl.
Qed.

(** The encoding of strings as a table of names. *)
#[export] Instance encoded_names : VarManager.Hashcons := {|
  VarManager.hashcons s := Z.pos (encode s);
  VarManager.node v := default "" (decode (Z.to_pos v));
|}.

#[export] Instance encoded_names_laws : VarManager.HashconsLaws encoded_names.
Proof. split. intros s. change (default "" (decode (encode s)) = s). by rewrite decode_encode. Qed.
