(* ===== verification/TagPairs.v ===== *)
(** * Sets of tag pairs: [tagpairs.ml]

    Relations between the tags of two sequents, and substitutions of tags, which
    are relations that are functions.  A set of pairs is iterated in increasing
    order.  Fresh tags come from [VarManager]. *)

From S2P Require Import Prelude Exn Spot ProofGraph Gtc ProofAut Trace Soundness.
From S2P Require Import SoundnessSpec Soundcheck Minimize MinimizeProofs VarManager.

Module TagPairs.

Definition mk (s : gset Z) : tagpairs := foldl (λ p i, {[(i, i)]} ∪ p) ∅ (ints s).

Definition compose (t1 t2 : tagpairs) : tagpairs :=
  foldl (λ a xy, foldl (λ b wz,
    if decide (xy.2 = wz.1) then {[(xy.1, wz.2)]} ∪ b else b) a (pairs t2)) ∅ (pairs t1).

(** [Treeset.map_to] *)
Definition projectl (tp : tagpairs) : gset Z := foldl (λ s p, {[p.1]} ∪ s) ∅ (pairs tp).
Definition projectr (tp : tagpairs) : gset Z := foldl (λ s p, {[p.2]} ∪ s) ∅ (pairs tp).
Definition reflect (tps : tagpairs) : tagpairs := foldl (λ s p, {[(p.2, p.1)]} ∪ s) ∅ (pairs tps).

(** [choose] is unspecified; on a singleton it is the element. *)
Definition dest_singleton (tps : tagpairs) : option (Z * Z) :=
  match pairs tps with [p] => Some p | _ => None end.

(** [Treeset.find] with its exception caught *)
Definition apply_to_tag (tps : tagpairs) (t : Z) : Z :=
  match find_opt (λ p, t =? p.1)%Z (pairs tps) with Some p => p.2 | None => t end.

Definition strip (tps : tagpairs) : tagpairs := filter (λ p, p.1 ≠ p.2) tps.

Definition flatten (tps : tagpairs) : gset Z :=
  foldl (λ ts p, {[p.2]} ∪ ({[p.1]} ∪ ts)) ∅ (pairs tps).

(** [Blist.combine] raises on lists of different lengths. *)
Definition mk_subst (avoid ts : gset Z) (fresh_vars : gset Z → nat → res (list Z)) : res tagpairs :=
  ts' ← fresh_vars (ts ∪ avoid) (size ts);
  l ← map2 pair (ints ts) ts';
  mret (list_to_set l).

Section tags.
Context {H : VarManager.Hashcons} (alphabet : list string).

Definition mk_free_subst (avoid ts : gset Z) : res tagpairs :=
  mk_subst avoid ts (VarManager.fresh_fvars 0 VarManager.classify_tag alphabet).

Definition mk_ex_subst (avoid ts : gset Z) : res tagpairs :=
  mk_subst avoid ts (VarManager.fresh_evars 0 VarManager.classify_tag alphabet).

Definition partition_subst (theta : tagpairs) : res (tagpairs * tagpairs) :=
  fold_left_res (λ ab tp,
    l ← VarManager.is_free_var VarManager.classify_tag tp.1;
    r ← VarManager.is_free_var VarManager.classify_tag tp.2;
    mret (if l && r then ({[tp]} ∪ ab.1, ab.2) else (ab.1, {[tp]} ∪ ab.2))) (∅, ∅) (pairs theta).
End tags.
End TagPairs.

(** ** What the operations compute *)

Section specs.
Import TagPairs.

Lemma elem_of_foldl_union {A B} `{Countable B} (f : A → B) (l : list A) (s : gset B) x :
  x ∈ foldl (λ s a, {[f a]} ∪ s) s l ↔ x ∈ s ∨ ∃ a, a ∈ l ∧ x = f a.
Proof. revert s. induction l as [|a l IH]; intros s; simpl; [|rewrite IH]; set_solver. Qed.

Lemma elem_of_mk s t u : (t, u) ∈ mk s ↔ t ∈ s ∧ u = t.
Proof. unfold mk. rewrite elem_of_foldl_union. setoid_rewrite elem_of_ints. set_solver. Qed.

Lemma elem_of_tp_compose t1 t2 x z : (x, z) ∈ compose t1 t2 ↔ ∃ y, (x, y) ∈ t1 ∧ (y, z) ∈ t2.
Proof. apply elem_of_compose. Qed.

Lemma elem_of_projectl tp t : t ∈ projectl tp ↔ ∃ u, (t, u) ∈ tp.
Proof.
  unfold projectl. rewrite elem_of_foldl_union. setoid_rewrite elem_of_pairs.
  split; [intros [?|([a b] & Hab & ->)]; [set_solver|by exists b]|].
  intros [u Hu]. right. by exists (t, u).
Qed.

Lemma elem_of_projectr tp u : u ∈ projectr tp ↔ ∃ t, (t, u) ∈ tp.
Proof.
  unfold projectr. rewrite elem_of_foldl_union. setoid_rewrite elem_of_pairs.
  split; [intros [?|([a b] & Hab & ->)]; [set_solver|by exists a]|].
  intros [t Ht]. right. by exists (t, u).
Qed.

Lemma elem_of_reflect tp t u : (t, u) ∈ reflect tp ↔ (u, t) ∈ tp.
Proof.
  unfold reflect. rewrite elem_of_foldl_union. setoid_rewrite elem_of_pairs.
  split; [intros [?|([a b] & Hab & [= -> ->])]; [set_solver|done]|].
  intros Ht. right. by exists (u, t).
Qed.

Lemma elem_of_flatten tp t : t ∈ flatten tp ↔ t ∈ projectl tp ∨ t ∈ projectr tp.
Proof.
  rewrite elem_of_projectl, elem_of_projectr. unfold flatten.
  assert (∀ l (s : gset Z), t ∈ foldl (λ ts p, {[p.2]} ∪ ({[p.1]} ∪ ts)) s l ↔
    t ∈ s ∨ ∃ p : Z * Z, p ∈ l ∧ (t = p.1 ∨ t = p.2)) as Hl.
  { induction l as [|p l IH]; intros s; simpl; [|rewrite IH]; set_solver. }
  rewrite Hl. setoid_rewrite elem_of_pairs. split.
  - intros [?|([a b] & Hab & [-> | ->])]; [set_solver|left; by exists b|right; by exists a].
  - intros [[u Hu]|[u Hu]]; right; eexists; (split; [exact Hu|]); simpl; auto.
Qed.

Lemma find_opt_none {A} (f : A → bool) l : find_opt f l = None → ∀ x, x ∈ l → f x = false.
Proof.
  induction l as [|y l IH]; simpl; [set_solver|]. destruct (f y) eqn:E; [done|].
  intros Hn x [->|Hx]%elem_of_cons; auto.
Qed.

(** A substitution. *)
Definition functional (tp : tagpairs) : Prop := ∀ t u u', (t, u) ∈ tp → (t, u') ∈ tp → u = u'.

Lemma apply_to_tag_in tp t u : functional tp → (t, u) ∈ tp → apply_to_tag tp t = u.
Proof.
  intros Hf Htu. unfold apply_to_tag. destruct (find_opt _ _) as [[t' u']|] eqn:E.
  - apply find_opt_some in E as [Hin ->%Z.eqb_eq]. apply (Hf t'); [by apply elem_of_pairs|done].
  - apply elem_of_pairs in Htu. pose proof (find_opt_none _ _ E _ Htu) as Hne. simpl in Hne. lia.
Qed.

Lemma apply_to_tag_out tp t : t ∉ projectl tp → apply_to_tag tp t = t.
Proof.
  intros Ht. unfold apply_to_tag. destruct (find_opt _ _) as [[t' u']|] eqn:E; [|done].
  apply find_opt_some in E as [Hin ->%Z.eqb_eq]. destruct Ht. apply elem_of_projectl.
  exists u'. by apply elem_of_pairs.
Qed.

Lemma map2_pair {A B} (l : list A) (k : list B) : length l = length k → map2 pair l k = Ok (zip l k).
Proof.
  revert k. induction l as [|x l IH]; intros [|y k] Hlen; try done. simpl.
  by rewrite IH by (simpl in *; lia).
Qed.

Lemma length_ints (s : gset Z) : length (ints s) = size s.
Proof. unfold ints. by rewrite merge_sort_Permutation. Qed.

(** A substitution to fresh tags renames one to one. *)
Lemma mk_subst_ok avoid ts fresh l :
  fresh (ts ∪ avoid) (size ts) = Ok l → length l = size ts → NoDup l →
  (∀ v, v ∈ l → v ∉ ts ∪ avoid) →
  ∃ theta, mk_subst avoid ts fresh = Ok theta ∧ projectl theta = ts ∧
    functional theta ∧ functional (reflect theta) ∧ size (projectr theta) = size ts ∧
    ∀ u, u ∈ projectr theta ↔ u ∈ l.
Proof.
  intros Hf Hlen Hnd Hfresh.
  assert (∀ t u, (t, u) ∈ (list_to_set (zip (ints ts) l) : tagpairs) ↔
    ∃ i, ints ts !! i = Some t ∧ l !! i = Some u) as Hin.
  { intros t u. rewrite elem_of_list_to_set, list_elem_of_lookup. setoid_rewrite lookup_zip_with_Some.
    split; [intros (i & ? & ? & [= <- <-] & ? & ?); by exists i|intros (i & ? & ?); by exists i, t, u]. }
  assert (∀ u, u ∈ projectr (list_to_set (zip (ints ts) l)) ↔ u ∈ l) as Hr.
  { intros u. rewrite elem_of_projectr. setoid_rewrite Hin. split.
    - intros (t & i & _ & Hi). by eapply list_elem_of_lookup_2.
    - intros [i Hi]%list_elem_of_lookup.
      destruct (lookup_lt_is_Some_2 (ints ts) i) as [t Ht]; [|by exists t, i].
      rewrite length_ints, <-Hlen. by eapply lookup_lt_Some. }
  exists (list_to_set (zip (ints ts) l)). split.
  { unfold mk_subst. rewrite Hf. unfold mbind, res_bind. by rewrite map2_pair by by rewrite length_ints. }
  split; [|split; [|split; [|split]]].
  - apply set_eq. intros t. rewrite elem_of_projectl. setoid_rewrite Hin. rewrite <-elem_of_ints. split.
    + intros (u & i & Hi & _). by eapply list_elem_of_lookup_2.
    + intros [i Hi]%list_elem_of_lookup. destruct (lookup_lt_is_Some_2 l i) as [u Hu]; [|by exists u, i].
      rewrite Hlen, <-length_ints. by eapply lookup_lt_Some.
  - intros t u u' (i & Hi & Hu)%Hin (j & Hj & Hu')%Hin.
    rewrite (NoDup_lookup _ _ _ _ (NoDup_ints ts) Hi Hj) in Hu. congruence.
  - intros u t t' (i & Hi & Hu)%elem_of_reflect%Hin (j & Hj & Hu')%elem_of_reflect%Hin.
    rewrite (NoDup_lookup _ _ _ _ Hnd Hu Hu') in Hi. congruence.
  - rewrite <-Hlen. rewrite <-(size_list_to_set (C := gset Z) l Hnd). f_equal. apply set_eq.
    intros u. by rewrite Hr, elem_of_list_to_set.
  - done.
Qed.

(** Renaming and back. *)
Lemma apply_reflect theta t : functional theta → functional (reflect theta) →
  t ∉ projectr theta → apply_to_tag (reflect theta) (apply_to_tag theta t) = t.
Proof.
  intros Hf Hr Ht. destruct (decide (t ∈ projectl theta)) as [[u Hu]%elem_of_projectl|Hn].
  - rewrite (apply_to_tag_in _ _ _ Hf Hu). apply apply_to_tag_in; [done|]. by apply elem_of_reflect.
  - rewrite (apply_to_tag_out theta) by done. apply apply_to_tag_out.
    rewrite elem_of_projectl. intros [u Hu]. rewrite elem_of_reflect in Hu.
    apply Ht, elem_of_projectr. by exists u.
Qed.
End specs.
