(* ===== verification/SeqTactics.v ===== *)
(** * Tactics on sequents: [seqtactics.ml]

    A tactic takes a sequent to the ways of deriving it: each a list of premises
    with their tag pairs, and a description.  They are combined before the prover
    sees them as inference rules, so the tag pairs of steps that are put together
    are composed here. *)

From S2P Require Import Prelude Exn Spot ProofGraph Gtc ProofAut Trace Soundness.
From S2P Require Import SoundnessSpec Soundcheck Minimize MinimizeProofs ProofNode CyclicProof.
From S2P Require Import ProofInvariant ProofQueries ProofSound Descent ProofRule RuleContract TagPairs.

(** ** [Blist.choose] *)

Section choose.
Context {A : Type}.

(** The lists, every second one reversed, in reverse order. *)
Definition choose_order (lol : list (list A)) : list (list A) :=
  (foldl (λ ra l, (negb ra.1, (if ra.1 : bool then rev l else l) :: ra.2)) (true, []) lol).2.

Definition choose_step (ll : list (list A)) (l : list A) : list (list A) :=
  foldl (λ tl e, foldl (λ t l, (e :: l) :: t) tl ll) [] l.

Definition choose (lol : list (list A)) : list (list A) :=
  foldl choose_step [[]] (choose_order lol).

Lemma elem_of_choose_fold (e : A) ll (tl : list (list A)) x :
  x ∈ foldl (λ t l, (e :: l) :: t) tl ll ↔ x ∈ tl ∨ ∃ l, l ∈ ll ∧ x = e :: l.
Proof. revert tl. induction ll as [|l ll IH]; intros tl; simpl; [|rewrite IH]; set_solver. Qed.

Lemma elem_of_choose_step ll l x : x ∈ choose_step ll l ↔ ∃ e k, e ∈ l ∧ k ∈ ll ∧ x = e :: k.
Proof.
  unfold choose_step.
  assert (∀ tl, x ∈ foldl (λ tl e, foldl (λ t l, (e :: l) :: t) tl ll) tl l ↔
    x ∈ tl ∨ ∃ e k, e ∈ l ∧ k ∈ ll ∧ x = e :: k) as H; [|rewrite H; set_solver].
  induction l as [|e l IH]; intros tl; simpl; [set_solver|].
  rewrite IH, elem_of_choose_fold. set_solver.
Qed.

Lemma rev_reverse {B} (l : list B) : rev l = reverse l.
Proof. apply rev_alt. Qed.

(** The order of choices apart, the lists in reverse. *)
Lemma choose_order_rev lol :
  Forall2 (λ l k, ∀ x : A, x ∈ l ↔ x ∈ k) (choose_order lol) (reverse lol).
Proof.
  unfold choose_order, reverse.
  assert (∀ r acc acc', Forall2 (λ l k, ∀ x : A, x ∈ l ↔ x ∈ k) acc acc' →
    Forall2 (λ l k, ∀ x : A, x ∈ l ↔ x ∈ k)
      (foldl (λ ra l, (negb ra.1, (if ra.1 : bool then rev l else l) :: ra.2)) (r, acc) lol).2
      (rev_append lol acc')) as H; [|by apply H].
  induction lol as [|l lol IH]; intros r acc acc' Hacc; simpl; [done|]. apply IH.
  constructor; [|done]. intros x. destruct r; [|done]. rewrite rev_reverse. apply elem_of_reverse.
Qed.

Lemma elem_of_choose_steps (lol acc : list (list A)) x :
  x ∈ foldl choose_step acc lol ↔ ∃ pre k, x = pre ++ k ∧ k ∈ acc ∧ Forall2 (∈) pre (reverse lol).
Proof.
  revert acc. induction lol as [|l lol IH]; intros acc; simpl.
  - split; [intros Hx; by exists [], x|]. intros (pre & k & -> & Hk & ->%Forall2_nil_inv_r). done.
  - rewrite IH. setoid_rewrite reverse_cons. split.
    + intros (pre & k & -> & (e & k' & He & Hk & ->)%elem_of_choose_step & Hpre).
      exists (pre ++ [e]), k'. rewrite <-app_assoc. split; [done|]. split; [done|].
      apply Forall2_app; [done|by repeat constructor].
    + intros (pre & k & -> & Hk & (pre' & es & Hpre & Hes & ->)%Forall2_app_inv_r).
      apply Forall2_cons_inv_r in Hes as (e & es' & He & ->%Forall2_nil_inv_r & ->).
      exists pre', (e :: k). rewrite <-app_assoc. split; [done|]. split; [|done].
      apply elem_of_choose_step. by exists e, k.
Qed.

(** Exactly the lists that choose one element of each list. *)
Lemma elem_of_choose lol k : k ∈ choose lol ↔ Forall2 (∈) k lol.
Proof.
  unfold choose. rewrite elem_of_choose_steps.
  pose proof (choose_order_rev lol) as H%Forall2_reverse. rewrite reverse_involutive in H.
  transitivity (Forall2 (∈) k (reverse (choose_order lol))).
  - split; [|intros; exists k, []; rewrite app_nil_r; split; [done|]; split; [left|done]].
    intros (pre & ? & -> & ->%list_elem_of_singleton & Hpre). by rewrite app_nil_r.
  - revert k H. generalize (reverse (choose_order lol)). intros l k H. revert k.
    induction H as [|l1 l2 ls1 ls2 Hl _ IH]; intros k; [done|].
    split; intros (e & k' & He & Hk & ->)%Forall2_cons_inv_r;
      (constructor; [by apply Hl|by apply IH]).
Qed.
End choose.

Module SeqTactics.
Section tactics.
Context {Q : Sequent}.

Definition ruleapp_t : Type := list subgoal * string.
Definition t : Type := sequent → list ruleapp_t.

Definition relabel (descr : string) (rl : t) : t := λ seq, map (λ ad, (ad.1, descr)) (rl seq).

Definition attempt (rl : t) : t := λ seq,
  match rl seq with
  | [] => [([(seq, TagPairs.mk (tags seq), ∅)], "")]
  | apps => apps
  end.

Definition fix_subgoal (sg sg' : subgoal) : subgoal :=
  let '(_, tv, tp) := sg in
  let '(seq', tv', tp') := sg' in
  (seq', TagPairs.compose tv tv',
   ⋃ [TagPairs.compose tp tp'; TagPairs.compose tv tp'; TagPairs.compose tp tv']).

Definition apply_to_subgoal (r : t) (sg : subgoal) : list ruleapp_t :=
  map (λ ld, (map (fix_subgoal sg) ld.1, ld.2)) (r sg.1.1).

Definition filt_emp (ss : list string) : list string := filter (λ s, String.length s ≠ 0) ss.

Definition apply_to_application (r : t) (app : ruleapp_t) : list ruleapp_t :=
  let apps := map (apply_to_subgoal r) app.1 in
  let choices := choose apps in
  map (λ l,
    let (xs, ds) := split l in
    (concat xs,
     String.concat "/" (filt_emp [app.2; String.concat "," (filt_emp ds)]))) choices.

Definition compose (r r' : t) : t := λ seq, r seq ≫= apply_to_application r'.

Fixpoint first (lr : list t) : t := λ seq,
  match lr with
  | [] => []
  | r :: rs => match r seq with [] => first rs seq | apps => apps end
  end.

Definition choice (rs : list t) : t := λ seq, rs ≫= (λ r, r seq).

(** [Blist.bind] with a function that may run out of fuel *)
Definition bind_res {A B} (f : A → res (list B)) (l : list A) : res (list B) :=
  ys ← map_res f l; mret (concat ys).

(** [aux] of [repeat] *)
Fixpoint repeat_aux (fuel : nat) (r : t) (app : ruleapp_t) : res (list ruleapp_t) :=
  match fuel with
  | O => Err EFuel
  | S fuel =>
      match apply_to_application r app with
      | [] => Ok [app]
      | apps => bind_res (repeat_aux fuel r) apps
      end
  end.

Definition repeat (fuel : nat) (r : t) (seq : sequent) : res (list ruleapp_t) :=
  bind_res (repeat_aux fuel r) (r seq).
End tactics.
End SeqTactics.

(** ** Soundness of tactics *)

(** Growing along one pair and dropping along the next is dropping. *)
Class MixedLaws {Q : Sequent} (M : Semantics Q) : Prop := {
  rank_le_lt a b c : rank_le a b → rank_lt b c → rank_lt a c;
}.

Section soundness.
Context {Q : Sequent} {M : Semantics Q} {ML : SemanticsLaws M} {MX : MixedLaws M}.
Import SeqTactics.

(** A counterexample to the sequent gives one to a premise, with the values of
    the tags following the pairs. *)
Definition derives (s : sequent) (sgs : list subgoal) : Prop :=
  Forall (premise_ok s) sgs ∧
  ∀ m, falsifies m s → ∃ sg m', sg ∈ sgs ∧ falsifies m' sg.1.1 ∧ follows m m' sg.1.2 sg.2.

Definition tactic_ok (r : SeqTactics.t) : Prop := ∀ s a, a ∈ r s → derives s a.1.

(** The calculus of all derivations: its inferences are those of tactics. *)
Definition derivations : Calculus := {|
  ax_ok s := is_valid s;
  inf_ok := derives;
  back_ok s s' v := premise_ok s (s', v, ∅) ∧ equal_upto_tags s s' = true ∧
    ∀ m, falsifies m s → ∃ m', falsifies m' s' ∧ follows m m' v ∅;
|}.

Lemma derivations_laws : CalculusLaws derivations.
Proof. split; [by intros s sgs [H _]|by intros s s' v (H & _)|by intros s s' v (_ & H & _)]. Qed.

Lemma derivations_sound : LocallySound derivations M.
Proof.
  split; [intros s m H; apply H|intros s sgs m [_ H]; apply H|intros s s2 v m (_ & _ & H); apply H].
Qed.

Lemma derives_refl s : derives s [(s, TagPairs.mk (tags s), ∅)].
Proof.
  split.
  - apply Forall_singleton. split; [set_solver|]. simpl. intros t u [Ht ->]%elem_of_mk. done.
  - intros m Hm. eexists _, m. split; [left|]. split; [done|]. split; simpl.
    + intros t u [_ ->]%elem_of_mk. reflexivity.
    + set_solver.
Qed.

Lemma elem_of_progress (tv tp tv' tp' : tagpairs) t u :
  (t, u) ∈ ⋃ [TagPairs.compose tp tp'; TagPairs.compose tv tp'; TagPairs.compose tp tv'] ↔
  ∃ x, ((t, x) ∈ tp ∧ (x, u) ∈ tp') ∨ ((t, x) ∈ tv ∧ (x, u) ∈ tp') ∨ ((t, x) ∈ tp ∧ (x, u) ∈ tv').
Proof.
  rewrite elem_of_union_list. split.
  - intros (X & HX & Htu). repeat (apply elem_of_cons in HX as [->|HX]; [|]); [..|by apply elem_of_nil in HX];
      apply elem_of_tp_compose in Htu as (x & H1 & H2); exists x; tauto.
  - intros (x & [[H1 H2]|[[H1 H2]|[H1 H2]]]); eexists;
      (split; [|apply elem_of_tp_compose; exists x; split; [exact H1|exact H2]]); set_solver.
Qed.

(** A premise of a premise. *)
Lemma fix_subgoal_ok s sg sg' :
  premise_ok s sg → premise_ok sg.1.1 sg' → premise_ok s (fix_subgoal sg sg').
Proof.
  destruct sg as [[s1 tv] tp], sg' as [[s2 tv'] tp']. intros [Hsub Ht] [Hsub' Ht']. simpl in *. split; simpl.
  - intros [t u] (x & Hx)%elem_of_progress. apply elem_of_tp_compose. exists x.
    destruct Hx as [[? ?]|[[? ?]|[? ?]]]; split; auto.
  - intros t u (x & Hx & Hu)%elem_of_tp_compose. split; [by apply (Ht t x)|by apply (Ht' x u)].
Qed.

Lemma fix_subgoal_follows s sg sg' m m1 m2 :
  premise_ok s sg → premise_ok sg.1.1 sg' →
  follows m m1 sg.1.2 sg.2 → follows m1 m2 sg'.1.2 sg'.2 →
  follows m m2 (fix_subgoal sg sg').1.2 (fix_subgoal sg sg').2.
Proof.
  destruct sg as [[s1 tv] tp], sg' as [[s2 tv'] tp']. intros [Hsub _] [Hsub' _] [Hv Hp] [Hv' Hp'].
  simpl in *. split.
  - intros t u (x & Hx & Hu)%elem_of_tp_compose. etrans; [by apply Hv'|by apply Hv].
  - intros t u (x & Hx)%elem_of_progress. destruct Hx as [[H1 H2]|[[H1 H2]|[H1 H2]]].
    + eapply rank_lt_le; [by apply Hp'|by apply Hv, Hsub].
    + eapply rank_lt_le; [by apply Hp'|by apply Hv].
    + eapply rank_le_lt; [by apply Hv'|by apply Hp].
Qed.

(** Every premise is derived in turn. *)
Lemma derives_trans s sgs sgss :
  derives s sgs → Forall2 (λ sg sgs', derives sg.1.1 sgs') sgs sgss →
  derives s (concat (zip_with (λ sg sgs', map (fix_subgoal sg) sgs') sgs sgss)).
Proof.
  intros [Hok Hs] Hd. split.
  - clear Hs. induction Hd as [|sg sgs' sgs sgss [Hsg _] _ IH]; simpl; [constructor|].
    apply Forall_cons in Hok as [H1 Hok]. apply Forall_app. split; [|by apply IH].
    apply Forall_fmap. eapply Forall_impl; [exact Hsg|]. intros sg'. by apply fix_subgoal_ok.
  - intros m Hm. destruct (Hs m Hm) as (sg & m1 & Hin & Hm1 & Hf1).
    apply list_elem_of_lookup in Hin as [i Hi].
    destruct (Forall2_lookup_l _ _ _ _ _ Hd Hi) as (sgs' & Hi' & Hok' & Hs').
    destruct (Hs' m1 Hm1) as (sg' & m2 & Hin' & Hm2 & Hf2).
    exists (fix_subgoal sg sg'), m2. split; [|split].
    + apply list_elem_of_In, in_concat. exists (map (fix_subgoal sg) sgs'). split.
      * apply list_elem_of_In, list_elem_of_lookup. exists i. apply lookup_zip_with_Some. by exists sg, sgs'.
      * apply in_map, list_elem_of_In, Hin'.
    + by destruct sg as [[? ?] ?], sg' as [[? ?] ?].
    + rewrite Forall_lookup in Hok. rewrite Forall_forall in Hok'.
      by apply (fix_subgoal_follows s sg sg' m m1 m2); [eapply Hok|apply Hok'|..].
Qed.

(** ** Applications to applications *)

(** [sgss] derives every premise of [sgs] by an application of [r]. *)
Definition derived_by (r : SeqTactics.t) (sgs : list subgoal) (sgss : list (list subgoal)) : Prop :=
  Forall2 (λ sg sgs', ∃ d, (sgs', d) ∈ r sg.1.1) sgs sgss.

Definition grafted (sgs : list subgoal) (sgss : list (list subgoal)) : list subgoal :=
  concat (zip_with (λ sg sgs', map (fix_subgoal sg) sgs') sgs sgss).

Lemma split_fst {A B} (l : list (A * B)) : (split l).1 = l.*1.
Proof.
  induction l as [|[a b] l IH]; [done|]. simpl. destruct (split l) as [xs ys]. simpl in *. by rewrite IH.
Qed.

Lemma apply_to_application_inv r app a : a ∈ apply_to_application r app →
  ∃ sgss, derived_by r app.1 sgss ∧ a.1 = grafted app.1 sgss.
Proof.
  unfold apply_to_application. intros (l & -> & Hl)%list_elem_of_fmap.
  apply elem_of_choose in Hl. unfold grafted.
  assert (∃ sgss, derived_by r app.1 sgss ∧
    l.*1 = zip_with (λ sg sgs', map (fix_subgoal sg) sgs') app.1 sgss) as (sgss & Hd & Hl1).
  { revert l Hl. induction app.1 as [|sg sgs IH]; simpl; intros l Hl.
    - apply Forall2_nil_inv_r in Hl as ->. exists []. split; [constructor|done].
    - apply Forall2_cons_inv_r in Hl as (x & l' & Hx & Hl & ->).
      destruct (IH l' Hl) as (sgss & Hd & Hl1).
      apply list_elem_of_fmap in Hx as ([sgs' d] & -> & Hr). exists (sgs' :: sgss).
      split; [constructor; [by exists d|done]|]. simpl. f_equal. exact Hl1. }
  exists sgss. split; [done|]. rewrite <-Hl1. pose proof (split_fst l) as Hsp.
  destruct (split l) as [xs ds]. simpl in *. by rewrite Hsp.
Qed.

(** There is none when a premise has none. *)
Lemma apply_to_application_nil r app :
  apply_to_application r app = [] ↔ ∃ sg, sg ∈ app.1 ∧ r sg.1.1 = [].
Proof.
  unfold apply_to_application. split.
  - intros Hnil%map_eq_nil.
    assert (Exists (λ sg, r sg.1.1 = []) app.1) as Hex; [|by apply Exists_exists].
    destruct (decide (Exists (λ sg, length (r sg.1.1) = 0) app.1)) as [H|H].
    { eapply Exists_impl; [exact H|]. intros sg. by apply length_zero_iff_nil. }
    exfalso. assert (∃ k, k ∈ choose (map (apply_to_subgoal r) app.1)) as [k Hk];
      [|by rewrite Hnil in Hk; apply elem_of_nil in Hk].
    setoid_rewrite elem_of_choose. apply not_Exists_Forall in H; [|intros ?; apply _]. clear Hnil.
    induction H as [|sg sgs Hsg _ [k IH]]; [by exists []; constructor|].
    unfold apply_to_subgoal at 1. destruct (r sg.1.1) as [|[l d] rs] eqn:E; [by destruct Hsg; simpl; rewrite E|].
    exists ((map (fix_subgoal sg) l, d) :: k). simpl. constructor; [|done].
    unfold apply_to_subgoal. rewrite E. left.
  - intros (sg & Hin & Hsg). destruct (choose _) as [|k ks] eqn:E; [done|]. exfalso.
    assert (k ∈ choose (map (apply_to_subgoal r) app.1)) as Hk by (rewrite E; left).
    apply elem_of_choose in Hk. apply list_elem_of_lookup in Hin as [i Hi].
    destruct (Forall2_lookup_r _ _ _ i (apply_to_subgoal r sg) Hk) as (x & _ & Hx).
    { by rewrite list_lookup_fmap, Hi. }
    unfold apply_to_subgoal in Hx. rewrite Hsg in Hx. by apply elem_of_nil in Hx.
Qed.

Lemma apply_to_application_ok r s app a :
  tactic_ok r → derives s app.1 → a ∈ apply_to_application r app → derives s a.1.
Proof.
  intros Hr Hs (sgss & Hd & ->)%apply_to_application_inv. apply derives_trans; [done|].
  eapply Forall2_impl; [exact Hd|]. intros sg sgs' [d Hin]. exact (Hr _ _ Hin).
Qed.

(** ** The tactics keep soundness *)

Lemma relabel_ok d r : tactic_ok r → tactic_ok (relabel d r).
Proof. intros Hr s a (a' & -> & Ha)%list_elem_of_fmap. exact (Hr _ _ Ha). Qed.

Lemma seq_attempt_ok r : tactic_ok r → tactic_ok (attempt r).
Proof.
  intros Hr s a. unfold attempt. destruct (r s) as [|a0 apps] eqn:E.
  - intros ->%list_elem_of_singleton. apply derives_refl.
  - intros Ha. apply Hr. by rewrite E.
Qed.

Lemma seq_compose_ok r r' : tactic_ok r → tactic_ok r' → tactic_ok (compose r r').
Proof.
  intros Hr Hr' s a (a1 & Ha & Ha1)%list_elem_of_bind.
  by eapply apply_to_application_ok; [|apply Hr|].
Qed.

Lemma seq_first_ok rs : Forall tactic_ok rs → tactic_ok (first rs).
Proof.
  induction 1 as [|r rs Hr _ IH]; intros s a; simpl; [by intros ?%elem_of_nil|].
  destruct (r s) as [|a0 apps] eqn:E; [apply IH|]. intros Ha. apply Hr. by rewrite E.
Qed.

Lemma seq_choice_ok rs : Forall tactic_ok rs → tactic_ok (choice rs).
Proof.
  rewrite Forall_forall. intros Hrs s a (r & Ha & Hr)%list_elem_of_bind. by apply (Hrs r).
Qed.

Lemma bind_res_inv {A B} (f : A → res (list B)) l ys y :
  bind_res f l = Ok ys → y ∈ ys → ∃ x xs, x ∈ l ∧ f x = Ok xs ∧ y ∈ xs.
Proof.
  unfold bind_res, mbind, res_bind, mret, res_ret. revert ys.
  induction l as [|x l IH]; intros ys; simpl; [intros [= <-] ?%elem_of_nil; done|].
  destruct (f x) as [xs|] eqn:E; [|done]. unfold mbind, res_bind, mret, res_ret in *.
  destruct (map_res f l) as [yss|]; [|done]. intros [= <-] [Hy|Hy]%elem_of_app.
  - exists x, xs. split; [left|done].
  - destruct (IH _ eq_refl Hy) as (x' & xs' & ? & ?). exists x', xs'. split; [by right|done].
Qed.

Lemma repeat_aux_ok fuel r s app apps a :
  tactic_ok r → derives s app.1 → repeat_aux fuel r app = Ok apps → a ∈ apps → derives s a.1.
Proof.
  intros Hr. revert app apps. induction fuel as [|fuel IH]; intros app apps Hs; simpl; [done|].
  destruct (apply_to_application r app) as [|a0 as_] eqn:E.
  - intros [= <-] ->%list_elem_of_singleton. done.
  - intros Hrun Ha. destruct (bind_res_inv _ _ _ _ Hrun Ha) as (x & xs & Hx & Hxs & Hin).
    eapply IH; [|exact Hxs|exact Hin]. eapply apply_to_application_ok; [done|exact Hs|]. by rewrite E.
Qed.

Lemma repeat_ok fuel r s apps a :
  tactic_ok r → SeqTactics.repeat fuel r s = Ok apps → a ∈ apps → derives s a.1.
Proof.
  intros Hr Hrun Ha. destruct (bind_res_inv _ _ _ _ Hrun Ha) as (x & xs & Hx & Hxs & Hin).
  eapply repeat_aux_ok; [done| |exact Hxs|exact Hin]. by apply Hr.
Qed.
End soundness.

(** ** When [repeat] ends *)

Section repeating.
Context {Q : Sequent}.
Import SeqTactics.

Lemma bind_res_ok {A B} (f : A → res (list B)) (P : B → Prop) l :
  (∀ x, x ∈ l → ∃ ys, f x = Ok ys ∧ ∀ y, y ∈ ys → P y) →
  ∃ ys, bind_res f l = Ok ys ∧ ∀ y, y ∈ ys → P y.
Proof.
  intros Hf. unfold bind_res.
  assert (∃ yss, map_res f l = Ok yss ∧ ∀ y, y ∈ concat yss → P y) as (yss & -> & H).
  { induction l as [|x l IH]; [exists []; split; [done|by intros y ?%elem_of_nil]|].
    destruct (Hf x) as (ys & Hys & HP); [left|].
    destruct IH as (yss & Hyss & HPs); [intros y Hy; apply Hf; by right|].
    exists (ys :: yss). simpl. unfold mbind, res_bind, mret, res_ret. rewrite Hys, Hyss. split; [done|].
    intros y [Hy|Hy]%elem_of_app; auto. }
  by exists (concat yss).
Qed.

(** Where the repetition stops: a premise that cannot be expanded. *)
Definition stuck (r : SeqTactics.t) (a : ruleapp_t) : Prop := ∃ sg, sg ∈ a.1 ∧ r sg.1.1 = [].

Lemma elem_of_grafted r app a sg : a ∈ apply_to_application r app → sg ∈ a.1 →
  ∃ sg0 a0 sg', sg0 ∈ app.1 ∧ a0 ∈ r sg0.1.1 ∧ sg' ∈ a0.1 ∧ sg.1.1 = sg'.1.1.
Proof.
  intros (sgss & Hd & ->)%apply_to_application_inv. unfold grafted.
  intros (l & Hl & Hsg)%list_elem_of_In%in_concat.
  apply list_elem_of_In, list_elem_of_lookup in Hl as [i (sg0 & sgs' & -> & Hi & Hi')%lookup_zip_with_Some].
  destruct (Forall2_lookup_lr _ _ _ _ _ _ Hd Hi Hi') as [d Hin].
  apply list_elem_of_In, list_elem_of_fmap in Hsg as (sg' & -> & Hsg').
  exists sg0, (sgs', d), sg'. split; [by eapply list_elem_of_lookup_2|]. split; [done|]. split; [done|].
  by destruct sg0 as [[? ?] ?], sg' as [[? ?] ?].
Qed.

Context (r : SeqTactics.t) (w : sequent → nat).

(** Every application has premises, all smaller than the sequent. *)
Hypothesis Hw : ∀ s a, a ∈ r s → a.1 ≠ [] ∧ ∀ sg, sg ∈ a.1 → w sg.1.1 < w s.

Lemma grafted_ne app a : app.1 ≠ [] → a ∈ apply_to_application r app → a.1 ≠ [].
Proof.
  intros Hne (sgss & Hd & ->)%apply_to_application_inv. unfold grafted.
  destruct app.1 as [|sg sgs]; [done|]. apply Forall2_cons_inv_l in Hd as (sgs' & l & [d Hin] & _ & ->).
  destruct (Hw _ _ Hin) as [Hn _]. simpl in *. by destruct sgs'.
Qed.

Lemma repeat_aux_ends fuel app :
  app.1 ≠ [] → (∀ sg, sg ∈ app.1 → w sg.1.1 < fuel) →
  ∃ apps, repeat_aux fuel r app = Ok apps ∧ ∀ a, a ∈ apps → a.1 ≠ [] ∧ stuck r a.
Proof.
  revert app. induction fuel as [|fuel IH]; intros app Hne Hlt; simpl.
  - destruct app.1 as [|sg sgs]; [done|]. specialize (Hlt sg ltac:(left)). lia.
  - destruct (apply_to_application r app) as [|a0 as_] eqn:E.
    + exists [app]. split; [done|]. intros a ->%list_elem_of_singleton. split; [done|].
      by apply apply_to_application_nil.
    + rewrite <-E. apply bind_res_ok. intros a Ha. apply IH; [by eapply grafted_ne|].
      intros sg Hsg. destruct (elem_of_grafted _ _ _ _ Ha Hsg) as (sg0 & a1 & sg' & H0 & H1 & H2 & ->).
      destruct (Hw _ _ H1) as [_ Hsm]. specialize (Hsm _ H2). specialize (Hlt _ H0). lia.
Qed.

Lemma repeat_ends fuel s : w s ≤ fuel →
  ∃ apps, SeqTactics.repeat fuel r s = Ok apps ∧ ∀ a, a ∈ apps → a.1 ≠ [] ∧ stuck r a.
Proof.
  intros Hf. apply bind_res_ok. intros a Ha. destruct (Hw _ _ Ha) as [Hne Hlt].
  apply repeat_aux_ends; [done|]. intros sg Hsg. specialize (Hlt sg Hsg). lia.
Qed.
End repeating.

(** An application without premises can be applied to for ever. *)
Section diverging.
Context {Q : Sequent}.
Import SeqTactics.

Lemma map_res_fuel {A B} (f : A → res B) l :
  (∀ x e, f x = Err e → e = EFuel) → Exists (λ x, f x = Err EFuel) l → map_res f l = Err EFuel.
Proof.
  intros Hf. induction l as [|x l IH]; intros H; [by apply Exists_nil in H|]. simpl.
  unfold mbind, res_bind. destruct (f x) as [y|e] eqn:E; [|by rewrite (Hf x e E)].
  rewrite IH; [done|]. apply Exists_cons in H as [H|H]; [congruence|done].
Qed.

Lemma map_res_err {A B} (f : A → res B) l e :
  (∀ x e, f x = Err e → e = EFuel) → map_res f l = Err e → e = EFuel.
Proof.
  intros Hf. induction l as [|x l IH]; simpl; unfold mbind, res_bind; [done|].
  destruct (f x) as [y|e'] eqn:E; [|intros [= <-]; by apply (Hf x)].
  destruct (map_res f l); [done|]. intros [= <-]. by apply IH.
Qed.

Lemma repeat_aux_err fuel r app e : repeat_aux fuel r app = Err e → e = EFuel.
Proof.
  revert app e. induction fuel as [|fuel IH]; intros app e; simpl; [by intros [= <-]|].
  destruct (apply_to_application r app) as [|a as_]; [done|].
  unfold bind_res, mbind at 1, res_bind at 1.
  destruct (map_res _ _) as [|e'] eqn:E; [done|]. intros [= <-]. eapply map_res_err; [|exact E]. apply IH.
Qed.

Lemma repeat_diverges fuel (r : SeqTactics.t) s d : ([], d) ∈ r s → SeqTactics.repeat fuel r s = Err EFuel.
Proof.
  intros Hin.
  assert (∀ d, repeat_aux fuel r ([], d) = Err EFuel) as Ha.
  { induction fuel as [|fuel IH]; intros d'; [done|]. simpl. unfold apply_to_application. simpl.
    unfold bind_res. simpl. by rewrite IH. }
  unfold SeqTactics.repeat, bind_res. unfold mbind, res_bind.
  rewrite map_res_fuel; [done|apply repeat_aux_err|]. apply Exists_exists. by exists ([], d).
Qed.
End diverging.
