(* ===== verification/SearchTheorems.v ===== *)
(** * The properties of the abducer, of tactics and of tags

    Abductive rules and search on top of the soundness checker of [Minimize],
    tactics on sequents, fresh tags and substitutions, for every logic with the
    laws of [Calculus], with instances in the logic of [Parity]. *)

From S2P Require Import Prelude Exn Spot ProofGraph Gtc GtcReduce ProofAut.
From S2P Require Import Trace Soundness SoundnessSpec Soundcheck Minimize MinimizeProofs AnyRoot.
From S2P Require Import ProofNode CyclicProof ProofInvariant ProofQueries ProofSound ProofCopy ProofCompose.
From S2P Require Import Descent ProofRule RuleContract Prover CheckProof Parity.
From S2P Require Import AbdRule Abducer VarManager TagPairs SeqTactics.

Section abduction.
Context {B : Bdd} {BD : BddDict} {HO : HashOrder} {G : SpotAlgos B} {F : FloatLog} {T : TreeEq}.
Context {BL : BddLaws B} {DL : BddDictLaws BD} {HL : HashOrderLaws HO}
  {GL : SpotAlgosLaws B G} {FL : FloatLogLaws F} {TL : TreeEqLaws T}.
Context {Q : Sequent} {QL : SequentLaws Q} {TR : TagRange Q}.
Context {D : Type} {K : D → Calculus} {extends : D → D → Prop}.
Context {EX : Extensible K extends} {KL : ∀ d, CalculusLaws (K d)}.

(** C21: the breadth-first search of the abducer returns, the same whatever fuel
    it is given beyond some amount, and trips none of its assertions, for rules
    that keep their contract and searches that fit the checker.  A proof it
    returns is closed, has the sequent at its root, consists of instances of the
    rules for the definitions returned with it and meets the global trace
    condition; these definitions extend the initial ones and pass the check; and
    when the rules are locally sound the sequent is valid under them. *)
Theorem bfs_sound {M : D → Semantics Q} {ML : ∀ d, SemanticsLaws (M d)}
    {LS : ∀ d, LocallySound (K d) (M d)} (r : AbdRule.t) (g m : nat) (maxbound : Z)
    (seq : sequent) (d0 : D) (check : D → bool) (s : Abducer.abduction checker) :
  abdrule_ok (K := K) (extends := extends) (inv := checker_ok) g m r →
  (Z.of_nat (1 + growth 0 g m (S (Z.to_nat maxbound))) ≤ max_nodes)%Z →
  checker_ok (Prover.checker_state (Abducer.search_state s)) →
  ∃ n o s', (∀ fuel, n ≤ fuel → Abducer.bfs fuel maxbound r seq d0 check s = (Ok o, s')) ∧
    checker_ok (Prover.checker_state (Abducer.search_state s')) ∧
    match o with
    | Some (q, d) =>
        Prf.is_closed q = true ∧ Wf.seq_of q 0%Z = Some seq ∧ good (K := K d) q ∧
        extends d0 d ∧ check d = true ∧ is_valid (M := M d) seq ∧
        (0 ≤ Prover.last_search_depth (Abducer.search_state s') ≤ maxbound)%Z
    | None => Prover.last_search_depth (Abducer.search_state s') =
        Prover.last_search_depth (Abducer.search_state s)
    end.
Proof.
  intros Hr Hg Hs. destruct (bfs_ok r g m Hr maxbound seq d0 Hg check s Hs) as (n & o & s' & Hn & Hi & Ho).
  exists n, o, s'. split; [done|]. split; [done|]. destruct o as [[q d]|]; [|done].
  destruct Ho as ((Gq & Cq & Rq) & He & Hc & Hd). split_and!; try done; [|apply Hd..].
  exact (root_valid q Gq Cq seq Rq).
Qed.

(** C22: the contract of abductive rules, to extend the definitions and to return
    only good continuations of the proof under the extended ones, holds for the
    rules made from extensions of definitions and from inferences, for lifted
    rules of the prover, and for all combinators of rules that have it. *)
Theorem abdrules_keep_contract (g n g' n' : nat) (r r' : AbdRule.t) (rs : list AbdRule.t)
    (p : Rule.t) (sel_f : Rule.select_f) (i_f : AbdRule.abdinfrule_f) (b_f : AbdRule.abdbackrule_f)
    (g_f : AbdRule.abdgenrule_f) :
  abdrule_ok (K := K) (extends := extends) (inv := checker_ok) g n r →
  abdrule_ok (K := K) (extends := extends) (inv := checker_ok) g' n' r' →
  Forall (abdrule_ok (K := K) (extends := extends) (inv := checker_ok) g n) rs →
  (∀ d, rule_ok (K := K d) (inv := checker_ok) g n p) → select_ok sel_f →
  (∀ s d d', d' ∈ i_f s d → extends d d') →
  (∀ s s' d d', d' ∈ b_f s s' d → extends d d') →
  (∀ s d sgs descr d', ((sgs, descr), d') ∈ g_f s d →
    extends d d' ∧ inf_ok (Calculus := K d') s sgs ∧ length sgs ≤ n) →
  let ok := abdrule_ok (K := K) (extends := extends) (inv := checker_ok) in
  ok 0 1 (AbdRule.mk_abdinfrule i_f) ∧ ok 0 1 (AbdRule.mk_abdbackrule sel_f b_f) ∧
  ok n n (AbdRule.mk_abdgenrule g_f) ∧ ok g n (AbdRule.lift p) ∧
  ok (g + n * g') (n * n') (AbdRule.compose r r') ∧ ok g n (AbdRule.choice rs) ∧
  ok g n (AbdRule.first rs) ∧ ok g (max n 1) (AbdRule.attempt r).
Proof.
  intros Hr Hr' Hrs Hp Hsel Hi Hb Hg ok. split_and!.
  - by apply mk_abdinfrule_ok.
  - by apply mk_abdbackrule_ok.
  - by apply mk_abdgenrule_ok.
  - by apply lift_ok.
  - by apply abd_compose_ok.
  - by apply abd_choice_ok.
  - by apply abd_first_ok.
  - by apply abd_attempt_ok.
Qed.
End abduction.

(** ** Tactics *)

Section tactics.
Context {Q : Sequent} {M : Semantics Q} {ML : SemanticsLaws M} {MX : MixedLaws M}.

(** C23: tactics made from sound tactics are sound: when each application of the
    parts takes a counterexample to the sequent to one of a premise with values
    of the tags along the pairs, so does each application of [relabel],
    [attempt], [compose], [first], [choice] and [repeat], with the pairs that
    they compose. *)
Theorem tactics_sound (d : string) (r r' : SeqTactics.t) (rs : list SeqTactics.t) :
  tactic_ok r → tactic_ok r' → Forall tactic_ok rs →
  tactic_ok (SeqTactics.relabel d r) ∧ tactic_ok (SeqTactics.attempt r) ∧
  tactic_ok (SeqTactics.compose r r') ∧ tactic_ok (SeqTactics.first rs) ∧
  tactic_ok (SeqTactics.choice rs) ∧
  ∀ fuel s apps a, SeqTactics.repeat fuel r s = Ok apps → a ∈ apps → derives s a.1.
Proof.
  intros Hr Hr' Hrs. split_and!.
  - by apply relabel_ok.
  - by apply seq_attempt_ok.
  - by apply seq_compose_ok.
  - by apply seq_first_ok.
  - by apply seq_choice_ok.
  - intros fuel s apps a. by apply repeat_ok.
Qed.
End tactics.

(** C24: [repeat] ends when every application of the tactic has premises and all
    are smaller than its sequent, within as many rounds as the size of the
    sequent, and then each result has a premise that the tactic does not apply
    to; when the tactic has an application without premises, it never ends. *)
Theorem repeat_correct {Q : Sequent} (r : SeqTactics.t) (w : sequent → nat) (s : sequent) :
  ((∀ s a, a ∈ r s → a.1 ≠ [] ∧ ∀ sg, sg ∈ a.1 → w sg.1.1 < w s) →
   ∀ fuel, w s ≤ fuel → ∃ apps, SeqTactics.repeat fuel r s = Ok apps ∧
     ∀ a, a ∈ apps → a.1 ≠ [] ∧ ∃ sg, sg ∈ a.1 ∧ r sg.1.1 = []) ∧
  ((∃ d, ([], d) ∈ r s) → ∀ fuel, SeqTactics.repeat fuel r s = Err EFuel).
Proof.
  split.
  - intros Hw fuel Hf. by apply repeat_ends with w.
  - intros [d Hd] fuel. by apply repeat_diverges with d.
Qed.

(** ** Fresh tags *)

(** The substitution of fresh tags for [ts]: it is defined on [ts] exactly
    and renames them one to one to free (or bound) tags that are neither in [ts]
    nor to be avoided; applied to a tag of either set, and then reflected and
    applied again, it gives the tag back. *)
Theorem fresh_subst_correct {H : VarManager.Hashcons} {HL : VarManager.HashconsLaws H}
    (alphabet : list string) (free : bool) (avoid ts : gset Z) :
  alphabet ≠ [] → NoDup alphabet → Forall (λ l, is_letter l = true) alphabet →
  ∃ theta,
    (if free then TagPairs.mk_free_subst alphabet avoid ts
     else TagPairs.mk_ex_subst alphabet avoid ts) = Ok theta ∧
    TagPairs.projectl theta = ts ∧ size (TagPairs.projectr theta) = size ts ∧
    (∀ u, u ∈ TagPairs.projectr theta → (u ∉ ts ∪ avoid) ∧
       (if free then VarManager.is_free_var VarManager.classify_tag u
        else VarManager.is_exist_var VarManager.classify_tag u) = Ok true) ∧
    (∀ t u, (t, u) ∈ theta ↔ t ∈ ts ∧ u = TagPairs.apply_to_tag theta t) ∧
    (∀ t, t ∉ ts → TagPairs.apply_to_tag theta t = t) ∧
    ∀ t, t ∈ ts ∪ avoid →
      TagPairs.apply_to_tag (TagPairs.reflect theta) (TagPairs.apply_to_tag theta t) = t.
Proof.
  intros Hne Hnd Hl.
  destruct (search_vars_ok 0 VarManager.classify_tag alphabet (tag_alphabet alphabet Hne Hnd Hl)
    (ts ∪ avoid) free (size ts)) as (l & Hs & Hlen & Hnodup & Hin).
  destruct (mk_subst_ok avoid ts (λ s n, VarManager.search_vars 0 VarManager.classify_tag alphabet s free n)
    l Hs Hlen Hnodup) as (theta & Ht & Hdom & Hf & Hr & Hsize & Hran); [intros v Hv; by apply Hin|].
  exists theta. split; [by destruct free|]. split; [done|]. split; [done|]. split; [|split; [|split]].
  - intros u Hu%Hran. by apply Hin.
  - intros t u. split.
    + intros Htu. split; [rewrite <-Hdom; apply elem_of_projectl; by exists u|].
      symmetry. by apply apply_to_tag_in.
    + rewrite <-Hdom at 1. intros [(u' & Hu)%elem_of_projectl ->].
      by rewrite (apply_to_tag_in _ _ _ Hf Hu).
  - intros t Ht'. apply apply_to_tag_out. by rewrite Hdom.
  - intros t Ht'. apply apply_reflect; [done|done|]. intros Hin'%Hran. by destruct (Hin t Hin') as [H1 _].
Qed.

(** ** Instances *)

(** The logic of [Parity] in which 0 is even only once it is defined to be:
    the rule for [Zero] is an inference without premises of the definitions
    [true]. *)
Definition defined_rules (d : bool) : Calculus (Q := parity) := {|
  ax_ok _ := False;
  inf_ok s sgs := inf_ok (Calculus := parity_rules) s sgs ∨
    (d = true ∧ s = (Zero : @sequent parity) ∧ sgs = []);
  back_ok := back_ok (Calculus := parity_rules);
|}.

#[export] Instance defined_laws d : CalculusLaws (defined_rules d).
Proof.
  split.
  - intros s sgs [H|(_ & _ & ->)]; [exact (inf_tags (K := parity_rules) s sgs H)|constructor].
  - intros s s' v H. exact (back_tags (K := parity_rules) s s' v H).
  - intros s s' v H. exact (back_equal (K := parity_rules) s s' v H).
Qed.

#[export] Instance defined_extensible : Extensible defined_rules (λ d d', d = true → d' = true).
Proof.
  split; [|done| |done].
  - split; [by intros d|]. intros d1 d2 d3 H1 H2 H. by apply H2, H1.
  - intros d d' s sgs He [H|(Hd & H)]; [by left|right]. split; [by apply He|done].
Qed.

#[export] Instance defined_sound d : LocallySound (defined_rules d) parity_models.
Proof.
  split; [done| |].
  - intros s sgs m [H|(_ & -> & ->)] Hm; [exact (inf_sound (K := parity_rules) s sgs m H Hm)|].
    destruct Hm. by exists 0.
  - intros s s' v m H. exact (back_sound (K := parity_rules) s s' v m H).
Qed.

(** Defining that 0 is even. *)
Definition define_zero : AbdRule.abdgenrule_f (Q := parity) (D := bool) := λ s _,
  match s : claim with Zero => [(([], "Zero"), true)] | Nat_ _ => [] end.

Definition search_checker : checker (B := form_bdd) (D := list_dict) := mkChecker globals_init [].

Lemma search_checker_ok : checker_ok search_checker.
Proof. split; [done|]. by intros p r ?%elem_of_nil. Qed.

Definition defining_rule : AbdRule.t (St := checker (B := form_bdd) (D := list_dict)) (D := bool) :=
  AbdRule.choice [AbdRule.lift (Rule.mk_backrule true Rule.ancestor_nodes parity_back);
                  AbdRule.lift (Rule.mk_infrule parity_inf); AbdRule.mk_abdgenrule define_zero].

Lemma lifted_inf_ok d : rule_ok (K := defined_rules d) (inv := checker_ok) 2 2
  (Rule.mk_infrule parity_inf : Rule.t (St := checker (B := form_bdd) (D := list_dict))).
Proof.
  apply mk_infrule_ok. intros s sgs ds Hin. destruct (parity_inf_ok s sgs ds Hin). split; [by left|done].
Qed.

Lemma lifted_back_ok d : rule_ok (K := defined_rules d) (inv := checker_ok) 2 2
  (Rule.mk_backrule true Rule.ancestor_nodes parity_back :
     Rule.t (St := checker (B := form_bdd) (D := list_dict))).
Proof.
  eapply rule_ok_mono; [| |apply mk_backrule_ok; [apply ancestor_nodes_ok|apply parity_back_ok]]; lia.
Qed.

Lemma define_zero_ok s (d : bool) sgs descr d' : ((sgs, descr), d') ∈ define_zero s d →
  (d = true → d' = true) ∧ inf_ok (Calculus := defined_rules d') s sgs ∧ length sgs ≤ 2.
Proof.
  destruct s as [b|]; simpl; [by intros ?%elem_of_nil|].
  intros [= -> -> ->]%list_elem_of_singleton. split; [done|]. split; [by right|simpl; lia].
Qed.

Lemma defining_rule_ok : abdrule_ok (K := defined_rules) (extends := λ d d', d = true → d' = true)
  (inv := checker_ok) 2 2 defining_rule.
Proof.
  apply abd_choice_ok. repeat apply Forall_cons_2; [| | |constructor].
  - apply lift_ok, lifted_back_ok.
  - apply lift_ok, lifted_inf_ok.
  - apply mk_abdgenrule_ok, define_zero_ok.
Qed.

Lemma bfs_sound_witness :
  ∃ n o s', (∀ fuel, n ≤ fuel →
      Abducer.bfs fuel 4 defining_rule (Nat_ false) false (λ d, d)
        (Abducer.mkAbduction (Prover.mkSearch search_checker 0) 0) = (Ok o, s')) ∧
    ∀ q d, o = Some (q, d) → Prf.is_closed q = true ∧ good (K := defined_rules d) q ∧ d = true.
Proof.
  destruct (bfs_sound (K := defined_rules) (M := λ _, parity_models)
    (extends := λ d d', d = true → d' = true) defining_rule 2 2 4 (Nat_ false) false (λ d, d)
    (Abducer.mkAbduction (Prover.mkSearch search_checker 0) 0)) as (n & o & s' & Hn & _ & Ho);
    [apply defining_rule_ok|by vm_compute|exact search_checker_ok|].
  exists n, o, s'. split; [exact Hn|]. intros q d ->. destruct Ho as (H1 & _ & H2 & _ & H3 & _). done.
Defined.

Lemma abdrules_keep_contract_witness :
  abdrule_ok (K := defined_rules) (extends := λ d d', d = true → d' = true) (inv := checker_ok) 6 4
    (AbdRule.compose defining_rule defining_rule) ∧
  abdrule_ok (K := defined_rules) (extends := λ d d', d = true → d' = true) (inv := checker_ok) 2 2
    (AbdRule.attempt defining_rule).
Proof.
  destruct (abdrules_keep_contract (K := defined_rules) (extends := λ d d', d = true → d' = true)
    2 2 2 2 defining_rule defining_rule [defining_rule] (Rule.mk_infrule parity_inf)
    Rule.ancestor_nodes (λ _ _, [true]) (λ _ _ _, [true]) define_zero)
    as (_ & _ & _ & _ & H1 & _ & _ & H2);
    [apply defining_rule_ok|apply defining_rule_ok|apply Forall_singleton, defining_rule_ok|
     apply lifted_inf_ok|apply ancestor_nodes_ok|
     by intros s d d' ->%list_elem_of_singleton|by intros s s' d d' ->%list_elem_of_singleton|
     apply define_zero_ok|].
  by split.
Defined.

(** The inference of [Parity] as a tactic, and one that removes a tag. *)
#[export] Instance parity_mixed : MixedLaws parity_models.
Proof. split. simpl. lia. Qed.

Definition step_tactic : SeqTactics.t (Q := parity) := parity_inf.

Definition untag : SeqTactics.t (Q := parity) := λ s,
  match s : claim with
  | Nat_ true => [([((Nat_ false : @sequent parity), link true false, ∅)], "Untag")]
  | _ => []
  end.

Lemma step_tactic_ok : tactic_ok step_tactic.
Proof.
  intros s [sgs d] Hin. destruct (parity_inf_ok s sgs d Hin) as [Hok _]. split.
  - exact (inf_tags (K := parity_rules) s sgs Hok).
  - intros m. exact (inf_sound (K := parity_rules) s sgs m Hok).
Qed.

Lemma untag_ok : tactic_ok untag.
Proof.
  intros s a Ha. destruct s as [[]|]; simpl in Ha; try by apply elem_of_nil in Ha.
  apply list_elem_of_singleton in Ha as ->. split.
  - apply Forall_singleton. split; [apply empty_subseteq|]. simpl. unfold link. set_solver.
  - intros m Hm. eexists _, m. split; [left|]. split; [exact Hm|]. split; [done|]. simpl. set_solver.
Qed.

Lemma tactics_sound_witness :
  tactic_ok (SeqTactics.compose step_tactic (SeqTactics.attempt untag)) ∧
  ∀ apps a, SeqTactics.repeat 3 untag (Nat_ true) = Ok apps → a ∈ apps →
    derives (Nat_ true : @sequent parity) a.1.
Proof.
  destruct (tactics_sound "Simplify" step_tactic (SeqTactics.attempt untag) [untag])
    as (_ & _ & H & _); [apply step_tactic_ok|apply seq_attempt_ok, untag_ok|apply Forall_singleton, untag_ok|].
  split; [exact H|]. intros apps a.
  by apply (tactics_sound "Simplify" untag untag [] untag_ok untag_ok (Forall_nil_2 _)).
Defined.

Lemma repeat_correct_witness :
  (∃ apps, SeqTactics.repeat 1 untag (Nat_ true) = Ok apps ∧
     ∀ a, a ∈ apps → a.1 ≠ [] ∧ ∃ sg, sg ∈ a.1 ∧ untag sg.1.1 = []) ∧
  SeqTactics.repeat 50 (λ s : @sequent parity, [([], "Done")]) (Zero : @sequent parity) = Err EFuel.
Proof.
  split.
  - apply (repeat_correct untag (λ s, match s : claim with Nat_ true => 1 | _ => 0 end) (Nat_ true));
      [|apply le_n].
    intros s a Ha. destruct s as [[]|]; simpl in Ha; try by apply elem_of_nil in Ha.
    apply list_elem_of_singleton in Ha as ->. split; [done|].
    intros sg ->%list_elem_of_singleton. simpl. lia.
  - apply (repeat_correct (λ s : @sequent parity, [([], "Done")]) (λ _, 0) (Zero : @sequent parity)).
    exists "Done". left.
Defined.

Lemma fresh_subst_correct_witness :
  VarManager.node <$> elements (default ∅ (match TagPairs.mk_free_subst ["a"; "b"]
      {[VarManager.hashcons "a"]} {[VarManager.hashcons "b"; VarManager.hashcons "c"]} with
    | Ok theta => Some (TagPairs.projectr theta) | Err _ => None end)) = ["a_1"; "b_1"] ∧
  ∃ theta, TagPairs.mk_free_subst ["a"; "b"] {[VarManager.hashcons "a"]}
      {[VarManager.hashcons "b"; VarManager.hashcons "c"]} = Ok theta ∧
    TagPairs.apply_to_tag (TagPairs.reflect theta)
      (TagPairs.apply_to_tag theta (VarManager.hashcons "b")) = VarManager.hashcons "b".
Proof.
  split; [vm_compute; reflexivity|].
  destruct (fresh_subst_correct ["a"; "b"] true {[VarManager.hashcons "a"]}
    {[VarManager.hashcons "b"; VarManager.hashcons "c"]}) as (theta & Ht & _ & _ & _ & _ & _ & H);
    [done|apply (bool_decide_unpack _); by vm_compute|repeat constructor|].
  exists theta. split; [exact Ht|]. apply H. set_solver.
Defined.

(** ** The cut of the abducer *)

Module Cut.

(** A logic of five sequents: [Top] follows from [L] and [R], [L] from the axiom
    [Ax], and [R] from [Ax] and [Stuck], which follows from nothing, or else from
    [Ax] alone. *)
Inductive goal := Top | L | R | Ax | Stuck.

#[export] Instance goal_eq_dec : EqDecision goal.
Proof. solve_decision. Defined.

#[export] Instance goals_sequent : Sequent := {|
  sequent := goal;
  seq_equal s s' := bool_decide (s = s');
  equal_upto_tags s s' := bool_decide (s = s');
  tags _ := ∅;
|}.

Definition premise_of (s : goal) : subgoal := ((s : @sequent goals_sequent), ∅, ∅).

Definition goals_ax : Rule.axiom_f (Q := goals_sequent) := λ s : goal,
  match s with Ax => Some "Ax" | _ => None end.

Definition goals_inf : Rule.infrule_f (Q := goals_sequent) := λ s : goal,
  match s with
  | Top => [([premise_of L; premise_of R], "Top")]
  | L => [([premise_of Ax], "L")]
  | R => [([premise_of Ax; premise_of Stuck], "R1"); ([premise_of Ax], "R2")]
  | Ax | Stuck => []
  end.

#[export] Instance goals_rules : Calculus (Q := goals_sequent) := {|
  ax_ok s := s = (Ax : @sequent goals_sequent);
  inf_ok s sgs := ∃ d, (sgs, d) ∈ goals_inf s;
  back_ok _ _ _ := False;
|}.

#[export] Instance goals_sequent_laws : SequentLaws goals_sequent.
Proof. split. intros s. by apply bool_decide_eq_true. Qed.

#[export] Instance goals_tags : TagRange goals_sequent.
Proof. split. intros s t Ht. by apply elem_of_empty in Ht. Qed.

#[export] Instance goals_rules_laws : CalculusLaws goals_rules.
Proof.
  split; [|done..]. intros s sgs [d Hin]. apply Forall_forall. intros sg Hsg.
  assert (sg.1.2 = ∅ ∧ sg.2 = ∅) as [Hv Hp].
  { destruct s; simpl in Hin; repeat (apply elem_of_cons in Hin as [[= -> ->]|Hin];
      [repeat (apply elem_of_cons in Hsg as [->|Hsg]; [done|]); by apply elem_of_nil in Hsg|]);
      by apply elem_of_nil in Hin. }
  split; rewrite Hv, ?Hp; set_solver.
Qed.

#[export] Instance goals_extensible : Extensible (D := unit) (λ _, goals_rules) (λ _ _, True).
Proof. split; [by split|done..]. Qed.

Section cut.
Context {B : Bdd} {BD : BddDict} {HO : HashOrder} {G : SpotAlgos B} {F : FloatLog} {T : TreeEq}.

Definition goals_rule : Rule.t (St := checker) :=
  Rule.first [Rule.mk_axiom goals_ax; Rule.mk_infrule goals_inf].

Definition goals_abdrule : AbdRule.t (St := checker) (D := unit) := AbdRule.lift goals_rule.

Lemma goals_inf_ok s sgs d : (sgs, d) ∈ goals_inf s → inf_ok s sgs ∧ length sgs ≤ 2.
Proof.
  intros Hin. split; [by exists d|].
  destruct s; simpl in Hin; repeat (apply elem_of_cons in Hin as [[= -> ->]|Hin]; [simpl; lia|]);
    by apply elem_of_nil in Hin.
Qed.

Lemma goals_ax_ok s d : goals_ax s = Some d → ax_ok s.
Proof. by destruct s. Qed.

(** The search misses proofs.  When an application has closed its goal, the
    states popped as its parents are those of all goals above, open or not, and
    with them their other applications.  Here the rules keep their contract and
    the depth-first search finds a closed proof with them, but [bfs] gives up. *)
Theorem bfs_cut_misses_proofs {BL : BddLaws B} {DL : BddDictLaws BD} {HL : HashOrderLaws HO}
    {GL : SpotAlgosLaws B G} {FL : FloatLogLaws F} {TL : TreeEqLaws T} (c : checker) :
  abdrule_ok (K := λ _, goals_rules) (extends := λ _ _, True) (inv := checker_ok) 2 2 goals_abdrule ∧
  (∃ s', Abducer.bfs 100 10 goals_abdrule (Top : @sequent goals_sequent) tt (λ _, true)
     (Abducer.mkAbduction (Prover.mkSearch c 0) 0) = (Ok None, s')) ∧
  ∃ q s', Prover.idfs 1 10 (Rule.mk_axiom goals_ax) (Rule.mk_infrule goals_inf)
     (Top : @sequent goals_sequent) (Prover.mkSearch c 0) = (Ok (Some q), s') ∧
     Prf.is_closed q = true.
Proof.
  split; [|split].
  - apply lift_ok. intros _. apply first_ok, Forall_cons_2; [|apply Forall_singleton].
    + eapply rule_ok_mono; [| |apply mk_axiom_ok, goals_ax_ok]; lia.
    + apply mk_infrule_ok, goals_inf_ok.
  - eexists. vm_compute. reflexivity.
  - eexists _, _. split; [vm_compute; reflexivity|by vm_compute].
Qed.
End cut.

Lemma bfs_cut_misses_proofs_witness :
  ∃ s', Abducer.bfs 100 10 goals_abdrule (Top : @sequent goals_sequent) tt (λ _, true)
    (Abducer.mkAbduction (Prover.mkSearch search_checker 0) 0) = (Ok None, s').
Proof. apply (bfs_cut_misses_proofs search_checker). Defined.
End Cut.
