(* ===== verification/Subst.v ===== *)
(** * Substitutions of variables: module [Subst] of [varManager.ml]

    Maps from variables to variables.  [avoid] and [mk_subst] rename to fresh
    variables. *)

From S2P Require Import Prelude Exn Spot ProofGraph Gtc ProofAut Trace Soundness.
From S2P Require Import SoundnessSpec Soundcheck Minimize MinimizeProofs VarManager TagPairs.

Module Subst.

Abbreviation t := (gmap Z Z).

Definition empty : t := ∅.
Definition singleton (x y : Z) : t := <[x := y]> ∅.

(** [Treemap.of_list] *)
Definition of_list (l : list (Z * Z)) : t := foldl (λ m kv, <[kv.1 := kv.2]> m) ∅ l.

Definition strip (theta : t) : t := filter (λ xy, xy.1 ≠ xy.2) theta.

(** [Var.Set.partition] and [Var.Set.elements] *)
Fixpoint partition_res (f : Z → res bool) (l : list Z) : res (list Z * list Z) :=
  match l with
  | [] => Ok ([], [])
  | x :: l =>
      b ← f x;
      yn ← partition_res f l;
      mret (if b : bool then (x :: yn.1, yn.2) else (yn.1, x :: yn.2))
  end.

(** [Blist.combine] raises on lists of different lengths. *)
Definition combine (l k : list Z) : res (list (Z * Z)) := map2 pair l k.

Section vars.
Context {H : VarManager.Hashcons}.
Context (seed : Z) (classify_varname : string → res VarManager.varname_class) (alphabet : list string).

Definition apply (theta : t) (v : Z) : Z :=
  if negb (VarManager.is_anonymous v) && bool_decide (is_Some (theta !! v)) then
    default v (theta !! v)
  else v.

Definition avoid (vars subvars : gset Z) : res t :=
  let allvars := vars ∪ subvars in
  ef ← partition_res (VarManager.is_exist_var classify_varname) (ints subvars);
  let '(exist_vars, free_vars) := ef in
  fresh_f_vars ← VarManager.fresh_fvars seed classify_varname alphabet allvars (length free_vars);
  fresh_e_vars ← VarManager.fresh_evars seed classify_varname alphabet allvars (length exist_vars);
  fs ← combine free_vars fresh_f_vars;
  es ← combine exist_vars fresh_e_vars;
  mret (of_list (fs ++ es)).

Definition mk_subst (fresh_vars : gset Z → nat → res (list Z)) (avoid ts : gset Z) : res t :=
  ts' ← fresh_vars (ts ∪ avoid) (size ts);
  l ← combine (ints ts) ts';
  mret (of_list l).

Definition mk_free_subst (avoid ts : gset Z) : res t :=
  mk_subst (VarManager.fresh_fvars seed classify_varname alphabet) avoid ts.

Definition mk_ex_subst (avoid ts : gset Z) : res t :=
  mk_subst (VarManager.fresh_evars seed classify_varname alphabet) avoid ts.

Definition free_binding (x y : Z) : res bool :=
  fx ← VarManager.is_free_var classify_varname x;
  if fx : bool
  then if VarManager.is_anonymous y then mret true else VarManager.is_free_var classify_varname y
  else mret false.

(** [Var.Map.partition], by the bindings in increasing order *)
Definition partition (theta : t) : res (t * t) :=
  fold_left_res (λ ab x,
    match theta !! x with
    | None => mret ab
    | Some y =>
        ok ← free_binding x y;
        mret (if ok : bool then (<[x := y]> ab.1, ab.2) else (ab.1, <[x := y]> ab.2))
    end) (∅, ∅) (ints (dom theta)).
End vars.
End Subst.

(** ** Renaming to fresh variables *)

Section specs.
Import Subst.

Lemma of_list_zip (l k : list Z) x y : NoDup l → length l = length k →
  of_list (zip l k) !! x = Some y ↔ ∃ i, l !! i = Some x ∧ k !! i = Some y.
Proof.
  intros Hnd Hlen. unfold of_list.
  assert (∀ (ps : list (Z * Z)) (m : gmap Z Z), NoDup ps.*1 →
    foldl (λ m kv, <[kv.1 := kv.2]> m) m ps !! x = Some y ↔
      (x, y) ∈ ps ∨ (x ∉ ps.*1) ∧ m !! x = Some y) as Hps.
  { induction ps as [|[a b] ps IH]; intros m Hp; simpl; [set_solver|].
    apply NoDup_cons in Hp as [Ha Hp]. rewrite IH by done. rewrite !elem_of_cons.
    destruct (decide (a = x)) as [->|Hne].
    - rewrite lookup_insert_eq. split; [intros [?|[_ [= ->]]]; auto|].
      intros [[[= ->]|Hin]|[? _]]; [auto|by left|exfalso; auto].
    - rewrite lookup_insert_ne by done. naive_solver. }
  rewrite Hps by (by rewrite fst_zip; [|lia]). rewrite lookup_empty, list_elem_of_lookup.
  setoid_rewrite lookup_zip_with_Some. naive_solver.
Qed.

(** A map between two lists. *)
Definition pairs_up (theta : gmap Z Z) (l k : list Z) : Prop :=
  ∀ x y, theta !! x = Some y ↔ ∃ i, l !! i = Some x ∧ k !! i = Some y.

Lemma pairs_up_dom theta l k : pairs_up theta l k → length l = length k → dom theta = list_to_set l.
Proof.
  intros Hp Hlen. apply set_eq. intros x. rewrite elem_of_dom, elem_of_list_to_set, list_elem_of_lookup.
  split.
  - intros [y (i & Hi & _)%Hp]. by exists i.
  - intros [i Hi]. destruct (lookup_lt_is_Some_2 k i) as [y Hy].
    { rewrite <-Hlen. by eapply lookup_lt_Some. }
    exists y. apply Hp. by exists i.
Qed.

Lemma pairs_up_inj theta l k x x' y : pairs_up theta l k → NoDup k →
  theta !! x = Some y → theta !! x' = Some y → x = x'.
Proof.
  intros Hp Hnd (i & Hi & Hy)%Hp (j & Hj & Hy')%Hp.
  rewrite (NoDup_lookup _ _ _ _ Hnd Hy Hy') in Hi. congruence.
Qed.

Lemma partition_res_ok (f : Z → res bool) l : (∀ x, x ∈ l → ∃ b, f x = Ok b) → NoDup l →
  ∃ ys ns, partition_res f l = Ok (ys, ns) ∧ NoDup (ns ++ ys) ∧
    (∀ x, x ∈ ys ↔ x ∈ l ∧ f x = Ok true) ∧ (∀ x, x ∈ ns ↔ x ∈ l ∧ f x = Ok false).
Proof.
  intros Hf. induction 1 as [|x l Hx Hnd IH]; simpl.
  { exists [], []. split; [done|]. split; [constructor|]. set_solver. }
  destruct (Hf x) as [b Hb]; [left|]. destruct IH as (ys & ns & Hp & Hn & Hy & Hno); [set_solver|].
  unfold mbind, res_bind. rewrite Hb, Hp. assert ((x ∉ ys) ∧ (x ∉ ns)) as [Hxy Hxn] by set_solver.
  destruct b; eexists _, _; (split; [done|]); simpl; (split; [|split]).
  - rewrite <-Permutation_middle. constructor; [set_solver|done].
  - intros y. rewrite !elem_of_cons, Hy. naive_solver congruence.
  - intros y. rewrite elem_of_cons, Hno. naive_solver congruence.
  - constructor; [set_solver|done].
  - intros y. rewrite elem_of_cons, Hy. naive_solver congruence.
  - intros y. rewrite !elem_of_cons, Hno. naive_solver congruence.
Qed.

Context {H : VarManager.Hashcons} {HL : VarManager.HashconsLaws H}.
Context (seed : Z) (classify : string → res VarManager.varname_class) (alphabet : list string).
Hypothesis Hal : alphabet_ok classify alphabet.

Lemma free_not_exist v : VarManager.is_free_var classify v = Ok true →
  VarManager.is_exist_var classify v = Ok true → False.
Proof.
  unfold VarManager.is_free_var, VarManager.is_exist_var, mbind, res_bind.
  destruct (VarManager.is_anonymous v); [done|]. destruct (classify _) as [c|]; [|done].
  by destruct c.
Qed.

(** [avoid] renames all of [subvars], one to one, to variables of the same class
    that are in neither set. *)
Lemma avoid_ok (vars subvars : gset Z) :
  (∀ x, x ∈ subvars → ∃ b, VarManager.is_exist_var classify x = Ok b) →
  ∃ theta, avoid seed classify alphabet vars subvars = Ok theta ∧ dom theta = subvars ∧
    (∀ x x' y, theta !! x = Some y → theta !! x' = Some y → x = x') ∧
    ∀ x y, theta !! x = Some y → (y ∉ vars ∪ subvars) ∧
      (VarManager.is_exist_var classify x = Ok true ∧ VarManager.is_exist_var classify y = Ok true ∨
       VarManager.is_exist_var classify x = Ok false ∧ VarManager.is_free_var classify y = Ok true).
Proof.
  intros Hex. destruct (partition_res_ok (VarManager.is_exist_var classify) (ints subvars))
    as (es & fs & Hp & Hnd & Hes & Hfs); [intros x Hx%elem_of_ints; auto|apply NoDup_ints|].
  destruct (search_vars_ok seed classify alphabet Hal (vars ∪ subvars) true (length fs))
    as (fv & Hfv & Hlf & Hndf & Hf).
  destruct (search_vars_ok seed classify alphabet Hal (vars ∪ subvars) false (length es))
    as (ev & Hev & Hle & Hnde & He).
  assert (of_list (zip fs fv ++ zip es ev) = of_list (zip (fs ++ es) (fv ++ ev))) as Heq.
  { f_equal. by rewrite zip_with_app by done. }
  assert (pairs_up (of_list (zip (fs ++ es) (fv ++ ev))) (fs ++ es) (fv ++ ev)) as Hpu.
  { intros x y. apply of_list_zip; [done|]. rewrite !length_app. lia. }
  exists (of_list (zip (fs ++ es) (fv ++ ev))). split; [|split; [|split]].
  - unfold avoid, mbind, res_bind. rewrite Hp. unfold VarManager.fresh_fvars, VarManager.fresh_evars.
    rewrite Hfv, Hev. unfold combine. rewrite !map2_pair by done. by rewrite <-Heq.
  - rewrite (pairs_up_dom _ _ _ Hpu) by (rewrite !length_app; lia). apply set_eq. intros x.
    rewrite elem_of_list_to_set, elem_of_app, Hes, Hfs, elem_of_ints. split; [naive_solver|].
    intros Hx. destruct (Hex x Hx) as [[]]; naive_solver.
  - intros x x' y. apply (pairs_up_inj _ _ _ _ _ _ Hpu). apply NoDup_app. split; [done|].
    split; [|done]. intros v Hv1 Hv2. apply (free_not_exist v); [by apply Hf|by apply He].
  - intros x y (i & Hx & Hy)%Hpu. destruct (decide (i < length fs)) as [Hi|Hi].
    + rewrite lookup_app_l in Hx, Hy by lia. apply list_elem_of_lookup_2 in Hx, Hy.
      apply Hfs in Hx as [_ Hx]. destruct (Hf y Hy). auto.
    + rewrite lookup_app_r in Hx, Hy by lia. apply list_elem_of_lookup_2 in Hx, Hy.
      apply Hes in Hx as [_ Hx]. destruct (He y Hy). auto.
Qed.

(** The parts of a substitution. *)
Lemma partition_ok (theta a b : gmap Z Z) : partition classify theta = Ok (a, b) → ∀ x y,
  (a !! x = Some y ↔ theta !! x = Some y ∧ free_binding classify x y = Ok true) ∧
  (b !! x = Some y ↔ theta !! x = Some y ∧ free_binding classify x y = Ok false).
Proof.
  unfold partition. set (step := λ (ab : Subst.t * Subst.t) (x : Z), _).
  assert (∀ l ab, NoDup l → (∀ x, x ∈ l → ab.1 !! x = None ∧ ab.2 !! x = None) →
    fold_left_res step ab l = Ok (a, b) → ∀ x y,
      (a !! x = Some y ↔ ab.1 !! x = Some y ∨ x ∈ l ∧ theta !! x = Some y ∧ free_binding classify x y = Ok true) ∧
      (b !! x = Some y ↔ ab.2 !! x = Some y ∨ x ∈ l ∧ theta !! x = Some y ∧ free_binding classify x y = Ok false)) as Hl.
  { induction l as [|z l IH]; intros [a' b'] Hnd Hout; simpl; [intros [= -> ->]; set_solver|].
    apply NoDup_cons in Hnd as [Hz Hnd]. unfold mbind, res_bind. unfold step at 1. simpl.
    destruct (Hout z) as [Hza Hzb]; [left|]. simpl in Hza, Hzb.
    destruct (theta !! z) as [w|] eqn:E.
    - unfold mbind, res_bind. destruct (free_binding classify z w) as [[]|] eqn:Ef; [| |done]; intros Hr x y;
        (destruct (λ Ho, IH _ Hnd Ho Hr x y) as [Ha Hb];
          [intros u Hu; simpl; rewrite ?lookup_insert_ne by set_solver; apply Hout; by right|]);
        rewrite Ha, Hb, elem_of_cons; simpl;
        (destruct (decide (z = x)) as [->|Hne];
           [rewrite ?lookup_insert_eq; naive_solver congruence
           |rewrite ?lookup_insert_ne by done; naive_solver]).
    - intros Hr x y. destruct (λ Ho, IH _ Hnd Ho Hr x y) as [Ha Hb]; [intros u Hu; apply Hout; by right|].
      rewrite Ha, Hb, elem_of_cons. simpl. naive_solver congruence. }
  intros Hr x y. destruct (Hl (ints (dom theta)) (∅, ∅) (NoDup_ints _)
    ltac:(intros; simpl; by rewrite !lookup_empty) Hr x y) as [-> ->].
  simpl. rewrite lookup_empty, elem_of_ints, elem_of_dom. split; split; naive_solver.
Qed.
End specs.
