(* ===== verification/Listset.v ===== *)
(** * Ordered sets as lists: [listset.ml], [listmultiset.ml], [misc.ml]

    A set is the list of its elements in increasing order.  The operations walk
    the list and compare; [of_list] sorts and removes duplicates.  [List.merge]
    and [List.fast_sort] are OCaml's. *)

From S2P Require Import Prelude Exn.

(** ** Orders *)

(** [Utilsigs.BasicType], without hashing and printing. *)
Class BasicType (T : Type) := {
  compare : T → T → comparison;
  eqb : T → T → bool;
}.

Class BasicTypeLaws (T : Type) {C : BasicType T} : Prop := {
  eqb_spec x y : eqb x y = true ↔ x = y;
  compare_eq x y : compare x y = Eq ↔ x = y;
  compare_antisym x y : compare y x = CompOpp (compare x y);
  compare_trans x y z : compare x y = Lt → compare y z = Lt → compare x z = Lt;
}.

(** Variables and tags, which are the integers of the hash-consing table. *)
#[global] Instance Z_basic : BasicType Z := {| compare := Z.compare; eqb := Z.eqb |}.

#[global] Instance Z_basic_laws : BasicTypeLaws Z.
Proof.
  split; unfold compare; simpl.
  - apply Z.eqb_eq.
  - apply Z.compare_eq_iff.
  - intros x y. apply Z.compare_antisym.
  - intros x y z. rewrite !Z.compare_lt_iff. lia.
Qed.

(** [Pair.Make] *)
#[global] Instance pair_basic {S T} `{!BasicType S, !BasicType T} : BasicType (S * T) := {|
  compare i j := match compare i.1 j.1 with Eq => compare i.2 j.2 | n => n end;
  eqb i j := eqb i.1 j.1 && eqb i.2 j.2;
|}.

#[global] Instance pair_basic_laws {S T} `{BasicTypeLaws S, BasicTypeLaws T} : BasicTypeLaws (S * T).
Proof.
  split; unfold eqb, compare; simpl.
  - intros [a b] [c d]. rewrite andb_true_iff, !eqb_spec. simpl. naive_solver.
  - intros [a b] [c d]; simpl. pose proof (compare_eq a c). pose proof (compare_eq b d).
    destruct (compare a c) eqn:E; [|naive_solver..].
    destruct (compare b d) eqn:E'; naive_solver.
  - intros [a b] [c d]; simpl. rewrite (compare_antisym a c).
    destruct (compare a c); simpl; [apply compare_antisym|done..].
  - intros [a b] [c d] [e f]; simpl. intros H1 H2.
    destruct (compare a c) eqn:E1; [apply compare_eq in E1 as ->| |done].
    + destruct (compare c e) eqn:E2; [|done..]. by apply (compare_trans _ d).
    + destruct (compare c e) eqn:E2; [apply compare_eq in E2 as ->; by rewrite E1| |done].
      by rewrite (compare_trans _ _ _ E1 E2).
Qed.

(** ** Operations *)

Module Listset.
Section listset.
Context {T : Type} {C : BasicType T}.

Fixpoint uniq (l : list T) : res (list T) :=
  match l with
  | x :: tl =>
      match tl with
      | [] => Ok [x]
      | x' :: _ =>
          match compare x x' with
          | Eq => uniq tl
          | Lt => r ← uniq tl; mret (x :: r)
          | Gt => Err EExn
          end
      end
  | [] => Ok []
  end.

(** The order of [List.fast_sort]. *)
Definition cmp_le (x y : T) : Prop := compare x y ≠ Gt.

#[global] Instance cmp_le_dec x y : Decision (cmp_le x y).
Proof. unfold cmp_le. destruct (compare x y); (left; discriminate) || (right; congruence). Defined.

Definition of_list (l : list T) : res (list T) := uniq (merge_sort cmp_le l).

(** [List.merge] *)
Definition union (xs ys : list T) : res (list T) := uniq (list_merge cmp_le xs ys).

Definition map {S} (f : S → T) (xs : list S) : res (list T) := of_list (f <$> xs).

Fixpoint add (x : T) (zs : list T) : list T :=
  match zs with
  | [] => [x]
  | y :: ys =>
      match compare x y with
      | Eq => zs
      | Lt => x :: zs
      | Gt => y :: add x ys
      end
  end.

Fixpoint mem (x : T) (l : list T) : bool :=
  match l with
  | [] => false
  | y :: ys =>
      match compare x y with
      | Eq => true
      | Gt => mem x ys
      | Lt => false
      end
  end.

Fixpoint remove (x : T) (zs : list T) : list T :=
  match zs with
  | [] => []
  | y :: ys =>
      match compare x y with
      | Eq => ys
      | Gt => y :: remove x ys
      | Lt => zs
      end
  end.

Fixpoint subset (xs ys : list T) : bool :=
  match xs with
  | [] => true
  | w :: ws =>
      (fix walk (ys : list T) : bool :=
         match ys with
         | [] => false
         | z :: zs =>
             match compare w z with
             | Eq => subset ws zs
             | Gt => walk zs
             | Lt => false
             end
         end) ys
  end.

Fixpoint diff (xs ys : list T) : list T :=
  match xs with
  | [] => []
  | w :: ws =>
      (fix walk (ys : list T) : list T :=
         match ys with
         | [] => w :: ws
         | z :: zs =>
             match compare w z with
             | Eq => diff ws zs
             | Lt => w :: diff ws ys
             | Gt => walk zs
             end
         end) ys
  end.

(** [Flist.equal] *)
Fixpoint equal (l l' : list T) : bool :=
  match l, l' with
  | [], [] => true
  | hd :: tl, hd' :: tl' => eqb hd hd' && equal tl tl'
  | _, _ => false
  end.
End listset.

Section folds.
Context {T : Type}.

Fixpoint find_map {B} (f : T → option B) (l : list T) : option B :=
  match l with
  | [] => None
  | x :: xs => match f x with None => find_map f xs | r => r end
  end.

Definition map_to {A B} (oadd : B → A → A) (oempty : A) (f : T → B) (xs : list T) : A :=
  foldl (λ ys z, oadd (f z) ys) oempty xs.

(** [Option.dest Fun.id oadd] *)
Definition opt_add {A B} (oadd : B → A → A) (o : option B) (a : A) : A :=
  match o with None => a | Some x => oadd x a end.

Definition opt_map_to {A B} (oadd : B → A → A) (oempty : A) (f : T → option B) (xs : list T) : A :=
  map_to (opt_add oadd) oempty f xs.

(** [List.partition] *)
Fixpoint partition (p : T → bool) (l : list T) : list T * list T :=
  match l with
  | [] => ([], [])
  | x :: l =>
      let '(yes, no) := partition p l in
      if p x then (x :: yes, no) else (yes, x :: no)
  end.

(** [Blist.cartesian_product] *)
Definition cartesian_product {S} (xs : list T) (ys : list S) : list (T * S) :=
  foldl (λ acc x, foldl (λ acc' y, (x, y) :: acc') acc ys) [] xs.

(** [Misc.fixpoint] *)
Fixpoint fixpoint (fuel : nat) (eq : T → T → bool) (f : T → T) (x : T) : res T :=
  match fuel with
  | O => Err EFuel
  | S fuel =>
      let y := f x in
      if eq x y then Ok x else fixpoint fuel eq f y
  end.
End folds.
End Listset.

(** ** What the operations compute *)

Section listset_specs.
Import Listset.
Context {T : Type} `{HC : BasicTypeLaws T}.
Implicit Types (x y z : T) (l xs ys : list T).

Lemma compare_refl x : compare x x = Eq.
Proof. by apply compare_eq. Qed.

Lemma compare_gt x y : compare x y = Gt → compare y x = Lt.
Proof. intros H. by rewrite compare_antisym, H. Qed.

Definition cmp_lt x y : Prop := compare x y = Lt.

#[global] Instance cmp_lt_trans : Transitive cmp_lt.
Proof. intros x y z. apply compare_trans. Qed.

Lemma cmp_lt_irrefl x : ¬ cmp_lt x x.
Proof. unfold cmp_lt. by rewrite compare_refl. Qed.

Lemma cmp_lt_asym x y : cmp_lt x y → ¬ cmp_lt y x.
Proof. intros H H'. by apply (cmp_lt_irrefl x), (cmp_lt_trans _ y). Qed.

(** In increasing order, without duplicates. *)
Definition ordered l : Prop := StronglySorted cmp_lt l.

Lemma ordered_cons x l : ordered (x :: l) ↔ Forall (cmp_lt x) l ∧ ordered l.
Proof. split; [intros H; by apply StronglySorted_inv in H as []|intros []; by constructor]. Qed.

Lemma ordered_NoDup l : ordered l → NoDup l.
Proof.
  induction 1 as [|x l _ IH Hx]; constructor; [|done].
  intros Hin. rewrite Forall_forall in Hx. by apply (cmp_lt_irrefl x), Hx.
Qed.

(** An ordered list is determined by its elements. *)
Lemma ordered_ext l k : ordered l → ordered k → (∀ x, x ∈ l ↔ x ∈ k) → l = k.
Proof.
  intros Hl. revert k. induction Hl as [|x l Hl IH Hx]; intros [|y k] Hk Hext.
  - done.
  - exfalso. eapply not_elem_of_nil, Hext. by left.
  - exfalso. eapply not_elem_of_nil, Hext. by left.
  - apply ordered_cons in Hk as [Hy Hk]. rewrite Forall_forall in Hx, Hy.
    assert (x = y) as <-.
    { pose proof (proj1 (Hext x) ltac:(left)) as [Hxy|Hxk]%elem_of_cons; [done|].
      pose proof (proj2 (Hext y) ltac:(left)) as [Hyx|Hyl]%elem_of_cons; [done|].
      by destruct (cmp_lt_asym x y); [apply Hx|apply Hy]. }
    f_equal. apply IH; [done|]. intros z.
    destruct (decide (compare x z = Lt)) as [Hz|Hz].
    + assert (z ≠ x) by (intros ->; by apply (cmp_lt_irrefl x)). specialize (Hext z). set_solver.
    + split; intros Hin; exfalso; [by apply Hz, Hx|by apply Hz, Hy].
Qed.

Lemma elem_of_add x y l : y ∈ add x l ↔ y = x ∨ y ∈ l.
Proof.
  induction l as [|z l IH]; simpl; [set_solver|].
  destruct (compare x z) eqn:E; [apply compare_eq in E as ->; set_solver|set_solver|].
  rewrite !elem_of_cons, IH. naive_solver.
Qed.

Lemma add_ordered x l : ordered l → ordered (add x l).
Proof.
  induction 1 as [|z l Hl IH Hz]; simpl; [by repeat constructor|].
  destruct (compare x z) eqn:E.
  - by constructor.
  - constructor; [by constructor|]. constructor; [done|].
    eapply Forall_impl; [exact Hz|]. intros y Hy. by apply (cmp_lt_trans _ z).
  - constructor; [done|]. rewrite Forall_forall in Hz |- *.
    intros y [->|Hy]%elem_of_add; [by apply compare_gt|by apply Hz].
Qed.

Lemma mem_spec x l : ordered l → mem x l = true ↔ x ∈ l.
Proof.
  induction 1 as [|z l Hl IH Hz]; simpl; [set_solver|]. rewrite elem_of_cons.
  destruct (compare x z) eqn:E.
  - apply compare_eq in E as ->. naive_solver.
  - split; [done|]. intros [->|Hx]; [by rewrite compare_refl in E|].
    rewrite Forall_forall in Hz. exfalso. apply (cmp_lt_asym x z E). by apply Hz.
  - rewrite IH. split; [auto|]. intros [->|?]; [by rewrite compare_refl in E|done].
Qed.

Lemma remove_spec x l : ordered l → ordered (remove x l) ∧ ∀ y, y ∈ remove x l ↔ y ∈ l ∧ y ≠ x.
Proof.
  induction 1 as [|z l Hl [IH1 IH2] Hz]; simpl; [split; [constructor|set_solver]|].
  pose proof (ordered_NoDup _ Hl) as Hnd. rewrite Forall_forall in Hz.
  assert (z ∉ l) as Hzl by (intros Hin; apply (cmp_lt_irrefl z); by apply Hz).
  destruct (compare x z) eqn:E.
  - apply compare_eq in E as ->. split; [done|]. set_solver.
  - split; [constructor; [done|by apply Forall_forall]|]. intros y. rewrite elem_of_cons.
    split; [|by intros []]. intros Hy. split; [done|]. intros ->. destruct Hy as [->|Hy].
    + by rewrite compare_refl in E.
    + exfalso. apply (cmp_lt_asym x z E). by apply Hz.
  - split.
    + constructor; [done|]. apply Forall_forall. intros y [Hy _]%IH2. by apply Hz.
    + intros y. rewrite !elem_of_cons, IH2.
      assert (z ≠ x) by (intros ->; by rewrite compare_refl in E). naive_solver.
Qed.

Lemma remove_ordered x l : ordered l → ordered (remove x l).
Proof. intros Hl. by apply (remove_spec x). Qed.

Lemma elem_of_remove x y l : ordered l → y ∈ remove x l ↔ y ∈ l ∧ y ≠ x.
Proof. intros Hl. by apply (remove_spec x). Qed.

Lemma equal_spec l k : equal l k = true ↔ l = k.
Proof.
  revert k. induction l as [|x l IH]; intros [|y k]; simpl; [done..|].
  rewrite andb_true_iff, eqb_spec, IH. naive_solver.
Qed.

(** *** Sorting *)

#[global] Instance cmp_le_total : Total (cmp_le (T := T)).
Proof.
  intros x y. unfold cmp_le. rewrite (compare_antisym x y). destruct (compare x y); auto.
Qed.

#[global] Instance cmp_le_transitive : Transitive (cmp_le (T := T)).
Proof.
  intros x y z. unfold cmp_le. intros Hxy Hyz Hxz. apply compare_gt in Hxz.
  destruct (compare x y) eqn:E; [apply compare_eq in E as ->; by apply Hyz; rewrite compare_antisym, Hxz| |done].
  apply Hyz. rewrite compare_antisym. by rewrite (compare_trans _ _ _ Hxz E).
Qed.

Lemma uniq_ok l : StronglySorted cmp_le l →
  ∃ r, uniq l = Ok r ∧ ordered r ∧ ∀ x, x ∈ r ↔ x ∈ l.
Proof.
  induction 1 as [|x l Hl (r & Hr & Ho & Hin) Hx].
  { exists []. split; [done|]. split; [constructor|done]. }
  change (uniq (x :: l)) with (match l with
    | [] => Ok [x]
    | x' :: _ => match compare x x' with
                 | Eq => uniq l | Lt => r ← uniq l; mret (x :: r) | Gt => Err EExn end end).
  destruct l as [|x' l]; [exists [x]; split; [done|split; [by repeat constructor|done]]|].
  rewrite Hr. apply Forall_cons in Hx as [Hxx' Hx]. destruct (compare x x') eqn:E; [| |done].
  - apply compare_eq in E as ->. exists r. split; [done|]. split; [done|]. set_solver.
  - exists (x :: r). split; [done|]. split; [|set_solver]. constructor; [done|].
    apply Forall_forall. intros y [->|Hy]%Hin%elem_of_cons; [done|].
    apply StronglySorted_inv in Hl as [_ Hl]. rewrite Forall_forall in Hl. specialize (Hl y Hy).
    unfold cmp_lt, cmp_le in *. destruct (compare x' y) eqn:E'; [|by apply (compare_trans _ x')|done].
    by apply compare_eq in E' as ->.
Qed.

Lemma of_list_ok l : ∃ r, of_list l = Ok r ∧ ordered r ∧ ∀ x, x ∈ r ↔ x ∈ l.
Proof.
  destruct (uniq_ok (merge_sort cmp_le l)) as (r & Hr & Ho & Hin).
  { apply Sorted_StronglySorted; [apply _|]. apply Sorted_merge_sort, _. }
  exists r. split; [done|]. split; [done|]. intros x. by rewrite Hin, merge_sort_Permutation.
Qed.

Lemma map_ok {S} (f : S → T) (l : list S) :
  ∃ r, map f l = Ok r ∧ ordered r ∧ ∀ x, x ∈ r ↔ ∃ a, a ∈ l ∧ x = f a.
Proof.
  destruct (of_list_ok (f <$> l)) as (r & Hr & Ho & Hin). exists r. split; [done|]. split; [done|].
  intros x. rewrite Hin, list_elem_of_fmap. naive_solver.
Qed.

Lemma ordered_le l : ordered l → Sorted cmp_le l.
Proof.
  intros Hl. apply StronglySorted_Sorted. induction Hl as [|x l _ IH Hx]; constructor; [done|].
  eapply Forall_impl; [exact Hx|]. unfold cmp_lt, cmp_le. congruence.
Qed.

Lemma union_ok xs ys : ordered xs → ordered ys →
  ∃ r, union xs ys = Ok r ∧ ordered r ∧ ∀ x, x ∈ r ↔ x ∈ xs ∨ x ∈ ys.
Proof.
  intros Hxs Hys. destruct (uniq_ok (list_merge cmp_le xs ys)) as (r & Hr & Ho & Hin).
  { apply Sorted_StronglySorted; [apply _|]. apply Sorted_list_merge; [apply _|by apply ordered_le..]. }
  exists r. split; [done|]. split; [done|]. intros x.
  by rewrite Hin, merge_Permutation, elem_of_app.
Qed.

(** *** Comparison of two sets *)

Lemma below_not_elem x z l : cmp_lt x z → ordered (z :: l) → x ∉ z :: l.
Proof.
  intros Hxz [Hz _]%ordered_cons [->|Hx]%elem_of_cons; [by apply (cmp_lt_irrefl z)|].
  rewrite Forall_forall in Hz. by apply (cmp_lt_asym x z), Hz.
Qed.

Lemma diff_spec xs ys : ordered xs → ordered ys →
  ordered (diff xs ys) ∧ ∀ x, x ∈ diff xs ys ↔ x ∈ xs ∧ x ∉ ys.
Proof.
  intros Hxs. revert ys. induction Hxs as [|w ws Hws IH Hw]; intros ys Hys.
  { split; [constructor|set_solver]. }
  assert (w ∉ ws) as Hwws.
  { intros Hin. rewrite Forall_forall in Hw. apply (cmp_lt_irrefl w); by apply Hw. }
  induction Hys as [|z zs Hzs IHys Hz]; [split; [by constructor|set_solver]|].
  assert (ordered (z :: zs)) as Hys by by constructor. simpl.
  destruct (compare w z) eqn:E.
  - apply compare_eq in E as ->. destruct (IH zs Hzs) as [IH1 IH2]. split; [done|]. intros x.
    rewrite IH2, !elem_of_cons. destruct (decide (compare x z = Eq)) as [->%compare_eq|Hne]; [naive_solver|].
    assert (x ≠ z) by (intros ->; by apply Hne, compare_refl). naive_solver.
  - destruct (IH (z :: zs) Hys) as [IH1 IH2]. split.
    + constructor; [done|]. rewrite Forall_forall in Hw |- *. intros y [Hy _]%IH2. by apply Hw.
    + intros x. rewrite elem_of_cons, IH2.
      pose proof (below_not_elem _ _ _ E Hys) as Hn. rewrite (elem_of_cons ws). naive_solver.
  - destruct IHys as [IH1 IH2]. split; [done|]. intros x. rewrite IH2.
    rewrite (elem_of_cons zs). split; [intros [Hx Hn]; split; [done|]; intros [->|?]; [|done]|naive_solver].
    apply compare_gt in E. by apply (below_not_elem z w ws E); [constructor|].
Qed.

Lemma subset_spec xs ys : ordered xs → ordered ys → subset xs ys = true ↔ ∀ x, x ∈ xs → x ∈ ys.
Proof.
  intros Hxs. revert ys. induction Hxs as [|w ws Hws IH Hw]; intros ys Hys; [set_solver|].
  induction Hys as [|z zs Hzs IHys Hz]; [set_solver|].
  assert (ordered (z :: zs)) as Hys by by constructor. simpl. rewrite Forall_forall in Hw.
  destruct (compare w z) eqn:E.
  - apply compare_eq in E as ->. rewrite (IH zs Hzs). split.
    + intros H x [->|Hx]%elem_of_cons; [left|right; auto].
    + intros H x Hx. assert (x ≠ z) by (intros ->; apply (cmp_lt_irrefl z); by apply Hw). set_solver.
  - split; [done|]. intros H. exfalso. apply (below_not_elem _ _ _ E Hys), H. left.
  - rewrite IHys. split; [set_solver|]. intros H x Hx.
    assert (x ≠ z); [|set_solver]. intros ->. apply compare_gt in E.
    by apply (below_not_elem z w ws E); [constructor; [|apply Forall_forall]|].
Qed.
End listset_specs.

#[export] Hint Resolve add_ordered remove_ordered : cyc.

(** ** Searches and folds *)

Section folds_specs.
Import Listset.

Lemma find_map_some {T B} (f : T → option B) l b : find_map f l = Some b → ∃ x, x ∈ l ∧ f x = Some b.
Proof.
  induction l as [|x l IH]; simpl; [done|]. destruct (f x) eqn:E.
  - intros [= <-]. exists x. split; [left|done].
  - intros (y & Hy & Hf)%IH. exists y. split; [by right|done].
Qed.

Lemma find_map_none {T B} (f : T → option B) l : find_map f l = None ↔ ∀ x, x ∈ l → f x = None.
Proof.
  induction l as [|x l IH]; simpl; [set_solver|]. destruct (f x) eqn:E.
  - split; [done|]. intros H. rewrite H in E by left. done.
  - rewrite IH. set_solver.
Qed.

Lemma find_map_is_some {T B} (f : T → option B) l : is_Some (find_map f l) ↔ ∃ x, x ∈ l ∧ is_Some (f x).
Proof.
  split.
  - intros [b (x & Hx & Hf)%find_map_some]. exists x. split; [done|by eexists].
  - intros (x & Hx & b & Hf). destruct (find_map f l) eqn:E; [by eexists|].
    rewrite find_map_none in E. by rewrite E in Hf.
Qed.

Lemma find_map_app {T B} (f : T → option B) l k :
  find_map f (l ++ k) = match find_map f l with None => find_map f k | r => r end.
Proof. induction l as [|x l IH]; simpl; [done|]. by destruct (f x). Qed.

(** A search in the concatenation is the nested search. *)
Lemma find_map_concat {S T B} (f : T → option B) (g : S → list T) l :
  find_map f (l ≫= g) = find_map (λ x, find_map f (g x)) l.
Proof. induction l as [|x l IH]; [done|]. rewrite bind_cons, find_map_app, IH. done. Qed.

Lemma find_map_ext {T B} (f g : T → option B) l : (∀ x, x ∈ l → f x = g x) → find_map f l = find_map g l.
Proof.
  induction l as [|x l IH]; intros H; simpl; [done|]. rewrite H by left. rewrite IH; [done|].
  intros y Hy. apply H. by right.
Qed.

Lemma elem_of_cartesian_product {T S} (xs : list T) (ys : list S) x y :
  (x, y) ∈ cartesian_product xs ys ↔ x ∈ xs ∧ y ∈ ys.
Proof.
  assert (∀ (a : T) l (acc : list (T * S)), (x, y) ∈ foldl (λ acc' y, (a, y) :: acc') acc l ↔
    (x, y) ∈ acc ∨ x = a ∧ y ∈ l) as Hin.
  { intros a. induction l as [|b l IH]; intros acc; simpl; [set_solver|]. rewrite IH. set_solver. }
  unfold cartesian_product. assert (∀ acc, (x, y) ∈ foldl (λ acc x, foldl (λ acc' y, (x, y) :: acc') acc ys)
    acc xs ↔ (x, y) ∈ acc ∨ x ∈ xs ∧ y ∈ ys) as H; [|rewrite H; set_solver].
  induction xs as [|a xs IH]; intros acc; simpl; [set_solver|]. rewrite IH, Hin. set_solver.
Qed.

Lemma partition_spec {T} (p : T → bool) l :
  partition p l = (filter (λ x, p x = true) l, filter (λ x, p x = false) l).
Proof.
  induction l as [|x l IH]; simpl; [done|]. rewrite IH, !filter_cons.
  destruct (p x) eqn:E; repeat case_decide; congruence.
Qed.

Context {T : Type} `{HC : BasicTypeLaws T}.

Lemma elem_of_opt_map_to {S} (f : S → option T) (acc : list T) l x :
  x ∈ opt_map_to add acc f l ↔ x ∈ acc ∨ ∃ y, y ∈ l ∧ f y = Some x.
Proof.
  unfold opt_map_to, map_to. revert acc. induction l as [|y l IH]; intros acc; simpl; [set_solver|].
  rewrite IH. destruct (f y) eqn:E; simpl; [rewrite elem_of_add|]; set_solver.
Qed.

Lemma opt_map_to_ordered {S} (f : S → option T) (acc : list T) l :
  ordered acc → ordered (opt_map_to add acc f l).
Proof.
  unfold opt_map_to, map_to. revert acc. induction l as [|y l IH]; intros acc Ha; simpl; [done|].
  apply IH. destruct (f y); simpl; auto with cyc.
Qed.

Lemma elem_of_map_to {S} (f : S → T) (acc : list T) l x :
  x ∈ map_to add acc f l ↔ x ∈ acc ∨ ∃ y, y ∈ l ∧ f y = x.
Proof.
  unfold map_to. revert acc. induction l as [|y l IH]; intros acc; simpl; [set_solver|].
  rewrite IH, elem_of_add. set_solver.
Qed.

Lemma map_to_ordered {S} (f : S → T) (acc : list T) l : ordered acc → ordered (map_to add acc f l).
Proof.
  unfold map_to. revert acc. induction l as [|y l IH]; intros acc Ha; simpl; [done|].
  apply IH. auto with cyc.
Qed.

Lemma filter_ordered (P : T → Prop) `{∀ x, Decision (P x)} l : ordered l → ordered (filter P l).
Proof.
  induction 1 as [|x l _ IH Hx]; [constructor|]. rewrite filter_cons. case_decide; [|done].
  constructor; [done|]. rewrite Forall_forall in Hx |- *.
  intros y [_ Hy]%list_elem_of_filter. by apply Hx.
Qed.
End folds_specs.

(** ** Saturation *)

(** A function that only adds elements of a finite universe reaches a fixpoint. *)
Section saturate.
Import Listset.
Context {T : Type} `{HC : BasicTypeLaws T} (f : list T → list T) (P : list T → Prop) (U : list T).
Context (f_P : ∀ l, P l → P (f l)).
Context (f_ordered : ∀ l, ordered l → P l → ordered (f l)).
Context (f_grows : ∀ l x, P l → x ∈ l → x ∈ f l).
Context (f_bound : ∀ l, P l → ∀ x, x ∈ l → x ∈ U).

Lemma fixpoint_reached fuel l : ordered l → P l → length U - length l < fuel →
  ∃ r, fixpoint fuel equal f l = Ok r ∧ ordered r ∧ P r ∧ f r = r ∧ ∀ x, x ∈ l → x ∈ r.
Proof.
  revert l. induction fuel as [|fuel IH]; intros l Ho HP Hfuel; [lia|]. simpl.
  destruct (equal l (f l)) eqn:E.
  { apply equal_spec in E. by exists l. }
  assert (l ⊆+ f l) as Hsub.
  { apply NoDup_submseteq; [by apply ordered_NoDup|]. intros x Hx. by apply f_grows. }
  assert (length l < length (f l)) as Hlt.
  { destruct (decide (length (f l) ≤ length l)) as [Hle|]; [|lia]. exfalso.
    apply submseteq_length_Permutation in Hsub; [|done].
    assert (l = f l) as Heq; [|by rewrite <-Heq, (proj2 (equal_spec l l) eq_refl) in E].
    apply ordered_ext; [done|by apply f_ordered|]. intros x. by rewrite <-Hsub. }
  assert (length (f l) ≤ length U) as HU.
  { apply submseteq_length, NoDup_submseteq; [by apply ordered_NoDup, f_ordered|].
    apply f_bound. by apply f_P. }
  destruct (IH (f l)) as (r & Hr & Hro & HrP & Hfr & Hlr); [by apply f_ordered|by apply f_P|lia|].
  exists r. split; [done|]. repeat split; try done. intros x Hx. by apply Hlr, f_grows.
Qed.
End saturate.
