(* ===== verification/Unification.v ===== *)
(** * Unifiers in continuation-passing style: [unification.ml], [tags.ml]

    A unifier extends a state (a substitution, or two) so that two terms become
    equal and passes it to a continuation; when the continuation has no result
    it tries its next way to unify.  [mk_unifier] lifts a unifier of elements to
    containers.  The file says what such a search computes: the continuation's
    first result on the list of all solutions, in order ([computes]). *)

From S2P Require Import Prelude Exn Spot ProofGraph Gtc ProofAut Trace Soundness.
From S2P Require Import SoundnessSpec Soundcheck Minimize MinimizeProofs VarManager TagPairs Listset.

Module Unification.
Section mk_unifier.
Context {T : Type} `{BasicType T} {S B : Type}.

(** [MakeUnifier.mk_unifier] at a list set, where [choose] is the head and
    removing it leaves the tail. *)
Fixpoint unify (total linear : bool) (u : T → T → (S → option B) → S → option B)
    (marked_ys xs ys : list T) (cont : S → option B) (state : S) {struct xs} : option B :=
  match xs with
  | [] =>
      if negb total
        || (linear && bool_decide (ys = []))
        || (negb linear && Listset.equal marked_ys ys)
      then cont state
      else None
  | x :: xs =>
      Listset.find_map (λ y,
        let ys := if linear then Listset.remove y ys else ys in
        let marked_ys := if negb linear then Listset.add y marked_ys else marked_ys in
        u x y (unify total linear u marked_ys xs ys cont) state) ys
  end.

Definition mk_unifier (total linear : bool) (u : T → T → (S → option B) → S → option B)
    (xs ys : list T) (cont : S → option B) (state : S) : option B :=
  unify total linear u [] xs ys cont state.

(** [Fun.direct] *)
Definition direct {A R} (inverse : bool) (f : A → A → R) : A → A → R :=
  if inverse then λ x y, f y x else f.
End mk_unifier.

(** [Option.bind cont] *)
Definition obind {S B} (cont : S → option B) (o : option S) : option B :=
  match o with Some s => cont s | None => None end.

(** [Option.mk_lazily] *)
Definition mk_lazily {A} (b : bool) (a : A) : option A := if b then Some a else None.

(** [Tags.Elt.unify] *)
Definition unify_tag {B : Type} (update_check : tagpairs * tagpairs → bool) (t t' : Z)
    (cont : tagpairs → option B) (init_state : tagpairs) : option B :=
  let pair := find_opt (λ p, p.1 =? t)%Z (pairs init_state) in
  let res := match pair with
    | Some p => mk_lazily (p.2 =? t')%Z init_state
    | None => mk_lazily ((t =? t')%Z || update_check (init_state, {[(t, t')]}))
        ({[(t, t')]} ∪ init_state)
    end in
  obind cont res.

(** The alternatives of [Tags.Elt.biunify]. *)
Definition biunify_opts (update_check : (tagpairs * tagpairs) * (tagpairs * tagpairs) → bool)
    (t t' : Z) (state : tagpairs * tagpairs) : list (option (tagpairs * tagpairs)) :=
  let '(subst, subst') := state in
  let lpair := find_opt (λ p, p.1 =? t)%Z (pairs subst) in
  let rpair := find_opt (λ p, p.1 =? t')%Z (pairs subst') in
  match lpair, rpair with
  | Some p, Some p' => [mk_lazily (p.2 =? p'.2)%Z state]
  | Some p, None =>
      let t'' := p.2 in
      [mk_lazily ((t' =? t'')%Z || update_check (state, (∅, {[(t', t'')]})))
         (subst, {[(t', t'')]} ∪ subst')]
  | None, Some p =>
      let t'' := p.2 in
      [mk_lazily ((t =? t'')%Z || update_check (state, ({[(t, t'')]}, ∅)))
         ({[(t, t'')]} ∪ subst, subst')]
  | None, None =>
      [mk_lazily ((t =? t')%Z || update_check (state, ({[(t, t')]}, ∅)))
         ({[(t, t')]} ∪ subst, {[(t', t')]} ∪ subst');
       mk_lazily ((t =? t')%Z || update_check (state, (∅, {[(t', t)]})))
         ({[(t, t)]} ∪ subst, {[(t', t)]} ∪ subst')]
  end.

(** [Tags.Elt.biunify] *)
Definition biunify_tag {B : Type} (update_check : (tagpairs * tagpairs) * (tagpairs * tagpairs) → bool)
    (t t' : Z) (cont : tagpairs * tagpairs → option B) (state : tagpairs * tagpairs) : option B :=
  Listset.find_map (obind cont) (biunify_opts update_check t t' state).
End Unification.

(** ** What a search computes *)

Section computes.
Import Unification.
Context {T S : Type}.

(** The unifier [u] tries the states [succ x y s], in that order. *)
Definition computes {B} (u : T → T → (S → option B) → S → option B) (succ : T → T → S → list S) : Prop :=
  ∀ x y cont s, u x y cont s = Listset.find_map cont (succ x y s).

Context `{BasicType T} (succ : T → T → S → list S) (total linear : bool).

(** All solutions, in the order of the search. *)
Fixpoint solutions (marked xs ys : list T) (s : S) : list S :=
  match xs with
  | [] =>
      if negb total || (linear && bool_decide (ys = [])) || (negb linear && Listset.equal marked ys)
      then [s] else []
  | x :: xs => ys ≫= λ y, succ x y s ≫=
      solutions (if negb linear then Listset.add y marked else marked) xs
        (if linear then Listset.remove y ys else ys)
  end.

Lemma unify_solutions {B} (u : T → T → (S → option B) → S → option B) marked xs ys cont s :
  computes u succ → unify total linear u marked xs ys cont s =
    Listset.find_map cont (solutions marked xs ys s).
Proof.
  intros Hu. revert marked ys s. induction xs as [|x xs IH]; intros marked ys s; simpl.
  - destruct (_ || _); simpl; [by destruct (cont s)|done].
  - rewrite find_map_concat. apply find_map_ext. intros y _. rewrite Hu, find_map_concat.
    apply find_map_ext. intros s' _. apply IH.
Qed.

Lemma mk_unifier_computes {B} (u : T → T → (S → option B) → S → option B) :
  computes u succ → ∀ xs ys cont s,
    mk_unifier total linear u xs ys cont s = Listset.find_map cont (solutions [] xs ys s).
Proof. intros Hu xs ys cont s. by apply unify_solutions. Qed.

End computes.

(** A solution makes every element match, and every element matched when the
    search is total. *)
Section sound.
Context {T S : Type} `{BasicTypeLaws T} (succ : T → T → S → list S) (total : bool).
Context (good : S → Prop) (le : S → S → Prop) `{!PreOrder le} (R : S → T → T → Prop).
Context (R_mono : ∀ s s' x y, R s x y → le s s' → good s' → R s' x y).
Context (succ_ok : ∀ s s' x y, good s → s' ∈ succ x y s → good s' ∧ le s s' ∧ R s' x y).

Lemma solutions_sound marked xs ys s θ : good s → θ ∈ solutions succ total false marked xs ys s →
  good θ ∧ le s θ ∧ (∀ x, x ∈ xs → ∃ y, y ∈ ys ∧ R θ x y) ∧
  (total = true → ∀ y, y ∈ ys → y ∈ marked ∨ ∃ x, x ∈ xs ∧ R θ x y).
Proof.
  revert marked s. induction xs as [|x xs IH]; intros marked s Hs; simpl.
  - destruct (_ || _) eqn:E; [|by intros ?%not_elem_of_nil].
    intros ->%list_elem_of_singleton. split; [done|]. split; [done|]. split; [set_solver|].
    intros ->. simpl in E. apply equal_spec in E as ->. auto.
  - intros (y & (s' & Hθ & Hs')%list_elem_of_bind & Hy)%list_elem_of_bind.
    destruct (succ_ok s s' x y Hs Hs') as (Hg & Hle & HR).
    destruct (IH _ s' Hg Hθ) as (Hgθ & Hleθ & Hall & Htot).
    split; [done|]. split; [by etrans|]. split.
    + intros z [->|Hz]%elem_of_cons; [exists y; split; [done|by apply (R_mono s')]|auto].
    + intros Ht z Hz. destruct (Htot Ht z Hz) as [[->|Hm]%elem_of_add|(w & Hw & HRw)].
      * right. exists x. split; [left|by apply (R_mono s')].
      * by left.
      * right. exists w. split; [by right|done].
Qed.
End sound.

(** ** The unifiers of tags *)

Section tag_unifiers.
Import Unification TagPairs.

Implicit Types (s θ : tagpairs) (t u : Z).

Lemma first_pair s t : match find_opt (λ p, p.1 =? t)%Z (pairs s) with
  | Some p => p.1 = t ∧ p ∈ s
  | None => t ∉ projectl s
  end.
Proof.
  destruct (find_opt _ _) as [p|] eqn:E.
  - apply find_opt_some in E as [Hin ->%Z.eqb_eq]. split; [done|]. by apply elem_of_pairs.
  - rewrite elem_of_projectl. intros [u Hu%elem_of_pairs].
    pose proof (find_opt_none _ _ E _ Hu) as Hne. simpl in Hne. lia.
Qed.

Lemma functional_insert s t u : functional s → t ∉ projectl s ∨ (t, u) ∈ s →
  functional ({[(t, u)]} ∪ s).
Proof.
  intros Hf Ht a b b'. rewrite !elem_of_union, !elem_of_singleton. rewrite elem_of_projectl in Ht.
  intros [Hb|Hb] [Hb'|Hb']; simplify_eq; [done| | |by apply (Hf a)].
  - destruct Ht as [Ht|Ht]; [destruct Ht; by eexists|by apply (Hf t)].
  - destruct Ht as [Ht|Ht]; [destruct Ht; by eexists|by apply (Hf t)].
Qed.

Lemma functional_subseteq s θ : functional θ → s ⊆ θ → functional s.
Proof. intros Hf Hs t u u' Hu Hu'. by apply (Hf t); apply Hs. Qed.

(** The states that [Tags.unify] passes on: one at most. *)
Definition unify_tag_succ (update_check : tagpairs * tagpairs → bool) (t t' : Z) (s : tagpairs) :
    list tagpairs :=
  option_list (unify_tag update_check t t' Some s).

Lemma unify_tag_computes {B : Type} (check : tagpairs * tagpairs → bool) :
  computes (B := B) (unify_tag check) (unify_tag_succ check).
Proof.
  intros t t' cont s. unfold unify_tag_succ, unify_tag, obind, mk_lazily.
  destruct (find_opt _ _); case_match; simpl; try done; by destruct (cont _).
Qed.

(** The new pairs of [θ] are trivial or pass the check. *)
Definition allowed (ok : Z → Z → bool) s θ : Prop :=
  ∀ t u, (t, u) ∈ θ → (t, u) ∈ s ∨ t = u ∨ ok t u = true.

(** The check looks at the new pair alone. *)
Definition checks (ok : Z → Z → bool) (check : tagpairs * tagpairs → bool) : Prop :=
  ∀ s t u, check (s, {[(t, u)]}) = ok t u.

Lemma elem_of_unify_tag_succ ok check t t' s s' : checks ok check → functional s →
  s' ∈ unify_tag_succ check t t' s ↔
    s' = {[(t, t')]} ∪ s ∧ functional s' ∧ allowed ok s s'.
Proof.
  intros Hok Hf. unfold unify_tag_succ, unify_tag, obind, mk_lazily.
  pose proof (first_pair s t) as Hp. destruct (find_opt _ _) as [[a u]|]; simpl in *.
  - destruct Hp as [-> Hu]. destruct (Z.eqb_spec u t') as [->|Hne]; simpl.
    + assert ({[(t, t')]} ∪ s = s) as -> by set_solver. rewrite list_elem_of_singleton.
      split; [intros ->; split; [done|split; [done|by left]]|by intros (-> & _)].
    + split; [by intros ?%not_elem_of_nil|]. intros (-> & Hf' & _). destruct Hne.
      by apply (Hf' t); set_solver.
  - rewrite Hok. destruct ((t =? t')%Z || ok t t') eqn:E; simpl.
    + rewrite list_elem_of_singleton. split; [|by intros (-> & _)]. intros ->.
      split; [done|]. split; [by apply functional_insert; auto|].
      intros a b [[= -> ->]%elem_of_singleton|Hab]%elem_of_union; [right|by left].
      apply orb_true_iff in E as [->%Z.eqb_eq|]; auto.
    + split; [by intros ?%not_elem_of_nil|]. intros (-> & _ & Hall).
      apply orb_false_iff in E as [Hne%Z.eqb_neq Hok']. rewrite elem_of_projectl in Hp.
      destruct (Hall t t') as [Hin|[|]]; [set_solver|by destruct Hp; eexists|done|congruence].
Qed.

Lemma allowed_trans ok s s' θ : s ⊆ s' → allowed ok s s' → allowed ok s' θ → allowed ok s θ.
Proof. intros Hs H1 H2 t u Hu. destruct (H2 t u Hu) as [Hin|]; [|by right]. by apply H1. Qed.

Lemma allowed_mono ok s s' θ θ' : s ⊆ s' → θ' ⊆ θ → allowed ok s θ → allowed ok s' θ'.
Proof. intros Hs Hθ H t u Hu. destruct (H t u) as [Hin|]; [by apply Hθ|left; by apply Hs|by right]. Qed.

(** The states that [Tags.biunify] passes on: at most two. *)
Definition biunify_tag_succ (check : (tagpairs * tagpairs) * (tagpairs * tagpairs) → bool)
    (t t' : Z) (s : tagpairs * tagpairs) : list (tagpairs * tagpairs) :=
  omap id (biunify_opts check t t' s).

Lemma biunify_tag_computes {B : Type} (check : (tagpairs * tagpairs) * (tagpairs * tagpairs) → bool) :
  computes (B := B) (biunify_tag check) (biunify_tag_succ check).
Proof.
  intros t t' cont s. unfold biunify_tag_succ, biunify_tag.
  induction (biunify_opts check t t' s) as [|[o|] l IH]; [done| |]; simpl.
  - by rewrite IH.
  - done.
Qed.

Definition good2 (s : tagpairs * tagpairs) : Prop := functional s.1 ∧ functional s.2.
Definition le2 (s s' : tagpairs * tagpairs) : Prop := s.1 ⊆ s'.1 ∧ s.2 ⊆ s'.2.

#[global] Instance le2_preorder : PreOrder le2.
Proof.
  split; [by intros [a b]|]. intros [a b] [c d] [e f] [H1 H2] [H3 H4]. split; by etrans.
Qed.

(** [t] and [t'] have the same image. *)
Definition meets (s : tagpairs * tagpairs) (t t' : Z) : Prop := ∃ u, (t, u) ∈ s.1 ∧ (t', u) ∈ s.2.

Lemma biunify_tag_succ_ok (check : (tagpairs * tagpairs) * (tagpairs * tagpairs) → bool)
    t t' (s s' : tagpairs * tagpairs) : good2 s → s' ∈ biunify_tag_succ check t t' s →
  good2 s' ∧ le2 s s' ∧ meets s' t t'.
Proof.
  destruct s as [a b]. intros [Ha Hb]. simpl in Ha, Hb.
  unfold biunify_tag_succ, biunify_opts, mk_lazily, le2, meets.
  pose proof (first_pair a t) as Hl. pose proof (first_pair b t') as Hr.
  rewrite list_elem_of_omap.
  destruct (find_opt _ (pairs a)) as [[? u]|], (find_opt _ (pairs b)) as [[? u']|]; simpl in *;
    try destruct Hl as [-> Hl]; try destruct Hr as [-> Hr]; intros (o & Ho & Hs);
    rewrite ?elem_of_cons, ?elem_of_nil in Ho; destruct_or? Ho; try done; subst o; unfold id in Hs;
    destruct (_ || _) eqn:E || destruct (_ =? _)%Z eqn:E; try done; injection Hs as <-;
    unfold good2; simpl.
  - apply Z.eqb_eq in E as ->. split; [done|]. split; [done|]. by exists u'.
  - split; [split; [done|apply functional_insert; auto]|]. split; [set_solver|]. exists u. set_solver.
  - split; [split; [apply functional_insert; auto|done]|]. split; [set_solver|]. exists u'. set_solver.
  - split; [split; apply functional_insert; auto|]. split; [set_solver|]. exists t'. set_solver.
  - split; [split; apply functional_insert; auto|]. split; [set_solver|]. exists t. set_solver.
Qed.

Lemma meets_mono (s s' : tagpairs * tagpairs) t t' : meets s t t' → le2 s s' → meets s' t t'.
Proof. intros (u & H1 & H2) [H3 H4]. exists u. set_solver. Qed.
End tag_unifiers.
