(* ===== verification/OrdConstraints.v ===== *)
(** * Constraints between tags: [ord_constraints.ml]

    Sets of constraints on ordinal-valued tags, which the provers for heap
    programs use to derive the trace pairs of their rules.  [OrdTheory] says
    what they mean. *)

From S2P Require Import Prelude Exn Spot ProofGraph Gtc ProofAut Trace Soundness.
From S2P Require Import SoundnessSpec Soundcheck Minimize MinimizeProofs VarManager TagPairs.
From S2P Require Import Listset Unification.

Module Constraint.

Inductive t :=
| LT (ts : Z * Z)
| LTE (ts : Z * Z).

Definition compare (c c' : t) : comparison :=
  match c, c' with
  | LT (t, t'), LT (t'', t''') | LTE (t, t'), LTE (t'', t''') =>
      let fst := Z.compare t t'' in
      match fst with Eq => Z.compare t' t''' | _ => fst end
  | LT _, _ => Lt
  | LTE _, _ => Gt
  end.

Definition equal (c c' : t) : bool :=
  match c, c' with
  | LT (t, t'), LT (t'', t''') | LTE (t, t'), LTE (t'', t''') => (t =? t'')%Z && (t' =? t''')%Z
  | _, _ => false
  end.

#[global] Instance basic : BasicType t := {| Listset.compare := compare; eqb := equal |}.

Definition tags (c : t) : gset Z :=
  match c with
  | LT (t, t') | LTE (t, t') => list_to_set [t; t']
  end.

Definition subst_tags (theta : tagpairs) (c : t) : t :=
  match c with
  | LT ts => LT (TagPairs.apply_to_tag theta ts.1, TagPairs.apply_to_tag theta ts.2)
  | LTE ts => LTE (TagPairs.apply_to_tag theta ts.1, TagPairs.apply_to_tag theta ts.2)
  end.

Definition satisfiable (c : t) : bool :=
  match c with
  | LT (t, t') => negb (t =? t')%Z
  | _ => true
  end.

Definition valid (c : t) : bool :=
  match c with
  | LTE (t, t') => (t =? t')%Z
  | _ => false
  end.

Definition mk_unify {S B} (elt_unify : Z → Z → (S → option B) → S → option B)
    (c c' : t) (cont : S → option B) (init_state : S) : option B :=
  let do_unify (tp tp' : Z * Z) :=
    elt_unify tp.1 tp'.1 (elt_unify tp.2 tp'.2 cont) init_state in
  match c, c' with
  | LT tp, LT tp' => do_unify tp tp'
  | LTE tp, LTE tp' => do_unify tp tp'
  | _, _ => None
  end.

Definition unify {B : Type} (update_check : tagpairs * tagpairs → bool) :
    t → t → (tagpairs → option B) → tagpairs → option B :=
  mk_unify (Unification.unify_tag update_check).

Definition biunify {B : Type} (update_check : (tagpairs * tagpairs) * (tagpairs * tagpairs) → bool) :
    t → t → (tagpairs * tagpairs → option B) → tagpairs * tagpairs → option B :=
  mk_unify (Unification.biunify_tag update_check).
End Constraint.

Module OrdConstraints.
Import Constraint.

(** [Listset.Make (Constraint)] *)
Abbreviation t := (list Constraint.t).

Definition tags (cs : t) : gset Z := foldl (λ ts c, ts ∪ Constraint.tags c) ∅ cs.

Definition tag_pairs (cs : t) : tagpairs := TagPairs.mk (tags cs).

Definition subst_tags (theta : tagpairs) (cs : t) : res t := Listset.map (Constraint.subst_tags theta) cs.

Section fresh.
Context {H : VarManager.Hashcons} (alphabet : list string).

Definition generate (avoid : gset Z) (augment : bool) (t : Z) (ts : gset Z) : res OrdConstraints.t :=
  ts ← (if augment && bool_decide (ts = ∅)
        then e ← VarManager.fresh_evar 0 VarManager.classify_tag alphabet avoid; mret {[e]}
        else mret ts);
  mret (Listset.map_to Listset.add [] (λ t', LT (t', t)) (ints ts)).
End fresh.

(** [Option.mk] *)
Definition mk {A} (b : bool) (x : A) : option A := if b then Some x else None.

Definition infer_constraint (cc : Constraint.t * Constraint.t) : option Constraint.t :=
  match cc with
  | (LT (t1, t2), LT (t1', t2')) => mk (t2 =? t1')%Z (LT (t1, t2'))
  | (LT (t1, t2), LTE (t1', t2')) => mk (t2 =? t1')%Z (LT (t1, t2'))
  | (LTE (t1, t2), LT (t1', t2')) => mk (t2 =? t1')%Z (LT (t1, t2'))
  | (LTE (t1, t2), LTE (t1', t2')) => mk (t2 =? t1')%Z (LTE (t1, t2'))
  end.

Definition gen (cs : t) : t :=
  let cs_list := cs in
  let allpairs := Listset.cartesian_product cs_list cs_list in
  Listset.opt_map_to Listset.add cs infer_constraint allpairs.

Definition weaken (c : Constraint.t) : option Constraint.t :=
  match c with LT (t, t') => Some (LTE (t, t')) | _ => None end.

(** There are two constraints for every pair of tags. *)
Definition close (cs : t) : res t :=
  let ts := tags cs in
  let cs := Listset.map_to Listset.add cs (λ t, LTE (t, t)) (ints ts) in
  let cs := Listset.opt_map_to Listset.add cs weaken cs in
  Listset.fixpoint (S (2 * (size ts * size ts))) Listset.equal gen cs.

Definition get_schema (cs : t) (t : Z) : option (OrdConstraints.t * string) :=
  let '(cs', cs) := Listset.partition (λ c, bool_decide (t ∈ Constraint.tags c)) cs in
  let ident :=
    if forallb (λ c, match c with
        | LT (t', t'') => (t =? t'')%Z && negb (t =? t')%Z
        | LTE (_, t') => (t =? t')%Z
        end) cs'
    then Some "UBound"
    else if forallb (λ c, match c with
        | LTE (t', _) => (t =? t')%Z
        | _ => false
        end) cs'
    then Some "LBound"
    else None in
  pair cs <$> ident.

Section schemas.
Context {H : VarManager.Hashcons}.

Definition remove_schema (cs : t) (used : gset Z) : res (option (t * string)) :=
  tags ← filter_res (λ t, b ← VarManager.is_exist_var VarManager.classify_tag t;
    mret (b && negb (bool_decide (t ∈ used)))) (ints (tags cs));
  mret (Listset.find_map (get_schema cs) tags).

Fixpoint remove_schemas (fuel : nat) (cs : t) (used : gset Z) : res t :=
  match fuel with
  | O => Err EFuel
  | S fuel =>
      o ← remove_schema cs used;
      match o with
      | None => mret cs
      | Some (cs, _) => remove_schemas fuel cs used
      end
  end.

(** Every removal makes the set smaller. *)
Definition verify_schemas (used_tags : gset Z) (cs : t) : res bool :=
  cs ← remove_schemas (S (length cs)) cs used_tags;
  mret (bool_decide (cs = [])).
End schemas.

Definition upper_bounds (strict : bool) (t : Z) (cs : OrdConstraints.t) : gset Z :=
  let f c := match c with
    | LT (t', t'') => mk (strict && (t =? t')%Z) t''
    | LTE (t', t'') => mk (negb strict && (t =? t')%Z) t''
    end in
  Listset.opt_map_to (λ t ts, {[t]} ∪ ts) ∅ f cs.

Definition all_pairs (cs : t) : tagpairs :=
  let extract c := match c with LT tp => tp | LTE tp => tp end in
  Listset.map_to (λ tp tps, {[tp]} ∪ tps) ∅ extract cs.

Definition prog_pairs (cs : t) : tagpairs :=
  let extract c := match c with LT tp => Some tp | LTE _ => None end in
  Listset.opt_map_to (λ tp tps, {[tp]} ∪ tps) ∅ extract cs.

(** [&&] and [||] evaluate the closure first. *)
Definition inconsistent (cs : t) : res bool :=
  let lte (ts : Z * Z) :=
    existsb (λ c, match c with
      | LTE (t1', t2') => (ts.1 =? t1')%Z && (ts.2 =? t2')%Z
      | _ => false
      end) cs in
  closed ← close cs;
  mret (negb (forallb satisfiable closed)
    || existsb (λ c, match c with LT ts => lte (ts.2, ts.1) | _ => false end) cs).

Definition subsumes (cs cs' : t) : bool :=
  let cs' := filter (λ c, match c with LTE (t, t') => negb (t =? t')%Z | _ => true end = true) cs' in
  forallb (λ c, Listset.mem c cs) cs'.

Definition unify {B : Type} (total inverse : bool) (update_check : tagpairs * tagpairs → bool)
    (cs cs' : t) (cont : tagpairs → option B) (init_state : tagpairs) : option B :=
  Unification.mk_unifier total false
    (Unification.direct inverse (Constraint.unify update_check)) cs cs' cont init_state.

Definition biunify {B : Type} (total : bool)
    (update_check : (tagpairs * tagpairs) * (tagpairs * tagpairs) → bool)
    (cs cs' : t) (cont : tagpairs * tagpairs → option B) (init_state : tagpairs * tagpairs) : option B :=
  Unification.mk_unifier total false (Constraint.biunify update_check) cs cs' cont init_state.

Definition mk_update_check (f : tagpairs * (Z * Z) → bool) (st : tagpairs * tagpairs) : bool :=
  match TagPairs.dest_singleton st.2 with
  | None => false
  | Some tp => f (st.1, tp)
  end.
End OrdConstraints.

(** ** The order of constraints *)

#[global] Instance constraint_laws : BasicTypeLaws Constraint.t.
Proof.
  assert (∀ a b c d, match Z.compare a c with Eq => Z.compare b d | _ => Z.compare a c end =
    compare (T := Z * Z) (a, b) (c, d)) as Hp.
  { intros a b c d. unfold Listset.compare. simpl. by destruct (Z.compare a c). }
  split; unfold Listset.compare, Listset.eqb; simpl.
  - intros [[a b]|[a b]] [[c d]|[c d]]; simpl; rewrite ?andb_true_iff, ?Z.eqb_eq; naive_solver.
  - intros [[a b]|[a b]] [[c d]|[c d]]; simpl; rewrite ?Hp, ?compare_eq; naive_solver.
  - intros [[a b]|[a b]] [[c d]|[c d]]; simpl; rewrite ?Hp; try done; apply compare_antisym.
  - intros [[a b]|[a b]] [[c d]|[c d]] [[e f]|[e f]]; simpl; rewrite ?Hp; try done; apply compare_trans.
Qed.
