(* ===== verification/OrdTheory.v ===== *)
(** * What constraints between tags mean

    A valuation gives every tag an ordinal.  The closure of a set of constraints
    holds what can be derived from it; a set without a strict cycle is satisfied
    by the natural numbers, and what cannot be derived fails in one such
    valuation.  Hence [close], [inconsistent] and [subsumes] decide
    satisfiability and entailment.  The schemas that [verify_schemas] removes
    can be satisfied by a choice of the existential tags. *)

From S2P Require Import Prelude Exn Spot ProofGraph Gtc ProofAut Trace Soundness.
From S2P Require Import SoundnessSpec Soundcheck Minimize MinimizeProofs VarManager TagPairs.
From S2P Require Import Listset Unification OrdConstraints.
Import Constraint.

(** ** Valuations *)

(** What is used of the ordinals: a strict order with a least element in which
    finite sets have strict upper bounds. *)
Class Ordinals (O : Type) := {
  olt : O → O → Prop;
  ozero : O;
  olt_irrefl x : ¬ olt x x;
  olt_trans x y z : olt x y → olt y z → olt x z;
  ozero_least x : x = ozero ∨ olt ozero x;
  obound (l : list O) : ∃ b, ∀ x, x ∈ l → olt x b;
}.

#[global] Instance nat_ordinals : Ordinals nat.
Proof.
  refine {| olt := lt; ozero := 0 |}; [lia|lia|lia|].
  intros l. exists (S (sum_list l)). intros x Hx. induction Hx; simpl; lia.
Defined.

Definition ole {O} `{Ordinals O} (x y : O) : Prop := olt x y ∨ x = y.

Definition holds {O} `{Ordinals O} (v : Z → O) (c : Constraint.t) : Prop :=
  match c with
  | LT (t, u) => olt (v t) (v u)
  | LTE (t, u) => ole (v t) (v u)
  end.

Definition sat {O} `{Ordinals O} (v : Z → O) (cs : OrdConstraints.t) : Prop := ∀ c, c ∈ cs → holds v c.

Definition satisfied (cs : OrdConstraints.t) : Prop := ∃ (O : Type) (HO : Ordinals O) (v : Z → O), sat v cs.

Definition entails (cs : OrdConstraints.t) (c : Constraint.t) : Prop :=
  ∀ (O : Type) (HO : Ordinals O) (v : Z → O), sat v cs → holds v c.

Section order.
Context {O : Type} `{Ordinals O}.

Lemma ole_refl x : ole x x.
Proof. by right. Qed.

Lemma ole_olt x y z : ole x y → olt y z → olt x z.
Proof. intros [?| ->] ?; [by apply (olt_trans _ y)|done]. Qed.

Lemma olt_ole x y z : olt x y → ole y z → olt x z.
Proof. intros ? [?|<-]; [by apply (olt_trans _ y)|done]. Qed.

Lemma ole_trans x y z : ole x y → ole y z → ole x z.
Proof. intros ? [?| <-]; [left; by apply (ole_olt _ y)|done]. Qed.

Lemma ozero_ole x : ole ozero x.
Proof. destruct (ozero_least x) as [->|]; [by right|by left]. Qed.
End order.

Lemma ole_nat (x y : nat) : ole x y ↔ x ≤ y.
Proof. unfold ole. simpl. lia. Qed.

(** ** Derivations *)

Definition rel (s : bool) (t u : Z) : Constraint.t := if s then LT (t, u) else LTE (t, u).

(** [t] is below [u], strictly when the flag is set. *)
Inductive derives (cs : OrdConstraints.t) : bool → Z → Z → Prop :=
| d_refl t : derives cs false t t
| d_in s t u : rel s t u ∈ cs → derives cs s t u
| d_weak t u : derives cs true t u → derives cs false t u
| d_trans s s' t u w : derives cs s t u → derives cs s' u w → derives cs (s || s') t w.

Lemma derives_sound {O} `{Ordinals O} (v : Z → O) cs s t u :
  sat v cs → derives cs s t u → holds v (rel s t u).
Proof.
  intros Hv. induction 1 as [t|s t u Hin|t u _ IH|s s' t u w _ IH1 _ IH2]; simpl in *.
  - apply ole_refl.
  - by apply Hv.
  - by left.
  - destruct s, s'; simpl in *; [by apply (olt_trans _ (v u))|by apply (olt_ole _ (v u))
      |by apply (ole_olt _ (v u))|by apply (ole_trans _ (v u))].
Qed.

Lemma derives_mono cs cs' s t u : (∀ c, c ∈ cs → c ∈ cs') → derives cs s t u → derives cs' s t u.
Proof. intros Hsub. induction 1; eauto using derives. Qed.

Lemma derives_weaken cs s t u : derives cs s t u → derives cs false t u.
Proof. destruct s; [apply d_weak|done]. Qed.

(** Adding a constraint that closes no strict cycle: it is used once at most. *)
Lemma derives_add cs (e : bool) x y s a b :
  (∀ s, derives cs s y x → s || e = false) →
  derives (rel e x y :: cs) s a b →
  derives cs s a b ∨ ∃ s1 s2, derives cs s1 a x ∧ derives cs s2 y b ∧ (s = true → s1 || e || s2 = true).
Proof.
  intros Hno. induction 1 as [t|s t u [Heq|Hin]%elem_of_cons|t u _ IH|s s' t u w _ IH1 _ IH2].
  - left. constructor.
  - right. assert (s = e ∧ t = x ∧ u = y) as (-> & -> & ->) by (destruct s, e; simpl in Heq; naive_solver).
    exists false, false. split; [constructor|]. split; [constructor|]. by intros ->.
  - left. by constructor.
  - destruct IH as [IH|(s1 & s2 & H1 & H2 & Hs)]; [left; by constructor|right].
    exists s1, s2. by split.
  - destruct IH1 as [IH1|(s1 & s2 & H1 & H2 & Hs)], IH2 as [IH2|(s1' & s2' & H1' & H2' & Hs')].
    + left. by apply (d_trans _ _ _ _ u).
    + right. exists (s || s1'), s2'. split; [by apply (d_trans _ _ _ _ u)|]. split; [done|].
      destruct s, s'; simpl; auto.
    + right. exists s1, (s2 || s'). split; [done|]. split; [by apply (d_trans _ _ _ _ u)|].
      destruct s, s'; rewrite ?orb_true_r, ?orb_false_r; auto.
    + right. exists s1, s2'. split; [done|]. split; [done|].
      pose proof (Hno _ (d_trans _ _ _ _ _ _ H2 H1')) as Hf.
      apply orb_false_iff in Hf as [[-> ->]%orb_false_iff ->].
      rewrite !orb_false_r in Hs. simpl in Hs'. rewrite orb_false_r.
      destruct s, s'; simpl; intros; apply orb_true_iff; auto.
Qed.

Definition consistent (cs : OrdConstraints.t) : Prop := ∀ t, ¬ derives cs true t t.

Lemma consistent_add cs (e : bool) x y : consistent cs →
  (∀ s, derives cs s y x → s || e = false) → consistent (rel e x y :: cs).
Proof.
  intros Hc Hno t [Ht|(s1 & s2 & H1 & H2 & Hs)]%derives_add; [by apply (Hc t)| |done].
  pose proof (Hno _ (d_trans _ _ _ _ _ _ H2 H1)) as Hf.
  apply orb_false_iff in Hf as [[-> ->]%orb_false_iff ->]. by specialize (Hs eq_refl).
Qed.

(** ** The tags of a set *)

Lemma elem_of_tags cs t : t ∈ OrdConstraints.tags cs ↔ ∃ c, c ∈ cs ∧ t ∈ Constraint.tags c.
Proof.
  unfold OrdConstraints.tags. assert (∀ ts : gset Z, t ∈ foldl (λ ts c, ts ∪ Constraint.tags c) ts cs ↔
    t ∈ ts ∨ ∃ c, c ∈ cs ∧ t ∈ Constraint.tags c) as H; [|rewrite H; set_solver].
  induction cs as [|c cs IH]; intros ts; simpl; [set_solver|]. rewrite IH. set_solver.
Qed.

Lemma tags_rel s t u : Constraint.tags (rel s t u) = {[t; u]}.
Proof. destruct s; simpl; set_solver. Qed.

Lemma rel_cases c : ∃ s t u, c = rel s t u.
Proof. destruct c as [[t u]|[t u]]; [by exists true, t, u|by exists false, t, u]. Qed.

Lemma rel_inj s s' t t' u u' : rel s t u = rel s' t' u' → s = s' ∧ t = t' ∧ u = u'.
Proof. destruct s, s'; simpl; intros [= -> ->]; done. Qed.

Lemma derives_tags cs s t u : derives cs s t u →
  t = u ∧ s = false ∨ t ∈ OrdConstraints.tags cs ∧ u ∈ OrdConstraints.tags cs.
Proof.
  induction 1 as [t|s t u Hin| |].
  - by left.
  - right. split; apply elem_of_tags; exists (rel s t u); (split; [done|]); rewrite tags_rel; set_solver.
  - naive_solver.
  - naive_solver.
Qed.

(** ** The closure *)

Section close.
Import OrdConstraints.
Context (cs : OrdConstraints.t) (Hcs : ordered cs).

Definition derivable (c : Constraint.t) : Prop :=
  ∃ s t u, c = rel s t u ∧ derives cs s t u ∧ t ∈ tags cs ∧ u ∈ tags cs.

Lemma in_derivable c : c ∈ cs → derivable c.
Proof.
  intros Hc. destruct (rel_cases c) as (s & t & u & ->). exists s, t, u. split; [done|].
  split; [by constructor|].
  split; apply elem_of_tags; exists (rel s t u); (split; [done|]); rewrite tags_rel; set_solver.
Qed.

Lemma infer_rel s t u s' t' u' :
  infer_constraint (rel s t u, rel s' t' u') = mk (u =? t')%Z (rel (s || s') t u').
Proof. by destruct s, s'. Qed.

Lemma elem_of_gen l c : c ∈ gen l ↔ c ∈ l ∨ ∃ s s' t u w,
  rel s t u ∈ l ∧ rel s' u w ∈ l ∧ c = rel (s || s') t w.
Proof.
  unfold gen. rewrite elem_of_opt_map_to. f_equiv. split.
  - intros ([c1 c2] & [H1 H2]%elem_of_cartesian_product & Hc).
    destruct (rel_cases c1) as (s & t & u & ->), (rel_cases c2) as (s' & t' & u' & ->).
    rewrite infer_rel in Hc. unfold mk in Hc. destruct (Z.eqb_spec u t') as [->|]; [|done].
    injection Hc as <-. by exists s, s', t, t', u'.
  - intros (s & s' & t & u & w & H1 & H2 & ->). exists (rel s t u, rel s' u w).
    rewrite elem_of_cartesian_product, infer_rel. unfold mk. by rewrite Z.eqb_refl.
Qed.

Lemma gen_ordered l : ordered l → ordered (gen l).
Proof. apply opt_map_to_ordered. Qed.

(** The constraints that can occur. *)
Definition universe : list Constraint.t :=
  let ts := elements (tags cs) in
  p ← Listset.cartesian_product ts ts; [LT p; LTE p].

Lemma length_cartesian {A B} (l : list A) (k : list B) :
  length (Listset.cartesian_product l k) = length l * length k.
Proof.
  unfold Listset.cartesian_product.
  assert (∀ (x : A) (k : list B) acc, length (foldl (λ acc' y, (x, y) :: acc') acc k) = length k + length acc) as Hin.
  { intros x k'. induction k' as [|y k' IH]; intros acc; simpl; [done|]. rewrite IH. simpl. lia. }
  assert (∀ acc : list (A * B), length (foldl (λ acc x, foldl (λ acc' y, (x, y) :: acc') acc k) acc l) =
    length l * length k + length acc) as H; [|rewrite H; simpl; lia].
  induction l as [|x l IH]; intros acc; simpl; [done|]. rewrite IH, Hin. lia.
Qed.

Lemma length_universe : length universe = 2 * (size (tags cs) * size (tags cs)).
Proof.
  unfold universe. change (size (tags cs)) with (length (elements (tags cs))).
  rewrite <-length_cartesian. generalize (Listset.cartesian_product (elements (tags cs)) (elements (tags cs))).
  induction l as [|p l IH]; [done|]. rewrite bind_cons, length_app, IH. simpl. lia.
Qed.

Lemma derivable_universe c : derivable c → c ∈ universe.
Proof.
  intros (s & t & u & -> & _ & Ht & Hu). apply list_elem_of_bind. exists (t, u). split.
  - destruct s; simpl; set_solver.
  - apply elem_of_cartesian_product. by rewrite !elem_of_elements.
Qed.

(** Before the saturation: the constraints, weakened, and reflexivity. *)
Definition start : OrdConstraints.t :=
  let cs' := Listset.map_to Listset.add cs (λ t, LTE (t, t)) (ints (tags cs)) in
  Listset.opt_map_to Listset.add cs' weaken cs'.

Lemma elem_of_start c : c ∈ start ↔ c ∈ cs ∨ (∃ t, t ∈ tags cs ∧ c = LTE (t, t)) ∨
  ∃ t u, LT (t, u) ∈ cs ∧ c = LTE (t, u).
Proof.
  unfold start. rewrite elem_of_opt_map_to, elem_of_map_to. setoid_rewrite elem_of_map_to.
  setoid_rewrite elem_of_ints. split.
  - intros [[Hc|(t & Ht & <-)]|([[t u]|] & [Hd|(w & _ & [= ])] & [= <-])]; [by left|right; left; by exists t|].
    right. right. by exists t, u.
  - intros [Hc|[(t & Ht & ->)|(t & u & Ht & ->)]]; [by left; left|left; right; by exists t|].
    right. exists (LT (t, u)). split; [by left|done].
Qed.

Lemma start_derivable c : c ∈ start → derivable c.
Proof.
  intros [Hc|[(t & Ht & ->)|(t & u & Hin & ->)]]%elem_of_start; [by apply in_derivable| |].
  - exists false, t, t. repeat split; [constructor|done..].
  - destruct (in_derivable _ Hin) as (s & t' & u' & Heq & Hd & Ht & Hu).
    assert (s = true ∧ t' = t ∧ u' = u) as (-> & -> & ->).
    { by apply (rel_inj s true t' t u' u); rewrite <-Heq. }
    exists false, t, u. repeat split; [by constructor|done..].
Qed.

Lemma gen_derivable l : (∀ c, c ∈ l → derivable c) → ∀ c, c ∈ gen l → derivable c.
Proof.
  intros Hl c [Hc|(s & s' & t & u & w & H1 & H2 & ->)]%elem_of_gen; [by apply Hl|].
  destruct (Hl _ H1) as (? & ? & ? & (<- & <- & <-)%rel_inj & D1 & Ht & _).
  destruct (Hl _ H2) as (? & ? & ? & (<- & <- & <-)%rel_inj & D2 & _ & Hw).
  exists (s || s'), t, w. repeat split; [by apply (d_trans _ _ _ _ u)|done..].
Qed.

(** A saturated set has every derivable constraint. *)
Lemma saturated_complete r : (∀ c, c ∈ start → c ∈ r) → gen r = r →
  ∀ s t u, derives cs s t u → t ∈ tags cs → LTE (t, u) ∈ r ∧ (s = true → LT (t, u) ∈ r).
Proof.
  intros Hstart Hgen s t u Hd.
  assert (∀ s s' t u w, rel s t u ∈ r → rel s' u w ∈ r → rel (s || s') t w ∈ r) as Hclosed.
  { intros s1 s2 a b c H1 H2. rewrite <-Hgen. apply elem_of_gen. right. by exists s1, s2, a, b, c. }
  induction Hd as [t|s t u Hin|t u Hd IH|s s' t u w Hd1 IH1 Hd2 IH2]; intros Ht.
  - split; [|done]. apply Hstart, elem_of_start. right. left. by exists t.
  - split; [|intros ->; apply Hstart, elem_of_start; by left].
    apply Hstart, elem_of_start. destruct s; [right; right; by exists t, u|by left].
  - split; [|done]. by apply IH.
  - destruct (IH1 Ht) as [L1 S1]. assert (u ∈ tags cs) as Hu.
    { destruct (derives_tags _ _ _ _ Hd1) as [[<- _]|[_ ?]]; done. }
    destruct (IH2 Hu) as [L2 S2]. split; [by apply (Hclosed false false t u w)|].
    intros [->| ->]%orb_true_iff; [by apply (Hclosed true false t u w); [apply S1|]|].
    by apply (Hclosed false true t u w); [|apply S2].
Qed.

Lemma close_ok : ∃ r, close cs = Ok r ∧ ordered r ∧ ∀ s t u,
  rel s t u ∈ r ↔ derives cs s t u ∧ t ∈ tags cs ∧ u ∈ tags cs.
Proof.
  destruct (fixpoint_reached gen (λ l, ∀ c, c ∈ l → derivable c) universe
    (λ l H, gen_derivable l H) (λ l H _, gen_ordered l H)
    (λ l c _ H, proj2 (elem_of_gen l c) (or_introl H)) (λ l H c Hc, derivable_universe c (H c Hc))
    (S (2 * (size (tags cs) * size (tags cs)))) start) as (r & Hr & Ho & Hd & Hfix & Hstart).
  { apply opt_map_to_ordered, map_to_ordered, Hcs. }
  { apply start_derivable. }
  { rewrite length_universe. lia. }
  exists r. split; [exact Hr|]. split; [done|]. intros s t u. split.
  - intros (? & ? & ? & (<- & <- & <-)%rel_inj & H)%Hd. done.
  - intros (Hst & Ht & _). destruct (saturated_complete r Hstart Hfix s t u Hst Ht) as [H1 H2].
    destruct s; [by apply H2|done].
Qed.
End close.

(** ** Satisfiability *)

#[global] Instance constraint_eq_dec : EqDecision Constraint.t.
Proof. solve_decision. Defined.

Section decide.
Import OrdConstraints.
Context (cs : OrdConstraints.t) (Hcs : ordered cs).

Lemma derives_closed (r : OrdConstraints.t) s t u :
  (∀ s t u, rel s t u ∈ r ↔ derives cs s t u ∧ t ∈ tags cs ∧ u ∈ tags cs) →
  derives cs s t u ↔ s = false ∧ t = u ∨ rel s t u ∈ r.
Proof.
  intros Hr. rewrite Hr. split.
  - intros Hd. destruct (derives_tags _ _ _ _ Hd) as [[-> ->]|[? ?]]; auto.
  - intros [[-> ->]|(? & _)]; [constructor|done].
Qed.

#[global] Instance derives_dec s t u : Decision (derives cs s t u).
Proof.
  destruct (close cs) as [r|] eqn:E.
  - destruct (decide (s = false ∧ t = u ∨ rel s t u ∈ r)) as [H|H]; [left|right];
      destruct (close_ok cs Hcs) as (r' & Hr' & _ & Hin); rewrite E in Hr'; injection Hr' as <-;
      by rewrite (derives_closed r).
  - exfalso. destruct (close_ok cs Hcs) as (r & Hr & _). by rewrite E in Hr.
Defined.

(** The rank of a tag is the number of tags below it. *)
Definition below (u : Z) : gset Z := filter (λ t, derives cs true t u) (tags cs).

Lemma elem_of_below_tag t u : t ∈ below u ↔ derives cs true t u.
Proof.
  unfold below. rewrite elem_of_filter. split; [by intros []|]. intros Hd. split; [done|].
  by destruct (derives_tags _ _ _ _ Hd) as [[_ ?]|[? _]].
Qed.

Lemma consistent_sat : consistent cs → sat (O := nat) (λ t, size (below t)) cs.
Proof.
  intros Hc c Hin. destruct (rel_cases c) as (s & t & u & ->).
  assert (derives cs s t u) as Hd by by constructor.
  assert (below t ⊆ below u) as Hsub.
  { intros w Hw%elem_of_below_tag. apply elem_of_below_tag. by apply (d_trans _ true s _ t). }
  destruct s; simpl.
  - apply subset_size. split; [done|]. intros Hsub'. apply (Hc t), elem_of_below_tag, Hsub'.
    by apply elem_of_below_tag.
  - apply ole_nat. by apply subseteq_size.
Qed.

Lemma consistent_iff : consistent cs ↔ satisfied cs.
Proof.
  split.
  - intros Hc. eexists nat, _, _. by apply consistent_sat.
  - intros (O & HO & v & Hv) t Hd. apply (derives_sound v) in Hd; [|done]. by apply olt_irrefl in Hd.
Qed.

Lemma inconsistent_ok : ∃ b, inconsistent cs = Ok b ∧
  if b then ¬ consistent cs else consistent cs.
Proof.
  destruct (close_ok cs Hcs) as (r & Hr & _ & Hin). unfold inconsistent. rewrite Hr.
  eexists. split; [done|]. destruct (forallb satisfiable r) eqn:Es; simpl; [case_match eqn:El|].
  - apply existsb_exists in El as (c & Hc & Hl). destruct c as [[t u]|]; [|done].
    apply existsb_exists in Hl as ([|[t' u']] & Hc' & Heq); [done|].
    simpl in Heq. apply andb_true_iff in Heq as [<-%Z.eqb_eq <-%Z.eqb_eq].
    apply list_elem_of_In in Hc, Hc'. intros Hcon. apply (Hcon t).
    apply (d_trans _ true false _ u); by constructor.
  - intros t Hd. rewrite forallb_forall in Es.
    assert (LT (t, t) ∈ r) as Ht.
    { by destruct (proj1 (derives_closed r true t t Hin) Hd) as [[? _]|]. }
    specialize (Es _ (proj1 (list_elem_of_In _ _) Ht)). simpl in Es. by rewrite Z.eqb_refl in Es.
  - intros Hcon. rewrite <-not_true_iff_false, forallb_forall in Es.
    apply Es. intros [[t u]|]; [|done]. intros Hc%list_elem_of_In. simpl.
    destruct (Z.eqb_spec t u) as [->|]; [|done]. by destruct (Hcon u); apply (Hin true).
Qed.

(** ** Entailment *)

Lemma add_sat c : satisfied (Listset.add c cs) → ∃ (O : Type) (HO : Ordinals O) v, sat v cs ∧ holds v c.
Proof.
  intros (O & HO & v & Hv). exists O, HO, v. split; [|apply Hv, elem_of_add; by left].
  intros c' Hc'. apply Hv, elem_of_add. by right.
Qed.
End decide.

Lemma add_consistent cs e x y : ordered cs → consistent cs →
  (∀ s, derives cs s y x → s || e = false) → satisfied (Listset.add (rel e x y) cs).
Proof.
  intros Hcs Hc Hno. apply consistent_iff; [by apply add_ordered|]. intros t Ht.
  apply (consistent_add cs e x y Hc Hno t). eapply derives_mono; [|exact Ht].
  intros c [->|?]%elem_of_add; [left|by right].
Qed.

Lemma entails_iff cs s t u : ordered cs → consistent cs → entails cs (rel s t u) ↔ derives cs s t u.
Proof.
  intros Hcs Hc. split; [|intros Hd O HO v Hv; by apply (derives_sound v cs)].
  intros He. destruct (derives_dec cs Hcs s t u) as [|Hn]; [done|exfalso].
  destruct (add_sat cs (rel (negb s) u t)) as (O & HO & v & Hv & Hh).
  { apply add_consistent; [done..|]. intros s' Hd. destruct s; [by destruct s'|]. destruct Hn. by apply derives_weaken in Hd. }
  specialize (He O HO v Hv). destruct s; simpl in *.
  - apply (olt_irrefl (v t)). by apply (olt_ole _ (v u)).
  - apply (olt_irrefl (v t)). by apply (ole_olt _ (v u)).
Qed.

(** ** Queries *)

Section queries.
Import OrdConstraints.
Implicit Types (cs r : OrdConstraints.t).

Lemma subsumes_spec cs cs' : ordered cs →
  subsumes cs cs' = true ↔ ∀ s t u, rel s t u ∈ cs' → s = false ∧ t = u ∨ rel s t u ∈ cs.
Proof.
  intros Hcs. unfold subsumes. rewrite forallb_forall. split.
  - intros H s t u Hin. destruct (decide (s = false ∧ t = u)) as [|Hne]; [by left|right].
    apply mem_spec; [done|]. apply H, list_elem_of_In, list_elem_of_filter. split; [|done].
    destruct s; simpl; [done|]. apply negb_true_iff, Z.eqb_neq. naive_solver.
  - intros H c [Hp Hc]%list_elem_of_In%list_elem_of_filter. apply mem_spec; [done|].
    destruct (rel_cases c) as (s & t & u & ->). destruct (H s t u Hc) as [[-> ->]|]; [|done].
    simpl in Hp. by rewrite Z.eqb_refl in Hp.
Qed.

Lemma elem_of_prog_pairs cs t u : (t, u) ∈ prog_pairs cs ↔ LT (t, u) ∈ cs.
Proof.
  unfold prog_pairs, Listset.opt_map_to, Listset.map_to.
  assert (∀ ps : tagpairs, (t, u) ∈ foldl (λ ys z, Listset.opt_add (λ tp tps, {[tp]} ∪ tps)
    (match z with LT tp => Some tp | LTE _ => None end) ys) ps cs ↔ (t, u) ∈ ps ∨ LT (t, u) ∈ cs) as H;
    [|rewrite H; set_solver].
  induction cs as [|c cs IH]; intros ps; simpl; [set_solver|]. rewrite IH.
  destruct c as [[a b]|[a b]]; simpl; set_solver.
Qed.

Lemma elem_of_all_pairs cs t u : (t, u) ∈ all_pairs cs ↔ LT (t, u) ∈ cs ∨ LTE (t, u) ∈ cs.
Proof.
  unfold all_pairs, Listset.map_to.
  assert (∀ ps : tagpairs, (t, u) ∈ foldl (λ ys z, {[match z with LT tp => tp | LTE tp => tp end]} ∪ ys)
    ps cs ↔ (t, u) ∈ ps ∨ LT (t, u) ∈ cs ∨ LTE (t, u) ∈ cs) as H; [|rewrite H; set_solver].
  induction cs as [|c cs IH]; intros ps; simpl; [set_solver|]. rewrite IH.
  destruct c as [[a b]|[a b]]; simpl; set_solver.
Qed.

Lemma elem_of_upper_bounds strict t cs u : u ∈ upper_bounds strict t cs ↔ rel strict t u ∈ cs.
Proof.
  unfold upper_bounds, Listset.opt_map_to, Listset.map_to.
  assert (∀ ts : gset Z, u ∈ foldl (λ ys z, Listset.opt_add (λ t ts, {[t]} ∪ ts) (match z with
      | LT (t', t'') => mk (strict && (t =? t')%Z) t''
      | LTE (t', t'') => mk (negb strict && (t =? t')%Z) t'' end) ys) ts cs ↔
    u ∈ ts ∨ rel strict t u ∈ cs) as H; [|rewrite H; set_solver].
  induction cs as [|c cs IH]; intros ts; simpl; [set_solver|]. rewrite IH. clear IH.
  destruct c as [[a b]|[a b]]; unfold mk; destruct strict; simpl; try set_solver;
    destruct (Z.eqb_spec t a) as [->|]; simpl; set_solver.
Qed.

Lemma subst_tags_ok theta cs : ∃ r, subst_tags theta cs = Ok r ∧ ordered r ∧
  ∀ c, c ∈ r ↔ ∃ d, d ∈ cs ∧ c = Constraint.subst_tags theta d.
Proof. apply map_ok. Qed.

(** A renaming of the tags changes what a valuation says by composition. *)
Lemma holds_subst {O} `{Ordinals O} (v : Z → O) theta c :
  holds v (Constraint.subst_tags theta c) ↔ holds (λ t, v (TagPairs.apply_to_tag theta t)) c.
Proof. by destruct c as [[a b]|[a b]]. Qed.
End queries.

(** ** Schemas *)

Definition with_tag {O} (v : Z → O) (t : Z) (x : O) : Z → O := λ u, if decide (u = t) then x else v u.

Section schemas.
Import OrdConstraints.
Context {O : Type} `{Ordinals O}.
Implicit Types (cs : OrdConstraints.t) (v : Z → O).

Lemma with_tag_eq v t x : with_tag v t x t = x.
Proof. unfold with_tag. by rewrite decide_True. Qed.

Lemma with_tag_ne v t x u : u ≠ t → with_tag v t x u = v u.
Proof. intros Hne. unfold with_tag. by rewrite decide_False. Qed.

Lemma holds_with_tag v t x c : t ∉ Constraint.tags c → holds (with_tag v t x) c ↔ holds v c.
Proof. destruct c as [[a b]|[a b]]; simpl; intros Ht; rewrite !with_tag_ne by set_solver; done. Qed.

Lemma get_schema_spec cs t rest name : get_schema cs t = Some (rest, name) →
  rest = filter (λ c, t ∉ Constraint.tags c) cs ∧ ∀ v, ∃ x, ∀ c, c ∈ cs → t ∈ Constraint.tags c →
    holds (with_tag v t x) c.
Proof.
  unfold get_schema. rewrite partition_spec.
  assert (filter (λ c, bool_decide (t ∈ Constraint.tags c) = false) cs =
    filter (λ c, t ∉ Constraint.tags c) cs) as ->.
  { apply list_filter_iff. intros c. apply bool_decide_eq_false. }
  set (cs' := filter (λ c, bool_decide _ = true) cs).
  assert (∀ c, c ∈ cs → t ∈ Constraint.tags c → In c cs') as Hcs'.
  { intros c Hc Ht. apply list_elem_of_In, list_elem_of_filter. by rewrite bool_decide_eq_true. }
  destruct (forallb _ cs') eqn:Eu; [|destruct (forallb _ cs') eqn:El in |- *; [|done]].
  - intros [= <- _]. split; [done|]. intros v. rewrite forallb_forall in Eu.
    destruct (obound (v <$> elements (tags cs))) as [b Hb]. exists b. intros c Hc Ht.
    assert (∀ u, u ∈ Constraint.tags c → olt (v u) b) as Hlt.
    { intros u Hu. apply Hb, list_elem_of_fmap. exists u. split; [done|].
      apply elem_of_elements, elem_of_tags. by exists c. }
    specialize (Eu c (Hcs' c Hc Ht)). destruct c as [[a d]|[a d]]; simpl in Eu, Hlt |- *.
    + apply andb_true_iff in Eu as [<-%Z.eqb_eq Hne%negb_true_iff%Z.eqb_neq].
      rewrite with_tag_eq, with_tag_ne by done. apply Hlt. set_solver.
    + apply Z.eqb_eq in Eu as <-. rewrite with_tag_eq. unfold with_tag.
      case_decide; [apply ole_refl|]. left. apply Hlt. set_solver.
  - intros [= <- _]. split; [done|]. intros v. rewrite forallb_forall in El.
    exists ozero. intros c Hc Ht. specialize (El c (Hcs' c Hc Ht)).
    destruct c as [|[a d]]; [done|]. apply Z.eqb_eq in El as <-. simpl. rewrite with_tag_eq.
    apply ozero_ole.
Qed.

End schemas.

Section verify.
Import OrdConstraints.
Context {H : VarManager.Hashcons} (used : gset Z).
Implicit Types (cs : OrdConstraints.t).

(** The tags whose values the schemas may choose. *)
Definition choosable (t : Z) : Prop :=
  VarManager.is_exist_var VarManager.classify_tag t = Ok true ∧ t ∉ used.

Lemma remove_schema_spec cs rest name : remove_schema cs used = Ok (Some (rest, name)) →
  ∃ t, choosable t ∧ t ∈ tags cs ∧ get_schema cs t = Some (rest, name).
Proof.
  unfold remove_schema, mbind, res_bind. destruct (filter_res _ _) as [l|] eqn:E; [|done].
  intros [= (t & Ht & Hg)%find_map_some]. rewrite (filter_res_spec _ _ _ E) in Ht.
  destruct Ht as [Ht%elem_of_ints Hf]. exists t. split; [|done]. unfold choosable.
  destruct (VarManager.is_exist_var _ t) as [[]|]; try done. simpl in Hf. split; [done|].
  injection Hf as Hf%negb_true_iff%bool_decide_eq_false. done.
Qed.

Lemma schema_shorter cs t rest name : t ∈ tags cs → get_schema cs t = Some (rest, name) →
  length rest < length cs.
Proof.
  intros (c & Hc & Ht)%elem_of_tags [-> _]%(get_schema_spec (O := nat)).
  apply length_filter_lt with c; [done|]. set_solver.
Qed.

(** What is left after the removal of schemas determines the rest. *)
Lemma remove_schemas_sound fuel cs rest : remove_schemas fuel cs used = Ok rest →
  ∀ (O : Type) (HO : Ordinals O) v, sat v rest →
    ∃ v', (∀ t, ¬ choosable t → v' t = v t) ∧ sat v' cs.
Proof.
  revert cs. induction fuel as [|fuel IH]; intros cs; simpl; [done|].
  unfold mbind, res_bind. destruct (remove_schema cs used) as [[[cs' name]|]|] eqn:E; [| |done].
  - intros Hr O HO v Hv. destruct (IH _ Hr O HO v Hv) as (v1 & Hv1 & Hsat).
    destruct (remove_schema_spec _ _ _ E) as (t & Ht & _ & Hg).
    destruct (get_schema_spec _ _ _ _ Hg) as [-> Hx]. destruct (Hx v1) as [x Hxs].
    exists (with_tag v1 t x). split.
    + intros u Hu. rewrite with_tag_ne; [by apply Hv1|]. by intros ->.
    + intros c Hc. destruct (decide (t ∈ Constraint.tags c)) as [Hin|Hn]; [by apply Hxs|].
      apply holds_with_tag; [done|]. apply Hsat, list_elem_of_filter. done.
  - intros [= <-] O HO v Hv. by exists v.
Qed.

(** With tags that are names, the removal ends. *)
Lemma remove_schemas_total fuel cs : length cs < fuel →
  (∀ t, t ∈ tags cs → ∃ b, VarManager.is_exist_var VarManager.classify_tag t = Ok b) →
  ∃ rest, remove_schemas fuel cs used = Ok rest.
Proof.
  revert cs. induction fuel as [|fuel IH]; intros cs Hlen Hex; simpl; [lia|].
  assert (∃ o, remove_schema cs used = Ok o) as [[[cs' name]|] E].
  { unfold remove_schema.
    destruct (filter_res_total (λ t, b ← VarManager.is_exist_var VarManager.classify_tag t;
      mret (b && negb (bool_decide (t ∈ used)))) (ints (tags cs))) as [k Hk].
    { intros t Ht%elem_of_ints. destruct (Hex t Ht) as [b Hb]. unfold mbind, res_bind. rewrite Hb. by eexists. }
    rewrite Hk. by eexists. }
  - unfold mbind, res_bind. rewrite E.
    destruct (remove_schema_spec _ _ _ E) as (t & _ & Ht & Hg).
    pose proof (schema_shorter _ _ _ _ Ht Hg) as Hlt. apply IH; [lia|].
    intros u (c & Hc & Hu)%elem_of_tags. apply Hex, elem_of_tags. exists c. split; [|done].
    destruct (get_schema_spec (O := nat) _ _ _ _ Hg) as [-> _]. by apply list_elem_of_filter in Hc as [].
  - unfold mbind, res_bind. rewrite E. by eexists.
Qed.

(** A hash-consed name has a class. *)
Lemma is_exist_var_named `{!VarManager.HashconsLaws H} s :
  ∃ b, VarManager.is_exist_var VarManager.classify_tag (VarManager.hashcons s) = Ok b.
Proof.
  unfold VarManager.is_exist_var, VarManager.is_anonymous.
  destruct (Z.eqb_spec (VarManager.hashcons s) VarManager.anonymous) as [|Hne]; [by eexists|].
  rewrite VarManager.node_hashcons. rewrite classify_tag_ok; [by eexists|].
  destruct s; [done|]. simpl. lia.
Qed.
End verify.

(** ** Generated constraints *)

Section generate.
Import OrdConstraints.
Context {H : VarManager.Hashcons} {HL : VarManager.HashconsLaws H}.

(** Every tag of [ts'] below [t], where [ts'] is [ts] or, when that is empty, a
    fresh existential tag. *)
Lemma generate_ok alphabet avoid augment t ts : alphabet_ok VarManager.classify_tag alphabet →
  ∃ ts' r, generate alphabet avoid augment t ts = Ok r ∧ ordered r ∧
    (∀ c, c ∈ r ↔ ∃ t', t' ∈ ts' ∧ c = LT (t', t)) ∧
    (if augment && bool_decide (ts = ∅)
     then ∃ e, ts' = {[e]} ∧ (e ∉ avoid) ∧ VarManager.is_exist_var VarManager.classify_tag e = Ok true
     else ts' = ts).
Proof.
  intros Hal.
  assert (∀ ts' : gset Z, ordered (Listset.map_to Listset.add [] (λ t', LT (t', t)) (ints ts')) ∧
    ∀ c, c ∈ Listset.map_to Listset.add [] (λ t', LT (t', t)) (ints ts') ↔
      ∃ t', t' ∈ ts' ∧ c = LT (t', t)) as Hmap.
  { intros ts'. split; [apply map_to_ordered; constructor|]. intros c. rewrite elem_of_map_to.
    setoid_rewrite elem_of_ints. set_solver. }
  unfold generate. destruct (augment && _).
  - destruct (search_vars_ok 0 VarManager.classify_tag alphabet Hal avoid false 1) as (l & Hl & Hlen & _ & Hin).
    destruct l as [|e [|]]; try done. destruct (Hin e) as [He1 He2]; [left|].
    exists {[e]}. eexists. split.
    { unfold VarManager.fresh_evar, VarManager.fresh_evars. rewrite Hl. done. }
    split; [apply Hmap|]. split; [apply Hmap|]. by exists e.
  - exists ts. eexists. split; [done|]. split; [apply Hmap|]. split; [apply Hmap|done].
Qed.

Lemma generated_consistent (r : OrdConstraints.t) t (ts : gset Z) :
  (∀ c, c ∈ r ↔ ∃ t', t' ∈ ts ∧ c = LT (t', t)) → (consistent r ↔ t ∉ ts).
Proof.
  intros Hr. split.
  - intros Hc Ht. apply (Hc t). apply (d_in r true). apply Hr. by exists t.
  - intros Ht w Hd. apply (derives_sound (O := nat) (λ u, if decide (u = t) then 1 else 0)) in Hd.
    + simpl in Hd. lia.
    + intros c (t' & Ht' & ->)%Hr. assert (t' ≠ t) by (by intros ->). simpl. repeat case_decide; (done || lia).
Qed.
End generate.
