(* ===== verification/OrdUnify.v ===== *)
(** * Unification of constraint sets: [ord_constraints.ml]

    [unify] passes to its continuation exactly the substitutions that extend the
    initial one and map the first set into the second, and [biunify] only pairs
    of substitutions under which every constraint of the first set has an equal
    in the second. *)

From S2P Require Import Prelude Exn Spot ProofGraph Gtc ProofAut Trace Soundness.
From S2P Require Import SoundnessSpec Soundcheck Minimize MinimizeProofs VarManager TagPairs.
From S2P Require Import Listset Unification OrdConstraints OrdTheory.
Import Constraint.

(** ** Two constraints *)

Definition constraint_succ {S : Type} (succ : Z → Z → S → list S) (c c' : Constraint.t) (s : S) : list S :=
  match c, c' with
  | LT tp, LT tp' | LTE tp, LTE tp' => succ tp.1 tp'.1 s ≫= succ tp.2 tp'.2
  | _, _ => []
  end.

Lemma mk_unify_computes {S B : Type} (u : Z → Z → (S → option B) → S → option B) succ :
  computes u succ → computes (mk_unify u) (constraint_succ succ).
Proof.
  intros Hu [tp|tp] [tp'|tp'] cont s; simpl; try done;
    rewrite Hu, find_map_concat; apply find_map_ext; intros s' _; apply Hu.
Qed.

Section substitutions.
Import TagPairs.
Implicit Types (s θ : tagpairs) (c : Constraint.t).

(** The pairs that make two constraints equal. *)
Definition links (p q : Z * Z) : tagpairs := {[(p.1, q.1); (p.2, q.2)]}.

Lemma links_subst (p q : Z * Z) θ : functional θ →
  links p q ⊆ θ → (apply_to_tag θ p.1, apply_to_tag θ p.2) = q.
Proof.
  intros Hf Hl. unfold links in Hl. destruct q as [a b]. simpl in *.
  by rewrite (apply_to_tag_in _ _ a Hf), (apply_to_tag_in _ _ b Hf) by set_solver.
Qed.

Lemma projectl_union s θ : projectl (s ∪ θ) = projectl s ∪ projectl θ.
Proof.
  apply set_eq. intros t. rewrite elem_of_union, !elem_of_projectl. setoid_rewrite elem_of_union.
  naive_solver.
Qed.

Lemma projectl_links p q : projectl (links p q) = {[p.1; p.2]}.
Proof.
  apply set_eq. intros t. rewrite elem_of_projectl. unfold links.
  split; [intros [u Hu]; set_solver|]. intros Ht. rewrite elem_of_union, !elem_of_singleton in Ht.
  destruct Ht as [->| ->]; [exists q.1|exists q.2]; set_solver.
Qed.

Lemma same_domain s θ : functional θ → s ⊆ θ → projectl θ = projectl s → θ = s.
Proof.
  intros Hf Hs Hd. apply set_eq. intros [t u]. split; [|apply Hs]. intros Hu.
  assert (t ∈ projectl s) as [u' Hu']%elem_of_projectl.
  { rewrite <-Hd. apply elem_of_projectl. by exists u. }
  by rewrite (Hf t u u' Hu (Hs _ Hu')).
Qed.

Lemma applied_links (p : Z * Z) θ : functional θ → p.1 ∈ projectl θ → p.2 ∈ projectl θ →
  links p (apply_to_tag θ p.1, apply_to_tag θ p.2) ⊆ θ.
Proof.
  intros Hf [a Ha]%elem_of_projectl [b Hb]%elem_of_projectl. unfold links. simpl.
  rewrite (apply_to_tag_in _ _ a), (apply_to_tag_in _ _ b) by done. set_solver.
Qed.

Lemma tags_cons c cs : OrdConstraints.tags (c :: cs) = Constraint.tags c ∪ OrdConstraints.tags cs.
Proof. apply set_eq. intros t. rewrite elem_of_union, !elem_of_tags. set_solver. Qed.

(** The constraint and the pair in it. *)
Definition pair_of c : Z * Z := match c with LT p | LTE p => p end.

Lemma tags_pair_of c : Constraint.tags c = {[(pair_of c).1; (pair_of c).2]}.
Proof. destruct c as [[a b]|[a b]]; simpl; set_solver. Qed.

Lemma subst_tags_mono c s θ : functional θ → s ⊆ θ → Constraint.tags c ⊆ projectl s →
  Constraint.subst_tags θ c = Constraint.subst_tags s c.
Proof.
  intros Hf Hs Ht. assert (∀ t, t ∈ projectl s → apply_to_tag θ t = apply_to_tag s t) as Heq.
  { intros t [u Hu]%elem_of_projectl. rewrite (apply_to_tag_in s t u); [|by eapply functional_subseteq|done].
    apply apply_to_tag_in; [done|by apply Hs]. }
  rewrite tags_pair_of in Ht. destruct c as [p|p]; simpl in *; rewrite !Heq by set_solver; done.
Qed.

Lemma domain_step c d s : Constraint.tags c ⊆ projectl (links (pair_of c) (pair_of d) ∪ s) ∧
  projectl (links (pair_of c) (pair_of d) ∪ s) = Constraint.tags c ∪ projectl s.
Proof. rewrite projectl_union, projectl_links, <-tags_pair_of. set_solver. Qed.

End substitutions.

Section unify.
Import TagPairs.
Context (ok : Z → Z → bool) (check : tagpairs * tagpairs → bool) (check_ok : checks ok check).
Implicit Types (s θ : tagpairs) (c : Constraint.t).

Definition succ : Constraint.t → Constraint.t → tagpairs → list tagpairs :=
  constraint_succ (unify_tag_succ check).

Lemma elem_of_pair_succ (p q : Z * Z) s s' : functional s →
  s' ∈ (unify_tag_succ check p.1 q.1 s ≫= unify_tag_succ check p.2 q.2) ↔
    s' = links p q ∪ s ∧ functional s' ∧ allowed ok s s'.
Proof.
  intros Hs. rewrite list_elem_of_bind. split.
  - intros (s1 & H2 & H1). apply (elem_of_unify_tag_succ ok) in H1 as (-> & Hf1 & Ha1); [|done..].
    apply (elem_of_unify_tag_succ ok) in H2 as (-> & Hf2 & Ha2); [|done..].
    split; [unfold links; set_solver|]. split; [done|]. eapply allowed_trans; [|done..]. set_solver.
  - intros (-> & Hf & Ha). exists ({[(p.1, q.1)]} ∪ s). unfold links in *.
    assert (functional ({[(p.1, q.1)]} ∪ s)) as Hf1 by (eapply functional_subseteq; [done|set_solver]).
    split; apply (elem_of_unify_tag_succ ok); try done.
    + split; [set_solver|]. split; [done|]. eapply allowed_mono; [| |exact Ha]; set_solver.
    + split; [done|]. split; [done|]. eapply allowed_mono; [| |exact Ha]; set_solver.
Qed.

(** [θ] extends [s] with allowed pairs, to the tags of [cs], and maps [cs] into
    [cs']; onto it, up to [marked], when the search is total. *)
Record maps_into (total : bool) (marked cs cs' : OrdConstraints.t) s θ : Prop := {
  mi_functional : functional θ;
  mi_extends : s ⊆ θ;
  mi_allowed : allowed ok s θ;
  mi_domain : projectl θ = projectl s ∪ OrdConstraints.tags cs;
  mi_into : ∀ c, c ∈ cs → Constraint.subst_tags θ c ∈ cs';
  mi_onto : total = true → ∀ d, d ∈ cs' → d ∈ marked ∨ ∃ c, c ∈ cs ∧ d = Constraint.subst_tags θ c;
}.

Lemma elem_of_succ c d s s' : functional s →
  s' ∈ succ c d s ↔ s' = links (pair_of c) (pair_of d) ∪ s ∧ functional s' ∧ allowed ok s s' ∧
    Constraint.subst_tags s' c = d.
Proof.
  intros Hs. unfold succ. destruct c as [p|p], d as [q|q]; simpl; try (by set_solver);
    rewrite elem_of_pair_succ by done.
  all: split; [intros (-> & Hf & Ha)|naive_solver].
  all: split; [done|split; [done|split; [done|]]]; f_equal; apply links_subst; set_solver.
Qed.

Lemma maps_nil total marked cs' s θ : functional s →
  maps_into total marked [] cs' s θ ↔ θ = s ∧ (total = true → ∀ d, d ∈ cs' → d ∈ marked).
Proof.
  intros Hs. split.
  - intros [Hf He _ Hd _ Ho]. split; [apply same_domain; set_solver|]. intros Ht d Hin.
    by destruct (Ho Ht d Hin) as [|(? & []%not_elem_of_nil & _)].
  - intros [-> Ho]. split; [done|done|by left|set_solver|set_solver|]. intros Ht d Hd. left. auto.
Qed.

(** A solution for the rest, from a state in which [c] becomes [d]. *)
Lemma maps_cons_intro total marked c cs cs' d s s' θ : functional s → d ∈ cs' → s' ∈ succ c d s →
  maps_into total (Listset.add d marked) cs cs' s' θ → maps_into total marked (c :: cs) cs' s θ.
Proof.
  intros Hs Hd (-> & Hf' & Ha & Hc)%elem_of_succ; [|done]. destruct (domain_step c d s) as [Htc Hp].
  set (s' := links _ _ ∪ s) in *. assert (s ⊆ s') as Hss by (unfold s'; set_solver).
  intros [Hf He Ha' Hdom Hin Hon].
  assert (Constraint.subst_tags θ c = d) as Hθc by by rewrite (subst_tags_mono c s').
  split.
  - done.
  - by etrans.
  - by apply (allowed_trans ok s s').
  - rewrite Hdom, tags_cons. set_solver.
  - intros e [->|He']%elem_of_cons; [by rewrite Hθc|auto].
  - intros Ht e He'. destruct (Hon Ht e He') as [[->|?]%elem_of_add|(b & Hb & Heq)].
    + right. exists c. split; [left|done].
    + by left.
    + right. exists b. split; [by right|done].
Qed.

Lemma maps_cons_elim total marked c cs cs' s θ : functional s →
  maps_into total marked (c :: cs) cs' s θ → let d := Constraint.subst_tags θ c in
  ∃ s', d ∈ cs' ∧ s' ∈ succ c d s ∧ functional s' ∧ maps_into total (Listset.add d marked) cs cs' s' θ.
Proof.
  intros Hs [Hf He Ha Hdom Hin Hon] d. destruct (domain_step c d s) as [Htc Hp].
  set (s' := links (pair_of c) (pair_of d) ∪ s) in *.
  assert (links (pair_of c) (pair_of d) ⊆ θ) as Hl.
  { assert (∀ t, t ∈ Constraint.tags c → t ∈ projectl θ) as Ht by (rewrite Hdom, tags_cons; set_solver).
    rewrite tags_pair_of in Ht. unfold d. destruct c as [p|p]; apply applied_links; set_solver. }
  assert (s' ⊆ θ) as Hs' by (unfold s'; set_solver).
  assert (functional s') as Hf' by by eapply functional_subseteq.
  exists s'. split; [apply Hin; left|]. split; [|split; [done|]].
  - apply elem_of_succ; [done|]. split; [done|]. split; [done|]. split.
    + by eapply allowed_mono; [| |exact Ha].
    + by rewrite <-(subst_tags_mono c s' θ).
  - split.
    + done.
    + done.
    + eapply allowed_mono; [| |exact Ha]; [unfold s'; set_solver|done].
    + rewrite Hdom, tags_cons. set_solver.
    + intros e He'. apply Hin. by right.
    + intros Ht e He'. rewrite elem_of_add.
      destruct (Hon Ht e He') as [?|(b & [->|Hb]%elem_of_cons & ->)]; [auto|by left; left|].
      right. by exists b.
Qed.

Lemma elem_of_solutions total marked cs cs' s θ : ordered marked → ordered cs' →
  (∀ c, c ∈ marked → c ∈ cs') → functional s →
  θ ∈ solutions succ total false marked cs cs' s ↔ maps_into total marked cs cs' s θ.
Proof.
  intros Hm Hcs'. revert marked s Hm. induction cs as [|c cs IH]; intros marked s Hm Hsub Hs; simpl.
  - assert (negb total || Listset.equal marked cs' = true ↔ (total = true → ∀ d, d ∈ cs' → d ∈ marked)) as Htot.
    { rewrite orb_true_iff, negb_true_iff, equal_spec. split.
      - intros [->| ->] ?; [done|auto].
      - destruct total; [|by left]. intros Hin. right. apply ordered_ext; naive_solver. }
    rewrite orb_false_r, maps_nil by done. rewrite <-Htot.
    destruct (negb total || _); rewrite ?list_elem_of_singleton; [naive_solver|].
    split; [by intros ?%not_elem_of_nil|by intros []].
  - rewrite list_elem_of_bind. setoid_rewrite list_elem_of_bind.
    assert (∀ d, d ∈ cs' → ∀ e, e ∈ Listset.add d marked → e ∈ cs') as Hsub'.
    { intros d Hd e [->|?]%elem_of_add; auto. }
    split.
    + intros (d & (s' & Hθ & Hs') & Hd). pose proof Hs' as (_ & Hf' & _)%elem_of_succ; [|done].
      apply IH in Hθ; [|by apply add_ordered|by apply Hsub'|done].
      by apply (maps_cons_intro total marked c cs cs' d s s').
    + intros (s' & Hd & Hs' & Hf' & Hθ)%maps_cons_elim; [|done].
      eexists. split; [|exact Hd]. exists s'. split; [|done].
      apply IH; [by apply add_ordered|by apply Hsub'|done|done].
Qed.
End unify.

(** ** Sets of constraints *)

Lemma unify_computes ok check total cs cs' s :
  checks ok check → ordered cs' → TagPairs.functional s →
  ∃ sols, (∀ (B : Type) (cont : tagpairs → option B),
      OrdConstraints.unify total false check cs cs' cont s = Listset.find_map cont sols) ∧
    ∀ θ, θ ∈ sols ↔ maps_into ok total [] cs cs' s θ.
Proof.
  intros Hok Hcs' Hs. exists (solutions (succ check) total false [] cs cs' s). split.
  - intros B cont. apply mk_unifier_computes, mk_unify_computes, unify_tag_computes.
  - intros θ. apply elem_of_solutions; [done|constructor|done|set_solver|done].
Qed.

(** With the roles of the sets exchanged. *)
Lemma unify_inverse_sound ok check total cs cs' s : checks ok check → TagPairs.functional s →
  ∃ sols, (∀ (B : Type) (cont : tagpairs → option B),
      OrdConstraints.unify total true check cs cs' cont s = Listset.find_map cont sols) ∧
    ∀ θ, θ ∈ sols → TagPairs.functional θ ∧ s ⊆ θ ∧
      (∀ c, c ∈ cs → ∃ d, d ∈ cs' ∧ Constraint.subst_tags θ d = c) ∧
      (total = true → ∀ d, d ∈ cs' → ∃ c, c ∈ cs ∧ Constraint.subst_tags θ d = c).
Proof.
  intros Hok Hs. exists (solutions (λ c d, succ check d c) total false [] cs cs' s). split.
  - intros B cont. apply mk_unifier_computes. intros c d. by apply mk_unify_computes, unify_tag_computes.
  - intros θ Hθ. apply (solutions_sound (λ c d, succ check d c) total TagPairs.functional (⊆)
      (λ θ c d, Constraint.subst_tags θ d = c ∧ Constraint.tags d ⊆ TagPairs.projectl θ)) in Hθ; [|clear|clear -Hok|done].
    + destruct Hθ as (Hf & Hle & Hall & Htot). split; [done|]. split; [done|]. split.
      * intros c Hc. destruct (Hall c Hc) as (d & Hd & Heq & _). by exists d.
      * intros Ht d Hd. destruct (Htot Ht d Hd) as [?%not_elem_of_nil|(c & Hc & Heq & _)]; [done|by exists c].
    + intros s s' c d [Heq Ht] Hss Hf. split; [by rewrite (subst_tags_mono d s s')|].
      intros t [u Hu]%Ht%elem_of_projectl. apply elem_of_projectl. exists u. by apply Hss.
    + intros s s' c d Hs (-> & Hf & _ & Hc)%(elem_of_succ ok check Hok); [|done].
      destruct (domain_step d c s) as [Ht _]. split; [done|]. split; [set_solver|done].
Qed.

(** Both constraints become the same one. *)
Definition joined (θ : tagpairs * tagpairs) (c d : Constraint.t) : Prop :=
  Constraint.subst_tags θ.1 c = Constraint.subst_tags θ.2 d ∧
  Constraint.tags c ⊆ TagPairs.projectl θ.1 ∧ Constraint.tags d ⊆ TagPairs.projectl θ.2.

Lemma joined_mono θ θ' c d : joined θ c d → le2 θ θ' → good2 θ' → joined θ' c d.
Proof.
  intros (Heq & H1 & H2) [L1 L2] [G1 G2]. split.
  - rewrite (subst_tags_mono c θ.1 θ'.1), (subst_tags_mono d θ.2 θ'.2) by done. done.
  - assert (∀ s s' : tagpairs, s ⊆ s' → TagPairs.projectl s ⊆ TagPairs.projectl s') as Hp.
    { intros s s' Hs t [u Hu]%elem_of_projectl. apply elem_of_projectl. exists u. by apply Hs. }
    pose proof (Hp _ _ L1). pose proof (Hp _ _ L2). set_solver.
Qed.

Definition succ2 (check : (tagpairs * tagpairs) * (tagpairs * tagpairs) → bool) :
    Constraint.t → Constraint.t → tagpairs * tagpairs → list (tagpairs * tagpairs) :=
  constraint_succ (biunify_tag_succ check).

Lemma meets_apply θ t t' : good2 θ → meets θ t t' →
  TagPairs.apply_to_tag θ.1 t = TagPairs.apply_to_tag θ.2 t' ∧
  t ∈ TagPairs.projectl θ.1 ∧ t' ∈ TagPairs.projectl θ.2.
Proof.
  intros [H1 H2] (u & Hu & Hu'). rewrite (apply_to_tag_in _ _ _ H1 Hu), (apply_to_tag_in _ _ _ H2 Hu').
  rewrite !elem_of_projectl. eauto.
Qed.

Lemma succ2_ok (check : (tagpairs * tagpairs) * (tagpairs * tagpairs) → bool)
    (s s' : tagpairs * tagpairs) c d :
  good2 s → s' ∈ succ2 check c d s → good2 s' ∧ le2 s s' ∧ joined s' c d.
Proof.
  intros Hs.
  assert (∀ p q : Z * Z, s' ∈ (biunify_tag_succ check p.1 q.1 s ≫= biunify_tag_succ check p.2 q.2) →
    good2 s' ∧ le2 s s' ∧ meets s' p.1 q.1 ∧ meets s' p.2 q.2) as Hpair.
  { intros p q (s1 & H2 & H1)%list_elem_of_bind.
    destruct (biunify_tag_succ_ok check _ _ _ _ Hs H1) as (G1 & L1 & M1).
    destruct (biunify_tag_succ_ok check _ _ _ _ G1 H2) as (G2 & L2 & M2).
    split; [done|]. split; [by etrans|]. split; [by eapply meets_mono|done]. }
  destruct c as [p|p], d as [q|q]; simpl; try (by intros ?%not_elem_of_nil); intros Hs';
    destruct (Hpair p q Hs') as (G & L & M1 & M2); split; [done|split; [done|]| done|split; [done|]];
    destruct (meets_apply _ _ _ G M1) as (E1 & D1 & D1'), (meets_apply _ _ _ G M2) as (E2 & D2 & D2');
    unfold joined; rewrite !tags_pair_of; simpl; (split; [by rewrite E1, E2|set_solver]).
Qed.

Lemma biunify_sound (check : (tagpairs * tagpairs) * (tagpairs * tagpairs) → bool) total cs cs' s :
  good2 s →
  ∃ sols, (∀ (B : Type) (cont : tagpairs * tagpairs → option B),
      OrdConstraints.biunify total check cs cs' cont s = Listset.find_map cont sols) ∧
    ∀ θ, θ ∈ sols → good2 θ ∧ le2 s θ ∧
      (∀ c, c ∈ cs → ∃ d, d ∈ cs' ∧ Constraint.subst_tags θ.1 c = Constraint.subst_tags θ.2 d) ∧
      (total = true → ∀ d, d ∈ cs' → ∃ c, c ∈ cs ∧
        Constraint.subst_tags θ.1 c = Constraint.subst_tags θ.2 d).
Proof.
  intros Hs. exists (solutions (succ2 check) total false [] cs cs' s). split.
  - intros B cont. apply mk_unifier_computes, mk_unify_computes, biunify_tag_computes.
  - intros θ Hθ. apply (solutions_sound (succ2 check) total good2 le2 joined
      (λ s s' c d, joined_mono s s' c d) (succ2_ok check)) in Hθ; [|done].
    destruct Hθ as (Hg & Hle & Hall & Htot). split; [done|]. split; [done|]. split.
    + intros c Hc. destruct (Hall c Hc) as (d & Hd & Heq & _). by exists d.
    + intros Ht d Hd. destruct (Htot Ht d Hd) as [?%not_elem_of_nil|(c & Hc & Heq & _)]; [done|by exists c].
Qed.
