(* ===== verification/Uf.v ===== *)
(** * Equalities between terms: [term.ml], [tpair.ml], [uf.ml] of the separation logic

    A set of equalities is a map from terms to representatives, the larger of
    two equal terms.  Its meaning is the set of interpretations under which all
    of its bindings are equalities; [equates] decides what holds in all of
    them. *)

From S2P Require Import Prelude Exn Spot ProofGraph Gtc ProofAut Trace Soundness.
From S2P Require Import SoundnessSpec Soundcheck Minimize MinimizeProofs VarManager Subst Listset.

Module Term.
Section term.
Context {H : VarManager.Hashcons}.

Definition nil : Z := VarManager.anonymous.
Definition is_nil (t : Z) : bool := VarManager.is_anonymous t.
Definition is_var (t : Z) : bool := negb (is_nil t).
Definition filter_vars (s : gset Z) : gset Z := filter (λ t, is_var t = true) s.

End term.
End Term.

Module Uf.

Abbreviation t := (gmap Z Z).

(** [Tpair.order] *)
Definition order (p : Z * Z) : Z * Z := if decide (p.1 ≤ p.2)%Z then p else (p.2, p.1).

Definition bindings (m : t) : list (Z * Z) := omap (λ i, pair i <$> m !! i) (ints (dom m)).

(** A chain of bindings has at most as many links as there are bindings. *)
Fixpoint find_from (fuel : nat) (x : Z) (m : t) : res Z :=
  match fuel with
  | O => Err EFuel
  | S fuel => match m !! x with Some y => find_from fuel y m | None => Ok x end
  end.

Definition find (x : Z) (m : t) : res Z := find_from (S (size m)) x m.

(** [Treemap.union] *)
Definition map_union (m m' : t) : t := foldl (λ m' b, <[b.1 := b.2]> m') m' (bindings m).

Definition add (p : Z * Z) (m : t) : res t :=
  fx ← find p.1 m;
  fy ← find p.2 m;
  let '(x, y) := order (fx, fy) in
  if decide (x = y) then mret m
  else
    let to_x := filter (λ kv, kv.2 = x) m in
    let rest := filter (λ kv, kv.2 ≠ x) m in
    let to_y := (λ _, y) <$> to_x in
    mret (<[x := y]> (map_union rest to_y)).

Definition union (m m' : t) : res t := fold_left_res (λ m'' p, add p m'') m' (bindings m).

Definition of_list (ls : list (Z * Z)) : res t := fold_left_res (λ m pair, add pair m) ∅ ls.

Definition equates (m : t) (x y : Z) : res bool :=
  fx ← find x m;
  fy ← find y m;
  mret (fx =? fy)%Z.

(** [Blist.del_first] *)
Fixpoint del_first {A} (p : A → bool) (l : list A) : list A :=
  match l with
  | [] => []
  | x :: xs => if p x then xs else x :: del_first p xs
  end.

Definition diff (eqs eqs' : t) : res t :=
  let diffs_list := foldl (λ xs eq, del_first (λ eq', eqb eq eq') xs) (bindings eqs') (bindings eqs) in
  of_list diffs_list.

Definition subsumed (m m' : t) : res bool := for_all_res (λ p, equates m' p.1 p.2) (bindings m).

(** [Tpair.FList.terms] *)
Definition terms (m : t) : gset Z := foldl (λ a p, {[p.2]} ∪ ({[p.1]} ∪ a)) ∅ (bindings m).

Definition saturate (m : t) : res (list (Z * Z)) :=
  let ts := ints (terms m) in
  filter_res (λ p, equates m p.1 p.2) (Listset.cartesian_product ts ts).

(** [Blist.pairs] *)
Fixpoint consecutive {A} (l : list A) : list (A * A) :=
  match l with
  | x :: xs =>
      match xs with
      | [] => []
      | x' :: _ => (x, x') :: consecutive xs
      end
  | [] => []
  end.

Section names.
Context {H : VarManager.Hashcons}.

Definition subst (theta : gmap Z Z) (m : t) : res t :=
  fold_left_res (λ m' p, add (Subst.apply theta p.1, Subst.apply theta p.2) m') ∅ (bindings m).

Definition vars (m : t) : gset Z := Term.filter_vars (terms m).

Definition remove (x : Z) (m : t) : res t :=
  l ← filter_res (equates m x) (ints (vars m));
  let xs : gset Z := list_to_set l in
  let rest := filter (λ kv, ¬ (kv.1 ∈ xs ∨ kv.2 ∈ xs)) m in
  let xs' := ints (xs ∖ {[x]}) in
  fold_left_res (λ m p, add p m) rest (consecutive xs').
End names.
End Uf.

(** ** Meaning *)

(** The interpretation [f] makes every binding an equality. *)
Definition models {A} (f : Z → A) (m : gmap Z Z) : Prop := ∀ x y, m !! x = Some y → f x = f y.

(** Bindings go up and end in representatives. *)
Definition uf_ok (m : gmap Z Z) : Prop := ∀ x y, m !! x = Some y → (x < y)%Z ∧ m !! y = None.

Definition rep (m : gmap Z Z) (x : Z) : Z := default x (m !! x).

Section meaning.
Import Uf.
Implicit Types (m : gmap Z Z).

Lemma uf_find_ok m x : uf_ok m → find x m = Ok (rep m x).
Proof.
  intros Hm. unfold find, rep. simpl. destruct (m !! x) as [y|] eqn:E; [|done]. simpl.
  destruct (size m) as [|n] eqn:Hs; [by apply map_size_empty_inv in Hs as ->; rewrite lookup_empty in E|].
  destruct (Hm _ _ E) as [_ Hy]. simpl. by rewrite Hy.
Qed.

Lemma rep_none m x : uf_ok m → m !! rep m x = None.
Proof. intros Hm. unfold rep. destruct (m !! x) as [y|] eqn:E; simpl; [by apply (Hm x)|done]. Qed.

Lemma models_rep {A} (f : Z → A) m x : models f m → f (rep m x) = f x.
Proof. intros Hf. unfold rep. destruct (m !! x) as [y|] eqn:E; simpl; [symmetry; by apply Hf|done]. Qed.

Lemma rep_models m : uf_ok m → models (rep m) m.
Proof. intros Hm x y Hxy. unfold rep. rewrite Hxy. simpl. by rewrite (proj2 (Hm _ _ Hxy)). Qed.

(** What is equated holds in all models. *)
Lemma equates_ok m x y : uf_ok m → decides (equates m x y) (rep m x = rep m y).
Proof.
  intros Hm. unfold equates. rewrite !uf_find_ok by done. eexists. split; [done|]. apply Z.eqb_eq.
Qed.

Lemma rep_eq_iff m x y : uf_ok m →
  rep m x = rep m y ↔ ∀ (A : Type) (f : Z → A), models f m → f x = f y.
Proof.
  intros Hm. split.
  - intros Hxy A f Hf. rewrite <-(models_rep f m x), <-(models_rep f m y) by done. by rewrite Hxy.
  - intros H. by apply H, rep_models.
Qed.

Lemma elem_of_equalities m x y : (x, y) ∈ bindings m ↔ m !! x = Some y.
Proof.
  unfold bindings. rewrite list_elem_of_omap. setoid_rewrite elem_of_ints. setoid_rewrite elem_of_dom.
  split.
  - intros (i & _ & Hi). destruct (m !! i) eqn:E; [|done]. simpl in Hi. congruence.
  - intros Hxy. exists x. split; [by eexists|]. by rewrite Hxy.
Qed.

Lemma models_bindings {A} (f : Z → A) m : models f m ↔ ∀ p, p ∈ bindings m → f p.1 = f p.2.
Proof.
  split.
  - intros Hf [x y] Hp%elem_of_equalities. by apply Hf.
  - intros Hp x y Hxy. by apply (Hp (x, y)), elem_of_equalities.
Qed.

Lemma map_union_spec m m' : map_union m m' = m ∪ m'.
Proof.
  assert (∀ l m', NoDup l.*1 → foldl (λ m' (b : Z * Z), <[b.1 := b.2]> m') m' l =
    (list_to_map l : gmap Z Z) ∪ m') as Hl.
  { induction l as [|[x y] l IH]; intros k Hnd; simpl; [by rewrite (left_id_L ∅ (∪))|].
    apply NoDup_cons in Hnd as [Hx Hnd]. rewrite IH by done.
    rewrite <-insert_union_l, insert_union_r; [done|]. by apply not_elem_of_list_to_map. }
  assert ((bindings m).*1 = ints (dom m)) as Hk.
  { unfold bindings. assert (∀ x, x ∈ ints (dom m) → is_Some (m !! x)) as H.
    { intros x Hx%elem_of_ints. by apply elem_of_dom. }
    revert H. induction (ints (dom m)) as [|x l IH]; intros H; [done|]. simpl.
    destruct (H x) as [y Hy]; [left|]. rewrite Hy. simpl. f_equal. apply IH. intros z Hz. apply H. by right. }
  unfold map_union. rewrite Hl by (rewrite Hk; apply NoDup_ints). f_equal.
  apply map_eq. intros x. apply option_eq. intros y.
  rewrite <-elem_of_list_to_map by (rewrite Hk; apply NoDup_ints). apply elem_of_equalities.
Qed.

(** The map after [y], a representative, becomes the one of the class of [x]. *)
Definition redirect m (x y : Z) : gmap Z Z :=
  <[x := y]> (map_union (filter (λ kv, kv.2 ≠ x) m) ((λ _, y) <$> filter (λ kv, kv.2 = x) m)).

Lemma lookup_redirect m x y z : redirect m x y !! z =
  if decide (z = x) then Some y else (λ w, if decide (w = x) then y else w) <$> m !! z.
Proof.
  unfold redirect. rewrite map_union_spec. case_decide as Hz; [subst; by rewrite lookup_insert_eq|].
  rewrite lookup_insert_ne by done. rewrite lookup_union, lookup_fmap, !map_lookup_filter.
  destruct (m !! z) as [w|]; simpl; [|done]. repeat case_guard; repeat case_decide; simpl in *; naive_solver.
Qed.

Lemma redirect_ok m x y : uf_ok m → m !! x = None → m !! y = None → (x < y)%Z → uf_ok (redirect m x y).
Proof.
  intros Hm Hx Hy Hxy a b. rewrite !lookup_redirect. case_decide as Ha.
  - intros [= <-]. subst. split; [done|]. rewrite decide_False by lia. by rewrite Hy.
  - destruct (m !! a) as [w|] eqn:E; simpl; [|done]. destruct (Hm _ _ E) as [Hlt Hw].
    case_decide; intros [= <-]; subst.
    + split; [lia|]. rewrite decide_False by lia. by rewrite Hy.
    + split; [done|]. rewrite decide_False by done. by rewrite Hw.
Qed.

Lemma models_redirect {A} (f : Z → A) m x y : m !! x = None →
  models f (redirect m x y) ↔ models f m ∧ f x = f y.
Proof.
  intros Hx. unfold models. setoid_rewrite lookup_redirect. split.
  - intros Hf. assert (f x = f y) as Hxy by (apply Hf; by rewrite decide_True). split; [|done].
    intros a b Hab. specialize (Hf a (if decide (b = x) then y else b)).
    rewrite decide_False, Hab in Hf by (intros ->; congruence). simpl in Hf. specialize (Hf eq_refl).
    case_decide; congruence.
  - intros [Hf Hxy] a b. case_decide as Ha; [intros [= <-]; by subst|].
    destruct (m !! a) as [w|] eqn:E; simpl; [|done]. apply Hf in E.
    case_decide; intros [= <-]; congruence.
Qed.

Lemma add_ok (p : Z * Z) m : uf_ok m → ∃ m', add p m = Ok m' ∧ uf_ok m' ∧
  ∀ (A : Type) (f : Z → A), models f m' ↔ models f m ∧ f p.1 = f p.2.
Proof.
  intros Hm. unfold add. rewrite !uf_find_ok by done. unfold mbind, res_bind.
  pose proof (rep_none m p.1 Hm) as H1. pose proof (rep_none m p.2 Hm) as H2.
  assert (∀ (A : Type) (f : Z → A), models f m →
    (f p.1 = f p.2 ↔ f (rep m p.1) = f (rep m p.2))) as Hrep.
  { intros A f Hf. by rewrite !models_rep by done. }
  unfold order. simpl. case_decide as Hle; case_decide as Heq; eexists; (split; [done|]).
  - split; [done|]. intros A f. split; [|by intros []]. intros Hf. split; [done|].
    apply Hrep; [done|]. by rewrite Heq.
  - split; [apply redirect_ok; (done || lia)|]. intros A f.
    change (models f (redirect m (rep m p.1) (rep m p.2)) ↔ models f m ∧ f p.1 = f p.2).
    rewrite models_redirect by done. specialize (Hrep A f). naive_solver.
  - split; [done|]. intros A f. split; [|by intros []]. intros Hf. split; [done|].
    apply Hrep; [done|]. by rewrite Heq.
  - split; [apply redirect_ok; (done || lia)|]. intros A f.
    change (models f (redirect m (rep m p.2) (rep m p.1)) ↔ models f m ∧ f p.1 = f p.2).
    rewrite models_redirect by done. specialize (Hrep A f). naive_solver.
Qed.

(** Adding the images of a list. *)
Lemma add_list_ok {B} (g : B → Z * Z) (l : list B) m : uf_ok m →
  ∃ m', fold_left_res (λ m b, add (g b) m) m l = Ok m' ∧ uf_ok m' ∧
    ∀ (A : Type) (f : Z → A), models f m' ↔ models f m ∧ ∀ b, b ∈ l → f (g b).1 = f (g b).2.
Proof.
  revert m. induction l as [|b l IH]; intros m Hm; simpl.
  { exists m. split; [done|]. split; [done|]. set_solver. }
  destruct (add_ok (g b) m Hm) as (m1 & H1 & Hm1 & Hf1). unfold mbind, res_bind. rewrite H1.
  destruct (IH m1 Hm1) as (m' & Hm' & Hok & Hf). exists m'. split; [done|]. split; [done|].
  intros A f. rewrite Hf, Hf1. setoid_rewrite elem_of_cons. naive_solver.
Qed.

Lemma empty_ok : uf_ok ∅.
Proof. intros x y. by rewrite lookup_empty. Qed.

Lemma models_empty {A} (f : Z → A) : models f ∅.
Proof. intros x y. by rewrite lookup_empty. Qed.

Lemma of_list_ok' l : ∃ m, of_list l = Ok m ∧ uf_ok m ∧
  ∀ (A : Type) (f : Z → A), models f m ↔ ∀ p, p ∈ l → f p.1 = f p.2.
Proof.
  destruct (add_list_ok id l ∅ empty_ok) as (m & Hm & Hok & Hf). exists m. split; [done|].
  split; [done|]. intros A f. rewrite Hf. pose proof (models_empty f). naive_solver.
Qed.

Lemma union_ok' m m' : uf_ok m' → ∃ r, union m m' = Ok r ∧ uf_ok r ∧
  ∀ (A : Type) (f : Z → A), models f r ↔ models f m ∧ models f m'.
Proof.
  intros Hm'. destruct (add_list_ok id (bindings m) m' Hm') as (r & Hr & Hok & Hf).
  exists r. split; [done|]. split; [done|]. intros A f. rewrite Hf, (models_bindings f m). naive_solver.
Qed.

Lemma subst_ok `{VarManager.Hashcons} theta m : ∃ r, subst theta m = Ok r ∧ uf_ok r ∧
  ∀ (A : Type) (f : Z → A), models f r ↔ models (λ x, f (Subst.apply theta x)) m.
Proof.
  destruct (add_list_ok (λ p, (Subst.apply theta p.1, Subst.apply theta p.2)) (bindings m) ∅ empty_ok)
    as (r & Hr & Hok & Hf).
  exists r. split; [done|]. split; [done|]. intros A f. rewrite Hf, (models_bindings _ m). simpl.
  pose proof (models_empty f). naive_solver.
Qed.

Lemma subsumed_ok m m' : uf_ok m → uf_ok m' →
  decides (subsumed m m') (∀ (A : Type) (f : Z → A), models f m' → models f m).
Proof.
  intros Hm Hm'. destruct (for_all_res_ok (λ p, equates m' p.1 p.2) (λ p, rep m' p.1 = rep m' p.2) (bindings m))
    as (b & Hb & Hall); [intros p _; by apply equates_ok|].
  exists b. split; [done|]. rewrite Hall. split.
  - intros H A f Hf. apply models_bindings. intros p Hp.
    by apply (proj1 (rep_eq_iff m' p.1 p.2 Hm') (H p Hp)).
  - intros H. apply (proj1 (models_bindings (rep m') m)), H. by apply rep_models.
Qed.

Lemma elem_of_terms m x : x ∈ terms m ↔ ∃ y, m !! x = Some y ∨ m !! y = Some x.
Proof.
  assert (∀ l (a : gset Z), x ∈ foldl (λ a p, {[p.2]} ∪ ({[p.1]} ∪ a)) a l ↔
    x ∈ a ∨ ∃ p : Z * Z, p ∈ l ∧ (x = p.1 ∨ x = p.2)) as Hl.
  { induction l as [|p l IH]; intros a; simpl; [|rewrite IH]; set_solver. }
  unfold terms. rewrite Hl. split.
  - intros [?|([a b] & Hab%elem_of_equalities & [-> | ->])]; [set_solver|exists b; by left|exists a; by right].
  - intros (y & [Hy%elem_of_equalities|Hy%elem_of_equalities]); right; eexists; (split; [exact Hy|]); simpl; auto.
Qed.

Lemma saturate_ok m : uf_ok m → ∃ l, saturate m = Ok l ∧
  ∀ x y, (x, y) ∈ l ↔ x ∈ terms m ∧ y ∈ terms m ∧ rep m x = rep m y.
Proof.
  intros Hm. destruct (filter_res_ok (λ p, equates m p.1 p.2) (λ p, rep m p.1 = rep m p.2)
    (Listset.cartesian_product (ints (terms m)) (ints (terms m)))) as (l & Hl & Hin).
  { intros p _. by apply equates_ok. }
  exists l. split; [done|]. intros x y. rewrite Hin, elem_of_cartesian_product, !elem_of_ints. simpl. tauto.
Qed.

(** *** Difference *)

Lemma elem_of_del_first (p q : Z * Z) l : NoDup l → q ∈ del_first (λ q, eqb p q) l ↔ q ∈ l ∧ q ≠ p.
Proof.
  induction 1 as [|x l Hx Hnd IH]; cbn [del_first]; [set_solver|].
  destruct (eqb p x) eqn:E; [apply eqb_spec in E as <-; set_solver|].
  assert (p ≠ x) by (intros ->; by rewrite (proj2 (eqb_spec x x) eq_refl) in E).
  rewrite !elem_of_cons, IH. split; [intros [->|[]]; auto|intros [[->|] ?]; auto].
Qed.

Lemma del_first_NoDup (p : Z * Z) l : NoDup l → NoDup (del_first (λ q, eqb p q) l).
Proof.
  induction 1 as [|x l Hx Hnd IH]; cbn [del_first]; [constructor|]. destruct (eqb p x); [done|].
  constructor; [|done]. by intros [? _]%elem_of_del_first.
Qed.

Lemma NoDup_bindings m : NoDup (bindings m).
Proof.
  unfold bindings. pose proof (NoDup_ints (dom m)) as Hnd. induction Hnd as [|x l Hx _ IH]; simpl; [constructor|].
  destruct (m !! x) as [y|]; simpl; [|done]. constructor; [|done].
  intros (z & Hz & Heq)%list_elem_of_omap. destruct (m !! z); simplify_eq/=. done.
Qed.

(** Together with the first set, the difference says at least what the second
    does. *)
Lemma diff_ok m m' : ∃ r, diff m m' = Ok r ∧ uf_ok r ∧
  ∀ (A : Type) (f : Z → A), models f r ↔ ∀ x y, m' !! x = Some y → m !! x ≠ Some y → f x = f y.
Proof.
  assert (∀ l k : list (Z * Z), NoDup k → ∀ q, q ∈ foldl (λ xs eq, del_first (λ eq', eqb eq eq') xs) k l ↔ q ∈ k ∧ q ∉ l) as Hl.
  { induction l as [|p l IH]; intros k Hk q; cbn [foldl]; [set_solver|].
    rewrite IH by by apply del_first_NoDup. rewrite elem_of_del_first by done. set_solver. }
  unfold diff. edestruct of_list_ok' as (r & Hr & Hok & Hf). exists r. split; [exact Hr|].
  split; [done|]. intros A f. rewrite Hf. split.
  - intros H x y Hx Hn. apply (H (x, y)), Hl; [apply NoDup_bindings|]. split; [by apply elem_of_equalities|by rewrite elem_of_equalities].
  - intros H [x y] Hp%Hl; [|apply NoDup_bindings]. rewrite !elem_of_equalities in Hp. destruct Hp. by apply H.
Qed.
End meaning.

(** ** Removal of a variable *)

Section remove.
Import Uf.
Context {H : VarManager.Hashcons}.
Implicit Types (m : gmap Z Z).

Lemma chain_constant {A} (f : Z → A) l :
  (∀ p, p ∈ consecutive l → f p.1 = f p.2) ↔ ∀ a b, a ∈ l → b ∈ l → f a = f b.
Proof.
  induction l as [|x l IH]; [set_solver|].
  destruct l as [|y l].
  { split; [intros _ a b ->%list_elem_of_singleton ->%list_elem_of_singleton; done|].
    intros _ p ?%not_elem_of_nil. done. }
  change (consecutive (x :: y :: l)) with ((x, y) :: consecutive (y :: l)). split.
  - intros Hc. assert (f x = f y) as Hxy by (apply (Hc (x, y)); left).
    assert (∀ a b, a ∈ y :: l → b ∈ y :: l → f a = f b) as Hrest.
    { apply IH. intros p Hp. apply Hc. by right. }
    assert (∀ a, a ∈ x :: y :: l → f a = f y) as Hy.
    { intros a [->|Ha]%elem_of_cons; [done|]. apply Hrest; [done|left]. }
    intros a b Ha Hb. by rewrite (Hy a Ha), (Hy b Hb).
  - intros Hc p [->|Hp]%elem_of_cons; [apply Hc; [left|right; left]|].
    apply IH; [|done]. intros a b Ha Hb. apply Hc; by right.
Qed.

Lemma filter_uf_ok m (P : Z * Z → Prop) `{∀ x, Decision (P x)} : uf_ok m → uf_ok (filter P m).
Proof.
  intros Hm x y [Hxy _]%map_lookup_filter_Some. destruct (Hm x y Hxy) as [Hlt Hy].
  split; [done|]. apply map_lookup_filter_None. by left.
Qed.

Lemma elem_of_vars m t : t ∈ vars m ↔ t ∈ terms m ∧ t ≠ Term.nil.
Proof.
  unfold vars, Term.filter_vars, Term.is_var, Term.is_nil, VarManager.is_anonymous, Term.nil.
  rewrite elem_of_filter, negb_true_iff, Z.eqb_neq. tauto.
Qed.

(** The variables of [m] that are equal to [x]. *)
Definition in_class x m t : Prop := t ∈ terms m ∧ t ≠ Term.nil ∧ rep m x = rep m t.

(** The models of what is left: those of the bindings without a variable equal
    to [x] that make the other variables equal to [x] equal. *)
Lemma uf_remove_ok x m : uf_ok m → ∃ r, remove x m = Ok r ∧ uf_ok r ∧
  ∀ (A : Type) (f : Z → A), models f r ↔
    (∀ a b, m !! a = Some b → ¬ in_class x m a → ¬ in_class x m b → f a = f b) ∧
    (∀ a b, in_class x m a → a ≠ x → in_class x m b → b ≠ x → f a = f b).
Proof.
  intros Hm. destruct (filter_res_ok (equates m x) (λ t, rep m x = rep m t) (ints (vars m)))
    as (l & Hl & Hin); [intros t _; by apply equates_ok|].
  unfold remove, mbind, res_bind. rewrite Hl. set (xs := list_to_set l : gset Z).
  assert (∀ t, t ∈ xs ↔ in_class x m t) as Hxs.
  { intros t. unfold xs, in_class. rewrite elem_of_list_to_set, Hin, elem_of_ints, elem_of_vars. tauto. }
  destruct (add_list_ok id (consecutive (ints (xs ∖ {[x]}))) (filter (λ kv, ¬ (kv.1 ∈ xs ∨ kv.2 ∈ xs)) m))
    as (r & Hr & Hok & Hf); [by apply filter_uf_ok|].
  exists r. split; [exact Hr|]. split; [done|]. intros A f. rewrite Hf. unfold id.
  rewrite chain_constant. setoid_rewrite elem_of_ints. setoid_rewrite elem_of_difference.
  setoid_rewrite elem_of_singleton. setoid_rewrite <-Hxs. unfold models.
  setoid_rewrite map_lookup_filter_Some. simpl. naive_solver.
Qed.

(** Removing a variable that is not equal to [nil] quantifies it away. *)
Lemma remove_exists x m r : uf_ok m → x ≠ Term.nil → rep m x ≠ rep m Term.nil →
  remove x m = Ok r → ∀ (A : Type) (f : Z → A),
    models f r ↔ ∃ z, models (λ t, if decide (t = x) then z else f t) m.
Proof.
  intros Hm Hx Hnil Hr A f. destruct (uf_remove_ok x m Hm) as (r' & Hr' & _ & Hf).
  assert (r' = r) as -> by congruence. rewrite Hf. clear Hf Hr Hr'.
  set (cls := in_class x m).
  assert (∀ t, t ∈ terms m → rep m x = rep m t → cls t) as Hcls.
  { intros t Ht Heq. split; [done|]. split; [by intros ->|done]. }
  assert (∀ a b, m !! a = Some b → a ∈ terms m ∧ b ∈ terms m ∧ rep m a = rep m b) as Hab.
  { intros a b E. rewrite !elem_of_terms. split; [exists b; by left|]. split; [exists a; by right|].
    by apply (rep_models m Hm). }
  split.
  - intros [Hout Hin].
    assert (∃ z, ∀ a, cls a → a ≠ x → f a = z) as [z Hz].
    { destruct (decide (set_Exists (λ t, (t ∈ terms m ∧ t ≠ Term.nil ∧ rep m x = rep m t) ∧ t ≠ x) (terms m)))
        as [(w & _ & Hw & Hwx)|Hno]; [exists (f w); intros a Ha Hax; by apply Hin|].
      exists (f x). intros a Ha Hax. destruct Hno. exists a. split; [apply Ha|done]. }
    exists z. intros a b E. destruct (Hab a b E) as (Ha & Hb & Heq).
    destruct (decide (rep m x = rep m a)) as [Hxa|Hxa].
    + assert (cls a) by by apply Hcls. assert (cls b) by (apply Hcls; [done|congruence]).
      repeat case_decide; [done|by rewrite Hz|by rewrite Hz|by rewrite !Hz].
    + assert (¬ cls a) by (intros (_ & _ & ?); congruence). assert (¬ cls b) by (intros (_ & _ & ?); congruence).
      rewrite !decide_False by (intros ->; congruence). by apply Hout.
  - intros [z Hz]. set (g t := if decide (t = x) then z else f t) in *.
    assert (∀ a, a ≠ x → g a = f a) as Hg by (intros a Ha; unfold g; by rewrite decide_False).
    split.
    + intros a b E Hna Hnb. destruct (Hab a b E) as (Ha & Hb & Heq).
      rewrite <-!Hg; [by apply Hz| |]; intros ->; [by apply Hnb, Hcls|by apply Hna, Hcls].
    + intros a b (_ & _ & Ha) Hax (_ & _ & Hb) Hbx. rewrite <-!Hg by done.
      apply (rep_eq_iff m a b Hm); [congruence|done].
Qed.
End remove.
