(* ===== verification/SymHeap.v ===== *)
(** * Disequalities and symbolic heaps: [deqs.ml], [ptos.ml], [heap.ml]

    A symbolic heap is a conjunction of equalities, disequalities, points-to
    atoms and predicates.  The file models its pure part and the points-to atoms:
    entailed equalities and disequalities, consistency, and the disequalities
    that separation implies. *)

From S2P Require Import Prelude Exn Spot ProofGraph Gtc ProofAut Trace Soundness.
From S2P Require Import SoundnessSpec Soundcheck Minimize MinimizeProofs VarManager Subst Listset Uf.

Module Deqs.

(** [Listset.Make (Tpair)], with ordered pairs *)
Abbreviation t := (list (Z * Z)).

Definition add (p : Z * Z) (deqs : t) : t := Listset.add (Uf.order p) deqs.
Definition singleton (p : Z * Z) : t := [Uf.order p].
Definition mem (p : Z * Z) (deqs : t) : bool := Listset.mem (Uf.order p) deqs.
Definition of_list (l : list (Z * Z)) : t := foldl (λ deqs p, add p deqs) [] l.

Definition subst `{VarManager.Hashcons} (theta : gmap Z Z) (m : t) : res t :=
  Listset.map (λ e, Uf.order (Subst.apply theta e.1, Subst.apply theta e.2)) m.

Definition norm_pair (eqs : Uf.t) (p : Z * Z) : res (Z * Z) :=
  x ← Uf.find p.1 eqs;
  y ← Uf.find p.2 eqs;
  mret (Uf.order (x, y)).

Definition subsumed (eqs : Uf.t) (deqs deqs' : t) : res bool :=
  for_all_res (λ p,
    p' ← norm_pair eqs p;
    exists_res (λ q, q' ← norm_pair eqs q; mret (eqb p' q')) deqs') deqs.

(** [map] orders the pairs again. *)
Definition norm (eqs : Uf.t) (deqs : t) : res t :=
  l ← map_res (norm_pair eqs) deqs;
  Listset.of_list (Uf.order <$> l).
End Deqs.

Module Heap.
Section heap.
Context {H : VarManager.Hashcons}.
(** The predicates are carried along. *)
Context {I : Type}.

(** The memoised sets of terms, variables and tags are left out. *)
Record symheap := mk {
  eqs : Uf.t;
  deqs : Deqs.t;
  ptos : list (Z * list Z);
  inds : I;
}.

Definition with_eqs (h : symheap) (eqs : Uf.t) : symheap := mk eqs (deqs h) (ptos h) (inds h).
Definition with_deqs (h : symheap) (deqs : Deqs.t) : symheap := mk (eqs h) deqs (ptos h) (inds h).
Definition with_ptos (h : symheap) (ptos : list (Z * list Z)) : symheap := mk (eqs h) (deqs h) ptos (inds h).
Definition with_inds (h : symheap) (inds : I) : symheap := mk (eqs h) (deqs h) (ptos h) inds.

Definition del_deq (h : symheap) (deq : Z * Z) : symheap := with_deqs h (Listset.remove deq (deqs h)).

Definition equates (h : symheap) (x y : Z) : res bool := Uf.equates (eqs h) x y.

(** [&&] *)
Definition andb_res (a b : res bool) : res bool := a ← a; if a : bool then b else mret false.
Definition orb_res (a b : res bool) : res bool := a ← a; if a : bool then mret true else b.

Definition disequates (h : symheap) (x y : Z) : res bool :=
  exists_res (λ wz,
    orb_res (andb_res (equates h x wz.1) (equates h y wz.2))
            (andb_res (equates h x wz.2) (equates h y wz.1))) (deqs h).

(** [Listmultiset.find_opt] *)
Fixpoint find_lval_in (h : symheap) (x : Z) (l : list (Z * list Z)) : res (option (Z * list Z)) :=
  match l with
  | [] => Ok None
  | p :: l => b ← equates h x p.1; if b : bool then Ok (Some p) else find_lval_in h x l
  end.

Definition find_lval (x : Z) (h : symheap) : res (option (Z * list Z)) := find_lval_in h x (ptos h).

Definition inconsistent (h : symheap) : res bool :=
  orb_res (mret (existsb (λ p, p.1 =? p.2)%Z (deqs h)))
    (exists_res (λ p, equates h p.1 p.2) (deqs h)).

(** The pure part of [subsumed]. *)
Definition pure_subsumed (h h' : symheap) : res bool :=
  andb_res (Uf.subsumed (eqs h) (eqs h')) (Deqs.subsumed (eqs h') (deqs h) (deqs h')).

(** [Blist.cartesian_hemi_square] *)
Fixpoint chs {A} (acc : list (A * A)) (l : list A) : list (A * A) :=
  match l with
  | [] => acc
  | el :: tl => chs (foldl (λ acc' el', (el, el') :: acc') acc tl) tl
  end.

Definition cartesian_hemi_square {A} (xs : list A) : list (A * A) := chs [] xs.

Definition explode_deqs (h : symheap) : res symheap :=
  let cp := cartesian_hemi_square (ptos h) in
  let s1 := foldl (λ s p, Deqs.add (p.1, Term.nil) s) [] (ptos h) in
  let new_deqs := foldl (λ s pq, Deqs.add (pq.1.1, pq.2.1) s) s1 cp in
  d ← Listset.union (deqs h) new_deqs;
  mret (with_deqs h d).
End heap.
Arguments symheap : clear implicits.
End Heap.

(** ** Meaning *)

(** The interpretation makes the disequalities true. *)
Definition deqs_hold {A} (f : Z → A) (deqs : list (Z * Z)) : Prop := ∀ p, p ∈ deqs → f p.1 ≠ f p.2.

(** The cells of a heap are exactly those of the points-to atoms, at distinct
    addresses other than the value of [nil]. *)
Fixpoint cells `{VarManager.Hashcons} {A} `{Countable A} (f : Z → A) (ptos : list (Z * list Z))
    (hp : gmap A (list A)) : Prop :=
  match ptos with
  | [] => hp = ∅
  | (x, args) :: l => ∃ hp', cells f l hp' ∧ hp' !! f x = None ∧ f x ≠ f Term.nil ∧
      hp = <[f x := f <$> args]> hp'
  end.

Section pure.
Import Heap.
Context {H : VarManager.Hashcons} {I : Type}.
Implicit Types (h : symheap I) (m : gmap Z Z).

Lemma andb_res_ok (a b : res bool) P Q :
  decides a P → decides b Q → decides (andb_res a b) (P ∧ Q).
Proof.
  intros (x & -> & Hx) (y & -> & Hy). unfold andb_res, mbind, res_bind, mret, res_ret.
  destruct x; eexists; (split; [done|]); naive_solver.
Qed.

Lemma orb_res_ok (a b : res bool) P Q :
  decides a P → decides b Q → decides (orb_res a b) (P ∨ Q).
Proof.
  intros (x & -> & Hx) (y & -> & Hy). unfold orb_res, mbind, res_bind, mret, res_ret.
  destruct x; eexists; (split; [done|]); naive_solver.
Qed.

(** Consistent: no disequality between equal terms. *)
Definition pure_consistent m (deqs : list (Z * Z)) : Prop := deqs_hold (rep m) deqs.

Lemma consistent_model m deqs : uf_ok m →
  pure_consistent m deqs ↔ ∃ (A : Type) (f : Z → A), models f m ∧ deqs_hold f deqs.
Proof.
  intros Hm. split.
  - intros Hc. exists Z, (rep m). split; [by apply rep_models|done].
  - intros (A & f & Hf & Hd) p Hp Heq. apply (Hd p Hp). by apply (proj1 (rep_eq_iff m _ _ Hm) Heq).
Qed.

Lemma heap_inconsistent_ok h : uf_ok (eqs h) →
  ∃ b, inconsistent h = Ok b ∧
    if b then ¬ pure_consistent (eqs h) (deqs h) else pure_consistent (eqs h) (deqs h).
Proof.
  intros Hm. unfold inconsistent.
  destruct (orb_res_ok (mret (existsb (λ p, p.1 =? p.2)%Z (deqs h)))
    (exists_res (λ p, equates h p.1 p.2) (deqs h)) (∃ p, p ∈ deqs h ∧ p.1 = p.2)
    (∃ p, p ∈ deqs h ∧ rep (eqs h) p.1 = rep (eqs h) p.2)) as (b & Hb & Hiff).
  - eexists. split; [done|]. rewrite existsb_exists. setoid_rewrite Z.eqb_eq.
    setoid_rewrite <-list_elem_of_In. done.
  - apply exists_res_ok. intros p _. by apply equates_ok.
  - exists b. split; [done|]. destruct b.
    + intros Hc. destruct (proj1 Hiff eq_refl) as [(p & Hp & Heq)|(p & Hp & Heq)];
        apply (Hc p Hp); [by rewrite Heq|done].
    + intros p Hp Heq. by discriminate (proj2 Hiff (or_intror (ex_intro _ p (conj Hp Heq)))).
Qed.

(** [x] and [y] are the sides of a known disequality, up to equality. *)
Definition disequated m (deqs : list (Z * Z)) (x y : Z) : Prop :=
  ∃ p, p ∈ deqs ∧ (rep m x = rep m p.1 ∧ rep m y = rep m p.2 ∨
    rep m x = rep m p.2 ∧ rep m y = rep m p.1).

Lemma disequated_sound {A} (f : Z → A) m deqs x y :
  disequated m deqs x y → models f m → deqs_hold f deqs → f x ≠ f y.
Proof.
  intros (p & Hp & Hxy) Hf Hd Heq. apply (Hd p Hp).
  rewrite <-(models_rep f m p.1), <-(models_rep f m p.2) by done.
  rewrite <-(models_rep f m x), <-(models_rep f m y) in Heq by done.
  destruct Hxy as [[<- <-]|[<- <-]]; congruence.
Qed.

Lemma disequates_ok h x y : uf_ok (eqs h) →
  decides (disequates h x y) (disequated (eqs h) (deqs h) x y).
Proof.
  intros Hm. apply exists_res_ok. intros p _.
  apply orb_res_ok; apply andb_res_ok; by apply equates_ok.
Qed.

(** What is not disequated can be equal. *)
Lemma disequated_complete m deqs x y : uf_ok m → pure_consistent m deqs →
  (∀ f : Z → Z, models f m → deqs_hold f deqs → f x ≠ f y) → disequated m deqs x y.
Proof.
  intros Hm Hc Hall. set (g t := if decide (rep m t = rep m x) then rep m y else rep m t).
  assert (∀ a b, g a = g b → rep m a = rep m b ∨
    (rep m x = rep m a ∧ rep m y = rep m b ∨ rep m x = rep m b ∧ rep m y = rep m a)) as Hg.
  { intros a b. unfold g. repeat case_decide; naive_solver congruence. }
  destruct (decide (Exists (λ p, g p.1 = g p.2) deqs)) as [(p & Hp & Heq)%Exists_exists|Hn].
  - destruct (Hg _ _ Heq) as [Hr|Hr]; [by destruct (Hc p Hp)|]. by exists p.
  - exfalso. apply (Hall g).
    + intros a b Hab. unfold g. by rewrite (rep_models m Hm a b Hab).
    + intros p Hp Heq. apply Hn, Exists_exists. by exists p.
    + unfold g. rewrite decide_True by done. case_decide; congruence.
Qed.

Lemma disequated_iff m deqs x y : uf_ok m → pure_consistent m deqs →
  disequated m deqs x y ↔ ∀ (A : Type) (f : Z → A), models f m → deqs_hold f deqs → f x ≠ f y.
Proof.
  intros Hm Hc. split; [intros Hd A f; by apply disequated_sound|].
  intros Hall. by apply disequated_complete; [| |apply Hall].
Qed.

(** *** Subsumption *)

Lemma order_eq (a b c d : Z) : Uf.order (a, b) = Uf.order (c, d) ↔ a = c ∧ b = d ∨ a = d ∧ b = c.
Proof.
  unfold Uf.order. simpl. repeat case_decide; split;
    (intros [= ? ?]; subst; auto) || (intros [[-> ->]|[-> ->]]; f_equal; lia).
Qed.

Lemma deqs_subsumed_ok m deqs deqs' : uf_ok m →
  decides (Deqs.subsumed m deqs deqs') (∀ q, q ∈ deqs → disequated m deqs' q.1 q.2).
Proof.
  intros Hm. assert (∀ p, Deqs.norm_pair m p = Ok (Uf.order (rep m p.1, rep m p.2))) as Hn.
  { intros p. unfold Deqs.norm_pair. by rewrite !uf_find_ok by done. }
  apply for_all_res_ok. intros q _. rewrite Hn. unfold mbind at 1, res_bind at 1.
  apply exists_res_ok. intros p _. rewrite Hn. unfold mbind, res_bind.
  eexists. split; [done|]. by rewrite eqb_spec, order_eq.
Qed.

Lemma pure_subsumed_ok h h' : uf_ok (eqs h) → uf_ok (eqs h') → pure_consistent (eqs h') (deqs h') →
  decides (pure_subsumed h h') (∀ (A : Type) (f : Z → A),
    models f (eqs h') → deqs_hold f (deqs h') → models f (eqs h) ∧ deqs_hold f (deqs h)).
Proof.
  intros Hm Hm' Hc.
  destruct (andb_res_ok _ _ _ _ (subsumed_ok (eqs h) (eqs h') Hm Hm')
    (deqs_subsumed_ok (eqs h') (deqs h) (deqs h') Hm')) as (b & Hb & Hiff).
  exists b. split; [done|]. rewrite Hiff. setoid_rewrite (disequated_iff _ _ _ _ Hm' Hc). split.
  - intros [He Hd] A f Hf Hdf. split; [by apply He|]. intros q Hq. by apply (Hd q Hq A f).
  - intros Hall. split.
    + intros A f Hf. apply models_bindings. intros [x y] Hp%elem_of_equalities. simpl.
      apply (proj1 (rep_eq_iff (eqs h') x y Hm')); [|done].
      by apply (proj1 (Hall Z (rep (eqs h')) (rep_models _ Hm') Hc)).
    + intros q Hq A f Hf Hdf. by apply (proj2 (Hall A f Hf Hdf)).
Qed.

(** *** Points-to atoms *)

Lemma order_holds {A} (f : Z → A) (p : Z * Z) : f (Uf.order p).1 ≠ f (Uf.order p).2 ↔ f p.1 ≠ f p.2.
Proof. unfold Uf.order. case_decide; simpl; [done|]. by split; intros ? ?. Qed.

Lemma add_deqs_hold {A B} (f : Z → A) (g : B → Z * Z) (l : list B) s :
  deqs_hold f (foldl (λ s b, Deqs.add (g b) s) s l) ↔
    deqs_hold f s ∧ ∀ b, b ∈ l → f (g b).1 ≠ f (g b).2.
Proof.
  revert s. induction l as [|b l IH]; intros s; simpl; [set_solver|]. rewrite IH.
  unfold deqs_hold, Deqs.add. setoid_rewrite elem_of_add. setoid_rewrite elem_of_cons.
  split.
  - intros [H1 H2]. split; [auto|]. intros c [->|Hc]; [apply order_holds; auto|auto].
  - intros [H1 H2]. split; [|auto]. intros p [->|Hp]; [apply order_holds; auto|auto].
Qed.

Lemma add_deqs_ordered {B} (g : B → Z * Z) (l : list B) s :
  ordered s → ordered (foldl (λ s b, Deqs.add (g b) s) s l).
Proof. revert s. induction l as [|b l IH]; intros s Hs; [done|]. by apply IH, add_ordered. Qed.

Lemma elem_of_chs {A} (xs : list A) acc p :
  p ∈ chs acc xs ↔ p ∈ acc ∨ ∃ i j, i < j ∧ xs !! i = Some p.1 ∧ xs !! j = Some p.2.
Proof.
  assert (∀ (x : A) k acc, p ∈ foldl (λ acc' y, (x, y) :: acc') acc k ↔
    p ∈ acc ∨ p.1 = x ∧ p.2 ∈ k) as Hin.
  { intros x. induction k as [|y k IH]; intros acc'; simpl; [set_solver|]. rewrite IH, !elem_of_cons.
    destruct p as [a b]; simpl. naive_solver. }
  revert acc. induction xs as [|x xs IH]; intros acc; simpl.
  { split; [by left|]. intros [|(i & j & _ & Hi & _)]; [done|]. by rewrite lookup_nil in Hi. }
  rewrite IH, Hin. split.
  - intros [[Hp|[<- Hp]]|(i & j & Hij & Hi & Hj)]; [by left| |].
    + apply list_elem_of_lookup in Hp as [j Hj]. right. exists 0, (S j). split; [lia|done].
    + right. exists (S i), (S j). split; [lia|done].
  - intros [Hp|([|i] & [|j] & Hij & Hi & Hj)]; [by left; left|lia| |lia|].
    + left. right. simpl in *. split; [congruence|by eapply list_elem_of_lookup_2].
    + right. exists i, j. split; [lia|done].
Qed.

Lemma cells_dom {A} `{Countable A} (f : Z → A) ptos hp a :
  cells f ptos hp → is_Some (hp !! a) ↔ a ∈ (λ p, f p.1) <$> ptos.
Proof.
  revert hp. induction ptos as [|[x args] l IH]; intros hp; simpl.
  - intros ->. rewrite lookup_empty, elem_of_nil. split; [by intros []|done].
  - intros (hp' & Hc & _ & _ & ->). rewrite elem_of_cons, <-(IH hp' Hc).
    destruct (decide (a = f x)) as [->|Hne]; [rewrite lookup_insert_eq; naive_solver|].
    rewrite lookup_insert_ne by done. naive_solver.
Qed.

(** A heap with the cells of the atoms exists exactly when the addresses are
    distinct and not [nil]. *)
Lemma cells_iff {A} `{Countable A} (f : Z → A) ptos :
  (∃ hp, cells f ptos hp) ↔ NoDup ((λ p, f p.1) <$> ptos) ∧ ∀ p, p ∈ ptos → f p.1 ≠ f Term.nil.
Proof.
  induction ptos as [|[x args] l IH]; simpl.
  { split; [|intros _; by exists ∅]. intros _. split; [constructor|set_solver]. }
  rewrite NoDup_cons. split.
  - intros (hp & hp' & Hc & Hx & Hnil & _). destruct (proj1 IH) as [Hnd Hall]; [by exists hp'|].
    split; [split; [|done]|].
    + rewrite <-(cells_dom f l hp' (f x) Hc), Hx. by intros [].
    + intros p [->|Hp]%elem_of_cons; auto.
  - intros [[Hx Hnd] Hall]. destruct (proj2 IH) as [hp' Hc]; [split; [done|set_solver]|].
    exists (<[f x := f <$> args]> hp'), hp'. split; [done|]. split; [|split; [|done]].
    + apply eq_None_not_Some. by rewrite (cells_dom f l hp' (f x) Hc).
    + apply (Hall (x, args)). left.
Qed.

Lemma nodup_pairs {A B} (g : B → A) (l : list B) :
  NoDup (g <$> l) ↔ ∀ p, p ∈ cartesian_hemi_square l → g p.1 ≠ g p.2.
Proof.
  unfold cartesian_hemi_square. setoid_rewrite elem_of_chs. rewrite NoDup_alt. split.
  - intros Hnd p [?%not_elem_of_nil|(i & j & Hij & Hi & Hj)] Heq; [done|].
    assert (i = j); [|lia]. apply (Hnd i j (g p.1)); rewrite list_lookup_fmap; [by rewrite Hi|].
    by rewrite Hj, Heq.
  - intros Hp i j x. rewrite !list_lookup_fmap.
    destruct (l !! i) as [a|] eqn:Ei, (l !! j) as [b|] eqn:Ej; simpl; try done. intros [= <-] [= Hb].
    destruct (lt_eq_lt_dec i j) as [[Hlt|]|Hlt]; [|done|]; exfalso.
    + by apply (Hp (a, b)); [right; exists i, j|].
    + by apply (Hp (b, a)); [right; exists j, i|].
Qed.

(** [explode_deqs] adds what the points-to atoms say about their addresses. *)
Lemma explode_deqs_ok h : ordered (deqs h) →
  ∃ d, explode_deqs h = Ok (with_deqs h d) ∧ ordered d ∧
    ∀ (A : Type) `(Countable A) (f : Z → A),
      deqs_hold f d ↔ deqs_hold f (deqs h) ∧ ∃ hp, cells f (ptos h) hp.
Proof.
  intros Ho. unfold explode_deqs. set (s1 := foldl _ [] (ptos h)). set (new := foldl _ s1 _).
  destruct (union_ok (deqs h) new Ho) as (d & Hd & Hod & Hin).
  { by apply add_deqs_ordered, add_deqs_ordered; constructor. }
  exists d. unfold mbind, res_bind. rewrite Hd. split; [done|]. split; [done|]. intros A ? ? f.
  rewrite cells_iff, (nodup_pairs (λ p : Z * list Z, f p.1)).
  assert (deqs_hold f d ↔ deqs_hold f (deqs h) ∧ deqs_hold f new) as ->.
  { unfold deqs_hold. setoid_rewrite Hin. naive_solver. }
  unfold new, s1. rewrite (add_deqs_hold f (λ pq : (Z * list Z) * (Z * list Z), (pq.1.1, pq.2.1))).
  rewrite (add_deqs_hold f (λ p : Z * list Z, (p.1, Term.nil))). simpl.
  assert (deqs_hold f []) by (intros ? []%not_elem_of_nil). tauto.
Qed.
End pure.
