(* ===== verification/LogicTheorems.v ===== *)
(** * The data of the logics

    The main results on constraints between tags, unification, equalities and
    symbolic heaps. *)

From S2P Require Import Prelude Exn Spot ProofGraph Gtc ProofAut Trace Soundness.
From S2P Require Import SoundnessSpec Soundcheck Minimize MinimizeProofs VarManager TagPairs Subst.
From S2P Require Import Listset Unification OrdConstraints OrdTheory OrdUnify Uf SymHeap.
Import Constraint.

(** ** Constraints *)

(** C25: the closure of a set of constraints is computed, [inconsistent] returns
    true exactly when no valuation of the tags by ordinals satisfies the set, and
    otherwise [subsumes] on the closure decides entailment; its progressing pairs
    are the entailed strict inequalities, and all its pairs the entailed
    inequalities between tags of the set. *)
Theorem constraints_decided (cs : OrdConstraints.t) : ordered cs →
  ∃ r b, OrdConstraints.close cs = Ok r ∧ ordered r ∧ OrdConstraints.inconsistent cs = Ok b ∧
    (b = true ↔ ¬ satisfied cs) ∧
    (b = false →
      (∀ cs', OrdConstraints.subsumes r cs' = true ↔ ∀ c, c ∈ cs' → entails cs c) ∧
      (∀ t u, (t, u) ∈ OrdConstraints.prog_pairs r ↔ entails cs (LT (t, u))) ∧
      (∀ t u, (t, u) ∈ OrdConstraints.all_pairs r ↔
        t ∈ OrdConstraints.tags cs ∧ entails cs (LTE (t, u)))).
Proof.
  intros Hcs. destruct (close_ok cs Hcs) as (r & Hr & Ho & Hin).
  destruct (inconsistent_ok cs Hcs) as (b & Hb & Hiff). exists r, b.
  split; [done|]. split; [done|]. split; [done|]. rewrite <-consistent_iff by done.
  split; [destruct b; naive_solver|]. intros ->. rename Hiff into Hc.
  split; [|split].
  - intros cs'. rewrite subsumes_spec by done. split.
    + intros H c Hc'. destruct (rel_cases c) as (s & t & u & ->). apply entails_iff; [done..|].
      apply (derives_closed cs r s t u Hin). by apply H.
    + intros H s t u Hc'. apply (derives_closed cs r s t u Hin).
      apply entails_iff; [done..|]. by apply H.
  - intros t u. rewrite elem_of_prog_pairs. rewrite (entails_iff cs true t u Hcs Hc).
    rewrite (derives_closed cs r true t u Hin). naive_solver.
  - intros t u. rewrite elem_of_all_pairs. rewrite (entails_iff cs false t u Hcs Hc).
    rewrite (Hin true t u), (Hin false t u). split.
    + intros [(Hd & Ht & _)|(Hd & Ht & _)]; (split; [done|]); [by apply d_weak|done].
    + intros [Ht Hd]. right. split; [done|]. split; [done|].
      by destruct (derives_tags _ _ _ _ Hd) as [[<- _]|[_ ?]].
Qed.

(** C26: schemas are tautologies: [verify_schemas] returns for constraints
    between named tags, and when it returns true, every valuation of the other
    tags can be changed on existential tags outside [used] so that it satisfies
    the constraints. *)
Theorem schemas_sound {H : VarManager.Hashcons} {HL : VarManager.HashconsLaws H}
    (used : gset Z) (cs : OrdConstraints.t) :
  (∀ t, t ∈ OrdConstraints.tags cs → ∃ s, t = VarManager.hashcons s) →
  ∃ b, OrdConstraints.verify_schemas used cs = Ok b ∧
    (b = true → ∀ (O : Type) (HO : Ordinals O) (v : Z → O), ∃ v',
      (∀ t, ¬ choosable used t → v' t = v t) ∧ sat v' cs).
Proof.
  intros Hnamed. destruct (remove_schemas_total used (S (length cs)) cs) as [rest Hr]; [lia| |].
  { intros t Ht. destruct (Hnamed t Ht) as [s ->]. apply is_exist_var_named. }
  eexists. split; [unfold OrdConstraints.verify_schemas, mbind, res_bind; by rewrite Hr|].
  intros ->%bool_decide_eq_true O HO v. eapply remove_schemas_sound; [exact Hr|].
  by intros c ?%not_elem_of_nil.
Qed.

(** ** Unification *)


(** ** Equalities *)

(** C28: the union-find structure built from a list of equalities decides what
    they entail: [equates] holds exactly of the terms with the same value in all
    interpretations that satisfy them; [union] has the interpretations of both
    sets, [subst] those that satisfy the substituted equalities, and [subsumed]
    decides entailment. *)
Theorem uf_correct {H : VarManager.Hashcons} (l l' : list (Z * Z)) (theta : gmap Z Z) :
  ∃ m m' u s b,
    Uf.of_list l = Ok m ∧ Uf.of_list l' = Ok m' ∧ Uf.union m m' = Ok u ∧ Uf.subst theta m = Ok s ∧
    Uf.subsumed m m' = Ok b ∧ uf_ok m ∧ uf_ok u ∧ uf_ok s ∧
    (∀ x y, ∃ e, Uf.equates m x y = Ok e ∧ (e = true ↔ ∀ (A : Type) (f : Z → A),
      (∀ p, p ∈ l → f p.1 = f p.2) → f x = f y)) ∧
    (∀ (A : Type) (f : Z → A), models f u ↔ ∀ p, p ∈ l ++ l' → f p.1 = f p.2) ∧
    (∀ (A : Type) (f : Z → A), models f s ↔ ∀ p, p ∈ l →
      f (Subst.apply theta p.1) = f (Subst.apply theta p.2)) ∧
    (b = true ↔ ∀ (A : Type) (f : Z → A),
      (∀ p, p ∈ l' → f p.1 = f p.2) → ∀ p, p ∈ l → f p.1 = f p.2).
Proof.
  destruct (of_list_ok' l) as (m & Hm & Hok & Hf), (of_list_ok' l') as (m' & Hm' & Hok' & Hf').
  destruct (union_ok' m m' Hok') as (u & Hu & Huok & Hfu), (subst_ok theta m) as (s & Hs & Hsok & Hfs).
  destruct (subsumed_ok m m' Hok Hok') as (b & Hb & Hiff).
  exists m, m', u, s, b. repeat (split; [done|]). split; [|split; [|split]].
  - intros x y. destruct (equates_ok m x y Hok) as (e & He & Heq). exists e. split; [done|].
    rewrite Heq, (rep_eq_iff m x y Hok). by setoid_rewrite Hf.
  - intros A f. rewrite Hfu, Hf, Hf'. setoid_rewrite elem_of_app. naive_solver.
  - intros A f. by rewrite Hfs, Hf.
  - rewrite Hiff. by setoid_rewrite Hf; setoid_rewrite Hf'.
Qed.

(** C29: removing a variable that is not equal to [nil] leaves what holds for
    some value of it; removing one that is equal to [nil] loses that any other
    variable is equal to [nil]. *)
Theorem remove_correct {H : VarManager.Hashcons} (x : Z) (m : gmap Z Z) : uf_ok m → x ≠ Term.nil →
  ∃ r, Uf.remove x m = Ok r ∧ uf_ok r ∧
    (rep m x ≠ rep m Term.nil → ∀ (A : Type) (f : Z → A),
      models f r ↔ ∃ z, models (λ t, if decide (t = x) then z else f t) m) ∧
    (rep m x = rep m Term.nil → ∀ y, y ∈ Uf.terms m → y ≠ Term.nil →
      rep m y = rep m Term.nil → Uf.equates r y Term.nil = Ok false).
Proof.
  intros Hm Hx. destruct (uf_remove_ok x m Hm) as (r & Hr & Hok & Hf). exists r.
  split; [done|]. split; [done|]. split; [intros Hn; by apply (remove_exists x m r)|].
  intros Hxn y Hy Hyn Heq. destruct (equates_ok r y Term.nil Hok) as ([] & He & Hiff); [|done].
  exfalso. pose proof (proj1 (rep_eq_iff r y Term.nil Hok) (proj1 Hiff eq_refl)) as Hall.
  set (f t := bool_decide (t ∈ Uf.terms m ∧ t ≠ Term.nil ∧ rep m x = rep m t)).
  assert (f y = f Term.nil) as Hfy.
  { apply Hall, Hf. unfold f, in_class. split; intros a b; intros.
    - by rewrite !bool_decide_eq_false_2.
    - by rewrite !bool_decide_eq_true_2. }
  unfold f in Hfy. rewrite bool_decide_eq_true_2 in Hfy by (split; [done|split; [done|congruence]]).
  symmetry in Hfy. apply bool_decide_eq_true in Hfy as (_ & ? & _). done.
Qed.

(** ** Symbolic heaps *)

(** The values of the terms and the cells satisfy the atoms of the heap. *)
Definition heap_model `{VarManager.Hashcons} {I A : Type} `{Countable A} (h : Heap.symheap I)
    (f : Z → A) (hp : gmap A (list A)) : Prop :=
  models f (Heap.eqs h) ∧ deqs_hold f (Heap.deqs h) ∧ cells f (Heap.ptos h) hp.

Definition heap_sat `{VarManager.Hashcons} {I : Type} (h : Heap.symheap I) : Prop :=
  ∃ (A : Type) (E : EqDecision A) (C : Countable A) (f : Z → A) hp, heap_model h f hp.

Definition heap_entails `{VarManager.Hashcons} {I : Type} (h : Heap.symheap I)
    (P : ∀ A : Type, (Z → A) → Prop) : Prop :=
  ∀ (A : Type) (E : EqDecision A) (C : Countable A) (f : Z → A) hp, heap_model h f hp → P A f.

(** C30: for a symbolic heap whose predicates are ignored, with the
    disequalities of its points-to atoms added by [explode_deqs], [inconsistent]
    decides unsatisfiability, and for a satisfiable one [equates] and
    [disequates] decide which equalities and disequalities it entails. *)
Theorem heap_decided {H : VarManager.Hashcons} {I : Type} (h : Heap.symheap I) :
  uf_ok (Heap.eqs h) → ordered (Heap.deqs h) →
  ∃ h' b, Heap.explode_deqs h = Ok h' ∧ Heap.inconsistent h' = Ok b ∧ (b = true ↔ ¬ heap_sat h) ∧
    (b = false → ∀ x y, ∃ e d,
      Heap.equates h' x y = Ok e ∧ (e = true ↔ heap_entails h (λ A f, f x = f y)) ∧
      Heap.disequates h' x y = Ok d ∧ (d = true ↔ heap_entails h (λ A f, f x ≠ f y))).
Proof.
  intros Hm Ho. destruct (explode_deqs_ok h Ho) as (d & Hd & Hod & Hiff).
  set (h' := Heap.with_deqs h d) in *.
  assert (∀ (A : Type) (E : EqDecision A) (C : Countable A) (f : Z → A),
    (∃ hp, heap_model h f hp) ↔ models f (Heap.eqs h) ∧ deqs_hold f d) as Hmod.
  { intros A E C f. unfold heap_model. rewrite (Hiff A E C f). naive_solver. }
  destruct (heap_inconsistent_ok h' Hm) as (b & Hb & Hc). simpl in Hc.
  assert (pure_consistent (Heap.eqs h) d ↔ heap_sat h) as Hsat.
  { rewrite consistent_model by done. split.
    - intros (A & f & Hf & Hdf). exists Z, _, _, (rep (Heap.eqs h)).
      apply Hmod. split; [by apply rep_models|]. apply (consistent_model _ d Hm). by exists A, f.
    - intros (A & E & C & f & Hex). exists A, f. by apply (Hmod A E C f). }
  exists h', b. split; [done|]. split; [done|]. split; [rewrite <-Hsat; destruct b; naive_solver|].
  intros ->. rename Hc into Hcon.
  intros x y. destruct (equates_ok (Heap.eqs h) x y Hm) as (e & He & Heq).
  destruct (disequates_ok h' x y Hm) as (dd & Hdd & Hdis). simpl in Hdis. exists e, dd.
  split; [done|]. split; [|split; [done|]].
  - rewrite Heq. split.
    + intros Hr A E C f hp [Hf _]. by apply (proj1 (rep_eq_iff (Heap.eqs h) x y Hm) Hr).
    + intros Hent. destruct (proj2 (Hmod Z _ _ (rep (Heap.eqs h)))) as [hp Hhp]; [by split; [apply rep_models|]|].
      by apply (Hent Z _ _ _ hp).
  - rewrite Hdis. split.
    + intros Hr A E C f hp Hhp. destruct (proj1 (Hmod A E C f)) as [Hf Hdf]; [by exists hp|].
      by apply (disequated_sound f (Heap.eqs h) d).
    + intros Hent. apply disequated_complete; [done..|]. intros f Hf Hdf.
      destruct (proj2 (Hmod Z _ _ f)) as [hp Hhp]; [done|]. by apply (Hent Z _ _ _ hp).
Qed.

(** ** Instances *)

Definition three : OrdConstraints.t := [LT (1, 2); LTE (2, 3)]%Z.

Lemma constraints_decided_witness :
  OrdConstraints.close three = Ok [LT (1, 2); LT (1, 3); LTE (1, 1); LTE (1, 2); LTE (1, 3);
    LTE (2, 2); LTE (2, 3); LTE (3, 3)]%Z ∧
  (∃ r b, OrdConstraints.close three = Ok r ∧ OrdConstraints.inconsistent three = Ok b ∧
    (b = true ↔ ¬ satisfied three) ∧
    (b = false → ∀ t u, (t, u) ∈ OrdConstraints.prog_pairs r ↔ entails three (LT (t, u)))).
Proof.
  split; [vm_compute; reflexivity|].
  destruct (constraints_decided three) as (r & b & Hr & _ & Hb & Hi & Hd).
  - repeat constructor.
  - exists r, b. split; [exact Hr|]. split; [exact Hb|]. split; [exact Hi|]. intros E. apply (Hd E).
Defined.

(** An upper bound and a lower bound. *)
Definition bounds : OrdConstraints.t :=
  default [] (match Listset.of_list
    [LT (VarManager.hashcons "a", VarManager.hashcons "c'");
     LTE (VarManager.hashcons "d'", VarManager.hashcons "a")] with Ok l => Some l | Err _ => None end).

Lemma schemas_sound_witness :
  OrdConstraints.verify_schemas ∅ bounds = Ok true ∧
  OrdConstraints.verify_schemas {[VarManager.hashcons "c'"]} bounds = Ok false ∧
  ∃ b, OrdConstraints.verify_schemas ∅ bounds = Ok b ∧ (b = true → ∀ v : Z → nat, ∃ v',
    (∀ t, ¬ choosable ∅ t → v' t = v t) ∧ sat v' bounds).
Proof.
  split; [vm_compute; reflexivity|]. split; [vm_compute; reflexivity|].
  destruct (schemas_sound ∅ bounds) as (b & Hb & Hs).
  - intros t Ht. assert (t = VarManager.hashcons "a" ∨ t = VarManager.hashcons "c'" ∨
      t = VarManager.hashcons "d'") as Hcases.
    { apply elem_of_tags in Ht as (c & Hc & Ht). vm_compute in Hc.
      repeat (apply elem_of_cons in Hc as [->|Hc]; [simpl in Ht; set_solver|]).
      by apply elem_of_nil in Hc. }
    destruct Hcases as [->|[->| ->]]; eexists; reflexivity.
  - exists b. split; [exact Hb|]. intros E v. apply (Hs E nat nat_ordinals v).
Defined.


(** Two variables that are equal to [nil]. *)
Definition two_nils : gmap Z Z :=
  default ∅ (match Uf.of_list [(VarManager.hashcons "x", Term.nil); (VarManager.hashcons "y", Term.nil)] with
    | Ok m => Some m | Err _ => None end).

Lemma two_nils_ok : uf_ok two_nils.
Proof.
  destruct (of_list_ok' [(VarManager.hashcons "x", Term.nil); (VarManager.hashcons "y", Term.nil)])
    as (m & Hm & Hok & _). unfold two_nils. by rewrite Hm.
Qed.

Lemma remove_correct_witness :
  Uf.equates two_nils (VarManager.hashcons "y") Term.nil = Ok true ∧
  ∃ r, Uf.remove (VarManager.hashcons "x") two_nils = Ok r ∧
    Uf.equates r (VarManager.hashcons "y") Term.nil = Ok false.
Proof.
  split; [vm_compute; reflexivity|].
  destruct (remove_correct (VarManager.hashcons "x") two_nils two_nils_ok) as (r & Hr & _ & _ & Hnil).
  - by vm_compute.
  - exists r. split; [exact Hr|]. apply Hnil; [vm_compute; reflexivity| |by vm_compute|vm_compute; reflexivity].
    apply (bool_decide_unpack _). vm_compute. exact Logic.I.
Defined.

(** Two cells, one of them at the address of the other's content. *)
Definition two_cells : Heap.symheap unit :=
  Heap.mk ∅ [] [(VarManager.hashcons "x", [VarManager.hashcons "y"]);
    (VarManager.hashcons "y", [Term.nil])] tt.

Lemma heap_decided_witness :
  (h' ← Heap.explode_deqs two_cells;
   Heap.disequates h' (VarManager.hashcons "x") (VarManager.hashcons "y")) = Ok true ∧
  ∃ h' b, Heap.explode_deqs two_cells = Ok h' ∧ Heap.inconsistent h' = Ok b ∧
    (b = true ↔ ¬ heap_sat two_cells).
Proof.
  split; [vm_compute; reflexivity|].
  destruct (heap_decided two_cells) as (h' & b & Hh & Hb & Hi & _).
  - apply empty_ok.
  - constructor.
  - by exists h', b.
Defined.

(** [generate] with nothing to avoid, as the right unfolding of predicates in
    [procedure/rules.ml] calls it, can take the tag itself as its fresh tag, and
    the result is unsatisfiable. *)
Lemma generate_clash :
  ∃ r, OrdConstraints.generate ["a"; "b"] ∅ true (VarManager.hashcons "a'") ∅ = Ok r ∧
    OrdConstraints.inconsistent r = Ok true.
Proof. eexists. split; vm_compute; reflexivity. Qed.

(** The tag to avoid is avoided. *)
Lemma generate_consistent {H : VarManager.Hashcons} {HL : VarManager.HashconsLaws H}
    (alphabet : list string) (avoid : gset Z) (t : Z) :
  alphabet_ok VarManager.classify_tag alphabet → t ∈ avoid →
  ∃ r, OrdConstraints.generate alphabet avoid true t ∅ = Ok r ∧ satisfied r.
Proof.
  intros Hal Ht. destruct (generate_ok alphabet avoid true t ∅ Hal) as (ts' & r & Hr & Ho & Hin & Hfresh).
  exists r. split; [done|]. apply consistent_iff; [done|]. apply (generated_consistent r t ts' Hin).
  simpl in Hfresh. destruct Hfresh as (e & -> & He & _). set_solver.
Qed.
