(* ===== verification/CHeap.v ===== *)
(** * The memory of the benchmark programs

    The C programs under [benchmarks/slmc/programs] allocate structs with
    [malloc], link them through pointers and release them with [free].  A heap
    maps addresses to struct values; [V] is the type of the structs of one
    program.  A field is [None] until it is written: reading it then is
    undefined.  The allocator and [rand] are parameters. *)

From S2P Require Import Prelude.

(** ** Structs and fields *)

(** Structs of type [R] among the objects [V] of a program. *)
Class Struct (V R : Type) := {
  obj : R → V;
  as_struct : V → option R;
  as_struct_obj r : as_struct (obj r) = Some r;
}.

(** A field of type [T] of a struct [R]. *)
Record field (R T : Type) := Field {
  fget : R → option T;
  fset : T → R → R;
}.
Arguments Field {R T} _ _.
Arguments fget {R T} _ _.
Arguments fset {R T} _ _ _.

(** ** The C library *)

(** The address [malloc] returns, [None] for a null pointer. *)
Class Allocator (V : Type) := { alloc : gmap Z V → option Z }.

Class AllocatorLaws {V} (A : Allocator V) : Prop := {
  alloc_fresh h p : alloc h = Some p → p ≠ 0%Z ∧ h !! p = None;
}.

(** [malloc] returns null on some heap. *)
Definition oom {V} {A : Allocator V} : Prop := ∃ h, alloc h = None.

Definition RAND_MAX : Z := 2147483647.

(** The numbers [rand] yields, in order. *)
Class Rand := { rand_val : nat → Z }.

Class RandLaws (Rn : Rand) : Prop := {
  rand_range n : (0 ≤ rand_val n ≤ RAND_MAX)%Z;
}.

Record mem (V : Type) := mkMem {
  heap : gmap Z V;
  calls : nat;
}.
Arguments mkMem {V} _ _.
Arguments heap {V} _.
Arguments calls {V} _.

Section libc.
Context {V : Type} {A : Allocator V} {Rn : Rand}.

(** [malloc(sizeof(struct R))]; [r] is the struct with no field set. *)
Definition malloc {R} `{Struct V R} (r : R) : M (mem V) Z := λ m,
  match alloc (heap m) with
  | Some p => Ok (p, mkMem (<[p := obj r]> (heap m)) (calls m))
  | None => Ok (0%Z, m)
  end.

Definition free (p : Z) : M (mem V) unit := λ m,
  if decide (p = 0%Z) then Ok (tt, m)
  else match heap m !! p with
       | Some _ => Ok (tt, mkMem (delete p (heap m)) (calls m))
       | None => Err EFault
       end.

Definition abort {B} : M (mem V) B := fail EAbort.

(** [if (b) abort();] *)
Definition abort_if (b : bool) : M (mem V) unit := if b then abort else mret tt.

Definition rand : M (mem V) Z := λ m,
  Ok (rand_val (calls m), mkMem (heap m) (S (calls m))).

(** The struct [p] points to. *)
Definition deref {R} `{Struct V R} (p : Z) : M (mem V) R := λ m,
  match heap m !! p with
  | Some v => match as_struct v with Some r => Ok (r, m) | None => Err EFault end
  | None => Err EFault
  end.

(** [p->f] as a value and as the target of an assignment. *)
Definition load {R T} `{Struct V R} (f : field R T) (p : Z) : M (mem V) T :=
  r ← deref p;
  match fget f r with Some x => mret x | None => fail EUB end.

Definition store {R T} `{Struct V R} (f : field R T) (p : Z) (x : T) : M (mem V) unit :=
  r ← deref p;
  modify (λ m, mkMem (<[p := obj (fset f x r)]> (heap m)) (calls m)).

(** [while (c) b] with the assigned locals passed along. *)
Fixpoint while {L} (fuel : nat) (c : L → M (mem V) bool) (b : L → M (mem V) L) (l : L) :
    M (mem V) L :=
  d ← c l;
  if d : bool then
    match fuel with
    | O => fail EFuel
    | S fuel => l' ← b l; while fuel c b l'
    end
  else mret l.
End libc.

(** ** Arrays of the stack frame *)

(** [T a\[n\];] with a length known at run time only; none of its elements is
    initialised, and a length that is not positive is undefined. *)
Definition new_array {S T} (n : Z) : M S (list (option T)) :=
  if decide (0 < n)%Z then mret (replicate (Z.to_nat n) None) else fail EUB.

(** [a\[i\]] *)
Definition array_get {S T} (a : list (option T)) (i : Z) : M S T :=
  if decide (0 ≤ i)%Z then
    match a !! Z.to_nat i with Some (Some x) => mret x | _ => fail EUB end
  else fail EUB.

(** [a\[i\] = x] *)
Definition array_set {S T} (a : list (option T)) (i : Z) (x : T) : M S (list (option T)) :=
  if decide (0 ≤ i < Z.of_nat (length a))%Z then mret (<[Z.to_nat i := Some x]> a)
  else fail EUB.

(** ** [atoi] *)

Definition digit (c : Ascii.ascii) : option Z :=
  let n := Z.of_nat (Ascii.nat_of_ascii c) in
  if decide (48 ≤ n ≤ 57)%Z then Some (n - 48)%Z else None.

Fixpoint digits (acc : Z) (s : string) : Z :=
  match s with
  | EmptyString => acc
  | String c s => match digit c with Some d => digits (acc * 10 + d) s | None => acc end
  end.

(** White space of the C locale. *)
Definition isspace (c : Ascii.ascii) : bool :=
  let n := Ascii.nat_of_ascii c in bool_decide (n = 32 ∨ 9 ≤ n ≤ 13).

Fixpoint skip_space (s : string) : string :=
  match s with
  | EmptyString => EmptyString
  | String c s' => if isspace c then skip_space s' else s
  end.

(** A value out of range is undefined. *)
Definition atoi {S} (str : string) : M S Z :=
  let s := skip_space str in
  let z := match s with
           | String c s' =>
             if decide (c = Ascii.ascii_of_nat 45) then (- digits 0 s')%Z
             else if decide (c = Ascii.ascii_of_nat 43) then digits 0 s'
             else digits 0 s
           | EmptyString => 0%Z
           end in
  if decide (int_range z) then mret z else fail EUB.

(** [argv\[i\]]; reading past the end gives the null pointer to [atoi]. *)
Definition arg {S} (argv : list string) (i : nat) : M S string :=
  match argv !! i with Some s => mret s | None => fail EFault end.

(** ** A reference allocator and generator *)

(** The addresses in use, and one that is not. *)
Definition in_use {V} (h : gmap Z V) : gset positive :=
  set_map (C := gset Z) (D := gset positive) Z.to_pos (dom h).
Definition first_free {V} (h : gmap Z V) : Z := Zpos (fresh (in_use h)).

#[global] Instance bump_allocator V : Allocator V := {| alloc h := Some (first_free h) |}.

#[global] Instance bump_allocator_laws V : AllocatorLaws (bump_allocator V).
Proof.
  split. intros h p [= <-]. split; [done|]. apply not_elem_of_dom. unfold first_free.
  intros Hin. apply (is_fresh (in_use h)).
  apply elem_of_map. eexists. split; [|exact Hin]. done.
Qed.

Lemma bump_no_oom V : ¬ @oom V (bump_allocator V).
Proof. intros [h Hh]. done. Qed.

#[global] Instance lcg_rand : Rand :=
  {| rand_val n := (Z.of_nat n * 7919 + 13) `mod` 2147483648 |}%Z.

#[global] Instance lcg_rand_laws : RandLaws lcg_rand.
Proof.
  split. intros n. simpl. unfold RAND_MAX.
  pose proof (Z.mod_pos_bound (Z.of_nat n * 7919 + 13) 2147483648). lia.
Qed.
