(* ===== verification/HeapLogic.v ===== *)
(** * A separation logic for the benchmark programs

    Assertions are predicates on heaps, a linear BI in the sense of Iris, so
    that its proof mode applies: [emp] holds of the empty heap only, and a
    contract that ends in [emp] says that the program frees all it owns.
    [wp E m Φ] is total: from every heap that satisfies it, [m] runs without
    faults and undefined behaviour, within its fuel, to a value and heap in
    [Φ], or calls [abort] while [E] holds; whatever else is in memory is left
    alone. *)

From iris.proofmode Require Import proofmode.
From S2P Require Import Prelude CHeap.

Record hProp (V : Type) := HProp { hholds : gmap Z V → Prop }.
Arguments HProp {V} _.
Arguments hholds {V} _ _.

Section hprop.
Context {V : Type}.
Implicit Types P Q R : hProp V.

(** ** The BI *)

#[local] Instance hProp_equiv : Equiv (hProp V) := λ P Q, ∀ h, hholds P h ↔ hholds Q h.

#[local] Instance hProp_equivalence : Equivalence (≡@{hProp V}).
Proof.
  split.
  - intros P h. done.
  - intros P Q HPQ h. by rw (HPQ h).
  - intros P Q R HPQ HQR h. by rw (HPQ h) (HQR h).
Qed.

Canonical Structure hPropO := discreteO (hProp V).

Record h_entails P Q : Prop := HEntails { h_in : ∀ h, hholds P h → hholds Q h }.
Arguments h_in {P Q} _ _ _.
Definition h_emp : hProp V := HProp (λ h, h = ∅).
Definition h_pure (φ : Prop) : hProp V := HProp (λ _, φ).
Definition h_and P Q : hProp V := HProp (λ h, hholds P h ∧ hholds Q h).
Definition h_or P Q : hProp V := HProp (λ h, hholds P h ∨ hholds Q h).
Definition h_impl P Q : hProp V := HProp (λ h, hholds P h → hholds Q h).
Definition h_forall A (Ψ : A → hProp V) : hProp V := HProp (λ h, ∀ a, hholds (Ψ a) h).
Definition h_exist A (Ψ : A → hProp V) : hProp V := HProp (λ h, ∃ a, hholds (Ψ a) h).
Definition h_sep P Q : hProp V := HProp (λ h,
  ∃ h1 h2, h = h1 ∪ h2 ∧ h1 ##ₘ h2 ∧ hholds P h1 ∧ hholds Q h2).
Definition h_wand P Q : hProp V := HProp (λ h,
  ∀ h', h ##ₘ h' → hholds P h' → hholds Q (h ∪ h')).
Definition h_persistently P : hProp V := h_pure (h_entails h_emp P).
Definition h_later P : hProp V := P.

Lemma hProp_bi_mixin :
  BiMixin h_entails h_emp h_pure h_and h_or h_impl h_forall h_exist h_sep h_wand.
Proof.
  split.
  - split; [by intros P; split|]. intros P Q R HPQ HQR. split. intros h HP.
    by apply (h_in HQR), (h_in HPQ).
  - intros P Q. split; [intros H; split; split; intros h; apply H|].
    intros [H1 H2] h. split; [apply (h_in H1)|apply (h_in H2)].
  - intros n φ ψ Hφ h. done.
  - intros n P P' HP Q Q' HQ h. split; intros [??]; split; (apply HP || apply HQ); done.
  - intros n P P' HP Q Q' HQ h.
    split; (intros [?|?]; [left; by apply HP|right; by apply HQ]).
  - intros n P P' HP Q Q' HQ h. split; intros H ?; by apply HQ, H, HP.
  - intros A n Φ Ψ H h. split; intros HA a; by apply H.
  - intros A n Φ Ψ H h. split; intros [a ?]; exists a; by apply H.
  - intros n P P' HP Q Q' HQ h.
    split; intros (h1 & h2 & -> & ? & ? & ?); exists h1, h2; split_and!; try done;
      (by apply HP) || by apply HQ.
  - intros n P P' HP Q Q' HQ h. split; intros H h' ??; by apply HQ, H, HP.
  - intros φ P Hφ. split. by intros h _.
  - intros φ P H. split. intros h Hφ. by apply (h_in (H Hφ)).
  - intros P Q. split. by intros h [? _].
  - intros P Q. split. by intros h [_ ?].
  - intros P Q R HQ HR. split. intros h HP. split; [by apply (h_in HQ)|by apply (h_in HR)].
  - intros P Q. split. by intros h ?; left.
  - intros P Q. split. by intros h ?; right.
  - intros P Q R HP HQ. split. intros h [?|?]; [by apply (h_in HP)|by apply (h_in HQ)].
  - intros P Q R H. split. intros h HP HQ. by apply (h_in H).
  - intros P Q R H. split. intros h [HP HQ]. by apply (h_in H h HP).
  - intros A P Ψ H. split. intros h HP a. by apply (h_in (H a)).
  - intros A Ψ a. split. intros h H. apply H.
  - intros A Ψ a. split. intros h H. by exists a.
  - intros A Φ Q H. split. intros h [a Ha]. by apply (h_in (H a)).
  - intros P P' Q Q' HP HQ. split. intros h (h1 & h2 & -> & ? & ? & ?). exists h1, h2.
    split_and!; try done; (by apply (h_in HP)) || by apply (h_in HQ).
  - intros P. split. intros h HP. exists ∅, h.
    split_and!; [by rw left_id_L|by apply map_disjoint_empty_l|done|done].
  - intros P. split. intros h (h1 & h2 & -> & _ & -> & HP). by rw left_id_L.
  - intros P Q. split. intros h (h1 & h2 & -> & ? & ? & ?). exists h2, h1.
    split_and!; [by apply map_union_comm|by symmetry|done|done].
  - intros P Q R. split. intros h (h12 & h3 & -> & Hd & (h1 & h2 & -> & Hd' & ? & ?) & ?).
    apply map_disjoint_union_l in Hd as [??].
    exists h1, (h2 ∪ h3). split_and!; [by rw assoc_L| |done|by exists h2, h3].
    by apply map_disjoint_union_r.
  - intros P Q R H. split. intros h HP h' Hd HQ. apply (h_in H). by exists h, h'.
  - intros P Q R H. split. intros h (h1 & h2 & -> & Hd & HP & HQ). by apply (h_in H h1 HP).
Qed.

Lemma hProp_bi_persistently_mixin :
  BiPersistentlyMixin h_entails h_emp h_and h_exist h_sep h_persistently.
Proof.
  eapply bi_persistently_mixin_discrete, hProp_bi_mixin; [done| |done].
  intros A Φ H. destruct (h_in H ∅ eq_refl) as [a Ha]. exists a. split. by intros h ->.
Qed.

Lemma hProp_bi_later_mixin :
  BiLaterMixin h_entails h_pure h_or h_impl h_forall h_exist h_sep h_persistently h_later.
Proof. eapply bi_later_mixin_id, hProp_bi_mixin. done. Qed.

Canonical Structure hPropI : bi :=
  {| bi_ofe_mixin := ofe_mixin_of (hProp V);
     bi_bi_mixin := hProp_bi_mixin;
     bi_bi_persistently_mixin := hProp_bi_persistently_mixin;
     bi_bi_later_mixin := hProp_bi_later_mixin |}.
End hprop.
Arguments hPropI : clear implicits.
Arguments h_in {V P Q} _ _ _.

(** ** Points-to and weakest preconditions *)

Section wp.
Context {V : Type} {A : Allocator V} {Rn : Rand}.
Implicit Types P Q : hPropI V.

(** [p] is the address of the struct [r], and nothing else is owned. *)
Definition pointsto {R} `{Struct V R} (p : Z) (r : R) : hPropI V :=
  HProp (λ h, p ≠ 0%Z ∧ h = {[p := obj r]}).

Definition wp (E : Prop) {X} (m : M (mem V) X) (Φ : X → hPropI V) : hPropI V :=
  HProp (λ h, ∀ hf n, h ##ₘ hf →
    match m (mkMem (h ∪ hf) n) with
    | Ok (x, m') => ∃ h', h' ##ₘ hf ∧ heap m' = h' ∪ hf ∧ hholds (Φ x) h'
    | Err e => e = EAbort ∧ E
    end).

Infix "↦" := pointsto (at level 20).

Lemma pointsto_nonnull {R} `{Struct V R} p (r : R) : p ↦ r ⊢ ⌜p ≠ 0%Z⌝.
Proof. split. by intros h [? _]. Qed.

Lemma pointsto_ne {R R'} `{Struct V R, Struct V R'} p q (r : R) (r' : R') :
  p ↦ r ∗ q ↦ r' ⊢ ⌜p ≠ q⌝.
Proof.
  split. intros h (h1 & h2 & _ & Hd & [_ ->] & [_ ->]). simpl. intros ->.
  apply map_disjoint_singleton_l in Hd. by rw lookup_singleton_eq in Hd.
Qed.

Lemma wp_ret E {X} (x : X) Φ : Φ x ⊢ wp E (mret x) Φ.
Proof. split. intros h Hx hf n Hd. by exists h. Qed.

Lemma wp_bind E {X Y} (m : M (mem V) X) (k : X → M (mem V) Y) Φ :
  wp E m (λ x, wp E (k x) Φ) ⊢ wp E (m ≫= k) Φ.
Proof.
  split. intros h H hf n Hd. specialize (H hf n Hd). unfold mbind, M_bind.
  destruct (m _) as [[x [h1 n1]]|e]; [|done].
  destruct H as (h' & Hd' & Hh & H). simpl in Hh. subst h1. by apply H.
Qed.

Lemma wp_wand E {X} (m : M (mem V) X) Φ Ψ :
  wp E m Φ -∗ (∀ x, Φ x -∗ Ψ x) -∗ wp E m Ψ.
Proof.
  apply bi.entails_wand, bi.wand_intro_r.
  split. intros h (h1 & h2 & -> & Hd & Hm & HΨ) hf n Hdf.
  apply map_disjoint_union_l in Hdf as [Hd1 Hd2].
  specialize (Hm (h2 ∪ hf) n). rw -assoc_L.
  destruct (m _) as [[x m']|e]; [|apply Hm; by apply map_disjoint_union_r].
  destruct Hm as (h' & Hd' & Hh & Hx); [by apply map_disjoint_union_r|].
  apply map_disjoint_union_r in Hd' as [Hd2' Hdf'].
  exists (h' ∪ h2). split; [by apply map_disjoint_union_l|].
  split; [by rw Hh assoc_L|]. rw (map_union_comm h') //. by apply (HΨ x).
Qed.

Lemma wp_mono E {X} (m : M (mem V) X) Φ Ψ : (∀ x, Φ x ⊢ Ψ x) → wp E m Φ ⊢ wp E m Ψ.
Proof.
  intros H. iIntros "Hm". iApply (wp_wand with "Hm"). iIntros (x) "Hx". by iApply H.
Qed.

Lemma wp_abort (E : Prop) {X} Φ : E → True ⊢ wp E (abort : M (mem V) X) Φ.
Proof. intros HE. split. intros h _ hf n Hd. done. Qed.

Lemma wp_frame E {X} (m : M (mem V) X) Φ P : wp E m Φ ∗ P ⊢ wp E m (λ x, Φ x ∗ P).
Proof.
  iIntros "[Hm HP]". iApply (wp_wand with "Hm"). iIntros (x) "Hx". iFrame.
Qed.

(** A call of a function by its contract, with a weaker abort condition. *)
Lemma wp_weaken (E E' : Prop) {X} (m : M (mem V) X) Φ : (E → E') → wp E m Φ ⊢ wp E' m Φ.
Proof.
  intros HE. split. intros h H hf n Hd. specialize (H hf n Hd).
  destruct (m _) as [[x m']|e]; [done|]. naive_solver.
Qed.

Lemma wp_call {E E' : Prop} {X Y} {m : M (mem V) X} {k : X → M (mem V) Y} {P Φ Ψ} :
  (P ⊢ wp E' m Φ) → (E' → E) → P -∗ (∀ x, Φ x -∗ wp E (k x) Ψ) -∗ wp E (m ≫= k) Ψ.
Proof.
  intros HL HE. iIntros "HP Hk". iApply wp_bind. iApply (wp_wand with "[HP]").
  - iApply wp_weaken; [exact HE|]. by iApply HL.
  - iIntros (x) "Hx". by iApply "Hk".
Qed.

Lemma wp_call_last {E E' : Prop} {X} {m : M (mem V) X} {P Φ Ψ} :
  (P ⊢ wp E' m Φ) → (E' → E) → P -∗ (∀ x, Φ x -∗ Ψ x) -∗ wp E m Ψ.
Proof.
  intros HL HE. iIntros "HP Hk". iApply (wp_wand with "[HP]"); [|done].
  iApply wp_weaken; [exact HE|]. by iApply HL.
Qed.

Lemma emp_of {E : Prop} {X} {m : M (mem V) X} {Φ} : (⊢ wp E m Φ) → (emp ⊢ wp E m Φ).
Proof. intros H. iIntros "_". iApply H. Qed.

(** ** The C library *)

Lemma wp_load {R T} `{Struct V R} E (f : field R T) p r x Φ :
  fget f r = Some x → p ↦ r -∗ (p ↦ r -∗ Φ x) -∗ wp E (load f p) Φ.
Proof.
  intros Hx. apply bi.entails_wand, bi.wand_intro_r.
  split. intros h (h1 & h2 & -> & Hd & [Hp ->] & HΦ) hf n Hdf.
  unfold load, deref, mbind, M_bind. simpl.
  assert (({[p := obj r]} ∪ h2 ∪ hf) !! p = Some (obj r)) as ->.
  { rw -assoc_L. apply lookup_union_Some_l, lookup_singleton_eq. }
  rw as_struct_obj Hx. eexists. split; [done|]. split; [done|].
  rw map_union_comm //. by apply HΦ.
Qed.

Lemma wp_store {R T} `{Struct V R} E (f : field R T) p r x (Φ : unit → hPropI V) :
  p ↦ r -∗ (p ↦ fset f x r -∗ Φ tt) -∗ wp E (store f p x) Φ.
Proof.
  apply bi.entails_wand, bi.wand_intro_r.
  split. intros h (h1 & h2 & -> & Hd & [Hp ->] & HΦ) hf n Hdf.
  unfold store, deref, mbind, M_bind. simpl.
  assert (({[p := obj r]} ∪ h2 ∪ hf) !! p = Some (obj r)) as ->.
  { rw -assoc_L. apply lookup_union_Some_l, lookup_singleton_eq. }
  rw as_struct_obj. unfold modify. simpl.
  assert (h2 !! p = None ∧ hf !! p = None) as [H2 Hf].
  { apply map_disjoint_singleton_l in Hd. apply map_disjoint_union_l in Hdf as [Hdf _].
    by apply map_disjoint_singleton_l in Hdf. }
  exists ({[p := obj (fset f x r)]} ∪ h2). split; [|split].
  - apply map_disjoint_union_l in Hdf as [_ ?].
    apply map_disjoint_union_l. split; [by apply map_disjoint_singleton_l|done].
  - rw -!insert_union_singleton_l. by rw -!insert_union_l insert_insert_eq.
  - rw map_union_comm; [|by apply map_disjoint_singleton_l].
    apply HΦ; [by apply map_disjoint_singleton_r|done].
Qed.

Lemma wp_free {R} `{Struct V R} E p (r : R) (Φ : unit → hPropI V) :
  p ↦ r -∗ Φ tt -∗ wp E (free p) Φ.
Proof.
  apply bi.entails_wand, bi.wand_intro_r.
  split. intros h (h1 & h2 & -> & Hd & [Hp ->] & HΦ) hf n Hdf.
  unfold free. simpl. rw decide_False //.
  assert (({[p := obj r]} ∪ h2 ∪ hf) !! p = Some (obj r)) as ->.
  { rw -assoc_L. apply lookup_union_Some_l, lookup_singleton_eq. }
  assert (h2 !! p = None ∧ hf !! p = None) as [H2 Hf].
  { apply map_disjoint_singleton_l in Hd. apply map_disjoint_union_l in Hdf as [Hdf _].
    by apply map_disjoint_singleton_l in Hdf. }
  exists h2. apply map_disjoint_union_l in Hdf as [_ ?]. split; [done|]. split; [|done]. simpl.
  rw -assoc_L -insert_union_singleton_l delete_insert_id //. by rw lookup_union_None.
Qed.

Lemma wp_malloc {AL : AllocatorLaws A} {R} `{Struct V R} E (r : R) Φ :
  ((∀ p, p ↦ r -∗ Φ p) ∧ (⌜oom⌝ → Φ 0%Z)) ⊢ wp E (malloc r) Φ.
Proof.
  split. intros h [Hok Hnull] hf n Hd. unfold malloc. simpl.
  destruct (alloc (h ∪ hf)) as [p|] eqn:Ha; [|by exists h; split_and!; [..|apply Hnull; eexists]].
  apply alloc_fresh in Ha as [Hp Hn]. apply lookup_union_None in Hn as [Hh Hf].
  exists (h ∪ {[p := obj r]}). simpl. split; [|split].
  - apply map_disjoint_union_l. split; [done|by apply map_disjoint_singleton_l].
  - rw (map_union_comm h {[p := obj r]}); [|by apply map_disjoint_singleton_r].
    by rw -insert_union_singleton_l insert_union_l.
  - apply (Hok p); [by apply map_disjoint_singleton_r|done].
Qed.

Lemma wp_rand {RL : RandLaws Rn} E Φ : (∀ z, ⌜0 ≤ z ≤ RAND_MAX⌝%Z → Φ z) ⊢ wp E rand Φ.
Proof.
  split. intros h H hf n Hd. exists h. split; [done|]. split; [done|]. by apply H, rand_range.
Qed.

(** [p = malloc(...); if (p == 0) abort();] *)
Lemma wp_malloc_check {AL : AllocatorLaws A} {R} `{Struct V R} (E : Prop) {X} (r : R)
    (k : Z → M (mem V) X) Φ :
  (oom → E) →
  (∀ p, p ↦ r -∗ wp E (k p) Φ) ⊢
  wp E (p ← malloc r; abort_if (p =? 0)%Z ;; k p) Φ.
Proof.
  intros HE. iIntros "H". iApply wp_bind. iApply wp_malloc. iSplit.
  - iIntros (p) "Hp". iDestruct (pointsto_nonnull with "Hp") as %Hp.
    rw (proj2 (Z.eqb_neq p 0) Hp). iApply wp_bind. iApply wp_ret. by iApply "H".
  - iIntros (Ho%HE). iApply wp_bind. by iApply wp_abort.
Qed.

Lemma wp_int_add E a b Φ : int_range (a + b) → Φ (a + b)%Z ⊢ wp E (int_add a b) Φ.
Proof. intros Hr. unfold int_add. rw decide_True //. apply wp_ret. Qed.

Lemma wp_int_sub E a b Φ : int_range (a - b) → Φ (a - b)%Z ⊢ wp E (int_sub a b) Φ.
Proof. intros Hr. unfold int_sub. rw decide_True //. apply wp_ret. Qed.

Lemma wp_array_get {T} E (a : list (option T)) i x Φ :
  (0 ≤ i)%Z → a !! Z.to_nat i = Some (Some x) → Φ x ⊢ wp E (array_get a i) Φ.
Proof. intros Hi Hx. unfold array_get. rw decide_True // Hx. apply wp_ret. Qed.

Lemma wp_array_set {T} E (a : list (option T)) i (x : T) Φ :
  (0 ≤ i < Z.of_nat (length a))%Z → Φ (<[Z.to_nat i := Some x]> a) ⊢ wp E (array_set a i x) Φ.
Proof. intros Hi. unfold array_set. rw decide_True //. apply wp_ret. Qed.

Lemma wp_assert E b (Φ : unit → hPropI V) : b = true → Φ tt ⊢ wp E (assert b) Φ.
Proof. intros ->. apply wp_ret. Qed.

(** ** Loops *)

(** A loop with an invariant [I] indexed by the number of iterations left. *)
Lemma wp_while E {L} (c : L → M (mem V) bool) (b : L → M (mem V) L) (I : nat → L → hPropI V)
    (Φ : L → hPropI V) fuel k l :
  (∀ k l, I k l ⊢ wp E (c l) (λ d,
     if d : bool then ∃ k', ⌜k = S k'⌝ ∧ wp E (b l) (I k') else Φ l)) →
  k ≤ fuel → I k l ⊢ wp E (while fuel c b l) Φ.
Proof.
  intros Hstep. revert k l. induction fuel as [|fuel IH]; intros k l Hk.
  - rw Hstep. cbn [while]. iIntros "H". iApply wp_bind. iApply (wp_wand with "H").
    iIntros (d) "H". destruct d; [|by iApply wp_ret].
    iDestruct "H" as (k') "[%Hk' H]". lia.
  - rw Hstep. cbn [while]. iIntros "H". iApply wp_bind. iApply (wp_wand with "H").
    iIntros (d) "H". destruct d; [|by iApply wp_ret].
    iDestruct "H" as (k') "[%Hk' H]". iApply wp_bind. iApply (wp_wand with "H").
    iIntros (l') "H". iApply (IH with "H"). lia.
Qed.

(** ** Adequacy *)

(** What [wp] says about a run from a heap of one's own. *)
Lemma wp_run E {X} (m : M (mem V) X) P Φ h n :
  (P ⊢ wp E m Φ) → hholds P h →
  match m (mkMem h n) with
  | Ok (x, m') => hholds (Φ x) (heap m')
  | Err e => e = EAbort ∧ E
  end.
Proof.
  intros Hm HP. pose proof (h_in Hm h HP ∅ n) as H; clear Hm; rename H into Hm. rw right_id_L in Hm.
  specialize (Hm (map_disjoint_empty_r _)). destruct (m _) as [[x m']|e]; [|done].
  destruct Hm as (h' & _ & -> & H). by rw right_id_L.
Qed.
End wp.

Infix "↦" := pointsto (at level 20) : bi_scope.

(** Steps of a program: a read, a write, a release of the struct owned as [H],
    and a return. *)
Ltac wp_read H := iApply wp_bind; iApply (wp_load with H); [reflexivity|]; iIntros H.
Ltac wp_write H := iApply wp_bind; iApply (wp_store with H); iIntros H; cbn [fset].
Ltac wp_write_last H := iApply (wp_store with H); iIntros H; cbn [fset].
Ltac wp_release H := iApply wp_bind; iApply (wp_free with H).
