(* ===== verification/AplasStack.v ===== *)
(** * The stack benchmark: [benchmarks/slmc/programs/aplas-stack.c]

    A stack as a singly linked list, with the contracts of the source's
    annotations.  Every contract is total: loops end within fuel equal to the
    length of the stack, no access faults, and [abort] is called only when
    [malloc] fails. *)

From iris.proofmode Require Import proofmode.
From S2P Require Import Prelude CHeap HeapLogic.

Module AplasStack.

(** ** Structs *)

Record node := mkNode { next : option Z; value : option Z }.
Record stack := mkStack { head : option Z }.

Inductive object := ONode (n : node) | OStack (s : stack).

#[global] Instance node_struct : Struct object node.
Proof.
  refine {| obj := ONode; as_struct o := match o with ONode n => Some n | _ => None end |}.
  done.
Defined.

#[global] Instance stack_struct : Struct object stack.
Proof.
  refine {| obj := OStack; as_struct o := match o with OStack s => Some s | _ => None end |}.
  done.
Defined.

Definition f_next : field node Z := Field next (λ x n, mkNode (Some x) (value n)).
Definition f_value : field node Z := Field value (λ x n, mkNode (next n) (Some x)).
Definition f_head : field stack Z := Field head (λ x _, mkStack (Some x)).

(** ** Functions *)

Section functions.
Context {A : Allocator object}.

Definition create_stack : M (mem object) Z :=
  s ← malloc (mkStack None);
  abort_if (s =? 0)%Z ;;
  store f_head s 0%Z ;;
  mret s.

Definition push (s x : Z) : M (mem object) unit :=
  n ← malloc (mkNode None None);
  abort_if (n =? 0)%Z ;;
  h ← load f_head s;
  store f_next n h ;;
  store f_value n x ;;
  store f_head s n.

Definition pop (s : Z) : M (mem object) Z :=
  tmp ← load f_head s;
  res ← load f_value tmp;
  nx ← load f_next tmp;
  store f_head s nx ;;
  free tmp ;;
  mret res.

Definition dispose (fuel : nat) (s : Z) : M (mem object) unit :=
  n ← load f_head s;
  while fuel (λ n, mret (negb (n =? 0)%Z))
    (λ n, let tmp := n in
          n ← load f_next n;
          free tmp ;;
          mret n) n ;;
  free s.

Definition get_length (fuel : nat) (s : Z) : M (mem object) Z :=
  let r := 0%Z in
  n ← load f_head s;
  rn ← while fuel (λ rn : Z * Z, mret (negb (rn.2 =? 0)%Z))
    (λ rn, r ← int_add rn.1 1;
           n ← load f_next rn.2;
           mret (r, n)) (r, n);
  mret rn.1.

Definition main (fuel : nat) (argv : list string) : M (mem object) Z :=
  a ← arg argv 1;
  size ← atoi a;
  s ← create_stack;
  while fuel (λ i, mret (i <? size)%Z)
    (λ i, push s i ;; int_add i 1) 0%Z ;;
  mret 0%Z.
End functions.

(** ** Predicates *)

Fixpoint lseg (f t : Z) (vs : list Z) : hPropI object :=
  match vs with
  | [] => ⌜f = t⌝ ∧ emp
  | v :: vs => ⌜f ≠ t⌝ ∧ ∃ n, f ↦ mkNode (Some n) (Some v) ∗ lseg n t vs
  end%I.

Definition stack_at (s : Z) (vs : list Z) : hPropI object :=
  (∃ h, s ↦ mkStack (Some h) ∗ lseg h 0 vs)%I.

(** ** Lemmas of the annotations *)

(** An empty segment is empty, and no other is. *)
Lemma lseg_inv f vs : lseg f 0 vs ⊢ ⌜f = 0%Z ↔ vs = []⌝.
Proof. destruct vs as [|v vs]; iIntros "[%Hf H]"; iPureIntro; naive_solver. Qed.

(** A node one owns is not the start of another list. *)
Lemma node_not_start b (r : node) n vs : b ↦ r ∗ lseg n 0 vs ⊢ ⌜b ≠ n⌝.
Proof.
  iIntros "[Hb Hl]". destruct vs as [|v vs]; iDestruct "Hl" as "[%Hn Hl]".
  - subst n. by iDestruct (pointsto_nonnull with "Hb") as %Hb.
  - iDestruct "Hl" as (m) "[Hn Hl]". by iDestruct (pointsto_ne with "[$Hb $Hn]") as %Hne.
Qed.

(** A segment extended by the node at its end. *)
Lemma stack_lseg_add a b n v vs1 vs2 :
  lseg a b vs1 ∗ b ↦ mkNode (Some n) (Some v) ∗ lseg n 0 vs2 ⊢
  lseg a n (vs1 ++ [v]) ∗ lseg n 0 vs2.
Proof.
  revert a. induction vs1 as [|w vs1 IH]; intros a; simpl; iIntros "([%Ha H1] & Hb & H2)".
  - subst a. iDestruct (node_not_start with "[$Hb $H2]") as %Hne. iFrame. by iSplit.
  - iDestruct "H1" as (m) "[Ha H1]". iDestruct (node_not_start with "[$Ha $H2]") as %Hne.
    iDestruct (IH with "[$H1 $Hb $H2]") as "[H1 $]". iFrame. done.
Qed.

Section contracts.
Context {A : Allocator object} {AL : AllocatorLaws A}.

Lemma create_stack_wp : ⊢ wp oom create_stack (λ s, stack_at s []).
Proof.
  iIntros. iApply wp_malloc_check; [done|]. iIntros (s) "Hs".
  wp_write "Hs". iApply wp_ret. iExists 0%Z. iFrame. iSplit; done.
Qed.

Lemma push_wp s x vs : stack_at s vs ⊢ wp oom (push s x) (λ _, stack_at s (x :: vs)).
Proof.
  iIntros "(%h & Hs & Hl)". iApply wp_malloc_check; [done|]. iIntros (n) "Hn".
  wp_read "Hs". wp_write "Hn". wp_write "Hn". wp_write_last "Hs".
  iDestruct (pointsto_nonnull with "Hn") as %Hn. iExists n. by iFrame.
Qed.

Lemma pop_wp s v vs : stack_at s (v :: vs) ⊢ wp False (pop s) (λ r, ⌜r = v⌝ ∧ stack_at s vs).
Proof.
  iIntros "(%h & Hs & %Hh & %n & Hh & Hl)". wp_read "Hs". wp_read "Hh". wp_read "Hh".
  wp_write "Hs". wp_release "Hh". iApply wp_ret. iSplit; [done|]. iExists n. iFrame.
Qed.

(** The loop of [dispose] frees a whole list. *)
Lemma dispose_loop_wp E fuel n vs :
  length vs ≤ fuel →
  lseg n 0 vs ⊢ wp E (while fuel (λ n, mret (negb (n =? 0)%Z))
    (λ n, let tmp := n in n ← load f_next n; free tmp ;; mret n) n) (λ _, emp).
Proof.
  intros Hf. iIntros "H".
  iApply (wp_while E _ _ (λ k n, ∃ vs, ⌜k = length vs⌝ ∧ lseg n 0 vs)%I _ fuel
    (length vs)); [|done|iExists vs; by iFrame].
  clear. intros k n. iIntros "(%vs & -> & H)". iApply wp_ret.
  destruct vs as [|v vs]; iDestruct "H" as "[%Hn H]"; simpl.
  - subst n. simpl. iFrame.
  - rw (proj2 (Z.eqb_neq n 0) Hn). simpl. iExists (length vs). iSplit; [done|].
    iDestruct "H" as (m) "[Hn H]". wp_read "Hn". wp_release "Hn". iApply wp_ret.
    iExists vs. by iFrame.
Qed.

Lemma dispose_wp fuel s vs :
  length vs ≤ fuel → stack_at s vs ⊢ wp False (dispose fuel s) (λ _, emp).
Proof.
  intros Hf. iIntros "(%h & Hs & Hl)". wp_read "Hs". iApply wp_bind.
  iApply (wp_wand with "[Hl]"); [by iApply dispose_loop_wp|].
  iIntros (n) "_". by iApply (wp_free with "Hs").
Qed.

(** The invariant of the loop of [get_length]: what lies behind and ahead. *)
Definition length_inv (h : Z) (vs : list Z) (k : nat) (rn : Z * Z) : hPropI object :=
  (∃ vs0 vs1, ⌜k = length vs1 ∧ rn.1 = Z.of_nat (length vs0) ∧ vs = vs0 ++ vs1⌝ ∧
     lseg h rn.2 vs0 ∗ lseg rn.2 0 vs1)%I.

Lemma get_length_wp fuel s vs :
  length vs ≤ fuel → (Z.of_nat (length vs) ≤ INT_MAX)%Z →
  stack_at s vs ⊢
  wp False (get_length fuel s) (λ r, ⌜r = Z.of_nat (length vs)⌝ ∧ stack_at s vs).
Proof.
  intros Hf Hmax. iIntros "(%h & Hs & Hl)". wp_read "Hs". iApply wp_bind.
  iApply (wp_wand _ _ (λ rn, ⌜rn.1 = Z.of_nat (length vs)⌝ ∧ lseg h 0 vs)%I with "[Hl]").
  - iApply (wp_while _ _ _ (length_inv h vs) _ fuel (length vs)); [|done|].
    + clear -Hmax. intros k [r n]. iIntros "(%vs0 & %vs1 & %Hp & H0 & H1)".
      destruct Hp as (-> & Hr & ->). simpl in *. iApply wp_ret. destruct vs1 as [|v vs1]; iDestruct "H1" as "[%Hn H1]".
      { subst n. simpl. rw app_nil_r. by iFrame. }
      rw (proj2 (Z.eqb_neq n 0) Hn). simpl. iExists (length vs1). iSplit; [done|].
      rw length_app /= in Hmax.
      iApply wp_bind. iApply wp_int_add; [unfold int_range, INT_MIN; lia|].
      iDestruct "H1" as (m) "[Hn H1]". wp_read "Hn". iApply wp_ret.
      iExists (vs0 ++ [v]), vs1. iSplit; [iPureIntro|by iApply stack_lseg_add; iFrame].
      rw length_app /= -assoc_L. split_and!; [done|lia|done].
    + iExists [], vs. iFrame. by iSplit.
  - iIntros (rn) "[%Hr Hl]". iApply wp_ret. iSplit; [done|]. iExists h. iFrame.
Qed.

(** What [main] pushes: [size-1], ..., [1], [0]. *)
Definition countdown (k : nat) : list Z := reverse (seqZ 0 (Z.of_nat k)).

Lemma countdown_S k : countdown (S k) = Z.of_nat k :: countdown k.
Proof.
  unfold countdown. rw seqZ_S. by rw reverse_app.
Qed.

Lemma stack_main_wp fuel argv a size :
  argv !! 1 = Some a → atoi a = (mret size : M (mem object) Z) → int_range size →
  Z.to_nat size ≤ fuel →
  ⊢ wp oom (main fuel argv) (λ r, ⌜r = 0%Z⌝ ∧ ∃ s, stack_at s (countdown (Z.to_nat size))).
Proof.
  intros Ha Hz Hr Hf. iIntros. unfold main, arg. rw Ha. iApply wp_bind. iApply wp_ret.
  rw Hz. iApply wp_bind. iApply wp_ret.
  iApply wp_bind. iApply (wp_wand with "[]"); [by iApply create_stack_wp|].
  iIntros (s) "Hs". iApply wp_bind.
  iApply (wp_wand _ _ (λ _, stack_at s (countdown (Z.to_nat size))) with "[Hs]").
  - iApply (wp_while _ _ _ (λ k i, ⌜(0 ≤ i)%Z ∧ k = Z.to_nat (size - i)⌝ ∧
      ⌜(i ≤ Z.max 0 size)%Z⌝ ∧ stack_at s (countdown (Z.to_nat i)))%I _ fuel (Z.to_nat size));
      [|done|iSplit; [iPureIntro; split; [done|f_equal; lia]|iSplit; [iPureIntro; lia|done]]].
    clear -Hr AL. intros k i. iIntros "(%Hk & %Hle & Hs)". destruct Hk as [Hi ->]. iApply wp_ret.
    destruct (Z.ltb_spec i size) as [Hlt|Hge].
    + iExists (Z.to_nat (size - (i + 1))). iSplit; [iPureIntro; lia|].
      iApply wp_bind. iApply (wp_wand with "[Hs]"); [by iApply push_wp|]. iIntros (_) "Hs".
      iApply wp_int_add; [unfold int_range, INT_MIN in *; lia|].
      iSplit; [iPureIntro; lia|]. iSplit; [iPureIntro; lia|].
      rw Z.add_1_r Z2Nat.inj_succ; [|done]. rw countdown_S Z2Nat.id //.
    + by replace (Z.to_nat i) with (Z.to_nat size) by lia.
  - iIntros (_) "Hs". iApply wp_ret. iSplit; [done|]. by iExists s.
Qed.
End contracts.
End AplasStack.
