(* ===== verification/SchorrWaite.v ===== *)
(** * Schorr-Waite marking: [benchmarks/slmc/programs/schorr_waite.c]

    The algorithm marks a binary tree without a stack: it stores the way back
    to the root in the child pointers of the nodes on the current path.  The
    theorem is stronger than the annotation: the loop ends after three rounds
    per node, and the tree has its original shape and addresses, all marked. *)

From iris.proofmode Require Import proofmode.
From S2P Require Import Prelude CHeap HeapLogic.

Module SchorrWaite.

(** ** Structs *)

Record node := mkNode { m : option bool; c : option bool; l : option Z; r : option Z }.

#[global] Instance node_struct : Struct node node.
Proof. by refine {| obj n := n; as_struct n := Some n |}. Defined.

Definition f_m : field node bool := Field m (λ x n, mkNode (Some x) (c n) (l n) (r n)).
Definition f_c : field node bool := Field c (λ x n, mkNode (m n) (Some x) (l n) (r n)).
Definition f_l : field node Z := Field l (λ x n, mkNode (m n) (c n) (Some x) (r n)).
Definition f_r : field node Z := Field r (λ x n, mkNode (m n) (c n) (l n) (Some x)).

(** ** Functions *)

Section functions.
Context {A : Allocator node} {Rn : Rand}.

(** [p != 0 || (t != 0 && !(t->m))] *)
Definition sw_cond (tp : Z * Z) : M (mem node) bool :=
  let '(t, p) := tp in
  if negb (p =? 0)%Z then mret true
  else if (t =? 0)%Z then mret false
  else b ← load f_m t; mret (negb b).

Definition sw_body (tp : Z * Z) : M (mem node) (Z * Z) :=
  let '(t, p) := tp in
  b ← (if (t =? 0)%Z then mret true else load f_m t);
  if b : bool then
    pc ← load f_c p;
    if pc : bool then
      let q := t in
      let t := p in
      p ← load f_r p;
      store f_r t q ;;
      mret (t, p)
    else
      let q := t in
      t ← load f_r p;
      pl ← load f_l p;
      store f_r p pl ;;
      store f_l p q ;;
      store f_c p true ;;
      mret (t, p)
  else
    let q := p in
    let p := t in
    t ← load f_l t;
    store f_l p q ;;
    store f_m p true ;;
    store f_c p false ;;
    mret (t, p).

Definition schorr_waite (fuel : nat) (root : Z) : M (mem node) unit :=
  while fuel sw_cond sw_body (root, 0%Z) ;;
  mret tt.

(** The result of [malloc] is not checked. *)
Definition makeNode : M (mem node) Z :=
  n ← malloc (mkNode None None None None);
  store f_m n false ;;
  store f_c n false ;;
  store f_l n 0%Z ;;
  store f_r n 0%Z ;;
  mret n.

(** The inner loop of [main]: a random walk to a null child; [n], [p], [j]. *)
Definition walk (fuel : nat) (root : Z) : M (mem node) (Z * Z * Z) :=
  while fuel (λ npj : Z * Z * Z, mret (negb (npj.1.1 =? 0)%Z))
    (λ npj, let n := npj.1.1 in
            j ← rand;
            let j := Z.rem j 2 in
            let p := n in
            n ← (if negb (j =? 0)%Z then load f_l n else load f_r n);
            mret (n, p, j)) (root, 0%Z, 0%Z).

Definition main (fuel : nat) (argv : list string) : M (mem node) unit :=
  a1 ← arg argv 1;
  numnodes ← atoi a1;
  a2 ← arg argv 2;
  seed ← atoi a2;
  root ← makeNode;
  while fuel (λ i, mret (i <? numnodes)%Z)
    (λ i, npj ← walk fuel root;
          let p := npj.1.2 in
          let j := npj.2 in
          x ← makeNode;
          (if negb (j =? 0)%Z then store f_l p x else store f_r p x) ;;
          int_add i 1) 1%Z ;;
  schorr_waite fuel root.
End functions.

(** ** Trees *)

(** The shape of a tree with the addresses of its nodes. *)
Inductive shape := Leaf | Node (a : Z) (sl sr : shape).

Fixpoint nodes (T : shape) : nat :=
  match T with Leaf => 0 | Node _ sl sr => S (nodes sl + nodes sr) end.

(** [tree(t, marked)] of the annotations, with the shape. *)
Fixpoint tree (t : Z) (marked : bool) (T : shape) : hPropI node :=
  match T with
  | Leaf => ⌜t = 0%Z⌝ ∧ emp
  | Node a sl sr => ⌜t = a⌝ ∧ ∃ c xl xr,
      t ↦ mkNode (Some marked) (Some c) (Some xl) (Some xr) ∗
      tree xl marked sl ∗ tree xr marked sr
  end%I.

(** A node on the path to the root: its left child is being explored and the
    right one is unmarked, or its right child is and the left one is marked. *)
Inductive frame := InLeft (a : Z) (sr : shape) | InRight (a : Z) (sl : shape).

(** [stack(t)] of the annotations. *)
Fixpoint stack (p : Z) (fs : list frame) : hPropI node :=
  match fs with
  | [] => ⌜p = 0%Z⌝ ∧ emp
  | InLeft a sr :: fs => ⌜p = a⌝ ∧ ∃ up xr,
      p ↦ mkNode (Some true) (Some false) (Some up) (Some xr) ∗
      stack up fs ∗ tree xr false sr
  | InRight a sl :: fs => ⌜p = a⌝ ∧ ∃ xl up,
      p ↦ mkNode (Some true) (Some true) (Some xl) (Some up) ∗
      stack up fs ∗ tree xl true sl
  end%I.

(** The tree a position stands for. *)
Fixpoint plug (fs : list frame) (T : shape) : shape :=
  match fs with
  | [] => T
  | InLeft a sr :: fs => plug fs (Node a T sr)
  | InRight a sl :: fs => plug fs (Node a sl T)
  end.

(** Rounds of the loop that remain: three per unvisited node, two for a node
    whose left child is explored, one for a node whose right child is. *)
Fixpoint rounds (fs : list frame) : nat :=
  match fs with
  | [] => 0
  | InLeft _ sr :: fs => 2 + 3 * nodes sr + rounds fs
  | InRight _ _ :: fs => 1 + rounds fs
  end.

Section contracts.
Context {A : Allocator node} {Rn : Rand}.

Definition sw_inv (T0 : shape) (k : nat) (tp : Z * Z) : hPropI node :=
  (∃ marked T fs,
     ⌜plug fs T = T0 ∧ k = ((if marked : bool then 0 else 3 * nodes T) + rounds fs)%nat⌝ ∧
     tree tp.1 marked T ∗ stack tp.2 fs)%I.

Lemma tree_leaf marked : ⊢ tree 0 marked Leaf.
Proof. by iSplit. Qed.

(** Push: descend to the left child of an unmarked node. *)
Lemma sw_push T0 k a sl sr p fs :
  plug fs (Node a sl sr) = T0 → k = 3 * nodes sl + (2 + 3 * nodes sr) + rounds fs →
  tree a false (Node a sl sr) ∗ stack p fs ⊢ wp False (sw_body (a, p)) (sw_inv T0 k).
Proof.
  intros HT Hk. iIntros "[(_ & %cc & %xl & %xr & Ha & Hl & Hr) Hs]".
  iDestruct (pointsto_nonnull with "Ha") as %Ha. unfold sw_body.
  rw (proj2 (Z.eqb_neq a 0) Ha). wp_read "Ha". wp_read "Ha".
  wp_write "Ha". wp_write "Ha". wp_write "Ha". iApply wp_ret.
  iExists false, sl, (InLeft a sr :: fs). iSplit; [iPureIntro; simpl; split; [done|lia]|].
  simpl. iFrame. done.
Qed.

(** A marked subtree, or none: the test of the first branch succeeds. *)
Lemma sw_test t T (k : bool → M (mem node) (Z * Z)) Φ :
  tree t true T -∗ (tree t true T -∗ wp False (k true) Φ) -∗
  wp False (b ← (if (t =? 0)%Z then mret true else load f_m t); k b) Φ.
Proof.
  iIntros "Ht H". destruct T as [|a sl sr].
  - iDestruct "Ht" as "[-> Ht]". iApply wp_bind. iApply wp_ret. iApply "H". by iSplit.
  - iDestruct "Ht" as "(-> & %cc & %xl & %xr & Ha & Hl & Hr)".
    iDestruct (pointsto_nonnull with "Ha") as %Ha. rw (proj2 (Z.eqb_neq a 0) Ha).
    wp_read "Ha". iApply "H". iFrame. done.
Qed.

(** Swing: from the left child, now marked, to the right one. *)
Lemma sw_swing T0 k t T p a sr fs :
  plug fs (Node a T sr) = T0 → k = 3 * nodes sr + (1 + rounds fs) →
  tree t true T ∗ stack p (InLeft a sr :: fs) ⊢ wp False (sw_body (t, p)) (sw_inv T0 k).
Proof.
  intros HT Hk. iIntros "[Ht (-> & %up & %xr & Ha & Hs & Hr)]". unfold sw_body.
  iApply (sw_test with "Ht"). iIntros "Ht". wp_read "Ha". wp_read "Ha". wp_read "Ha".
  wp_write "Ha". wp_write "Ha". wp_write "Ha". iApply wp_ret.
  iExists false, sr, (InRight a T :: fs). iSplit; [iPureIntro; simpl; split; [done|lia]|].
  simpl. iFrame. done.
Qed.

(** Pop: from the right child, now marked, to the node. *)
Lemma sw_pop T0 k t T p a sl fs :
  plug fs (Node a sl T) = T0 → k = rounds fs →
  tree t true T ∗ stack p (InRight a sl :: fs) ⊢ wp False (sw_body (t, p)) (sw_inv T0 k).
Proof.
  intros HT Hk. iIntros "[Ht (-> & %xl & %up & Ha & Hs & Hl)]". unfold sw_body.
  iApply (sw_test with "Ht"). iIntros "Ht". wp_read "Ha". wp_read "Ha". wp_write "Ha".
  iApply wp_ret. iExists true, (Node a sl T), fs. iSplit; [done|]. simpl. iFrame. done.
Qed.

Lemma stack_nonnull p f fs : stack p (f :: fs) ⊢ ⌜p ≠ 0%Z⌝.
Proof.
  destruct f as [a sr|a sl]; iIntros "(-> & %x & %y & Ha & _)";
    by iDestruct (pointsto_nonnull with "Ha") as %Ha.
Qed.

#[local] Arguments sw_body : simpl never.

(** One round: the test and the body. *)
Lemma sw_round T0 k tp :
  sw_inv T0 k tp ⊢ wp False (sw_cond tp) (λ d,
    if d : bool then ∃ k', ⌜k = S k'⌝ ∧ wp False (sw_body tp) (sw_inv T0 k')
    else tree tp.1 true T0).
Proof.
  destruct tp as [t p]. iIntros "(%marked & %T & %fs & %Hp & Ht & Hs)".
  destruct Hp as [HT ->]. cbn [fst snd sw_cond]. destruct fs as [|f fs].
  - iDestruct "Hs" as "[-> Hs]". simpl in HT. subst T0. cbn [Z.eqb negb]. destruct T as [|a sl sr].
    { iDestruct "Ht" as "[-> Ht]". simpl. iApply wp_ret. iFrame. done. }
    iDestruct "Ht" as "(-> & %cc & %xl & %xr & Ha & Hl & Hr)".
    iDestruct (pointsto_nonnull with "Ha") as %Ha. rw (proj2 (Z.eqb_neq a 0) Ha).
    wp_read "Ha". iApply wp_ret. destruct marked; simpl; [iFrame; done|].
    iExists (3 * nodes sl + (2 + 3 * nodes sr) + 0)%nat. iSplit; [iPureIntro; simpl; lia|].
    iApply (sw_push _ _ _ _ _ _ []); [done|simpl; lia|]. simpl. iFrame. done.
  - iDestruct (stack_nonnull with "Hs") as %Hp0. rw (proj2 (Z.eqb_neq p 0) Hp0). cbn [negb].
    iApply wp_ret.
    iAssert (⌜marked = false ∧ T ≠ Leaf⌝ ∧ tree t marked T ∨
      ⌜(if marked then 0 else 3 * nodes T)%nat = 0⌝ ∧ tree t true T)%I
      with "[Ht]" as "[[%Hd Ht]|[%H0 Ht]]".
    { destruct marked; [iRight; by iSplit|]. destruct T; [iRight; by iSplit|].
      iLeft. by iSplit. }
    { destruct Hd as [-> HL]. destruct T as [|a sl sr]; [done|].
      iExists (3 * nodes sl + (2 + 3 * nodes sr) + rounds (f :: fs))%nat.
      iSplit; [iPureIntro; cbn [nodes]; lia|]. iDestruct "Ht" as "[-> Ht]".
      iApply sw_push; [done|done|]. iFrame. done. }
    rw H0. destruct f as [a sr|a sl].
    + iExists (3 * nodes sr + (1 + rounds fs))%nat. iSplit; [iPureIntro; simpl; lia|].
      iApply sw_swing; [done|done|]. iFrame.
    + iExists (rounds fs). iSplit; [done|]. iApply sw_pop; [done|done|]. iFrame.
Qed.

Lemma schorr_waite_wp fuel root T :
  3 * nodes T ≤ fuel →
  tree root false T ⊢ wp False (schorr_waite fuel root) (λ _, tree root true T).
Proof.
  intros Hf. iIntros "H". iApply wp_bind.
  iAssert (⌜T = Leaf ↔ root = 0%Z⌝ ∧ ⌜∀ a sl sr, T = Node a sl sr → root = a⌝ ∧
    tree root false T)%I with "[H]" as "(%HL & %HN & H)".
  { destruct T as [|a sl sr]; simpl.
    - iDestruct "H" as "[-> H]". iSplit; [done|]. iSplit; [done|]. by iSplit.
    - iDestruct "H" as "(-> & %cc & %xl & %xr & Ha & H)".
      iDestruct (pointsto_nonnull with "Ha") as %Ha. iSplit; [done|].
      iSplit; [iPureIntro; naive_solver|]. iFrame. done. }
  iApply (wp_wand with "[H]").
  - iApply (wp_while _ _ _ (sw_inv T) (λ tp, tree tp.1 true T) fuel (3 * nodes T));
      [intros k l; apply sw_round|done|].
    iExists false, T, []. iSplit; [iPureIntro; simpl; split; [done|lia]|]. iFrame. by iSplit.
  - iIntros ([t p]) "H". iApply wp_ret. simpl. destruct T as [|a sl sr].
    + iDestruct "H" as "[-> H]". iSplit; [iPureIntro; by apply HL|done].
    + iDestruct "H" as "[%Ht H]". subst t. rw (HN a sl sr eq_refl). by iSplit.
Qed.

(** ** The driver *)

Context {AL : AllocatorLaws A} {RL : RandLaws Rn}.

Lemma makeNode_wp : ¬ oom → ⊢ wp False makeNode (λ n, tree n false (Node n Leaf Leaf)).
Proof.
  intros Hoom. iIntros. iApply wp_bind. iApply wp_malloc. iSplit; [|by iIntros (?)].
  iIntros (n) "Hn". wp_write "Hn". wp_write "Hn". wp_write "Hn". wp_write "Hn".
  iApply wp_ret. iSplit; [done|]. iExists false, 0%Z, 0%Z.
  iSplitL "Hn"; [done|]. iSplitL; iApply (tree_leaf false).
Qed.

(** When [malloc] fails the first assignment goes through the null pointer. *)
Lemma makeNode_null (s : mem node) :
  alloc (heap s) = None → heap s !! 0%Z = None → makeNode s = Err EFault.
Proof.
  intros Ha H0. unfold makeNode, malloc, store, deref, mbind, M_bind. rw Ha /= H0 //.
Qed.

(** The child the walk chose. *)
Definition pick {X} (j : Z) (x y : X) : X := if negb (j =? 0)%Z then x else y.

(** A tree rooted at [root] with the subtree at [p] taken out: putting [X] there
    gives a tree with as many nodes more. *)
Definition around (root p : Z) (size hole : nat) : hPropI node :=
  (∀ X, tree p false X -∗
     ∃ T, ⌜(nodes T + hole = nodes X + size)%nat⌝ ∧ tree root false T)%I.

(** The walk stands at child [n] of [p]. *)
Definition at_child (root : Z) (size k : nat) (npj : Z * Z * Z) : hPropI node :=
  (∃ cc xl xr sl sr,
     ⌜npj.1.1 = pick npj.2 xl xr ∧ (nodes (pick npj.2 sl sr) ≤ k)%nat⌝ ∧
     npj.1.2 ↦ mkNode (Some false) (Some cc) (Some xl) (Some xr) ∗
     tree xl false sl ∗ tree xr false sr ∗
     around root npj.1.2 size (S (nodes sl + nodes sr)))%I.

Definition walk_inv (root : Z) (size k : nat) (npj : Z * Z * Z) : hPropI node :=
  (at_child root size k npj ∨
   ∃ T, ⌜npj.1.1 = root ∧ nodes T = size ∧ (size ≤ k)%nat ∧ T ≠ Leaf⌝ ∧
        tree root false T)%I.

(** One step down from a node. *)
Lemma walk_step root size n cc xl xr sl sr k :
  nodes sl + nodes sr ≤ k →
  n ↦ mkNode (Some false) (Some cc) (Some xl) (Some xr) ∗ tree xl false sl ∗
  tree xr false sr ∗ around root n size (S (nodes sl + nodes sr)) ⊢
  wp False (j ← rand;
            let j := Z.rem j 2 in
            let p := n in
            n ← (if negb (j =? 0)%Z then load f_l n else load f_r n);
            mret (n, p, j)) (walk_inv root size k).
Proof.
  intros Hk. iIntros "(Hn & Hl & Hr & Hc)". iApply wp_bind. iApply wp_rand. iIntros (z Hz).
  cbn zeta. iApply wp_bind.
  iApply (wp_wand _ _ (λ y, ⌜y = pick (Z.rem z 2) xl xr⌝ ∧
    n ↦ mkNode (Some false) (Some cc) (Some xl) (Some xr))%I with "[Hn]").
  { unfold pick. destruct (negb _).
    - iApply (wp_load with "Hn"); [done|]. iIntros "Hn". by iSplit.
    - iApply (wp_load with "Hn"); [done|]. iIntros "Hn". by iSplit. }
  iIntros (y) "[-> Hn]". iApply wp_ret. iLeft. iExists cc, xl, xr, sl, sr. iFrame.
  iSplit; [iPureIntro|done]. split; [done|]. unfold pick. simpl. destruct (negb _); lia.
Qed.

Lemma around_root root size : ⊢ around root root size size.
Proof. iIntros (X) "HX". iExists X. iSplit; [done|done]. Qed.

(** Going down to the child on side [j]. *)
Lemma around_child root p size cc j xl xr sl sr n :
  n = pick j xl xr →
  p ↦ mkNode (Some false) (Some cc) (Some xl) (Some xr) ∗
  tree (pick j xr xl) false (pick j sr sl) ∗
  around root p size (S (nodes sl + nodes sr)) ⊢
  around root n size (nodes (pick j sl sr)).
Proof.
  intros ->. iIntros "(Hp & Ht & Hc)" (X) "HX". unfold pick. destruct (negb (j =? 0)%Z).
  - iDestruct ("Hc" $! (Node p X sr) with "[Hp Ht HX]") as (T) "[%HT H]".
    { simpl. iFrame. done. }
    iExists T. iFrame. iSplit; [iPureIntro; simpl in HT; lia|done].
  - iDestruct ("Hc" $! (Node p sl X) with "[Hp Ht HX]") as (T) "[%HT H]".
    { simpl. iFrame. done. }
    iExists T. iFrame. iSplit; [iPureIntro; simpl in HT; lia|done].
Qed.

(** The walk ends below a node with a null child. *)
Lemma walk_wp fuel root T :
  nodes T ≤ fuel → T ≠ Leaf →
  tree root false T ⊢
  wp False (walk fuel root) (λ npj, ∃ k, ⌜npj.1.1 = 0%Z⌝ ∧ at_child root (nodes T) k npj).
Proof.
  intros Hf HT. iIntros "H". unfold walk.
  iApply (wp_while _ _ _ (walk_inv root (nodes T)) _ fuel (nodes T)); [|done|].
  - clear -RL. intros k [[n p] j]. simpl. iIntros "H". iApply wp_ret.
    destruct (Z.eqb_spec n 0) as [->|Hn]; simpl.
    + iDestruct "H" as "[H|(%T' & %Hp & H)]"; [iExists k; by iFrame|].
      destruct Hp as (<- & _ & _ & HL). destruct T' as [|a sl sr]; [done|].
      iDestruct "H" as "(<- & %cc & %xl & %xr & Ha & H)".
      by iDestruct (pointsto_nonnull with "Ha") as %Ha.
    + iDestruct "H" as "[(%cc & %xl & %xr & %sl & %sr & %Hp & Hp & Hl & Hr & Hc)|
        (%T' & %Hp & H)]"; simpl in *.
      * destruct Hp as [Hpn Hk].
        iAssert (tree n false (pick j sl sr) ∗ tree (pick j xr xl) false (pick j sr sl))%I
          with "[Hl Hr]" as "[Hn Ho]".
        { subst n. unfold pick. destruct (negb _); iFrame. }
        iDestruct (around_child with "[$Hp $Ho $Hc]") as "Hc"; [done|].
        destruct (pick j sl sr) as [|a cl cr].
        { by iDestruct "Hn" as "[%H0 Hn]". }
        iDestruct "Hn" as "(<- & %cc' & %yl & %yr & Hn & Hl & Hr)". simpl in Hk.
        iExists (pred k). iSplit; [iPureIntro; lia|].
        iApply walk_step; [|iFrame]. lia.
      * destruct Hp as (-> & <- & Hk & HL). destruct T' as [|a sl sr]; [done|].
        iDestruct "H" as "(<- & %cc & %xl & %xr & Ha & Hl & Hr)". simpl in Hk.
        iExists (pred k). iSplit; [iPureIntro; lia|].
        iApply (walk_step with "[$Ha $Hl $Hr]"); [lia|]. iApply (around_root root).
  - iRight. iExists T. by iFrame.
Qed.

(** Hanging a new node below the end of the walk. *)
Lemma hang_wp {Y} root size p j k (K : M (mem node) Y) Φ :
  ¬ oom →
  at_child root size k (0%Z, p, j) ∗
  (∀ T, ⌜nodes T = S size⌝ ∧ tree root false T -∗ wp False K Φ) ⊢
  wp False (x ← makeNode; (if negb (j =? 0)%Z then store f_l p x else store f_r p x) ;; K) Φ.
Proof.
  intros Hoom.
  iIntros "[(%cc & %xl & %xr & %sl & %sr & %Hn & Hp & Hl & Hr & Hc) HK]".
  destruct Hn as [Hn _]. simpl in *. iApply wp_bind.
  iApply (wp_wand with "[]"); [by iApply makeNode_wp|]. iIntros (x) "Hx".
  unfold pick in Hn. destruct (negb (j =? 0)%Z); subst.
  - wp_write "Hp". destruct sl as [|a s1 s2].
    2: { iDestruct "Hl" as "(<- & %c' & %y1 & %y2 & Ha & Hl)".
         by iDestruct (pointsto_nonnull with "Ha") as %Ha. }
    iDestruct "Hl" as "[_ Hl]".
    iDestruct ("Hc" $! (Node p (Node x Leaf Leaf) sr) with "[Hp Hx Hr]") as (T) "[%HT H]".
    { iSplit; [done|]. iExists cc, x, xr. iFrame. }
    iApply ("HK" $! T). iFrame. iSplit; [iPureIntro; simpl in HT; lia|done].
  - wp_write "Hp". destruct sr as [|a s1 s2].
    2: { iDestruct "Hr" as "(<- & %c' & %y1 & %y2 & Ha & Hr)".
         by iDestruct (pointsto_nonnull with "Ha") as %Ha. }
    iDestruct "Hr" as "[_ Hr]".
    iDestruct ("Hc" $! (Node p sl (Node x Leaf Leaf)) with "[Hp Hx Hl]") as (T) "[%HT H]".
    { iSplit; [done|]. iExists cc, xl, x. iFrame. }
    iApply ("HK" $! T). iFrame. iSplit; [iPureIntro; simpl in HT; lia|done].
Qed.

(** The loop of [main]: [i] nodes so far. *)
Definition main_inv (root numnodes : Z) (k : nat) (i : Z) : hPropI node :=
  (∃ T, ⌜Z.of_nat (nodes T) = i ∧ T ≠ Leaf ∧ k = Z.to_nat (numnodes - i) ∧
         (i ≤ Z.max 1 numnodes)%Z⌝ ∧ tree root false T)%I.

Lemma main_round fuel root numnodes k i :
  ¬ oom → int_range numnodes → Z.to_nat numnodes ≤ fuel →
  main_inv root numnodes k i ⊢ wp False (mret (i <? numnodes)%Z) (λ d,
    if d : bool then ∃ k', ⌜k = S k'⌝ ∧
      wp False (npj ← walk fuel root;
                let p := npj.1.2 in
                let j := npj.2 in
                x ← makeNode;
                (if negb (j =? 0)%Z then store f_l p x else store f_r p x) ;;
                int_add i 1) (main_inv root numnodes k')
    else ∃ T, ⌜Z.of_nat (nodes T) = Z.max 1 numnodes⌝ ∧ tree root false T).
Proof.
  intros Hoom Hr Hf. iIntros "(%T & %Hp & H)". destruct Hp as (Hi & HL & -> & Hle).
  iApply wp_ret. destruct (Z.ltb_spec i numnodes) as [Hlt|Hge].
  - iExists (Z.to_nat (numnodes - (i + 1))). iSplit; [iPureIntro; lia|].
    iApply wp_bind. iApply (wp_wand with "[H]"); [iApply walk_wp; [|done|done]; lia|].
    iIntros ([[n p] j]) "(%k & %Hn & H)". simpl in *. subst n.
    iApply hang_wp; [done|]. iFrame "H". iIntros (T') "[%HT' H]".
    iApply wp_int_add; [unfold int_range, INT_MIN in *; lia|].
    iExists T'. iFrame. iSplit; [iPureIntro|done]. split_and!; [lia| |done|lia].
    by intros ->.
  - iExists T. iFrame. iSplit; [iPureIntro|done]. destruct T; [done|]. simpl in *. lia.
Qed.

Lemma marking_main_wp fuel argv a1 a2 numnodes seed :
  ¬ oom → argv !! 1 = Some a1 → atoi a1 = (mret numnodes : M (mem node) Z) →
  argv !! 2 = Some a2 → atoi a2 = (mret seed : M (mem node) Z) → int_range numnodes →
  3 * Z.to_nat (Z.max 1 numnodes) ≤ fuel →
  ⊢ wp False (main fuel argv) (λ _, ∃ root T,
      ⌜Z.of_nat (nodes T) = Z.max 1 numnodes⌝ ∧ tree root true T).
Proof.
  intros Hoom Ha1 Hz1 Ha2 Hz2 Hr Hf. iIntros. unfold main, arg. rw Ha1 Ha2.
  iApply wp_bind. iApply wp_ret. rw Hz1. iApply wp_bind. iApply wp_ret.
  iApply wp_bind. iApply wp_ret. rw Hz2. iApply wp_bind. iApply wp_ret.
  iApply wp_bind. iApply (wp_wand with "[]"); [by iApply makeNode_wp|]. iIntros (root) "H".
  iApply wp_bind. iApply (wp_wand with "[H]").
  - iApply (wp_while _ _ _ (main_inv root numnodes) _ fuel (Z.to_nat (numnodes - 1)));
      [intros k i; apply main_round; [done|done|lia]|lia|].
    iExists (Node root Leaf Leaf). iFrame. iSplit; [iPureIntro|done]. simpl. split_and!; done || lia.
  - iIntros (i) "(%T & %HT & H)". iApply (wp_wand with "[H]").
    { iApply schorr_waite_wp; [|done]. lia. }
    iIntros (_) "H". iExists root, T. by iFrame.
Qed.
End contracts.
End SchorrWaite.
