(* ===== verification/Iter.v ===== *)
(** * Linked lists with iterators: [benchmarks/slmc/programs/iter.c]

    Singly linked lists with a sentinel at the end, appended to in place, and
    read-only iterators.  A list predicate carries the addresses of its nodes,
    so that any number of iterators can point into one list; every contract
    says that the list an iterator reads is unchanged. *)

From iris.proofmode Require Import proofmode.
From S2P Require Import Prelude CHeap HeapLogic.

Module Iter.

(** ** Structs *)

Record node := mkNode { next : option Z; value : option Z }.
Record llist := mkLlist { first : option Z; last : option Z }.
Record iter := mkIter { current : option Z }.

Inductive object := ONode (n : node) | OLlist (l : llist) | OIter (i : iter).

#[global] Instance node_struct : Struct object node.
Proof.
  refine {| obj := ONode; as_struct o := match o with ONode n => Some n | _ => None end |}.
  done.
Defined.

#[global] Instance llist_struct : Struct object llist.
Proof.
  refine {| obj := OLlist; as_struct o := match o with OLlist l => Some l | _ => None end |}.
  done.
Defined.

#[global] Instance iter_struct : Struct object iter.
Proof.
  refine {| obj := OIter; as_struct o := match o with OIter i => Some i | _ => None end |}.
  done.
Defined.

Definition f_next : field node Z := Field next (λ x n, mkNode (Some x) (value n)).
Definition f_value : field node Z := Field value (λ x n, mkNode (next n) (Some x)).
Definition f_first : field llist Z := Field first (λ x l, mkLlist (Some x) (last l)).
Definition f_last : field llist Z := Field last (λ x l, mkLlist (first l) (Some x)).
Definition f_current : field iter Z := Field current (λ x _, mkIter (Some x)).

(** ** Functions *)

Section functions.
Context {A : Allocator object}.

Definition create_llist : M (mem object) Z :=
  l ← malloc (mkLlist None None);
  abort_if (l =? 0)%Z ;;
  n ← malloc (mkNode None None);
  abort_if (n =? 0)%Z ;;
  store f_first l n ;;
  store f_last l n ;;
  mret l.

Definition llist_add (list x : Z) : M (mem object) unit :=
  n ← malloc (mkNode None None);
  abort_if (n =? 0)%Z ;;
  l ← load f_last list;
  store f_next l n ;;
  store f_value l x ;;
  store f_last list n.

Definition llist_append (list1 list2 : Z) : M (mem object) unit :=
  l1 ← load f_last list1;
  f2 ← load f_first list2;
  l2 ← load f_last list2;
  if (f2 =? l2)%Z then
    free l2 ;;
    free list2
  else
    nx ← load f_next f2;
    store f_next l1 nx ;;
    v ← load f_value f2;
    store f_value l1 v ;;
    store f_last list1 l2 ;;
    free f2 ;;
    free list2.

Definition llist_dispose (fuel : nat) (list : Z) : M (mem object) unit :=
  n ← load f_first list;
  l ← load f_last list;
  while fuel (λ n, mret (negb (n =? l)%Z))
    (λ n, nx ← load f_next n; free n ;; mret nx) n ;;
  free l ;;
  free list.

Definition llist_length (fuel : nat) (list : Z) : M (mem object) Z :=
  f ← load f_first list;
  let n := f in
  l ← load f_last list;
  nc ← while fuel (λ nc : Z * Z, mret (negb (nc.1 =? l)%Z))
    (λ nc, nx ← load f_next nc.1;
           abort_if (nc.2 =? 2147483647)%Z ;;
           c ← int_add nc.2 1;
           mret (nx, c)) (n, 0%Z);
  mret nc.2.

Definition llist_lookup (fuel : nat) (list index : Z) : M (mem object) Z :=
  f ← load f_first list;
  l ← load f_last list;
  let n := f in
  ni ← while fuel (λ ni : Z * Z, mret (ni.2 <? index)%Z)
    (λ ni, nx ← load f_next ni.1;
           i ← int_add ni.2 1;
           mret (nx, i)) (n, 0%Z);
  load f_value ni.1.

Definition llist_removeFirst (l : Z) : M (mem object) Z :=
  nf ← load f_first l;
  nfn ← load f_next nf;
  nfv ← load f_value nf;
  free nf ;;
  store f_first l nfn ;;
  mret nfv.

Definition llist_create_iter (l : Z) : M (mem object) Z :=
  i ← malloc (mkIter None);
  abort_if (i =? 0)%Z ;;
  f ← load f_first l;
  store f_current i f ;;
  mret i.

Definition iter_next (i : Z) : M (mem object) Z :=
  c ← load f_current i;
  value ← load f_value c;
  n ← load f_next c;
  store f_current i n ;;
  mret value.

Definition iter_dispose (i : Z) : M (mem object) unit := free i.

(** [assert(x == v)] *)
Definition expect (x v : Z) : M (mem object) unit := assert (x =? v)%Z.

Definition main0 (fuel : nat) : M (mem object) unit :=
  l ← create_llist;
  llist_add l 10 ;;
  llist_add l 20 ;;
  llist_add l 30 ;;
  llist_add l 40 ;;
  x1 ← llist_removeFirst l;
  expect x1 10 ;;
  x2 ← llist_removeFirst l;
  expect x2 20 ;;
  llist_dispose fuel l.

Definition main (fuel : nat) (argv : list string) : M (mem object) unit :=
  a ← arg argv 1;
  size ← atoi a;
  l ← create_llist;
  while fuel (λ i, mret (i <? size)%Z)
    (λ i, llist_add l i ;;
          it ← llist_create_iter l;
          while fuel (λ j, mret (j <? i)%Z) (λ j, iter_next it ;; int_add j 1) 0%Z ;;
          iter_dispose it ;;
          int_add i 1) 0%Z ;;
  mret tt.

(** [i1e = iter_next(i1); assert(i1e == v); i2e = iter_next(i2); assert(i2e == v);] *)
Definition next_both (i1 i2 v : Z) : M (mem object) unit :=
  e1 ← iter_next i1; expect e1 v ;;
  e2 ← iter_next i2; expect e2 v.

(** The second half of [main1], on its iterators. *)
Definition main1_iters (fuel : nat) (l1 : Z) : M (mem object) Z :=
  i1 ← llist_create_iter l1;
  i2 ← llist_create_iter l1;
  next_both i1 i2 10 ;;
  next_both i1 i2 20 ;;
  next_both i1 i2 30 ;;
  next_both i1 i2 50 ;;
  next_both i1 i2 60 ;;
  iter_dispose i1 ;;
  iter_dispose i2 ;;
  llist_dispose fuel l1 ;;
  mret 0%Z.

Definition main1 (fuel : nat) : M (mem object) Z :=
  l1 ← create_llist;
  l2 ← create_llist;
  llist_add l1 10 ;;
  llist_add l1 20 ;;
  llist_add l1 30 ;;
  llist_add l2 40 ;;
  llist_add l2 50 ;;
  llist_add l2 60 ;;
  x ← llist_removeFirst l2; expect x 40 ;;
  llist_append l1 l2 ;;
  n ← llist_length fuel l1; expect n 5 ;;
  e0 ← llist_lookup fuel l1 0; expect e0 10 ;;
  e1 ← llist_lookup fuel l1 1; expect e1 20 ;;
  e2 ← llist_lookup fuel l1 2; expect e2 30 ;;
  e3 ← llist_lookup fuel l1 3; expect e3 50 ;;
  e4 ← llist_lookup fuel l1 4; expect e4 60 ;;
  main1_iters fuel l1.

Definition main2 (fuel : nat) : M (mem object) Z :=
  l ← create_llist;
  llist_add l 5 ;;
  llist_add l 10 ;;
  llist_add l 15 ;;
  i1 ← llist_create_iter l;
  i2 ← llist_create_iter l;
  next_both i1 i2 5 ;;
  next_both i1 i2 10 ;;
  iter_dispose i1 ;;
  iter_dispose i2 ;;
  llist_dispose fuel l ;;
  mret 0%Z.
End functions.

(** ** Predicates *)

(** [lseg(n1, n2, v)], with the addresses [ns] of its nodes. *)
Fixpoint lseg (n1 n2 : Z) (ns v : list Z) : hPropI object :=
  match ns, v with
  | [], [] => ⌜n1 = n2⌝ ∧ emp
  | a :: ns, x :: v =>
    ⌜n1 = a ∧ a ≠ n2⌝ ∧ ∃ nx, a ↦ mkNode (Some nx) (Some x) ∗ lseg nx n2 ns v
  | _, _ => False
  end%I.

(** [llist(list, v)] with its node addresses and its sentinel [la]. *)
Definition llist_at (l : Z) (ns : list Z) (la : Z) (v : list Z) : hPropI object :=
  (∃ f nd, l ↦ mkLlist (Some f) (Some la) ∗ lseg f la ns v ∗ la ↦ (nd : node))%I.

Definition llist_of (l : Z) (v : list Z) : hPropI object :=
  (∃ ns la, llist_at l ns la v)%I.

(** An iterator at position [k] of the list with nodes [ns]. *)
Definition iter_at (i : Z) (ns : list Z) (la : Z) (k : nat) : hPropI object :=
  (∃ n, ⌜(ns ++ [la]) !! k = Some n⌝ ∧ i ↦ mkIter (Some n))%I.

(** ** Lemmas of the annotations *)

Lemma lseg_length n1 n2 ns v : lseg n1 n2 ns v ⊢ ⌜length ns = length v⌝.
Proof.
  revert n1 v. induction ns as [|a ns IH]; intros n1 [|x v]; simpl; try by iIntros.
  iIntros "(_ & %nx & _ & H)". rw IH. iDestruct "H" as %Hl. iPureIntro. by rw Hl.
Qed.

(** The end of a segment is none of its nodes. *)
Lemma lseg_end n1 n2 ns v : lseg n1 n2 ns v ⊢ ⌜n2 ∉ ns⌝.
Proof.
  revert n1 v. induction ns as [|a ns IH]; intros n1 [|x v]; simpl; try by iIntros.
  - iIntros "_". iPureIntro. set_solver.
  - iIntros "(%Ha & %nx & _ & H)". rw IH. iDestruct "H" as %Hl. iPureIntro. set_solver.
Qed.

(** The first node, and reading any node. *)
Lemma lseg_start n1 n2 ns v : lseg n1 n2 ns v ⊢ ⌜(ns ++ [n2]) !! 0 = Some n1⌝.
Proof.
  destruct ns, v; simpl; try by iIntros.
  - iIntros "[-> H]". by iPureIntro.
  - iIntros "[%Ha H]". iPureIntro. f_equal. by destruct Ha.
Qed.

Lemma lseg_acc n1 n2 ns v k x :
  v !! k = Some x →
  lseg n1 n2 ns v ⊢ ∃ a nx, ⌜ns !! k = Some a ∧ (ns ++ [n2]) !! S k = Some nx⌝ ∧
    a ↦ mkNode (Some nx) (Some x) ∗
    (a ↦ mkNode (Some nx) (Some x) -∗ lseg n1 n2 ns v).
Proof.
  revert n1 v k. induction ns as [|a ns IH]; intros n1 [|y v] [|k] Hk;
    simpl in *; try done; try by iIntros.
  - simplify_eq. iIntros "(%Ha & %nx & Hn & H)".
    iDestruct (lseg_start with "H") as %Hnx. iExists a, nx. iFrame "Hn".
    iSplit; [done|]. iIntros "Hn". iSplit; [done|]. iExists nx. iFrame.
  - iIntros "(%Ha & %nx & Hn & H)". rw IH; [|done].
    iDestruct "H" as (b nx' Hb) "[Hb H]". iExists b, nx'. iFrame "Hb". iSplit; [done|].
    iIntros "Hb". iSplit; [done|]. iExists nx. iFrame. by iApply "H".
Qed.

(** Two segments, the second ending in a node one owns. *)
Lemma lseg_append n1 n2 n3 ns1 v1 ns2 v2 (nd : node) :
  lseg n1 n2 ns1 v1 ∗ lseg n2 n3 ns2 v2 ∗ n3 ↦ nd ⊢
  lseg n1 n3 (ns1 ++ ns2) (v1 ++ v2) ∗ n3 ↦ nd.
Proof.
  revert n1 v1. induction ns1 as [|a ns1 IH]; intros n1 [|x v1]; simpl;
    try by iIntros "[[] _]".
  - iIntros "([-> H] & $ & $)".
  - iIntros "((%Ha & %nx & Hn & H1) & H2 & H3)".
    iDestruct (pointsto_ne with "[$Hn $H3]") as %Hne.
    iDestruct (IH with "[$H1 $H2 $H3]") as "[H $]". iFrame. iPureIntro. naive_solver.
Qed.

Lemma lseg_add n1 n2 n3 x ns v (nd : node) :
  lseg n1 n2 ns v ∗ n2 ↦ mkNode (Some n3) (Some x) ∗ n3 ↦ nd ⊢
  lseg n1 n3 (ns ++ [n2]) (v ++ [x]) ∗ n3 ↦ nd.
Proof.
  iIntros "(H1 & H2 & H3)". iDestruct (pointsto_ne with "[$H2 $H3]") as %Hne.
  iApply (lseg_append with "[$H1 $H3 H2]"). simpl. iFrame. done.
Qed.

(** ** Contracts *)

Section contracts.
Context {A : Allocator object} {AL : AllocatorLaws A}.

Lemma create_llist_wp : ⊢ wp oom create_llist (λ l, llist_of l []).
Proof.
  iIntros. iApply wp_malloc_check; [done|]. iIntros (l) "Hl".
  iApply wp_malloc_check; [done|]. iIntros (n) "Hn". wp_write "Hl". wp_write "Hl".
  iApply wp_ret. iExists [], n, n, (mkNode None None). iFrame. by iSplit.
Qed.

(** Appending keeps the nodes: iterators stay where they are. *)
Lemma llist_add_at l ns la v x :
  llist_at l ns la v ⊢ wp oom (llist_add l x) (λ _, ∃ n, llist_at l (ns ++ [la]) n (v ++ [x])).
Proof.
  iIntros "(%f & %nd & Hl & Hs & Hla)". iApply wp_malloc_check; [done|]. iIntros (n) "Hn".
  wp_read "Hl". wp_write "Hla". wp_write "Hla". wp_write_last "Hl".
  iDestruct (lseg_add with "[$Hs $Hla $Hn]") as "[Hs Hn]".
  iExists n, f, (mkNode None None). iFrame.
Qed.

Lemma llist_add_wp l v x : llist_of l v ⊢ wp oom (llist_add l x) (λ _, llist_of l (v ++ [x])).
Proof.
  iIntros "(%ns & %la & H)". iApply (wp_wand with "[H]"); [by iApply llist_add_at|].
  iIntros (_) "[%n H]". iExists (ns ++ [la]), n. iFrame.
Qed.

Lemma llist_append_wp l1 l2 v1 v2 :
  llist_of l1 v1 ∗ llist_of l2 v2 ⊢
  wp False (llist_append l1 l2) (λ _, llist_of l1 (v1 ++ v2)).
Proof.
  iIntros "[(%ns1 & %la1 & %f1 & %nd1 & Hl1 & Hs1 & Ha1)
            (%ns2 & %la2 & %f2 & %nd2 & Hl2 & Hs2 & Ha2)]".
  wp_read "Hl1". wp_read "Hl2". wp_read "Hl2".
  destruct ns2 as [|a ns2], v2 as [|x v2]; simpl; try by iDestruct "Hs2" as "[]".
  - iDestruct "Hs2" as "[-> Hs2]". rw Z.eqb_refl app_nil_r.
    wp_release "Ha2". iApply (wp_free with "Hl2"). iExists ns1, la1, f1, nd1. iFrame.
  - iDestruct "Hs2" as "(%Ha & %nx & Hn & Hs2)". destruct Ha as [-> Hne].
    rw (proj2 (Z.eqb_neq a la2) Hne). wp_read "Hn". wp_write "Ha1". wp_read "Hn".
    wp_write "Ha1". wp_write "Hl1". wp_release "Hn". iApply (wp_free with "Hl2").
    iDestruct (pointsto_ne with "[$Ha1 $Ha2]") as %Hne'.
    iDestruct (lseg_append f1 la1 la2 ns1 v1 (la1 :: ns2) (x :: v2) nd2
      with "[$Hs1 Ha1 Hs2 $Ha2]") as "[Hs Ha2]"; [simpl; by iFrame|].
    iExists (ns1 ++ la1 :: ns2), la2, f1, nd2. iFrame.
Qed.

Lemma llist_dispose_wp fuel l v :
  length v ≤ fuel → llist_of l v ⊢ wp False (llist_dispose fuel l) (λ _, emp).
Proof.
  intros Hf. iIntros "(%ns & %la & %f & %nd & Hl & Hs & Ha)". wp_read "Hl". wp_read "Hl".
  iApply wp_bind. iApply (wp_wand _ _ (λ _, emp)%I with "[Hs]").
  - iApply (wp_while _ _ _ (λ k n, ∃ ns v, ⌜k = length v⌝ ∧ lseg n la ns v)%I _ fuel
      (length v)); [|done|iExists ns, v; by iFrame].
    clear. intros k n. iIntros "(%ns & %v & -> & H)". iApply wp_ret.
    destruct ns as [|a ns], v as [|x v]; simpl; try by iDestruct "H" as "[]".
    + iDestruct "H" as "[-> H]". rw Z.eqb_refl. iFrame.
    + iDestruct "H" as "(%Hn & %nx & Hn & H)". destruct Hn as [-> Hn].
      rw (proj2 (Z.eqb_neq a la) Hn) /=. iExists (length v). iSplit; [done|].
      wp_read "Hn". wp_release "Hn". iApply wp_ret. iExists ns, v. by iFrame.
  - iIntros (n) "_". wp_release "Ha". by iApply (wp_free with "Hl").
Qed.

Lemma llist_removeFirst_wp l x v :
  llist_of l (x :: v) ⊢ wp False (llist_removeFirst l) (λ r, ⌜r = x⌝ ∧ llist_of l v).
Proof.
  iIntros "(%ns & %la & %f & %nd & Hl & Hs & Ha)".
  destruct ns as [|a ns]; simpl; [by iDestruct "Hs" as "[]"|].
  iDestruct "Hs" as "(%Hn & %nx & Hn & Hs)". destruct Hn as [-> Hn].
  wp_read "Hl". wp_read "Hn". wp_read "Hn". wp_release "Hn". wp_write "Hl". iApply wp_ret.
  iSplit; [done|]. iExists ns, la, nx, nd. iFrame.
Qed.

(** A walk along the list: [k] steps before position [stop]. *)
Definition walk_inv (f la : Z) (ns v : list Z) (stop k : nat) (nc : Z * Z) : hPropI object :=
  (∃ p, ⌜(p + k = stop)%nat ∧ (ns ++ [la]) !! p = Some nc.1 ∧ nc.2 = Z.of_nat p ∧
        (Z.of_nat p ≤ INT_MAX)%Z⌝ ∧ lseg f la ns v)%I.

Lemma walk_start f la ns v stop :
  lseg f la ns v ⊢ walk_inv f la ns v stop stop (f, 0%Z).
Proof.
  iIntros "H". iDestruct (lseg_start with "H") as %Hf. iExists 0. by iFrame.
Qed.

(** The node at a position, by the address the walk holds. *)
Lemma lseg_acc_at f la ns v p n x :
  v !! p = Some x → (ns ++ [la]) !! p = Some n →
  lseg f la ns v ⊢ ∃ nx, ⌜(ns ++ [la]) !! S p = Some nx⌝ ∧
    n ↦ mkNode (Some nx) (Some x) ∗ (n ↦ mkNode (Some nx) (Some x) -∗ lseg f la ns v).
Proof.
  intros Hx Hn. iIntros "H". iDestruct (lseg_acc with "H") as (a nx Ha) "H"; [done|].
  destruct Ha as [Ha Hnx]. iExists nx. iSplit; [done|].
  assert (Some a = Some n) as [= ->]; [|done].
  rw -Hn. symmetry. by apply lookup_app_l_Some.
Qed.

Lemma llist_length_at fuel l ns la v :
  length v ≤ fuel →
  llist_at l ns la v ⊢ wp (INT_MAX < Z.of_nat (length v))%Z (llist_length fuel l)
    (λ r, ⌜r = Z.of_nat (length v)⌝ ∧ llist_at l ns la v).
Proof.
  intros Hf. iIntros "(%f & %nd & Hl & Hs & Ha)". wp_read "Hl". wp_read "Hl". iApply wp_bind.
  iApply (wp_wand _ _ (λ nc, ⌜nc.2 = Z.of_nat (length v)⌝ ∧ lseg f la ns v)%I with "[Hs]").
  - iApply (wp_while _ _ _ (walk_inv f la ns v (length v)) _ fuel (length v));
      [|done|by iApply walk_start].
    clear. intros k [n c]. iIntros "(%p & %Hp & H)". destruct Hp as (Hk & Hn & Hc & Hm).
    simpl in *. subst c. iDestruct (lseg_length with "H") as %Hlen.
    iDestruct (lseg_end with "H") as %Hend. iApply wp_ret. destruct k as [|k].
    { rw list_lookup_middle in Hn; [|lia]. injection Hn as <-. rw Z.eqb_refl /=.
      iFrame. iSplit; [iPureIntro; lia|done]. }
    destruct (lookup_lt_is_Some_2 v p) as [x Hx]; [lia|].
    rw lookup_app_l in Hn; [|lia]. rw (proj2 (Z.eqb_neq n la)) /=.
    2: { intros ->. by apply Hend, (list_elem_of_lookup_2 _ p). }
    iExists k. iSplit; [done|].
    iDestruct (lseg_acc_at with "H") as (nx Hnx) "[Hn H]"; [done|by apply lookup_app_l_Some|].
    wp_read "Hn". iSpecialize ("H" with "Hn"). iApply wp_bind. unfold abort_if.
    destruct (Z.eqb_spec (Z.of_nat p) 2147483647) as [E|E].
    { iApply wp_abort; [|done]. unfold INT_MAX. lia. }
    iApply wp_ret. unfold INT_MAX in Hm. iApply wp_bind.
    iApply wp_int_add; [unfold int_range, INT_MIN, INT_MAX; lia|]. iApply wp_ret.
    iExists (S p). iFrame. iSplit; [iPureIntro|done]. simpl.
    split_and!; [lia|done|lia|unfold INT_MAX; lia].
  - iIntros (nc) "[%Hc Hs]". iApply wp_ret. iSplit; [done|]. iExists f, nd. iFrame.
Qed.

Lemma llist_lookup_at fuel l ns la v index x :
  v !! index = Some x → index ≤ fuel → (Z.of_nat index ≤ INT_MAX)%Z →
  llist_at l ns la v ⊢ wp False (llist_lookup fuel l (Z.of_nat index))
    (λ r, ⌜r = x⌝ ∧ llist_at l ns la v).
Proof.
  intros Hx Hf Hi. iIntros "(%f & %nd & Hl & Hs & Ha)". wp_read "Hl". wp_read "Hl".
  iApply wp_bind.
  iApply (wp_wand _ _ (λ ni, ⌜(ns ++ [la]) !! index = Some ni.1⌝ ∧ lseg f la ns v)%I
    with "[Hs]").
  - iApply (wp_while _ _ _ (walk_inv f la ns v index) _ fuel index);
      [|done|by iApply walk_start].
    clear -Hx Hi. intros k [n i]. iIntros "(%p & %Hp & H)". destruct Hp as (Hk & Hn & Hc & Hm).
    simpl in *. subst i. iApply wp_ret. destruct k as [|k].
    { assert (p = index) as -> by lia. rw Z.ltb_irrefl. by iFrame. }
    rw (proj2 (Z.ltb_lt _ _)); [|lia]. iExists k. iSplit; [done|].
    destruct (lookup_lt_is_Some_2 v p) as [y Hy]; [apply lookup_lt_Some in Hx; lia|].
    iDestruct (lseg_acc_at with "H") as (nx Hnx) "[Hn H]"; [done|done|].
    wp_read "Hn". iSpecialize ("H" with "Hn"). iApply wp_bind.
    iApply wp_int_add; [unfold int_range, INT_MIN; lia|]. iApply wp_ret.
    iExists (S p). iFrame. iSplit; [iPureIntro|done]. simpl. split_and!; [lia|done|lia|lia].
  - iIntros ([n i]) "[%Hn Hs]". simpl in Hn.
    iDestruct (lseg_acc_at with "Hs") as (nx Hnx) "[Hn Hs]"; [done|done|].
    iApply (wp_load with "Hn"); [done|]. iIntros "Hn". iSplit; [done|].
    iExists f, nd. iFrame. by iApply "Hs".
Qed.

(** ** Iterators *)

Lemma llist_create_iter_at l ns la v :
  llist_at l ns la v ⊢
  wp oom (llist_create_iter l) (λ i, llist_at l ns la v ∗ iter_at i ns la 0).
Proof.
  iIntros "(%f & %nd & Hl & Hs & Ha)". iApply wp_malloc_check; [done|]. iIntros (i) "Hi".
  iDestruct (lseg_start with "Hs") as %Hf. wp_read "Hl". wp_write "Hi". iApply wp_ret.
  iSplitR "Hi"; [iExists f, nd; iFrame|]. iExists f. by iFrame.
Qed.

Lemma iter_next_at i l ns la v k x :
  v !! k = Some x →
  llist_at l ns la v ∗ iter_at i ns la k ⊢
  wp False (iter_next i) (λ r, ⌜r = x⌝ ∧ llist_at l ns la v ∗ iter_at i ns la (S k)).
Proof.
  intros Hx. iIntros "[(%f & %nd & Hl & Hs & Ha) (%n & %Hn & Hi)]". wp_read "Hi".
  iDestruct (lseg_acc_at with "Hs") as (nx Hnx) "[Hn Hs]"; [done|done|].
  wp_read "Hn". wp_read "Hn". wp_write "Hi". iApply wp_ret. iSplit; [done|].
  iSplitR "Hi"; [|iExists nx; by iFrame]. iExists f, nd. iFrame. by iApply "Hs".
Qed.

Lemma iter_dispose_at i ns la k : iter_at i ns la k ⊢ wp False (iter_dispose i) (λ _, emp).
Proof. iIntros "(%n & _ & Hi)". by iApply (wp_free with "Hi"). Qed.

(** ** The test programs *)

Lemma wp_expect E x (Φ : unit → hPropI object) : Φ tt ⊢ wp E (expect x x) Φ.
Proof. apply wp_assert, Z.eqb_refl. Qed.

Lemma iter_main0_wp fuel : 2 ≤ fuel → ⊢ wp oom (main0 fuel) (λ _, emp).
Proof.
  intros Hf. iIntros. iApply (wp_call (emp_of create_llist_wp)); [done|done|].
  iIntros (l) "H".
  do 4 (iApply (wp_call (llist_add_wp _ _ _) with "H"); [done|]; iIntros (_) "H").
  iApply (wp_call (llist_removeFirst_wp _ _ _) with "H"); [done|]. iIntros (x1) "[-> H]".
  iApply wp_bind. iApply wp_expect.
  iApply (wp_call (llist_removeFirst_wp _ _ _) with "H"); [done|]. iIntros (x2) "[-> H]".
  iApply wp_bind. iApply wp_expect.
  iApply (wp_call_last (llist_dispose_wp fuel _ [30; 40]%Z Hf) with "H"); [done|].
  by iIntros (_) "_".
Qed.

(** Both iterators yield the element at their position. *)
Lemma next_both_at i1 i2 l ns la v k x :
  v !! k = Some x →
  llist_at l ns la v ∗ iter_at i1 ns la k ∗ iter_at i2 ns la k ⊢
  wp False (next_both i1 i2 x)
    (λ _, llist_at l ns la v ∗ iter_at i1 ns la (S k) ∗ iter_at i2 ns la (S k)).
Proof.
  intros Hx. iIntros "(H & H1 & H2)".
  iApply (wp_call (iter_next_at i1 l ns la v k x Hx) with "[$H $H1]"); [done|].
  iIntros (e1) "(-> & H & H1)". iApply wp_bind. iApply wp_expect.
  iApply (wp_call (iter_next_at i2 l ns la v k x Hx) with "[$H $H2]"); [done|].
  iIntros (e2) "(-> & H & H2)". iApply wp_expect. iFrame.
Qed.

Lemma llist_at_of l ns la v : llist_at l ns la v ⊢ llist_of l v.
Proof. iIntros "H". iExists ns, la. iFrame. Qed.

Lemma main2_wp fuel : 3 ≤ fuel → ⊢ wp oom (main2 fuel) (λ r, ⌜r = 0%Z⌝ ∧ emp).
Proof.
  intros Hf. iIntros. iApply (wp_call (emp_of create_llist_wp)); [done|done|].
  iIntros (l) "H".
  do 3 (iApply (wp_call (llist_add_wp _ _ _) with "H"); [done|]; iIntros (_) "H").
  iEval (cbn [app]) in "H". iDestruct "H" as (ns la) "H".
  iApply (wp_call (llist_create_iter_at _ _ _ _) with "H"); [done|]. iIntros (i1) "[H H1]".
  iApply (wp_call (llist_create_iter_at _ _ _ _) with "H"); [done|]. iIntros (i2) "[H H2]".
  iApply (wp_call (next_both_at i1 i2 l ns la [5; 10; 15]%Z 0 5 eq_refl) with "[$H $H1 $H2]"); [done|].
  iIntros (_) "(H & H1 & H2)".
  iApply (wp_call (next_both_at i1 i2 l ns la [5; 10; 15]%Z 1 10 eq_refl) with "[$H $H1 $H2]"); [done|].
  iIntros (_) "(H & H1 & H2)".
  iApply (wp_call (iter_dispose_at _ _ _ _) with "H1"); [done|]. iIntros (_) "_".
  iApply (wp_call (iter_dispose_at _ _ _ _) with "H2"); [done|]. iIntros (_) "_".
  rw llist_at_of.
  iApply (wp_call (llist_dispose_wp fuel _ [5; 10; 15]%Z Hf) with "H"); [done|].
  iIntros (_) "_". iApply wp_ret. by iSplit.
Qed.

(** One lookup of [main1] with its assertion. *)
Lemma lookup_expect {Y} fuel l v (index : nat) x (K : M (mem object) Y) Φ :
  v !! index = Some x → index ≤ fuel → (Z.of_nat index ≤ INT_MAX)%Z →
  llist_of l v -∗ (llist_of l v -∗ wp oom K Φ) -∗
  wp oom (e ← llist_lookup fuel l (Z.of_nat index); expect e x ;; K) Φ.
Proof.
  intros Hx Hf Hi. iIntros "(%ns & %la & H) HK".
  iApply (wp_call (llist_lookup_at fuel l ns la v index x Hx Hf Hi) with "H"); [done|].
  iIntros (e) "[-> H]". iApply wp_bind. iApply wp_expect. iApply "HK". by iApply llist_at_of.
Qed.

Lemma main1_iters_wp fuel l1 :
  5 ≤ fuel →
  llist_of l1 [10; 20; 30; 50; 60]%Z ⊢ wp oom (main1_iters fuel l1) (λ r, ⌜r = 0%Z⌝ ∧ emp).
Proof.
  intros Hf. iIntros "(%ns & %la & H)".
  iApply (wp_call (llist_create_iter_at _ _ _ _) with "H"); [done|]. iIntros (i1) "[H H1]".
  iApply (wp_call (llist_create_iter_at _ _ _ _) with "H"); [done|]. iIntros (i2) "[H H2]".
  iApply (wp_call (next_both_at i1 i2 l1 ns la [10; 20; 30; 50; 60]%Z 0 10 eq_refl) with "[$H $H1 $H2]"); [done|].
  iIntros (_) "(H & H1 & H2)".
  iApply (wp_call (next_both_at i1 i2 l1 ns la [10; 20; 30; 50; 60]%Z 1 20 eq_refl) with "[$H $H1 $H2]"); [done|].
  iIntros (_) "(H & H1 & H2)".
  iApply (wp_call (next_both_at i1 i2 l1 ns la [10; 20; 30; 50; 60]%Z 2 30 eq_refl) with "[$H $H1 $H2]"); [done|].
  iIntros (_) "(H & H1 & H2)".
  iApply (wp_call (next_both_at i1 i2 l1 ns la [10; 20; 30; 50; 60]%Z 3 50 eq_refl) with "[$H $H1 $H2]"); [done|].
  iIntros (_) "(H & H1 & H2)".
  iApply (wp_call (next_both_at i1 i2 l1 ns la [10; 20; 30; 50; 60]%Z 4 60 eq_refl) with "[$H $H1 $H2]"); [done|].
  iIntros (_) "(H & H1 & H2)".
  iApply (wp_call (iter_dispose_at _ _ _ _) with "H1"); [done|]. iIntros (_) "_".
  iApply (wp_call (iter_dispose_at _ _ _ _) with "H2"); [done|]. iIntros (_) "_".
  rw llist_at_of.
  iApply (wp_call (llist_dispose_wp fuel _ [10; 20; 30; 50; 60]%Z Hf) with "H"); [done|].
  iIntros (_) "_". iApply wp_ret. by iSplit.
Qed.

Lemma main1_wp fuel : 5 ≤ fuel → ⊢ wp oom (main1 fuel) (λ r, ⌜r = 0%Z⌝ ∧ emp).
Proof.
  intros Hf. iIntros. unfold main1.
  iApply (wp_call (emp_of create_llist_wp)); [done|done|]. iIntros (l1) "H1".
  iApply (wp_call (emp_of create_llist_wp)); [done|done|]. iIntros (l2) "H2".
  do 3 (iApply (wp_call (llist_add_wp _ _ _) with "H1"); [done|]; iIntros (_) "H1").
  do 3 (iApply (wp_call (llist_add_wp _ _ _) with "H2"); [done|]; iIntros (_) "H2").
  iApply (wp_call (llist_removeFirst_wp _ _ _) with "H2"); [done|]. iIntros (x) "[-> H2]".
  iApply wp_bind. iApply wp_expect.
  iApply (wp_call (llist_append_wp _ _ _ _) with "[$H1 $H2]"); [done|]. iIntros (_) "H".
  iEval (cbn [app]) in "H". iDestruct "H" as (ns la) "H".
  iApply (wp_call (llist_length_at fuel l1 ns la [10; 20; 30; 50; 60]%Z Hf) with "H"); [done|].
  iIntros (n) "[-> H]". iApply wp_bind. iApply wp_expect. rw llist_at_of.
  iApply (lookup_expect fuel l1 _ 0 with "H"); [done|lia|done|]. iIntros "H".
  iApply (lookup_expect fuel l1 _ 1 with "H"); [done|lia|done|]. iIntros "H".
  iApply (lookup_expect fuel l1 _ 2 with "H"); [done|lia|done|]. iIntros "H".
  iApply (lookup_expect fuel l1 _ 3 with "H"); [done|lia|done|]. iIntros "H".
  iApply (lookup_expect fuel l1 _ 4 with "H"); [done|lia|done|]. iIntros "H".
  by iApply main1_iters_wp.
Qed.

(** The inner loop of [main]: [i] calls of [iter_next]. *)
Lemma main_inner_wp fuel l ns la v it (i : Z) :
  (0 ≤ i ≤ Z.of_nat (length v))%Z → (i ≤ INT_MAX)%Z → Z.to_nat i ≤ fuel →
  llist_at l ns la v ∗ iter_at it ns la 0 ⊢
  wp False (while fuel (λ j, mret (j <? i)%Z) (λ j, iter_next it ;; int_add j 1) 0%Z)
    (λ _, llist_at l ns la v ∗ iter_at it ns la (Z.to_nat i)).
Proof.
  intros Hi Hm Hf. iIntros "H".
  iApply (wp_while _ _ _ (λ k j, ⌜(0 ≤ j ≤ i)%Z ∧ k = Z.to_nat (i - j)⌝ ∧
    llist_at l ns la v ∗ iter_at it ns la (Z.to_nat j))%I _ fuel (Z.to_nat i));
    [|done|iSplit; [iPureIntro; split; [lia|f_equal; lia]|done]].
  clear -Hi Hm. intros k j. iIntros "[%Hj H]". destruct Hj as [Hj ->]. iApply wp_ret.
  destruct (Z.ltb_spec j i) as [Hlt|Hge].
  - iExists (Z.to_nat (i - (j + 1))). iSplit; [iPureIntro; lia|].
    destruct (lookup_lt_is_Some_2 v (Z.to_nat j)) as [x Hx]; [lia|].
    iApply (wp_call (iter_next_at it l ns la v (Z.to_nat j) x Hx) with "H"); [done|].
    iIntros (r) "[_ H]". iApply wp_int_add; [unfold int_range, INT_MIN; lia|].
    iSplit; [iPureIntro; lia|].
    by replace (Z.to_nat (j + 1)) with (S (Z.to_nat j)) by lia.
  - by replace (Z.to_nat j) with (Z.to_nat i) by lia.
Qed.

(** One round of [main]: append [i], walk an iterator over the [i] first
    elements, release it. *)
Lemma main_round_wp fuel l (i : Z) :
  (0 ≤ i < INT_MAX)%Z → Z.to_nat i ≤ fuel →
  llist_of l (seqZ 0 i) ⊢
  wp oom (llist_add l i ;;
          it ← llist_create_iter l;
          while fuel (λ j, mret (j <? i)%Z) (λ j, iter_next it ;; int_add j 1) 0%Z ;;
          iter_dispose it ;;
          int_add i 1) (λ i', ⌜i' = (i + 1)%Z⌝ ∧ llist_of l (seqZ 0 (i + 1))).
Proof.
  intros Hi Hf.
  assert (0 ≤ i ≤ Z.of_nat (length (seqZ 0 i ++ [i])))%Z as Hlen.
  { rw length_app length_seqZ. simpl. lia. }
  iIntros "H". iApply (wp_call (llist_add_wp l _ i) with "H"); [done|].
  iIntros (_) "(%ns & %la & H)".
  iApply (wp_call (llist_create_iter_at l ns la _) with "H"); [done|]. iIntros (it) "H".
  iApply (wp_call (main_inner_wp fuel l ns la _ it i Hlen ltac:(lia) Hf) with "H"); [done|].
  iIntros (_) "[H Hi]".
  iApply (wp_call (iter_dispose_at it ns la _) with "Hi"); [done|]. iIntros (_) "_".
  iApply wp_int_add; [unfold int_range, INT_MIN; lia|]. iSplit; [done|].
  rw llist_at_of. by rw (seqZ_app 0 i 1); [|lia|lia].
Qed.

Lemma iter_main_wp fuel argv a size :
  argv !! 1 = Some a → atoi a = (mret size : M (mem object) Z) → int_range size →
  Z.to_nat size ≤ fuel →
  ⊢ wp oom (main fuel argv) (λ _, ∃ l, llist_of l (seqZ 0 (Z.max 0 size))).
Proof.
  intros Ha Hz Hr Hf. iIntros. unfold main, arg. rw Ha. iApply wp_bind. iApply wp_ret.
  rw Hz. iApply wp_bind. iApply wp_ret.
  iApply (wp_call (emp_of create_llist_wp)); [done|done|]. iIntros (l) "H". iApply wp_bind.
  iApply (wp_wand _ _ (λ _, llist_of l (seqZ 0 (Z.max 0 size))) with "[H]").
  - iApply (wp_while _ _ _ (λ k i, ⌜(0 ≤ i ≤ Z.max 0 size)%Z ∧ k = Z.to_nat (size - i)⌝ ∧
      llist_of l (seqZ 0 i))%I _ fuel (Z.to_nat size));
      [|done|iSplit; [iPureIntro; split; [lia|f_equal; lia]|done]].
    clear -Hr Hf AL. intros k i. iIntros "[%Hi H]". destruct Hi as [Hi ->]. iApply wp_ret.
    unfold int_range in Hr. destruct (Z.ltb_spec i size) as [Hlt|Hge].
    + iExists (Z.to_nat (size - (i + 1))). iSplit; [iPureIntro; lia|].
      iApply (wp_wand with "[H]"); [iApply main_round_wp; [lia|lia|done]|].
      iIntros (i') "[-> H]". iSplit; [iPureIntro; lia|done].
    + by replace i with (Z.max 0 size) by lia.
  - iIntros (_) "H". iApply wp_ret. by iExists l.
Qed.
End contracts.
End Iter.
