(* ===== verification/Composite.v ===== *)
(** * Trees with counts: [benchmarks/slmc/programs/composite4.c]

    Binary trees whose nodes know their parent and the number of nodes below
    them.  A client holds one node, the focus; adding a child updates the counts
    of all ancestors.  As in the annotations a tree in memory is a subtree at
    the focus inside a context. *)

From iris.proofmode Require Import proofmode.
From S2P Require Import Prelude CHeap HeapLogic.

Module Composite.

(** ** The struct *)

Record node := mkNode {
  left : option Z; right : option Z; parent : option Z; count : option Z }.

#[global] Instance node_struct : Struct node node.
Proof. by refine {| obj n := n; as_struct n := Some n |}. Defined.

Definition f_left : field node Z :=
  Field left (λ x n, mkNode (Some x) (right n) (parent n) (count n)).
Definition f_right : field node Z :=
  Field right (λ x n, mkNode (left n) (Some x) (parent n) (count n)).
Definition f_parent : field node Z :=
  Field parent (λ x n, mkNode (left n) (right n) (Some x) (count n)).
Definition f_count : field node Z :=
  Field count (λ x n, mkNode (left n) (right n) (parent n) (Some x)).

(** ** Functions *)

Section functions.
Context {A : Allocator node} {Rn : Rand}.

Definition create_node (p : Z) : M (mem node) Z :=
  n ← malloc (mkNode None None None None);
  abort_if (n =? 0)%Z ;;
  store f_left n 0%Z ;;
  store f_right n 0%Z ;;
  store f_parent n p ;;
  store f_count n 1%Z ;;
  mret n.

Definition create_tree : M (mem node) Z :=
  n ← create_node 0;
  mret n.

Definition subtree_get_count (nd : Z) : M (mem node) Z :=
  let result := 0%Z in
  result ← (if negb (nd =? 0)%Z then load f_count nd else mret result);
  mret result.

(** [leftCount] and [rightCount] of [fixup_ancestors]. *)
Definition child_counts (n left right cnt : Z) : M (mem node) (Z * Z) :=
  if (n =? left)%Z then
    let leftCount := cnt in
    rightCount ← subtree_get_count right;
    mret (leftCount, rightCount)
  else
    leftCount ← subtree_get_count left;
    let rightCount := cnt in
    mret (leftCount, rightCount).

(** The calls go up the parent pointers; [fuel] bounds their number. *)
Fixpoint fixup_ancestors (fuel : nat) (n p cnt : Z) : M (mem node) unit :=
  if (p =? 0)%Z then mret tt
  else match fuel with
  | O => fail EFuel
  | S fuel =>
    left ← load f_left p;
    right ← load f_right p;
    grandparent ← load f_parent p;
    lr ← child_counts n left right cnt;
    room ← int_sub (2147483647 - 1) lr.1;
    abort_if (room <? lr.2)%Z ;;
    s ← int_add 1 lr.1;
    pcount ← int_add s lr.2;
    store f_count p pcount ;;
    fixup_ancestors fuel p grandparent pcount
  end.

Definition tree_add_left (fuel : nat) (nd : Z) : M (mem node) Z :=
  n ← create_node nd;
  nodeLeft ← load f_left nd;
  store f_left nd n ;;
  fixup_ancestors fuel n nd 1 ;;
  mret n.

Definition tree_add_right (fuel : nat) (nd : Z) : M (mem node) Z :=
  n ← create_node nd;
  nodeRight ← load f_right nd;
  store f_right nd n ;;
  fixup_ancestors fuel n nd 1 ;;
  mret n.

Definition tree_get_parent (nd : Z) : M (mem node) Z :=
  p ← load f_parent nd;
  mret p.

(** The recursion goes down the tree; [fuel] bounds its depth. *)
Fixpoint subtree_dispose (fuel : nat) (nd : Z) : M (mem node) unit :=
  if negb (nd =? 0)%Z then
    match fuel with
    | O => fail EFuel
    | S fuel =>
      left ← load f_left nd;
      subtree_dispose fuel left ;;
      right ← load f_right nd;
      subtree_dispose fuel right ;;
      free nd
    end
  else mret tt.

Definition tree_dispose (fuel : nat) (nd : Z) : M (mem node) unit :=
  subtree_dispose fuel nd.

Definition main0 (fuel : nat) : M (mem node) Z :=
  node ← create_tree;
  node ← tree_add_left fuel node;
  node ← tree_add_right fuel node;
  node ← tree_get_parent node;
  node ← tree_add_left fuel node;
  node ← tree_get_parent node;
  node ← tree_get_parent node;
  tree_dispose fuel node ;;
  mret 0%Z.

Definition verifast_main (fuel : nat) : M (mem node) Z :=
  root ← create_tree;
  left ← tree_add_left fuel root;
  leftRight ← tree_add_right fuel left;
  leftRightParent ← tree_get_parent leftRight;
  leftLeft ← tree_add_left fuel left;
  leftRightRight ← tree_add_right fuel leftRight;
  tree_dispose fuel root ;;
  mret 0%Z.

(** The locals of [main] that its loop assigns. *)
Record locals := mkLocals {
  m_i : Z;
  leftholes : list (option Z);
  rightholes : list (option Z);
  numleftholes : Z;
  numrightholes : Z;
}.

Definition main_body (fuel : nat) (s : locals) : M (mem node) locals :=
  r ← rand;
  let direction := Z.rem r 2 in
  if negb (direction =? 0)%Z then
    r ← rand;
    let j := Z.rem r (numleftholes s) in
    x ← array_get (leftholes s) j;
    n ← tree_add_left fuel x;
    lh ← array_set (leftholes s) j n;
    y ← array_get lh j;
    rh ← array_set (rightholes s) (numrightholes s) y;
    nr ← int_add (numrightholes s) 1;
    i ← int_add (m_i s) 1;
    mret (mkLocals i lh rh (numleftholes s) nr)
  else
    r ← rand;
    let j := Z.rem r (numrightholes s) in
    x ← array_get (rightholes s) j;
    n ← tree_add_right fuel x;
    rh ← array_set (rightholes s) j n;
    y ← array_get rh j;
    lh ← array_set (leftholes s) (numleftholes s) y;
    nl ← int_add (numleftholes s) 1;
    i ← int_add (m_i s) 1;
    mret (mkLocals i lh rh nl (numrightholes s)).

Definition main (fuel : nat) (argv : list string) : M (mem node) unit :=
  a1 ← arg argv 1;
  numnodes ← atoi a1;
  a2 ← arg argv 2;
  seed ← atoi a2;
  let i := 1%Z in
  root ← create_tree;
  lh ← new_array numnodes;
  rh ← new_array numnodes;
  lh ← array_set lh 0 root;
  rh ← array_set rh 0 root;
  s ← while fuel (λ s, mret (m_i s <? numnodes)%Z) (main_body fuel)
        (mkLocals i lh rh 1 1);
  tree_dispose fuel root.
End functions.

(** ** Trees, contexts and paths *)

Inductive tree := empty | node_of (n : Z) (l r : tree).

Fixpoint tcount (nodes : tree) : Z :=
  match nodes with
  | empty => 0
  | node_of _ l r => 1 + tcount l + tcount r
  end.

Inductive context :=
| root
| left_context (pns : context) (p : Z) (r : tree)
| right_context (pns : context) (p : Z) (l : tree).

Fixpoint combine (c : context) (t : tree) : tree :=
  match c with
  | root => t
  | left_context pns p r => combine pns (node_of p t r)
  | right_context pns p l => combine pns (node_of p l t)
  end.

Inductive path := here | go_left (p : path) | go_right (p : path).

Fixpoint contains_at_path (nodes : tree) (p : path) (n : Z) : bool :=
  match nodes, p with
  | empty, _ => false
  | node_of rootNode _ _, here => (n =? rootNode)%Z
  | node_of _ l _, go_left p => contains_at_path l p n
  | node_of _ _ r, go_right p => contains_at_path r p n
  end.

Fixpoint combine_path (c : context) (p : path) : path :=
  match c with
  | root => p
  | left_context pns _ _ => combine_path pns (go_left p)
  | right_context pns _ _ => combine_path pns (go_right p)
  end.

Fixpoint get_context_nodes_at_path (c : context) (t : tree) (p : path) : context :=
  match p, t with
  | here, _ => c
  | _, empty => c
  | go_left p, node_of n l r => get_context_nodes_at_path (left_context c n r) l p
  | go_right p, node_of n l r => get_context_nodes_at_path (right_context c n l) r p
  end.

Fixpoint get_subtree_nodes_at_path (t : tree) (p : path) : tree :=
  match t, p with
  | empty, _ => empty
  | node_of _ _ _, here => t
  | node_of _ l _, go_left p => get_subtree_nodes_at_path l p
  | node_of _ _ r, go_right p => get_subtree_nodes_at_path r p
  end.

(** The count of the whole tree, from that of the focus. *)
Fixpoint total (c : context) (cnt : Z) : Z :=
  match c with
  | root => cnt
  | left_context pns _ r => total pns (1 + cnt + tcount r)
  | right_context pns _ l => total pns (1 + tcount l + cnt)
  end.

(** Bounds for the recursions: the depth of a tree, the length of a context. *)
Fixpoint depth (t : tree) : nat :=
  match t with empty => 0 | node_of _ l r => S (depth l `max` depth r) end.

Fixpoint height (c : context) : nat :=
  match c with
  | root => 0
  | left_context pns _ _ | right_context pns _ _ => S (height pns)
  end.

Lemma tcount_nonnegative t : (0 ≤ tcount t)%Z.
Proof. induction t; simpl; lia. Qed.

Lemma total_combine c t : total c (tcount t) = tcount (combine c t).
Proof.
  revert t. induction c as [|c IH p r|c IH p l]; intros t; simpl; [done|..];
    apply (IH (node_of _ _ _)).
Qed.

Lemma total_ge c n : (0 ≤ n)%Z → (n ≤ total c n)%Z.
Proof.
  revert n. induction c as [|c IH p r|c IH p l]; intros n Hn; simpl; [lia|..].
  - pose proof (tcount_nonnegative r). specialize (IH (1 + n + tcount r)%Z). lia.
  - pose proof (tcount_nonnegative l). specialize (IH (1 + tcount l + n)%Z). lia.
Qed.

Lemma total_add c a b : total c (a + b) = (total c a + b)%Z.
Proof.
  revert a. induction c as [|c IH p r|c IH p l]; intros a; simpl; [done|..].
  - by replace (1 + (a + b) + tcount r)%Z with (1 + a + tcount r + b)%Z by lia.
  - by replace (1 + tcount l + (a + b))%Z with (1 + tcount l + a + b)%Z by lia.
Qed.

Lemma height_total c n : (0 ≤ n)%Z → (Z.of_nat (height c) + n ≤ total c n)%Z.
Proof.
  revert n. induction c as [|c IH p r|c IH p l]; intros n Hn; simpl; [lia|..].
  - pose proof (tcount_nonnegative r). specialize (IH (1 + n + tcount r)%Z). lia.
  - pose proof (tcount_nonnegative l). specialize (IH (1 + tcount l + n)%Z). lia.
Qed.

Lemma depth_tcount t : (Z.of_nat (depth t) ≤ tcount t)%Z.
Proof.
  induction t as [|n l IHl r IHr]; simpl; [done|].
  pose proof (tcount_nonnegative l). pose proof (tcount_nonnegative r). lia.
Qed.

(** The address of the root of a tree. *)
Definition addr (t : tree) : Z := match t with empty => 0 | node_of n _ _ => n end.

Lemma addr_combine c t t' :
  addr t = addr t' → addr (combine c t) = addr (combine c t').
Proof.
  revert t t'. induction c as [|c IH p r|c IH p l]; intros t t' Ht; simpl; [done|..]; by apply IH.
Qed.

(** *** Free places *)

(** Nodes without a left child, without a right child. *)
Fixpoint lholes (t : tree) : list Z :=
  match t with
  | empty => []
  | node_of n l r => match l with empty => [n] | _ => [] end ++ lholes l ++ lholes r
  end.

Fixpoint rholes (t : tree) : list Z :=
  match t with
  | empty => []
  | node_of n l r => match r with empty => [n] | _ => [] end ++ rholes l ++ rholes r
  end.

(** The same in a context around a nonempty tree. *)
Fixpoint clholes (c : context) : list Z :=
  match c with
  | root => []
  | left_context pns p r => lholes r ++ clholes pns
  | right_context pns p l => match l with empty => [p] | _ => [] end ++ lholes l ++ clholes pns
  end.

Fixpoint crholes (c : context) : list Z :=
  match c with
  | root => []
  | left_context pns p r => match r with empty => [p] | _ => [] end ++ rholes r ++ crholes pns
  | right_context pns p l => rholes l ++ crholes pns
  end.

Lemma lholes_combine c t : t ≠ empty → lholes (combine c t) ≡ₚ lholes t ++ clholes c.
Proof.
  revert t. induction c as [|c IH p r|c IH p l]; intros t Ht; simpl; [by rw app_nil_r|..].
  - rw IH //. simpl. destruct t; [done|]. simpl. by rw -!app_assoc.
  - rw IH //. simpl. solve_Permutation.
Qed.

Lemma rholes_combine c t : t ≠ empty → rholes (combine c t) ≡ₚ rholes t ++ crholes c.
Proof.
  revert t. induction c as [|c IH p r|c IH p l]; intros t Ht; simpl; [by rw app_nil_r|..].
  - rw IH //. simpl. solve_Permutation.
  - rw IH //. simpl. destruct t; [done|]. solve_Permutation.
Qed.

(** A free place is a focus. *)
Lemma lhole_focus c0 t x :
  x ∈ lholes t → ∃ c r, combine c0 t = combine c (node_of x empty r).
Proof.
  revert c0. induction t as [|n l IHl r IHr]; intros c0; simpl; [by intros ?%elem_of_nil|].
  rw !elem_of_app. intros [Hx|[Hx|Hx]].
  - destruct l; [|by apply elem_of_nil in Hx]. apply list_elem_of_singleton in Hx as ->.
    by exists c0, r.
  - by apply (IHl (left_context c0 n r)).
  - by apply (IHr (right_context c0 n l)).
Qed.

Lemma rhole_focus c0 t x :
  x ∈ rholes t → ∃ c l, combine c0 t = combine c (node_of x l empty).
Proof.
  revert c0. induction t as [|n l IHl r IHr]; intros c0; simpl; [by intros ?%elem_of_nil|].
  rw !elem_of_app. intros [Hx|[Hx|Hx]].
  - destruct r; [|by apply elem_of_nil in Hx]. apply list_elem_of_singleton in Hx as ->.
    by exists c0, l.
  - by apply (IHl (left_context c0 n r)).
  - by apply (IHr (right_context c0 n l)).
Qed.

(** ** Predicates *)

(** [subtree(root, parent, t)]; the count is an [int]. *)
Fixpoint subtree (rt par : Z) (t : tree) : hPropI node :=
  match t with
  | empty => ⌜rt = 0%Z⌝ ∧ emp
  | node_of rt0 l r => ⌜rt = rt0 ∧ (tcount t ≤ INT_MAX)%Z⌝ ∧ ∃ xl xr,
      rt ↦ mkNode (Some xl) (Some xr) (Some par) (Some (tcount t)) ∗
      subtree xl rt l ∗ subtree xr rt r
  end%I.

(** [context(node, parent, count, c)] *)
Fixpoint context_at (nd par cnt : Z) (c : context) : hPropI node :=
  match c with
  | root => ⌜par = 0%Z⌝ ∧ emp
  | left_context pns p r => ⌜par = p⌝ ∧ ∃ xr gp pcount,
      ⌜pcount = (1 + cnt + tcount r)%Z ∧ (pcount ≤ INT_MAX)%Z⌝ ∧
      par ↦ mkNode (Some nd) (Some xr) (Some gp) (Some pcount) ∗
      context_at par gp pcount pns ∗ subtree xr par r
  | right_context pns p l => ⌜par = p⌝ ∧ ∃ xl gp pcount,
      ⌜pcount = (1 + tcount l + cnt)%Z ∧ (pcount ≤ INT_MAX)%Z⌝ ∧
      par ↦ mkNode (Some xl) (Some nd) (Some gp) (Some pcount) ∗
      context_at par gp pcount pns ∗ subtree xl par l
  end%I.

(** [tree(node, c, t)] *)
Definition tree_at (nd : Z) (c : context) (t : tree) : hPropI node :=
  (∃ par, context_at nd par (tcount t) c ∗ subtree nd par t)%I.

(** ** Contracts *)

Section contracts.
Context {A : Allocator node} {AL : AllocatorLaws A} {Rn : Rand}.

Lemma subtree_empty par : ⊢ subtree 0 par empty.
Proof. by iSplit. Qed.

Lemma subtree_leaf n par :
  n ↦ mkNode (Some 0%Z) (Some 0%Z) (Some par) (Some 1%Z) ⊢ subtree n par (node_of n empty empty).
Proof.
  iIntros "Hn". iSplit; [done|]. iExists 0%Z, 0%Z. iFrame.
  iSplitL; iApply (subtree_empty n).
Qed.

Lemma create_node_wp p : ⊢ wp oom (create_node p) (λ n, subtree n p (node_of n empty empty)).
Proof.
  iIntros. iApply wp_malloc_check; [done|]. iIntros (n) "Hn".
  wp_write "Hn". wp_write "Hn". wp_write "Hn". wp_write "Hn". iApply wp_ret.
  by iApply subtree_leaf.
Qed.

Lemma create_tree_wp : ⊢ wp oom create_tree (λ n, tree_at n root (node_of n empty empty)).
Proof.
  iIntros. iApply wp_bind. iApply (wp_wand with "[]"); [by iApply create_node_wp|].
  iIntros (n) "Hn". iApply wp_ret. iExists 0%Z. iFrame. by iSplit.
Qed.

Lemma subtree_get_count_wp nd par t :
  subtree nd par t ⊢ wp False (subtree_get_count nd)
    (λ r, ⌜r = tcount t ∧ (0 ≤ r ≤ INT_MAX)%Z⌝ ∧ subtree nd par t).
Proof.
  pose proof (tcount_nonnegative t) as Hnn. iIntros "H". iApply wp_bind.
  destruct t as [|n l r].
  - iDestruct "H" as "[-> H]". iApply wp_ret. iApply wp_ret. iSplit; [done|]. by iSplit.
  - iDestruct "H" as "(%Hn & %xl & %xr & Hn & Hl & Hr)". destruct Hn as [-> Hmax].
    iDestruct (pointsto_nonnull with "Hn") as %Hn. rw (proj2 (Z.eqb_neq n 0) Hn) /=.
    iApply (wp_load with "Hn"); [done|]. iIntros "Hn". iApply wp_ret. iSplit; [done|].
    iSplit; [done|]. iExists xl, xr. iFrame.
Qed.

Lemma child_counts_left n xr cnt par r :
  subtree xr par r ⊢ wp False (child_counts n n xr cnt)
    (λ lr, ⌜lr = (cnt, tcount r) ∧ (0 ≤ tcount r ≤ INT_MAX)%Z⌝ ∧ subtree xr par r).
Proof.
  unfold child_counts. rw Z.eqb_refl. iIntros "H".
  iApply (wp_call (subtree_get_count_wp xr par r) with "H"); [done|].
  iIntros (c) "[%Hc H]". destruct Hc as [-> Hc]. iApply wp_ret. by iSplit.
Qed.

(** On the right the branch depends on the left pointer; the sum does not. *)
Lemma child_counts_right n xl cnt par l :
  subtree xl par l ⊢ wp False (child_counts n xl n cnt)
    (λ lr, ⌜(lr = (cnt, tcount l) ∨ lr = (tcount l, cnt)) ∧ (0 ≤ tcount l ≤ INT_MAX)%Z⌝ ∧
       subtree xl par l).
Proof.
  unfold child_counts. iIntros "H". destruct (Z.eqb_spec n xl) as [->|Hne].
  - iApply (wp_call (subtree_get_count_wp xl par l) with "H"); [done|].
    iIntros (c) "[%Hc H]". destruct Hc as [-> Hc]. iApply wp_ret. iSplit; [|done].
    iPureIntro. auto.
  - iApply (wp_call (subtree_get_count_wp xl par l) with "H"); [done|].
    iIntros (c) "[%Hc H]". destruct Hc as [-> Hc]. iApply wp_ret. iSplit; [|done].
    iPureIntro. auto.
Qed.

(** The rest of one call, once the counts of the children are known. *)
Definition fixup_rest (fuel : nat) (p gp : Z) (lr : Z * Z) : M (mem node) unit :=
  room ← int_sub (2147483647 - 1) lr.1;
  abort_if (room <? lr.2)%Z ;;
  s ← int_add 1 lr.1;
  pcount ← int_add s lr.2;
  store f_count p pcount ;;
  fixup_ancestors fuel p gp pcount.

Lemma fixup_rest_wp (E : Prop) fuel p nd gp (a b : Z) Φ :
  (0 ≤ a ≤ INT_MAX)%Z → (0 ≤ b ≤ INT_MAX)%Z → ((INT_MAX < 1 + a + b)%Z → E) →
  p ↦ nd -∗
  (⌜(1 + a + b ≤ INT_MAX)%Z⌝ → p ↦ fset f_count (1 + a + b)%Z nd -∗
     wp E (fixup_ancestors fuel p gp (1 + a + b)) Φ) -∗
  wp E (fixup_rest fuel p gp (a, b)) Φ.
Proof.
  intros Ha Hb HE. iIntros "Hp H". unfold fixup_rest, INT_MAX in *. simpl fst; simpl snd.
  iApply wp_bind. iApply wp_int_sub; [unfold int_range, INT_MIN, INT_MAX; lia|].
  iApply wp_bind. unfold abort_if. destruct (Z.ltb_spec (2147483647 - 1 - a) b) as [Hlt|Hge].
  { iApply wp_abort; [apply HE; lia|done]. }
  iApply wp_ret. iApply wp_bind. iApply wp_int_add; [unfold int_range, INT_MIN, INT_MAX; lia|].
  iApply wp_bind. iApply wp_int_add; [unfold int_range, INT_MIN, INT_MAX; lia|].
  iApply wp_bind. iApply (wp_store with "Hp"). iIntros "Hp". iApply ("H" with "[] Hp").
  iPureIntro. lia.
Qed.

Lemma fixup_ancestors_wp fuel n p old cnt c :
  height c ≤ fuel → (0 ≤ cnt ≤ INT_MAX)%Z →
  context_at n p old c ⊢
  wp (INT_MAX < total c cnt)%Z (fixup_ancestors fuel n p cnt) (λ _, context_at n p cnt c).
Proof.
  revert fuel n p old cnt. induction c as [|c IH q r|c IH q l]; intros fuel n p old cnt Hf Hc.
  - iIntros "[-> H]". destruct fuel; iApply wp_ret; by iSplit.
  - iIntros "(-> & %xr & %gp & %pcount & %Hp & Hq & Hctx & Hr)". destruct fuel as [|fuel].
    { simpl in Hf. lia. }
    iDestruct (pointsto_nonnull with "Hq") as %Hq. cbn [fixup_ancestors].
    rw (proj2 (Z.eqb_neq q 0) Hq). wp_read "Hq". wp_read "Hq". wp_read "Hq".
    iApply (wp_call (child_counts_left n xr cnt q r) with "Hr"); [done|].
    iIntros (lr) "[%Hlr Hr]". destruct Hlr as [-> Hr].
    iApply (fixup_rest_wp _ fuel q _ gp cnt (tcount r) with "Hq"); [done|done| |].
    { intros ?. pose proof (total_ge c (1 + cnt + tcount r)). simpl. lia. }
    iIntros (Hmax) "Hq". iApply (wp_wand with "[Hctx]").
    { simpl total. iApply (IH with "Hctx"); [simpl in Hf; lia|lia]. }
    iIntros (_) "Hctx". iSplit; [done|]. iExists xr, gp, _. iFrame. done.
  - iIntros "(-> & %xl & %gp & %pcount & %Hp & Hq & Hctx & Hl)". destruct fuel as [|fuel].
    { simpl in Hf. lia. }
    iDestruct (pointsto_nonnull with "Hq") as %Hq. cbn [fixup_ancestors].
    rw (proj2 (Z.eqb_neq q 0) Hq). wp_read "Hq". wp_read "Hq". wp_read "Hq".
    iApply (wp_call (child_counts_right n xl cnt q l) with "Hl"); [done|].
    iIntros (lr) "[%Hlr Hl]". destruct Hlr as [Hlr Hl].
    iAssert (∃ a b, ⌜lr = (a, b) ∧ (0 ≤ a ≤ INT_MAX)%Z ∧ (0 ≤ b ≤ INT_MAX)%Z ∧
      (1 + a + b = 1 + tcount l + cnt)%Z⌝ ∧ emp)%I as (a b Hab) "_".
    { destruct Hlr as [-> | ->]; iExists _, _; (iSplit; [iPureIntro|done]);
        split_and!; done || lia. }
    destruct Hab as (-> & Ha & Hb & Hsum).
    iApply (fixup_rest_wp _ fuel q _ gp a b with "Hq"); [done|done| |].
    { intros ?. pose proof (total_ge c (1 + tcount l + cnt)). simpl. lia. }
    rw Hsum. iIntros (Hmax) "Hq". iApply (wp_wand with "[Hctx]").
    { simpl total. iApply (IH with "Hctx"); [simpl in Hf; lia|lia]. }
    iIntros (_) "Hctx". iSplit; [done|]. iExists xl, gp, _. iFrame. done.
Qed.

(** Why adding a node may stop: no memory, or a count that is not an [int]. *)
Definition add_stops (c : context) : Prop := oom ∨ (INT_MAX < total c 1)%Z.

(** Adding a child: the new leaf becomes the focus. *)
Lemma tree_add_left_wp fuel nd c n0 r :
  S (height c) ≤ fuel →
  tree_at nd c (node_of n0 empty r) ⊢
  wp (add_stops (left_context c nd r)) (tree_add_left fuel nd)
    (λ n, tree_at n (left_context c nd r) (node_of n empty empty)).
Proof.
  intros Hf. iIntros "(%par & Hctx & (%Hn & %xl & %xr & Hn & Hl & Hr))".
  destruct Hn as [<- Hmax]. iDestruct "Hl" as "[-> Hl]".
  iApply (wp_call (emp_of (create_node_wp nd)) with "Hl"); [by left|]. iIntros (n) "Hnew".
  wp_read "Hn". wp_write "Hn".
  iApply (wp_call (fixup_ancestors_wp fuel n nd 0 1 (left_context c nd r) Hf _)
    with "[Hn Hctx Hr]"); [by right| |].
  { iSplit; [done|]. iExists xr, par, _. iFrame. iSplit; [|done]. iPureIntro.
    simpl in *. split; [lia|done]. }
  iIntros (_) "Hctx". iApply wp_ret. iExists nd. iFrame.
  Unshelve. unfold INT_MAX. lia.
Qed.

Lemma tree_add_right_wp fuel nd c n0 l :
  S (height c) ≤ fuel →
  tree_at nd c (node_of n0 l empty) ⊢
  wp (add_stops (right_context c nd l)) (tree_add_right fuel nd)
    (λ n, tree_at n (right_context c nd l) (node_of n empty empty)).
Proof.
  intros Hf. iIntros "(%par & Hctx & (%Hn & %xl & %xr & Hn & Hl & Hr))".
  destruct Hn as [<- Hmax]. iDestruct "Hr" as "[-> Hr]".
  iApply (wp_call (emp_of (create_node_wp nd)) with "Hr"); [by left|]. iIntros (n) "Hnew".
  wp_read "Hn". wp_write "Hn".
  iApply (wp_call (fixup_ancestors_wp fuel n nd 0 1 (right_context c nd l) Hf _)
    with "[Hn Hctx Hl]"); [by right| |].
  { iSplit; [done|]. iExists xl, par, _. iFrame. iSplit; [|done]. iPureIntro.
    simpl in *. split; [lia|done]. }
  iIntros (_) "Hctx". iApply wp_ret. iExists nd. iFrame.
  Unshelve. unfold INT_MAX. lia.
Qed.

(** Closing the focus into its parent. *)
Lemma close_left nd pns p r t : tree_at nd (left_context pns p r) t ⊢ tree_at p pns (node_of p t r).
Proof.
  iIntros "(%par & (-> & %xr & %gp & %pc & %Hpc & Hp & Hctx & Hr) & Ht)".
  destruct Hpc as [-> Hmax]. iExists gp. iFrame "Hctx". iSplit; [done|].
  iExists nd, xr. iFrame.
Qed.

Lemma close_right nd pns p l t :
  tree_at nd (right_context pns p l) t ⊢ tree_at p pns (node_of p l t).
Proof.
  iIntros "(%par & (-> & %xl & %gp & %pc & %Hpc & Hp & Hctx & Hl) & Ht)".
  destruct Hpc as [-> Hmax]. iExists gp. iFrame "Hctx". iSplit; [done|].
  iExists xl, nd. iFrame.
Qed.

(** The tree after the focus moved to its parent. *)
Definition parent_focus (p : Z) (c : context) (t : tree) : hPropI node :=
  match c with
  | root => False
  | left_context pns p0 r => ⌜p = p0⌝ ∧ tree_at p pns (node_of p t r)
  | right_context pns p0 l => ⌜p = p0⌝ ∧ tree_at p pns (node_of p l t)
  end%I.

Lemma tree_get_parent_wp nd c t :
  c ≠ root → t ≠ empty →
  tree_at nd c t ⊢ wp False (tree_get_parent nd) (λ p, parent_focus p c t).
Proof.
  intros Hc Ht. destruct t as [|n l r]; [done|].
  iIntros "(%par & Hctx & (%Hn & %xl & %xr & Hn & Hl & Hr))". destruct Hn as [<- Hmax].
  wp_read "Hn". iApply wp_ret.
  iAssert (tree_at nd c (node_of nd l r) ∧ ⌜c = root ∨ ∃ pns t, c = left_context pns par t ∨
    c = right_context pns par t⌝)%I with "[Hctx Hn Hl Hr]" as "[H %Hpar]".
  { iSplit.
    - iExists par. iFrame "Hctx". iSplit; [done|]. iExists xl, xr. iFrame.
    - destruct c as [|pns p r'|pns p l']; [by iLeft|..].
      + iDestruct "Hctx" as "[-> Hctx]". iPureIntro. eauto.
      + iDestruct "Hctx" as "[-> Hctx]". iPureIntro. eauto. }
  destruct Hpar as [->|(pns & t & [->| ->])]; [done|..]; iSplit; try done.
  - by iApply close_left.
  - by iApply close_right.
Qed.

Lemma subtree_dispose_wp fuel nd par t :
  depth t ≤ fuel → subtree nd par t ⊢ wp False (subtree_dispose fuel nd) (λ _, emp).
Proof.
  revert fuel nd par. induction t as [|n l IHl r IHr]; intros fuel nd par Hf.
  - iIntros "[-> H]". destruct fuel; by iApply wp_ret.
  - iIntros "(%Hn & %xl & %xr & Hn & Hl & Hr)". destruct Hn as [-> Hmax].
    destruct fuel as [|fuel]; [simpl in Hf; lia|]. simpl in Hf.
    iDestruct (pointsto_nonnull with "Hn") as %Hn. cbn [subtree_dispose].
    rw (proj2 (Z.eqb_neq n 0) Hn) /=. wp_read "Hn".
    iApply wp_bind. iApply (wp_wand with "[Hl]"); [iApply (IHl with "Hl"); lia|].
    iIntros (_) "_". wp_read "Hn".
    iApply wp_bind. iApply (wp_wand with "[Hr]"); [iApply (IHr with "Hr"); lia|].
    iIntros (_) "_". by iApply (wp_free with "Hn").
Qed.

Lemma tree_dispose_wp fuel nd t :
  depth t ≤ fuel → tree_at nd root t ⊢ wp False (tree_dispose fuel nd) (λ _, emp).
Proof.
  intros Hf. iIntros "(%par & [_ Hc] & Ht)".
  iApply (wp_wand with "[Ht]"); [by iApply subtree_dispose_wp|]. by iIntros (_) "_".
Qed.

(** ** Moving the focus *)

Lemma subtree_addr nd par t : subtree nd par t ⊢ ⌜nd = addr t⌝.
Proof.
  destruct t; simpl.
  - iIntros "[-> _]". by iPureIntro.
  - iIntros "[%Hn _]". iPureIntro. by destruct Hn.
Qed.

Lemma go_to_root nd c t : tree_at nd c t ⊢ ∃ rt, tree_at rt root (combine c t).
Proof.
  revert nd t. induction c as [|c IH p r|c IH p l]; intros nd t; simpl.
  - iIntros "H". by iExists nd.
  - rw close_left. apply IH.
  - rw close_right. apply IH.
Qed.

(** Opening a child of the focus. *)
Lemma open_left nd c n l r : tree_at nd c (node_of n l r) ⊢ tree_at (addr l) (left_context c nd r) l.
Proof.
  iIntros "(%par & Hctx & (%Hn & %xl & %xr & Hn & Hl & Hr))". destruct Hn as [<- Hmax].
  iDestruct (subtree_addr with "Hl") as %->. iExists nd. iFrame "Hl". iSplit; [done|].
  iExists xr, par, _. iFrame. done.
Qed.

Lemma open_right nd c n l r :
  tree_at nd c (node_of n l r) ⊢ tree_at (addr r) (right_context c nd l) r.
Proof.
  iIntros "(%par & Hctx & (%Hn & %xl & %xr & Hn & Hl & Hr))". destruct Hn as [<- Hmax].
  iDestruct (subtree_addr with "Hr") as %->. iExists nd. iFrame "Hr". iSplit; [done|].
  iExists xl, par, _. iFrame. done.
Qed.

Lemma tree_addr nd c t : tree_at nd c t ⊢ ⌜nd = addr t⌝.
Proof.
  iIntros "(%par & _ & H)". by iDestruct (subtree_addr with "H") as %->.
Qed.

Lemma go_to_descendant nd c t p n :
  contains_at_path t p n = true →
  tree_at nd c t ⊢
  tree_at n (get_context_nodes_at_path c t p) (get_subtree_nodes_at_path t p).
Proof.
  revert nd c t. induction p as [|p IH|p IH]; intros nd c [|m l r] Hp; simpl in *; try done.
  - apply Z.eqb_eq in Hp as ->. iIntros "H". by iDestruct (tree_addr with "H") as %->.
  - iIntros "H". iDestruct (tree_addr with "H") as %->. rw open_left. by iApply IH.
  - iIntros "H". iDestruct (tree_addr with "H") as %->. rw open_right. by iApply IH.
Qed.

Lemma change_focus nd c t p n :
  contains_at_path (combine c t) p n = true →
  tree_at nd c t ⊢
  tree_at n (get_context_nodes_at_path root (combine c t) p)
    (get_subtree_nodes_at_path (combine c t) p).
Proof.
  intros Hp. rw go_to_root. iIntros "(%rt & H)". by iApply (go_to_descendant with "H").
Qed.

(** A focus is what its context and subtree determine. *)
Lemma focus c nd t : t ≠ empty → tree_at nd root (combine c t) ⊢ tree_at (addr t) c t.
Proof.
  revert t. induction c as [|c IH p r|c IH p l]; intros t Ht; simpl.
  - destruct t as [|n l r]; [done|]. iIntros "H". by iDestruct (tree_addr with "H") as %->.
  - rw IH; [|done]. apply open_left.
  - rw IH; [|done]. apply open_right.
Qed.

(** ** The test programs *)

Lemma small_stops c : (total c 1 ≤ INT_MAX)%Z → add_stops c → oom.
Proof. intros Ht [?|?]; [done|lia]. Qed.

Lemma composite_main0_wp fuel : 3 ≤ fuel → ⊢ wp oom (main0 fuel) (λ r, ⌜r = 0%Z⌝ ∧ emp).
Proof.
  intros Hf. iIntros. iApply (wp_call (emp_of create_tree_wp)); [done|done|]. iIntros (a) "H".
  iApply (wp_call (tree_add_left_wp fuel _ _ _ _ _) with "H");
    [by apply small_stops|]. iIntros (b) "H".
  iApply (wp_call (tree_add_right_wp fuel _ _ _ _ _) with "H");
    [by apply small_stops|]. iIntros (d) "H".
  iApply (wp_call (tree_get_parent_wp _ _ _ _ _) with "H"); [done|].
  iIntros (p) "[-> H]".
  iApply (wp_call (tree_add_left_wp fuel _ _ _ _ _) with "H");
    [by apply small_stops|]. iIntros (e) "H".
  iApply (wp_call (tree_get_parent_wp _ _ _ _ _) with "H"); [done|].
  iIntros (p) "[-> H]".
  iApply (wp_call (tree_get_parent_wp _ _ _ _ _) with "H"); [done|].
  iIntros (p) "[-> H]".
  iApply (wp_call (tree_dispose_wp fuel _ _ _) with "H"); [done|]. iIntros (_) "_".
  iApply wp_ret. by iSplit.
  Unshelve. all: simpl; try done; lia.
Qed.

Lemma verifast_main_wp fuel : 4 ≤ fuel → ⊢ wp oom (verifast_main fuel) (λ r, ⌜r = 0%Z⌝ ∧ emp).
Proof.
  intros Hf. iIntros. iApply (wp_call (emp_of create_tree_wp)); [done|done|]. iIntros (a) "H".
  iApply (wp_call (tree_add_left_wp fuel _ _ _ _ _) with "H");
    [by apply small_stops|]. iIntros (b) "H".
  iApply (wp_call (tree_add_right_wp fuel _ _ _ _ _) with "H");
    [by apply small_stops|]. iIntros (d) "H".
  iApply (wp_call (tree_get_parent_wp _ _ _ _ _) with "H"); [done|].
  iIntros (p) "[-> H]".
  iApply (wp_call (tree_add_left_wp fuel _ _ _ _ _) with "H");
    [by apply small_stops|]. iIntros (e) "H".
  rw (change_focus _ _ _ (go_left (go_right here)) d); [|simpl; apply Z.eqb_refl].
  iApply (wp_call (tree_add_right_wp fuel _ _ _ _ _) with "H");
    [by apply small_stops|]. iIntros (f) "H".
  rw (change_focus _ _ _ here a); [|simpl; apply Z.eqb_refl].
  iApply (wp_call (tree_dispose_wp fuel _ _ _) with "H"); [done|]. iIntros (_) "_".
  iApply wp_ret. by iSplit.
  Unshelve. all: simpl; try done; lia.
Qed.

(** ** The driver *)

Context {RL : RandLaws Rn}.

(** The first elements of an array of length [N]. *)
Definition holds (a : list (option Z)) (xs : list Z) (N : nat) : Prop :=
  length a = N ∧ ∃ rest, a = (Some <$> xs) ++ rest.

Lemma holds_get a xs N j : holds a xs N → j < length xs → ∃ x, xs !! j = Some x ∧ a !! j = Some (Some x).
Proof.
  intros [_ [rest ->]] Hj. destruct (lookup_lt_is_Some_2 xs j Hj) as [x Hx].
  exists x. split; [done|]. apply lookup_app_l_Some. by rw list_lookup_fmap Hx.
Qed.

Lemma holds_set a xs N j n :
  holds a xs N → j < length xs → holds (<[j := Some n]> a) (<[j := n]> xs) N.
Proof.
  intros [<- [rest ->]] Hj. split; [by rw length_insert|]. exists rest.
  rw insert_app_l; [|by rw length_fmap]. by rw list_fmap_insert.
Qed.

Lemma holds_push a xs N n :
  holds a xs N → length xs < N → holds (<[length xs := Some n]> a) (xs ++ [n]) N.
Proof.
  intros [<- [rest ->]] Hlt. split; [by rw length_insert|].
  rw length_app length_fmap in Hlt. destruct rest as [|y rest]; [simpl in Hlt; lia|].
  exists rest. rw insert_app_r_alt; [|by rw length_fmap].
  by rw length_fmap Nat.sub_diag /= fmap_app -app_assoc.
Qed.

(** Replacing one element of a list that lists [x] and [hs]. *)
Lemma insert_perm (xs hs : list Z) j x n :
  xs !! j = Some x → xs ≡ₚ x :: hs → <[j := n]> xs ≡ₚ n :: hs.
Proof.
  intros Hj Hp. pose proof (delete_Permutation xs j x Hj) as Hd.
  assert (delete j xs ≡ₚ hs) as <- by (apply (Permutation_cons_inv (a := x)); by rw -Hd).
  rw (delete_take_drop xs j) insert_take_drop; [|by eapply lookup_lt_Some].
  by rw Permutation_middle.
Qed.

(** The loop of [main]: the tree has [i] nodes, the arrays list its holes. *)
Record main_ok (rt : Z) (N : nat) (T : tree) (s : locals) (xs ys : list Z) : Prop := {
  mo_count : tcount T = m_i s;
  mo_range : (1 ≤ m_i s ≤ Z.of_nat N)%Z;
  mo_root : addr T = rt;
  mo_left : holds (leftholes s) xs N;
  mo_right : holds (rightholes s) ys N;
  mo_nleft : numleftholes s = Z.of_nat (length xs);
  mo_nright : numrightholes s = Z.of_nat (length ys);
  mo_lperm : xs ≡ₚ lholes T;
  mo_rperm : ys ≡ₚ rholes T;
  mo_lsize : 1 ≤ length xs ≤ Z.to_nat (m_i s);
  mo_rsize : 1 ≤ length ys ≤ Z.to_nat (m_i s);
}.

Lemma rem_pick z n : (0 ≤ z)%Z → 1 ≤ n →
  (0 ≤ Z.rem z (Z.of_nat n))%Z ∧ Z.to_nat (Z.rem z (Z.of_nat n)) < n.
Proof. intros Hz Hn. pose proof (Z.rem_bound_pos z (Z.of_nat n)). lia. Qed.

(** Adding a left child at a hole of the tree. *)
Lemma add_left_at fuel rt T x N :
  tcount T = Z.of_nat N → S N ≤ fuel → (Z.of_nat (S N) ≤ INT_MAX)%Z → x ∈ lholes T →
  tree_at rt root T ⊢ wp oom (tree_add_left fuel x) (λ n, ∃ T' hs,
    ⌜tcount T' = Z.of_nat (S N) ∧ addr T' = addr T ∧ lholes T ≡ₚ x :: hs ∧
     lholes T' ≡ₚ n :: hs ∧ rholes T' ≡ₚ n :: rholes T⌝ ∧ tree_at (addr T') root T').
Proof.
  intros HN Hf Hmax Hx. destruct (lhole_focus root T x Hx) as (c & r & HT). simpl in HT.
  subst T. rw focus //. iIntros "H".
  pose proof (height_total c (1 + tcount r)) as Hh. pose proof (tcount_nonnegative r).
  assert (total c (1 + tcount r) = Z.of_nat N) as HN'.
  { rw -HN -total_combine. by cbn [tcount]. }
  assert (total c (1 + 1 + tcount r) = Z.of_nat (S N)) as HS.
  { replace (1 + 1 + tcount r)%Z with (1 + tcount r + 1)%Z by lia. rw total_add. lia. }
  iApply (wp_call_last (tree_add_left_wp fuel x c x r _) with "H").
  { intros [?|Ht]; [done|]. cbn [total] in Ht. lia. }
  iIntros (n) "H". rw go_to_root. iDestruct "H" as (rt') "H". cbn [combine].
  iDestruct (tree_addr with "H") as %->.
  iExists _, (lholes r ++ clholes c). iFrame "H". iSplit; [iPureIntro|done]. split_and!.
  - rw -total_combine. cbn [tcount]. by rw Z.add_0_r.
  - by apply addr_combine.
  - rw lholes_combine //.
  - rw lholes_combine //.
  - rw !rholes_combine //. simpl. solve_Permutation.
  Unshelve. lia.
Qed.

Lemma add_right_at fuel rt T x N :
  tcount T = Z.of_nat N → S N ≤ fuel → (Z.of_nat (S N) ≤ INT_MAX)%Z → x ∈ rholes T →
  tree_at rt root T ⊢ wp oom (tree_add_right fuel x) (λ n, ∃ T' hs,
    ⌜tcount T' = Z.of_nat (S N) ∧ addr T' = addr T ∧ rholes T ≡ₚ x :: hs ∧
     rholes T' ≡ₚ n :: hs ∧ lholes T' ≡ₚ n :: lholes T⌝ ∧ tree_at (addr T') root T').
Proof.
  intros HN Hf Hmax Hx. destruct (rhole_focus root T x Hx) as (c & l & HT). simpl in HT.
  subst T. rw focus //. iIntros "H".
  pose proof (height_total c (1 + tcount l)) as Hh. pose proof (tcount_nonnegative l).
  assert (total c (1 + tcount l) = Z.of_nat N) as HN'.
  { rw -HN -total_combine. cbn [tcount]. by rw Z.add_0_r. }
  assert (total c (1 + tcount l + 1) = Z.of_nat (S N)) as HS.
  { rw total_add. lia. }
  iApply (wp_call_last (tree_add_right_wp fuel x c x l _) with "H").
  { intros [?|Ht]; [done|]. cbn [total] in Ht. lia. }
  iIntros (n) "H". rw go_to_root. iDestruct "H" as (rt') "H". cbn [combine].
  iDestruct (tree_addr with "H") as %->.
  iExists _, (rholes l ++ crholes c). iFrame "H". iSplit; [iPureIntro|done]. split_and!.
  - rw -total_combine. cbn [tcount]. by rw !Z.add_0_r.
  - by apply addr_combine.
  - rw rholes_combine //. simpl. solve_Permutation.
  - rw rholes_combine //. simpl. solve_Permutation.
  - rw !lholes_combine //. simpl. solve_Permutation.
  Unshelve. lia.
Qed.

(** The state after a round that filled a left place. *)
Lemma main_ok_left rt N T T' s xs ys j x n hs :
  main_ok rt N T s xs ys → (m_i s < Z.of_nat N)%Z → xs !! j = Some x →
  tcount T' = (m_i s + 1)%Z → addr T' = addr T → lholes T ≡ₚ x :: hs →
  lholes T' ≡ₚ n :: hs → rholes T' ≡ₚ n :: rholes T →
  main_ok rt N T' (mkLocals (m_i s + 1) (<[j := Some n]> (leftholes s))
    (<[length ys := Some n]> (rightholes s)) (numleftholes s) (numrightholes s + 1))
    (<[j := n]> xs) (ys ++ [n]).
Proof.
  intros [Hc Hr Hrt Hl Hrr Hnl Hnr Hlp Hrp Hls Hrs] Hlt Hj Hc' Ha Hx Hn Hn'.
  pose proof (lookup_lt_Some _ _ _ Hj).
  split; cbn [m_i leftholes rightholes numleftholes numrightholes];
    rw ?length_insert ?length_app; cbn [length].
  - done.
  - lia.
  - by rw Ha.
  - by apply holds_set.
  - apply holds_push; [done|lia].
  - done.
  - lia.
  - rw Hn. eapply insert_perm; [done|]. by rw Hlp.
  - rw Hn' -Hrp. solve_Permutation.
  - lia.
  - lia.
Qed.

Lemma main_ok_right rt N T T' s xs ys j x n hs :
  main_ok rt N T s xs ys → (m_i s < Z.of_nat N)%Z → ys !! j = Some x →
  tcount T' = (m_i s + 1)%Z → addr T' = addr T → rholes T ≡ₚ x :: hs →
  rholes T' ≡ₚ n :: hs → lholes T' ≡ₚ n :: lholes T →
  main_ok rt N T' (mkLocals (m_i s + 1) (<[length xs := Some n]> (leftholes s))
    (<[j := Some n]> (rightholes s)) (numleftholes s + 1) (numrightholes s))
    (xs ++ [n]) (<[j := n]> ys).
Proof.
  intros [Hc Hr Hrt Hl Hrr Hnl Hnr Hlp Hrp Hls Hrs] Hlt Hj Hc' Ha Hx Hn Hn'.
  pose proof (lookup_lt_Some _ _ _ Hj).
  split; cbn [m_i leftholes rightholes numleftholes numrightholes];
    rw ?length_insert ?length_app; cbn [length].
  - done.
  - lia.
  - by rw Ha.
  - apply holds_push; [done|lia].
  - by apply holds_set.
  - lia.
  - done.
  - rw Hn' -Hlp. solve_Permutation.
  - rw Hn. eapply insert_perm; [done|]. by rw Hrp.
  - lia.
  - lia.
Qed.

Definition main_post (rt : Z) (N : nat) (i : Z) (s : locals) : hPropI node :=
  (∃ T xs ys, ⌜main_ok rt N T s xs ys ∧ m_i s = i⌝ ∧ tree_at rt root T)%I.

Lemma main_body_wp fuel rt N s :
  (m_i s < Z.of_nat N)%Z → N ≤ fuel → (Z.of_nat N ≤ INT_MAX)%Z →
  main_post rt N (m_i s) s ⊢ wp oom (main_body fuel s) (main_post rt N (m_i s + 1)).
Proof.
  intros Hlt Hf Hmax. iIntros "(%T & %xs & %ys & %Hok & H)". destruct Hok as [Hok _].
  pose proof Hok as [Hc Hr Hrt Hl Hrr Hnl Hnr Hlp Hrp Hls Hrs].
  iApply wp_bind. iApply wp_rand. iIntros (d Hd). cbn zeta. destruct (negb _).
  - iApply wp_bind. iApply wp_rand. iIntros (z Hz). cbn zeta. rw Hnl.
    destruct (rem_pick z (length xs)) as [Hj1 Hj2]; [lia|lia|].
    set (j := Z.rem z (Z.of_nat (length xs))) in *.
    destruct (holds_get _ _ _ _ Hl Hj2) as (x & Hx & Hax).
    iApply wp_bind. iApply wp_array_get; [done|done|].
    iApply wp_bind. iApply (wp_wand with "[H]").
    { iApply (add_left_at fuel rt T x (Z.to_nat (m_i s)) with "H"); [lia|lia|lia|].
      rw -Hlp. by eapply list_elem_of_lookup_2. }
    iIntros (n) "(%T' & %hs & %HT & H)". destruct HT as (HT1 & HT2 & HT3 & HT4 & HT5).
    assert (length (leftholes s) = N ∧ length (rightholes s) = N) as [HL HR].
    { split; [apply Hl|apply Hrr]. }
    iApply wp_bind. iApply wp_array_set; [lia|].
    iApply wp_bind. iApply wp_array_get; [done|by apply list_lookup_insert_eq; lia|].
    iApply wp_bind. iApply wp_array_set; [lia|].
    iApply wp_bind. iApply wp_int_add; [unfold int_range, INT_MIN; lia|].
    iApply wp_bind. iApply wp_int_add; [unfold int_range, INT_MIN; lia|].
    iApply wp_ret. rw HT2 Hrt Hnr Nat2Z.id -Hnl -Hnr.
    iExists T', (<[Z.to_nat j := n]> xs), (ys ++ [n]). iFrame "H". iSplit; [|done].
    iPureIntro. split; [|done]. eapply main_ok_left; try done. lia.
  - iApply wp_bind. iApply wp_rand. iIntros (z Hz). cbn zeta. rw Hnr.
    destruct (rem_pick z (length ys)) as [Hj1 Hj2]; [lia|lia|].
    set (j := Z.rem z (Z.of_nat (length ys))) in *.
    destruct (holds_get _ _ _ _ Hrr Hj2) as (x & Hx & Hax).
    iApply wp_bind. iApply wp_array_get; [done|done|].
    iApply wp_bind. iApply (wp_wand with "[H]").
    { iApply (add_right_at fuel rt T x (Z.to_nat (m_i s)) with "H"); [lia|lia|lia|].
      rw -Hrp. by eapply list_elem_of_lookup_2. }
    iIntros (n) "(%T' & %hs & %HT & H)". destruct HT as (HT1 & HT2 & HT3 & HT4 & HT5).
    assert (length (leftholes s) = N ∧ length (rightholes s) = N) as [HL HR].
    { split; [apply Hl|apply Hrr]. }
    iApply wp_bind. iApply wp_array_set; [lia|].
    iApply wp_bind. iApply wp_array_get; [done|by apply list_lookup_insert_eq; lia|].
    iApply wp_bind. iApply wp_array_set; [lia|].
    iApply wp_bind. iApply wp_int_add; [unfold int_range, INT_MIN; lia|].
    iApply wp_bind. iApply wp_int_add; [unfold int_range, INT_MIN; lia|].
    iApply wp_ret. rw HT2 Hrt Hnl Nat2Z.id -Hnl -Hnr.
    iExists T', (xs ++ [n]), (<[Z.to_nat j := n]> ys). iFrame "H". iSplit; [|done].
    iPureIntro. split; [|done]. eapply main_ok_right; try done. lia.
Qed.

(** The state before the loop. *)
Lemma main_ok_init rt N rest :
  N = S (length rest) →
  main_ok rt N (node_of rt empty empty) (mkLocals 1 (Some rt :: rest) (Some rt :: rest) 1 1)
    [rt] [rt].
Proof.
  intros HN. assert (holds (Some rt :: rest) [rt] N) as Hh.
  { split; [by rw HN|]. by exists rest. }
  split; simpl; done || lia.
Qed.

Lemma composite_main_wp fuel argv a1 a2 numnodes seed :
  argv !! 1 = Some a1 → atoi a1 = (mret numnodes : M (mem node) Z) →
  argv !! 2 = Some a2 → atoi a2 = (mret seed : M (mem node) Z) →
  (1 ≤ numnodes ≤ INT_MAX)%Z → Z.to_nat numnodes ≤ fuel →
  ⊢ wp oom (main fuel argv) (λ _, emp).
Proof.
  intros Ha1 Hz1 Ha2 Hz2 Hn Hf. iIntros. unfold main, arg. rw Ha1 Ha2.
  iApply wp_bind. iApply wp_ret. rw Hz1. iApply wp_bind. iApply wp_ret.
  iApply wp_bind. iApply wp_ret. rw Hz2. iApply wp_bind. iApply wp_ret.
  iApply (wp_call (emp_of create_tree_wp)); [done|done|]. iIntros (rt) "H".
  destruct (Z.to_nat numnodes) as [|N'] eqn:HN; [lia|].
  unfold new_array. rw decide_True; [|lia]. rw HN. iApply wp_bind. iApply wp_ret.
  iApply wp_bind. iApply wp_ret. iApply wp_bind. iApply wp_array_set; [simpl; lia|].
  iApply wp_bind. iApply wp_array_set; [simpl; lia|]. cbn [replicate Z.to_nat].
  change (<[0 := Some rt]> (None :: replicate N' None)) with (Some rt :: replicate N' (@None Z)).
  iApply wp_bind.
  iApply (wp_wand _ _ (λ s, main_post rt (S N') numnodes s) with "[H]").
  - iApply (wp_while _ _ _ (λ k s, ⌜k = Z.to_nat (numnodes - m_i s)⌝ ∧
      main_post rt (S N') (m_i s) s)%I _ fuel N'); [|lia|].
    + intros k s. iIntros "[-> H]". iApply wp_ret.
      destruct (Z.ltb_spec (m_i s) numnodes) as [Hlt|Hge].
      * iExists (Z.to_nat (numnodes - (m_i s + 1))). iSplit; [iPureIntro; lia|].
        iApply (wp_wand with "[H]"); [iApply (main_body_wp fuel rt (S N') s); [lia|lia|lia|done]|].
        iIntros (s') "(%T & %xs & %ys & %Hok & H)". destruct Hok as [Hok Hi].
        iSplit; [by rw Hi|]. iExists T, xs, ys. iFrame. by iSplit.
      * iDestruct "H" as (T xs ys Hok) "H". iExists T, xs, ys. iFrame. iSplit; [|done].
        iPureIntro. destruct Hok as [Hok _]. split; [done|].
        pose proof (mo_range _ _ _ _ _ _ Hok). lia.
    + iSplit; [iPureIntro; simpl; lia|]. iExists (node_of rt empty empty), [rt], [rt].
      iFrame. iSplit; [|done]. iPureIntro. split; [|done]. apply main_ok_init.
      by rw length_replicate.
  - iIntros (s) "(%T & %xs & %ys & %Hok & H)". destruct Hok as [Hok Hi].
    assert (depth T ≤ fuel) as Hd.
    { pose proof (depth_tcount T). pose proof (mo_count _ _ _ _ _ _ Hok). lia. }
    iApply (wp_call_last (tree_dispose_wp fuel rt T Hd) with "H"); [done|]. by iIntros (_) "_".
Qed.
End contracts.
End Composite.
