(* ===== verification/BenchTheorems.v ===== *)
(** * The properties of the benchmark programs

    The contracts of the programs under [benchmarks/slmc/programs], for every
    allocator and generator that meets its laws.  [P ⊢ wp E m Φ] reads: from a
    heap in [P], and with anything else in memory untouched, [m] ends in [Φ]
    without faults, undefined behaviour or exhausted fuel, or aborts while [E]
    holds. *)

From iris.proofmode Require Import proofmode.
From S2P Require Import Prelude CHeap HeapLogic AplasStack SchorrWaite Iter Composite.

(** ** Schorr-Waite *)

Section marking.
Import SchorrWaite.
Context {A : Allocator node} {Rn : Rand} {AL : AllocatorLaws A} {RL : RandLaws Rn}.

(** C31: on an unmarked tree of [n] nodes [schorr_waite] ends within [3 n]
    rounds of its loop and leaves the same tree, addresses and shape included,
    with every node marked. *)
Theorem schorr_waite_correct (fuel : nat) (root : Z) (T : shape) :
  3 * nodes T ≤ fuel →
  tree root false T ⊢ wp False (schorr_waite fuel root) (λ _, tree root true T).
Proof. apply schorr_waite_wp. Qed.

(** With a [malloc] that never fails [main] builds a tree of
    [max 1 numnodes] nodes by random walks and marks all of it. *)
Theorem schorr_waite_main_correct (fuel : nat) (argv : list string) (a1 a2 : string)
    (numnodes seed : Z) (n : nat) :
  ¬ oom → argv !! 1 = Some a1 → atoi a1 = (mret numnodes : M (mem node) Z) →
  argv !! 2 = Some a2 → atoi a2 = (mret seed : M (mem node) Z) → int_range numnodes →
  3 * Z.to_nat (Z.max 1 numnodes) ≤ fuel →
  ∃ m' root T, main fuel argv (mkMem ∅ n) = Ok (tt, m') ∧
    Z.of_nat (nodes T) = Z.max 1 numnodes ∧ hholds (tree root true T) (heap m').
Proof.
  intros Hoom Ha1 Hz1 Ha2 Hz2 Hr Hf.
  pose proof (wp_run _ _ emp%I _ ∅ n (emp_of (marking_main_wp fuel argv a1 a2 numnodes seed
    Hoom Ha1 Hz1 Ha2 Hz2 Hr Hf)) eq_refl) as H.
  destruct (main fuel argv (mkMem ∅ n)) as [[[] m']|e]; [|by destruct H].
  destruct H as (root & T & HT & H). by exists m', root, T.
Qed.

(** [makeNode] does not check the result of [malloc]: when it is null the
    first assignment is an access through the null pointer. *)
Theorem makeNode_unchecked (s : mem node) :
  alloc (heap s) = None → heap s !! 0%Z = None → makeNode s = Err EFault.
Proof. apply makeNode_null. Qed.
End marking.

(** ** The stack *)

Section stacks.
Import AplasStack.
Context {A : Allocator object} {AL : AllocatorLaws A}.

(** The stack is last-in first-out: [create_stack] yields the empty stack,
    [push] puts an element on top, [pop] takes the top element off and frees its
    node, and [dispose] frees the stack whatever its contents. *)
Theorem stack_operations (fuel : nat) (s x : Z) (vs : list Z) :
  (⊢ wp oom create_stack (λ s, stack_at s [])) ∧
  (stack_at s vs ⊢ wp oom (push s x) (λ _, stack_at s (x :: vs))) ∧
  (stack_at s (x :: vs) ⊢ wp False (pop s) (λ r, ⌜r = x⌝ ∧ stack_at s vs)) ∧
  (length vs ≤ fuel → stack_at s vs ⊢ wp False (dispose fuel s) (λ _, emp)).
Proof.
  split; [apply create_stack_wp|]. split; [apply push_wp|]. split; [apply pop_wp|].
  apply dispose_wp.
Qed.

(** [get_length] returns the number of elements and leaves the stack as it
    is, provided that number is an [int]. *)
Theorem get_length_correct (fuel : nat) (s : Z) (vs : list Z) :
  length vs ≤ fuel → (Z.of_nat (length vs) ≤ INT_MAX)%Z →
  stack_at s vs ⊢
  wp False (get_length fuel s) (λ r, ⌜r = Z.of_nat (length vs)⌝ ∧ stack_at s vs).
Proof. apply get_length_wp. Qed.

(** [main] returns 0 and leaves a stack with [size-1], ..., 0 in memory, or
    aborts because [malloc] failed. *)
Theorem stack_main_correct (fuel : nat) (argv : list string) (a : string) (size : Z) :
  argv !! 1 = Some a → atoi a = (mret size : M (mem object) Z) → int_range size →
  Z.to_nat size ≤ fuel →
  ⊢ wp oom (main fuel argv)
      (λ r, ⌜r = 0%Z⌝ ∧ ∃ s, stack_at s (countdown (Z.to_nat size))).
Proof. apply stack_main_wp. Qed.
End stacks.

(** ** Lists and iterators *)

Section lists.
Import Iter.
Context {A : Allocator object} {AL : AllocatorLaws A}.

(** The list operations: [create_llist], [llist_add] at the end,
    [llist_removeFirst], [llist_append], which empties and frees its second
    argument, and [llist_dispose], which frees everything. *)
Theorem llist_operations (fuel : nat) (l l2 x : Z) (v v2 : list Z) :
  (⊢ wp oom create_llist (λ l, llist_of l [])) ∧
  (llist_of l v ⊢ wp oom (llist_add l x) (λ _, llist_of l (v ++ [x]))) ∧
  (llist_of l (x :: v) ⊢ wp False (llist_removeFirst l) (λ r, ⌜r = x⌝ ∧ llist_of l v)) ∧
  (llist_of l v ∗ llist_of l2 v2 ⊢ wp False (llist_append l l2) (λ _, llist_of l (v ++ v2))) ∧
  (length v ≤ fuel → llist_of l v ⊢ wp False (llist_dispose fuel l) (λ _, emp)).
Proof.
  split; [apply create_llist_wp|]. split; [apply llist_add_wp|].
  split; [apply llist_removeFirst_wp|]. split; [apply llist_append_wp|].
  apply llist_dispose_wp.
Qed.

(** [llist_length] returns the length of the list without changing it, and
    aborts only when the length is not an [int]. *)
Theorem llist_length_correct (fuel : nat) (l la : Z) (ns v : list Z) :
  length v ≤ fuel →
  llist_at l ns la v ⊢ wp (INT_MAX < Z.of_nat (length v))%Z (llist_length fuel l)
    (λ r, ⌜r = Z.of_nat (length v)⌝ ∧ llist_at l ns la v).
Proof. apply llist_length_at. Qed.

(** [llist_lookup] returns the element at a valid index and does not change
    the list. *)
Theorem llist_lookup_correct (fuel : nat) (l la : Z) (ns v : list Z) (index : nat) (x : Z) :
  v !! index = Some x → index ≤ fuel → (Z.of_nat index ≤ INT_MAX)%Z →
  llist_at l ns la v ⊢ wp False (llist_lookup fuel l (Z.of_nat index))
    (λ r, ⌜r = x⌝ ∧ llist_at l ns la v).
Proof. apply llist_lookup_at. Qed.

(** Iterators: a new iterator stands at the first element; [iter_next]
    returns the element at its position and moves on, leaving the list and all
    other iterators as they are; appending to the list keeps every iterator's
    position; [iter_dispose] frees the iterator only. *)
Theorem iterators_correct (i l la : Z) (ns v : list Z) (k : nat) (x y : Z) :
  v !! k = Some x →
  (llist_at l ns la v ⊢
     wp oom (llist_create_iter l) (λ i, llist_at l ns la v ∗ iter_at i ns la 0)) ∧
  (llist_at l ns la v ∗ iter_at i ns la k ⊢
     wp False (iter_next i) (λ r, ⌜r = x⌝ ∧ llist_at l ns la v ∗ iter_at i ns la (S k))) ∧
  (llist_at l ns la v ∗ iter_at i ns la k ⊢ wp oom (llist_add l y) (λ _, ∃ n,
     llist_at l (ns ++ [la]) n (v ++ [y]) ∗ iter_at i (ns ++ [la]) n k)) ∧
  (iter_at i ns la k ⊢ wp False (iter_dispose i) (λ _, emp)).
Proof.
  intros Hx. split; [apply llist_create_iter_at|]. split; [by apply iter_next_at|].
  split; [|apply iter_dispose_at]. iIntros "[H (%n & %Hn & Hi)]".
  iApply (wp_call_last (llist_add_at l ns la v y) with "H"); [done|].
  iIntros (_) "(%n' & H)". iExists n'. iFrame "H". iExists n. iFrame.
  iSplit; [|done]. iPureIntro. by apply lookup_app_l_Some.
Qed.

(** The three test programs end with every assertion met and nothing left
    on the heap, or abort because [malloc] failed. *)
Theorem iter_tests_pass (n : nat) :
  match main0 2 (mkMem ∅ n) with
  | Ok (_, m') => heap m' = ∅
  | Err e => e = EAbort ∧ oom
  end ∧
  match main1 5 (mkMem ∅ n) with
  | Ok (r, m') => r = 0%Z ∧ heap m' = ∅
  | Err e => e = EAbort ∧ oom
  end ∧
  match main2 3 (mkMem ∅ n) with
  | Ok (r, m') => r = 0%Z ∧ heap m' = ∅
  | Err e => e = EAbort ∧ oom
  end.
Proof.
  split; [|split].
  - exact (wp_run _ _ emp%I _ ∅ n (emp_of (iter_main0_wp 2 (le_n 2))) eq_refl).
  - exact (wp_run _ _ emp%I _ ∅ n (emp_of (main1_wp 5 (le_n 5))) eq_refl).
  - exact (wp_run _ _ emp%I _ ∅ n (emp_of (main2_wp 3 (le_n 3))) eq_refl).
Qed.

(** [main] builds the list 0, ..., [size-1], walking an iterator over it
    after every append and releasing it again. *)
Theorem iter_main_correct (fuel : nat) (argv : list string) (a : string) (size : Z) :
  argv !! 1 = Some a → atoi a = (mret size : M (mem object) Z) → int_range size →
  Z.to_nat size ≤ fuel →
  ⊢ wp oom (main fuel argv) (λ _, ∃ l, llist_of l (seqZ 0 (Z.max 0 size))).
Proof. apply iter_main_wp. Qed.
End lists.

(** ** Trees with counts *)

Section composites.
Import Composite.
Context {A : Allocator node} {AL : AllocatorLaws A} {Rn : Rand} {RL : RandLaws Rn}.

(** [fixup_ancestors] restores the counts of all ancestors after the count
    of the focus changed, whichever side it is on, within as many calls as there
    are ancestors, and aborts only when the count of the root is not an [int]. *)
Theorem fixup_ancestors_correct (fuel : nat) (n p old cnt : Z) (c : context) :
  height c ≤ fuel → (0 ≤ cnt ≤ INT_MAX)%Z →
  context_at n p old c ⊢
  wp (INT_MAX < total c cnt)%Z (fixup_ancestors fuel n p cnt) (λ _, context_at n p cnt c).
Proof. apply fixup_ancestors_wp. Qed.

(** Adding a left or right child to a node without one gives a tree with
    all counts right, focused on the new leaf; it stops only when [malloc] fails
    or the total count is not an [int]. *)
Theorem tree_add_correct (fuel : nat) (nd : Z) (c : context) (n0 : Z) (t : tree) :
  S (height c) ≤ fuel →
  (tree_at nd c (node_of n0 empty t) ⊢
   wp (add_stops (left_context c nd t)) (tree_add_left fuel nd)
     (λ n, tree_at n (left_context c nd t) (node_of n empty empty))) ∧
  (tree_at nd c (node_of n0 t empty) ⊢
   wp (add_stops (right_context c nd t)) (tree_add_right fuel nd)
     (λ n, tree_at n (right_context c nd t) (node_of n empty empty))).
Proof. intros Hf. split; [by apply tree_add_left_wp|by apply tree_add_right_wp]. Qed.

(** [tree_get_parent] returns the parent and moves the focus there. *)
Theorem tree_get_parent_correct (nd : Z) (c : context) (t : tree) :
  c ≠ root → t ≠ empty →
  tree_at nd c t ⊢ wp False (tree_get_parent nd) (λ p, parent_focus p c t).
Proof. apply tree_get_parent_wp. Qed.

(** [tree_dispose] frees every node of a tree, within recursion as deep as
    the tree. *)
Theorem tree_dispose_correct (fuel : nat) (nd : Z) (t : tree) :
  depth t ≤ fuel → tree_at nd root t ⊢ wp False (tree_dispose fuel nd) (λ _, emp).
Proof. apply tree_dispose_wp. Qed.

(** The focus may be moved to any node of the tree: the whole tree is the
    same, seen from the new focus. *)
Theorem change_focus_correct (nd : Z) (c : context) (t : tree) (p : path) (n : Z) :
  contains_at_path (combine c t) p n = true →
  tree_at nd c t ⊢
  tree_at n (get_context_nodes_at_path root (combine c t) p)
    (get_subtree_nodes_at_path (combine c t) p).
Proof. apply change_focus. Qed.

(** The two test programs end with an empty heap, or abort because
    [malloc] failed. *)
Theorem composite_tests_pass (n : nat) :
  match main0 3 (mkMem ∅ n) with
  | Ok (r, m') => r = 0%Z ∧ heap m' = ∅
  | Err e => e = EAbort ∧ oom
  end ∧
  match verifast_main 4 (mkMem ∅ n) with
  | Ok (r, m') => r = 0%Z ∧ heap m' = ∅
  | Err e => e = EAbort ∧ oom
  end.
Proof.
  split.
  - exact (wp_run _ _ emp%I _ ∅ n (emp_of (composite_main0_wp 3 (le_n 3))) eq_refl).
  - exact (wp_run _ _ emp%I _ ∅ n (emp_of (verifast_main_wp 4 (le_n 4))) eq_refl).
Qed.

(** For [numnodes] of at least one, [main] never leaves its arrays, adds
    children to free places only, and frees the whole tree at the end. *)
Theorem composite_main_correct (fuel : nat) (argv : list string) (a1 a2 : string)
    (numnodes seed : Z) (n : nat) :
  argv !! 1 = Some a1 → atoi a1 = (mret numnodes : M (mem node) Z) →
  argv !! 2 = Some a2 → atoi a2 = (mret seed : M (mem node) Z) →
  (1 ≤ numnodes ≤ INT_MAX)%Z → Z.to_nat numnodes ≤ fuel →
  match main fuel argv (mkMem ∅ n) with
  | Ok (_, m') => heap m' = ∅
  | Err e => e = EAbort ∧ oom
  end.
Proof.
  intros Ha1 Hz1 Ha2 Hz2 Hn Hf.
  exact (wp_run _ _ emp%I _ ∅ n (emp_of (composite_main_wp fuel argv a1 a2 numnodes seed
    Ha1 Hz1 Ha2 Hz2 Hn Hf)) eq_refl).
Qed.
End composites.

(** ** The theorems at concrete inputs *)

(** A [malloc] that always fails. *)
Definition no_memory (V : Type) : Allocator V := {| alloc _ := None |}.

Section marking_witnesses.
Import SchorrWaite.

Lemma schorr_waite_correct_witness :
  3 * nodes (Node 1 (Node 2 Leaf Leaf) (Node 3 Leaf Leaf)) ≤ 9 ∧
  (tree 1 false (Node 1 (Node 2 Leaf Leaf) (Node 3 Leaf Leaf)) ⊢
   wp False (schorr_waite 9 1) (λ _, tree 1 true (Node 1 (Node 2 Leaf Leaf) (Node 3 Leaf Leaf)))).
Proof. split; [done|]. apply schorr_waite_correct. done. Defined.

Lemma schorr_waite_main_correct_witness : ∃ m' root T,
  main 9 ["schorr_waite"; "3"; "1"] (mkMem ∅ 0) = Ok (tt, m') ∧
  Z.of_nat (nodes T) = 3%Z ∧ hholds (tree root true T) (heap m').
Proof.
  apply (schorr_waite_main_correct 9 ["schorr_waite"; "3"; "1"] "3" "1" 3 1 0);
    [apply bump_no_oom|done..|done].
Defined.

Lemma makeNode_unchecked_witness :
  @makeNode (no_memory node) (mkMem ∅ 0) = Err EFault.
Proof. by apply (@makeNode_unchecked (no_memory node)). Defined.
End marking_witnesses.

Section stack_witnesses.
Import AplasStack.

Lemma stack_operations_witness :
  (stack_at 1 [7%Z; 8%Z] ⊢ wp (oom (V := object)) (push 1 6) (λ _, stack_at 1 [6%Z; 7%Z; 8%Z])) ∧
  (stack_at 1 [7%Z; 8%Z] ⊢ wp False (dispose 2 1) (λ _, emp)).
Proof.
  destruct (stack_operations 2 1 6 [7%Z; 8%Z]) as (_ & Hpush & _ & Hdispose).
  split; [exact Hpush|]. by apply Hdispose.
Defined.

Lemma get_length_correct_witness :
  stack_at 1 [7%Z; 8%Z] ⊢
  wp False (get_length 2 1) (λ r, ⌜r = 2%Z⌝ ∧ stack_at 1 [7%Z; 8%Z]).
Proof. by apply (get_length_correct 2 1 [7%Z; 8%Z]). Defined.

Lemma stack_main_correct_witness :
  ⊢ wp (oom (V := object)) (main 3 ["aplas-stack"; "3"])
      (λ r, ⌜r = 0%Z⌝ ∧ ∃ s, stack_at s [2%Z; 1%Z; 0%Z]).
Proof. by apply (stack_main_correct 3 ["aplas-stack"; "3"] "3" 3). Defined.
End stack_witnesses.

Section list_witnesses.
Import Iter.

Lemma llist_operations_witness :
  (llist_of 1 [7%Z] ⊢ wp (oom (V := object)) (llist_add 1 6) (λ _, llist_of 1 [7%Z; 6%Z])) ∧
  (llist_of 1 [7%Z] ⊢ wp False (llist_dispose 1 1) (λ _, emp)).
Proof.
  destruct (llist_operations 1 1 2 6 [7%Z] []) as (_ & Hadd & _ & _ & Hdispose).
  split; [exact Hadd|]. by apply Hdispose.
Defined.

Lemma llist_length_correct_witness :
  llist_at 1 [2%Z] 3 [7%Z] ⊢ wp (INT_MAX < 1)%Z (llist_length 1 1)
    (λ r, ⌜r = 1%Z⌝ ∧ llist_at 1 [2%Z] 3 [7%Z]).
Proof. by apply (llist_length_correct 1 1 3 [2%Z] [7%Z]). Defined.

Lemma llist_lookup_correct_witness :
  llist_at 1 [2%Z; 3%Z] 4 [7%Z; 8%Z] ⊢ wp False (llist_lookup 1 1 1)
    (λ r, ⌜r = 8%Z⌝ ∧ llist_at 1 [2%Z; 3%Z] 4 [7%Z; 8%Z]).
Proof. by apply (llist_lookup_correct 1 1 4 [2%Z; 3%Z] [7%Z; 8%Z] 1 8). Defined.

Lemma iterators_correct_witness :
  llist_at 1 [2%Z; 3%Z] 4 [7%Z; 8%Z] ∗ iter_at 5 [2%Z; 3%Z] 4 1 ⊢
  wp False (iter_next 5)
    (λ r, ⌜r = 8%Z⌝ ∧ llist_at 1 [2%Z; 3%Z] 4 [7%Z; 8%Z] ∗ iter_at 5 [2%Z; 3%Z] 4 2).
Proof. by apply (iterators_correct 5 1 4 [2%Z; 3%Z] [7%Z; 8%Z] 1 8 0). Defined.

Lemma iter_tests_pass_witness :
  match main1 5 (mkMem ∅ 0) with
  | Ok (r, m') => r = 0%Z ∧ heap m' = ∅
  | Err e => e = EAbort ∧ oom (V := object)
  end.
Proof. destruct (iter_tests_pass 0) as (_ & H & _). exact H. Defined.

Lemma iter_main_correct_witness :
  ⊢ wp (oom (V := object)) (main 3 ["iter"; "3"]) (λ _, ∃ l, llist_of l [0%Z; 1%Z; 2%Z]).
Proof. by apply (iter_main_correct 3 ["iter"; "3"] "3" 3). Defined.
End list_witnesses.

Section composite_witnesses.
Import Composite.

Lemma fixup_ancestors_correct_witness :
  context_at 2 1 0 (left_context root 1 empty) ⊢
  wp (INT_MAX < 2)%Z (fixup_ancestors 1 2 1 1)
    (λ _, context_at 2 1 1 (left_context root 1 empty)).
Proof. by apply (fixup_ancestors_correct 1 2 1 0 1 (left_context root 1 empty)). Defined.

Lemma tree_add_correct_witness :
  tree_at 1 root (node_of 1 empty empty) ⊢
  wp (add_stops (left_context root 1 empty)) (tree_add_left 1 1)
    (λ n, tree_at n (left_context root 1 empty) (node_of n empty empty)).
Proof. apply (tree_add_correct 1 1 root 1 empty). done. Defined.

Lemma tree_get_parent_correct_witness :
  tree_at 2 (left_context root 1 empty) (node_of 2 empty empty) ⊢
  wp False (tree_get_parent 2)
    (λ p, parent_focus p (left_context root 1 empty) (node_of 2 empty empty)).
Proof.
  by apply (tree_get_parent_correct 2 (left_context root 1 empty) (node_of 2 empty empty)).
Defined.

Lemma tree_dispose_correct_witness :
  tree_at 1 root (node_of 1 (node_of 2 empty empty) empty) ⊢
  wp False (tree_dispose 2 1) (λ _, emp).
Proof. apply (tree_dispose_correct 2 1 (node_of 1 (node_of 2 empty empty) empty)). simpl. lia. Defined.

Lemma change_focus_correct_witness :
  tree_at 1 root (node_of 1 (node_of 2 empty empty) empty) ⊢
  tree_at 2 (left_context root 1 empty) (node_of 2 empty empty).
Proof.
  by apply (change_focus_correct 1 root (node_of 1 (node_of 2 empty empty) empty)
    (go_left here) 2).
Defined.

Lemma composite_tests_pass_witness :
  match verifast_main 4 (mkMem ∅ 0) with
  | Ok (r, m') => r = 0%Z ∧ heap m' = ∅
  | Err e => e = EAbort ∧ oom (V := node)
  end.
Proof. destruct (composite_tests_pass 0) as [_ H]. exact H. Defined.

Lemma composite_main_correct_witness :
  match main 3 ["composite4"; "3"; "1"] (mkMem ∅ 0) with
  | Ok (_, m') => heap m' = ∅
  | Err e => e = EAbort ∧ oom (V := node)
  end.
Proof.
  apply (composite_main_correct 3 ["composite4"; "3"; "1"] "3" "1" 3 1 0);
    [done..|unfold INT_MAX; lia|done].
Defined.
End composite_witnesses.
