(* ===== verification/Atomics.v ===== *)
(** * Atomic operations and locks

    [atomics.h] and [locks.h], which the threaded benchmarks include, are not
    part of the repository: the operations are a class, and its laws what the
    programs rely on.  Each operation acts on the pointer field [f] of the
    struct at [p], the argument [&p->f] of the source.  A lock is a pointer
    that is null when the lock is free; [lock] attempts to take it until an
    attempt succeeds. *)

From iris.proofmode Require Import proofmode.
From S2P Require Import Prelude CHeap HeapLogic.

Class Atomics (V : Type) := {
  atomic_load_pointer {R} `{Struct V R} : field R Z → Z → M (mem V) Z;
  atomic_compare_and_store_pointer {R} `{Struct V R} : field R Z → Z → Z → Z → M (mem V) bool;
  lock_attempt {R} `{Struct V R} : field R Z → Z → M (mem V) bool;
  unlock {R} `{Struct V R} : field R Z → Z → M (mem V) unit;
}.

Class AtomicsLaws {V} (At : Atomics V) : Prop := {
  atomic_load_law {R} `{Struct V R} (f : field R Z) p m :
    atomic_load_pointer f p m = load f p m;
  compare_and_store_law {R} `{Struct V R} (f : field R Z) p old new m :
    atomic_compare_and_store_pointer f p old new m =
    (cur ← load f p;
     if (cur =? old)%Z then store f p new ;; mret true else mret false) m;
  lock_attempt_law {R} `{Struct V R} (f : field R Z) p m :
    lock_attempt f p m =
    (cur ← load f p;
     if (cur =? 0)%Z then store f p 1%Z ;; mret true else mret false) m;
  unlock_law {R} `{Struct V R} (f : field R Z) p m : unlock f p m = store f p 0%Z m;
}.

(** Operations that do what the laws say. *)
#[global] Instance plain_atomics V : Atomics V := {|
  atomic_load_pointer _ _ f p := load f p;
  atomic_compare_and_store_pointer _ _ f p old new :=
    cur ← load f p; if (cur =? old)%Z then store f p new ;; mret true else mret false;
  lock_attempt _ _ f p :=
    cur ← load f p; if (cur =? 0)%Z then store f p 1%Z ;; mret true else mret false;
  unlock _ _ f p := store f p 0%Z;
|}.

#[global] Instance plain_atomics_laws V : AtomicsLaws (plain_atomics V).
Proof. done. Qed.

Section rules.
Context {V : Type} {A : Allocator V} {At : Atomics V} {AtL : AtomicsLaws At}.

Lemma wp_ext E {X} (m m' : M (mem V) X) Φ : (∀ s, m s = m' s) → wp E m' Φ ⊢ wp E m Φ.
Proof. intros He. split. intros h H hf n Hd. rw He. by apply H. Qed.

Lemma wp_atomic_load {R} `{Struct V R} E (f : field R Z) p r x Φ :
  fget f r = Some x → p ↦ r -∗ (p ↦ r -∗ Φ x) -∗ wp E (atomic_load_pointer f p) Φ.
Proof.
  intros Hx. iIntros "Hp HΦ". iApply wp_ext; [intros; apply atomic_load_law|].
  by iApply (wp_load with "Hp").
Qed.

Lemma wp_compare_and_store {R} `{Struct V R} E (f : field R Z) p r x old new Φ :
  fget f r = Some x →
  p ↦ r -∗
  (if (x =? old)%Z then p ↦ fset f new r -∗ Φ true else p ↦ r -∗ Φ false) -∗
  wp E (atomic_compare_and_store_pointer f p old new) Φ.
Proof.
  intros Hx. iIntros "Hp HΦ". iApply wp_ext; [intros; apply compare_and_store_law|].
  iApply wp_bind. iApply (wp_load with "Hp"); [done|]. iIntros "Hp". destruct (x =? old)%Z.
  - wp_write "Hp". iApply wp_ret. by iApply "HΦ".
  - iApply wp_ret. by iApply "HΦ".
Qed.

Lemma wp_lock_attempt {R} `{Struct V R} E (f : field R Z) p r x Φ :
  fget f r = Some x →
  p ↦ r -∗
  (if (x =? 0)%Z then p ↦ fset f 1%Z r -∗ Φ true else p ↦ r -∗ Φ false) -∗
  wp E (lock_attempt f p) Φ.
Proof.
  intros Hx. iIntros "Hp HΦ". iApply wp_ext; [intros; apply lock_attempt_law|].
  iApply wp_bind. iApply (wp_load with "Hp"); [done|]. iIntros "Hp". destruct (x =? 0)%Z.
  - wp_write "Hp". iApply wp_ret. by iApply "HΦ".
  - iApply wp_ret. by iApply "HΦ".
Qed.

Lemma wp_unlock {R} `{Struct V R} E (f : field R Z) p r (Φ : unit → hPropI V) :
  p ↦ r -∗ (p ↦ fset f 0%Z r -∗ Φ tt) -∗ wp E (unlock f p) Φ.
Proof.
  iIntros "Hp HΦ". iApply wp_ext; [intros; apply unlock_law|]. by iApply (wp_store with "Hp").
Qed.
End rules.
