(* ===== verification/Queue.v ===== *)
(** * The concurrent queue: [benchmarks/slmc/programs/queue.c]

    A lock-free queue with many enqueuers and one dequeuer.  The functions that
    run concurrently are state machines: a constructor of [enqueue_pc] or
    [dequeue_pc] is a point before an access to shared memory, with the locals
    in scope there, and a step performs that one access and the local
    computation up to the next.  A system has a list of producers, each with
    the values it is to enqueue, and one consumer that calls
    [queue_try_dequeue] again and again; a schedule says whose step is next.
    [Fifo] is the specification, a queue whose operations take effect at one
    point between call and return. *)

From S2P Require Import Prelude CHeap Atomics.

Module Queue.

(** ** Structs *)

Record node := mkNode { next : option Z; value : option Z }.

Record queue := mkQueue {
  maxelems : option Z;
  first : option Z;
  middle : option Z;
  last : option Z;
}.

(** The variable the result of [queue_try_dequeue] is written to. *)
Record cell := mkCell { content : option Z }.

Definition f_next : field node Z := Field next (λ x n, mkNode (Some x) (value n)).
Definition f_value : field node Z := Field value (λ x n, mkNode (next n) (Some x)).
Definition f_maxelems : field queue Z :=
  Field maxelems (λ x q, mkQueue (Some x) (first q) (middle q) (last q)).
Definition f_first : field queue Z :=
  Field first (λ x q, mkQueue (maxelems q) (Some x) (middle q) (last q)).
Definition f_middle : field queue Z :=
  Field middle (λ x q, mkQueue (maxelems q) (first q) (Some x) (last q)).
Definition f_last : field queue Z :=
  Field last (λ x q, mkQueue (maxelems q) (first q) (middle q) (Some x)).
Definition f_content : field cell Z := Field content (λ x _, mkCell (Some x)).

(** ** Program points *)

Inductive enqueue_pc :=
| EMalloc (value : Z)             (** before the allocation of the node *)
| EValue (n value : Z)            (** before [n->value = value] *)
| ELoad (n : Z)                   (** before the load of [queue->last] *)
| ENext (n last : Z)              (** before [n->next = last] *)
| ECas (n last : Z)               (** before the compare-and-store *)
| EDone.                          (** returned *)

Inductive dequeue_pc :=
| DFirst                                              (** before [first = queue->first] *)
| DMiddle (first : Z)                                 (** before [middle = queue->middle] *)
| DLast (first middle : Z)                            (** before the load of [queue->last] *)
| DPrev (first middle last : Z)                       (** before [prev = last->next] *)
| DPrevPrev (first middle last node prev : Z)         (** before [prevPrev = prev->next] *)
| DLink (first middle last node prev prevPrev : Z)    (** before [prev->next = node] *)
| DFirstLink (first last node : Z)                    (** before [first->next = node] *)
| DSetMiddle (first last : Z)                         (** before [queue->middle = last] *)
| DNoop (first : Z)                                   (** before [atomic_noop()] *)
| DFirstNext (first : Z)                              (** before [firstNext = first->next] *)
| DValue (first firstNext : Z)                        (** before the read of [firstNext->value] *)
| DPvalue (first firstNext value : Z)                 (** before [*pvalue = value] *)
| DSetFirst (first firstNext : Z)                     (** before [queue->first = firstNext] *)
| DFree (first : Z)                                   (** before [free(first)] *)
| DRet (b : bool).                                    (** returned *)

(** ** Threads *)

Inductive thread := Producer (i : nat) | Consumer.

#[global] Instance thread_eq_dec : EqDecision thread.
Proof. solve_decision. Defined.

Section functions.
Context {V : Type} {A : Allocator V} {At : Atomics V}.
Context {node_struct : Struct V node} {queue_struct : Struct V queue}.
Context {cell_struct : Struct V cell}.

(** ** Functions that run alone *)

Definition create_queue (numelements : Z) : M (mem V) Z :=
  middle ← malloc (mkNode None None);
  abort_if (middle =? 0)%Z ;;
  queue ← malloc (mkQueue None None None None);
  abort_if (queue =? 0)%Z ;;
  store f_maxelems queue numelements ;;
  store f_first queue middle ;;
  store f_middle queue middle ;;
  store f_last queue middle ;;
  mret queue.

Definition get_maxelems (queue : Z) : M (mem V) Z := load f_maxelems queue.

Definition queue_dispose (fuel : nat) (queue : Z) : M (mem V) unit :=
  first ← load f_first queue;
  middle ← load f_middle queue;
  last ← load f_last queue;
  while fuel (λ first, mret (negb (first =? middle)%Z))
    (λ first, next ← load f_next first;
              free first ;;
              mret next) first ;;
  while fuel (λ last, mret (negb (last =? middle)%Z))
    (λ last, next ← load f_next last;
             free last ;;
             mret next) last ;;
  free middle ;;
  free queue.

(** ** [queue_enqueue] *)

Definition enqueue_step (queue : Z) (pc : enqueue_pc) : M (mem V) enqueue_pc :=
  match pc with
  | EMalloc value =>
      n ← malloc (mkNode None None);
      abort_if (n =? 0)%Z ;;
      mret (EValue n value)
  | EValue n value => store f_value n value ;; mret (ELoad n)
  | ELoad n => last ← atomic_load_pointer f_last queue; mret (ENext n last)
  | ENext n last => store f_next n last ;; mret (ECas n last)
  | ECas n last =>
      done ← atomic_compare_and_store_pointer f_last queue last n;
      mret (if done : bool then EDone else ELoad n)
  | EDone => mret EDone
  end.

(** ** [queue_try_dequeue] *)

(** The test of the loop over [prev]. *)
Definition dequeue_loop (first middle last node prev : Z) : dequeue_pc :=
  if (prev =? middle)%Z then DFirstLink first last node
  else DPrevPrev first middle last node prev.

Definition dequeue_step (queue pvalue : Z) (pc : dequeue_pc) : M (mem V) dequeue_pc :=
  match pc with
  | DFirst => first ← load f_first queue; mret (DMiddle first)
  | DMiddle first =>
      middle ← load f_middle queue;
      mret (if (first =? middle)%Z then DLast first middle else DNoop first)
  | DLast first middle =>
      last ← atomic_load_pointer f_last queue;
      mret (if (last =? middle)%Z then DRet false else DPrev first middle last)
  | DPrev first middle last =>
      let node := last in
      prev ← load f_next last;
      mret (dequeue_loop first middle last node prev)
  | DPrevPrev first middle last node prev =>
      prevPrev ← load f_next prev;
      mret (DLink first middle last node prev prevPrev)
  | DLink first middle last node prev prevPrev =>
      store f_next prev node ;;
      mret (dequeue_loop first middle last prev prevPrev)
  | DFirstLink first last node => store f_next first node ;; mret (DSetMiddle first last)
  | DSetMiddle first last => store f_middle queue last ;; mret (DFirstNext first)
  | DNoop first => mret (DFirstNext first)
  | DFirstNext first => firstNext ← load f_next first; mret (DValue first firstNext)
  | DValue first firstNext =>
      value ← load f_value firstNext; mret (DPvalue first firstNext value)
  | DPvalue first firstNext value =>
      store f_content pvalue value ;; mret (DSetFirst first firstNext)
  | DSetFirst first firstNext => store f_first queue firstNext ;; mret (DFree first)
  | DFree first => free first ;; mret (DRet true)
  | DRet b => mret (DRet b)
  end.

(** ** A system of producers and a consumer *)

Record config := mkConfig {
  (** where each producer is and what it has still to enqueue *)
  producers : list (enqueue_pc * list Z);
  (** where the consumer is, if it is in a call *)
  consumer : option dequeue_pc;
  (** what the calls of the consumer have returned *)
  results : list (option Z);
}.

Definition producer_step (queue : Z) (p : enqueue_pc * list Z) :
    M (mem V) (enqueue_pc * list Z) :=
  match p with
  | (EDone, []) => mret (EDone, [])
  | (EDone, v :: todo) => mret (EMalloc v, todo)
  | (pc, todo) => pc ← enqueue_step queue pc; mret (pc, todo)
  end.

Definition consumer_step (queue pvalue : Z) (c : option dequeue_pc) (rs : list (option Z)) :
    M (mem V) (option dequeue_pc * list (option Z)) :=
  match c with
  | None => mret (Some DFirst, rs)
  | Some (DRet true) => v ← load f_content pvalue; mret (None, rs ++ [Some v])
  | Some (DRet false) => mret (None, rs ++ [None])
  | Some pc => pc ← dequeue_step queue pvalue pc; mret (Some pc, rs)
  end.

Definition step (queue pvalue : Z) (t : thread) (c : config) : M (mem V) config :=
  match t with
  | Producer i =>
      match producers c !! i with
      | Some p =>
          p ← producer_step queue p;
          mret (mkConfig (<[i := p]> (producers c)) (consumer c) (results c))
      | None => mret c
      end
  | Consumer =>
      cr ← consumer_step queue pvalue (consumer c) (results c);
      mret (mkConfig (producers c) cr.1 cr.2)
  end.

Fixpoint run (queue pvalue : Z) (sched : list thread) (c : config) : M (mem V) config :=
  match sched with
  | [] => mret c
  | t :: sched => c ← step queue pvalue t c; run queue pvalue sched c
  end.

(** No operation is under way. *)
Definition quiet (c : config) : Prop :=
  Forall (λ p, p.1 = EDone) (producers c) ∧ consumer c = None.

Definition start (todos : list (list Z)) : config :=
  mkConfig (map (λ todo, (EDone, todo)) todos) None [].

(** The queue and the variable for results. *)
Definition setup (numelements : Z) : M (mem V) (Z * Z) :=
  queue ← create_queue numelements;
  pvalue ← malloc (mkCell None);
  abort_if (pvalue =? 0)%Z ;;
  mret (queue, pvalue).

Definition system (numelements : Z) (todos : list (list Z)) (sched : list thread) :
    M (mem V) (Z * Z * config) :=
  qp ← setup numelements;
  c ← run qp.1 qp.2 sched (start todos);
  mret (qp, c).
End functions.

(** ** Memory accesses *)

Inductive location :=
| LNext (n : Z) | LValue (n : Z)
| LFirst (q : Z) | LMiddle (q : Z) | LLast (q : Z)
| LContent (p : Z).

Record access := mkAccess { loc : location; writes : bool; atomic : bool }.

Definition reads (l : location) : access := mkAccess l false false.
Definition assigns (l : location) : access := mkAccess l true false.

(** What the step of an enqueuer accesses; memory fresh from [malloc] is its own. *)
Definition enqueue_access (queue : Z) (pc : enqueue_pc) : list access :=
  match pc with
  | EMalloc _ => []
  | EValue n _ => [assigns (LValue n)]
  | ELoad _ => [mkAccess (LLast queue) false true]
  | ENext n _ => [assigns (LNext n)]
  | ECas _ _ => [mkAccess (LLast queue) true true]
  | EDone => []
  end.

(** What the step of the dequeuer accesses; [free] counts as a write of all fields. *)
Definition dequeue_access (queue pvalue : Z) (pc : dequeue_pc) : list access :=
  match pc with
  | DFirst => [reads (LFirst queue)]
  | DMiddle _ => [reads (LMiddle queue)]
  | DLast _ _ => [mkAccess (LLast queue) false true]
  | DPrev _ _ last => [reads (LNext last)]
  | DPrevPrev _ _ _ _ prev => [reads (LNext prev)]
  | DLink _ _ _ _ prev _ => [assigns (LNext prev)]
  | DFirstLink first _ _ => [assigns (LNext first)]
  | DSetMiddle _ _ => [assigns (LMiddle queue)]
  | DNoop _ => []
  | DFirstNext first => [reads (LNext first)]
  | DValue _ firstNext => [reads (LValue firstNext)]
  | DPvalue _ _ _ => [assigns (LContent pvalue)]
  | DSetFirst _ _ => [assigns (LFirst queue)]
  | DFree first => [assigns (LNext first); assigns (LValue first)]
  | DRet b => if b then [reads (LContent pvalue)] else []
  end.

(** What the next step of [t] accesses. *)
Definition next_access (queue pvalue : Z) (c : config) (t : thread) : list access :=
  match t with
  | Producer i =>
      match producers c !! i with Some p => enqueue_access queue p.1 | None => [] end
  | Consumer =>
      match consumer c with Some pc => dequeue_access queue pvalue pc | None => [] end
  end.

(** Accesses to one location, one of them a write, not both atomic. *)
Definition conflict (a b : access) : Prop :=
  loc a = loc b ∧ (writes a = true ∨ writes b = true) ∧ ¬ (atomic a = true ∧ atomic b = true).

(** Two threads are about to access memory in conflict. *)
Definition race (queue pvalue : Z) (c : config) : Prop :=
  ∃ t t' a b, t ≠ t' ∧ a ∈ next_access queue pvalue c t ∧
    b ∈ next_access queue pvalue c t' ∧ conflict a b.
End Queue.
