(* ===== verification/QueueSpec.v ===== *)
(** * The queue as its clients see it

    [Fifo] is the abstract machine that [queue.c] is to implement: the threads
    call, an operation takes effect in one step, and the dequeuer returns later.
    [order_ok] says what a client may rely on: the values come out in the order
    in which they went in, and each producer's values in its own order. *)

From S2P Require Import Prelude Queue.
Import Queue.

Module Fifo.

(** A producer calls with [v]; the value is queued when the call returns. *)
Inductive enqueue_status := Ready | Enqueuing (v : Z).
Inductive dequeue_status := Idle | Dequeuing | Dequeued (r : option Z).

Record state := mkState {
  contents : list Z;
  callers : list (enqueue_status * list Z);
  caller : dequeue_status;
  answers : list (option Z);
}.

Definition init (todos : list (list Z)) : state :=
  mkState [] (map (λ todo, (Ready, todo)) todos) Idle [].

(** The values a producer's step queues, and its next status. *)
Definition enqueue (p : enqueue_status * list Z) : list Z * (enqueue_status * list Z) :=
  match p with
  | (Ready, []) => ([], (Ready, []))
  | (Ready, v :: todo) => ([], (Enqueuing v, todo))
  | (Enqueuing v, todo) => ([v], (Ready, todo))
  end.

Definition step (t : thread) (s : state) : state :=
  match t with
  | Producer i =>
      match callers s !! i with
      | Some p =>
          mkState (contents s ++ (enqueue p).1) (<[i := (enqueue p).2]> (callers s))
            (caller s) (answers s)
      | None => s
      end
  | Consumer =>
      match caller s with
      | Idle => mkState (contents s) (callers s) Dequeuing (answers s)
      | Dequeuing =>
          mkState (tail (contents s)) (callers s) (Dequeued (head (contents s))) (answers s)
      | Dequeued r => mkState (contents s) (callers s) Idle (answers s ++ [r])
      end
  end.

Definition run (sched : list thread) (s : state) : state := foldl (λ s t, step t s) s sched.

(** ** Order *)

(** The values of producer [i] among tagged values. *)
Definition of_producer (i : nat) (xs : list (nat * Z)) : list Z :=
  (filter (λ x, x.1 = i) xs).*2.

Definition in_flight (e : enqueue_status) : list Z :=
  match e with Ready => [] | Enqueuing v => [v] end.

Definition taken (d : dequeue_status) : list Z :=
  match d with Dequeued (Some v) => [v] | _ => [] end.

(** [xs] lists the values queued so far with their producers, in order: what
    the consumer took, then what is queued; a producer's values are among them
    in its own order, up to the one in flight. *)
Definition order_ok (todos : list (list Z)) (s : state) : Prop :=
  ∃ xs : list (nat * Z),
    xs.*2 = omap id (answers s) ++ taken (caller s) ++ contents s ∧
    length (callers s) = length todos ∧
    ∀ i e todo, callers s !! i = Some (e, todo) →
      todos !! i = Some (of_producer i xs ++ in_flight e ++ todo).

Lemma of_producer_app i xs ys :
  of_producer i (xs ++ ys) = of_producer i xs ++ of_producer i ys.
Proof. unfold of_producer. by rewrite filter_app, fmap_app. Qed.

Lemma of_producer_tag i j (vs : list Z) :
  of_producer i (map (λ v, (j, v)) vs) = if decide (j = i) then vs else [].
Proof.
  induction vs as [|v vs IH]; simpl; [by destruct (decide _)|].
  change ((j, v) :: ?l) with ([(j, v)] ++ l). rewrite of_producer_app, IH.
  unfold of_producer. rewrite filter_cons, filter_nil. simpl. by destruct (decide (j = i)).
Qed.

Lemma enqueue_keeps p :
  in_flight p.1 ++ p.2 = (enqueue p).1 ++ in_flight (enqueue p).2.1 ++ (enqueue p).2.2.
Proof. by destruct p as [[|v] [|w todo]]. Qed.

Lemma order_init todos : order_ok todos (init todos).
Proof.
  exists []. split_and!; [done|by simpl; rewrite length_map|].
  intros i e todo. simpl. rewrite list_lookup_fmap.
  destruct (todos !! i) as [l|]; simpl; [|done]. by intros [= <- <-].
Qed.

Lemma order_producer todos i s : order_ok todos s → order_ok todos (step (Producer i) s).
Proof.
  intros (xs & Hxs & Hlen & Hi). simpl. destruct (callers s !! i) as [p|] eqn:Hp; [|by exists xs].
  exists (xs ++ map (λ v, (i, v)) (enqueue p).1). simpl. split_and!.
  - rewrite fmap_app, Hxs, !app_assoc. f_equal.
    induction (enqueue p).1 as [|v vs IH]; simpl; [done|by f_equal].
  - by rewrite length_insert.
  - intros j e todo. rewrite of_producer_app, of_producer_tag.
    destruct (decide (i = j)) as [<-|Hne].
    + rewrite list_lookup_insert_eq; [|by eapply lookup_lt_Some]. intros [= Hq].
      destruct p as [e0 todo0]. rewrite (Hi i e0 todo0 Hp), <-app_assoc. do 2 f_equal.
      pose proof (enqueue_keeps (e0, todo0)) as Hk. by rewrite Hq in Hk.
    + rewrite list_lookup_insert_ne, app_nil_r; [|done]. apply Hi.
Qed.

Lemma order_consumer todos s : order_ok todos s → order_ok todos (step Consumer s).
Proof.
  intros (xs & Hxs & Hlen & Hi). exists xs. simpl.
  destruct (caller s) as [| |r] eqn:Hc; simpl in *; split_and!; try done.
  - rewrite Hxs. by destruct (contents s).
  - rewrite Hxs, omap_app, <-app_assoc. by destruct r.
Qed.

Lemma order_run todos sched s : order_ok todos s → order_ok todos (run sched s).
Proof.
  revert s. induction sched as [|[i|] sched IH]; intros s Hs; simpl; [done|..].
  - by apply IH, order_producer.
  - by apply IH, order_consumer.
Qed.

(** ** Size *)

(** What the producers have still to enqueue. *)
Definition pending (s : state) : nat :=
  sum_list_with (λ p, length (in_flight p.1 ++ p.2)) (callers s).

Definition size_ok (n : nat) (s : state) : Prop := length (contents s) + pending s ≤ n.

Lemma size_init todos : size_ok (sum_list_with length todos) (init todos).
Proof.
  unfold size_ok, pending. induction todos as [|l todos IH]; simpl in *; [done|].
  lia.
Qed.

Lemma size_step n t s : size_ok n s → size_ok n (step t s).
Proof.
  unfold size_ok, pending. destruct t as [i|]; simpl.
  - destruct (callers s !! i) as [p|] eqn:Hp; [|done]. simpl.
    pose proof (sum_insert (λ p, length (in_flight p.1 ++ p.2)) _ _ _ (enqueue p).2 Hp) as Hs.
    simpl in Hs. rewrite enqueue_keeps, !length_app in Hs. rewrite length_app. lia.
  - destruct (caller s); simpl; try done. destruct (contents s); simpl; lia.
Qed.

Lemma size_run n sched s : size_ok n s → size_ok n (run sched s).
Proof.
  revert s. induction sched as [|t sched IH]; intros s Hs; simpl; [done|].
  by apply IH, size_step.
Qed.
End Fifo.
