(* ===== verification/QueueInv.v ===== *)
(** * The invariant of the concurrent queue

    The list from [queue->first] to [queue->middle] is in the order of removal,
    the one from [queue->last] down to [queue->middle] in the reverse order; a
    producer owns its node until the compare-and-store, and the consumer owns
    what it is rearranging.  Every step keeps the invariant while the
    specification takes at most one step of its own. *)

From iris.proofmode Require Import proofmode.
From S2P Require Import Prelude CHeap HeapLogic Atomics Queue QueueSpec.
Import Queue.

Section inv.
Context {V : Type} {A : Allocator V} {AL : AllocatorLaws A}.
Context {At : Atomics V} {AtL : AtomicsLaws At}.
Context {node_struct : Struct V node} {queue_struct : Struct V queue}.
Context {cell_struct : Struct V cell}.

(** ** Lists in memory *)

(** Nodes from [p] down to [e], which is not included. *)
Fixpoint lseg (p e : Z) (vs : list Z) : hPropI V :=
  match vs with
  | [] => ⌜p = e⌝ ∧ emp
  | v :: vs => ∃ n, p ↦ mkNode (Some n) (Some v) ∗ lseg n e vs
  end%I.

(** Nodes from [p], whose value is [x], to [e], which is included. *)
Fixpoint lseg2 (p : Z) (x : option Z) (e : Z) (vs : list Z) : hPropI V :=
  match vs with
  | [] => ⌜p = e⌝ ∧ ∃ n, p ↦ mkNode n x
  | v :: vs => ∃ n, p ↦ mkNode (Some n) x ∗ lseg2 n (Some v) e vs
  end%I.

Lemma lseg_ne p e vs (r : node) : vs ≠ [] → lseg p e vs ∗ e ↦ r ⊢ ⌜p ≠ e⌝.
Proof.
  intros Hvs. destruct vs as [|v vs]; [done|]. iIntros "[(%n & Hp & _) He]".
  iApply (pointsto_ne with "[$Hp $He]").
Qed.

Lemma lseg2_ne p x e vs q (r : node) : lseg2 p x e vs ∗ q ↦ r ⊢ ⌜q ≠ e⌝.
Proof.
  revert p x. induction vs as [|v vs IH]; intros p x; simpl; iIntros "[Hl Hq]".
  - iDestruct "Hl" as "(-> & %n & Hp)". iApply (pointsto_ne with "[$Hq $Hp]").
  - iDestruct "Hl" as "(%n & _ & Hl)". iApply (IH with "[$Hl $Hq]").
Qed.

Lemma lseg2_start p x e vs : lseg2 p x e vs ⊢
  ∃ n, p ↦ mkNode n x ∗ (p ↦ mkNode n x -∗ lseg2 p x e vs).
Proof.
  destruct vs as [|v vs]; simpl.
  - iIntros "(%Hp & %n & Hp)". iExists n. iFrame. iIntros "Hp". iSplit; [done|]. by iExists n.
  - iIntros "(%n & Hp & Hl)". iExists (Some n). iFrame. iIntros "$". done.
Qed.

(** ** Ghost state *)

(** The fields of the queue; [ge] is the end of the list that [queue->last]
    starts, [gfront] the values in front of it and [gback] its values; [gleft]
    is the number of nodes the consumer has still to turn around. *)
Record ghost := mkGhost {
  gmax : Z; gfirst : Z; gmiddle : Z; glast : Z;
  ge : Z; gfront : list Z; gback : list Z; gleft : nat; gcell : option Z;
}.

Definition gcontents (g : ghost) : list Z := gfront g ++ reverse (gback g).

(** ** Ownership *)

(** The node of an enqueuer. *)
Definition enqueue_own (pc : enqueue_pc) (e : Fifo.enqueue_status) : hPropI V :=
  match pc, e with
  | EMalloc v, Fifo.Enqueuing w => ⌜v = w⌝ ∧ emp
  | EValue n v, Fifo.Enqueuing w => ⌜v = w⌝ ∧ n ↦ mkNode None None
  | ELoad n, Fifo.Enqueuing w => ∃ nx, n ↦ mkNode nx (Some w)
  | ENext n _, Fifo.Enqueuing w => ∃ nx, n ↦ mkNode nx (Some w)
  | ECas n l, Fifo.Enqueuing w => n ↦ mkNode (Some l) (Some w)
  | EDone, Fifo.Ready => emp
  | _, _ => False
  end%I.

(** The front list, when the consumer does not rearrange it. *)
Definition front_at (g : ghost) : hPropI V :=
  (⌜ge g = gmiddle g ∧ gleft g = 0⌝ ∧ ∃ x, lseg2 (gfirst g) x (gmiddle g) (gfront g))%I.

(** The front list while [v] is taken off it. *)
Definition taking (g : ghost) (v : Z) : hPropI V :=
  (⌜ge g = gmiddle g ∧ gleft g = 0⌝ ∧ ∃ x, lseg2 (gfirst g) x (gmiddle g) (v :: gfront g))%I.

Definition taking_from (g : ghost) (fn v : Z) : hPropI V :=
  (⌜ge g = gmiddle g ∧ gleft g = 0⌝ ∧ ∃ x, gfirst g ↦ mkNode (Some fn) x ∗
     lseg2 fn (Some v) (gmiddle g) (gfront g))%I.

(** The node with no value that starts an empty front list. *)
Definition dummy (g : ghost) : hPropI V :=
  (⌜gfirst g = gmiddle g⌝ ∧ ∃ n x, gfirst g ↦ mkNode n x)%I.

Definition dequeue_own (pc : dequeue_pc) (d : Fifo.dequeue_status) (g : ghost) : hPropI V :=
  match pc, d with
  | DFirst, Fifo.Dequeuing => front_at g
  | DMiddle f, Fifo.Dequeuing => ⌜f = gfirst g⌝ ∧ front_at g
  | DLast f m, Fifo.Dequeuing =>
      ⌜f = gfirst g ∧ m = gmiddle g ∧ gfront g = []⌝ ∧ front_at g
  | DPrev f m l, Fifo.Dequeued (Some v) =>
      ⌜f = gfirst g ∧ m = gmiddle g ∧ l = ge g⌝ ∧ dummy g ∗
      ∃ u b, ⌜v :: gfront g = reverse (u :: b) ∧ gleft g = length b⌝ ∧ lseg l m (u :: b)
  | DPrevPrev f m l nd p, Fifo.Dequeued (Some v) =>
      ⌜f = gfirst g ∧ m = gmiddle g ∧ l = ge g⌝ ∧ dummy g ∗
      ∃ w b u r, ⌜v :: gfront g = reverse (w :: b) ++ u :: r ∧ gleft g = S (length b)⌝ ∧
        lseg p m (w :: b) ∗ lseg2 nd (Some u) l r
  | DLink f m l nd p pp, Fifo.Dequeued (Some v) =>
      ⌜f = gfirst g ∧ m = gmiddle g ∧ l = ge g⌝ ∧ dummy g ∗
      ∃ w b u r, ⌜v :: gfront g = reverse (w :: b) ++ u :: r ∧ gleft g = length b⌝ ∧
        p ↦ mkNode (Some pp) (Some w) ∗ lseg pp m b ∗ lseg2 nd (Some u) l r
  | DFirstLink f l nd, Fifo.Dequeued (Some v) =>
      ⌜f = gfirst g ∧ l = ge g ∧ gleft g = 0⌝ ∧ dummy g ∗ lseg2 nd (Some v) l (gfront g)
  | DSetMiddle f l, Fifo.Dequeued (Some v) =>
      ⌜f = gfirst g ∧ l = ge g ∧ gleft g = 0⌝ ∧ ∃ x, lseg2 f x l (v :: gfront g)
  | DNoop f, Fifo.Dequeuing => ⌜f = gfirst g ∧ gfront g ≠ []⌝ ∧ front_at g
  | DFirstNext f, Fifo.Dequeued (Some v) => ⌜f = gfirst g⌝ ∧ taking g v
  | DValue f fn, Fifo.Dequeued (Some v) => ⌜f = gfirst g⌝ ∧ taking_from g fn v
  | DPvalue f fn w, Fifo.Dequeued (Some v) => ⌜f = gfirst g ∧ w = v⌝ ∧ taking_from g fn v
  | DSetFirst f fn, Fifo.Dequeued (Some v) =>
      ⌜f = gfirst g ∧ gcell g = Some v⌝ ∧ taking_from g fn v
  | DFree f, Fifo.Dequeued (Some v) =>
      ⌜gcell g = Some v⌝ ∧ front_at g ∗ ∃ n x, f ↦ mkNode n x
  | DRet true, Fifo.Dequeued (Some v) => ⌜gcell g = Some v⌝ ∧ front_at g
  | DRet false, Fifo.Dequeued None => front_at g
  | _, _ => False
  end%I.

Definition consumer_own (c : option dequeue_pc) (d : Fifo.dequeue_status) (g : ghost) :
    hPropI V :=
  match c, d with
  | None, Fifo.Idle => front_at g
  | Some pc, d => dequeue_own pc d g
  | _, _ => False
  end%I.

(** The queue without what the consumer holds. *)
Definition queue_at (queue : Z) (g : ghost) : hPropI V :=
  (queue ↦ mkQueue (Some (gmax g)) (Some (gfirst g)) (Some (gmiddle g)) (Some (glast g)) ∗
   lseg (glast g) (ge g) (gback g))%I.

(** With the variable for results. *)
Definition shared (queue pvalue : Z) (g : ghost) : hPropI V :=
  (queue_at queue g ∗ pvalue ↦ mkCell (gcell g))%I.

(** ** Steps of an enqueuer *)

(** Steps an enqueuer takes if no other interferes; a compare-and-store with a
    value of [queue->last] that is out of date costs another round. *)
Definition enqueue_cost (l : Z) (pc : enqueue_pc) : nat :=
  match pc with
  | EMalloc _ => 5
  | EValue _ _ => 4
  | ELoad _ => 3
  | ENext _ l' => if decide (l' = l) then 2 else 5
  | ECas _ l' => if decide (l' = l) then 1 else 4
  | EDone => 0
  end.

Definition push (n v : Z) (g : ghost) : ghost :=
  mkGhost (gmax g) (gfirst g) (gmiddle g) n (ge g) (gfront g) (v :: gback g) (gleft g) (gcell g).

Lemma push_contents n v g : gcontents (push n v g) = gcontents g ++ [v].
Proof. unfold gcontents. simpl. by rw reverse_cons assoc_L. Qed.

(** A step either changes nothing but the enqueuer's own node, or queues its value. *)
Definition enqueue_moves (pc : enqueue_pc) (e : Fifo.enqueue_status) (g : ghost)
    (pc' : enqueue_pc) (e' : Fifo.enqueue_status) (g' : ghost) : Prop :=
  (pc' ≠ EDone ∧ e' = e ∧ g' = g ∧ enqueue_cost (glast g) pc' < enqueue_cost (glast g) pc) ∨
  (pc' = EDone ∧ ∃ n v, e = Fifo.Enqueuing v ∧ e' = Fifo.Ready ∧ g' = push n v g).

Definition enqueue_post (queue : Z) pc e g (pc' : enqueue_pc) : hPropI V :=
  (∃ e' g', ⌜enqueue_moves pc e g pc' e' g'⌝ ∧ queue_at queue g' ∗ enqueue_own pc' e')%I.

Lemma enqueue_post_same queue pc e g pc' :
  pc' ≠ EDone → enqueue_cost (glast g) pc' < enqueue_cost (glast g) pc →
  queue_at queue g ∗ enqueue_own pc' e ⊢ enqueue_post queue pc e g pc'.
Proof.
  intros Hpc Hc. iIntros "H". iExists e, g. iSplit; [iPureIntro; by left|done].
Qed.

Lemma cas_wp queue n l v g :
  queue_at queue g ∗ enqueue_own (ECas n l) (Fifo.Enqueuing v) ⊢
  wp oom (enqueue_step queue (ECas n l))
    (enqueue_post queue (ECas n l) (Fifo.Enqueuing v) g).
Proof.
  iIntros "[(Hq & Hl) Hn]". simpl. iApply wp_bind.
  iApply (wp_compare_and_store with "Hq"); [reflexivity|].
  destruct (Z.eqb_spec (glast g) l) as [<-|Hne]; iIntros "Hq"; iApply wp_ret.
  - iExists Fifo.Ready, (push n v g).
    iSplit; [by iPureIntro; right; split; [|by exists n, v]|]. by iFrame.
  - iApply enqueue_post_same; [done| |].
    + simpl. rw decide_False //. lia.
    + iFrame.
Qed.

Lemma enqueue_step_wp queue pc e g :
  pc ≠ EDone →
  queue_at queue g ∗ enqueue_own pc e ⊢
  wp oom (enqueue_step queue pc) (enqueue_post queue pc e g).
Proof.
  intros Hpc. destruct pc as [v|n v|n|n l|n l|]; [..|done].
  all: destruct e as [|w]; [by iIntros "[_ []]"|].
  - simpl. iIntros "[Hs [-> _]]". iApply wp_malloc_check; [done|]. iIntros (n) "Hn".
    iApply wp_ret. iApply enqueue_post_same; [done|simpl; lia|]. by iFrame.
  - simpl. iIntros "[Hs [-> Hn]]". wp_write "Hn". iApply wp_ret.
    iApply enqueue_post_same; [done|simpl; lia|]. iFrame.
  - simpl. iIntros "[(Hq & Hl) (%nx & Hn)]". iApply wp_bind.
    iApply (wp_atomic_load with "Hq"); [reflexivity|]. iIntros "Hq". iApply wp_ret.
    iApply enqueue_post_same; [done|simpl; rw decide_True //; lia|]. iFrame.
  - simpl. iIntros "[Hs (%nx & Hn)]". wp_write "Hn". iApply wp_ret.
    iApply enqueue_post_same; [done|simpl; destruct (decide _); lia|]. iFrame.
  - apply cas_wp.
Qed.

(** ** Steps of the dequeuer *)

(** Steps up to the return of the call, when the queue holds at most [n] values. *)
Definition dequeue_cost (n : nat) (pc : dequeue_pc) (left : nat) : nat :=
  match pc with
  | DFirst => 2 * n + 11
  | DMiddle _ => 2 * n + 10
  | DLast _ _ => 2 * n + 9
  | DPrev _ _ _ => 2 * left + 9
  | DPrevPrev _ _ _ _ _ => 2 * left + 8
  | DLink _ _ _ _ _ _ => 2 * left + 9
  | DFirstLink _ _ _ => 8
  | DSetMiddle _ _ => 7
  | DNoop _ => 7
  | DFirstNext _ => 6
  | DValue _ _ => 5
  | DPvalue _ _ _ => 4
  | DSetFirst _ _ => 3
  | DFree _ => 2
  | DRet _ => 1
  end.

(** Taking effect: the status and contents before and after. *)
Definition takes_effect (d : Fifo.dequeue_status) (vs : list Z)
    (d' : Fifo.dequeue_status) (vs' : list Z) : Prop :=
  d = Fifo.Dequeuing ∧ d' = Fifo.Dequeued (head vs) ∧ vs' = tail vs.

Definition dequeue_moves (pc : dequeue_pc) (d : Fifo.dequeue_status) (g : ghost)
    (pc' : dequeue_pc) (d' : Fifo.dequeue_status) (g' : ghost) : Prop :=
  (glast g' = glast g ∧ gmax g' = gmax g) ∧
  ((d' = d ∧ gcontents g' = gcontents g) ∨ takes_effect d (gcontents g) d' (gcontents g')) ∧
  ∀ n, length (gcontents g) ≤ n →
    dequeue_cost n pc' (gleft g') < dequeue_cost n pc (gleft g).

Definition dequeue_post (queue pvalue : Z) pc d g (pc' : dequeue_pc) : hPropI V :=
  (∃ d' g', ⌜dequeue_moves pc d g pc' d' g'⌝ ∧ shared queue pvalue g' ∗ dequeue_own pc' d' g')%I.

Lemma dequeue_post_same queue pvalue pc d g pc' :
  (∀ n, dequeue_cost n pc' (gleft g) < dequeue_cost n pc (gleft g)) →
  shared queue pvalue g ∗ dequeue_own pc' d g ⊢ dequeue_post queue pvalue pc d g pc'.
Proof.
  intros Hc. iIntros "H". iExists d, g. iSplit; [|done]. iPureIntro.
  split_and!; [done|done|by left|intros n _; apply Hc].
Qed.

Definition with_left (k : nat) (g : ghost) : ghost :=
  mkGhost (gmax g) (gfirst g) (gmiddle g) (glast g) (ge g) (gfront g) (gback g) k (gcell g).

Definition with_cell (v : Z) (g : ghost) : ghost :=
  mkGhost (gmax g) (gfirst g) (gmiddle g) (glast g) (ge g) (gfront g) (gback g) (gleft g) (Some v).

Definition with_first (p : Z) (g : ghost) : ghost :=
  mkGhost (gmax g) p (gmiddle g) (glast g) (ge g) (gfront g) (gback g) (gleft g) (gcell g).

Definition with_middle (p : Z) (g : ghost) : ghost :=
  mkGhost (gmax g) (gfirst g) p (glast g) (ge g) (gfront g) (gback g) (gleft g) (gcell g).

(** The front list without its first value. *)
Definition take_front (g : ghost) : ghost :=
  mkGhost (gmax g) (gfirst g) (gmiddle g) (glast g) (ge g) (tail (gfront g)) (gback g)
    (gleft g) (gcell g).

(** The whole back list taken over by the consumer. *)
Definition take_back (g : ghost) : ghost :=
  mkGhost (gmax g) (gfirst g) (gmiddle g) (glast g) (glast g) (tail (reverse (gback g))) []
    (pred (length (gback g))) (gcell g).

(** A step that changes the ghost state but neither status nor contents. *)
Lemma dequeue_post_with queue pvalue pc d g pc' g' :
  glast g' = glast g ∧ gmax g' = gmax g → gcontents g' = gcontents g →
  (∀ n, dequeue_cost n pc' (gleft g') < dequeue_cost n pc (gleft g)) →
  shared queue pvalue g' ∗ dequeue_own pc' d g' ⊢ dequeue_post queue pvalue pc d g pc'.
Proof.
  intros [Hl Hmax] Hg Hc. iIntros "H". iExists d, g'. iSplit; [|done]. iPureIntro.
  split_and!; [done|done|by left|intros n _; apply Hc].
Qed.

(** The test [first == middle]. *)
Lemma front_empty g :
  front_at g ⊢ ⌜gfirst g = gmiddle g ↔ gfront g = []⌝.
Proof.
  iIntros "(_ & %x & Hf)". destruct (gfront g) as [|v vs]; simpl.
  - iDestruct "Hf" as "(-> & _)". done.
  - iDestruct "Hf" as "(%n & Hp & Hl)". iDestruct (lseg2_ne with "[$Hl $Hp]") as %Hne. done.
Qed.

Lemma begin_wp queue pvalue pc d g :
  (pc = DFirst ∨ ∃ f, pc = DMiddle f) →
  shared queue pvalue g ∗ dequeue_own pc d g ⊢
  wp oom (dequeue_step queue pvalue pc) (dequeue_post queue pvalue pc d g).
Proof.
  intros [->|[f ->]]; destruct d as [| |r]; try by iIntros "[_ []]".
  - simpl. iIntros "[((Hq & Hl) & Hp) Hf]". wp_read "Hq". iApply wp_ret.
    iApply dequeue_post_same; [simpl; lia|]. by iFrame.
  - simpl. iIntros "[((Hq & Hl) & Hp) [-> Hf]]". iDestruct (front_empty with "Hf") as %Hf.
    wp_read "Hq". iApply wp_ret. destruct (Z.eqb_spec (gfirst g) (gmiddle g)) as [He|He].
    + iApply dequeue_post_same; [simpl; lia|]. iFrame. iPureIntro. naive_solver.
    + iApply dequeue_post_same; [simpl; lia|]. iFrame. iPureIntro. naive_solver.
Qed.

(** The test [last == middle]. *)
Lemma back_empty g :
  front_at g ∗ lseg (glast g) (ge g) (gback g) ⊢ ⌜glast g = gmiddle g ↔ gback g = []⌝.
Proof.
  iIntros "[(%He & %x & Hf) Hb]". rw (proj1 He). destruct (gback g) as [|v vs]; simpl.
  - iDestruct "Hb" as "(-> & _)". done.
  - iDestruct "Hb" as "(%n & Hp & Hl)". iDestruct (lseg2_ne with "[$Hf $Hp]") as %Hne. done.
Qed.

Lemma front_dummy g : gfront g = [] → front_at g ⊢ dummy g.
Proof.
  intros Hf. iIntros "(_ & %x & Hf)". rw Hf. iDestruct "Hf" as "(%He & %n & Hf)".
  iSplit; [done|]. by iExists n, x.
Qed.

Lemma take_back_effect pc g v vs n :
  gfront g = [] → reverse (gback g) = v :: vs → length (gcontents g) ≤ n →
  takes_effect Fifo.Dequeuing (gcontents g) (Fifo.Dequeued (Some v)) (gcontents (take_back g)) ∧
  dequeue_cost n (DPrev pc.1 pc.1 pc.2) (gleft (take_back g)) < dequeue_cost n (DLast pc.1 pc.1) 0.
Proof.
  unfold takes_effect, gcontents. simpl. intros -> Hr Hn.
  pose proof (length_reverse (gback g)) as Hl. rw Hr in Hn, Hl. simpl in Hn, Hl.
  rw Hr. simpl. rw app_nil_r. split; [done|lia].
Qed.

Lemma load_last_wp queue pvalue f m d g :
  shared queue pvalue g ∗ dequeue_own (DLast f m) d g ⊢
  wp oom (dequeue_step queue pvalue (DLast f m)) (dequeue_post queue pvalue (DLast f m) d g).
Proof.
  destruct d as [| |r]; try by iIntros "[_ []]".
  simpl. iIntros "[((Hq & Hb) & Hp) [%Hpc H]]". destruct Hpc as (-> & -> & Hf).
  iDestruct (back_empty with "[$H $Hb]") as %Hbe.
  iApply wp_bind. iApply (wp_atomic_load with "Hq"); [reflexivity|]. iIntros "Hq". iApply wp_ret.
  destruct (Z.eqb_spec (glast g) (gmiddle g)) as [He|He].
  - iExists (Fifo.Dequeued None), g. iSplit; [iPureIntro|by iFrame].
    assert (gcontents g = []) as Hc by (unfold gcontents; by rw Hf (proj1 Hbe He)).
    split_and!; [done|done|right; by rw /takes_effect Hc|simpl; lia].
  - destruct (reverse (gback g)) as [|v vs] eqn:Hr.
    { apply (f_equal reverse) in Hr. rw reverse_involutive in Hr. naive_solver. }
    iAssert ⌜ge g = gmiddle g⌝%I with "[H]" as %Hge; [by iDestruct "H" as "([% %] & _)"|].
    iDestruct (front_dummy with "H") as "H"; [done|]. rw Hge.
    iExists (Fifo.Dequeued (Some v)), (take_back g). iFrame "Hq Hp". iSplit.
    + iPureIntro. split_and!; [done|done|right; by eapply (take_back_effect (0, 0)%Z)|].
      intros n Hn. eapply (take_back_effect (0, 0)%Z); done.
    + simpl. iSplit; [done|]. iSplit; [done|]. iFrame "H".
      destruct (gback g) as [|u b] eqn:Hgb; [done|]. iExists u, b. iFrame. iPureIntro. by rw Hr.
Qed.

(** Entering or leaving the loop: [nd] starts the part already turned around. *)
Lemma loop_own nd p v g b u r :
  v :: gfront g = reverse b ++ u :: r →
  dummy g ∗ lseg p (gmiddle g) b ∗ lseg2 nd (Some u) (ge g) r ⊢
  dequeue_own (dequeue_loop (gfirst g) (gmiddle g) (ge g) nd p) (Fifo.Dequeued (Some v))
    (with_left (length b) g).
Proof.
  intros Hv. iIntros "([%Hd (%n & %x & Hf)] & Hb & Hr)". unfold dequeue_loop.
  destruct b as [|w b].
  - iDestruct "Hb" as "[-> _]". rw Z.eqb_refl. simpl in Hv. simplify_eq. iSplit; [done|].
    iFrame. done.
  - rw Hd. iDestruct (lseg_ne _ _ (w :: b) with "[$Hb $Hf]") as %Hne; [done|].
    rw (proj2 (Z.eqb_neq _ _) Hne). iSplit; [done|]. rw -{1}Hd. iSplitL "Hf".
    + iSplit; [done|]. simpl. rw Hd. by iExists n, x.
    + iExists w, b, u, r. by iFrame.
Qed.

Lemma loop_cost n f m l nd p k :
  dequeue_cost n (dequeue_loop f m l nd p) k < 2 * k + 9.
Proof. unfold dequeue_loop. destruct (_ =? _)%Z; simpl; lia. Qed.

Lemma loop_wp queue pvalue pc d g :
  (∃ f m l, pc = DPrev f m l) ∨ (∃ f m l nd p, pc = DPrevPrev f m l nd p) ∨
  (∃ f m l nd p pp, pc = DLink f m l nd p pp) →
  shared queue pvalue g ∗ dequeue_own pc d g ⊢
  wp oom (dequeue_step queue pvalue pc) (dequeue_post queue pvalue pc d g).
Proof.
  intros [(f & m & l & ->)|[(f & m & l & nd & p & ->)|(f & m & l & nd & p & pp & ->)]].
  all: destruct d as [| |[v|]]; try by iIntros "[_ []]".
  all: simpl; iIntros "[Hs [%Hpc (Hd & H)]]"; destruct Hpc as (-> & -> & ->).
  - iDestruct "H" as (u b) "[%Hvl (%p & Hp & Hb)]". destruct Hvl as [Hv Hl]. wp_read "Hp". iApply wp_ret.
    iApply (dequeue_post_with _ _ _ _ _ _ (with_left (length b) g)); [done|done|..].
    { intros n. simpl. rw Hl. apply loop_cost. }
    iFrame "Hs". iApply (loop_own _ _ _ _ _ u []); [by rw reverse_cons in Hv|]. iFrame.
    done.
  - iDestruct "H" as (w b u r) "[%Hvl [(%pp & Hp & Hb) Hr]]". destruct Hvl as [Hv Hl]. wp_read "Hp". iApply wp_ret.
    iApply (dequeue_post_with _ _ _ _ _ _ (with_left (length b) g)); [done|done|..].
    { intros n. simpl. lia. }
    iFrame "Hs Hd". iSplit; [done|]. iExists w, b, u, r. by iFrame.
  - iDestruct "H" as (w b u r) "[%Hvl (Hp & Hb & Hr)]". destruct Hvl as [Hv Hl]. wp_write "Hp". iApply wp_ret.
    iApply (dequeue_post_with _ _ _ _ _ _ (with_left (length b) g)); [done|done|..].
    { intros n. simpl. rw Hl. apply loop_cost. }
    iFrame "Hs". iApply (loop_own _ _ _ _ _ w (u :: r)).
    { by rw reverse_cons -assoc_L in Hv. }
    iFrame. 
Qed.

(** ** After the lists are joined *)

Lemma join_wp queue pvalue pc d g :
  (∃ f l nd, pc = DFirstLink f l nd) ∨ (∃ f l, pc = DSetMiddle f l) ∨ (∃ f, pc = DNoop f) →
  shared queue pvalue g ∗ dequeue_own pc d g ⊢
  wp oom (dequeue_step queue pvalue pc) (dequeue_post queue pvalue pc d g).
Proof.
  intros [(f & l & nd & ->)|[(f & l & ->)|(f & ->)]]; destruct d as [| |[v|]];
    try by iIntros "[_ []]".
  - simpl. iIntros "[Hs [%Hpc [[_ (%n & %x & Hf)] Hr]]]".
    destruct Hpc as (-> & -> & Hl). wp_write "Hf". iApply wp_ret.
    iApply dequeue_post_same; [simpl; lia|]. iFrame. done.
  - simpl. iIntros "[((Hq & Hb) & Hp) [%Hpc Hr]]". destruct Hpc as (-> & -> & Hl). wp_write "Hq". iApply wp_ret.
    iApply (dequeue_post_with _ _ _ _ _ _ (with_middle (ge g) g)); [done|done|simpl; lia|].
    iFrame. done.
  - simpl. iIntros "[Hs [%Hf (%He & %x & Hr)]]". destruct Hf as [-> Hf]. iApply wp_ret.
    destruct (gfront g) as [|v vs] eqn:Hg; [done|].
    iExists (Fifo.Dequeued (Some v)), (take_front g). iFrame "Hs". iSplit.
    + iPureIntro. split_and!; [done|done| |simpl; lia]. right. unfold takes_effect, gcontents.
      simpl. by rw Hg.
    + simpl. rw /taking /= Hg. iSplit; [done|]. iSplit; [done|]. by iExists x.
Qed.

Lemma finish_wp queue pvalue pc d g :
  (∃ f, pc = DFirstNext f) ∨ (∃ f fn, pc = DValue f fn) ∨ (∃ f fn v, pc = DPvalue f fn v) ∨
  (∃ f fn, pc = DSetFirst f fn) ∨ (∃ f, pc = DFree f) →
  shared queue pvalue g ∗ dequeue_own pc d g ⊢
  wp oom (dequeue_step queue pvalue pc) (dequeue_post queue pvalue pc d g).
Proof.
  intros [(f & ->)|[(f & fn & ->)|[(f & fn & v & ->)|[(f & fn & ->)|(f & ->)]]]].
  all: destruct d as [| |[w|]]; try by iIntros "[_ []]".
  - simpl. iIntros "[Hs [-> (%Hg & %x & %fn & Hf & Hr)]]". wp_read "Hf". iApply wp_ret.
    iApply dequeue_post_same; [simpl; lia|]. iFrame. by iSplit.
  - simpl. iIntros "[Hs [-> (%Hg & %x & Hf & Hr)]]".
    iDestruct (lseg2_start with "Hr") as "(%n & Hn & Hr)". wp_read "Hn". iApply wp_ret.
    iApply dequeue_post_same; [simpl; lia|]. iFrame "Hs". iSplit; [done|]. iSplit; [done|].
    iExists x. iFrame "Hf". by iApply "Hr".
  - simpl. iIntros "[((Hq & Hl) & Hp) [%Hpc H]]". destruct Hpc as [-> ->]. wp_write "Hp". iApply wp_ret.
    iApply (dequeue_post_with _ _ _ _ _ _ (with_cell w g)); [done|done|simpl; lia|]. by iFrame.
  - simpl. iIntros "[((Hq & Hl) & Hp) [%Hpc (%Hg & %x & Hf & Hr)]]".
    destruct Hpc as [-> Hc]. wp_write "Hq".
    iApply wp_ret.
    iApply (dequeue_post_with _ _ _ _ _ _ (with_first fn g)); [done|done|simpl; lia|].
    iFrame "Hq Hp Hl". iSplit; [done|]. iSplitL "Hr"; [|by iExists _, _].
    iSplit; [done|]. by iExists _.
  - simpl. iIntros "[Hs [%Hc [Hf (%n & %x & Hn)]]]". wp_release "Hn". iApply wp_ret.
    iApply dequeue_post_same; [simpl; lia|]. iFrame. done.
Qed.

Lemma dequeue_step_wp queue pvalue pc d g :
  (∀ b, pc ≠ DRet b) →
  shared queue pvalue g ∗ dequeue_own pc d g ⊢
  wp oom (dequeue_step queue pvalue pc) (dequeue_post queue pvalue pc d g).
Proof.
  intros Hpc. destruct pc; [..|by destruct (Hpc b)];
    first [ apply load_last_wp | apply begin_wp; by eauto | apply loop_wp; by eauto 10
          | apply join_wp; by eauto 10 | apply finish_wp; by eauto 10 ].
Qed.
End inv.
