(* ===== verification/QueueSystem.v ===== *)
(** * Producers and a consumer together

    The invariant of a system of threads, the simulation of each step by the
    specification, and the measures behind the progress theorems. *)

From iris.proofmode Require Import proofmode.
From S2P Require Import Prelude CHeap HeapLogic Atomics Queue QueueSpec QueueInv.
Import Queue.

Section system.
Context {V : Type} {A : Allocator V} {AL : AllocatorLaws A}.
Context {At : Atomics V} {AtL : AtomicsLaws At}.
Context {node_struct : Struct V node} {queue_struct : Struct V queue}.
Context {cell_struct : Struct V cell}.

(** ** Producers *)

Definition producer_own (p : enqueue_pc * list Z) (s : Fifo.enqueue_status * list Z) : hPropI V :=
  (⌜p.2 = s.2⌝ ∧ enqueue_own p.1 s.1)%I.

(** Values that are not queued yet. *)
Definition unqueued (p : enqueue_pc * list Z) : nat :=
  match p.1 with EDone => 0 | _ => 1 end + length p.2.

(** Steps a producer takes alone. *)
Definition producer_cost (l : Z) (p : enqueue_pc * list Z) : nat :=
  enqueue_cost l p.1 + 6 * length p.2.

Definition finished (p : enqueue_pc * list Z) : bool :=
  match p with (EDone, []) => true | _ => false end.

(** The queue is as before, or a node was added behind [queue->last]. *)
Definition same_or_pushed (g g' : ghost) : Prop := g' = g ∨ ∃ n v, g' = push n v g.

Definition producer_moves (p : enqueue_pc * list Z) s g (p' : enqueue_pc * list Z) s' g' : Prop :=
  same_or_pushed g g' ∧
  ((s' = s ∧ gcontents g' = gcontents g) ∨
   (s' = (Fifo.enqueue s).2 ∧ gcontents g' = gcontents g ++ (Fifo.enqueue s).1)) ∧
  (finished p = false →
     (g' = g ∧ unqueued p' = unqueued p ∧
        producer_cost (glast g) p' < producer_cost (glast g) p) ∨
     (unqueued p = S (unqueued p') ∧
        producer_cost (glast g) p' < producer_cost (glast g) p)) ∧
  (finished p = true → p' = p ∧ g' = g).

Definition producer_post (queue : Z) p s g (p' : enqueue_pc * list Z) : hPropI V :=
  (∃ s' g', ⌜producer_moves p s g p' s' g'⌝ ∧ queue_at queue g' ∗ producer_own p' s')%I.

Lemma producer_running queue pc todo s g :
  pc ≠ EDone →
  queue_at queue g ∗ producer_own (pc, todo) s ⊢
  wp oom (pc ← enqueue_step queue pc; mret (pc, todo)) (producer_post queue (pc, todo) s g).
Proof.
  intros Hpc. destruct s as [e todo']. iIntros "[Hs [%Ht He]]". simpl in Ht. subst todo'.
  iApply (wp_call (enqueue_step_wp queue pc e g Hpc) (λ x, x) with "[$Hs $He]").
  iIntros (pc') "(%e' & %g' & %Hm & Hs & He)". iApply wp_ret.
  iExists (e', todo), g'. iFrame "Hs". iSplit; [|by iFrame]. iPureIntro.
  assert (finished (pc, todo) = false) as Hfin by (by destruct pc).
  destruct Hm as [(Hpc' & -> & -> & Hc)|(-> & n & v & -> & -> & ->)].
  - split_and!; [by left|by left| |by rw Hfin]. intros _. left. split_and!; [done| |].
    + unfold unqueued. simpl. by destruct pc, pc'.
    + unfold producer_cost. simpl. lia.
  - split_and!; [right; by eexists _, _|right|intros _; right|by rw Hfin].
    + by rw push_contents.
    + unfold unqueued, producer_cost. simpl. destruct pc; simpl; try done;
        repeat case_decide; lia.
Qed.

Lemma producer_step_wp queue p s g :
  queue_at queue g ∗ producer_own p s ⊢
  wp oom (producer_step queue p) (producer_post queue p s g).
Proof.
  destruct p as [pc todo]. destruct pc; try by apply producer_running.
  destruct s as [e todo']. iIntros "[Hs [%Ht He]]". simpl in Ht. subst todo'.
  destruct e as [|w]; [|done]. destruct todo as [|v todo]; iApply wp_ret.
  - iExists (Fifo.Ready, []), g. iFrame "Hs". iSplit; [|by iFrame]. iPureIntro.
    split_and!; [by left|by left|done|done].
  - iExists (Fifo.Enqueuing v, todo), g. iFrame "Hs". iSplit.
    + iPureIntro. split_and!; [by left|right|intros _; left|done].
      * by rw app_nil_r.
      * unfold unqueued, producer_cost. simpl. split_and!; [done|lia|lia].
    + simpl. by iSplit.
Qed.

(** ** The consumer *)

(** Steps of the consumer up to the next result. *)
Definition consumer_cost (n : nat) (c : option dequeue_pc) (g : ghost) : nat :=
  match c with None => 2 * n + 12 | Some pc => dequeue_cost n pc (gleft g) end.

Definition consumer_moves (c : option dequeue_pc) (rs : list (option Z)) d g
    (c' : option dequeue_pc) (rs' : list (option Z)) d' g' : Prop :=
  glast g' = glast g ∧
  ((d' = d ∧ gcontents g' = gcontents g ∧ rs' = rs) ∨
   (takes_effect d (gcontents g) d' (gcontents g') ∧ rs' = rs) ∨
   (d = Fifo.Idle ∧ d' = Fifo.Dequeuing ∧ gcontents g' = gcontents g ∧ rs' = rs) ∨
   (∃ r, d = Fifo.Dequeued r ∧ d' = Fifo.Idle ∧ gcontents g' = gcontents g ∧ rs' = rs ++ [r])) ∧
  ∀ n, length (gcontents g) ≤ n →
    (rs' = rs ∧ consumer_cost n c' g' < consumer_cost n c g) ∨
    (length rs' = S (length rs) ∧ c' = None).

Definition consumer_post (queue pvalue : Z) c rs d g
    (cr : option dequeue_pc * list (option Z)) : hPropI V :=
  (∃ d' g', ⌜consumer_moves c rs d g cr.1 cr.2 d' g'⌝ ∧
     shared queue pvalue g' ∗ consumer_own cr.1 d' g')%I.

Lemma consumer_running queue pvalue pc rs d g :
  (∀ b, pc ≠ DRet b) →
  shared queue pvalue g ∗ dequeue_own pc d g ⊢
  wp oom (pc ← dequeue_step queue pvalue pc; mret (Some pc, rs))
    (consumer_post queue pvalue (Some pc) rs d g).
Proof.
  intros Hpc. iIntros "H".
  iApply (wp_call (dequeue_step_wp queue pvalue pc d g Hpc) (λ x, x) with "H").
  iIntros (pc') "(%d' & %g' & %Hm & H)". iApply wp_ret. iExists d', g'.
  iSplit; [iPureIntro|done].
  destruct Hm as ([Hl _] & Hd & Hc). split_and!; [done|naive_solver|].
  intros n Hn. left. split; [done|]. by apply Hc.
Qed.

Lemma consumer_step_wp queue pvalue c rs d g :
  shared queue pvalue g ∗ consumer_own c d g ⊢
  wp oom (consumer_step queue pvalue c rs) (consumer_post queue pvalue c rs d g).
Proof.
  destruct c as [pc|].
  - destruct pc; try by apply consumer_running. destruct b, d as [| |[v|]]; simpl;
      try by iIntros "[_ []]".
    + iIntros "[(Hq & Hp) [%Hv Hf]]". iApply wp_bind.
      iApply (wp_load with "Hp"); [exact Hv|]. iIntros "Hp". iApply wp_ret.
      iExists Fifo.Idle, g. iSplit; [iPureIntro|by iFrame]. split_and!; [done|naive_solver|].
      intros n _. right. by rw length_app Nat.add_comm.
    + iIntros "[Hs Hf]". iApply wp_ret. iExists Fifo.Idle, g. iSplit; [iPureIntro|by iFrame].
      split_and!; [done|naive_solver|]. intros n _. right. by rw length_app Nat.add_comm.
  - destruct d; simpl; try by iIntros "[_ []]". iIntros "[Hs Hf]". iApply wp_ret.
    iExists Fifo.Dequeuing, g. iSplit; [iPureIntro|by iFrame]. split_and!; [done|naive_solver|].
    intros n _. left. split; [done|]. simpl. lia.
Qed.

(** ** The invariant of the system *)

Definition producers_own (ps : list (enqueue_pc * list Z))
    (ss : list (Fifo.enqueue_status * list Z)) : hPropI V :=
  ([∗ list] p;s ∈ ps;ss, producer_own p s)%I.

Definition system_inv (queue pvalue : Z) (c : config) (s : Fifo.state) (g : ghost) : hPropI V :=
  (⌜Fifo.contents s = gcontents g ∧ Fifo.answers s = results c⌝ ∧
   shared queue pvalue g ∗ consumer_own (consumer c) (Fifo.caller s) g ∗
   producers_own (producers c) (Fifo.callers s))%I.

(** ** Measures *)

(** Steps the producers can take: a value queued sends at most every producer
    through its loop once more. *)
Definition producers_cost (l : Z) (c : config) : nat :=
  sum_list_with (λ p, producer_cost l p + 3 * length (producers c) * unqueued p) (producers c).

(** Whether a step of [t] does anything for a producer. *)
Definition busy (t : thread) (c : config) : bool :=
  match t with
  | Producer i => match producers c !! i with Some p => negb (finished p) | None => false end
  | Consumer => false
  end.

Definition step_moves (t : thread) c s g c' s' g' : Prop :=
  (s' = s ∨ s' = Fifo.step t s) ∧
  (producers_cost (glast g') c' + (if busy t c then 1 else 0) ≤ producers_cost (glast g) c) ∧
  ∀ n, length (gcontents g) ≤ n →
    match t with
    | Producer _ =>
        results c' = results c ∧ consumer_cost n (consumer c') g' = consumer_cost n (consumer c) g
    | Consumer =>
        (results c' = results c ∧
           consumer_cost n (consumer c') g' < consumer_cost n (consumer c) g) ∨
        (length (results c') = S (length (results c)) ∧ consumer c' = None)
    end.

Definition step_post (queue pvalue : Z) (t : thread) c s g (c' : config) : hPropI V :=
  (∃ s' g', ⌜step_moves t c s g c' s' g'⌝ ∧ system_inv queue pvalue c' s' g')%I.

Lemma enqueue_cost_shift l l' pc : enqueue_cost l' pc ≤ enqueue_cost l pc + 3.
Proof. destruct pc; simpl; repeat case_decide; lia. Qed.

Lemma producers_cost_step c i p p' g g' :
  producers c !! i = Some p →
  (finished p = false →
     (g' = g ∧ unqueued p' = unqueued p ∧
        producer_cost (glast g) p' < producer_cost (glast g) p) ∨
     (unqueued p = S (unqueued p') ∧
        producer_cost (glast g) p' < producer_cost (glast g) p)) →
  (finished p = true → p' = p ∧ g' = g) →
  producers_cost (glast g') (mkConfig (<[i := p']> (producers c)) (consumer c) (results c)) +
    (if busy (Producer i) c then 1 else 0) ≤ producers_cost (glast g) c.
Proof.
  intros Hp Hrun Hfin. unfold producers_cost, busy. cbn [producers]. rw Hp length_insert.
  set (P := length (producers c)). set (w := λ l p, producer_cost l p + 3 * P * unqueued p).
  pose proof (sum_insert (w (glast g)) _ _ _ p' Hp) as Hs.
  destruct (finished p); cbn [negb].
  { destruct Hfin as [-> ->]; [done|]. rw (list_insert_id _ _ _ Hp). lia. }
  assert (sum_list_with (w (glast g')) (<[i:=p']> (producers c)) ≤
    sum_list_with (w (glast g)) (<[i:=p']> (producers c)) + 3 * P) as Hle.
  { unfold P. rw -(length_insert (producers c) i p') -sum_add. apply sum_le. intros x _.
    unfold w, producer_cost. pose proof (enqueue_cost_shift (glast g) (glast g') x.1). lia. }
  destruct Hrun as [(-> & Hu & Hc)|[Hu Hc]]; [done|..];
    fold (w (glast g)) in Hle |- *; unfold w at 2 4 in Hs; rw Hu ?Nat.mul_succ_r in Hs.
  - lia.
  - fold (w (glast g')). lia.
Qed.

Lemma consumer_own_pushed c d g g' : same_or_pushed g g' → consumer_own c d g' = consumer_own c d g.
Proof. intros [->|(n & v & ->)]; [done|]. destruct c as [pc|]; [|done]. by destruct pc, d as [| |[|]]. Qed.

Lemma consumer_cost_pushed n c g g' :
  same_or_pushed g g' → consumer_cost n c g' = consumer_cost n c g.
Proof. by intros [->|(k & v & ->)]. Qed.

(** ** One step of the system *)

Lemma producer_system_wp queue pvalue i c s g :
  system_inv queue pvalue c s g ⊢
  wp oom (step queue pvalue (Producer i) c) (step_post queue pvalue (Producer i) c s g).
Proof.
  iIntros "([%Hs %Hr] & [Hs Hv] & Hc & Hps)". simpl.
  iDestruct (big_sepL2_length with "Hps") as %Hlen.
  destruct (producers c !! i) as [p|] eqn:Hp; [|iApply wp_ret; iExists s, g; iSplit; [iPureIntro|by iFrame]].
  - destruct (lookup_lt_is_Some_2 (Fifo.callers s) i) as [q Hq].
    { rw -Hlen. by eapply lookup_lt_Some. }
    iDestruct (big_sepL2_insert_acc with "Hps") as "[Hp Hps]"; [done|done|].
    iApply (wp_call (producer_step_wp queue p q g) (λ x, x) with "[$Hs $Hp]").
    iIntros (p') "(%q' & %g' & %Hm & Hs & Hp)". iApply wp_ret.
    iDestruct ("Hps" with "Hp") as "Hps". destruct Hm as (Hg & Hq' & Hrun & Hfin).
    iExists (Fifo.mkState (gcontents g') (<[i := q']> (Fifo.callers s)) (Fifo.caller s)
      (Fifo.answers s)), g'. iSplit.
    + iPureIntro. split_and!; [|by eapply producers_cost_step|].
      * destruct Hq' as [[-> ->]|[-> ->]]; [left|right].
        -- rw list_insert_id // -Hs. by destruct s.
        -- simpl. by rw Hq Hs.
      * intros n _. split; [done|by apply consumer_cost_pushed].
    + assert (gcell g = gcell g') as Hcell by (by destruct Hg as [->|(n & v & ->)]).
      rw /system_inv /shared /= (consumer_own_pushed _ _ _ _ Hg) Hcell. by iFrame.
  - split_and!; [by left|unfold busy; rw Hp; lia|done].
Qed.

Lemma consumer_system_wp queue pvalue c s g :
  system_inv queue pvalue c s g ⊢
  wp oom (step queue pvalue Consumer c) (step_post queue pvalue Consumer c s g).
Proof.
  iIntros "([%Hs %Hr] & Hs & Hc & Hps)". simpl.
  iApply (wp_call (consumer_step_wp queue pvalue (consumer c) (results c) (Fifo.caller s) g)
    (λ x, x) with "[$Hs $Hc]").
  iIntros ([c' rs']) "(%d' & %g' & %Hm & Hs & Hc)". iApply wp_ret. simpl in Hm.
  destruct Hm as (Hl & Hd & Hcost).
  iExists (Fifo.mkState (gcontents g') (Fifo.callers s) d' rs'), g'. iSplit.
  - iPureIntro. split_and!; [|unfold producers_cost; simpl; rw Hl; lia|done].
    destruct s as [vs ps d rs]. simpl in *. subst vs rs.
    destruct Hd as [(-> & -> & ->)|[[(-> & -> & ->) ->]|[(-> & -> & -> & ->)|(r & -> & -> & -> & ->)]]];
      [by left|by right..].
  - by iFrame.
Qed.

Lemma step_wp queue pvalue t c s g :
  system_inv queue pvalue c s g ⊢
  wp oom (step queue pvalue t c) (step_post queue pvalue t c s g).
Proof. destruct t; [apply producer_system_wp|apply consumer_system_wp]. Qed.

(** ** Runs *)

(** The system invariant holds of the memory [m]. *)
Definition simulates (queue pvalue : Z) (m : mem V) c s g : Prop :=
  hholds (system_inv queue pvalue c s g) (heap m).

Lemma step_run queue pvalue t c s g m :
  simulates queue pvalue m c s g →
  match step queue pvalue t c m with
  | Ok (c', m') => ∃ s' g', step_moves t c s g c' s' g' ∧ simulates queue pvalue m' c' s' g'
  | Err e => e = EAbort ∧ oom
  end.
Proof.
  intros Hm. destruct m as [h k].
  pose proof (wp_run oom _ _ _ h k (step_wp queue pvalue t c s g) Hm) as Hs.
  destruct (step _ _ _ _ _) as [[c' m']|e]; [|done].
  destruct Hs as (s' & g' & Hmv & Hi). by exists s', g'.
Qed.

(** Consumer steps in a schedule. *)
Definition consumer_steps (sched : list thread) : nat :=
  length (filter (λ t, t = Consumer) sched).

(** The steps of producers with work to do in a run. *)
Fixpoint effort (queue pvalue : Z) (sched : list thread) (c : config) (m : mem V) : nat :=
  match sched with
  | [] => 0
  | t :: sched =>
      match step queue pvalue t c m with
      | Ok (c', m') => (if busy t c then 1 else 0) + effort queue pvalue sched c' m'
      | Err _ => 0
      end
  end.

Lemma effort_bound queue pvalue sched c s g m :
  simulates queue pvalue m c s g →
  effort queue pvalue sched c m ≤ producers_cost (glast g) c.
Proof.
  revert c s g m. induction sched as [|t sched IH]; intros c s g m Hm; simpl; [lia|].
  pose proof (step_run queue pvalue t c s g m Hm) as Hs.
  destruct (step _ _ _ _ _) as [[c' m']|e]; [|lia].
  destruct Hs as (s' & g' & (_ & Hc & _) & Hm'). specialize (IH c' s' g' m' Hm'). lia.
Qed.

(** How the result of a run relates to its start: the specification made some
    of the steps; a call under way has at most [2 n + 12] steps of the consumer
    left, and those of a run in which no call returns are among them. *)
Definition run_moves (n : nat) (sched : list thread) c s g c' s' g' : Prop :=
  (∃ sched', sched' `sublist_of` sched ∧ s' = Fifo.run sched' s) ∧
  length (results c) ≤ length (results c') ∧
  (length (results c') = length (results c) →
     consumer_steps sched + consumer_cost n (consumer c') g' ≤ consumer_cost n (consumer c) g) ∧
  (consumer_cost n (consumer c) g ≤ 2 * n + 12 → consumer_cost n (consumer c') g' ≤ 2 * n + 12).

Lemma consumer_cost_pos n c g : 1 ≤ consumer_cost n c g.
Proof. destruct c as [[]|]; simpl; lia. Qed.

Lemma run_moves_cons n t sched c s g c1 s1 g1 c' s' g' :
  length (gcontents g) ≤ n →
  step_moves t c s g c1 s1 g1 → run_moves n sched c1 s1 g1 c' s' g' →
  run_moves n (t :: sched) c s g c' s' g'.
Proof.
  intros Hn (Hs1 & _ & Hc1) [(sched' & Hsub & ->) (Hl & Hc & Hb)]. specialize (Hc1 n Hn). split.
  - destruct Hs1 as [->| ->]; [exists sched'|exists (t :: sched')].
    + split; [by apply sublist_cons|done].
    + split; [by apply sublist_skip|done].
  - revert Hc. unfold consumer_steps. rw filter_cons. destruct t as [i|]; simpl.
    + destruct Hc1 as [Hr1 Hc1]. rw Hr1 in Hl |- *. rw Hc1 in Hb |- *. done.
    + destruct Hc1 as [[Hr1 Hlt]|[Hr1 Hc1]].
      * rw Hr1 in Hl |- *. intros Hc. split_and!; [done|intros Heq; specialize (Hc Heq); lia|lia].
      * rw Hr1 in Hl |- *. rw Hc1 in Hb. simpl in Hb. intros _. split_and!; [lia|lia|intros _; by apply Hb].
Qed.

Lemma run_ok n queue pvalue sched c s g m :
  simulates queue pvalue m c s g → Fifo.size_ok n s →
  match run queue pvalue sched c m with
  | Ok (c', m') => ∃ s' g', run_moves n sched c s g c' s' g' ∧ simulates queue pvalue m' c' s' g'
  | Err e => e = EAbort ∧ oom
  end.
Proof.
  revert c s g m. induction sched as [|t sched IH]; intros c s g m Hm Hn; simpl.
  - exists s, g. split; [|done]. split; [by exists []|]. unfold consumer_steps. simpl. split_and!; lia.
  - unfold mbind, M_bind. pose proof (step_run queue pvalue t c s g m Hm) as Hs.
    destruct (step _ _ _ _ _) as [[c1 m1]|e]; [|done].
    destruct Hs as (s1 & g1 & Hmv & Hm1).
    assert (Fifo.size_ok n s1) as Hn1.
    { destruct Hmv as [[->| ->] _]; [done|by apply Fifo.size_step]. }
    specialize (IH c1 s1 g1 m1 Hm1 Hn1). destruct (run _ _ _ _ _) as [[c' m']|e]; [|done].
    destruct IH as (s' & g' & Hr & Hm'). exists s', g'. split; [|done].
    eapply run_moves_cons; [|done|done]. destruct Hm as [[<- _] _].
    unfold Fifo.size_ok in Hn. lia.
Qed.

(** ** The start *)

Definition start_ghost (numelements p : Z) : ghost :=
  mkGhost numelements p p p p [] [] 0 None.

Lemma create_queue_wp numelements :
  ⊢ wp oom (create_queue numelements) (λ queue, ∃ p,
      queue ↦ mkQueue (Some numelements) (Some p) (Some p) (Some p) ∗ p ↦ mkNode None None)%I.
Proof.
  iIntros. iApply wp_malloc_check; [done|]. iIntros (p) "Hp".
  iApply wp_malloc_check; [done|]. iIntros (q) "Hq".
  wp_write "Hq". wp_write "Hq". wp_write "Hq". wp_write "Hq". iApply wp_ret. iExists p. iFrame.
Qed.

Lemma start_producers todos :
  ⊢ producers_own (producers (start todos)) (Fifo.callers (Fifo.init todos)).
Proof.
  unfold producers_own. simpl. iInduction todos as [|l todos] "IH"; simpl; [done|].
  iSplit; [done|]. iApply "IH".
Qed.

Lemma start_inv queue pvalue numelements p todos :
  queue ↦ mkQueue (Some numelements) (Some p) (Some p) (Some p) ∗ p ↦ mkNode None None ∗
  pvalue ↦ mkCell None ⊢
  system_inv queue pvalue (start todos) (Fifo.init todos) (start_ghost numelements p).
Proof.
  iIntros "(Hq & Hp & Hc)". iSplit; [done|]. iFrame "Hq Hc". iSplit; [done|].
  iSplitL "Hp"; [|iApply start_producers]. iSplit; [done|]. iExists None. simpl. iSplit; [done|].
  by iExists None.
Qed.

Lemma start_wp numelements todos :
  ⊢ wp oom (setup numelements)
      (λ qp, ∃ p, system_inv qp.1 qp.2 (start todos) (Fifo.init todos)
                    (start_ghost numelements p)).
Proof.
  iIntros. iApply (wp_call (emp_of (create_queue_wp numelements)) (λ x, x)); [done|].
  iIntros (q) "(%p & Hq & Hp)". iApply wp_malloc_check; [done|]. iIntros (pv) "Hc".
  iApply wp_ret. iExists p. iApply start_inv. iFrame.
Qed.

Lemma start_cost l todos :
  producers_cost l (start todos) = (6 + 3 * length todos) * sum_list_with length todos.
Proof.
  unfold producers_cost, start. cbn [producers]. rw length_map. generalize (length todos) as P.
  intros P. induction todos as [|x todos IH]; cbn [map sum_list_with]; [lia|].
  rw IH. unfold producer_cost, unqueued. simpl. lia.
Qed.

(** ** Whole systems *)

(** The memory and the ghost state a system starts with. *)
Definition started numelements todos (q : Z * Z) (m : mem V) (g : ghost) : Prop :=
  simulates q.1 q.2 m (start todos) (Fifo.init todos) g ∧
  ∃ p, g = start_ghost numelements p.

Lemma setup_run numelements todos k :
  match setup numelements (mkMem ∅ k) with
  | Ok (q, m) => ∃ g, started numelements todos q m g
  | Err e => e = EAbort ∧ oom
  end.
Proof.
  pose proof (wp_run oom _ emp%I _ ∅ k (emp_of (start_wp numelements todos)) eq_refl) as H.
  destruct (setup _ _) as [[q m]|e]; [|done]. destruct H as (p & Hp).
  exists (start_ghost numelements p). by split; [|exists p].
Qed.

(** What a run of the whole system ends in. *)
Lemma system_ok numelements todos sched k :
  match system numelements todos sched (mkMem ∅ k) with
  | Ok (q, c, m) => ∃ s g g0,
      run_moves (sum_list_with length todos) sched (start todos) (Fifo.init todos) g0 c s g ∧
      (∃ p, g0 = start_ghost numelements p) ∧ simulates q.1 q.2 m c s g
  | Err e => e = EAbort ∧ oom
  end.
Proof.
  unfold system, mbind, M_bind. pose proof (setup_run numelements todos k) as Hq.
  destruct (setup _ _) as [[q m]|e]; [|done]. destruct Hq as (g0 & Hm & Hg0).
  pose proof (run_ok (sum_list_with length todos) q.1 q.2 sched _ _ _ m Hm (Fifo.size_init todos))
    as Hr.
  destruct (run _ _ _ _ _) as [[c m']|e]; [|done]. destruct Hr as (s & g & Hr & Hm').
  by exists s, g, g0.
Qed.

(** ** Data races *)

(** The node an enqueuer or the consumer is about to access. *)
Definition enqueue_node (pc : enqueue_pc) : option Z :=
  match pc with EValue n _ | ENext n _ => Some n | _ => None end.

Definition dequeue_node (pc : dequeue_pc) : option Z :=
  match pc with
  | DPrev _ _ n | DPrevPrev _ _ _ _ n | DLink _ _ _ _ n _ | DFirstLink n _ _
  | DFirstNext n | DValue _ n | DFree n => Some n
  | _ => None
  end.

Definition owns (n : Z) : hPropI V := ((∃ r : node, n ↦ r) ∗ True)%I.

Lemma owns_ne n n' : owns n ∗ owns n' ⊢ ⌜n ≠ n'⌝.
Proof.
  iIntros "[[(%r & Hr) _] [(%r' & Hr') _]]". iApply (pointsto_ne with "[$Hr $Hr']").
Qed.

Lemma lseg2_owns p x e vs : lseg2 p x e vs ⊢ owns p.
Proof.
  iIntros "Hl". iDestruct (lseg2_start with "Hl") as "(%n & Hp & _)".
  iSplitL; [by iExists _|done].
Qed.

Lemma enqueue_owns pc e n : enqueue_node pc = Some n → enqueue_own pc e ⊢ owns n.
Proof.
  intros Hn. destruct pc, e; simplify_eq/=; try by iIntros "[]".
  - iIntros "[-> Hn]". iSplitL; [by iExists _|done].
  - iIntros "(%nx & Hn)". iSplitL; [by iExists _|done].
Qed.

Lemma dequeue_owns pc d g n : dequeue_node pc = Some n → dequeue_own pc d g ⊢ owns n.
Proof.
  intros Hn. destruct pc, d as [| |[v|]]; simplify_eq/=; try by iIntros "[]".
  - iIntros "(_ & _ & %u & %b & _ & %n' & Hn & _)". iSplitL; [by iExists _|done].
  - iIntros "(_ & _ & %w & %b & %u & %r & _ & (%n' & Hn & _) & _)". iSplitL; [by iExists _|done].
  - iIntros "(_ & _ & %w & %b & %u & %r & _ & Hn & _)". iSplitL; [by iExists _|done].
  - iIntros "([-> _] & (_ & %n' & %x & Hn) & _)". iSplitL; [by iExists _|done].
  - iIntros "(-> & _ & %x & %n' & Hn & _)". iSplitL; [by iExists _|done].
  - iIntros "(_ & _ & %x & _ & Hl)". iApply (lseg2_owns with "Hl").
  - iIntros "(_ & _ & %n' & %x & Hn)". iSplitL; [by iExists _|done].
Qed.

(** Accesses of enqueuers: their node, or [queue->last] by an atomic operation. *)
Lemma enqueue_access_at queue pc a :
  a ∈ enqueue_access queue pc →
  (loc a = LLast queue ∧ atomic a = true) ∨
  ∃ n, enqueue_node pc = Some n ∧ (loc a = LNext n ∨ loc a = LValue n).
Proof. destruct pc; simpl; rw ?list_elem_of_singleton ?elem_of_nil; naive_solver. Qed.

(** Accesses of the dequeuer: a node of its lists, [queue->last] by an atomic
    operation, or what no enqueuer touches. *)
Lemma dequeue_access_at queue pvalue pc a :
  a ∈ dequeue_access queue pvalue pc →
  (loc a = LLast queue ∧ atomic a = true) ∨
  (loc a = LFirst queue ∨ loc a = LMiddle queue ∨ loc a = LContent pvalue) ∨
  ∃ n, dequeue_node pc = Some n ∧ (loc a = LNext n ∨ loc a = LValue n).
Proof.
  destruct pc; simpl; try destruct b; rw ?elem_of_cons ?elem_of_nil; naive_solver.
Qed.

(** Locations that differ, or accesses that are both atomic. *)
#[local] Ltac no_conflict :=
  destruct_and?; destruct_or?; solve [congruence | match goal with H : ¬ _ |- _ => by apply H end].

Lemma producers_distinct ps ss i j p q n n' :
  i ≠ j → ps !! i = Some p → ps !! j = Some q →
  enqueue_node p.1 = Some n → enqueue_node q.1 = Some n' →
  producers_own ps ss ⊢ ⌜n ≠ n'⌝.
Proof.
  intros Hij Hi Hj Hn Hn'. iIntros "H". iDestruct (big_sepL2_length with "H") as %Hlen.
  destruct (lookup_lt_is_Some_2 ss i) as [si Hsi]; [rw -Hlen; by eapply lookup_lt_Some|].
  destruct (lookup_lt_is_Some_2 ss j) as [sj Hsj]; [rw -Hlen; by eapply lookup_lt_Some|].
  unfold producers_own. rw (big_sepL2_delete _ ps ss i); [|done|done].
  iDestruct "H" as "[[_ Hp] H]".
  iDestruct (big_sepL2_lookup_acc _ _ _ j with "H") as "[Hq _]"; [done|done|].
  rw decide_False; [|done]. iDestruct "Hq" as "[_ Hq]". iApply owns_ne.
  iSplitL "Hp"; [by iApply enqueue_owns|by iApply enqueue_owns].
Qed.

Lemma consumer_distinct ps ss i p pc d g n n' :
  ps !! i = Some p → enqueue_node p.1 = Some n → dequeue_node pc = Some n' →
  dequeue_own pc d g ∗ producers_own ps ss ⊢ ⌜n ≠ n'⌝.
Proof.
  intros Hi Hn Hn'. iIntros "[Hc H]". iDestruct (big_sepL2_length with "H") as %Hlen.
  destruct (lookup_lt_is_Some_2 ss i) as [si Hsi]; [rw -Hlen; by eapply lookup_lt_Some|].
  iDestruct (big_sepL2_lookup_acc with "H") as "[[_ Hp] _]"; [done|done|]. iApply owns_ne.
  iSplitL "Hp"; [by iApply enqueue_owns|by iApply dequeue_owns].
Qed.

Lemma producers_race_free queue pvalue m c s g i j p q a b :
  simulates queue pvalue m c s g → i ≠ j →
  producers c !! i = Some p → producers c !! j = Some q →
  a ∈ enqueue_access queue p.1 → b ∈ enqueue_access queue q.1 → ¬ conflict a b.
Proof.
  intros Hm Hij Hp Hq Ha Hb (Hl & _ & Hat).
  apply enqueue_access_at in Ha as [Ha|(n & Hn & Ha)], Hb as [Hb|(n' & Hn' & Hb)];
    try no_conflict.
  assert (system_inv queue pvalue c s g ⊢ ⌜n ≠ n'⌝) as Hne.
  { iIntros "(_ & _ & _ & H)". by iApply (producers_distinct _ _ i j p q with "H"). }
  apply (h_in Hne) in Hm. simpl in Hm. no_conflict.
Qed.

Lemma consumer_race_free queue pvalue m c s g i p pc a b :
  simulates queue pvalue m c s g → producers c !! i = Some p → consumer c = Some pc →
  a ∈ enqueue_access queue p.1 → b ∈ dequeue_access queue pvalue pc → ¬ conflict a b.
Proof.
  intros Hm Hp Hpc Ha Hb (Hl & _ & Hat).
  apply enqueue_access_at in Ha as [Ha|(n & Hn & Ha)];
    apply dequeue_access_at in Hb as [Hb|[Hb|(n' & Hn' & Hb)]]; try no_conflict.
  assert (system_inv queue pvalue c s g ⊢ ⌜n ≠ n'⌝) as Hne.
  { iIntros "(_ & _ & Hc & H)". rw Hpc. by iApply (consumer_distinct with "[$Hc $H]"). }
  apply (h_in Hne) in Hm. simpl in Hm. no_conflict.
Qed.

Lemma conflict_sym a b : conflict a b → conflict b a.
Proof. unfold conflict. naive_solver. Qed.

Lemma race_free queue pvalue m c s g : simulates queue pvalue m c s g → ¬ race queue pvalue c.
Proof.
  intros Hm ([i|] & [j|] & a & b & Ht & Ha & Hb & Hc); simpl in Ha, Hb; [..|done].
  - destruct (producers c !! i) as [p|] eqn:Hi; [|by apply not_elem_of_nil in Ha].
    destruct (producers c !! j) as [q|] eqn:Hj; [|by apply not_elem_of_nil in Hb].
    eapply producers_race_free; [done| |exact Hi|exact Hj|done..]. congruence.
  - destruct (producers c !! i) as [p|] eqn:Hi; [|by apply not_elem_of_nil in Ha].
    destruct (consumer c) as [pc|] eqn:Hp; [|by apply not_elem_of_nil in Hb].
    by eapply consumer_race_free.
  - destruct (producers c !! j) as [p|] eqn:Hi; [|by apply not_elem_of_nil in Hb].
    destruct (consumer c) as [pc|] eqn:Hp; [|by apply not_elem_of_nil in Ha].
    apply conflict_sym in Hc. by eapply consumer_race_free.
Qed.

(** ** Disposal *)

Lemma front_loop_wp E fuel p x m vs :
  length vs ≤ fuel →
  lseg2 p x m vs ⊢
  wp E (while fuel (λ first, mret (negb (first =? m)%Z))
         (λ first, next ← load f_next first; free first ;; mret next) p)
    (λ _, ∃ n x, m ↦ mkNode n x)%I.
Proof.
  intros Hf. iIntros "Hl".
  iApply (wp_while E _ _ (λ k p, ∃ x vs, ⌜k = length vs⌝ ∧ lseg2 p x m vs)%I
    (λ _, ∃ n x, m ↦ mkNode n x)%I fuel (length vs)); [|done|iExists x, vs; by iFrame].
  clear. intros k p. iIntros "(%x & %vs & -> & Hl)". iApply wp_ret.
  destruct vs as [|v vs]; simpl.
  - iDestruct "Hl" as "(-> & %n & Hp)". rw Z.eqb_refl. by iExists n, x.
  - iDestruct "Hl" as "(%n & Hp & Hl)". iDestruct (lseg2_ne with "[$Hl $Hp]") as %Hne.
    rw (proj2 (Z.eqb_neq _ _) Hne). iExists (length vs). iSplit; [done|].
    wp_read "Hp". wp_release "Hp". iApply wp_ret. iExists (Some v), vs. by iFrame.
Qed.

Lemma back_loop_wp E fuel p m vs (r : node) :
  length vs ≤ fuel →
  lseg p m vs ∗ m ↦ r ⊢
  wp E (while fuel (λ last, mret (negb (last =? m)%Z))
         (λ last, next ← load f_next last; free last ;; mret next) p)
    (λ _, m ↦ r)%I.
Proof.
  intros Hf. iIntros "Hl".
  iApply (wp_while E _ _ (λ k p, ∃ vs, ⌜k = length vs⌝ ∧ lseg p m vs ∗ m ↦ r)%I
    (λ _, m ↦ r)%I fuel (length vs)); [|done|iExists vs; by iFrame].
  clear. intros k p. iIntros "(%vs & -> & Hl & Hm)". iApply wp_ret.
  destruct vs as [|v vs]; simpl.
  - iDestruct "Hl" as "[-> _]". by rw Z.eqb_refl.
  - iDestruct "Hl" as "(%n & Hp & Hl)". iDestruct (pointsto_ne with "[$Hp $Hm]") as %Hne.
    rw (proj2 (Z.eqb_neq _ _) Hne). iExists (length vs). iSplit; [done|].
    wp_read "Hp". wp_release "Hp". iApply wp_ret. iExists vs. by iFrame.
Qed.

Lemma queue_dispose_wp E fuel queue g :
  length (gcontents g) ≤ fuel →
  queue_at queue g ∗ front_at g ⊢ wp E (queue_dispose fuel queue) (λ _, emp)%I.
Proof.
  unfold gcontents. rw length_app length_reverse. intros Hf.
  iIntros "[(Hq & Hb) ([%Hge _] & %x & Hl)]". rw Hge. unfold queue_dispose.
  wp_read "Hq". wp_read "Hq". wp_read "Hq".
  iApply (wp_call (front_loop_wp E fuel _ x (gmiddle g) (gfront g) ltac:(lia)) (λ x, x) with "Hl").
  iIntros (_) "(%n & %y & Hm)".
  iApply (wp_call (back_loop_wp E fuel _ (gmiddle g) (gback g) _ ltac:(lia)) (λ x, x)
    with "[$Hb $Hm]").
  iIntros (_) "Hm". wp_release "Hm". iApply (wp_free with "Hq"). done.
Qed.

Lemma quiet_producers ps ss :
  Forall (λ p, p.1 = EDone) ps → producers_own ps ss ⊢ emp.
Proof.
  intros Hps. revert ss. induction Hps as [|[pc todo] ps Hp _ IH]; intros [|[e t] ss];
    unfold producers_own; simpl; try by iIntros "H".
  simpl in Hp. subst pc. iIntros "[[_ He] Hps]". iDestruct (IH with "Hps") as "_".
  by destruct e.
Qed.

(** Quiet systems give all their memory back. *)
Lemma dispose_all_wp fuel queue pvalue c s g :
  quiet c → length (gcontents g) ≤ fuel →
  system_inv queue pvalue c s g ⊢
  wp False (queue_dispose fuel queue ;; free pvalue) (λ _, emp)%I.
Proof.
  intros [Hps Hc] Hf. iIntros "(_ & [Hs Hp] & Hc & Hps)". rw Hc.
  iDestruct (quiet_producers with "Hps") as "_"; [done|].
  destruct (Fifo.caller s); [|done|done].
  iApply (wp_call (queue_dispose_wp False fuel queue g Hf) (λ x, x) with "[$Hs $Hc]").
  iIntros (_) "_". by iApply (wp_free with "Hp").
Qed.

(** ** What a client sees *)

(** The threads of the system and of the specification are at the same places. *)
Definition observed (c : config) (s : Fifo.state) : Prop :=
  results c = Fifo.answers s ∧
  (consumer c = None ↔ Fifo.caller s = Fifo.Idle) ∧
  Forall2 (λ p e, p.2 = e.2 ∧ (p.1 = EDone ↔ e.1 = Fifo.Ready)) (producers c) (Fifo.callers s).

Lemma enqueue_ready pc e : enqueue_own pc e ⊢ ⌜pc = EDone ↔ e = Fifo.Ready⌝.
Proof. destruct pc, e; simpl; iIntros "H"; try done; iPureIntro; by split. Qed.

Lemma consumer_idle c d g : consumer_own c d g ⊢ ⌜c = None ↔ d = Fifo.Idle⌝.
Proof.
  destruct c as [pc|], d; iIntros "H"; try done; try (iPureIntro; by split).
  by destruct pc as [| | | | | | | | | | | | | |[]].
Qed.

Lemma producers_observed ps ss :
  producers_own ps ss ⊢
  ⌜Forall2 (λ p e, p.2 = e.2 ∧ (p.1 = EDone ↔ e.1 = Fifo.Ready)) ps ss⌝.
Proof.
  revert ss. induction ps as [|[pc todo] ps IH]; intros [|[e t] ss]; unfold producers_own; simpl;
    try (by iIntros "[]"); [by iIntros "_"; iPureIntro; constructor|].
  iIntros "[[%Ht He] H]". iDestruct (IH with "H") as %Hps.
  iDestruct (enqueue_ready with "He") as %He.
  iPureIntro. by constructor.
Qed.

Lemma simulates_observed queue pvalue m c s g : simulates queue pvalue m c s g → observed c s.
Proof.
  intros Hm.
  assert (system_inv queue pvalue c s g ⊢ ⌜observed c s⌝) as Ho; [|by apply (h_in Ho) in Hm].
  iIntros "([_ %Hr] & _ & Hc & H)". iDestruct (producers_observed with "H") as %Hp.
  iDestruct (consumer_idle with "Hc") as %Hc.
  iPureIntro. by split.
Qed.

(** ** Fair schedules *)

(** A step changes its own producer only, and nothing when that has finished. *)
Lemma step_keeps queue pvalue t c m c' m' i :
  step queue pvalue t c m = Ok (c', m') → t ≠ Producer i ∨ busy t c = false →
  producers c' !! i = producers c !! i.
Proof.
  intros Hs Hor. destruct t as [j|]; simpl in Hs; [|by inv_bind].
  unfold busy in Hor. destruct (producers c !! j) as [p|] eqn:Hp; [|by inv_bind].
  inv_bind. destruct (decide (i = j)) as [->|Hij]; [|by rw list_lookup_insert_ne].
  destruct Hor as [Hne|Hb]; [done|]. destruct p as [[] [|v todo]]; try done.
  match goal with H : producer_step _ _ _ = _ |- _ => simpl in H; inv_bind end.
  by rw list_insert_id.
Qed.

Lemma finished_stays queue pvalue t c m c' m' i p :
  step queue pvalue t c m = Ok (c', m') → producers c !! i = Some p → finished p = true →
  producers c' !! i = Some p.
Proof.
  intros Hs Hp Hf. rw -Hp. eapply step_keeps; [exact Hs|].
  destruct (decide (t = Producer i)) as [->|]; [right|by left]. unfold busy. by rw Hp Hf.
Qed.

Lemma finished_run queue pvalue sched c m c' m' i p :
  run queue pvalue sched c m = Ok (c', m') → producers c !! i = Some p → finished p = true →
  producers c' !! i = Some p.
Proof.
  revert c m. induction sched as [|t sched IH]; intros c m Hr Hp Hf; simpl in Hr; inv_bind; [done|].
  eapply IH; [done| |done]. by eapply finished_stays.
Qed.

(** A round in which a producer with work to do has a step does some work. *)
Lemma round_effort queue pvalue sched c m c' m' i p :
  run queue pvalue sched c m = Ok (c', m') → producers c !! i = Some p → finished p = false →
  Producer i ∈ sched → 1 ≤ effort queue pvalue sched c m.
Proof.
  revert c m. induction sched as [|t sched IH]; intros c m Hr Hp Hf Hin; simpl in *.
  { by apply not_elem_of_nil in Hin. }
  apply bind_inv in Hr as (c1 & m1 & Hs & Hr). rw Hs.
  destruct (busy t c) eqn:Hb; [lia|]. apply elem_of_cons in Hin as [<-|Hin].
  - unfold busy in Hb. by rw Hp Hf in Hb.
  - apply (IH c1 m1 Hr); [|done|done]. rw -Hp. eapply step_keeps; [exact Hs|by right].
Qed.

Lemma effort_app queue pvalue sched sched' c m c' m' :
  run queue pvalue sched c m = Ok (c', m') →
  effort queue pvalue (sched ++ sched') c m =
    effort queue pvalue sched c m + effort queue pvalue sched' c' m'.
Proof.
  revert c m. induction sched as [|t sched IH]; intros c m Hr; simpl in *; [by inv_bind|].
  apply bind_inv in Hr as (c1 & m1 & Hs & Hr). rw Hs (IH c1 m1 Hr). lia.
Qed.

Lemma run_app queue pvalue sched sched' c m c' m' :
  run queue pvalue (sched ++ sched') c m = Ok (c', m') →
  ∃ c1 m1, run queue pvalue sched c m = Ok (c1, m1) ∧
           run queue pvalue sched' c1 m1 = Ok (c', m').
Proof.
  revert c m. induction sched as [|t sched IH]; intros c m Hr; simpl in *; [by exists c, m|].
  apply bind_inv in Hr as (c1 & m1 & Hs & Hr).
  destruct (IH c1 m1 Hr) as (c2 & m2 & H1 & H2). exists c2, m2. by rw (bind_Ok _ _ _ _ _ Hs).
Qed.

Lemma run_length queue pvalue sched c m c' m' :
  run queue pvalue sched c m = Ok (c', m') → length (producers c') = length (producers c).
Proof.
  revert c m. induction sched as [|t sched IH]; intros c m Hr; simpl in Hr; inv_bind; [done|].
  match goal with H : step _ _ _ _ _ = _ |- _ => rename H into Hs end.
  rw (IH _ _ Hr). destruct t as [j|]; simpl in Hs; [|by inv_bind].
  destruct (producers c !! j) as [p|]; inv_bind; [by rw length_insert|done].
Qed.

(** A producer that has not finished after some rounds did work in each. *)
Lemma rounds_effort queue pvalue rounds c m c' m' i p p' :
  run queue pvalue (concat rounds) c m = Ok (c', m') →
  producers c !! i = Some p → producers c' !! i = Some p' → finished p' = false →
  Forall (λ r, Producer i ∈ r) rounds →
  length rounds ≤ effort queue pvalue (concat rounds) c m.
Proof.
  revert c m p. induction rounds as [|r rounds IH]; intros c m p Hr Hp Hp' Hf Hin; simpl in *; [lia|].
  apply Forall_cons in Hin as [Hi Hin]. destruct (run_app _ _ _ _ _ _ _ _ Hr) as (c1 & m1 & H1 & H2).
  rw (effort_app _ _ _ _ _ _ _ _ H1).
  assert (finished p = false) as Hfp.
  { destruct (finished p) eqn:Hfp; [|done]. rw (finished_run _ _ _ _ _ _ _ _ _ Hr Hp Hfp) in Hp'.
    simplify_eq. congruence. }
  pose proof (round_effort _ _ _ _ _ _ _ _ _ H1 Hp Hfp Hi).
  destruct (lookup_lt_is_Some_2 (producers c1) i) as [p1 Hp1].
  { rw -(run_length _ _ _ _ _ _ _ H2). by eapply lookup_lt_Some. }
  specialize (IH c1 m1 p1 H2 Hp1 Hp' Hf Hin). lia.
Qed.
End system.
