(* ===== verification/QueueClient.v ===== *)
(** * The clients of the queue

    [benchmarks/slmc/programs/queue_client.c]: [main] creates the queue, starts
    [consumer] in a thread of its own, enqueues numbered messages and joins; the
    consumer asserts that the numbers grow.  [queue_client2.c]: [main] enqueues
    alone and disposes of the queue.  The two threads of the first are state
    machines around those of [Queue]; a step that ends in a call or a return
    includes the local computation around it. *)

From iris.proofmode Require Import proofmode.
From S2P Require Import Prelude CHeap HeapLogic Atomics Queue QueueSpec QueueInv QueueSystem.
Import Queue.

Module QueueClient.

(** ** Structs *)

Record message := mkMessage { id : option Z }.

(** [cell] is the struct [dequeue_result], whose only field is the message. *)
Inductive object := ONode (n : node) | OQueue (q : queue) | OResult (c : cell) | OMessage (m : message).

#[global] Instance node_struct : Struct object node.
Proof.
  refine {| obj := ONode; as_struct o := match o with ONode n => Some n | _ => None end |}.
  done.
Defined.

#[global] Instance queue_struct : Struct object queue.
Proof.
  refine {| obj := OQueue; as_struct o := match o with OQueue q => Some q | _ => None end |}.
  done.
Defined.

#[global] Instance cell_struct : Struct object cell.
Proof.
  refine {| obj := OResult; as_struct o := match o with OResult c => Some c | _ => None end |}.
  done.
Defined.

#[global] Instance message_struct : Struct object message.
Proof.
  refine {| obj := OMessage; as_struct o := match o with OMessage m => Some m | _ => None end |}.
  done.
Defined.

Definition f_id : field message Z := Field id (λ x _, mkMessage (Some x)).

(** ** Program points *)

(** [enqueue], with [create_message] and [queue_enqueue]. *)
Inductive enqueue_client_pc :=
| PMessage (id : Z)                     (** before the allocation of the message *)
| PSetId (id message : Z)               (** before [message->id = id] *)
| PEnqueue (id : Z) (pc : enqueue_pc)   (** in [queue_enqueue] *)
| PDone.

(** [consumer] *)
Inductive consumer_pc :=
| CResult                                                 (** before the allocation of the result *)
| CMaxelems (result : Z)                                  (** before [get_maxelems] *)
| CDequeue (result lastId maxelems : Z) (pc : dequeue_pc) (** in [queue_try_dequeue] *)
| CMessage (result lastId maxelems : Z)                   (** before the first [result->message] *)
| CId (result lastId maxelems message : Z)                (** before the read of [id] *)
| CFreeMessage (result lastId maxelems : Z)               (** before the second [result->message] *)
| CFree (result lastId maxelems message : Z)              (** before [free] *)
| CDone (result lastId : Z).

Section functions.
Context {A : Allocator object} {At : Atomics object}.

Definition create_message (id : Z) : M (mem object) Z :=
  message ← malloc (mkMessage None);
  abort_if (message =? 0)%Z ;;
  store f_id message id ;;
  mret message.

(** The test of the loop of [enqueue]. *)
Definition enqueue_loop (numelements id : Z) : enqueue_client_pc :=
  if (id <? numelements)%Z then PMessage id else PDone.

Definition enqueue_client_step (queue numelements : Z) (p : enqueue_client_pc) :
    M (mem object) enqueue_client_pc :=
  match p with
  | PMessage id =>
      message ← malloc (mkMessage None);
      abort_if (message =? 0)%Z ;;
      mret (PSetId id message)
  | PSetId id message => store f_id message id ;; mret (PEnqueue id (EMalloc message))
  | PEnqueue id pc =>
      pc ← enqueue_step queue pc;
      match pc with
      | EDone => id ← int_add id 1; mret (enqueue_loop numelements id)
      | _ => mret (PEnqueue id pc)
      end
  | PDone => mret PDone
  end.

(** The test of the loop of [consumer]. *)
Definition consumer_loop (result lastId maxelems : Z) : M (mem object) consumer_pc :=
  bound ← int_sub maxelems 1;
  mret (if (lastId <? bound)%Z then CDequeue result lastId maxelems DFirst
        else CDone result lastId).

Definition consumer_client_step (queue : Z) (c : consumer_pc) : M (mem object) consumer_pc :=
  match c with
  | CResult =>
      result ← malloc (mkCell None);
      abort_if (result =? 0)%Z ;;
      mret (CMaxelems result)
  | CMaxelems result =>
      maxelems ← get_maxelems queue;
      consumer_loop result (-1) maxelems
  | CDequeue result lastId maxelems pc =>
      pc ← dequeue_step queue result pc;
      match pc with
      | DRet true => mret (CMessage result lastId maxelems)
      | DRet false => consumer_loop result lastId maxelems
      | _ => mret (CDequeue result lastId maxelems pc)
      end
  | CMessage result lastId maxelems =>
      message ← load f_content result;
      mret (CId result lastId maxelems message)
  | CId result lastId maxelems message =>
      id ← load f_id message;
      assert (lastId <? id)%Z ;;
      mret (CFreeMessage result id maxelems)
  | CFreeMessage result lastId maxelems =>
      message ← load f_content result;
      mret (CFree result lastId maxelems message)
  | CFree result lastId maxelems message =>
      free message ;;
      consumer_loop result lastId maxelems
  | CDone result lastId => mret (CDone result lastId)
  end.

(** Which of the two threads has the next step. *)
Inductive client_thread := Main | Other.

Definition client_step (queue numelements : Z) (t : client_thread)
    (c : enqueue_client_pc * consumer_pc) : M (mem object) (enqueue_client_pc * consumer_pc) :=
  match t with
  | Main => p ← enqueue_client_step queue numelements c.1; mret (p, c.2)
  | Other => d ← consumer_client_step queue c.2; mret (c.1, d)
  end.

Fixpoint client_run (queue numelements : Z) (sched : list client_thread)
    (c : enqueue_client_pc * consumer_pc) : M (mem object) (enqueue_client_pc * consumer_pc) :=
  match sched with
  | [] => mret c
  | t :: sched =>
      c ← client_step queue numelements t c;
      client_run queue numelements sched c
  end.

(** [main] up to where the schedule ends. *)
Definition main (argv : list string) (sched : list client_thread) :
    M (mem object) (enqueue_client_pc * consumer_pc) :=
  a ← arg argv 1;
  numelements ← atoi a;
  queue ← create_queue numelements;
  client_run queue numelements sched (enqueue_loop numelements 0, CResult).

(** ** [queue_client2.c] *)

(** [queue_enqueue] without interference; its loop takes fuel. *)
Fixpoint queue_enqueue (fuel : nat) (queue : Z) (pc : enqueue_pc) : M (mem object) unit :=
  match pc with
  | EDone => mret tt
  | _ =>
      match fuel with
      | O => fail EFuel
      | S fuel => pc ← enqueue_step queue pc; queue_enqueue fuel queue pc
      end
  end.

Definition main2 (fuel : nat) (argv : list string) : M (mem object) unit :=
  a ← arg argv 1;
  numelements ← atoi a;
  queue ← create_queue numelements;
  while fuel (λ i, mret (i <? numelements)%Z)
    (λ i, message ← create_message i;
          queue_enqueue fuel queue (EMalloc message) ;;
          int_add i 1) 0%Z ;;
  queue_dispose fuel queue.
End functions.

(** ** The invariant of [queue_client.c] *)

Section proofs.
Context {A : Allocator object} {AL : AllocatorLaws A}.
Context {At : Atomics object} {AtL : AtomicsLaws At}.

(** Messages with consecutive numbers. *)
Definition messages (base : Z) (vs : list Z) : hPropI object :=
  ([∗ list] k ↦ v ∈ vs, v ↦ mkMessage (Some (base + Z.of_nat k)%Z))%I.

Lemma messages_cons base v vs :
  messages base (v :: vs) ⊣⊢ v ↦ mkMessage (Some base) ∗ messages (base + 1) vs.
Proof.
  unfold messages. rw big_sepL_cons. simpl. rw Z.add_0_r. f_equiv. apply big_sepL_proper.
  intros k w _. by replace (base + Z.of_nat (S k))%Z with (base + 1 + Z.of_nat k)%Z by lia.
Qed.

Lemma messages_snoc base v vs :
  messages base (vs ++ [v]) ⊣⊢
  messages base vs ∗ v ↦ mkMessage (Some (base + Z.of_nat (length vs))%Z).
Proof. unfold messages. rw big_sepL_snoc. done. Qed.

(** What the main thread owns; [next] is the number of the next message. *)
Definition main_own (n : Z) (p : enqueue_client_pc) (next : Z) : hPropI object :=
  match p with
  | PMessage i => ⌜i = next ∧ (i < n)%Z⌝ ∧ emp
  | PSetId i m => ⌜i = next ∧ (i < n)%Z⌝ ∧ m ↦ mkMessage None
  | PEnqueue i pc => ∃ w, ⌜i = next ∧ (i < n)%Z ∧ pc ≠ EDone⌝ ∧
      enqueue_own pc (Fifo.Enqueuing w) ∗ w ↦ mkMessage (Some i)
  | PDone => ⌜next = Z.max 0 n⌝ ∧ emp
  end%I.

(** The message the consumer has taken, if any; [base] is the number of the
    first message that is queued. *)
Definition in_hand (d : Fifo.dequeue_status) (lastId base : Z) : hPropI object :=
  match d with
  | Fifo.Dequeued (Some v) => ⌜base = (lastId + 2)%Z⌝ ∧ v ↦ mkMessage (Some (lastId + 1)%Z)
  | _ => ⌜base = (lastId + 1)%Z⌝ ∧ emp
  end%I.

Definition consumer_holds (n : Z) (c : consumer_pc) (g : ghost) (base : Z) : hPropI object :=
  match c with
  | CResult => ⌜base = 0%Z ∧ gcell g = None⌝ ∧ front_at g
  | CMaxelems r => ⌜base = 0%Z⌝ ∧ front_at g ∗ r ↦ mkCell (gcell g)
  | CDequeue r lastId mx pc => ∃ d, ⌜mx = n ∧ ∀ b, pc ≠ DRet b⌝ ∧
      r ↦ mkCell (gcell g) ∗ dequeue_own pc d g ∗ in_hand d lastId base
  | CMessage r lastId mx => ∃ v, ⌜mx = n ∧ gcell g = Some v⌝ ∧
      front_at g ∗ r ↦ mkCell (gcell g) ∗ in_hand (Fifo.Dequeued (Some v)) lastId base
  | CId r lastId mx m => ⌜mx = n ∧ gcell g = Some m⌝ ∧
      front_at g ∗ r ↦ mkCell (gcell g) ∗ in_hand (Fifo.Dequeued (Some m)) lastId base
  | CFreeMessage r lastId mx => ∃ v, ⌜mx = n ∧ gcell g = Some v ∧ base = (lastId + 1)%Z⌝ ∧
      front_at g ∗ r ↦ mkCell (gcell g) ∗ v ↦ mkMessage (Some lastId)
  | CFree r lastId mx m => ⌜mx = n ∧ base = (lastId + 1)%Z⌝ ∧
      front_at g ∗ r ↦ mkCell (gcell g) ∗ m ↦ mkMessage (Some lastId)
  | CDone r lastId => ⌜base = (lastId + 1)%Z ∧ (n - 1 ≤ lastId)%Z⌝ ∧
      front_at g ∗ r ↦ mkCell (gcell g)
  end%I.

Definition next_id (g : ghost) (base : Z) : Z := (base + Z.of_nat (length (gcontents g)))%Z.

(** The queue with the messages in it. *)
Definition loaded (queue n : Z) (g : ghost) (base : Z) : hPropI object :=
  (⌜gmax g = n ∧ (0 ≤ base)%Z⌝ ∧ queue_at queue g ∗ messages base (gcontents g))%I.

Definition client_inv (queue n : Z) (c : enqueue_client_pc * consumer_pc) : hPropI object :=
  (∃ g base, loaded queue n g base ∗ main_own n c.1 (next_id g base) ∗
     consumer_holds n c.2 g base)%I.

(** ** Steps of the main thread *)

Lemma enqueue_loop_own n next : (0 ≤ next)%Z → (next = 0 ∨ next ≤ n)%Z →
  ⊢ main_own n (enqueue_loop n next) next.
Proof.
  intros H0 Hn. unfold enqueue_loop. iStartProof.
  destruct (Z.ltb_spec next n); simpl; iSplit; try done; iPureIntro; lia.
Qed.

Lemma main_enqueue_wp queue n i pc g base :
  int_range n →
  loaded queue n g base ∗ main_own n (PEnqueue i pc) (next_id g base) ⊢
  wp oom (enqueue_client_step queue n (PEnqueue i pc)) (λ p', ∃ g',
    ⌜same_or_pushed g g'⌝ ∧ loaded queue n g' base ∗ main_own n p' (next_id g' base))%I.
Proof.
  intros Hn. iIntros "[([%Hmax %Hb] & Hq & Hms) (%w & %Hi & He & Hm)]". destruct Hi as (Hi & Hin & Hpc).
  iApply (wp_call (enqueue_step_wp queue pc _ g Hpc) (λ x, x) with "[$Hq $He]").
  iIntros (pc') "(%e' & %g' & %Hmv & Hq & He)".
  destruct Hmv as [(Hpc' & -> & -> & _)|(-> & m & v & [= <-] & -> & ->)].
  - assert (∀ X (a b : X), match pc' with EDone => a | _ => b end = b) as Hmatch
      by (intros; by destruct pc').
    rw Hmatch. iApply wp_ret. iExists g. iSplit; [by iPureIntro; left|]. iFrame. done.
  - destruct Hn as [_ Hn]. iApply wp_bind. iApply wp_int_add.
    { unfold int_range, INT_MIN, next_id in *. lia. }
    iApply wp_ret. iExists (push m w g). iSplit; [iPureIntro; right; by eexists _, _|].
    assert (next_id (push m w g) base = (i + 1)%Z) as Hnext.
    { unfold next_id in *. rw push_contents length_app /=. lia. }
    rw Hnext. iSplitL; [|iApply enqueue_loop_own; unfold next_id in *; lia].
    iSplit; [done|]. iFrame "Hq". rw push_contents messages_snoc. iFrame "Hms".
    by rw Hi.
Qed.

Lemma main_step_wp queue n p g base :
  int_range n →
  loaded queue n g base ∗ main_own n p (next_id g base) ⊢
  wp oom (enqueue_client_step queue n p) (λ p', ∃ g',
    ⌜same_or_pushed g g'⌝ ∧ loaded queue n g' base ∗ main_own n p' (next_id g' base))%I.
Proof.
  intros Hn. destruct p as [i|i m|i pc|]; [..|by apply main_enqueue_wp|].
  - iIntros "[Hq [%Hi _]]". iApply wp_malloc_check; [done|]. iIntros (m) "Hm". iApply wp_ret.
    iExists g. iSplit; [by iPureIntro; left|]. by iFrame.
  - iIntros "[Hq [%Hi Hm]]". simpl. wp_write "Hm". iApply wp_ret. iExists g.
    iSplit; [by iPureIntro; left|]. iFrame "Hq". iExists m. iFrame. by destruct Hi.
  - iIntros "[Hq Hm]". iApply wp_ret. iExists g. iSplit; [by iPureIntro; left|]. iFrame.
Qed.

(** ** Steps of the consumer *)

Definition consumer_next (queue n : Z) (next : Z) (c' : consumer_pc) : hPropI object :=
  (∃ g' base', ⌜next_id g' base' = next⌝ ∧ loaded queue n g' base' ∗ consumer_holds n c' g' base')%I.

(** Taking the first message, if there is one. *)
Lemma messages_taken g g' d d' lastId base :
  takes_effect d (gcontents g) d' (gcontents g') →
  messages base (gcontents g) ∗ in_hand d lastId base ⊢
  ∃ base', ⌜next_id g' base' = next_id g base ∧ (base ≤ base')%Z⌝ ∧
    messages base' (gcontents g') ∗ in_hand d' lastId base'.
Proof.
  intros (-> & -> & Hc). unfold next_id. rw Hc. destruct (gcontents g) as [|v vs]; simpl.
  - iIntros "[Hm [-> _]]". iExists (lastId + 1)%Z. iFrame. done.
  - rw messages_cons. iIntros "[[Hv Hm] [-> _]]". iExists (lastId + 1 + 1)%Z. iFrame.
    iPureIntro. lia.
Qed.

Lemma consumer_loop_wp queue n g base r lastId :
  int_range (n - 1) → base = (lastId + 1)%Z →
  loaded queue n g base ∗ front_at g ∗ r ↦ mkCell (gcell g) ⊢
  wp oom (consumer_loop r lastId n) (consumer_next queue n (next_id g base)).
Proof.
  intros Hn ->. iIntros "(Hq & Hf & Hr)". iApply wp_bind. iApply wp_int_sub; [done|].
  iApply wp_ret. iExists g, (lastId + 1)%Z. iSplit; [done|]. iFrame "Hq".
  destruct (Z.ltb_spec lastId (n - 1)).
  - iExists Fifo.Dequeuing. iFrame. done.
  - iSplit; [done|]. iFrame.
Qed.

Lemma consumer_dequeue_wp queue n r lastId mx pc g base :
  int_range (n - 1) →
  loaded queue n g base ∗ consumer_holds n (CDequeue r lastId mx pc) g base ⊢
  wp oom (consumer_client_step queue (CDequeue r lastId mx pc))
    (consumer_next queue n (next_id g base)).
Proof.
  intros Hn. iIntros "[(%Hmax & Hq & Hms) (%d & %Hpc & Hr & Hd & Hh)]". destruct Hpc as [-> Hpc].
  iApply (wp_call (dequeue_step_wp queue r pc d g Hpc) (λ x, x) with "[$Hq $Hr $Hd]").
  iIntros (pc') "(%d' & %g' & %Hmv & [Hq Hr] & Hd)". destruct Hmv as ([_ Hmax'] & Hd & _).
  iAssert (∃ base', ⌜next_id g' base' = next_id g base ∧ (base ≤ base')%Z⌝ ∧
    messages base' (gcontents g') ∗ in_hand d' lastId base')%I with "[Hms Hh]"
    as "(%base' & [%Hnext %Hle] & Hms & Hh)".
  { destruct Hd as [[-> Hc]|Hd]; [|iApply messages_taken; [done|iFrame]].
    iExists base. unfold next_id. rw Hc. by iFrame. }
  rw -Hnext. destruct Hmax as [Hmax Hb].
  assert (gmax g' = n ∧ (0 ≤ base')%Z) as Hg' by (rw Hmax' Hmax; lia).
  iAssert (loaded queue n g' base') with "[$Hq $Hms]" as "Hq"; [done|].
  destruct pc' as [| | | | | | | | | | | | | |b].
  all: try (iApply wp_ret; iExists g', base'; iSplit; [done|]; iFrame "Hq"; iExists d'; by iFrame).
  destruct b, d' as [| |[v|]]; try done.
  - iDestruct "Hd" as "[%Hc Hf]". iApply wp_ret. iExists g', base'. iSplit; [done|].
    iFrame "Hq". iExists v. by iFrame.
  - iDestruct "Hh" as "[-> _]". iApply consumer_loop_wp; [done|done|]. iFrame.
Qed.

Lemma consumer_step_client_wp queue n c g base :
  int_range (n - 1) →
  loaded queue n g base ∗ consumer_holds n c g base ⊢
  wp oom (consumer_client_step queue c) (consumer_next queue n (next_id g base)).
Proof.
  intros Hn. destruct c as [|r|r i mx pc|r i mx|r i mx m|r i mx|r i mx m|r i].
  - iIntros "[Hq [%Hb Hf]]". destruct Hb as [-> Hc]. iApply wp_malloc_check; [done|].
    iIntros (r) "Hr". iApply wp_ret. iExists g, 0%Z. iSplit; [done|]. iFrame "Hq". simpl.
    rw Hc. by iFrame.
  - iIntros "[(%Hg & [Hq Hl] & Hms) [-> (Hf & Hr)]]". destruct Hg as [<- Hb].
    iApply wp_bind. iApply (wp_load with "Hq"); [reflexivity|]. iIntros "Hq".
    iApply consumer_loop_wp; [done|done|]. iFrame. done.
  - by apply consumer_dequeue_wp.
  - iIntros "[Hq (%v & %Hv & Hf & Hr & Hh)]". destruct Hv as [-> Hv]. iApply wp_bind.
    iApply (wp_load with "Hr"); [exact Hv|]. iIntros "Hr". iApply wp_ret. iExists g, base.
    iSplit; [done|]. by iFrame.
  - iIntros "[Hq (%Hv & Hf & Hr & [%Hb Hm])]". destruct Hv as [-> Hv].
    simpl. wp_read "Hm". iApply wp_bind. iApply wp_assert; [by apply Z.ltb_lt; lia|].
    iApply wp_ret. iExists g, base. iSplit; [done|]. iFrame "Hq". iExists m. iFrame.
    iPureIntro. split_and!; try done; lia.
  - iIntros "[Hq (%v & %Hv & Hf & Hr & Hm)]". destruct Hv as (-> & Hv & Hb). iApply wp_bind.
    iApply (wp_load with "Hr"); [exact Hv|]. iIntros "Hr". iApply wp_ret. iExists g, base.
    iSplit; [done|]. by iFrame.
  - iIntros "[Hq (%Hb & Hf & Hr & Hm)]". destruct Hb as [-> Hb]. simpl. wp_release "Hm".
    iApply consumer_loop_wp; [done|done|]. iFrame.
  - iIntros "[Hq Hc]". iApply wp_ret. iExists g, base. iSplit; [done|]. iFrame.
Qed.

(** ** The two threads together *)

Lemma consumer_holds_pushed n c g g' base :
  same_or_pushed g g' → consumer_holds n c g' base = consumer_holds n c g base.
Proof.
  intros [->|(m & v & ->)]; [done|]. by destruct c.
Qed.

Lemma client_step_wp queue n t c :
  int_range n → int_range (n - 1) →
  client_inv queue n c ⊢ wp oom (client_step queue n t c) (client_inv queue n).
Proof.
  intros Hn Hn1. iIntros "(%g & %base & Hq & Hp & Hc)". destruct c as [p c], t; simpl.
  - iApply (wp_call (main_step_wp queue n p g base Hn) (λ x, x) with "[$Hq $Hp]").
    iIntros (p') "(%g' & %Hg & Hq & Hp)". iApply wp_ret. iExists g', base. iFrame.
    by rw (consumer_holds_pushed _ _ _ _ _ Hg).
  - iApply (wp_call (consumer_step_client_wp queue n c g base Hn1) (λ x, x) with "[$Hq $Hc]").
    iIntros (c') "(%g' & %base' & %Hnext & Hq & Hc)". iApply wp_ret. iExists g', base'. iFrame.
    by rw Hnext.
Qed.

Lemma client_run_wp queue n sched c :
  int_range n → int_range (n - 1) →
  client_inv queue n c ⊢ wp oom (client_run queue n sched c) (client_inv queue n).
Proof.
  intros Hn Hn1. revert c. induction sched as [|t sched IH]; intros c; simpl; [apply wp_ret|].
  iIntros "H". iApply (wp_call (client_step_wp queue n t c Hn Hn1) (λ x, x) with "H").
  iIntros (c') "H". by iApply IH.
Qed.

Lemma client_start queue n p :
  queue ↦ mkQueue (Some n) (Some p) (Some p) (Some p) ∗ p ↦ mkNode None None ⊢
  client_inv queue n (enqueue_loop n 0, CResult).
Proof.
  iIntros "[Hq Hp]". iExists (start_ghost n p), 0%Z. iSplitL "Hq"; [|iSplitR].
  - iSplit; [done|]. iFrame "Hq". unfold messages. simpl. by iSplit.
  - iApply enqueue_loop_own; unfold next_id; simpl; lia.
  - iSplit; [done|]. iSplit; [done|]. iExists None. iSplit; [done|]. by iExists None.
Qed.

Lemma client_main_wp argv a n sched :
  argv !! 1 = Some a → atoi a = (mret n : M (mem object) Z) → int_range n → int_range (n - 1) →
  ⊢ wp oom (main argv sched) (λ c, ∃ queue, client_inv queue n c)%I.
Proof.
  intros Harg Ha Hn Hn1. iStartProof. unfold main, arg. rw Harg. iApply wp_bind. iApply wp_ret.
  rw Ha. iApply wp_bind. iApply wp_ret.
  iApply (wp_call (emp_of (create_queue_wp n)) (λ x, x)); [done|].
  iIntros (queue) "(%p & Hq & Hp)". iDestruct (client_start with "[$Hq $Hp]") as "H".
  iApply (wp_call_last (client_run_wp queue n sched _ Hn Hn1) (λ x, x) with "H").
  iIntros (c) "H". by iExists queue.
Qed.

(** ** The end *)

Lemma three_objects {R1 R2 R3} `{Struct object R1, Struct object R2, Struct object R3}
    p q r (x : R1) (y : R2) (z : R3) h :
  hholds (p ↦ x ∗ q ↦ y ∗ r ↦ z)%I h → size h = 3.
Proof.
  intros (h1 & h' & -> & Hd & [_ ->] & (h2 & h3 & -> & Hd' & [_ ->] & [_ ->])).
  rw !map_size_disj_union // !map_size_singleton. done.
Qed.

(** When both threads have ended, every message was received and released, and
    the queue, its last node and the result are left. *)
Lemma client_end queue n r lastId h :
  hholds (client_inv queue n (PDone, CDone r lastId)) h →
  lastId = Z.max (-1) (n - 1) ∧ size h = 3.
Proof.
  intros Hh.
  assert (client_inv queue n (PDone, CDone r lastId) ⊢
    ∃ p x y z, ⌜lastId = Z.max (-1) (n - 1)⌝ ∧
      queue ↦ (x : Queue.queue) ∗ p ↦ (y : node) ∗ r ↦ (z : cell)) as He.
  { iIntros "(%g & %base & (%Hg & [Hq Hl] & Hms) & [%Hp _] & (%Hc & (%Hge & %x & Hf) & Hr))".
    unfold next_id in Hp. assert (gcontents g = []) as He.
    { destruct (gcontents g); simpl in *; [done|lia]. }
    rw He. pose proof He as Hgc. unfold gcontents in Hgc. apply app_eq_nil in Hgc as [Hgf Hgb].
    apply (f_equal reverse) in Hgb. rw reverse_involutive in Hgb. rw Hgf Hgb.
    iDestruct "Hl" as "[_ _]". iDestruct "Hf" as "(-> & %m & Hf)". iDestruct "Hms" as "_".
    iExists (gmiddle g), _, _, _. iFrame. iPureIntro. rw He in Hp. simpl in Hp. lia. }
  apply (h_in He) in Hh as (p & x & y & z & Hl & Hh). split; [done|].
  exact (three_objects _ _ _ _ _ _ _ Hh).
Qed.

(** ** [queue_client2.c] *)

Lemma queue_enqueue_wp fuel queue pc v g :
  pc ≠ EDone → enqueue_cost (glast g) pc ≤ fuel →
  queue_at queue g ∗ enqueue_own pc (Fifo.Enqueuing v) ⊢
  wp oom (queue_enqueue fuel queue pc) (λ _, ∃ m, queue_at queue (push m v g))%I.
Proof.
  revert pc. induction fuel as [|fuel IH]; intros pc Hpc Hc.
  { destruct pc; simpl in Hc; repeat case_decide; try lia. done. }
  assert (queue_enqueue (S fuel) queue pc =
    (pc ← enqueue_step queue pc; queue_enqueue fuel queue pc)) as -> by (by destruct pc).
  iIntros "H". iApply (wp_call (enqueue_step_wp queue pc _ g Hpc) (λ x, x) with "H").
  iIntros (pc') "(%e' & %g' & %Hmv & Hq & He)".
  destruct Hmv as [(Hpc' & -> & -> & Hlt)|(-> & m & w & [= <-] & -> & ->)].
  - iApply IH; [done|lia|iFrame].
  - destruct fuel; iApply wp_ret; iExists m; by iFrame.
Qed.

Definition loaded_up (queue n i : Z) : hPropI object :=
  (∃ g, ⌜next_id g 0 = i⌝ ∧ loaded queue n g 0 ∗ front_at g)%I.

Lemma create_message_wp i : ⊢ wp oom (create_message i) (λ m, m ↦ mkMessage (Some i))%I.
Proof.
  iStartProof. iApply wp_malloc_check; [done|]. iIntros (m) "Hm". wp_write "Hm". by iApply wp_ret.
Qed.

Lemma round_wp fuel queue n i :
  5 ≤ fuel → (0 ≤ i < n)%Z → int_range n →
  loaded_up queue n i ⊢
  wp oom (message ← create_message i;
          queue_enqueue fuel queue (EMalloc message) ;; int_add i 1)
    (λ i', ⌜i' = (i + 1)%Z⌝ ∧ loaded_up queue n i')%I.
Proof.
  intros Hf Hi Hn. iIntros "(%g & %Hnext & (%Hg & Hq & Hms) & Hfr)".
  iApply (wp_call (emp_of (create_message_wp i)) (λ x, x)); [done|]. iIntros (m) "Hm".
  iApply (wp_call (queue_enqueue_wp fuel queue (EMalloc m) m g ltac:(done) Hf) (λ x, x)
    with "[$Hq]"); [by iSplit|].
  iIntros (_) "(%p & Hq)". iApply wp_int_add.
  { unfold int_range, INT_MIN in *. lia. }
  iSplit; [done|]. iExists (push p m g). unfold loaded, next_id in *. rw push_contents messages_snoc length_app /=.
  iSplit; [iPureIntro; lia|]. rw Hnext. iFrame. done.
Qed.

Lemma client2_main_wp fuel argv a n :
  argv !! 1 = Some a → atoi a = (mret n : M (mem object) Z) → int_range n →
  5 ≤ fuel → Z.to_nat n ≤ fuel →
  ⊢ wp oom (main2 fuel argv) (λ _, ∃ vs, ⌜length vs = Z.to_nat n⌝ ∧ messages 0 vs)%I.
Proof.
  intros Harg Ha Hn Hf Hfn. iStartProof. unfold main2, arg. rw Harg. iApply wp_bind. iApply wp_ret.
  rw Ha. iApply wp_bind. iApply wp_ret.
  iApply (wp_call (emp_of (create_queue_wp n)) (λ x, x)); [done|].
  iIntros (queue) "(%p & Hq & Hp)". iApply wp_bind.
  iApply (wp_wand _ _ (λ _, loaded_up queue n (Z.max 0 n)) with "[Hq Hp]").
  - iApply (wp_while _ _ _ (λ k i, ⌜(0 ≤ i ≤ Z.max 0 n)%Z ∧ k = Z.to_nat (n - i)⌝ ∧
      loaded_up queue n i)%I _ fuel (Z.to_nat n)); [|done|].
    + clear -Hn Hf AL AtL. intros k i. iIntros "([%Hi ->] & H)". iApply wp_ret.
      destruct (Z.ltb_spec i n) as [Hlt|Hge].
      * iExists (Z.to_nat (n - (i + 1))). iSplit; [iPureIntro; lia|].
        assert (0 ≤ i < n)%Z as Hin by lia.
        iApply (wp_call_last (round_wp fuel queue n i Hf Hin Hn) (λ x, x) with "H").
        iIntros (i') "[-> H]". iSplit; [iPureIntro; split; [lia|done]|done].
      * by replace (Z.max 0 n) with i by lia.
    + iSplit; [iPureIntro; split; [lia|f_equal; lia]|].
      iExists (start_ghost n p). iSplit; [done|]. iSplitL "Hq".
      * iSplit; [done|]. iFrame "Hq". unfold messages. simpl. by iSplit.
      * iSplit; [done|]. iExists None. iSplit; [done|]. by iExists None.
  - iIntros (_) "(%g & %Hg & (_ & Hq & Hms) & Hfr)".
    assert (length (gcontents g) ≤ fuel) as Hlen by (unfold next_id in Hg; lia).
    iApply (wp_call_last (queue_dispose_wp oom fuel queue g Hlen) (λ x, x) with "[$Hq $Hfr]").
    iIntros (_) "_". iExists (gcontents g). iFrame. iPureIntro. unfold next_id in Hg. lia.
Qed.

(** A heap that consists of messages. *)
Lemma messages_heap base vs h :
  hholds (messages base vs) h →
  size h = length vs ∧ ∀ p o, h !! p = Some o → ∃ i, o = OMessage (mkMessage (Some i)).
Proof.
  revert base h. induction vs as [|v vs IH]; intros base h Hh.
  - assert (h = ∅) as -> by exact Hh. done.
  - pose proof (proj1 (proj1 (bi.equiv_entails _ _) (messages_cons base v vs))) as Hc.
    apply (h_in Hc) in Hh as (h1 & h2 & -> & Hd & [_ ->] & Hh). apply IH in Hh as [Hs Ho].
    rw map_size_disj_union // map_size_singleton Hs. split; [done|]. intros p o Hp.
    apply lookup_union_Some_raw in Hp as [Hp|[_ Hp]]; [|by eapply Ho].
    apply lookup_singleton_Some in Hp as [_ <-]. by eexists.
Qed.
End proofs.
End QueueClient.
