(* ===== verification/QueueTheorems.v ===== *)
(** * Theorems about the concurrent queue and its clients *)

From iris.proofmode Require Import proofmode.
From S2P Require Import Prelude CHeap HeapLogic Atomics Queue QueueSpec QueueInv QueueSystem QueueClient.
Import Queue QueueClient.

Section theorems.
Context {A : Allocator object} {AL : AllocatorLaws A}.
Context {At : Atomics object} {AtL : AtomicsLaws At}.

(** C32: under every schedule, any number of producers and a consumer run without
    faults or undefined behaviour (they stop only by [abort], when [malloc]
    fails), and what they return is what the atomic queue returns when its
    threads take a part of the same steps in the same order; in particular the
    values come out in the order they went in, every producer's in its own
    order, none lost and none twice. *)
Theorem queue_linearizable (numelements : Z) (todos : list (list Z)) (sched : list thread) (k : nat) :
  match system numelements todos sched (mkMem ∅ k) with
  | Ok (_, c, _) => ∃ sched', sched' `sublist_of` sched ∧
      observed c (Fifo.run sched' (Fifo.init todos)) ∧
      Fifo.order_ok todos (Fifo.run sched' (Fifo.init todos))
  | Err e => e = EAbort ∧ oom
  end.
Proof.
  pose proof (system_ok numelements todos sched k) as H.
  destruct (system _ _ _ _) as [[[q c] m]|e]; [|done].
  destruct H as (s & g & g0 & [(sched' & Hsub & ->) _] & _ & Hm). exists sched'.
  split_and!; [done|by eapply simulates_observed|apply Fifo.order_run, Fifo.order_init].
Qed.

(** C33: no two threads are ever about to access the same field in conflict:
    plain accesses are ordered by the atomic operations on [queue->last]. *)
Theorem queue_race_free (numelements : Z) (todos : list (list Z)) (sched : list thread) (k : nat)
    (q : Z * Z) (c : config) (m : mem object) :
  system numelements todos sched (mkMem ∅ k) = Ok (q, c, m) → ¬ race q.1 q.2 c.
Proof.
  intros Hs. pose proof (system_ok numelements todos sched k) as H. rw Hs in H.
  destruct H as (s & g & g0 & _ & _ & Hm). by eapply race_free.
Qed.

(** C34: lock-freedom.  Whatever the schedule, [p] producers with [n] values in
    all take at most [(6 + 3 p) n] steps, failed compare-and-stores included;
    hence in a schedule made of more rounds than that, each with a step of
    every producer, all values are enqueued. *)
Theorem producers_progress (numelements : Z) (todos : list (list Z)) (k : nat)
    (q : Z * Z) (m : mem object) :
  setup numelements (mkMem ∅ k) = Ok (q, m) →
  let bound := (6 + 3 * length todos) * sum_list_with length todos in
  (∀ sched, effort q.1 q.2 sched (start todos) m ≤ bound) ∧
  ∀ rounds c m', bound < length rounds →
    Forall (λ r, ∀ i, i < length todos → Producer i ∈ r) rounds →
    run q.1 q.2 (concat rounds) (start todos) m = Ok (c, m') →
    Forall (λ p, p = (EDone, [])) (producers c).
Proof.
  intros Hq bound. pose proof (setup_run numelements todos k) as H. rw Hq in H.
  destruct H as (g & Hm & _).
  assert (∀ sched, effort q.1 q.2 sched (start todos) m ≤ bound) as Hb.
  { intros sched. unfold bound. rw -(start_cost (glast g)). by eapply effort_bound. }
  split; [done|]. intros rounds c m' Hlen Hin Hr. apply Forall_lookup. intros i p' Hp'.
  pose proof (run_length _ _ _ _ _ _ _ Hr) as Hl. simpl in Hl. rw length_map in Hl.
  assert (i < length todos) as Hi by (rw -Hl; by eapply lookup_lt_Some).
  destruct (lookup_lt_is_Some_2 (producers (start todos)) i) as [p Hp]; [by simpl; rw length_map|].
  destruct (finished p') eqn:Hf; [by destruct p' as [[] []]|]. exfalso.
  assert (length rounds ≤ effort q.1 q.2 (concat rounds) (start todos) m); [|specialize (Hb (concat rounds)); lia].
  eapply rounds_effort; [exact Hr|exact Hp|exact Hp'|done|].
  eapply Forall_impl; [exact Hin|]. intros r Hr'. by apply Hr'.
Qed.

(** C35: wait-freedom of the dequeuer.  Whatever the producers do, no call takes
    more than [2 n + 12] steps of its own, where [n] is the number of values there
    are: from any state a system reaches, between two calls or within one, a run
    with that many steps of the consumer brings the return of a call. *)
Theorem dequeue_wait_free (numelements : Z) (todos : list (list Z)) (sched sched' : list thread) (k : nat)
    (q : Z * Z) (c : config) (m : mem object) :
  system numelements todos sched (mkMem ∅ k) = Ok (q, c, m) →
  2 * sum_list_with length todos + 12 ≤ consumer_steps sched' →
  match run q.1 q.2 sched' c m with
  | Ok (c', _) => length (results c) < length (results c')
  | Err e => e = EAbort ∧ oom
  end.
Proof.
  intros Hs Hsteps. pose proof (system_ok numelements todos sched k) as H. rw Hs in H.
  destruct H as (s & g & g0 & [(sched0 & _ & ->) (_ & _ & Hb)] & _ & Hm).
  specialize (Hb (Nat.le_refl _)).
  pose proof (Fifo.size_run _ sched0 _ (Fifo.size_init todos)) as Hsize.
  pose proof (run_ok _ q.1 q.2 sched' c _ g m Hm Hsize) as Hr.
  destruct (run _ _ _ _ _) as [[c' m']|e]; [|done]. destruct Hr as (s' & g' & [_ (Hl & Hc & _)] & _).
  pose proof (consumer_cost_pos (sum_list_with length todos) (consumer c') g').
  destruct (decide (length (results c') = length (results c))) as [Heq|Hne]; [|lia].
  specialize (Hc Heq). lia.
Qed.

(** No leaks.  When no operation is under way, [queue_dispose] frees every
    node, queued or not, with fuel for the values there are. *)
Theorem queue_no_leaks (numelements : Z) (todos : list (list Z)) (sched : list thread) (k fuel : nat)
    (q : Z * Z) (c : config) (m : mem object) :
  system numelements todos sched (mkMem ∅ k) = Ok (q, c, m) → quiet c →
  sum_list_with length todos ≤ fuel →
  ∃ m', (queue_dispose fuel q.1 ;; free q.2) m = Ok (tt, m') ∧ heap m' = ∅.
Proof.
  intros Hs Hc Hf. pose proof (system_ok numelements todos sched k) as H. rw Hs in H.
  destruct H as (s & g & g0 & [(sched' & _ & ->) _] & _ & Hm).
  pose proof (Fifo.size_run _ sched' _ (Fifo.size_init todos)) as Hsize.
  assert (length (gcontents g) ≤ fuel) as Hg.
  { destruct Hm as [[<- _] _]. unfold Fifo.size_ok in Hsize. lia. }
  destruct m as [h k']. pose proof (wp_run _ _ _ _ h k' (dispose_all_wp fuel q.1 q.2 c _ g Hc Hg) Hm) as Hd.
  destruct ((queue_dispose fuel q.1 ;; free q.2) _) as [[[] m']|e]; [|by destruct Hd].
  exists m'. by split.
Qed.

(** C36: [queue_client.c] is correct under every schedule: the assertion on the
    numbers of the messages never fails, nothing faults, and when both threads
    have ended the consumer has received all messages and released them, with
    the queue, its last node and the result left. *)
Theorem client_correct (argv : list string) (a : string) (n : Z) (sched : list client_thread) (k : nat) :
  argv !! 1 = Some a → atoi a = (mret n : M (mem object) Z) → int_range n → int_range (n - 1) →
  match main argv sched (mkMem ∅ k) with
  | Ok ((p, d), m) => ∀ r lastId, p = PDone → d = CDone r lastId →
      lastId = Z.max (-1) (n - 1) ∧ size (heap m) = 3
  | Err e => e = EAbort ∧ oom
  end.
Proof.
  intros Harg Ha Hn Hn1.
  pose proof (wp_run oom _ emp%I _ ∅ k (emp_of (client_main_wp argv a n sched Harg Ha Hn Hn1)) eq_refl) as H.
  destruct (main _ _ _) as [[[p d] m]|e]; [|done]. destruct H as (queue & H).
  intros r lastId -> ->. by eapply client_end.
Qed.

(** [main] of [queue_client2.c] ends and leaves exactly its messages in
    memory: [queue_dispose] frees the nodes and not the values. *)
Theorem client2_leaks (argv : list string) (a : string) (n : Z) (fuel k : nat) :
  argv !! 1 = Some a → atoi a = (mret n : M (mem object) Z) → int_range n →
  5 ≤ fuel → Z.to_nat n ≤ fuel →
  match main2 fuel argv (mkMem ∅ k) with
  | Ok (_, m) => size (heap m) = Z.to_nat n ∧
      ∀ p o, heap m !! p = Some o → ∃ i, o = OMessage (mkMessage (Some i))
  | Err e => e = EAbort ∧ oom
  end.
Proof.
  intros Harg Ha Hn Hf Hfn.
  pose proof (wp_run oom _ emp%I _ ∅ k (emp_of (client2_main_wp fuel argv a n Harg Ha Hn Hf Hfn)) eq_refl) as H.
  destruct (main2 _ _ _) as [[[] m]|e]; [|done]. destruct H as (vs & Hl & H).
  apply messages_heap in H as [Hs Ho]. split; [by rw Hs|done].
Qed.
End theorems.

(** [maxelems - 1] of the consumer overflows when [main] is given the least
    [int]. *)
Theorem consumer_overflows :
  main (A := bump_allocator object) ["queue_client"; "-2147483648"] [Other; Other] (mkMem ∅ 0) =
  Err EUB.
Proof. vm_compute. reflexivity. Qed.

(** ** Witnesses *)

(** Two producers and a consumer, in turns and then the consumer alone. *)
Definition demo_todos : list (list Z) := [[10; 20]; [30]]%Z.
Definition demo_sched : list thread :=
  concat (replicate 20 [Producer 0; Producer 1; Consumer]) ++ replicate 43 Consumer.

Definition demo : res (Z * Z * config * mem object) :=
  system (A := bump_allocator object) 3 demo_todos demo_sched (mkMem ∅ 0).

Definition demo_end : Z * Z * config * mem object :=
  Eval vm_compute in match demo with Ok x => x | Err _ => (0%Z, 0%Z, start [], mkMem ∅ 0) end.

Lemma queue_linearizable_witness :
  results demo_end.1.2 =
    [None; Some 10%Z; Some 30%Z; Some 20%Z; None; None; None; None] ∧
  ∃ sched', sched' `sublist_of` demo_sched ∧
    observed demo_end.1.2 (Fifo.run sched' (Fifo.init demo_todos)) ∧
    Fifo.order_ok demo_todos (Fifo.run sched' (Fifo.init demo_todos)).
Proof.
  split; [vm_compute; reflexivity|].
  exact (queue_linearizable (A := bump_allocator object) 3 demo_todos demo_sched 0).
Defined.

Lemma queue_race_free_witness : ¬ race 2 3 demo_end.1.2.
Proof.
  apply (queue_race_free (A := bump_allocator object) 3 demo_todos demo_sched 0 (2, 3)%Z _
    demo_end.2). vm_compute. reflexivity.
Defined.

(** The memory after [setup]. *)
Definition demo_setup : mem object :=
  Eval vm_compute in
    match setup (A := bump_allocator object) 3 (mkMem ∅ 0) with
    | Ok (_, m) => m
    | Err _ => mkMem ∅ 0
    end.

Definition demo_rounds : list (list thread) := replicate 46 [Producer 1; Consumer; Producer 0].

(** Where the rounds lead. *)
Definition demo_progress : config * mem object :=
  Eval vm_compute in
    match run (A := bump_allocator object) 2 3 (concat demo_rounds) (start demo_todos) demo_setup with
    | Ok x => x
    | Err _ => (start [], mkMem ∅ 0)
    end.

Lemma producers_progress_witness :
  run (A := bump_allocator object) 2 3 (concat demo_rounds) (start demo_todos) demo_setup =
    Ok demo_progress ∧
  Forall (λ p, p = (EDone, [])) (producers demo_progress.1).
Proof.
  assert (run (A := bump_allocator object) 2 3 (concat demo_rounds) (start demo_todos) demo_setup =
    Ok (demo_progress.1, demo_progress.2)) as E by (vm_compute; reflexivity).
  split; [exact E|].
  refine (proj2 (producers_progress (A := bump_allocator object) 3 demo_todos 0 (2, 3)%Z demo_setup _)
    demo_rounds _ _ _ _ E).
  - vm_compute. reflexivity.
  - apply Nat.ltb_lt. vm_compute. reflexivity.
  - clear. apply Forall_replicate. intros i Hi. destruct i as [|[|i]]; [by do 2 right; left|by left|].
    simpl in Hi. lia.
Defined.

(** A state within a call, whose remaining steps are fewer than 18. *)
Definition demo_mid : (Z * Z * config) * mem object :=
  Eval vm_compute in
    match system (A := bump_allocator object) 3 demo_todos (take 40 demo_sched) (mkMem ∅ 0) with
    | Ok x => x
    | Err _ => ((0%Z, 0%Z, start demo_todos), mkMem ∅ 0)
    end.

Lemma dequeue_wait_free_witness :
  consumer demo_mid.1.2 ≠ None ∧
  match run (A := bump_allocator object) 2 3 (replicate 18 Consumer) demo_mid.1.2 demo_mid.2 with
  | Ok (c', _) => length (results demo_mid.1.2) < length (results c')
  | Err e => e = EAbort ∧ oom (A := bump_allocator object)
  end.
Proof.
  split; [vm_compute; discriminate|].
  apply (dequeue_wait_free (A := bump_allocator object) 3 demo_todos (take 40 demo_sched)
    (replicate 18 Consumer) 0 (2, 3)%Z demo_mid.1.2 demo_mid.2).
  - vm_compute. reflexivity.
  - vm_compute. lia.
Defined.

Lemma queue_no_leaks_witness :
  quiet demo_end.1.2 ∧
  ∃ m', (queue_dispose 3 2 ;; free 3) demo_end.2 = Ok (tt, m') ∧ heap m' = ∅.
Proof.
  assert (quiet demo_end.1.2) as Hq by (split; [repeat constructor|reflexivity]).
  split; [exact Hq|].
  apply (queue_no_leaks (A := bump_allocator object) 3 demo_todos demo_sched 0 3 (2, 3)%Z
    demo_end.1.2 demo_end.2); [vm_compute; reflexivity|exact Hq|vm_compute; lia].
Defined.

Definition client_sched : list client_thread := concat (replicate 60 [Main; Other]).

Definition client_end : (enqueue_client_pc * consumer_pc) * mem object :=
  Eval vm_compute in
    match main (A := bump_allocator object) ["queue_client"; "2"] client_sched (mkMem ∅ 0) with
    | Ok x => x
    | Err _ => ((PDone, CResult), mkMem ∅ 0)
    end.

Lemma client_correct_witness :
  client_end.1 = (PDone, CDone 4 1) ∧ (1 = Z.max (-1) (2 - 1))%Z ∧ size (heap client_end.2) = 3.
Proof.
  split; [vm_compute; reflexivity|].
  assert (main (A := bump_allocator object) ["queue_client"; "2"] client_sched (mkMem ∅ 0) =
    Ok client_end) as E by (vm_compute; reflexivity).
  pose proof (client_correct (A := bump_allocator object) ["queue_client"; "2"] "2" 2 client_sched 0
    eq_refl eq_refl ltac:(split; vm_compute; discriminate) ltac:(split; vm_compute; discriminate)) as H.
  rw E in H. exact (H 4%Z 1%Z eq_refl eq_refl).
Defined.

Lemma client2_leaks_witness :
  ∃ m, main2 (A := bump_allocator object) 5 ["queue_client2"; "2"] (mkMem ∅ 0) = Ok (tt, m) ∧
    size (heap m) = 2.
Proof.
  pose proof (client2_leaks (A := bump_allocator object) ["queue_client2"; "2"] "2" 2 5 0
    eq_refl eq_refl ltac:(split; vm_compute; discriminate) ltac:(lia) ltac:(vm_compute; lia)) as H.
  destruct (main2 (A := bump_allocator object) 5 ["queue_client2"; "2"] (mkMem ∅ 0)) as [[[] m]|e].
  - exists m. split; [reflexivity|exact (proj1 H)].
  - destruct H as [_ H]. by apply bump_no_oom in H.
Defined.
