(* ===== verification/LcSet.v ===== *)
(** * The lock-coupling set: [benchmarks/slmc/programs/lcset.c]

    A set of integers as a sorted linked list whose nodes carry locks; a thread
    that walks the list holds at most two of them, always of neighbours.  The
    operations run concurrently: a constructor of [pc] is a point before an
    access to shared memory, with the locals in scope there, and a step performs
    that access and the local computation up to the next one.  [locate] is
    called by all three operations, and the operation it returns to is part of
    its program points.  A system has threads with operations to perform; a
    schedule says whose step is next. *)

From S2P Require Import Prelude CHeap Atomics.

Module LcSet.

(** ** Structs *)

Record node := mkNode { lock : option Z; next : option Z; value : option Z }.
Record set := mkSet { head : option Z; maxelems : option Z }.

Inductive object := ONode (n : node) | OSet (s : set).

#[global] Instance node_struct : Struct object node.
Proof.
  refine {| obj := ONode; as_struct o := match o with ONode n => Some n | _ => None end |}.
  done.
Defined.

#[global] Instance set_struct : Struct object set.
Proof.
  refine {| obj := OSet; as_struct o := match o with OSet s => Some s | _ => None end |}.
  done.
Defined.

Definition f_lock : field node Z := Field lock (λ x n, mkNode (Some x) (next n) (value n)).
Definition f_next : field node Z := Field next (λ x n, mkNode (lock n) (Some x) (value n)).
Definition f_value : field node Z := Field value (λ x n, mkNode (lock n) (next n) (Some x)).
Definition f_head : field set Z := Field head (λ x s, mkSet (Some x) (maxelems s)).
Definition f_maxelems : field set Z := Field maxelems (λ x s, mkSet (head s) (Some x)).

(** ** Program points *)

Inductive op := Contains | Add | Remove.

#[global] Instance op_eq_dec : EqDecision op.
Proof. solve_decision. Defined.

Inductive pc :=
| OHead (o : op) (e : Z)                (** before [head = set->head] *)
(* locate *)
| LHead (o : op) (e : Z)                (** before [p = set->head] *)
| LLock (o : op) (e p : Z)              (** before [lock(&p->lock)] *)
| LNext (o : op) (e p : Z)              (** before [c = p->next] *)
| LValue (o : op) (e p c : Z)           (** before the read of [c->value] *)
| LLockNext (o : op) (e p c : Z)        (** before [lock(&c->lock)] *)
| LUnlock (o : op) (e p c : Z)          (** before [unlock(&p->lock)] *)
(* after locate has returned [x] *)
| FNext (o : op) (e x : Z)              (** before the read of [x->next] *)
| FValue (o : op) (e x z : Z)           (** before the read of [z->value] *)
(* add *)
| AMalloc (e x z : Z)                   (** before the allocation of [y] *)
| ALock (e x z y : Z)                   (** before [y->lock = 0] *)
| AValue (e x z y : Z)                  (** before [y->value = e] *)
| ANext (e x z y : Z)                   (** before [y->next = z] *)
| ALink (e x z y : Z)                   (** before [x->next = y] *)
(* _remove *)
| RLock (e x y : Z)                     (** before [lock(&y->lock)] *)
| RNext (e x y : Z)                     (** before the read of [y->next] *)
| RLink (e x y n : Z)                   (** before [x->next = n] *)
| RFree (x y : Z)                       (** before [free(y)] *)
(* all *)
| Unlock (x : Z) (result : bool)        (** before [unlock(&x->lock)] *)
| Done (result : bool).                 (** returned *)

Section functions.
Context {A : Allocator object} {At : Atomics object}.

(** ** Functions that run alone *)

Definition create_set (max : Z) : M (mem object) Z :=
  first ← malloc (mkNode None None None);
  abort_if (first =? 0)%Z ;;
  last ← malloc (mkNode None None None);
  abort_if (last =? 0)%Z ;;
  store f_lock first 0%Z ;;
  store f_value first INT_MIN ;;
  store f_next first last ;;
  store f_value last INT_MAX ;;
  set ← malloc (mkSet None None);
  abort_if (set =? 0)%Z ;;
  store f_head set first ;;
  store f_maxelems set max ;;
  mret set.

Definition get_maxelems (set : Z) : M (mem object) Z := load f_maxelems set.

Definition dispose_set (fuel : nat) (set : Z) : M (mem object) unit :=
  x ← load f_head set;
  x ← while fuel (λ x, v ← load f_value x; mret (v <? INT_MAX)%Z)
        (λ x, y ← load f_next x;
              free x ;;
              mret y) x;
  free x ;;
  free set.

(** ** [contains], [add] and [_remove] *)

Definition step_pc (set : Z) (c : pc) : M (mem object) pc :=
  match c with
  | OHead o e => _ ← load f_head set; mret (LHead o e)
  | LHead o e => p ← load f_head set; mret (LLock o e p)
  | LLock o e p =>
      b ← lock_attempt f_lock p;
      mret (if b : bool then LNext o e p else LLock o e p)
  | LNext o e p => c ← load f_next p; mret (LValue o e p c)
  | LValue o e p c =>
      v ← load f_value c;
      mret (if (v <? e)%Z then LLockNext o e p c else FNext o e p)
  | LLockNext o e p c =>
      b ← lock_attempt f_lock c;
      mret (if b : bool then LUnlock o e p c else LLockNext o e p c)
  | LUnlock o e p c => unlock f_lock p ;; mret (LNext o e c)
  | FNext o e x => z ← load f_next x; mret (FValue o e x z)
  | FValue o e x z =>
      v ← load f_value z;
      mret match o with
           | Contains => Unlock x (v =? e)%Z
           | Add => if (v =? e)%Z then Unlock x false else AMalloc e x z
           | Remove => if (v =? e)%Z then RLock e x z else Unlock x false
           end
  | AMalloc e x z =>
      y ← malloc (mkNode None None None);
      abort_if (y =? 0)%Z ;;
      mret (ALock e x z y)
  | ALock e x z y => store f_lock y 0%Z ;; mret (AValue e x z y)
  | AValue e x z y => store f_value y e ;; mret (ANext e x z y)
  | ANext e x z y => store f_next y z ;; mret (ALink e x z y)
  | ALink e x z y => store f_next x y ;; mret (Unlock x true)
  | RLock e x y =>
      b ← lock_attempt f_lock y;
      mret (if b : bool then RNext e x y else RLock e x y)
  | RNext e x y => n ← load f_next y; mret (RLink e x y n)
  | RLink e x y n => store f_next x n ;; mret (RFree x y)
  | RFree x y => free y ;; mret (Unlock x true)
  | Unlock x result => unlock f_lock x ;; mret (Done result)
  | Done result => mret (Done result)
  end.

(** ** A system of threads *)

(** What a thread is doing, what it has still to do, and the results so far. *)
Record thread := mkThread {
  doing : option pc;
  todo : list (op * Z);
  results : list bool;
}.

Definition thread_step (set : Z) (t : thread) : M (mem object) thread :=
  match doing t with
  | None =>
      match todo t with
      | [] => mret t
      | (o, e) :: todo => mret (mkThread (Some (OHead o e)) todo (results t))
      end
  | Some (Done b) => mret (mkThread None (todo t) (results t ++ [b]))
  | Some c => c ← step_pc set c; mret (mkThread (Some c) (todo t) (results t))
  end.

Definition step (set : Z) (i : nat) (ts : list thread) : M (mem object) (list thread) :=
  match ts !! i with
  | Some t => t ← thread_step set t; mret (<[i := t]> ts)
  | None => mret ts
  end.

Fixpoint run (set : Z) (sched : list nat) (ts : list thread) : M (mem object) (list thread) :=
  match sched with
  | [] => mret ts
  | i :: sched => ts ← step set i ts; run set sched ts
  end.

Definition threads_of (todos : list (list (op * Z))) : list thread :=
  map (λ todo, mkThread None todo []) todos.

Definition system (max : Z) (todos : list (list (op * Z))) (sched : list nat) :
    M (mem object) (Z * list thread) :=
  set ← create_set max;
  ts ← run set sched (threads_of todos);
  mret (set, ts).
End functions.
End LcSet.
