(* ===== verification/LcSetSpec.v ===== *)
(** * The set as its clients see it

    [Spec] is the abstract machine that [lcset.c] is to implement: threads call
    operations, and each takes effect in one step between call and return. *)

From S2P Require Import Prelude LcSet.

Module Spec.
Import LcSet.

Inductive status := Idle | Called (o : op) (e : Z) | Returning (r : bool).

Record thread := mkThread { stat : status; todo : list (op * Z); results : list bool }.

Record state := mkState { elems : gset Z; threads : list thread }.

(** The result and the effect of an operation. *)
Definition result (o : op) (e : Z) (s : gset Z) : bool :=
  match o with
  | Contains | Remove => bool_decide (e ∈ s)
  | Add => bool_decide (e ∉ s)
  end.

Definition effect (o : op) (e : Z) (s : gset Z) : gset Z :=
  match o with Contains => s | Add => {[e]} ∪ s | Remove => s ∖ {[e]} end.

Definition thread_step (s : gset Z) (t : thread) : gset Z * thread :=
  match stat t with
  | Idle =>
      match todo t with
      | [] => (s, t)
      | (o, e) :: todo => (s, mkThread (Called o e) todo (results t))
      end
  | Called o e => (effect o e s, mkThread (Returning (result o e s)) (todo t) (results t))
  | Returning r => (s, mkThread Idle (todo t) (results t ++ [r]))
  end.

Definition step (i : nat) (s : state) : state :=
  match threads s !! i with
  | Some t => mkState (thread_step (elems s) t).1 (<[i := (thread_step (elems s) t).2]> (threads s))
  | None => s
  end.

Definition run (sched : list nat) (s : state) : state := foldl (λ s i, step i s) s sched.

Definition init (todos : list (list (op * Z))) : state :=
  mkState ∅ (map (λ todo, mkThread Idle todo []) todos).

(** ** Size *)

(** Operations that have not taken effect. *)
Definition pending (t : thread) : nat :=
  match stat t with Called _ _ => 1 | _ => 0 end + length (todo t).

Definition size_ok (n : nat) (s : state) : Prop :=
  size (elems s) + sum_list_with pending (threads s) ≤ n.

Lemma set_size_init todos : size_ok (sum_list_with length todos) (init todos).
Proof.
  unfold size_ok. simpl.
  induction todos as [|l todos IH]; simpl; [done|]. unfold pending at 1. simpl. lia.
Qed.

Lemma effect_size o e s : size (effect o e s) ≤ S (size s).
Proof.
  assert (size (s ∖ {[e]}) ≤ size s) as Hs by (apply subseteq_size; set_solver).
  destruct o; simpl; [lia| |lia]. rewrite size_union_alt, size_singleton. lia.
Qed.

Lemma thread_size s t :
  size (thread_step s t).1 + pending (thread_step s t).2 ≤ size s + pending t.
Proof.
  destruct t as [[|o e|r] [|[o' e'] l] rs]; unfold pending; simpl; try lia;
    pose proof (effect_size o e s); lia.
Qed.

Lemma set_size_step n i s : size_ok n s → size_ok n (step i s).
Proof.
  unfold size_ok, step. destruct (threads s !! i) as [t|] eqn:Ht; [|done]. simpl. intros H.
  pose proof (sum_insert pending _ _ _ (thread_step (elems s) t).2 Ht).
  pose proof (thread_size (elems s) t). lia.
Qed.

Lemma set_size_run n sched s : size_ok n s → size_ok n (run sched s).
Proof.
  revert s. induction sched as [|i sched IH]; intros s Hs; simpl; [done|]. by apply IH, set_size_step.
Qed.
End Spec.
