(* ===== verification/LcSetInv.v ===== *)
(** * The invariant of the lock-coupling set

    The list in memory is a list of entries, each with its address, its value
    and the thread that holds its lock, if any.  A thread changes the list only
    next to a node it has locked ([trans]), and what the others know about the
    nodes they have locked is not affected ([next_to_stable], [owned_stable]).
    Every step keeps the invariant while the specification takes at most one
    step of its own. *)

From iris.proofmode Require Import proofmode.
From S2P Require Import Prelude CHeap HeapLogic Atomics LcSet LcSetSpec.
Import LcSet.

Record entry := mkEntry { addr : Z; val : Z; owner : option nat }.

(** ** Lists of entries *)

Section entries.
Implicit Types ns : list entry.

(** The address and the value of the first entry, or of the last node. *)
Definition start ns (lst : Z) : Z := match ns with [] => lst | en :: _ => addr en end.
Definition start_val ns : Z := match ns with [] => INT_MAX | en :: _ => val en end.

(** Thread [i] has locked [p], whose value is [pv] and whose successor is [c],
    of value [cv]. *)
Fixpoint next_to (i : nat) ns (lst p pv c cv : Z) : Prop :=
  match ns with
  | [] => False
  | en :: ns =>
      (en = mkEntry p pv (Some i) ∧ start ns lst = c ∧ start_val ns = cv) ∨
      next_to i ns lst p pv c cv
  end.

(** The nodes thread [i] has locked, in order. *)
Definition owned (i : nat) ns : list Z := addr <$> filter (λ en, owner en = Some i) ns.

(** What a step of thread [i] may do to the list. *)
Inductive trans (i : nat) : list entry → list entry → Prop :=
| trans_same ns : trans i ns ns
| trans_cons en ns ns' : trans i ns ns' → trans i (en :: ns) (en :: ns')
| trans_lock p v ns : trans i (mkEntry p v None :: ns) (mkEntry p v (Some i) :: ns)
| trans_unlock p v ns : trans i (mkEntry p v (Some i) :: ns) (mkEntry p v None :: ns)
| trans_insert x xv y e ns :
    trans i (mkEntry x xv (Some i) :: ns) (mkEntry x xv (Some i) :: mkEntry y e None :: ns)
| trans_remove x xv y e ns :
    trans i (mkEntry x xv (Some i) :: mkEntry y e (Some i) :: ns) (mkEntry x xv (Some i) :: ns).

Lemma trans_app i l ns ns' : trans i ns ns' → trans i (l ++ ns) (l ++ ns').
Proof. intros H. induction l; simpl; [done|by constructor]. Qed.

Lemma trans_start i ns ns' lst :
  trans i ns ns' → start ns' lst = start ns lst ∧ start_val ns' = start_val ns.
Proof. by intros []. Qed.

Lemma next_to_stable i j ns ns' lst p pv c cv :
  i ≠ j → trans j ns ns' → next_to i ns lst p pv c cv → next_to i ns' lst p pv c cv.
Proof.
  intros Hij Ht. induction Ht as [ns|en ns ns' Ht IH| | | |]; simpl; try naive_solver.
  destruct (trans_start _ _ _ lst Ht) as [-> ->]. naive_solver.
Qed.

Lemma owned_cons i en ns :
  owned i (en :: ns) = (if decide (owner en = Some i) then [addr en] else []) ++ owned i ns.
Proof. unfold owned. rw filter_cons. by case_decide. Qed.

Lemma owned_eq i en ns : owner en = Some i → owned i (en :: ns) = addr en :: owned i ns.
Proof. intros H. by rw owned_cons decide_True. Qed.

Lemma owned_ne i en ns : owner en ≠ Some i → owned i (en :: ns) = owned i ns.
Proof. intros H. by rw owned_cons decide_False. Qed.

Lemma owned_app i l ns : owned i (l ++ ns) = owned i l ++ owned i ns.
Proof. unfold owned. by rw filter_app fmap_app. Qed.

Lemma owned_stable i j ns ns' : i ≠ j → trans j ns ns' → owned i ns' = owned i ns.
Proof.
  intros Hij Ht. induction Ht; rw ?owned_cons /=; repeat case_decide; simplify_eq/=; try done.
  all: by f_equal.
Qed.

(** Where the locked node is. *)
Lemma next_to_split i ns lst p pv c cv :
  next_to i ns lst p pv c cv →
  ∃ l1 l2, ns = l1 ++ mkEntry p pv (Some i) :: l2 ∧ start l2 lst = c ∧ start_val l2 = cv.
Proof.
  induction ns as [|en ns IH]; simpl; [done|]. intros [(-> & Hc & Hv)|H].
  - by exists [], ns.
  - destruct (IH H) as (l1 & l2 & -> & Hc & Hv). by exists (en :: l1), l2.
Qed.

Lemma next_to_intro i l1 l2 lst p pv :
  next_to i (l1 ++ mkEntry p pv (Some i) :: l2) lst p pv (start l2 lst) (start_val l2).
Proof. induction l1; simpl; [by left|by right]. Qed.

(** ** Order and contents *)

Definition elems ns : gset Z := list_to_set (val <$> tail ns).

(** The values of the nodes, the last one included. *)
Definition vals ns : list Z := (val <$> ns) ++ [INT_MAX].

Definition sorted ns : Prop := StronglySorted Z.lt (vals ns).

(** The list starts with [INT_MIN] and is sorted. *)
Definition wf ns : Prop := start_val ns = INT_MIN ∧ sorted ns.

Definition in_range (e : Z) : Prop := (INT_MIN < e < INT_MAX)%Z.

Lemma sorted_cons x ns : sorted (x :: ns) ↔ Forall (Z.lt (val x)) (vals ns) ∧ sorted ns.
Proof. apply StronglySorted_cons. Qed.

Lemma sorted_app l1 x l2 :
  sorted (l1 ++ x :: l2) ↔
  (∀ a b, a ∈ val <$> l1 → b ∈ val x :: vals l2 → (a < b)%Z) ∧
  StronglySorted Z.lt (val <$> l1) ∧ sorted (x :: l2).
Proof. unfold sorted, vals at 1. rw fmap_app -assoc_L. apply StronglySorted_app. Qed.

Lemma sorted_start ns : sorted ns → Forall (Z.le (start_val ns)) (vals ns).
Proof.
  destruct ns as [|a ns]; [by repeat constructor|]. intros [H _]%sorted_cons.
  constructor; [simpl; lia|]. eapply Forall_impl; [exact H|]. simpl. lia.
Qed.

Lemma elem_vals en ns : en ∈ ns → val en ∈ vals ns.
Proof. intros H. apply elem_of_app. left. apply list_elem_of_fmap. by exists en. Qed.

(** A sorted list around an entry. *)
Lemma sorted_mid l1 x l2 :
  sorted (l1 ++ x :: l2) →
  Forall (λ a, val a < val x)%Z l1 ∧ (val x < start_val l2)%Z ∧ sorted l2 ∧
  Forall (λ b, start_val l2 ≤ val b)%Z l2.
Proof.
  intros (H1 & _ & [Hx H2]%sorted_cons)%sorted_app. split_and!; [..|done|].
  - apply Forall_forall. intros a Ha. apply H1; [|by left]. apply list_elem_of_fmap. by exists a.
  - destruct l2; by apply Forall_cons in Hx as [? _].
  - apply sorted_start in H2. rw Forall_forall in H2. apply Forall_forall. intros b Hb.
    by apply H2, elem_vals.
Qed.

(** Whether a value is in the set shows next to where it belongs. *)
Lemma elems_mid l1 x l2 e :
  wf (l1 ++ x :: l2) → in_range e → (val x < e ≤ start_val l2)%Z →
  (e ∈ elems (l1 ++ x :: l2) ↔ start_val l2 = e).
Proof.
  intros [Hs Hw] [He1 He2] Hx. destruct (sorted_mid _ _ _ Hw) as (H1 & Hx2 & _ & H2).
  rw Forall_forall in H1. rw Forall_forall in H2. unfold elems.
  rw elem_of_list_to_set list_elem_of_fmap. split.
  - intros (en & -> & Hin).
    assert (en ∈ l1 ++ x :: l2) as Hin' by (by destruct (l1 ++ x :: l2); [|right]).
    apply elem_of_app in Hin' as [Hin'|Hin']; [specialize (H1 _ Hin'); lia|].
    apply elem_of_cons in Hin' as [->|Hin']; [lia|]. specialize (H2 _ Hin'). lia.
  - destruct l2 as [|b l2]; simpl; [lia|]. intros <-. exists b. split; [done|].
    destruct l1; simpl; set_solver.
Qed.

(** Contents and order depend on the values only. *)
Lemma wf_vals ns ns' : val <$> ns = val <$> ns' → wf ns → wf ns' ∧ elems ns' = elems ns.
Proof.
  intros Hv [Hs Hw]. unfold wf, sorted, vals, elems in *. rw -Hv. split_and!; [|done|].
  - rw -Hs. by destruct ns, ns'; simplify_eq/=.
  - by destruct ns, ns'; simplify_eq/=; f_equal.
Qed.

Lemma insert_wf l1 x l2 y :
  wf (l1 ++ x :: l2) → (val x < val y < start_val l2)%Z →
  wf (l1 ++ x :: y :: l2) ∧ elems (l1 ++ x :: y :: l2) = {[val y]} ∪ elems (l1 ++ x :: l2).
Proof.
  intros [Hs Hw] Hy. destruct (sorted_mid _ _ _ Hw) as (_ & _ & _ & H2). split; [split|].
  - rw -Hs. by destruct l1.
  - apply sorted_app in Hw as (H1 & Hl & [Hx Hl2]%sorted_cons). apply sorted_app.
    assert (Forall (Z.lt (val y)) (vals l2)) as Hyl.
    { eapply Forall_impl; [by apply sorted_start|]. simpl. lia. }
    split_and!; [|done|apply sorted_cons; split; [constructor; [lia|done]|by apply sorted_cons]].
    intros a b Ha. unfold vals. simpl. rw !elem_of_cons.
    intros [->|[->|Hb]]; [by apply H1; [|left]| |by apply H1; [|right]].
    assert (a < val x)%Z by (by apply H1; [|left]). lia.
  - unfold elems. destruct l1; simpl; [set_solver|]. rw !fmap_app. set_solver.
Qed.

Lemma remove_wf l1 x l2 y :
  wf (l1 ++ x :: y :: l2) →
  wf (l1 ++ x :: l2) ∧ elems (l1 ++ x :: l2) = elems (l1 ++ x :: y :: l2) ∖ {[val y]}.
Proof.
  intros [Hs Hw]. destruct (sorted_mid l1 x (y :: l2) Hw) as (H1 & Hx & Hw2 & _).
  destruct (sorted_mid [] y l2 Hw2) as (_ & Hy & _ & H2). split; [split|].
  - rw -Hs. by destruct l1.
  - apply sorted_app in Hw as (Ha & Hl & [Hxl Hl2]%sorted_cons). apply sorted_app.
    apply Forall_cons in Hxl as [_ Hxl]. apply sorted_cons in Hl2 as [_ Hl2].
    split_and!; [|done|by apply sorted_cons]. intros a b Hin Hb. apply Ha; [done|].
    unfold vals. simpl. set_solver.
  - unfold elems. rw Forall_forall in H1. rw Forall_forall in H2. simpl in Hx.
    assert (val y ∉ val <$> l2).
    { intros (b & Hb & Hin)%list_elem_of_fmap. specialize (H2 _ Hin). lia. }
    assert (val y ∉ val <$> l1).
    { intros (b & Hb & Hin)%list_elem_of_fmap. specialize (H1 _ Hin). lia. }
    assert (val y ≠ val x) by lia.
    destruct l1 as [|a l1]; simpl in *; [set_solver|]. rw !fmap_app. set_solver.
Qed.
End entries.

(** ** Program points *)

(** The locks held at a program point, in the order of the list. *)
Definition held (c : pc) : list Z :=
  match c with
  | OHead _ _ | LHead _ _ | LLock _ _ _ | Done _ => []
  | LNext _ _ p | LValue _ _ p _ | LLockNext _ _ p _ => [p]
  | LUnlock _ _ p c => [p; c]
  | FNext _ _ x | FValue _ _ x _ | AMalloc _ x _ | ALock _ x _ _ | AValue _ x _ _
  | ANext _ x _ _ | ALink _ x _ _ | RLock _ x _ | RFree x _ | Unlock x _ => [x]
  | RNext _ x y | RLink _ x y _ => [x; y]
  end.

(** Where the specification is. *)
Definition status_of (c : pc) : Spec.status :=
  match c with
  | OHead o e | LHead o e | LLock o e _ | LNext o e _ | LValue o e _ _ | LLockNext o e _ _
  | LUnlock o e _ _ | FNext o e _ | FValue o e _ _ => Spec.Called o e
  | AMalloc e _ _ | ALock e _ _ _ | AValue e _ _ _ | ANext e _ _ _ | ALink e _ _ _ =>
      Spec.Called Add e
  | RLock e _ _ | RNext e _ _ | RLink e _ _ _ => Spec.Called Remove e
  | RFree _ _ => Spec.Returning true
  | Unlock _ r | Done r => Spec.Returning r
  end.

(** What thread [i] knows about the list. *)
Definition pc_fact (i : nat) (ns : list entry) (lst : Z) (c : pc) : Prop :=
  match c with
  | OHead _ e | LHead _ e => in_range e
  | LLock _ e p => in_range e ∧ p = start ns lst
  | LNext _ e p => in_range e ∧ ∃ pv c cv, next_to i ns lst p pv c cv ∧ (pv < e)%Z
  | LValue _ e p c => in_range e ∧ ∃ pv cv, next_to i ns lst p pv c cv ∧ (pv < e)%Z
  | LLockNext _ e p c => in_range e ∧ ∃ pv cv, next_to i ns lst p pv c cv ∧ (cv < e)%Z
  | LUnlock _ e p c => in_range e ∧ ∃ pv cv d dv, next_to i ns lst p pv c cv ∧
      next_to i ns lst c cv d dv ∧ (cv < e)%Z
  | FNext _ e x => in_range e ∧ ∃ xv z zv, next_to i ns lst x xv z zv ∧ (xv < e ≤ zv)%Z
  | FValue _ e x z => in_range e ∧ ∃ xv zv, next_to i ns lst x xv z zv ∧ (xv < e ≤ zv)%Z
  | AMalloc e x z | ALock e x z _ | AValue e x z _ | ANext e x z _ | ALink e x z _ =>
      in_range e ∧ ∃ xv zv, next_to i ns lst x xv z zv ∧ (xv < e < zv)%Z
  | RLock e x y => in_range e ∧ ∃ xv, next_to i ns lst x xv y e
  | RNext e x y => in_range e ∧ ∃ xv d dv, next_to i ns lst x xv y e ∧ next_to i ns lst y e d dv
  | RLink e x y n => in_range e ∧ ∃ xv nv, next_to i ns lst x xv y e ∧ next_to i ns lst y e n nv
  | RFree x _ | Unlock x _ => ∃ xv z zv, next_to i ns lst x xv z zv
  | Done _ => True
  end.

Definition knows (i : nat) (ns : list entry) (lst : Z) (c : pc) : Prop :=
  owned i ns = held c ∧ pc_fact i ns lst c.

Lemma knows_stable i j ns ns' lst c : i ≠ j → trans j ns ns' → knows i ns lst c → knows i ns' lst c.
Proof.
  intros Hij Ht [Ho Hf]. pose proof (λ p pv c cv, next_to_stable i j ns ns' lst p pv c cv Hij Ht) as Hn.
  split; [by rw (owned_stable _ _ _ _ Hij Ht)|].
  destruct (trans_start _ _ _ lst Ht) as [Hs _].
  destruct c; simpl in *; rw ?Hs; naive_solver.
Qed.

(** A step of the specification, or none. *)
Definition spec_moves (c : pc) (s : gset Z) (c' : pc) (s' : gset Z) : Prop :=
  (status_of c' = status_of c ∧ s' = s) ∨
  ∃ o e, status_of c = Spec.Called o e ∧ s' = Spec.effect o e s ∧
         status_of c' = Spec.Returning (Spec.result o e s).

Section inv.
Context {A : Allocator object} {AL : AllocatorLaws A}.
Context {At : Atomics object} {AtL : AtomicsLaws At}.

(** ** The list in memory *)

Definition word (o : option nat) : Z := match o with None => 0 | Some _ => 1 end.

Definition entry_at (en : entry) (nx : Z) : hPropI object :=
  (addr en ↦ mkNode (Some (word (owner en))) (Some nx) (Some (val en)))%I.

Fixpoint seg (ns : list entry) (q : Z) : hPropI object :=
  match ns with
  | [] => emp
  | en :: ns => entry_at en (start ns q) ∗ seg ns q
  end%I.

(** The last node, whose lock and successor are never set. *)
Definition sentinel (lst : Z) : hPropI object :=
  (lst ↦ mkNode None None (Some INT_MAX))%I.

Definition chain (ns : list entry) (lst : Z) : hPropI object := (seg ns lst ∗ sentinel lst)%I.

Lemma seg_app l1 l2 q : seg (l1 ++ l2) q ⊣⊢ seg l1 (start l2 q) ∗ seg l2 q.
Proof.
  induction l1 as [|a l1 IH]; simpl; [by rw left_id|]. rw IH assoc. do 3 f_equiv.
  by destruct l1.
Qed.

Lemma chain_mid l1 x l2 lst :
  chain (l1 ++ x :: l2) lst ⊣⊢
  entry_at x (start l2 lst) ∗ seg l1 (addr x) ∗ chain l2 lst.
Proof.
  unfold chain. rw seg_app. simpl. iSplit.
  - iIntros "[(H1 & Hx & H2) Hs]". iFrame.
  - iIntros "(Hx & H1 & H2 & Hs)". iFrame.
Qed.

(** A node that is locked, and the node after it. *)
Lemma chain_locked i ns lst p pv c cv :
  next_to i ns lst p pv c cv →
  chain ns lst ⊢ p ↦ mkNode (Some 1%Z) (Some c) (Some pv) ∗
    (p ↦ mkNode (Some 1%Z) (Some c) (Some pv) -∗ chain ns lst).
Proof.
  intros (l1 & l2 & -> & <- & _)%next_to_split. rw {1}chain_mid. iIntros "(Hx & H)".
  iFrame "Hx". iIntros "Hx". rw chain_mid. iFrame.
Qed.

Lemma chain_start ns lst : chain ns lst ⊢ ∃ lk nx,
  start ns lst ↦ mkNode lk nx (Some (start_val ns)) ∗
  (start ns lst ↦ mkNode lk nx (Some (start_val ns)) -∗ chain ns lst).
Proof.
  destruct ns as [|en ns]; unfold chain; simpl.
  - iIntros "[_ Hs]". iExists _, _. iFrame "Hs". iIntros "Hs". by iFrame.
  - iIntros "[[Hx H] Hs]". iExists _, _. iFrame "Hx". iIntros "Hx". iFrame.
Qed.

Lemma chain_next i ns lst p pv c cv :
  next_to i ns lst p pv c cv →
  chain ns lst ⊢ ∃ lk nx, c ↦ mkNode lk nx (Some cv) ∗
    (c ↦ mkNode lk nx (Some cv) -∗ chain ns lst).
Proof.
  intros (l1 & l2 & -> & <- & <-)%next_to_split. rw {1}chain_mid. iIntros "(Hx & H1 & H2)".
  iDestruct (chain_start with "H2") as "(%lk & %nx & Hc & H2)". iExists lk, nx. iFrame "Hc".
  iIntros "Hc". iDestruct ("H2" with "Hc") as "H2". rw chain_mid. iFrame.
Qed.

Lemma lock_wp E i l1 p v o l2 lst :
  chain (l1 ++ mkEntry p v o :: l2) lst ⊢
  wp E (lock_attempt f_lock p) (λ b,
    if b : bool then ⌜o = None⌝ ∧ chain (l1 ++ mkEntry p v (Some i) :: l2) lst
    else chain (l1 ++ mkEntry p v o :: l2) lst)%I.
Proof.
  rw {1}chain_mid. iIntros "(Hx & H1 & H2)". iApply (wp_lock_attempt with "Hx"); [reflexivity|].
  destruct o; simpl; iIntros "Hx"; [|iSplit; [done|]]; rw chain_mid; iFrame.
Qed.

Lemma unlock_wp E i l1 p v l2 lst :
  chain (l1 ++ mkEntry p v (Some i) :: l2) lst ⊢
  wp E (unlock f_lock p) (λ _, chain (l1 ++ mkEntry p v None :: l2) lst).
Proof.
  rw {1}chain_mid. iIntros "(Hx & H1 & H2)". iApply (wp_unlock with "Hx"). iIntros "Hx".
  rw chain_mid. iFrame.
Qed.

(** ** Steps *)

(** What a thread owns besides the list. *)
Definition pc_own (c : pc) : hPropI object :=
  match c with
  | ALock _ _ _ y => y ↦ mkNode None None None
  | AValue _ _ _ y => y ↦ mkNode (Some 0%Z) None None
  | ANext e _ _ y => y ↦ mkNode (Some 0%Z) None (Some e)
  | ALink e _ z y => y ↦ mkNode (Some 0%Z) (Some z) (Some e)
  | RFree _ y => ∃ r : node, y ↦ r
  | _ => emp
  end%I.

Definition set_at (set max h : Z) : hPropI object := (set ↦ mkSet (Some h) (Some max))%I.

Definition pc_moves (i : nat) (lst : Z) (c : pc) (ns : list entry) (c' : pc) (ns' : list entry) : Prop :=
  trans i ns ns' ∧ wf ns' ∧ knows i ns' lst c' ∧ spec_moves c (elems ns) c' (elems ns').

Definition pc_post (set max lst : Z) (i : nat) (c : pc) (ns : list entry) (c' : pc) : hPropI object :=
  (∃ ns', ⌜pc_moves i lst c ns c' ns'⌝ ∧
     set_at set max (start ns lst) ∗ chain ns' lst ∗ pc_own c')%I.

(** A step that leaves the list alone. *)
Lemma pc_post_same set max lst i c ns c' :
  wf ns → knows i ns lst c' → spec_moves c (elems ns) c' (elems ns) →
  set_at set max (start ns lst) ∗ chain ns lst ∗ pc_own c' ⊢ pc_post set max lst i c ns c'.
Proof.
  intros Hw Hk Hs. iIntros "H". iExists ns. iSplit; [iPureIntro|done].
  split; [constructor|]. split; [done|by split].
Qed.

Definition pc_spec (set max lst : Z) (i : nat) (c : pc) (ns : list entry) : Prop :=
  wf ns → knows i ns lst c →
  set_at set max (start ns lst) ∗ chain ns lst ∗ pc_own c ⊢
  wp oom (step_pc set c) (pc_post set max lst i c ns).

Lemma read_head_ok set max lst i ns o e :
  pc_spec set max lst i (OHead o e) ns ∧ pc_spec set max lst i (LHead o e) ns.
Proof.
  split; intros Hw [Ho He]; simpl; iIntros "(Hs & Hc & _)"; wp_read "Hs"; iApply wp_ret.
  all: iApply pc_post_same; [done|by split|by left|by iFrame].
Qed.

Lemma read_next_ok set max lst i ns o e p :
  pc_spec set max lst i (LNext o e p) ns ∧ pc_spec set max lst i (FNext o e p) ns.
Proof.
  split; intros Hw [Ho (He & pv & c & cv & Hn & Hp)]; simpl; iIntros "(Hs & Hc & _)".
  all: iDestruct (chain_locked with "Hc") as "[Hp Hc]"; [done|]; wp_read "Hp"; iApply wp_ret.
  all: iDestruct ("Hc" with "Hp") as "Hc".
  all: iApply pc_post_same; [done|split; [done|naive_solver]|by left|by iFrame].
Qed.

Lemma read_value_ok set max lst i ns o e p c : pc_spec set max lst i (LValue o e p c) ns.
Proof.
  intros Hw [Ho (He & pv & cv & Hn & Hp)]. simpl. iIntros "(Hs & Hc & _)".
  iDestruct (chain_next with "Hc") as "(%lk & %nx & Hp & Hc)"; [done|]. wp_read "Hp". iApply wp_ret.
  iDestruct ("Hc" with "Hp") as "Hc". destruct (Z.ltb_spec cv e).
  - iApply pc_post_same; [done|split; [done|naive_solver]|by left|by iFrame].
  - iApply pc_post_same; [done|split; [done|]|by left|by iFrame]. split; [done|].
    eexists _, _, _. split; [done|lia].
Qed.

(** The result of an operation is known once the place of its value is. *)
Lemma set_find_ok set max lst i ns o e x z : pc_spec set max lst i (FValue o e x z) ns.
Proof.
  intros Hw [Ho (He & xv & zv & Hn & Hx)]. simpl. iIntros "(Hs & Hc & _)".
  iDestruct (chain_next with "Hc") as "(%lk & %nx & Hp & Hc)"; [done|]. wp_read "Hp". iApply wp_ret.
  iDestruct ("Hc" with "Hp") as "Hc". iCombine "Hs Hc" as "H".
  assert (e ∈ elems ns ↔ zv = e) as Hin.
  { apply next_to_split in Hn as (l1 & l2 & -> & _ & <-). by apply elems_mid. }
  assert (∀ b, knows i ns lst (Unlock x b)) as Hu by (intros b; split; [done|]; by eexists _, _, _).
  destruct o, (Z.eqb_spec zv e) as [Hz|Hz].
  all: iApply pc_post_same; [done|..|iDestruct "H" as "[$ $]"; done].
  all: try apply Hu; try (split; [done|]; simpl; split; [done|]).
  all: try (by left).
  all: try (right; eexists _, _; split_and!; [done|set_solver|]; simpl; f_equal; symmetry;
            first [apply bool_decide_eq_true|apply bool_decide_eq_false]; tauto).
  - exists xv, zv. split; [done|lia].
  - exists xv. by rw -{1}Hz.
Qed.

(** *** Locks *)

Lemma owned_none i l1 l2 : owned i (l1 ++ l2) = [] → owned i l1 = [] ∧ owned i l2 = [].
Proof. rw owned_app. apply app_eq_nil. Qed.

Lemma owned_mid i l1 en l2 q :
  owner en = Some i → owned i (l1 ++ en :: l2) = [q] → owned i l1 = [] ∧ owned i l2 = [].
Proof.
  intros Hen. rw owned_app owned_eq //. intros H.
  destruct (owned i l1) as [|a [|]]; simplify_eq/=; done.
Qed.

Lemma owned_mid2 i l1 en en' l2 q q' :
  owner en = Some i → owner en' = Some i → owned i (l1 ++ en :: en' :: l2) = [q; q'] →
  owned i l1 = [] ∧ owned i l2 = [].
Proof.
  intros Hen Hen'. rw owned_app !owned_eq //. intros H.
  destruct (owned i l1) as [|a [|b [|]]]; simplify_eq/=; done.
Qed.

(** The same list with other owners. *)
Lemma owners_moves i lst c ns c' ns' :
  wf ns → val <$> ns = val <$> ns' → trans i ns ns' → knows i ns' lst c' →
  status_of c' = status_of c → pc_moves i lst c ns c' ns'.
Proof.
  intros Hw Hv Ht Hk Hs. destruct (wf_vals _ _ Hv Hw) as [Hw' He].
  split; [done|]. split; [done|]. split; [done|]. rw He. by left.
Qed.

Lemma lock_first_ok set max lst i ns o e p : pc_spec set max lst i (LLock o e p) ns.
Proof.
  intros Hw [Ho [He ->]]. iIntros "(Hs & Hc & _)". simpl.
  destruct ns as [|[p v ow] ns]; [by destruct Hw as [Hv _]|].
  iApply (wp_call (lock_wp oom i [] p v ow ns lst) (λ x, x) with "Hc"). iIntros ([|]) "Hc".
  - iDestruct "Hc" as "[-> Hc]". iApply wp_ret. iExists (mkEntry p v (Some i) :: ns).
    iSplit; [iPureIntro|by iFrame]. rw owned_ne // in Ho.
    apply owners_moves; [done|done|constructor|split|done].
    + by rw owned_eq // Ho.
    + split; [done|]. exists v, (start ns lst), (start_val ns). split; [by left|].
      destruct Hw as [Hv _]. simpl in Hv. unfold in_range in He. lia.
  - iApply wp_ret. iApply pc_post_same; [done|done|by left|]. by iFrame.
Qed.

(** A locked node whose successor is not the last. *)
Lemma next_to_split2 i ns lst p pv c cv :
  next_to i ns lst p pv c cv → (cv < INT_MAX)%Z →
  ∃ l1 o l2, ns = l1 ++ mkEntry p pv (Some i) :: mkEntry c cv o :: l2.
Proof.
  intros (l1 & [|[c' cv' o] l2] & -> & Hc & Hv)%next_to_split Hlt; simpl in *; [lia|].
  subst. by exists l1, o, l2.
Qed.

(** An entry is determined by its value. *)
Lemma split_unique l1 l2 m1 m2 a b :
  sorted (l1 ++ a :: l2) → l1 ++ a :: l2 = m1 ++ b :: m2 → val a = val b →
  l1 = m1 ∧ a = b ∧ l2 = m2.
Proof.
  revert m1. induction l1 as [|c l1 IH]; intros [|d m1] Hs He Hv; simplify_eq/=; [done|..].
  - apply sorted_cons in Hs as [Hs _]. rw Forall_forall in Hs.
    specialize (Hs (val b) (elem_vals b (m1 ++ b :: m2) ltac:(set_solver))). lia.
  - apply sorted_cons in Hs as [Hs _]. rw Forall_forall in Hs.
    specialize (Hs (val a) (elem_vals a (l1 ++ a :: l2) ltac:(set_solver))). lia.
  - apply sorted_cons in Hs as [_ Hs]. destruct (IH m1 Hs) as (-> & -> & ->); done.
Qed.

(** Two neighbours that are both locked. *)
Lemma next_to_both i ns lst p pv c cv d dv :
  wf ns → next_to i ns lst p pv c cv → next_to i ns lst c cv d dv → (cv < INT_MAX)%Z →
  ∃ l1 l2, ns = l1 ++ mkEntry p pv (Some i) :: mkEntry c cv (Some i) :: l2 ∧
           start l2 lst = d ∧ start_val l2 = dv.
Proof.
  intros [_ Hs] Hn Hn' Hlt. destruct (next_to_split2 _ _ _ _ _ _ _ Hn Hlt) as (l1 & o & l2 & ->).
  apply next_to_split in Hn' as (m1 & m2 & He & Hd & Hdv). rw cons_middle assoc_L in Hs, He.
  destruct (split_unique _ _ _ _ _ _ Hs He) as (_ & [= ->] & ->); [done|]. by exists l1, m2.
Qed.

(** Locking the node after a locked one. *)
Lemma lock_next_ok set max lst i ns p pv c cv here there :
  wf ns → knows i ns lst here → held here = [p] → next_to i ns lst p pv c cv → (cv < INT_MAX)%Z →
  status_of there = status_of here → held there = [p; c] → pc_own there = emp%I →
  pc_own here = emp%I →
  (∀ ns' d dv, next_to i ns' lst p pv c cv → next_to i ns' lst c cv d dv → pc_fact i ns' lst there) →
  set_at set max (start ns lst) ∗ chain ns lst ⊢
  wp oom (b ← lock_attempt f_lock c; mret (if b : bool then there else here))
    (pc_post set max lst i here ns).
Proof.
  intros Hw Hk Hh Hn Hcv Hst Hht Hot Hoh Hf. iIntros "[Hs Hc]".
  destruct (next_to_split2 _ _ _ _ _ _ _ Hn Hcv) as (l1 & ow & l2 & ->).
  iEval (rw cons_middle assoc_L) in "Hc".
  iApply (wp_call (lock_wp oom i (l1 ++ [mkEntry p pv (Some i)]) c cv ow l2 lst) (λ x, x) with "Hc").
  iIntros ([|]) "Hc".
  - iDestruct "Hc" as "[-> Hc]". iApply wp_ret.
    iExists (l1 ++ mkEntry p pv (Some i) :: mkEntry c cv (Some i) :: l2).
    iEval (rw -assoc_L) in "Hc". rw Hot. iSplit; [iPureIntro|by iFrame].
    destruct Hk as [Ho _]. rw Hh in Ho. apply owned_mid in Ho as [Ho1 Ho2]; [|done].
    rw owned_ne // in Ho2. apply owners_moves; [done|by rw !fmap_app| |split|done].
    + apply trans_app, trans_cons, trans_lock.
    + rw owned_app !owned_eq // Ho1 Ho2 Hht. done.
    + eapply Hf; [apply next_to_intro|]. rw cons_middle assoc_L. apply next_to_intro.
  - iApply wp_ret. iApply pc_post_same; [done|done|by left|]. iEval (rw -assoc_L) in "Hc".
    rw Hoh. by iFrame.
Qed.

Lemma lock_couple_ok set max lst i ns o e p c : pc_spec set max lst i (LLockNext o e p c) ns.
Proof.
  intros Hw Hk. pose proof Hk as [_ (He & pv & cv & Hn & Hc)]. iIntros "(Hs & Hc & _)".
  assert (cv < INT_MAX)%Z by (unfold in_range in He; lia).
  iApply (lock_next_ok set max lst i ns p pv c cv (LLockNext o e p c) (LUnlock o e p c)
    with "[$Hs $Hc]"); try done.
  intros ns' d dv H1 H2. split; [done|]. by exists pv, cv, d, dv.
Qed.

Lemma lock_victim_ok set max lst i ns e x y : pc_spec set max lst i (RLock e x y) ns.
Proof.
  intros Hw Hk. pose proof Hk as [_ (He & xv & Hn)]. iIntros "(Hs & Hc & _)".
  assert (e < INT_MAX)%Z by (unfold in_range in He; lia).
  iApply (lock_next_ok set max lst i ns x xv y e (RLock e x y) (RNext e x y)
    with "[$Hs $Hc]"); try done.
  intros ns' d dv H1 H2. split; [done|]. by exists xv, d, dv.
Qed.

Lemma unlock_last_ok set max lst i ns x r : pc_spec set max lst i (Unlock x r) ns.
Proof.
  intros Hw [Ho (xv & z & zv & Hn)]. iIntros "(Hs & Hc & _)".
  apply next_to_split in Hn as (l1 & l2 & -> & _ & _).
  iApply (wp_call (unlock_wp oom i l1 x xv l2 lst) (λ x, x) with "Hc"). iIntros (_) "Hc".
  iApply wp_ret. iExists (l1 ++ mkEntry x xv None :: l2). iSplit; [iPureIntro|by destruct l1; iFrame].
  apply owned_mid in Ho as [Ho1 Ho2]; [|done].
  apply owners_moves; [done|by rw !fmap_app|apply trans_app, trans_unlock|split; [|done]|done].
  by rw owned_app owned_ne // Ho1 Ho2.
Qed.

Lemma unlock_couple_ok set max lst i ns o e p c : pc_spec set max lst i (LUnlock o e p c) ns.
Proof.
  intros Hw [Ho (He & pv & cv & d & dv & Hn & Hn' & Hc)]. iIntros "(Hs & Hc & _)".
  assert (cv < INT_MAX)%Z by (unfold in_range in He; lia).
  destruct (next_to_both _ _ _ _ _ _ _ _ _ Hw Hn Hn') as (l1 & l2 & -> & <- & <-); [done|].
  iApply (wp_call (unlock_wp oom i l1 p pv (mkEntry c cv (Some i) :: l2) lst) (λ x, x) with "Hc").
  iIntros (_) "Hc". iApply wp_ret.
  iExists (l1 ++ mkEntry p pv None :: mkEntry c cv (Some i) :: l2).
  iSplit; [iPureIntro|by destruct l1; iFrame].
  apply owned_mid2 in Ho as [Ho1 Ho2]; [|done|done].
  apply owners_moves; [done|by rw !fmap_app|apply trans_app, trans_unlock|split|done].
  - by rw owned_app owned_ne // owned_eq // Ho1 Ho2.
  - split; [done|]. exists cv, (start l2 lst), (start_val l2). split; [|done].
    rw cons_middle assoc_L. apply next_to_intro.
Qed.

(** *** [add] *)

Lemma prepare_ok set max lst i ns e x z :
  pc_spec set max lst i (AMalloc e x z) ns ∧ ∀ y,
  pc_spec set max lst i (ALock e x z y) ns ∧ pc_spec set max lst i (AValue e x z y) ns ∧
  pc_spec set max lst i (ANext e x z y) ns.
Proof.
  split; [|intros y; split_and!]; intros Hw Hk.
  - iIntros "(Hs & Hc & _)". simpl. iApply wp_malloc_check; [done|]. iIntros (y) "Hy".
    iApply wp_ret. iApply pc_post_same; [done|done|by left|iFrame].
  - simpl. iIntros "(Hs & Hc & Hy)". wp_write "Hy". iApply wp_ret.
    iApply pc_post_same; [done|done|by left|iFrame].
  - simpl. iIntros "(Hs & Hc & Hy)". wp_write "Hy". iApply wp_ret.
    iApply pc_post_same; [done|done|by left|iFrame].
  - simpl. iIntros "(Hs & Hc & Hy)". wp_write "Hy". iApply wp_ret.
    iApply pc_post_same; [done|done|by left|iFrame].
Qed.

Lemma insert_ok set max lst i ns e x z y : pc_spec set max lst i (ALink e x z y) ns.
Proof.
  intros Hw [Ho (He & xv & zv & Hn & Hx)]. simpl. iIntros "(Hs & Hc & Hy)".
  apply next_to_split in Hn as (l1 & l2 & -> & <- & <-). rw chain_mid.
  iDestruct "Hc" as "(Hx & H1 & H2)". unfold entry_at. simpl. wp_write "Hx". iApply wp_ret.
  iExists (l1 ++ mkEntry x xv (Some i) :: mkEntry y e None :: l2).
  destruct (insert_wf l1 (mkEntry x xv (Some i)) l2 (mkEntry y e None) Hw Hx) as [Hw' Hel].
  assert (e ∉ elems (l1 ++ mkEntry x xv (Some i) :: l2)) as Hni.
  { rw elems_mid //; [simpl in *; lia|]. simpl in *. lia. }
  iSplit; [iPureIntro|].
  - split; [apply trans_app, trans_insert|]. split; [done|]. split.
    + apply owned_mid in Ho as [Ho1 Ho2]; [|done]. split.
      * by rw owned_app owned_eq // owned_ne // Ho1 Ho2.
      * exists xv, y, e. apply next_to_intro.
    + right. exists Add, e. split_and!; [done|done|]. simpl. by rw bool_decide_eq_true_2.
  - iFrame "Hs". rw chain_mid. iFrame.
Qed.

(** *** [_remove] *)

Lemma read_victim_ok set max lst i ns e x y : pc_spec set max lst i (RNext e x y) ns.
Proof.
  intros Hw [Ho (He & xv & d & dv & Hn & Hn')]. simpl. iIntros "(Hs & Hc & _)".
  iDestruct (chain_locked with "Hc") as "[Hp Hc]"; [exact Hn'|]. wp_read "Hp". iApply wp_ret.
  iDestruct ("Hc" with "Hp") as "Hc".
  iApply pc_post_same; [done|split; [done|naive_solver]|by left|by iFrame].
Qed.

Lemma remove_ok set max lst i ns e x y n : pc_spec set max lst i (RLink e x y n) ns.
Proof.
  intros Hw [Ho (He & xv & nv & Hn & Hn')]. simpl. iIntros "(Hs & Hc & _)".
  assert (e < INT_MAX)%Z as Hlt by (unfold in_range in He; lia).
  destruct (next_to_both _ _ _ _ _ _ _ _ _ Hw Hn Hn' Hlt) as (l1 & l2 & -> & <- & <-).
  rw chain_mid. iDestruct "Hc" as "(Hx & H1 & [[Hy H2] Hl])". unfold entry_at. simpl.
  wp_write "Hx". iApply wp_ret. iExists (l1 ++ mkEntry x xv (Some i) :: l2).
  destruct (remove_wf l1 (mkEntry x xv (Some i)) l2 (mkEntry y e (Some i)) Hw) as [Hw' Hel].
  assert (e ∈ elems (l1 ++ mkEntry x xv (Some i) :: mkEntry y e (Some i) :: l2)) as Hin.
  { unfold elems. destruct l1; simpl; [set_solver|]. rw fmap_app. set_solver. }
  iSplit; [iPureIntro|].
  - split; [apply trans_app, trans_remove|]. split; [done|]. split.
    + apply owned_mid2 in Ho as [Ho1 Ho2]; [|done|done]. split.
      * by rw owned_app owned_eq // Ho1 Ho2.
      * exists xv, (start l2 lst), (start_val l2). apply next_to_intro.
    + right. exists Remove, e. split_and!; [done|done|]. simpl. by rw bool_decide_eq_true_2.
  - rw chain_mid. unfold chain. iSplitL "Hs"; [by destruct l1|]. iFrame.
Qed.

Lemma free_victim_ok set max lst i ns x y : pc_spec set max lst i (RFree x y) ns.
Proof.
  intros Hw Hk. simpl. iIntros "(Hs & Hc & (%r & Hy))". wp_release "Hy". iApply wp_ret.
  iApply pc_post_same; [done|done|by left|by iFrame].
Qed.

Lemma step_pc_wp set max lst i c ns : pc_spec set max lst i c ns.
Proof.
  destruct c; first [ apply read_head_ok | apply lock_first_ok | apply read_next_ok
    | apply read_value_ok | apply lock_couple_ok | apply unlock_couple_ok | apply set_find_ok
    | apply prepare_ok | apply insert_ok | apply lock_victim_ok | apply read_victim_ok
    | apply remove_ok | apply free_victim_ok | apply unlock_last_ok | idtac ].
  intros Hw Hk. iIntros "H". iApply wp_ret. iApply pc_post_same; [done|done|by left|done].
Qed.
End inv.
