(* ===== verification/LcSetSystem.v ===== *)
(** * Threads that share a lock-coupling set

    The invariant of a system of threads and its simulation by the
    specification; that the threads never all wait for each other; and that a
    set nobody uses gives its memory back. *)

From iris.proofmode Require Import proofmode.
From S2P Require Import Prelude CHeap HeapLogic Atomics LcSet LcSetSpec LcSetInv.
Import LcSet.

(** ** Threads *)

(** The thread of the specification. *)
Definition abs_thread (t : thread) : Spec.thread :=
  Spec.mkThread (match doing t with None => Spec.Idle | Some c => status_of c end)
    (todo t) (results t).

Definition thread_knows (i : nat) (ns : list entry) (lst : Z) (t : thread) : Prop :=
  match doing t with None => owned i ns = [] | Some c => knows i ns lst c end ∧
  Forall (λ oe, in_range oe.2) (todo t).

Lemma thread_knows_stable i j ns ns' lst t :
  i ≠ j → trans j ns ns' → thread_knows i ns lst t → thread_knows i ns' lst t.
Proof.
  intros Hij Ht [Hk Hr]. split; [|done]. destruct (doing t).
  - by eapply knows_stable.
  - by rw (owned_stable _ _ _ _ Hij Ht).
Qed.

(** A step of the specification by the thread, or none. *)
Definition thread_moves (t : thread) (s : gset Z) (t' : thread) (s' : gset Z) : Prop :=
  (abs_thread t' = abs_thread t ∧ s' = s) ∨ (s', abs_thread t') = Spec.thread_step s (abs_thread t).

Section system.
Context {A : Allocator object} {AL : AllocatorLaws A}.
Context {At : Atomics object} {AtL : AtomicsLaws At}.

Definition thread_own (t : thread) : hPropI object :=
  match doing t with None => emp | Some c => pc_own c end%I.

Definition thread_post (set max lst : Z) (i : nat) (t : thread) (ns : list entry) (t' : thread) :
    hPropI object :=
  (∃ ns', ⌜trans i ns ns' ∧ wf ns' ∧ thread_knows i ns' lst t' ∧
           thread_moves t (elems ns) t' (elems ns')⌝ ∧
     set_at set max (start ns lst) ∗ chain ns' lst ∗ thread_own t')%I.

Lemma thread_running set max lst i c l rs ns :
  wf ns → thread_knows i ns lst (mkThread (Some c) l rs) →
  set_at set max (start ns lst) ∗ chain ns lst ∗ pc_own c ⊢
  wp oom (c ← step_pc set c; mret (mkThread (Some c) l rs))
    (thread_post set max lst i (mkThread (Some c) l rs) ns).
Proof.
  intros Hw [Hk Hr]. iIntros "H".
  iApply (wp_call (step_pc_wp set max lst i c ns Hw Hk) (λ x, x) with "H").
  iIntros (c') "(%ns' & %Hm & H)". iApply wp_ret. iExists ns'. iSplit; [iPureIntro|done].
  destruct Hm as (Ht & Hw' & Hk' & Hs). split; [done|]. split; [done|]. split; [done|].
  unfold thread_moves, abs_thread. simpl. destruct Hs as [[-> ->]|(o & e & -> & -> & ->)].
  - by left.
  - by right.
Qed.

Lemma thread_step_wp set max lst i t ns :
  wf ns → thread_knows i ns lst t →
  set_at set max (start ns lst) ∗ chain ns lst ∗ thread_own t ⊢
  wp oom (thread_step set t) (thread_post set max lst i t ns).
Proof.
  intros Hw Hk. destruct t as [[c|] l rs].
  - destruct c; try by apply thread_running.
    iIntros "H". iApply wp_ret. iExists ns. iSplit; [iPureIntro|done]. destruct Hk as [[Ho _] Hr].
    split; [constructor|]. split; [done|]. split; [by split|]. by right.
  - destruct l as [|[o e] l]; iIntros "H"; iApply wp_ret; iExists ns; (iSplit; [iPureIntro|done]).
    + split; [constructor|]. split; [done|]. split; [done|]. by left.
    + destruct Hk as [Ho [He Hr]%Forall_cons]. split; [constructor|]. split; [done|].
      split; [by split|]. by right.
Qed.

(** ** The system *)

Definition threads_know (ns : list entry) (lst : Z) (ts : list thread) : Prop :=
  (∀ i t, ts !! i = Some t → thread_knows i ns lst t) ∧
  (∀ i, length ts ≤ i → owned i ns = []).

Definition system_inv (set max lst : Z) (ns : list entry) (ts : list thread) (s : Spec.state) :
    hPropI object :=
  (⌜wf ns ∧ threads_know ns lst ts ∧ s = Spec.mkState (elems ns) (abs_thread <$> ts)⌝ ∧
   set_at set max (start ns lst) ∗ chain ns lst ∗ [∗ list] t ∈ ts, thread_own t)%I.

Lemma threads_know_step i t t' ns ns' lst ts :
  threads_know ns lst ts → ts !! i = Some t → trans i ns ns' → thread_knows i ns' lst t' →
  threads_know ns' lst (<[i := t']> ts).
Proof.
  intros [Hk Ho] Hi Ht Hk'. split.
  - intros j u Hj. destruct (decide (i = j)) as [<-|Hij].
    + rw list_lookup_insert_eq in Hj; [by simplify_eq|by eapply lookup_lt_Some].
    + rw list_lookup_insert_ne // in Hj. eapply thread_knows_stable; [by apply not_eq_sym|done|by apply Hk].
  - intros j. rw length_insert. intros Hj. rw (owned_stable j i ns ns'); [by apply Ho| |done].
    intros ->. apply lookup_lt_Some in Hi. lia.
Qed.

Lemma set_step_wp set max lst i ns ts s :
  system_inv set max lst ns ts s ⊢
  wp oom (step set i ts) (λ ts', ∃ ns' s', ⌜s' = s ∨ s' = Spec.step i s⌝ ∧
    system_inv set max lst ns' ts' s')%I.
Proof.
  iIntros "(%Hp & Hs & Hc & Hts)". destruct Hp as (Hw & Hk & ->). unfold step.
  destruct (ts !! i) as [t|] eqn:Hi.
  - iDestruct (big_sepL_insert_acc with "Hts") as "[Ht Hts]"; [done|].
    iApply (wp_call (thread_step_wp set max lst i t ns Hw (proj1 Hk i t Hi)) (λ x, x)
      with "[$Hs $Hc $Ht]").
    iIntros (t') "(%ns' & %Hm & Hs & Hc & Ht)". iApply wp_ret.
    destruct Hm as (Htr & Hw' & Hk' & Hmv). destruct (trans_start _ _ _ lst Htr) as [Hst _].
    iExists ns', (Spec.mkState (elems ns') (abs_thread <$> <[i := t']> ts)). iSplit; [iPureIntro|].
    + unfold Spec.step. simpl. rw list_lookup_fmap Hi list_fmap_insert. simpl.
      destruct Hmv as [[-> ->]|<-]; [left|by right].
      by rw (list_insert_id (abs_thread <$> ts)) // list_lookup_fmap Hi.
    + iDestruct ("Hts" with "Ht") as "Hts". rw /system_inv Hst.
      iSplit; [iPureIntro|by iFrame]. split; [done|]. split; [by eapply threads_know_step|done].
  - iApply wp_ret. iExists ns, (Spec.mkState (elems ns) (abs_thread <$> ts)).
    iSplit; [by iPureIntro; left|]. iSplit; [done|]. iFrame.
Qed.

(** ** Runs *)

Definition simulates (set : Z) (m : mem object) (ts : list thread) (s : Spec.state) : Prop :=
  ∃ max lst ns, hholds (system_inv set max lst ns ts s) (heap m).

Lemma set_run_ok set sched ts s m :
  simulates set m ts s →
  match run set sched ts m with
  | Ok (ts', m') => ∃ sched', sched' `sublist_of` sched ∧ simulates set m' ts' (Spec.run sched' s)
  | Err e => e = EAbort ∧ oom
  end.
Proof.
  revert ts s m. induction sched as [|i sched IH]; intros ts s m Hm; simpl; [by exists []|].
  destruct m as [h k], Hm as (max & lst & ns & Hm). unfold mbind, M_bind.
  pose proof (wp_run oom _ _ _ h k (set_step_wp set max lst i ns ts s) Hm) as Hs.
  destruct (step _ _ _ _) as [[ts1 m1]|e]; [|done]. destruct Hs as (ns1 & s1 & Hs1 & Hm1).
  specialize (IH ts1 s1 m1 ltac:(by exists max, lst, ns1)).
  destruct (run _ _ _ _) as [[ts' m']|e]; [|done]. destruct IH as (sched' & Hsub & Hm').
  destruct Hs1 as [->| ->]; [exists sched'|exists (i :: sched')].
  - split; [by apply sublist_cons|done].
  - split; [by apply sublist_skip|done].
Qed.

(** ** The start *)

Lemma create_set_wp max :
  ⊢ wp oom (create_set max) (λ set, ∃ first last,
      set_at set max first ∗ chain [mkEntry first INT_MIN None] last)%I.
Proof.
  iStartProof. iApply wp_malloc_check; [done|]. iIntros (first) "Hf".
  iApply wp_malloc_check; [done|]. iIntros (last) "Hl".
  wp_write "Hf". wp_write "Hf". wp_write "Hf". wp_write "Hl".
  iApply wp_malloc_check; [done|]. iIntros (set) "Hs". wp_write "Hs". wp_write "Hs".
  iApply wp_ret. iExists first, last. unfold chain, seg, entry_at. by iFrame.
Qed.

Lemma start_knows todos first last :
  Forall (Forall (λ oe, in_range oe.2)) todos →
  threads_know [mkEntry first INT_MIN None] last (threads_of todos).
Proof.
  intros Hr. split.
  - intros i t Hi. unfold threads_of in Hi. rw list_lookup_fmap in Hi.
    destruct (todos !! i) as [l|] eqn:Hl; simplify_eq/=. split; [done|].
    by eapply Forall_lookup in Hl; [|exact Hr].
  - done.
Qed.

Lemma start_own todos : ⊢ [∗ list] t ∈ threads_of todos, thread_own t.
Proof.
  unfold threads_of. iInduction todos as [|l todos] "IH"; simpl; [done|]. by iSplit.
Qed.

Lemma set_start_inv set max first last todos :
  Forall (Forall (λ oe, in_range oe.2)) todos →
  set_at set max first ∗ chain [mkEntry first INT_MIN None] last ⊢
  system_inv set max last [mkEntry first INT_MIN None] (threads_of todos) (Spec.init todos).
Proof.
  intros Hr. iIntros "[Hs Hc]". iSplit; [iPureIntro|].
  - split; [|split; [by apply start_knows|]].
    + split; [done|]. apply sorted_cons. split; [by repeat constructor|repeat constructor].
    + unfold Spec.init, threads_of. f_equal. clear. induction todos as [|l todos IH]; [done|].
      simpl. by rw IH.
  - iFrame. iApply start_own.
Qed.

Lemma set_system_ok max todos sched k :
  Forall (Forall (λ oe, in_range oe.2)) todos →
  match system max todos sched (mkMem ∅ k) with
  | Ok ((set, ts), m) => ∃ sched', sched' `sublist_of` sched ∧
      simulates set m ts (Spec.run sched' (Spec.init todos))
  | Err e => e = EAbort ∧ oom
  end.
Proof.
  intros Hr. unfold system, mbind, M_bind.
  pose proof (wp_run oom _ emp%I _ ∅ k (emp_of (create_set_wp max)) eq_refl) as Hc.
  destruct (create_set _ _) as [[set m]|e]; [|done]. destruct Hc as (first & last & Hc).
  apply (h_in (set_start_inv set max first last todos Hr)) in Hc.
  pose proof (set_run_ok set sched _ _ m ltac:(by eexists _, _, _)) as Hrun.
  destruct (run _ _ _ _) as [[ts m']|e]; done.
Qed.

(** ** Waiting *)

(** The node whose lock the next step attempts to take. *)
Definition waits_for (c : pc) : option Z :=
  match c with
  | LLock _ _ p => Some p
  | LLockNext _ _ _ c => Some c
  | RLock _ _ y => Some y
  | _ => None
  end.

(** The next step of the thread fails to take a lock. *)
Definition blocked (m : mem object) (t : thread) : bool :=
  match doing t ≫= waits_for with
  | Some p =>
      match heap m !! p with
      | Some (ONode n) => negb (bool_decide (lock n = Some 0%Z))
      | _ => true
      end
  | None => false
  end.

Definition finished (t : thread) : bool :=
  match doing t, todo t with None, [] => true | _, _ => false end.

Lemma hholds_lookup {R} `{Struct object R} (P : hPropI object) p (r : R) h :
  (P ⊢ p ↦ r ∗ True) → hholds P h → h !! p = Some (obj r).
Proof.
  intros HP Hh. apply (h_in HP) in Hh as (h1 & h2 & -> & _ & [_ ->] & _).
  apply lookup_union_Some_l, lookup_singleton_eq.
Qed.

(** A free node in the list is free in memory. *)
Lemma free_node set max lst l1 p v l2 ts s m :
  hholds (system_inv set max lst (l1 ++ mkEntry p v None :: l2) ts s) (heap m) →
  ∃ n, heap m !! p = Some (ONode n) ∧ lock n = Some 0%Z.
Proof.
  intros Hm. exists (mkNode (Some 0%Z) (Some (start l2 lst)) (Some v)). split; [|done].
  refine (hholds_lookup _ p (mkNode (Some 0%Z) (Some (start l2 lst)) (Some v)) _ _ Hm).
  iIntros "(_ & _ & Hc & _)". rw chain_mid. iDestruct "Hc" as "[Hx _]". by iFrame "Hx".
Qed.

Lemma not_blocked set max lst ns ts s m t :
  hholds (system_inv set max lst ns ts s) (heap m) →
  (∀ c p, doing t = Some c → waits_for c = Some p → ∃ l1 v l2, ns = l1 ++ mkEntry p v None :: l2) →
  blocked m t = false.
Proof.
  intros Hm Hf. unfold blocked. destruct (doing t) as [c|]; [|done]. simpl.
  destruct (waits_for c) as [p|] eqn:Hp; [|done]. destruct (Hf c p eq_refl Hp) as (l1 & v & l2 & ->).
  destruct (free_node _ _ _ _ _ _ _ _ _ _ Hm) as (n & -> & ->). done.
Qed.

Lemma owned_nil_elem i ns en : owned i ns = [] → en ∈ ns → owner en ≠ Some i.
Proof.
  intros Ho Hin He. assert (addr en ∈ owned i ns) as H; [|rw Ho in H; by apply not_elem_of_nil in H].
  apply list_elem_of_fmap. exists en. split; [done|]. by apply list_elem_of_filter.
Qed.

(** The locked node furthest along the list. *)
Lemma last_locked ns :
  (∀ en, en ∈ ns → owner en = None) ∨
  ∃ l1 p v j l2, ns = l1 ++ mkEntry p v (Some j) :: l2 ∧ ∀ en, en ∈ l2 → owner en = None.
Proof.
  induction ns as [|[p v [j|]] ns [IH|(l1 & q & w & j' & l2 & -> & Hl)]].
  - left. intros en Hen. by apply not_elem_of_nil in Hen.
  - right. by exists [], p, v, j, ns.
  - right. by exists (mkEntry p v (Some j) :: l1), q, w, j', l2.
  - left. intros en [->|Hen]%elem_of_cons; [done|by apply IH].
  - right. by exists (mkEntry p v None :: l1), q, w, j', l2.
Qed.

(** Behind the last locked node, its owner finds a free one. *)
Lemma next_free i l1 p v l2 lst q qv c cv :
  sorted (l1 ++ mkEntry p v (Some i) :: l2) → (∀ en, en ∈ l2 → owner en = None) →
  owned i (l1 ++ mkEntry p v (Some i) :: l2) = [q] →
  next_to i (l1 ++ mkEntry p v (Some i) :: l2) lst q qv c cv → (cv < INT_MAX)%Z →
  ∃ l1' l2', l1 ++ mkEntry p v (Some i) :: l2 = l1' ++ mkEntry c cv None :: l2'.
Proof.
  intros Hs Hl Ho Hn Hlt. apply owned_mid in Ho as [Ho1 Ho2]; [|done].
  destruct (next_to_split2 _ _ _ _ _ _ _ Hn Hlt) as (m1 & o & m2 & He).
  assert (mkEntry q qv (Some i) ∈ l1 ++ mkEntry p v (Some i) :: l2) as Hin by (rw He; set_solver).
  apply elem_of_app in Hin as [Hin|[Heq|Hin]%elem_of_cons].
  - by destruct (owned_nil_elem _ _ _ Ho1 Hin).
  - simplify_eq. destruct (split_unique _ _ _ _ _ _ Hs He) as (-> & _ & ->); [done|].
    assert (o = None) as -> by (by apply (Hl (mkEntry c cv o)); left).
    exists (m1 ++ [mkEntry p v (Some i)]), m2. by rw -assoc_L.
  - by destruct (owned_nil_elem _ _ _ Ho2 Hin).
Qed.

Lemma owner_not_blocked set max lst l1 p v j l2 ts s m t :
  hholds (system_inv set max lst (l1 ++ mkEntry p v (Some j) :: l2) ts s) (heap m) →
  (∀ en, en ∈ l2 → owner en = None) → ts !! j = Some t →
  finished t = false ∧ blocked m t = false.
Proof.
  intros Hm Hl Ht. pose proof Hm as [([_ Hs] & [Hk _] & _) _]. destruct (Hk j t Ht) as [Hkn _].
  assert (owned j (l1 ++ mkEntry p v (Some j) :: l2) ≠ []) as Hne.
  { rw owned_app owned_eq //. by destruct (owned j l1). }
  unfold finished. destruct (doing t) as [c|] eqn:Hd; [|done]. split; [done|].
  eapply not_blocked; [exact Hm|clear Hm]. rw Hd. intros c' q [= <-] Hw. destruct Hkn as [Ho Hf].
  destruct c; simplify_eq/=.
  - destruct Hf as (He & pv & cv & Hn & Hc).
    destruct (next_free _ _ _ _ _ _ _ _ _ _ Hs Hl Ho Hn) as (l1' & l2' & ->); [|by eexists _, _, _].
    unfold in_range in He. lia.
  - destruct Hf as (He & xv & Hn).
    destruct (next_free _ _ _ _ _ _ _ _ _ _ Hs Hl Ho Hn) as (l1' & l2' & ->); [|by eexists _, _, _].
    unfold in_range in He. lia.
Qed.

Lemma all_free_not_blocked set max lst ns ts s m i t :
  hholds (system_inv set max lst ns ts s) (heap m) →
  (∀ en, en ∈ ns → owner en = None) → ts !! i = Some t → blocked m t = false.
Proof.
  intros Hm Hl Ht. pose proof Hm as [([Hv _] & [Hk _] & _) _]. destruct (Hk i t Ht) as [Hkn _].
  assert (owned i ns = []) as Ho.
  { clear -Hl. induction ns as [|en ns IH]; [done|]. rw owned_ne; [apply IH; set_solver|].
    rw Hl; [done|by left]. }
  eapply not_blocked; [exact Hm|clear Hm]. intros c q Hd Hw. rw Hd in Hkn. destruct Hkn as [Hh Hf].
  rw Ho in Hh. destruct c; simplify_eq/=. destruct Hf as [_ ->].
  destruct ns as [|[p v ow] ns]; [done|].
  assert (ow = None) as -> by (by apply (Hl (mkEntry p v ow)); left). by exists [], v, ns.
Qed.

Lemma deadlock_free set m ts s i t :
  simulates set m ts s → ts !! i = Some t → finished t = false →
  ∃ j u, ts !! j = Some u ∧ finished u = false ∧ blocked m u = false.
Proof.
  intros (max & lst & ns & Hm) Hi Hf. destruct (last_locked ns) as [Hl|(l1 & p & v & j & l2 & -> & Hl)].
  - exists i, t. split_and!; [done|done|by eapply all_free_not_blocked].
  - destruct (ts !! j) as [u|] eqn:Hj.
    + exists j, u. split; [done|]. by eapply owner_not_blocked.
    + apply lookup_ge_None in Hj. destruct Hm as [(_ & [_ Ho] & _) _]. specialize (Ho j Hj).
      rw owned_app owned_eq // in Ho. by destruct (owned j l1).
Qed.

(** ** Disposal *)

Lemma set_dispose_loop_wp E fuel ns lst :
  sorted ns → length ns ≤ fuel →
  chain ns lst ⊢
  wp E (while fuel (λ x, v ← load f_value x; mret (v <? INT_MAX)%Z)
         (λ x, y ← load f_next x; free x ;; mret y) (start ns lst))
    (λ x, sentinel x).
Proof.
  intros Hs Hf. iIntros "Hc".
  iApply (wp_while E _ _ (λ k x, ∃ ns, ⌜k = length ns ∧ sorted ns ∧ x = start ns lst⌝ ∧ chain ns lst)%I
    (λ x, sentinel x) fuel (length ns)); [|done|iExists ns; by iFrame].
  clear. intros k x. iIntros "(%ns & %Hk & Hc)". destruct Hk as (-> & Hs & ->).
  destruct ns as [|[p v o] ns].
  - iDestruct "Hc" as "[_ Hl]". unfold sentinel. simpl. wp_read "Hl". iApply wp_ret.
    done.
  - iDestruct "Hc" as "[[Hp Hns] Hl]". unfold entry_at. simpl. wp_read "Hp". iApply wp_ret.
    apply sorted_cons in Hs as [Hv Hs]. apply Forall_app in Hv as [_ Hv].
    rw Forall_singleton in Hv. simpl in Hv. rw (proj2 (Z.ltb_lt _ _) Hv).
    iExists (length ns). iSplit; [done|]. wp_read "Hp". wp_release "Hp". iApply wp_ret.
    iExists ns. iFrame. done.
Qed.

Lemma idle_own ts : Forall (λ t, doing t = None) ts → ([∗ list] t ∈ ts, thread_own t) ⊢ emp.
Proof.
  induction 1 as [|t ts Ht _ IH]; simpl; [done|]. unfold thread_own at 1. rw Ht.
  iIntros "[_ H]". by iApply IH.
Qed.

(** The list has one node more than the set has elements. *)
Lemma elems_size ns : start_val ns = INT_MIN → sorted ns → size (elems ns) + 1 = length ns.
Proof.
  destruct ns as [|x ns]; [done|]. intros _ [_ Hs]%sorted_cons. unfold elems. simpl.
  rw size_list_to_set; [by rw length_fmap Nat.add_comm|].
  induction ns as [|y ns IH]; simpl; [constructor|]. apply sorted_cons in Hs as [Hy Hs].
  constructor; [|by apply IH]. intros Hin. rw Forall_forall in Hy.
  assert (val y < val y)%Z; [apply Hy, elem_of_app; by left|lia].
Qed.

Lemma set_dispose_wp fuel set max lst ns ts s :
  Forall (λ t, doing t = None) ts → size (Spec.elems s) + 1 ≤ fuel →
  system_inv set max lst ns ts s ⊢ wp False (dispose_set fuel set) (λ _, emp)%I.
Proof.
  intros Hts Hf. iIntros "(%Hp & Hs & Hc & Hts)". destruct Hp as ([Hv Hw] & _ & ->).
  iDestruct (idle_own with "Hts") as "_"; [done|]. unfold dispose_set, set_at. wp_read "Hs".
  assert (length ns ≤ fuel) as Hlen by (rw -(elems_size ns Hv Hw); done).
  iApply (wp_call (set_dispose_loop_wp False fuel ns lst Hw Hlen) (λ x, x) with "Hc").
  iIntros (x) "Hx". wp_release "Hx". by iApply (wp_free with "Hs").
Qed.
End system.
