(* ===== verification/LcSetClient.v ===== *)
(** * The client of the lock-coupling set: [benchmarks/slmc/programs/lcset_client.c]

    [main] creates a set, starts [adder_thread] in a thread of its own, runs
    [remover_thread] and disposes of the set.  Both threads are state machines
    around those of [LcSet]; [main] does not wait for the adder. *)

From iris.proofmode Require Import proofmode.
From S2P Require Import Prelude CHeap HeapLogic Atomics LcSet LcSetSpec LcSetInv.
Import LcSet.

Module LcSetClient.

(** ** Program points *)

Inductive adder_pc :=
| AMax (x : Z)                  (** before [get_maxelems] in the test of the loop *)
| AAdd (x : Z) (c : pc)         (** in [add] *)
| ADone.

(** [remover_thread], then the rest of [main]. *)
Inductive main_pc :=
| MMax                          (** before [rand() % get_maxelems(set)] *)
| MRemove (x : Z) (c : pc)      (** in [_remove] *)
| MContains (x : Z) (c : pc)    (** in [contains] *)
(* dispose_set *)
| MHead                         (** before [x = set->head] *)
| MValue (x : Z)                (** before the test of [x->value] *)
| MNext (x : Z)                 (** before [y = x->next] *)
| MFree (x y : Z)               (** before [free(x)] in the loop *)
| MFreeLast (x : Z)             (** before [free(x)] after the loop *)
| MFreeSet                      (** before [free(set)] *)
| MDone.

Section functions.
Context {A : Allocator object} {At : Atomics object} {Rn : Rand}.

(** [a % b] on [int]: a zero divisor is undefined. *)
Definition int_rem (a b : Z) : M (mem object) Z :=
  if decide (b = 0%Z) then fail EUB else mret (Z.rem a b).

Definition readNumber : M (mem object) Z :=
  v ← rand;
  int_rem v 8.

Definition adder_step (set : Z) (a : adder_pc) : M (mem object) adder_pc :=
  match a with
  | AMax x =>
      n ← get_maxelems set;
      if (x <? n)%Z then abort_if (INT_MAX <=? x)%Z ;; mret (AAdd x (OHead Add x))
      else mret ADone
  | AAdd x c =>
      c ← step_pc set c;
      match c with
      | Done _ => x ← int_add x 1; mret (AMax x)
      | _ => mret (AAdd x c)
      end
  | ADone => mret ADone
  end.

Definition main_step (set : Z) (r : main_pc) : M (mem object) main_pc :=
  match r with
  | MMax =>
      v ← rand;
      n ← get_maxelems set;
      x ← int_rem v n;
      mret (MRemove x (OHead Remove x))
  | MRemove x c =>
      c ← step_pc set c;
      match c with
      | Done true => mret (MContains x (OHead Contains x))
      | Done false => mret (MRemove x (OHead Remove x))
      | _ => mret (MRemove x c)
      end
  | MContains x c =>
      c ← step_pc set c;
      match c with
      | Done success2 => assert (negb success2) ;; mret MHead
      | _ => mret (MContains x c)
      end
  | MHead => x ← load f_head set; mret (MValue x)
  | MValue x => v ← load f_value x; mret (if (v <? INT_MAX)%Z then MNext x else MFreeLast x)
  | MNext x => y ← load f_next x; mret (MFree x y)
  | MFree x y => free x ;; mret (MValue y)
  | MFreeLast x => free x ;; mret MFreeSet
  | MFreeSet => free set ;; mret MDone
  | MDone => mret MDone
  end.

Inductive client_thread := Adder | Main.

Definition client_step (set : Z) (t : client_thread) (c : adder_pc * main_pc) :
    M (mem object) (adder_pc * main_pc) :=
  match t with
  | Adder => a ← adder_step set c.1; mret (a, c.2)
  | Main => r ← main_step set c.2; mret (c.1, r)
  end.

Fixpoint client_run (set : Z) (sched : list client_thread) (c : adder_pc * main_pc) :
    M (mem object) (adder_pc * main_pc) :=
  match sched with
  | [] => mret c
  | t :: sched => c ← client_step set t c; client_run set sched c
  end.

(** [main] up to where the schedule ends; [srand] only selects the sequence
    that [rand] yields. *)
Definition main (argv : list string) (sched : list client_thread) :
    M (mem object) (adder_pc * main_pc) :=
  a ← arg argv 1;
  n ← atoi a;
  b ← arg argv 2;
  _ ← atoi b;
  set ← create_set n;
  client_run set sched (AMax 0, MMax).
End functions.

(** ** The invariant while the set is in use *)

(** Values the adder has been through: what it adds later is none of them. *)
Definition passed (a : adder_pc) (y : Z) : Prop :=
  match a with
  | AMax x => (y < x)%Z
  | AAdd x c => match status_of c with Spec.Called _ _ => (y < x)%Z | _ => (y ≤ x)%Z end
  | ADone => True
  end.

Definition adder_ok (ns : list entry) (lst : Z) (a : adder_pc) : Prop :=
  (match a with
  | AMax x => (0 ≤ x ≤ INT_MAX)%Z ∧ owned 0 ns = []
  | AAdd x c => (0 ≤ x < INT_MAX)%Z ∧ knows 0 ns lst c ∧
      (status_of c = Spec.Called Add x ∨ (∃ b, status_of c = Spec.Returning b))
  | ADone => owned 0 ns = []
  end) ∧ (∀ y, y ∈ elems ns → passed a y).

(** [x] was removed for good. *)
Definition gone (ns : list entry) (a : adder_pc) (x : Z) : Prop :=
  (x ∉ elems ns) ∧ passed a x.

Definition main_ok (ns : list entry) (lst : Z) (a : adder_pc) (r : main_pc) : Prop :=
  match r with
  | MMax => owned 1 ns = []
  | MRemove x c => in_range x ∧ knows 1 ns lst c ∧
      (status_of c = Spec.Called Remove x ∨ status_of c = Spec.Returning false ∨
       (status_of c = Spec.Returning true ∧ gone ns a x))
  | MContains x c => in_range x ∧ knows 1 ns lst c ∧ gone ns a x ∧
      (status_of c = Spec.Called Contains x ∨ status_of c = Spec.Returning false)
  | _ => False
  end.

(** [main] has begun to dispose of the set. *)
Definition disposing (r : main_pc) : bool :=
  match r with MMax | MRemove _ _ | MContains _ _ => false | _ => true end.

(** What the adder does to the rest. *)
Definition adder_moves (ns ns' : list entry) (a a' : adder_pc) : Prop :=
  (∀ y, passed a y → passed a' y) ∧ (∀ y, y ∈ elems ns' → y ∈ elems ns ∨ ¬ passed a y).

Lemma main_ok_stable ns ns' lst a a' r :
  trans 0 ns ns' → adder_moves ns ns' a a' → main_ok ns lst a r → main_ok ns' lst a' r.
Proof.
  intros Ht [Hp He].
  assert (∀ x, gone ns a x → gone ns' a' x) as Hg by (intros x [H1 H2]; split; naive_solver).
  assert (∀ c, knows 1 ns lst c → knows 1 ns' lst c) as Hk
    by (intros c; by apply (knows_stable 1 0)).
  destruct r; simpl; try naive_solver. by rw (owned_stable 1 0 _ _ _ Ht).
Qed.

Lemma adder_ok_stable ns ns' lst a :
  trans 1 ns ns' → elems ns' ⊆ elems ns → adder_ok ns lst a → adder_ok ns' lst a.
Proof.
  intros Ht Hs [Ha Hp]. split; [|set_solver]. destruct a; simpl in *.
  - by rw (owned_stable 0 1 _ _ _ Ht).
  - destruct Ha as (? & ? & ?). split_and!; [lia|lia|by eapply (knows_stable 0 1)|done].
  - by rw (owned_stable 0 1 _ _ _ Ht).
Qed.

Section proofs.
Context {A : Allocator object} {AL : AllocatorLaws A}.
Context {At : Atomics object} {AtL : AtomicsLaws At}.
Context {Rn : Rand} {RL : RandLaws Rn}.

Definition adder_own (a : adder_pc) : hPropI object :=
  match a with AAdd _ c => pc_own c | _ => emp end%I.

Definition main_own (r : main_pc) : hPropI object :=
  match r with MRemove _ c | MContains _ c => pc_own c | _ => emp end%I.

Definition in_use (set n lst : Z) (ns : list entry) : hPropI object :=
  (⌜wf ns⌝ ∧ set_at set n (start ns lst) ∗ chain ns lst)%I.

Definition adder_post (set n lst : Z) (ns : list entry) (a a' : adder_pc) : hPropI object :=
  (∃ ns', ⌜trans 0 ns ns' ∧ adder_ok ns' lst a' ∧ adder_moves ns ns' a a'⌝ ∧
     in_use set n lst ns' ∗ adder_own a')%I.

(** A step within an operation, for both threads. *)
Lemma call_wp set n lst i c ns :
  knows i ns lst c →
  in_use set n lst ns ∗ pc_own c ⊢
  wp oom (step_pc set c) (λ c', ∃ ns', ⌜pc_moves i lst c ns c' ns'⌝ ∧
    in_use set n lst ns' ∗ pc_own c')%I.
Proof.
  intros Hk. iIntros "[(%Hw & Hs & Hc) Ho]".
  iApply (wp_call_last (step_pc_wp set n lst i c ns Hw Hk) (λ x, x) with "[$Hs $Hc $Ho]").
  iIntros (c') "(%ns' & %Hm & Hs & Hc & Ho)". iExists ns'. iSplit; [done|].
  destruct Hm as (Ht & Hw' & _). destruct (trans_start _ _ _ lst Ht) as [Hst _].
  rw /in_use Hst. by iFrame.
Qed.

Lemma adder_call_ok ns ns' lst x c c' :
  adder_ok ns lst (AAdd x c) → pc_moves 0 lst c ns c' ns' →
  adder_ok ns' lst (AAdd x c') ∧ adder_moves ns ns' (AAdd x c) (AAdd x c').
Proof.
  intros [(Hx & Hk & Hst) Hp] (Ht & _ & Hk' & Hs).
  unfold adder_ok, adder_moves, passed in *. simpl in Hp.
  destruct Hs as [[-> ->]|(o & e & He & -> & Hr)]; [naive_solver|]. rw Hr. rw He in Hst, Hp |- *.
  destruct Hst as [[= -> ->]|[b Hb]]; [|done]. simpl. split; [split|split].
  - split_and!; [lia|lia|done|by right; eexists].
  - intros y [->%elem_of_singleton|Hy]%elem_of_union; [lia|specialize (Hp y Hy); lia].
  - intros y. lia.
  - intros y [->%elem_of_singleton|Hy]%elem_of_union; [right; lia|by left].
Qed.

Lemma adder_return_ok ns ns' lst a x b :
  adder_ok ns' lst (AAdd x (Done b)) → adder_moves ns ns' a (AAdd x (Done b)) →
  adder_ok ns' lst (AMax (x + 1)) ∧ adder_moves ns ns' a (AMax (x + 1)).
Proof.
  intros [(Hx & [Ho _] & _) Hp] [Hm He]. simpl in *. split; [split|split].
  - split; [lia|done].
  - intros y Hy. specialize (Hp y Hy). simpl. lia.
  - intros y Hy. specialize (Hm y Hy). simpl in *. lia.
  - done.
Qed.

Lemma adder_call_wp set n lst ns x c :
  adder_ok ns lst (AAdd x c) →
  in_use set n lst ns ∗ pc_own c ⊢
  wp oom (adder_step set (AAdd x c)) (adder_post set n lst ns (AAdd x c)).
Proof.
  intros Hok. iIntros "H".
  iApply (wp_call (call_wp set n lst 0 c ns (proj1 (proj2 (proj1 Hok)))) (λ x, x) with "H").
  iIntros (c') "(%ns' & %Hm & Hu & Ho)". destruct (adder_call_ok _ _ _ _ _ _ Hok Hm) as [Hok' Hmv].
  destruct Hm as (Ht & _).
  destruct c' eqn:Hc.
  all: try (iApply wp_ret; iExists ns'; iSplit; [done|by iFrame]).
  destruct (adder_return_ok _ _ _ _ _ _ Hok' Hmv) as [Hok2 Hmv2]. destruct Hok2 as [[Hx _] _].
  iApply wp_bind. iApply wp_int_add; [unfold int_range, INT_MIN in *; lia|]. iApply wp_ret.
  iExists ns'. iSplit; [|by iFrame]. iPureIntro. split; [done|]. by eapply adder_return_ok.
Qed.

Lemma adder_step_wp set n lst ns a :
  int_range n → adder_ok ns lst a →
  in_use set n lst ns ∗ adder_own a ⊢
  wp oom (adder_step set a) (adder_post set n lst ns a).
Proof.
  intros Hn Hok. destruct a as [x|x c|]; [|by apply adder_call_wp|].
  - iIntros "[(%Hw & Hs & Hc) _]". simpl. wp_read "Hs". destruct (Z.ltb_spec x n) as [Hx|Hx].
    + assert ((INT_MAX <=? x)%Z = false) as -> by (unfold int_range in Hn; apply Z.leb_gt; lia).
      iApply wp_bind. iApply wp_ret. iApply wp_ret. iExists ns.
      iSplit; [iPureIntro|by iFrame]. destruct Hok as [[Hx0 Ho] Hp].
      assert (in_range x) as Hr by (unfold in_range, int_range, INT_MIN in *; lia).
      split; [constructor|]. split; [split; [|done]|split; [done|by left]].
      split; [unfold int_range in Hn; lia|]. split; [by split|by left].
    + iApply wp_ret. iExists ns. iSplit; [iPureIntro|by iFrame].
      split; [constructor|]. split; [by destruct Hok as [[_ Ho] _]|split; [done|by left]].
  - iIntros "[Hu _]". iApply wp_ret. iExists ns. iSplit; [iPureIntro|by iFrame].
    split; [constructor|]. split; [done|split; [done|by left]].
Qed.

(** ** Steps of [main] before the disposal *)

Definition main_post (set n lst : Z) (ns : list entry) (a : adder_pc) (r' : main_pc) : hPropI object :=
  (⌜disposing r' = true⌝ ∨ ∃ ns', ⌜trans 1 ns ns' ∧ elems ns' ⊆ elems ns ∧ main_ok ns' lst a r'⌝ ∧
     in_use set n lst ns' ∗ main_own r')%I.

Lemma remove_call_ok ns ns' lst a x c c' :
  (∀ y, y ∈ elems ns → passed a y) → main_ok ns lst a (MRemove x c) → pc_moves 1 lst c ns c' ns' →
  elems ns' ⊆ elems ns ∧ main_ok ns' lst a (MRemove x c').
Proof.
  intros Hp (Hx & Hk & Hst) (Ht & _ & Hk' & Hs). simpl. unfold gone in *.
  destruct Hs as [[-> Hs]|(o & e & He & Hs & Hr)]; rw Hs; [by split_and!|]. rw Hr. rw He in Hst.
  destruct Hst as [[= -> ->]|[?|[? _]]]; [|done..]. simpl.
  split; [set_solver|]. split; [done|]. split; [done|].
  destruct (decide (x ∈ elems ns)) as [Hin|Hin].
  - right; right. rw bool_decide_eq_true_2 //. split; [done|]. split; [set_solver|by apply Hp].
  - right; left. by rw bool_decide_eq_false_2.
Qed.

Lemma contains_call_ok ns ns' lst a x c c' :
  main_ok ns lst a (MContains x c) → pc_moves 1 lst c ns c' ns' →
  elems ns' ⊆ elems ns ∧ main_ok ns' lst a (MContains x c').
Proof.
  intros (Hx & Hk & [Hg1 Hg2] & Hst) (Ht & _ & Hk' & Hs). simpl. unfold gone in *.
  destruct Hs as [[-> Hs]|(o & e & He & Hs & Hr)]; rw Hs; [by split_and!|]. rw Hr. rw He in Hst.
  destruct Hst as [[= -> ->]|?]; [|done]. simpl. split_and!; try done.
  right. by rw bool_decide_eq_false_2.
Qed.

Lemma start_call_ok ns lst a x :
  in_range x → owned 1 ns = [] → main_ok ns lst a (MRemove x (OHead Remove x)).
Proof. intros Hx Ho. split; [done|]. split; [by split|by left]. Qed.

Lemma main_remove_wp set n lst ns a x c :
  (∀ y, y ∈ elems ns → passed a y) → main_ok ns lst a (MRemove x c) →
  in_use set n lst ns ∗ pc_own c ⊢
  wp oom (main_step set (MRemove x c)) (main_post set n lst ns a).
Proof.
  intros Hp Hok. iIntros "H".
  iApply (wp_call (call_wp set n lst 1 c ns (proj1 (proj2 Hok))) (λ x, x) with "H").
  iIntros (c') "(%ns' & %Hm & Hu & Ho)".
  destruct (remove_call_ok _ _ _ _ _ _ _ Hp Hok Hm) as [Hs Hok']. destruct Hm as (Ht & _).
  destruct c' eqn:Hc.
  all: try (iApply wp_ret; iRight; iExists ns'; iSplit; [done|by iFrame]).
  destruct Hok' as (Hx & [Ho' _] & Hst). simpl in Hst, Ho'.
  destruct result; iApply wp_ret; iRight; iExists ns'; (iSplit; [iPureIntro|by iFrame]);
    (split; [done|]); (split; [done|]).
  - destruct Hst as [?|[?|[_ Hg]]]; [done..|]. split; [done|]. split; [by split|].
    split; [done|by left].
  - by apply start_call_ok.
Qed.

Lemma main_contains_wp set n lst ns a x c :
  main_ok ns lst a (MContains x c) →
  in_use set n lst ns ∗ pc_own c ⊢
  wp oom (main_step set (MContains x c)) (main_post set n lst ns a).
Proof.
  intros Hok. iIntros "H".
  iApply (wp_call (call_wp set n lst 1 c ns (proj1 (proj2 Hok))) (λ x, x) with "H").
  iIntros (c') "(%ns' & %Hm & Hu & Ho)".
  destruct (contains_call_ok _ _ _ _ _ _ _ Hok Hm) as [Hs Hok']. destruct Hm as (Ht & _).
  destruct c' eqn:Hc.
  all: try (iApply wp_ret; iRight; iExists ns'; iSplit; [done|by iFrame]).
  destruct Hok' as (Hx & _ & _ & [?|[= ->]]); [done|].
  iApply wp_bind. iApply wp_assert; [done|]. iApply wp_ret. by iLeft.
Qed.

Lemma remover_step_wp set n lst ns a r :
  (0 < n)%Z → int_range n → (∀ y, y ∈ elems ns → passed a y) → main_ok ns lst a r →
  in_use set n lst ns ∗ main_own r ⊢ wp oom (main_step set r) (main_post set n lst ns a).
Proof.
  intros Hn Hr Hp Hok. destruct r as [|x c|x c| | | | | | |]; try done.
  - iIntros "[(%Hw & Hs & Hc) _]". simpl. iApply wp_bind. iApply wp_rand. iIntros (v Hv).
    iApply wp_bind. iApply (wp_load with "Hs"); [reflexivity|]. iIntros "Hs". unfold int_rem.
    rw decide_False; [|lia]. iApply wp_bind. iApply wp_ret. iApply wp_ret. iRight. iExists ns.
    iSplit; [iPureIntro|by iFrame]. split; [constructor|]. split; [done|].
    apply start_call_ok; [|done]. pose proof (Z.rem_bound_pos v n ltac:(lia) Hn).
    unfold in_range, int_range, INT_MIN in *. lia.
  - by apply main_remove_wp.
  - by apply main_contains_wp.
Qed.

(** ** The two threads together *)

Definition client_inv (set n : Z) (c : adder_pc * main_pc) : hPropI object :=
  (∃ lst ns, ⌜adder_ok ns lst c.1 ∧ main_ok ns lst c.1 c.2⌝ ∧
     in_use set n lst ns ∗ adder_own c.1 ∗ main_own c.2)%I.

Lemma set_client_step_wp set n t c :
  (0 < n)%Z → int_range n →
  client_inv set n c ⊢
  wp oom (client_step set t c) (λ c', ⌜disposing c'.2 = true⌝ ∨ client_inv set n c')%I.
Proof.
  intros Hn Hr. iIntros "(%lst & %ns & %Hok & Hu & Ha & Hm)". destruct Hok as [Hoka Hokm].
  destruct c as [a r], t; simpl.
  - iApply (wp_call (adder_step_wp set n lst ns a Hr Hoka) (λ x, x) with "[$Hu $Ha]").
    iIntros (a') "(%ns' & %Hmv & Hu & Ha)". iApply wp_ret. iRight. iExists lst, ns'. iSplit; [iPureIntro|by iFrame].
    destruct Hmv as (Ht & Hok' & Hmv). split; [done|by eapply main_ok_stable].
  - iApply (wp_call (remover_step_wp set n lst ns a r Hn Hr (proj2 Hoka) Hokm) (λ x, x)
      with "[$Hu $Hm]").
    iIntros (r') "[Hd|(%ns' & %Hmv & Hu & Hm)]"; iApply wp_ret; [iLeft; iExact "Hd"|]. iRight.
    iExists lst, ns'. iSplit; [iPureIntro|by iFrame]. destruct Hmv as (Ht & Hsub & Hok').
    split; [by eapply adder_ok_stable|done].
Qed.

Lemma set_client_start set n first last :
  set_at set n first ∗ chain [mkEntry first INT_MIN None] last ⊢ client_inv set n (AMax 0, MMax).
Proof.
  iIntros "[Hs Hc]". iExists last, [mkEntry first INT_MIN None]. iSplit; [iPureIntro|].
  - split; [|done]. split; [by split|]. intros y Hy. unfold elems in Hy. simpl in Hy. set_solver.
  - iSplitL; [|by iSplit]. iSplit; [iPureIntro|by iFrame]. split; [done|]. apply sorted_cons.
    split; [by repeat constructor|repeat constructor].
Qed.

(** A run is safe, or goes through a state in which [main] disposes of the set. *)
Lemma client_run_safe set n sched c m :
  (0 < n)%Z → int_range n → hholds (client_inv set n c) (heap m) →
  (∀ sched1 c1 m1, sched1 `prefix_of` sched → client_run set sched1 c m = Ok (c1, m1) →
     disposing c1.2 = false) →
  match client_run set sched c m with
  | Ok (_, _) => True
  | Err e => e = EAbort ∧ oom
  end.
Proof.
  intros Hn Hr. revert c m. induction sched as [|t sched IH]; intros c m Hm Hd; simpl; [done|].
  destruct m as [h k]. unfold mbind, M_bind.
  pose proof (wp_run oom _ _ _ h k (set_client_step_wp set n t c Hn Hr) Hm) as Hs.
  destruct (client_step _ _ _ _) as [[c1 m1]|e] eqn:He; [|done].
  destruct Hs as [Hs|Hs].
  - assert (disposing c1.2 = false) as Hf; [|congruence].
    apply (Hd [t] c1 m1); [apply prefix_cons, prefix_nil|]. simpl. by rw (bind_Ok _ _ _ _ _ He).
  - apply (IH c1 m1 Hs). intros sched1 c2 m2 Hpre Hrun. apply (Hd (t :: sched1) c2 m2).
    + by apply prefix_cons.
    + simpl. by rw (bind_Ok _ _ _ _ _ He).
Qed.
End proofs.
End LcSetClient.
