(* ===== verification/LcSetSolo.v ===== *)
(** * The client of the lock-coupling set, one thread at a time

    Runs of [lcset_client.c] in which a thread runs alone: how many steps an
    operation takes, and a run in which the adder has added all values and
    [main] goes to its end.  Then what is left for the adder once [main] has
    freed the set. *)

From iris.proofmode Require Import proofmode.
From S2P Require Import Prelude CHeap HeapLogic Atomics LcSet LcSetSpec LcSetInv LcSetClient.
Import LcSet LcSetClient.

(** Nobody holds a lock. *)
Definition idle (ns : list entry) : Prop := Forall (λ en, owner en = None) ns.

Section solo.
Context {A : Allocator object} {AL : AllocatorLaws A}.
Context {At : Atomics object} {AtL : AtomicsLaws At}.
Context {Rn : Rand} {RL : RandLaws Rn}.

Lemma client_run_app set sched sched' c m :
  client_run set (sched ++ sched') c m = (c ← client_run set sched c; client_run set sched' c) m.
Proof.
  revert c m. induction sched as [|t sched IH]; intros c m; simpl; [done|].
  unfold mbind, M_bind. destruct (client_step _ _ _ _) as [[c1 m1]|e]; [apply IH|done].
Qed.

#[local] Arguments client_run : simpl never.
#[local] Arguments Nat.mul : simpl never.

(** A step of a thread, and then the rest of the run. *)
Lemma solo_step_wp set t c sched Φ :
  wp oom (client_step set t c) (λ c', wp oom (client_run set sched c') Φ)
  ⊢ wp oom (client_run set (t :: sched) c) Φ.
Proof. apply wp_bind. Qed.

(** ** One operation *)

Section operation.
(** Thread [t] is in an operation at [f c], and goes on with [done] after it. *)
Context (set : Z) (t : client_thread) (f : pc → adder_pc * main_pc).
Context (ret : bool → M (mem object) (adder_pc * main_pc)).
Context (calls : ∀ c m, client_step set t (f c) m =
  (c' ← step_pc set c; match c' with Done b => ret b | _ => mret (f c') end) m).
Implicit Types (sched : list client_thread) (Φ : adder_pc * main_pc → hPropI object).

Lemma call_step_wp c sched Φ :
  wp oom (step_pc set c) (λ c', match c' with
    | Done b => wp oom (ret b) (λ s, wp oom (client_run set sched s) Φ)
    | _ => wp oom (client_run set sched (f c')) Φ
    end) ⊢ wp oom (client_run set (t :: sched) (f c)) Φ.
Proof.
  iIntros "H". iApply solo_step_wp. iApply wp_ext; [intros; apply calls|]. iApply wp_bind.
  iApply (wp_wand with "H"). iIntros (c') "H". destruct c'; try by iApply wp_ret. done.
Qed.

Lemma lock_free_wp E i l1 p v l2 lst :
  chain (l1 ++ mkEntry p v None :: l2) lst ⊢
  wp E (lock_attempt f_lock p)
    (λ b, ⌜b = true⌝ ∧ chain (l1 ++ mkEntry p v (Some i) :: l2) lst)%I.
Proof.
  rw {1}chain_mid. iIntros "(Hx & H1 & H2)". iApply (wp_lock_attempt with "Hx"); [reflexivity|].
  simpl. iIntros "Hx". iSplit; [done|]. rw chain_mid. iFrame.
Qed.

(** The read of the successor of a locked node, and of the value there. *)
Lemma look_ahead_wp i o e l1 p pv l2 lst sched Φ :
  chain (l1 ++ mkEntry p pv (Some i) :: l2) lst -∗
  (chain (l1 ++ mkEntry p pv (Some i) :: l2) lst -∗ wp oom (client_run set sched
     (f (if (start_val l2 <? e)%Z then LLockNext o e p (start l2 lst) else FNext o e p))) Φ) -∗
  wp oom (client_run set (t :: t :: sched) (f (LNext o e p))) Φ.
Proof.
  iIntros "Hc H". pose proof (next_to_intro i l1 l2 lst p pv) as Hn.
  iApply call_step_wp. simpl.
  iDestruct (chain_locked with "Hc") as "[Hp Hc]"; [exact Hn|]. wp_read "Hp". iApply wp_ret.
  iDestruct ("Hc" with "Hp") as "Hc". iApply call_step_wp. simpl.
  iDestruct (chain_next with "Hc") as "(%lk & %nx & Hp & Hc)"; [exact Hn|]. wp_read "Hp". iApply wp_ret.
  iDestruct ("Hc" with "Hp") as "Hc". case_match; by iApply "H".
Qed.

(** Locks are passed on along the list. *)
Lemma hand_over_wp o e l l1 p pv q qv l2 lst sched Φ :
  idle l → Forall (λ en, val en < e)%Z l → (qv < e)%Z →
  chain (l1 ++ mkEntry p pv (Some 0) :: l ++ mkEntry q qv None :: l2) lst -∗
  (chain (l1 ++ mkEntry p pv None :: l ++ mkEntry q qv (Some 0) :: l2) lst -∗
     wp oom (client_run set sched (f (LNext o e q))) Φ) -∗
  wp oom (client_run set (replicate (4 * S (length l)) t ++ sched) (f (LNext o e p))) Φ.
Proof.
  revert l1 p pv. induction l as [|[c cv ow] l IH]; intros l1 p pv Hi Hl Hq; iIntros "Hc H".
  - iApply (look_ahead_wp with "Hc"). simpl. rw (proj2 (Z.ltb_lt _ _) Hq). iIntros "Hc".
    iApply call_step_wp. simpl. iEval (rw cons_middle assoc_L) in "Hc".
    iApply (wp_call (lock_free_wp oom 0 _ q qv l2 lst) (λ x, x) with "Hc"). iIntros (b) "[-> Hc]".
    iApply wp_ret. iApply call_step_wp. simpl. iEval (rw -assoc_L) in "Hc".
    iApply (wp_call (unlock_wp oom 0 l1 p pv _ lst) (λ x, x) with "Hc"). iIntros (_) "Hc".
    iApply wp_ret. by iApply "H".
  - apply Forall_cons in Hi as [Ho Hi], Hl as [Hc Hl]. simpl in Ho, Hc. subst ow.
    replace (4 * S (length (mkEntry c cv None :: l))) with (4 + 4 * S (length l)) by (simpl; lia).
    rw replicate_add -(assoc_L (++)). simpl (replicate 4 t ++ _).
    iApply (look_ahead_wp with "Hc"). simpl. rw (proj2 (Z.ltb_lt _ _) Hc). iIntros "Hc".
    iApply call_step_wp. simpl. iEval (rw cons_middle assoc_L) in "Hc".
    iApply (wp_call (lock_free_wp oom 0 _ c cv _ lst) (λ x, x) with "Hc"). iIntros (b) "[-> Hc]".
    iApply wp_ret. iApply call_step_wp. simpl. iEval (rw -assoc_L) in "Hc".
    iApply (wp_call (unlock_wp oom 0 l1 p pv _ lst) (λ x, x) with "Hc"). iIntros (_) "Hc".
    iApply wp_ret. iEval (simpl; rw cons_middle assoc_L) in "Hc".
    iApply (IH (l1 ++ [mkEntry p pv None]) c cv Hi Hl Hq with "Hc"). iIntros "Hc".
    iApply "H". by iEval (rw -assoc_L) in "Hc".
Qed.

(** The set and its list. *)
Definition list_at (max lst : Z) (ns : list entry) : hPropI object :=
  (set_at set max (start ns lst) ∗ chain ns lst)%I.

Lemma list_at_middle max lst l q qv ow l2 :
  list_at max lst (l ++ mkEntry q qv ow :: l2) ⊣⊢
  set_at set max (start (l ++ [mkEntry q qv None]) lst) ∗ chain (l ++ mkEntry q qv ow :: l2) lst.
Proof. unfold list_at. by destruct l. Qed.

(** [e] belongs behind the entry of value [qv]. *)
Definition here (e : Z) (l : list entry) (qv : Z) (l2 : list entry) : Prop :=
  idle l ∧ Forall (λ en, val en < e)%Z l ∧ (qv < e ≤ start_val l2)%Z.

(** [locate] on a list nobody uses. *)
Lemma locate_wp o e l q qv l2 lst max sched Φ :
  here e l qv l2 →
  list_at max lst (l ++ mkEntry q qv None :: l2) -∗
  (set_at set max (start (l ++ [mkEntry q qv None]) lst) -∗ chain (l ++ mkEntry q qv (Some 0) :: l2) lst -∗
     wp oom (client_run set sched (f (FNext o e q))) Φ) -∗
  wp oom (client_run set (replicate (4 * length l + 5) t ++ sched) (f (OHead o e))) Φ.
Proof.
  iIntros ((Hi & Hl & Hq & H2)) "Hu H". rw list_at_middle. iDestruct "Hu" as "[Hs Hc]".
  replace (4 * length l + 5) with (3 + 4 * length l + 2) by lia.
  rw (replicate_add (3 + 4 * length l) 2) (replicate_add 3) -!(assoc_L (++)). simpl (replicate 3 t ++ _).
  simpl (replicate 2 t ++ _).
  iApply call_step_wp. simpl. unfold set_at. wp_read "Hs". iApply wp_ret.
  iApply call_step_wp. simpl. wp_read "Hs". iApply wp_ret. iApply call_step_wp. simpl.
  destruct l as [|[p pv ow] l]; cbn [app start addr length].
  - iApply (wp_call (lock_free_wp oom 0 [] q qv l2 lst) (λ x, x) with "Hc"). iIntros (b) "[-> Hc]".
    iApply wp_ret. iApply (look_ahead_wp 0 _ _ [] with "Hc"). rw (proj2 (Z.ltb_ge _ _) H2).
    iIntros "Hc". iApply ("H" with "Hs Hc").
  - apply Forall_cons in Hi as [Ho Hi], Hl as [Hp Hl]. simpl in Ho. subst ow.
    iApply (wp_call (lock_free_wp oom 0 [] p pv _ lst) (λ x, x) with "Hc"). iIntros (b) "[-> Hc]".
    iApply wp_ret. iApply (hand_over_wp _ _ _ [] with "Hc"); [done..|]. iIntros "Hc".
    iEval (simpl; rw app_comm_cons) in "Hc". iApply (look_ahead_wp with "Hc").
    rw (proj2 (Z.ltb_ge _ _) H2). iIntros "Hc". iApply ("H" with "Hs Hc").
Qed.

(** The end of an operation: the last lock is released. *)
Lemma return_wp l q qv l2 lst b sched Φ :
  chain (l ++ mkEntry q qv (Some 0) :: l2) lst -∗
  (chain (l ++ mkEntry q qv None :: l2) lst -∗
     wp oom (ret b) (λ s, wp oom (client_run set sched s) Φ)) -∗
  wp oom (client_run set (t :: sched) (f (Unlock q b))) Φ.
Proof.
  iIntros "Hc H". iApply call_step_wp. simpl.
  iApply (wp_call (unlock_wp oom 0 l q qv l2 lst) (λ x, x) with "Hc"). iIntros (_) "Hc".
  iApply wp_ret. by iApply "H".
Qed.

(** The read of the successor and of its value after [locate]. *)
Lemma compare_wp o e l q qv l2 lst sched Φ :
  chain (l ++ mkEntry q qv (Some 0) :: l2) lst -∗
  (chain (l ++ mkEntry q qv (Some 0) :: l2) lst -∗ wp oom (client_run set sched
     (f (match o with
         | Contains => Unlock q (start_val l2 =? e)%Z
         | Add => if (start_val l2 =? e)%Z then Unlock q false else AMalloc e q (start l2 lst)
         | Remove => if (start_val l2 =? e)%Z then RLock e q (start l2 lst) else Unlock q false
         end))) Φ) -∗
  wp oom (client_run set (t :: t :: sched) (f (FNext o e q))) Φ.
Proof.
  iIntros "Hc H". pose proof (next_to_intro 0 l l2 lst q qv) as Hn.
  iApply call_step_wp. simpl.
  iDestruct (chain_locked with "Hc") as "[Hp Hc]"; [exact Hn|]. wp_read "Hp". iApply wp_ret.
  iDestruct ("Hc" with "Hp") as "Hc". iApply call_step_wp. simpl.
  iDestruct (chain_next with "Hc") as "(%lk & %nx & Hp & Hc)"; [exact Hn|]. wp_read "Hp". iApply wp_ret.
  iDestruct ("Hc" with "Hp") as "Hc". destruct o; repeat case_match; by iApply "H".
Qed.

(** [contains] of a value that is not in the set. *)
Lemma contains_alone e l q qv l2 lst max sched Φ :
  here e l qv l2 → start_val l2 ≠ e →
  list_at max lst (l ++ mkEntry q qv None :: l2) -∗
  (list_at max lst (l ++ mkEntry q qv None :: l2) -∗
     wp oom (ret false) (λ s, wp oom (client_run set sched s) Φ)) -∗
  wp oom (client_run set (replicate (4 * length l + 8) t ++ sched) (f (OHead Contains e))) Φ.
Proof.
  iIntros (Hh He) "Hu H". replace (4 * length l + 8) with (4 * length l + 5 + 3) by lia.
  rw (replicate_add _ 3) -(assoc_L (++)). iApply (locate_wp with "Hu"); [done|].
  change (replicate 3 t ++ sched) with (t :: t :: t :: sched).
  iIntros "Hs Hc".
  iApply (compare_wp with "Hc"). rw (proj2 (Z.eqb_neq _ _) He). iIntros "Hc".
  iApply (return_wp with "Hc"). iIntros "Hc". iApply "H". rw list_at_middle. iFrame.
Qed.

(** [add] of a value that is not in the set. *)
Lemma add_alone e l q qv l2 lst max sched Φ :
  here e l qv l2 → start_val l2 ≠ e →
  list_at max lst (l ++ mkEntry q qv None :: l2) -∗
  (∀ y, list_at max lst (l ++ mkEntry q qv None :: mkEntry y e None :: l2) -∗
     wp oom (ret true) (λ s, wp oom (client_run set sched s) Φ)) -∗
  wp oom (client_run set (replicate (4 * length l + 13) t ++ sched) (f (OHead Add e))) Φ.
Proof.
  iIntros (Hh He) "Hu H". replace (4 * length l + 13) with (4 * length l + 5 + 8) by lia.
  rw (replicate_add _ 8) -(assoc_L (++)). iApply (locate_wp with "Hu"); [done|].
  change (replicate 8 t ++ sched) with (t :: t :: t :: t :: t :: t :: t :: t :: sched).
  iIntros "Hs Hc".
  iApply (compare_wp with "Hc"). rw (proj2 (Z.eqb_neq _ _) He). iIntros "Hc".
  iApply call_step_wp. simpl. iApply wp_malloc_check; [done|]. iIntros (y) "Hy". iApply wp_ret.
  do 3 (iApply call_step_wp; simpl; wp_write "Hy"; iApply wp_ret).
  iApply call_step_wp. simpl. rw {1}chain_mid. iDestruct "Hc" as "(Hx & H1 & H2 & Hl)".
  unfold entry_at. simpl.
  wp_write "Hx". iApply wp_ret.
  iApply (return_wp l q qv (mkEntry y e None :: l2) lst with "[Hx Hy H1 H2 Hl]").
  { rw chain_mid. unfold chain, entry_at. simpl. iFrame. }
  iIntros "Hc". iApply "H". rw list_at_middle. iFrame.
Qed.

(** [_remove] of a value that is in the set. *)
Lemma remove_alone e l q qv y l2 lst max sched Φ :
  here e l qv (mkEntry y e None :: l2) →
  list_at max lst (l ++ mkEntry q qv None :: mkEntry y e None :: l2) -∗
  (list_at max lst (l ++ mkEntry q qv None :: l2) -∗
     wp oom (ret true) (λ s, wp oom (client_run set sched s) Φ)) -∗
  wp oom (client_run set (replicate (4 * length l + 12) t ++ sched) (f (OHead Remove e))) Φ.
Proof.
  iIntros (Hh) "Hu H". replace (4 * length l + 12) with (4 * length l + 5 + 7) by lia.
  rw (replicate_add _ 7) -(assoc_L (++)). iApply (locate_wp with "Hu"); [done|].
  change (replicate 7 t ++ sched) with (t :: t :: t :: t :: t :: t :: t :: sched).
  iIntros "Hs Hc".
  iApply (compare_wp with "Hc"). simpl. rw Z.eqb_refl. iIntros "Hc".
  iApply call_step_wp. simpl. iEval (rw cons_middle assoc_L) in "Hc".
  iApply (wp_call (lock_free_wp oom 0 _ y e _ lst) (λ x, x) with "Hc"). iIntros (b) "[-> Hc]".
  iApply wp_ret. iEval (rw -assoc_L) in "Hc". rw chain_mid. iDestruct "Hc" as "(Hx & H1 & [[Hy H2] Hl])".
  unfold entry_at. simpl. iApply call_step_wp. simpl. wp_read "Hy". iApply wp_ret.
  iApply call_step_wp. simpl. wp_write "Hx". iApply wp_ret.
  iApply call_step_wp. simpl. wp_release "Hy". iApply wp_ret.
  iApply (return_wp l q qv l2 lst with "[Hx H1 H2 Hl]").
  { rw chain_mid. unfold entry_at, chain. simpl. iFrame. }
  iIntros "Hc". iApply "H". rw list_at_middle. iFrame.
Qed.
End operation.

(** ** The adder adds all values *)

(** The set holds the values below [j], and nobody holds a lock. *)
Definition filled (j : nat) (ns : list entry) : Prop :=
  wf ns ∧ idle ns ∧ val <$> ns = INT_MIN :: seqZ 0 (Z.of_nat j).

Lemma filled_last j ns : filled j ns → ∃ l q qv, ns = l ++ [mkEntry q qv None] ∧
  length l = j ∧ ∀ e, (Z.of_nat j ≤ e < INT_MAX)%Z → here e l qv [].
Proof.
  intros ([_ Hw] & Hi & Hv).
  destruct ns as [|[q qv ow] l _] using rev_ind; [done|].
  apply Forall_app in Hi as [Hi Ho]. apply Forall_cons in Ho as [Ho _]. simpl in Ho. subst ow.
  exists l, q, qv. split; [done|].
  assert (length l = j) as Hlen.
  { apply (f_equal length) in Hv. rw length_fmap length_app in Hv. simpl in Hv.
    rw length_seqZ in Hv. lia. }
  split; [done|]. intros e He. destruct (sorted_mid _ _ _ Hw) as (Hl & _).
  assert (qv < e)%Z as Hq.
  { assert (qv ∈ val <$> l ++ [mkEntry q qv None]) as Hin.
    { apply list_elem_of_fmap. exists (mkEntry q qv None). split; [done|set_solver]. }
    rw Hv in Hin. apply elem_of_cons in Hin as [->|Hin%elem_of_seqZ]; unfold INT_MIN; lia. }
  split; [done|]. split; [|simpl; lia]. eapply Forall_impl; [exact Hl|]. simpl. lia.
Qed.

Lemma filled_snoc j l q qv y :
  (Z.of_nat j < INT_MAX)%Z → filled j (l ++ [mkEntry q qv None]) →
  filled (S j) (l ++ [mkEntry q qv None; mkEntry y (Z.of_nat j) None]).
Proof.
  intros Hj Hf. destruct (filled_last _ _ Hf) as (l' & q' & qv' & [-> [= <- <-]]%app_inj_tail & _ & Hh).
  destruct (Hh (Z.of_nat j)) as (_ & _ & Hq); [lia|]. destruct Hf as (Hw & Hi & Hv).
  split; [|split].
  - apply insert_wf; [done|]. simpl in *. lia.
  - apply Forall_app in Hi as [Hi _]. apply Forall_app. split; [done|by repeat constructor].
  - rw cons_middle assoc_L fmap_app Hv seqZ_S. done.
Qed.

Lemma adder_calls set x r c m :
  client_step set Adder (AAdd x c, r) m =
  (c' ← step_pc set c; match c' with
    | Done _ => y ← int_add x 1; mret (AMax y, r)
    | _ => mret (AAdd x c', r)
    end) m.
Proof.
  unfold client_step, adder_step, mbind, M_bind. cbn [fst snd].
  destruct (step_pc set c m) as [[[] m']|e]; try done.
  by destruct (int_add x 1 m') as [[? ?]|?].
Qed.

Lemma adder_adds_wp set n lst j ns r sched Φ :
  (Z.of_nat j < n)%Z → int_range n → filled j ns →
  list_at set n lst ns -∗
  (∀ ns', ⌜filled (S j) ns'⌝ → list_at set n lst ns' -∗
     wp oom (client_run set sched (AMax (Z.of_nat (S j)), r)) Φ) -∗
  wp oom (client_run set (Adder :: replicate (4 * j + 13) Adder ++ sched) (AMax (Z.of_nat j), r)) Φ.
Proof.
  iIntros (Hj Hn Hf) "[Hs Hc] H". assert (Z.of_nat j < INT_MAX)%Z as Hm by (unfold int_range in Hn; lia).
  iApply solo_step_wp. simpl. iApply wp_bind. wp_read "Hs".
  rw (proj2 (Z.ltb_lt _ _) Hj) (proj2 (Z.leb_gt _ _) Hm). iApply wp_bind. do 3 iApply wp_ret.
  destruct (filled_last _ _ Hf) as (l & q & qv & -> & <- & Hh).
  iApply (add_alone set Adder (λ c, (AAdd (Z.of_nat (length l)) c, r)) _ (adder_calls set _ r) with "[$Hs $Hc]").
  - apply Hh. lia.
  - simpl. lia.
  - iIntros (y) "Hu". iApply wp_bind. iApply wp_int_add; [unfold int_range, INT_MIN in *; lia|]. iApply wp_ret.
    replace (Z.of_nat (length l) + 1)%Z with (Z.of_nat (S (length l))) by lia.
    iApply ("H" with "[%] Hu"). by apply filled_snoc.
Qed.

Fixpoint adder_sched (k j : nat) : list client_thread :=
  match k with O => [] | S k => Adder :: replicate (4 * j + 13) Adder ++ adder_sched k (S j) end.

Lemma adder_all_wp set n lst k j ns r sched Φ :
  (Z.of_nat (j + k) ≤ n)%Z → int_range n → filled j ns →
  list_at set n lst ns -∗
  (∀ ns', ⌜filled (j + k) ns'⌝ → list_at set n lst ns' -∗
     wp oom (client_run set sched (AMax (Z.of_nat (j + k)), r)) Φ) -∗
  wp oom (client_run set (adder_sched k j ++ sched) (AMax (Z.of_nat j), r)) Φ.
Proof.
  revert j ns. induction k as [|k IH]; intros j ns Hj Hn Hf; iIntros "Hu H"; cbn [adder_sched app].
  - rw Nat.add_0_r. by iApply ("H" with "[%] Hu").
  - rw -(assoc_L (++)). iApply (adder_adds_wp with "Hu"); [lia|done|done|].
    iIntros (ns') "%Hf' Hu". iApply (IH (S j) ns' with "Hu"); [lia|done|done|].
    by rw Nat.add_succ_r.
Qed.

(** ** [main] goes to its end *)

Lemma remove_calls set a x c m :
  client_step set Main (a, MRemove x c) m =
  (c' ← step_pc set c; match c' with
    | Done b => mret (a, if b then MContains x (OHead Contains x) else MRemove x (OHead Remove x))
    | _ => mret (a, MRemove x c')
    end) m.
Proof.
  unfold client_step, main_step, mbind, M_bind. cbn [fst snd].
  by destruct (step_pc set c m) as [[[| | | | | | | | | | | | | | | | | | |[]] m']|e].
Qed.

Lemma contains_calls set a x c m :
  client_step set Main (a, MContains x c) m =
  (c' ← step_pc set c; match c' with
    | Done b => assert (negb b) ;; mret (a, MHead)
    | _ => mret (a, MContains x c')
    end) m.
Proof.
  unfold client_step, main_step, mbind, M_bind. cbn [fst snd].
  by destruct (step_pc set c m) as [[[| | | | | | | | | | | | | | | | | | |[]] m']|e].
Qed.

Lemma main_stays set a k : client_run set (replicate k Main) (a, MDone) = mret (a, MDone).
Proof. induction k as [|k IH]; [done|]. unfold client_run. simpl. by fold client_run. Qed.

(** A value of the set, and the entry before it. *)
Lemma filled_find j ns x : (Z.of_nat j ≤ INT_MAX)%Z → filled j ns → (0 ≤ x < Z.of_nat j)%Z →
  ∃ l q qv y l2, ns = l ++ mkEntry q qv None :: mkEntry y x None :: l2 ∧ length l + length l2 < j ∧
    here x l qv (mkEntry y x None :: l2) ∧ here x l qv l2 ∧ start_val l2 ≠ x ∧
    wf (l ++ mkEntry q qv None :: l2).
Proof.
  intros Hj (Hw & Hi & Hv) Hx.
  assert (x ∈ val <$> ns) as Hin by (rw Hv; right; apply elem_of_seqZ; lia).
  apply list_elem_of_fmap in Hin as ([y yv ow] & Hy & Hin). simpl in Hy. subst yv.
  apply list_elem_of_split in Hin as (l' & l2 & ->).
  destruct l' as [|[q qv ow'] l _] using rev_ind.
  { destruct Hw as [Hs _]. simpl in Hs. unfold INT_MIN in Hs. lia. }
  rw -assoc_L in Hw Hi Hv |- *. simpl in *.
  apply Forall_app in Hi as [Hi [Ho' Ho]%Forall_cons]. simpl in Ho'. subst ow'.
  apply Forall_cons in Ho as [Ho Hi2]. simpl in Ho. subst ow.
  assert (length l + length l2 < j) as Hlen.
  { apply (f_equal length) in Hv. rw length_fmap length_app in Hv. simpl in Hv.
    rw length_seqZ in Hv. lia. }
  destruct (sorted_mid l (mkEntry q qv None) (mkEntry y x None :: l2) (proj2 Hw)) as (Hl & Hq & Hw2 & _).
  destruct (sorted_mid [] _ _ Hw2) as (_ & Hy & _). simpl in *.
  assert (Forall (λ en, val en < x)%Z l) as Hlx by (eapply Forall_impl; [exact Hl|]; simpl; lia).
  exists l, q, qv, y, l2. split; [done|]. split; [done|]. split; [|split; [|split]].
  - split; [done|]. split; [done|]. simpl. lia.
  - split; [done|]. split; [done|]. lia.
  - lia.
  - exact (proj1 (remove_wf l _ l2 _ Hw)).
Qed.

Lemma dispose_alone set a ns lst sched Φ :
  sorted ns → chain ns lst -∗
  (sentinel lst -∗ wp oom (client_run set sched (a, MFreeLast lst)) Φ) -∗
  wp oom (client_run set (replicate (3 * length ns + 1) Main ++ sched) (a, MValue (start ns lst))) Φ.
Proof.
  intros Hs. iIntros "Hc H". iInduction ns as [|[p v o] ns] "IH".
  - simpl. iDestruct "Hc" as "[_ Hl]". unfold sentinel. iApply solo_step_wp. simpl. iApply wp_bind.
    wp_read "Hl". do 2 iApply wp_ret. by iApply "H".
  - apply sorted_cons in Hs as [Hv Hs]. apply Forall_app in Hv as [_ [Hv _]%Forall_cons]. simpl in Hv.
    replace (3 * length (mkEntry p v o :: ns) + 1) with (3 + (3 * length ns + 1)) by (simpl; lia).
    rw (replicate_add 3) -(assoc_L (++)).
    change (replicate 3 Main ++ ?l) with (Main :: Main :: Main :: l).
    iDestruct "Hc" as "[[Hp Hns] Hl]". unfold entry_at. simpl.
    iApply solo_step_wp. simpl. iApply wp_bind. wp_read "Hp". rw (proj2 (Z.ltb_lt _ _) Hv).
    do 2 iApply wp_ret. iApply solo_step_wp. simpl. iApply wp_bind. wp_read "Hp". do 2 iApply wp_ret.
    iApply solo_step_wp. simpl. iApply wp_bind. wp_release "Hp". do 2 iApply wp_ret.
    iApply ("IH" with "[%] [$Hns $Hl] H"). done.
Qed.

Lemma replicate_split k K (t : client_thread) : k ≤ K →
  replicate K t = replicate k t ++ replicate (K - k) t.
Proof. intros Hk. rw -replicate_add. f_equal. lia. Qed.

Definition main_steps (j : nat) : nat := 12 * j + 40.

(** Whatever value is chosen, it is in the set, is removed, and is not found again. *)
Lemma main_alone set lst j ns a :
  0 < j → int_range (Z.of_nat j) → filled j ns →
  list_at set (Z.of_nat j) lst ns ⊢
  wp oom (client_run set (replicate (main_steps j) Main) (a, MMax)) (λ s, ⌜s = (a, MDone)⌝ ∧ emp)%I.
Proof.
  intros Hj Hr Hf. iIntros "[Hs Hc]". unfold main_steps.
  replace (12 * j + 40) with (S (12 * j + 39)) by lia. simpl.
  iApply solo_step_wp. simpl. do 2 iApply wp_bind. iApply wp_rand. iIntros (v Hv).
  unfold set_at. wp_read "Hs". unfold int_rem. rw decide_False; [|lia]. iApply wp_bind.
  do 3 iApply wp_ret. pose proof (Z.rem_bound_pos v (Z.of_nat j) ltac:(lia) ltac:(lia)) as Hx.
  set (x := Z.rem v (Z.of_nat j)) in *.
  destruct (filled_find j ns x ltac:(unfold int_range in Hr; lia) Hf Hx)
    as (l & q & qv & y & l2 & -> & Hlen & Hh & Hh2 & Hx2 & Hw).
  rw (replicate_split (4 * length l + 12)); [|lia].
  iApply (remove_alone set Main (λ c, (a, MRemove x c)) _ (remove_calls set a x) with "[$Hs $Hc]"); [exact Hh|].
  iIntros "Hu". iApply wp_ret. rw (replicate_split (4 * length l + 8)); [|lia].
  iApply (contains_alone set Main (λ c, (a, MContains x c)) _ (contains_calls set a x) with "Hu"); [done..|].
  iIntros "[Hs Hc]". iApply wp_bind. iApply wp_assert; [done|]. iApply wp_ret.
  set (ns := l ++ mkEntry q qv None :: l2) in *.
  assert (length ns ≤ j) as Hns by (unfold ns; rw length_app; simpl; lia).
  rw (replicate_split (S (3 * length ns + 1))); [|lia]. simpl. unfold set_at.
  iApply solo_step_wp. simpl. iApply wp_bind. wp_read "Hs". do 2 iApply wp_ret.
  iApply (dispose_alone with "Hc"); [apply Hw|]. iIntros "Hl". rw (replicate_split 2); [|lia].
  simpl. iApply solo_step_wp. simpl. iApply wp_bind. unfold sentinel. wp_release "Hl". do 2 iApply wp_ret.
  iApply solo_step_wp. simpl. iApply wp_bind. wp_release "Hs". do 2 iApply wp_ret.
  rw main_stays. iApply wp_ret. done.
Qed.

(** The adder is between two operations, and then [main] ends. *)
Lemma run_to_end set n first lst :
  (0 < n)%Z → int_range n →
  set_at set n first ∗ chain [mkEntry first INT_MIN None] lst ⊢
  wp oom (client_run set (adder_sched (Z.to_nat n) 0 ++ replicate (main_steps (Z.to_nat n)) Main)
    (AMax 0, MMax)) (λ s, ⌜s = (AMax n, MDone)⌝ ∧ emp)%I.
Proof.
  intros Hn Hr. pose proof (Z2Nat.id n ltac:(lia)) as Hid. revert Hid. generalize (Z.to_nat n).
  intros j <-. iIntros "H".
  iApply (adder_all_wp set _ lst j 0 [mkEntry first INT_MIN None] with "H"); [lia|done|..].
  - split; [split; [done|]|split; [by repeat constructor|done]].
    apply sorted_cons. split; [by repeat constructor|repeat constructor].
  - iIntros (ns Hf) "Hu". iApply (main_alone with "Hu"); [lia|done|done].
Qed.

(** ** After the disposal *)

(** The set is not at its address any more. *)
Definition no_set (set : Z) (m : mem object) : Prop := ∀ s, heap m !! set ≠ Some (OSet s).

Definition keeps_no_set {X} (set : Z) (p : M (mem object) X) : Prop :=
  ∀ m x m', p m = Ok (x, m') → no_set set m → no_set set m'.

Lemma keeps_ret {X} set (x : X) : keeps_no_set set (mret x).
Proof. intros m y m' Hr Hn. by inv_bind. Qed.

Lemma keeps_bind {X Y} set (p : M (mem object) X) (k : X → M (mem object) Y) :
  keeps_no_set set p → (∀ x, keeps_no_set set (k x)) → keeps_no_set set (p ≫= k).
Proof. intros Hp Hk m y m' Hr Hn. inv_bind. eapply Hk; [done|]. by eapply Hp. Qed.

Lemma keeps_load {R} `{Struct object R} set (g : field R Z) p : keeps_no_set set (load g p).
Proof.
  intros m x m' Hl Hn. unfold load, deref in Hl. inv_bind.
  destruct (heap m !! p) as [v|]; [|done]. destruct (as_struct v); [|done]. inv_bind.
  case_match; [by inv_bind|done].
Qed.

Lemma keeps_store set (g : field node Z) p x : keeps_no_set set (store g p x).
Proof.
  intros m u m' Hs Hn s. unfold store, deref in Hs. inv_bind.
  destruct (heap m !! p) as [[r|r]|]; simplify_eq/=. destruct (decide (p = set)) as [->|Hne].
  - by rw lookup_insert_eq.
  - rw lookup_insert_ne //.
Qed.

Lemma keeps_malloc set (r : node) : keeps_no_set set (malloc r).
Proof.
  intros m p m' Hm Hn s. unfold malloc in Hm. destruct (alloc (heap m)) as [q|]; simplify_eq/=; [|done].
  destruct (decide (p = set)) as [->|Hne]; [by rw lookup_insert_eq|by rw lookup_insert_ne].
Qed.

Lemma keeps_free set p : keeps_no_set set (free p).
Proof.
  intros m u m' Hf Hn s. unfold free in Hf. case_decide; [by simplify_eq|].
  destruct (heap m !! p); simplify_eq/=. intros [_ Hs]%lookup_delete_Some. by apply (Hn s).
Qed.

Lemma keeps_check set b : keeps_no_set set (abort_if b).
Proof. destruct b; [by intros m x m'|apply keeps_ret]. Qed.

Lemma keeps_ext {X} set (p p' : M (mem object) X) :
  (∀ m, p m = p' m) → keeps_no_set set p' → keeps_no_set set p.
Proof. intros He Hp m x m' Hr. rw He in Hr. by eapply Hp. Qed.

Lemma keeps_lock set p : keeps_no_set set (lock_attempt f_lock p).
Proof.
  eapply keeps_ext; [intros; apply lock_attempt_law|]. apply keeps_bind; [apply keeps_load|]. intros x.
  case_match; [apply keeps_bind; [apply keeps_store|intros; apply keeps_ret]|apply keeps_ret].
Qed.

Lemma keeps_unlock set p : keeps_no_set set (unlock f_lock p).
Proof. eapply keeps_ext; [intros; apply unlock_law|]. apply keeps_store. Qed.

Create HintDb keeps.
#[local] Hint Resolve keeps_ret keeps_load keeps_store keeps_malloc keeps_free keeps_check keeps_lock
  keeps_unlock : keeps.

(** No operation makes a set. *)
Lemma step_pc_keeps set p c : keeps_no_set set (step_pc p c).
Proof. destruct c; simpl; repeat (apply keeps_bind; [by auto with keeps|intros]); auto with keeps. Qed.

Lemma test_faults set x m : no_set set m → adder_step set (AMax x) m = Err EFault.
Proof.
  intros Hn. unfold adder_step, get_maxelems, load, deref, mbind, M_bind.
  destruct (heap m !! set) as [[r|s]|] eqn:Hs; [done|by destruct (Hn s)|done].
Qed.

Lemma test_run_faults set x r m : no_set set m → client_run set [Adder] (AMax x, r) m = Err EFault.
Proof.
  intros Hn. unfold client_run, client_step, mbind, M_bind. cbn [fst]. by rw (test_faults set x m Hn).
Qed.

Lemma client_keeps set t c : c.2 = MDone → keeps_no_set set (client_step set t c).
Proof.
  destruct c as [a r]. simpl. intros ->.
  destruct t; simpl; (apply keeps_bind; [|auto with keeps]); [|auto with keeps].
  destruct a; simpl; [|..|auto with keeps].
  - apply keeps_bind; [apply keeps_load|]. intros n. case_match; [|auto with keeps].
    apply keeps_bind; auto with keeps.
  - apply keeps_bind; [apply step_pc_keeps|]. intros c'. destruct c'; auto with keeps.
    apply keeps_bind; [|auto with keeps]. intros m y m' Hi. unfold int_add in Hi. case_decide; by inv_bind.
Qed.

Lemma free_clears set m u m' : set ≠ 0%Z → free set m = Ok (u, m') → no_set set m'.
Proof.
  intros Hset Hf s. unfold free in Hf. rw decide_False // in Hf. destruct (heap m !! set); simplify_eq/=.
  by rw lookup_delete_eq.
Qed.

(** The last step of [main] frees the set. *)
Lemma main_ends set t c m c' m' :
  set ≠ 0%Z → client_step set t c m = Ok (c', m') → (c.2 = MDone → no_set set m) → c'.2 = MDone →
  no_set set m'.
Proof.
  intros Hset Hs Hn Hd. assert (c.2 = MDone ∨ c.2 ≠ MDone) as [Hr|Hr] by (destruct c.2; by (left + right)).
  { eapply client_keeps; [exact Hr|exact Hs|by apply Hn]. }
  clear Hn. destruct c as [a r]. simpl in Hr. destruct t; simpl in Hs; [by inv_bind|].
  apply bind_inv in Hs as (r' & m1 & Hs & Hm). inv_bind. destruct r; simpl in Hs; inv_bind; try done.
  all: repeat case_match; inv_bind; try done.
  by eapply free_clears.
Qed.

Lemma main_ended set sched c m c' m' :
  set ≠ 0%Z → client_run set sched c m = Ok (c', m') → (c.2 = MDone → no_set set m) → c'.2 = MDone →
  no_set set m'.
Proof.
  intros Hset. revert c m. induction sched as [|t sched IH]; intros c m Hr Hn Hd.
  - unfold client_run in Hr. inv_bind. by apply Hn.
  - apply bind_inv in Hr as (c1 & m1 & Hs & Hr). eapply IH; [exact Hr| |done].
    by eapply main_ends.
Qed.

(** Once [main] has ended, the adder cannot. *)
Lemma outlived_run set sched c m c' m' :
  client_run set sched c m = Ok (c', m') → c.2 = MDone → c.1 ≠ ADone → no_set set m →
  c'.2 = MDone ∧ c'.1 ≠ ADone ∧ no_set set m'.
Proof.
  revert c m. induction sched as [|t sched IH]; intros [a r] m Hr Hd Ha Hn.
  - unfold client_run in Hr. by inv_bind.
  - apply bind_inv in Hr as ([a1 r1] & m1 & Hs & Hr). simpl in Hd, Ha. subst r.
    pose proof (client_keeps set t (a, MDone) eq_refl _ _ _ Hs Hn) as Hn1.
    assert (r1 = MDone ∧ a1 ≠ ADone) as [-> Ha1]; [|by apply (IH _ _ Hr)].
    destruct t; simpl in Hs; [|by inv_bind]. apply bind_inv in Hs as (a' & m2 & Hs & He). inv_bind.
    split; [done|]. destruct a as [x|x c|]; [by rw (test_faults set x m Hn) in Hs| |done].
    simpl in Hs. inv_bind. case_match; by inv_bind.
Qed.
End solo.
