(* ===== verification/LcSetTheorems.v ===== *)
(** * Theorems about the lock-coupling set and its client *)

From iris.proofmode Require Import proofmode.
From S2P Require Import Prelude CHeap HeapLogic Atomics LcSet LcSetSpec LcSetInv LcSetSystem LcSetClient LcSetSolo.
Import LcSet.

Section theorems.
Context {A : Allocator object} {AL : AllocatorLaws A}.
Context {At : Atomics object} {AtL : AtomicsLaws At}.

(** C37: under every schedule, threads that call [contains], [add] and [_remove]
    on values other than [INT_MIN] and [INT_MAX] run without faults or undefined
    behaviour (they stop only by [abort], when [malloc] fails), and are at all
    times where the threads of the atomic set are after a part of the same steps
    in the same order, with the same results. *)
Theorem set_linearizable (max : Z) (todos : list (list (op * Z))) (sched : list nat) (k : nat) :
  Forall (Forall (λ oe, in_range oe.2)) todos →
  match system max todos sched (mkMem ∅ k) with
  | Ok ((_, ts), _) => ∃ sched', sched' `sublist_of` sched ∧
      abs_thread <$> ts = Spec.threads (Spec.run sched' (Spec.init todos))
  | Err e => e = EAbort ∧ oom
  end.
Proof.
  intros Hr. pose proof (set_system_ok max todos sched k Hr) as H.
  destruct (system _ _ _ _) as [[[set ts] m]|e]; [|done]. destruct H as (sched' & Hsub & Hm).
  exists sched'. split; [done|]. destruct Hm as (mx & lst & ns & [(_ & _ & ->) _]). done.
Qed.

(** C38: no deadlock.  In every state a system reaches, unless all threads have
    finished there is one whose next step is not a failed attempt to lock. *)
Theorem set_deadlock_free (max : Z) (todos : list (list (op * Z))) (sched : list nat) (k : nat)
    (set : Z) (ts : list thread) (m : mem object) (i : nat) (t : thread) :
  Forall (Forall (λ oe, in_range oe.2)) todos →
  system max todos sched (mkMem ∅ k) = Ok ((set, ts), m) →
  ts !! i = Some t → finished t = false →
  ∃ j u, ts !! j = Some u ∧ finished u = false ∧ blocked m u = false.
Proof.
  intros Hr Hs. pose proof (set_system_ok max todos sched k Hr) as H. rw Hs in H.
  destruct H as (sched' & _ & Hm). by eapply deadlock_free.
Qed.

(** No leaks.  When no operation is under way, [dispose_set] frees every
    node and the set. *)
Theorem set_no_leaks (max : Z) (todos : list (list (op * Z))) (sched : list nat) (k fuel : nat)
    (set : Z) (ts : list thread) (m : mem object) :
  Forall (Forall (λ oe, in_range oe.2)) todos →
  system max todos sched (mkMem ∅ k) = Ok ((set, ts), m) →
  Forall (λ t, doing t = None) ts → sum_list_with length todos < fuel →
  ∃ m', dispose_set fuel set m = Ok (tt, m') ∧ heap m' = ∅.
Proof.
  intros Hr Hs Hts Hf. pose proof (set_system_ok max todos sched k Hr) as H. rw Hs in H.
  destruct H as (sched' & _ & mx & lst & ns & Hm).
  pose proof (Spec.set_size_run _ sched' _ (Spec.set_size_init todos)) as Hsize. unfold Spec.size_ok in Hsize.
  assert (size (Spec.elems (Spec.run sched' (Spec.init todos))) + 1 ≤ fuel) as Hg by lia.
  destruct m as [h k'].
  pose proof (wp_run _ _ _ _ h k' (set_dispose_wp fuel set mx lst ns ts _ Hts Hg) Hm) as Hd.
  destruct (dispose_set _ _ _) as [[[] m']|e]; [|by destruct Hd]. exists m'. by split.
Qed.

Context {Rn : Rand} {RL : RandLaws Rn}.
Import LcSetClient.

Lemma main_client argv a1 n a2 seed k :
  argv !! 1 = Some a1 → atoi a1 = (mret n : M (mem object) Z) →
  argv !! 2 = Some a2 → atoi a2 = (mret seed : M (mem object) Z) →
  match create_set n (mkMem ∅ k) with
  | Ok (set, m) => (∃ first last,
        hholds (set_at set n first ∗ chain [mkEntry first INT_MIN None] last)%I (heap m)) ∧
      ∀ sched, main argv sched (mkMem ∅ k) = client_run set sched (AMax 0, MMax) m
  | Err e => (e = EAbort ∧ oom) ∧ ∀ sched, main argv sched (mkMem ∅ k) = Err e
  end.
Proof.
  intros H1 Ha1 H2 Ha2.
  pose proof (wp_run oom _ emp%I _ ∅ k (emp_of (create_set_wp n)) eq_refl) as Hc.
  assert (∀ sched, main argv sched (mkMem ∅ k) =
    (set ← create_set n; client_run set sched (AMax 0, MMax)) (mkMem ∅ k)) as Hmain.
  { intros sched. unfold main, arg. rw H1 H2.
    unfold mbind, M_bind, mret, M_ret in *. rw Ha1 Ha2. done. }
  unfold mbind, M_bind in Hmain. by destruct (create_set n _) as [[set m]|e].
Qed.

(** C39: the client is safe, its assertion included, as long as [main] has not
    begun to dispose of the set: a run that stops has met a state in which it
    has, or [malloc] has failed. *)
Theorem lcset_client_safe (argv : list string) (a1 a2 : string) (n seed : Z)
    (sched : list client_thread) (k : nat) :
  argv !! 1 = Some a1 → atoi a1 = (mret n : M (mem object) Z) → (0 < n)%Z → int_range n →
  argv !! 2 = Some a2 → atoi a2 = (mret seed : M (mem object) Z) →
  (∀ sched1 c1 m1, sched1 `prefix_of` sched → main argv sched1 (mkMem ∅ k) = Ok (c1, m1) →
     disposing c1.2 = false) →
  match main argv sched (mkMem ∅ k) with
  | Ok (_, _) => True
  | Err e => e = EAbort ∧ oom
  end.
Proof.
  intros H1 Ha1 Hn Hr H2 Ha2 Hd. pose proof (main_client argv a1 n a2 seed k H1 Ha1 H2 Ha2) as Hc.
  destruct (create_set n _) as [[set m]|e].
  - destruct Hc as [(first & last & Hi) Hm]. rw Hm.
    apply client_run_safe with n; [done|done|by apply (h_in (set_client_start set n first last))|].
    intros sched1 c1 m1 Hpre Hrun. eapply Hd; [done|]. by rw Hm.
  - destruct Hc as [He Hm]. by rw Hm.
Qed.
(** C40: [main] does not join the adder and disposes of the set under it.  For
    every number of elements there is a schedule in which the adder has added all
    values, [main] has ended and all memory is free, whatever numbers [rand] yields
    and addresses [malloc] does.  And whenever [main] has ended before the adder,
    the adder never ends, under any further schedule: the next test of its loop
    reads the freed set. *)
Theorem adder_use_after_free (argv : list string) (a1 a2 : string) (n seed : Z) (k : nat) :
  argv !! 1 = Some a1 → atoi a1 = (mret n : M (mem object) Z) → (0 < n)%Z → int_range n →
  argv !! 2 = Some a2 → atoi a2 = (mret seed : M (mem object) Z) → ¬ oom →
  (∃ sched m, main argv sched (mkMem ∅ k) = Ok ((AMax n, MDone), m) ∧ heap m = ∅) ∧
  ∀ sched a m, main argv sched (mkMem ∅ k) = Ok ((a, MDone), m) → a ≠ ADone →
    ∀ sched' c m', main argv (sched ++ sched') (mkMem ∅ k) = Ok (c, m') →
      c.1 ≠ ADone ∧
      ∀ x, c.1 = AMax x → main argv (sched ++ sched' ++ [Adder]) (mkMem ∅ k) = Err EFault.
Proof.
  intros H1 Ha1 Hn Hr H2 Ha2 Hoom. pose proof (main_client argv a1 n a2 seed k H1 Ha1 H2 Ha2) as Hc.
  destruct (create_set n _) as [[set m0]|e]; [|by destruct Hc as [[_ He] _]].
  destruct Hc as [(first & last & Hi) Hm]. split.
  - eexists (adder_sched (Z.to_nat n) 0 ++ replicate (main_steps (Z.to_nat n)) Main).
    rw Hm. destruct m0 as [h k0].
    pose proof (wp_run oom _ _ _ h k0 (run_to_end set n first last Hn Hr) Hi) as Hrun.
    destruct (client_run _ _ _ _) as [[c m]|e]; [|by destruct Hrun]. destruct Hrun as [-> He].
    by exists m.
  - intros sched a m. setoid_rewrite Hm. intros Hs Ha sched' c m'. rw client_run_app.
    intros Hs'. apply bind_inv in Hs' as (c1 & m1 & Hs1 & Hs'). rw Hs in Hs1. simplify_eq.
    assert (set ≠ 0%Z) as Hset.
    { assert (set_at set n first ∗ chain [mkEntry first INT_MIN None] last ⊢ ⌜set ≠ 0%Z⌝) as Hp.
      { iIntros "[Hs _]". by iApply pointsto_nonnull. }
      by apply (h_in Hp) in Hi. }
    destruct (outlived_run set sched' _ m1 c m' Hs') as (Hd & Hc & Hno); [done|done| |].
    { by eapply (main_ended set sched). }
    split; [done|]. intros x Hx. rw client_run_app (bind_Ok _ _ _ _ _ Hs) client_run_app (bind_Ok _ _ _ _ _ Hs').
    destruct c as [a' r']. simpl in Hx. subst a'. by apply test_run_faults.
Qed.
End theorems.

Import LcSetClient.

(** ** Witnesses *)

(** Three threads in turns, and the last one alone. *)
Definition demo_todos : list (list (op * Z)) :=
  [[(Add, 5); (Remove, 5)]; [(Add, 5); (Contains, 5)]; [(Add, 3); (Contains, 5); (Remove, 4)]]%Z.

Definition demo_sched : list nat := concat (replicate 60 [0; 1; 2]) ++ replicate 20 2.

Lemma demo_in_range : Forall (Forall (λ oe, in_range oe.2)) demo_todos.
Proof. repeat constructor. Qed.

Definition demo_end : (Z * list thread) * mem object :=
  Eval vm_compute in
    match system (A := bump_allocator object) 10 demo_todos demo_sched (mkMem ∅ 0) with
    | Ok x => x
    | Err _ => ((0%Z, []), mkMem ∅ 0)
    end.

Lemma set_linearizable_witness :
  results <$> demo_end.1.2 = [[true; true]; [false; false]; [true; false; false]] ∧
  ∃ sched', sched' `sublist_of` demo_sched ∧
    abs_thread <$> demo_end.1.2 = Spec.threads (Spec.run sched' (Spec.init demo_todos)).
Proof.
  split; [vm_compute; reflexivity|].
  exact (set_linearizable (A := bump_allocator object) 10 demo_todos demo_sched 0 demo_in_range).
Defined.

(** Two threads wait for the lock of the first node, which the other holds. *)
Definition demo_wait : (Z * list thread) * mem object :=
  Eval vm_compute in
    match system (A := bump_allocator object) 10 demo_todos (concat (replicate 6 [0; 1; 2]))
            (mkMem ∅ 0) with
    | Ok x => x
    | Err _ => ((0%Z, []), mkMem ∅ 0)
    end.

Lemma set_deadlock_free_witness :
  map (blocked demo_wait.2) demo_wait.1.2 = [false; true; true] ∧
  ∃ j u, demo_wait.1.2 !! j = Some u ∧ finished u = false ∧ blocked demo_wait.2 u = false.
Proof.
  split; [vm_compute; reflexivity|].
  apply (set_deadlock_free (A := bump_allocator object) 10 demo_todos
    (concat (replicate 6 [0; 1; 2])) 0 demo_wait.1.1 demo_wait.1.2 demo_wait.2 0
    (mkThread (Some (FNext Add 5 1)) [(Remove, 5%Z)] [])).
  - exact demo_in_range.
  - vm_compute. reflexivity.
  - reflexivity.
  - reflexivity.
Defined.

Lemma set_no_leaks_witness :
  size (heap demo_end.2) = 4 ∧
  ∃ m', dispose_set 8 demo_end.1.1 demo_end.2 = Ok (tt, m') ∧ heap m' = ∅.
Proof.
  split; [vm_compute; reflexivity|].
  apply (set_no_leaks (A := bump_allocator object) 10 demo_todos demo_sched 0 8 demo_end.1.1
    demo_end.1.2 demo_end.2).
  - exact demo_in_range.
  - vm_compute. reflexivity.
  - repeat constructor.
  - apply Nat.ltb_lt. reflexivity.
Defined.

Definition client_sched : list client_thread := concat (replicate 30 [Adder; Main]).

(** Whether a run has not begun to dispose of the set. *)
Definition in_use_after (sched : list client_thread) : bool :=
  match main (A := bump_allocator object) ["lcset"; "2"; "7"] sched (mkMem ∅ 0) with
  | Ok (c, _) => negb (disposing c.2)
  | Err _ => true
  end.

Lemma client_sched_in_use sched :
  sched `prefix_of` client_sched → in_use_after sched = true.
Proof.
  intros [rest H]. assert (sched = take (length sched) client_sched) as Hs by (by rw H take_app_length).
  assert (length sched < 61) as Hl.
  { assert (length client_sched = 60) as Hc by done. rw H length_app in Hc. lia. }
  rw Hs. revert Hl. generalize (length sched). clear. intros n Hn.
  assert (forallb (λ n, in_use_after (take n client_sched)) (seq 0 61) = true) as Hall
    by (vm_compute; reflexivity).
  rw forallb_forall in Hall. apply Hall, in_seq. lia.
Qed.

Lemma lcset_client_safe_witness :
  ∃ c m, main (A := bump_allocator object) ["lcset"; "2"; "7"] client_sched (mkMem ∅ 0) = Ok (c, m).
Proof.
  pose proof (lcset_client_safe (A := bump_allocator object) ["lcset"; "2"; "7"] "2" "7" 2 7
    client_sched 0 eq_refl eq_refl ltac:(lia) ltac:(split; vm_compute; discriminate)
    eq_refl eq_refl) as H.
  assert (∀ sched1 c1 m1, sched1 `prefix_of` client_sched →
    main (A := bump_allocator object) ["lcset"; "2"; "7"] sched1 (mkMem ∅ 0) = Ok (c1, m1) →
    disposing c1.2 = false) as Hd.
  { intros sched1 c1 m1 Hpre Hrun. pose proof (client_sched_in_use sched1 Hpre) as Hu.
    unfold in_use_after in Hu. rw Hrun in Hu. by apply negb_true_iff. }
  specialize (H Hd). destruct (main _ client_sched _) as [[c m]|e]; [by exists c, m|].
  destruct H as [_ H]. by apply bump_no_oom in H.
Defined.

Lemma adder_use_after_free_witness :
  ∃ sched m, main (A := bump_allocator object) ["lcset"; "1"; "7"] sched (mkMem ∅ 0) =
      Ok ((AMax 1, MDone), m) ∧ heap m = ∅ ∧
    main (A := bump_allocator object) ["lcset"; "1"; "7"] (sched ++ [Adder]) (mkMem ∅ 0) = Err EFault.
Proof.
  destruct (adder_use_after_free (A := bump_allocator object) ["lcset"; "1"; "7"] "1" "7" 1 7 0
    eq_refl eq_refl ltac:(lia) ltac:(split; vm_compute; discriminate) eq_refl eq_refl
    (bump_no_oom object)) as [(sched & m & Hs & Hm) Hend].
  exists sched, m. split; [exact Hs|]. split; [exact Hm|].
  refine (proj2 (Hend sched (AMax 1) m Hs _ [] (AMax 1, MDone) m _) 1%Z eq_refl).
  - discriminate.
  - rw app_nil_r. exact Hs.
Defined.
